(* ===== verification/_CoqProject ===== *)
-Q . S2P
Prelude.v
RustStr.v
Error.v
Net.v
Config.v
Toml.v
Client.v
IpDenylist.v
RegexRules.v
Schedule.v
Validate.v
Redaction.v
Allowlist.v
BlocklistParser.v
Engine.v
Loader.v
Rounds.v
Record.v
Mesh.v
Authority.v
Hickory.v
Answers.v
Odoh.v
Resolver.v
Rewrite.v
RateLimiter.v
QueryLog.v
DiskLog.v
Handler.v
Listeners.v
Http.v
Metrics.v
Daemon.v
Concurrent.v
Accounting.v
Sequential.v
Service.v
Process.v
Warnings.v
