(* ===== verification/Prelude.v ===== *)
(** * rustydns: a verification library

    rustydns is a privacy-first DNS resolver daemon in Rust ([src/crates/]): a query that
    a listener hands over is refused by policy, answered from an authoritative zone or a
    local rewrite map, blocked by a blocklist, or forwarded over an encrypted upstream
    transport (DoT, DoH, DoQ, or oblivious DoH), whose answer is defended before it is
    served.  This library is a shallow embedding of that program: pure functions for its
    pure code, explicit state passing for its shared cells and mutexes, [result] for its
    errors, and functions of a history for what the network and the random source do.

    ** The parts, and where they are

    Shared: this file has the [result] monad, string literals, automation ([run_ok],
    [bools], the hint database) and list lemmas (a stable sort, the first maximum);
    [RustStr] is [str] of the Rust standard library (trimming, splitting, parsing and
    printing of integers); [Net] is [std::net] (addresses, their parsers and printers);
    [Error] ([error.rs]) is the error type of the crates, with its texts.

    [crates/rustydns-core]:
    - [Config] ([config.rs]): the configuration, its defaults, SafeSearch presets, the
      forced-loopback metrics listener, the redaction of credentials;
    - [Toml] ([config.rs], the serde attributes): the configuration as a value tree, each
      structure a codec made of its fields (their keys, defaults and [deny_unknown_fields]),
      with the laws a codec obeys;
    - [Client] ([client.rs]): client identities and what their anonymised form reveals;
    - [IpDenylist] ([ip_denylist.rs]): CIDR rules on resolved addresses;
    - [RegexRules] ([regex_rules.rs]): the bounds on regular-expression rules;
    - [Schedule] ([schedule.rs]): weekday and time-of-day block windows;
    - [Validate] ([config.rs], [validate_config]): the checks of a configuration, in order;
      [Redaction]: what redacted for display passes the same checks;
    - [Record] ([record.rs]): DNS records.

    [crates/rustydns-blocklist]: [BlocklistParser] ([parser.rs]), the four list formats;
    [Allowlist] ([allowlist.rs]); [Engine] ([engine.rs]), the sets built from sources of
    two trust levels, per-client groups, and lookups.

    [crates/rustydns-authority]: [Mesh] ([mesh.rs]), the signed zone bundle; [Authority]
    ([lib.rs]), zones, alias chasing and reloads with an anti-rollback watermark.

    [crates/rustydns-resolver]: [Hickory] gathers what the code uses of the DNS library;
    [Answers] ([lib.rs]), the filters every upstream answer passes; [Odoh] ([odoh.rs]),
    the oblivious transport; [Resolver] ([lib.rs]), arms, conditional routes and errors.

    [crates/rustydnsd]: [Rewrite] ([rewrite.rs]), [RateLimiter] ([rate_limiter.rs]),
    [QueryLog] ([query_log.rs]), [DiskLog] ([query_log_disk.rs]), the writer on the other
    end of its channel, [Loader] ([blocklist_loader.rs]), [Rounds] for rounds of it that
    overlap, and [Handler] ([handler.rs]), the
    pipeline that composes the services; around it [Listeners] ([listeners.rs] and the
    listener groups of [main.rs]), [Http] ([doh.rs] and the pages of [metrics.rs]), [Metrics]
    ([metrics.rs], the registered families), and [Daemon] ([main.rs]), which starts, reloads
    and runs all of the above.  [Concurrent] takes requests and reloads apart into the steps
    that interleave in the running daemon (a stage, the load of a resolver, its answer, the
    screening, the log, the response; the store of one cell), [Accounting] keeps the books
    of such schedules, and [Sequential] finds the events of [Daemon] among them.  On top of
    them, [Service] specifies what the whole daemon
    answers, [Process] ([main.rs]) is the process from its arguments to its exit, and
    [Warnings] ([config.rs], [main.rs], the resolver's [lib.rs]) is what the daemon says of a
    configuration that it accepts.

    A handler ([Handler.DnsHandler]) holds the components' states.  [Handler.handle_request]
    takes the clocks, a request and the handler to a response and the next handler; it
    asks [RateLimiter.check], [Schedule.is_blocked_at_conservative], [Authority.lookup],
    [Rewrite.rewrite_lookup], [Engine.is_blocked_for_group] and [Resolver.resolve], in this
    order, and ends in [QueryLog.record].  Reloads are [Authority.reload_mesh],
    [Loader.reload], which calls [Engine.load_many_with_trust] and [Engine.load_group], the
    [Handler.swap_*] updates and [Listeners.reload_listeners].  A [Daemon.Daemon] holds the
    handler, the loader, the listeners and the network; [Daemon.start_daemon] makes one of
    a configuration, and [Daemon.step] takes it through an event: a SIGHUP
    ([Daemon.handle_sighup]), a timer, or a query.

    ** What the theorems show

    - The whole ([Service], [Process]): after any history the daemon answers as a
      specification says that knows no engine, cache or policy map ([daemon_serves]: the
      gates, the policy in force, the zones, the rewrites, the latest lists read, the
      upstream); and the process serves until it is told to stop, and then waits for the DNS
      server to drain, for at most its timeout, unless a second signal cuts that short.
    - Interleavings ([Concurrent], [Accounting], [Sequential]): in any schedule a request is
      sent a response within sixteen steps of its own, the one the whole handler gives for
      the cells as they were at moments of that request (a later blocklist may screen an
      upstream answer; a loaded resolver is kept to the end); a reload is seen by every
      request that comes after it ([views_current]); a client that is denied throughout is
      rejected ([interleaved_denied]); each request is logged and counted
      once.  [Sequential] relates the two models of the daemon to each other: its histories,
      in which requests and reloads are single steps, are schedules in which nothing overlaps.
    - The pipeline ([Handler]): the reply is that of the first reason, in one fixed order;
      a client outside its schedule or zones learns nothing of any backend; answers of the
      resolver are defended, and its failures are [SERVFAIL]; a response fits its datagram,
      and says so when it is cut, unless the options it echoes exceed the datagram alone;
      every request is logged and counted once; a client has the last policy that names its
      address; the records of an upstream whose names hickory can read back pass through
      unchanged but for their TTL and what reading does to names (such as their case).
    - The daemon ([Daemon]): it refines the product of its parts, each of which sees its
      own events only; what is in force is of the last valid configuration, none of which
      is silently left out (policies, their windows, rewrites, groups, rules); signals cannot fetch the lists more than once a minute; the
      operator's exact rewrites win over SafeSearch; what [--print-config] prints loads
      again, without the credentials.
    - Configurations ([Validate], [Toml], [Warnings]): the listeners of a valid one cannot
      steal each other's packets, and plain DNS is used only where it says so; reading fails
      closed on unknown keys, and writing and reading are inverse; a resolver that asks in
      the clear or does not validate was warned of.
    - Listeners and HTTP ([Listeners], [Http]): whatever reloads and the system do, the
      recorded listeners are the ones that serve; a granted reload makes the configuration
      what is recorded and what serves; passed sockets are adopted where they belong; DNS over HTTPS serves the
      handler's responses and nothing else; the queries page is the latest entries.
    - Lists and disks ([Loader], [Rounds], [DiskLog]): after any rounds the engine blocks
      what the latest content ever read of each source says; when rounds overlap a list in
      force is still what some round gathered, source by source, and opens nothing, but may
      be out of date; the disk log is the rotating log of its specification, stays within its
      bounds and private.
    - Resolution ([Resolver], [Answers], [Odoh]): the records of an answer are those of the
      responsible upstream that were reached from the queried name, have its type and are not
      private when the rebinding defence is on, each once; with [fail_closed] a route's
      failure is never retried elsewhere; the longest route wins; the oblivious arm asks
      targets for their public configuration only and posts sealed, padded queries to its
      relays only, from where at most three redirects carry them on, over HTTPS; it succeeds
      only with an answer that decrypts, within two posts.
    - Blocking ([Engine], [Allowlist], [BlocklistParser], [IpDenylist], [Schedule]): the
      engine blocks exactly what its sources, allowlist and rules say; an untrusted
      source can never unblock a name; groups are isolated; parsed entries are valid
      domains; CIDR rules and windows mean what they spell.
    - Zones ([Authority], [Mesh]): a bundle is accepted only if signed, fresh and of
      exactly its zone; reloads never go back, not even when reloaders race; an answer is the
      alias chain of its zones' records and all that is at its end.
    - The local services ([Rewrite], [RateLimiter], [QueryLog], [Client], [Config]): the rule
      in force decides; the limiter's memory is bounded and its verdict is that of
      the client's own bucket, which is kept unless it is idle or has to make room; the log
      is the latest entries, loses nothing unaccounted, and tells neither a client from its
      network nor a name from its hash; metrics stay on loopback; the thirty families of the metrics are registered under names of their own.

    ** Conventions, fuel and bounds

    A [str] is the list of its scalar values; where the code measures bytes, so does the
    model ([str_len], [as_bytes]).  Machine integers are [Z] with their wrap-around or
    saturation written out.  Clocks are arguments.  [HashMap]s and [HashSet]s are finite maps
    and sets; where iteration order could matter the map's own order is used and the
    theorem does not depend on it.  Log lines are omitted, except the audit lines of a
    policy, the warnings of [Warnings] and that of a resolver that is skipped.

    Loops without structural measure take fuel: the label walks take one unit per
    character of the name and one more, each turn consuming at least a dot; the
    containment fixpoint of [Answers] one pass per record and one more, each pass but the
    last admitting a new name ([containment_terminates]; [filter_answer_sanity_spec] shows
    the result is the least fixpoint); the alias chase the code's own bound; shedding one turn per answer.
    Nothing returns a wrong result for want of fuel: the theorems are about the results.

    ** Parameters

    Code outside the repository is a parameter: [Unicode] (the case tables),
    [RegexRules.RegexCrate], [Mesh.Ed25519], [Hickory], [Resolver.Upstream] (hickory's
    resolver, the OS resolver, TLS), [Odoh.OdohLib] (HPKE, URL and DNS codecs, reqwest's
    client, which is taken to obey the limit on redirects it was built with), [Handler.Server] (hickory's server and encoder), [Http.DohLib] (base64 and the
    DNS message codec), [Listeners.Os] (what the kernel grants and the TLS files), [Metrics.Prometheus], the
    parser and the printer of TOML text (between texts and the values of [Toml]; the theorem
    on [--print-config] takes the hypothesis that the [toml] crate reads what it writes), the
    operations of the disk that fail, what a round of the loader is answered,
    the keyed hash of the query log, the files, the network and the random source.  The witnesses give each of them
    a concrete instance.

    ** Not modelled

    The system calls themselves (umask, capabilities, signals, of which [Process] has the
    effect), the installation of the tracing subscriber, the failure to register a signal
    handler, the web framework's choice of a
    route, the text of the prometheus registry, and log lines other than those above.
    Inside the modelled files: hickory's cache, retries and DNSSEC chain building, TLS,
    serde's other forms of a structure (an array) or of an enumeration (a table), TOML's
    floats and dates but as text, and the texts of those errors that have a type of their own.  The four concurrent fetches of a list are put back in order by
    the code, so they are one step.
    Concurrency: in the histories of [Daemon] each request and each reload is one step.
    [Concurrent] splits both; there the exchange with an upstream, the look at one stage's
    cell and the screening of one answer are single steps, and a round of the lists is any
    sequence of engines it stores.  Rounds that overlap are modelled by themselves
    ([Rounds], whose steps are the reading of a file, the taking of a result, the fetches of a
    list and its publication), and so are reloads of the mesh zone that race ([Authority.run_race]); the histories of [Daemon]
    have neither.  Nothing is said of memory ordering: a store is seen at once. *)

From Stdlib Require Export ZArith Lia.
From Stdlib Require Import Strings.Byte.
From Stdlib Require Import Sorting.Sorted.
From stdpp Require Export base gmap list option.

#[export] Set Default Goal Selector "!".
#[export] Set Warnings "-clear-no-such-hyp".
#[global] Open Scope Z_scope.
#[global] Arguments Z.pow : simpl never.
#[global] Arguments Z.div : simpl never.
#[global] Arguments Z.modulo : simpl never.
#[global] Arguments Z.land : simpl never.
#[global] Arguments Z.shiftr : simpl never.
#[global] Arguments Z.shiftl : simpl never.

(** ** Strings

    A Rust [str] is the sequence of its Unicode scalar values. *)
Abbreviation str := (list Z).

Declare Scope rstr_scope.
Delimit Scope rstr_scope with rs.

Definition str_lit_type : Type := list Z.

Inductive str_lit :=
| LitNil
| LitCons (c : Z) (s : str_lit).

Definition str_lit_parse (bs : list byte) : str_lit :=
  foldr (λ b s, LitCons (Z.of_N (Byte.to_N b)) s) LitNil bs.

Fixpoint str_lit_print (l : str_lit) : option (list byte) :=
  match l with
  | LitNil => Some []
  | LitCons c s =>
      match Byte.of_N (Z.to_N c), str_lit_print s with
      | Some b, Some bs => Some (b :: bs)
      | _, _ => None
      end
  end.

#[warnings="-via-type-remapping,-via-type-mismatch"]
String Notation str_lit_type str_lit_parse str_lit_print
  (via str_lit mapping [[nil] => LitNil, [cons] => LitCons]) : rstr_scope.

(** ** Results

    Rust's [Result<A, E>], with stdpp's monad notations ([x ← e; k]). *)
Inductive result (E A : Type) : Type :=
| Ok (a : A)
| Err (e : E).
Arguments Ok {_ _} _.
Arguments Err {_ _} _.

#[export] Instance result_ret E : MRet (result E) := λ A a, Ok a.
#[export] Instance result_bind E : MBind (result E) := λ A B f r,
  match r with Ok a => f a | Err e => Err e end.
#[export] Instance result_fmap E : FMap (result E) := λ A B f r,
  match r with Ok a => Ok (f a) | Err e => Err e end.
#[export] Instance result_eq_dec E A `{EqDecision E, EqDecision A} :
  EqDecision (result E A).
Proof. solve_decision. Defined.

Definition map_err {E E' A} (f : E → E') (r : result E A) : result E' A :=
  match r with Ok a => Ok a | Err e => Err (f e) end.
Definition ok_or {E A} (e : E) (o : option A) : result E A :=
  match o with Some a => Ok a | None => Err e end.
Definition is_ok {E A} (r : result E A) : bool :=
  match r with Ok _ => true | Err _ => false end.
Definition result_ok {E A} (r : result E A) : option A :=
  match r with Ok a => Some a | Err _ => None end.

(** The iteration [for x in l { f(x)?; }] of a fallible body. *)
Fixpoint try_each {E A} (f : A → result E unit) (l : list A) : result E unit :=
  match l with
  | [] => Ok ()
  | x :: l => _ ← f x; try_each f l
  end.

(** [for x in l { acc.push(f(x)?) }], collecting in order. *)
Fixpoint try_map {E A B} (f : A → result E B) (l : list A) : result E (list B) :=
  match l with
  | [] => Ok []
  | x :: l => y ← f x; ys ← try_map f l; Ok (y :: ys)
  end.

(** [for x in l { acc = f(acc, x)?; }]. *)
Fixpoint try_fold {E A B} (f : B → A → result E B) (acc : B) (l : list A) :
    result E B :=
  match l with
  | [] => Ok acc
  | x :: l => acc ← f acc x; try_fold f acc l
  end.

(** Early return: [if c { return Err(e) }]. *)
Definition reject_if {E} (c : bool) (e : E) : result E unit :=
  if c then Err e else Ok ().

Lemma bind_ok {E A B} (r : result E A) (f : A → result E B) b :
  (r ≫= f) = Ok b ↔ ∃ a, r = Ok a ∧ f a = Ok b.
Proof. destruct r as [a|e]; simpl; split; [eauto|by intros (?&[= <-]&?)|done|by intros (?&?&?)]. Qed.

Lemma fmap_ok {E A B} (f : A → B) (r : result E A) b :
  f <$> r = Ok b ↔ ∃ a, r = Ok a ∧ b = f a.
Proof.
  destruct r as [a|e]; simpl; split.
  - intros [= <-]; eauto.
  - by intros (?&[= <-]&->).
  - done.
  - by intros (?&?&?).
Qed.

Lemma ok_or_ok {E A} (e : E) (o : option A) a : ok_or e o = Ok a ↔ o = Some a.
Proof. destruct o; simpl; split; congruence. Qed.

Lemma map_err_ok {E E' A} (f : E → E') (r : result E A) a : map_err f r = Ok a ↔ r = Ok a.
Proof. destruct r; simpl; split; congruence. Qed.

Lemma reject_if_ok {E} c (e : E) u : reject_if c e = Ok u ↔ c = false.
Proof. destruct c, u; simpl; split; done. Qed.

(** ** Automation *)

Create HintDb rust.
Create Rewrite HintDb rust.

Ltac invc H := inversion H; subst; clear H.

(** A [Forall] over an explicit list, element by element. *)
Ltac forall_list tac := repeat (apply Forall_cons_2; [tac|]); apply Forall_nil_2.

(** Break the outermost [match]/[if] of the goal or of a hypothesis. *)
Ltac case_goal :=
  match goal with
  | |- context [match ?x with _ => _ end] => destruct x eqn:?
  end.
Ltac case_hyp H :=
  match type of H with
  | context [match ?x with _ => _ end] => destruct x eqn:?
  end.

(** Turn the boolean tests of the code into propositions. *)
Ltac bools :=
  repeat match goal with
  | H : _ && _ = true |- _ => apply andb_true_iff in H; destruct H
  | H : _ || _ = false |- _ => apply orb_false_iff in H; destruct H
  | H : negb _ = true |- _ => apply negb_true_iff in H
  | H : negb _ = false |- _ => apply negb_false_iff in H
  | H : (_ =? _)%Z = true |- _ => apply Z.eqb_eq in H
  | H : (_ =? _)%Z = false |- _ => apply Z.eqb_neq in H
  | H : (_ <=? _)%Z = true |- _ => apply Z.leb_le in H
  | H : (_ <=? _)%Z = false |- _ => apply Z.leb_gt in H
  | H : (_ <? _)%Z = true |- _ => apply Z.ltb_lt in H
  | H : (_ <? _)%Z = false |- _ => apply Z.ltb_ge in H
  | H : bool_decide _ = true |- _ => apply bool_decide_eq_true in H
  | H : bool_decide _ = false |- _ => apply bool_decide_eq_false in H
  end.

(** Follow a successful [Result] computation backwards: every [?] of the code
    gives the value it produced. *)
Ltac run_ok :=
  repeat match goal with
  | u : unit |- _ => destruct u
  | H : mbind _ _ = Ok _ |- _ =>
      let a := fresh "a" in
      let E := fresh "Hrun" in
      apply bind_ok in H as (a & E & H)
  | H : reject_if _ _ = Ok _ |- _ => apply reject_if_ok in H
  | H : ok_or _ _ = Ok _ |- _ => apply ok_or_ok in H
  | H : map_err _ _ = Ok _ |- _ => apply map_err_ok in H
  | H : Ok _ = Ok _ |- _ => injection H as H; try subst
  | H : Err _ = Ok _ |- _ => discriminate H
  end.

(** ** Results: laws *)

Section results.
Context {E : Type}.

Lemma try_each_ok {A} (f : A → result E unit) l :
  try_each f l = Ok () ↔ Forall (λ x, f x = Ok ()) l.
Proof.
  induction l as [|x l IH]; simpl; [by split|].
  rewrite Forall_cons_iff.
  destruct (f x) as [[]|e]; simpl; [|by split; [|intros [??]]].
  split; [intros Hl; split; [done|by apply IH]|by intros [_ Hl%IH]].
Qed.

Lemma try_map_ok {A B} (f : A → result E B) l ys :
  try_map f l = Ok ys ↔ Forall2 (λ x y, f x = Ok y) l ys.
Proof.
  revert ys. induction l as [|x l IH]; intros ys; simpl.
  { split; [intros [= <-]; constructor|by inversion 1]. }
  split.
  - intros H. run_ok. constructor; [done|]. by apply IH.
  - inversion 1 as [|? y ? ys' Hy Hys]; subst.
    rewrite Hy. simpl. by rewrite (proj2 (IH ys') Hys).
Qed.

(** An invariant of the accumulator holds at the end of the loop. *)
Lemma try_fold_inv {A B} (P : B → Prop) (f : B → A → result E B) l acc acc' :
  P acc → (∀ b a b', a ∈ l → P b → f b a = Ok b' → P b') →
  try_fold f acc l = Ok acc' → P acc'.
Proof.
  revert acc. induction l as [|x l IH]; simpl; intros acc Hacc Hf Heq.
  { by run_ok. }
  run_ok. eapply IH; [| |exact Heq].
  - eapply Hf; [apply list_elem_of_here|exact Hacc|done].
  - intros b y b' Hy. apply Hf. by apply list_elem_of_further.
Qed.
End results.

(** ** Lists *)

Lemma filter_length_le {A} (P : A → Prop) `{∀ x, Decision (P x)} (l : list A) :
  (length (filter P l) ≤ length l)%nat.
Proof. induction l as [|x l IH]; simpl; [lia|]. rewrite filter_cons. case_decide; simpl; lia. Qed.

Lemma existsb_elem_of {A} (f : A → bool) (l : list A) :
  existsb f l = true ↔ ∃ x, x ∈ l ∧ f x = true.
Proof.
  rewrite existsb_exists. split; intros (x & Hx & Hf); exists x; split; try done;
    by apply list_elem_of_In.
Qed.

Lemma forallb_elem_of {A} (f : A → bool) (l : list A) :
  forallb f l = true ↔ ∀ x, x ∈ l → f x = true.
Proof.
  rewrite forallb_forall. split; intros Hf x Hx; apply Hf; by apply list_elem_of_In.
Qed.

Lemma omap_length_le {A B} (f : A → option B) (l : list A) : (length (omap f l) ≤ length l)%nat.
Proof. induction l as [|x l IH]; [done|]. csimpl. destruct (f x); csimpl; lia. Qed.

(** [sort_by_key(|x| Reverse(key(x)))]: a stable sort, the largest keys first. *)
Section sorting.
Context {A : Type} (key : A → Z).

Fixpoint insert_desc (x : A) (l : list A) : list A :=
  match l with
  | [] => [x]
  | y :: l' => if key y <=? key x then x :: l else y :: insert_desc x l'
  end.

Definition sort_desc (l : list A) : list A := foldr insert_desc [] l.

Lemma insert_desc_perm x l : insert_desc x l ≡ₚ x :: l.
Proof.
  induction l as [|y l IH]; simpl; [done|]. case_match; [done|].
  rewrite IH. by apply Permutation_swap.
Qed.

Lemma sort_desc_perm l : sort_desc l ≡ₚ l.
Proof. induction l as [|x l IH]; simpl; [done|]. by rewrite insert_desc_perm, IH. Qed.

Lemma sort_desc_elem l x : x ∈ sort_desc l ↔ x ∈ l.
Proof. by rewrite sort_desc_perm. Qed.

(** The first element of [l] that satisfies [p] and has the largest key of those. *)
Definition first_max (p : A → bool) (l : list A) (x : A) : Prop :=
  ∃ before after, l = before ++ x :: after ∧ p x = true
    ∧ (∀ y, y ∈ before → p y = true → key y < key x)
    ∧ (∀ y, y ∈ after → p y = true → key y <= key x).

Lemma find_insert_desc p x l :
  StronglySorted (λ a b, key b <= key a) l →
  List.find p (insert_desc x l) =
    (if p x then
       match List.find p l with
       | Some y => if key y <=? key x then Some x else Some y
       | None => Some x
       end
     else List.find p l).
Proof.
  induction l as [|y l IH]; intros Hs; simpl; [done|].
  apply StronglySorted_inv in Hs as [Hs Hy].
  destruct (Z.leb_spec (key y) (key x)); simpl.
  - destruct (p x), (p y); try done.
    + by rewrite (proj2 (Z.leb_le _ _)).
    + destruct (List.find p l) as [z|] eqn:Hf; [|done]. apply find_some in Hf as [Hz _].
      apply (list.Forall_forall _ _) with (x := z) in Hy; [|by apply list_elem_of_In].
      by rewrite (proj2 (Z.leb_le (key z) (key x))) by lia.
  - rewrite IH by done. destruct (p y), (p x); try done.
    by rewrite (proj2 (Z.leb_gt _ _)).
Qed.

Lemma insert_desc_sorted x l :
  StronglySorted (λ a b, key b <= key a) l → StronglySorted (λ a b, key b <= key a) (insert_desc x l).
Proof.
  induction 1 as [|y l Hs IH Hy]; simpl; [by repeat constructor|].
  destruct (Z.leb_spec (key y) (key x)).
  - constructor; [by constructor|]. constructor; [done|]. eapply Forall_impl; [|exact Hy]. simpl. lia.
  - constructor; [done|]. rewrite insert_desc_perm. by constructor; [lia|].
Qed.

Lemma sort_desc_sorted l : StronglySorted (λ a b, key b <= key a) (sort_desc l).
Proof. induction l; simpl; [constructor|]. by apply insert_desc_sorted. Qed.

(** Scanning the sorted list finds the first of the largest. *)
Lemma find_sort_desc p l x : List.find p (sort_desc l) = Some x → first_max p l x.
Proof.
  revert x. induction l as [|y l IH]; intros x; simpl; [done|].
  rewrite find_insert_desc by apply sort_desc_sorted.
  assert (∀ z, List.find p (sort_desc l) = Some z → (p y = true → key y < key z) →
    first_max p (y :: l) z) as Hcons.
  { intros z Hz Hy. destruct (IH z Hz) as (b & a & -> & Hp & Hb & Ha).
    exists (y :: b), a. split; [done|]. split; [done|]. split; [|done].
    intros w [->|?]%elem_of_cons; auto. }
  destruct (p y) eqn:Hpy; [|intros; by apply Hcons].
  destruct (List.find p (sort_desc l)) as [z|] eqn:Hz.
  - destruct (Z.leb_spec (key z) (key y)); intros [= <-]; [|by apply Hcons; [|intros]].
    exists [], l. split; [done|]. split; [done|]. split; [by intros ? ?%not_elem_of_nil|].
    intros w Hw Hpw. destruct (IH z eq_refl) as (b & a & -> & Hp & Hb & Ha).
    apply elem_of_app in Hw as [?|[->|?]%elem_of_cons]; [|done|].
    + specialize (Hb w). naive_solver lia.
    + specialize (Ha w). naive_solver lia.
  - intros [= <-]. exists [], l. split; [done|]. split; [done|].
    split; [by intros ? ?%not_elem_of_nil|]. intros w Hw Hpw. exfalso.
    apply (sort_desc_elem l), list_elem_of_In in Hw. eapply find_none in Hz; [|done]. congruence.
Qed.

Lemma find_sort_desc_None p l :
  List.find p (sort_desc l) = None ↔ ∀ x, x ∈ l → p x = false.
Proof.
  split.
  - intros Hf x Hx. eapply find_none; [done|]. by apply list_elem_of_In, sort_desc_elem.
  - intros Hf. destruct (List.find p (sort_desc l)) as [x|] eqn:E; [|done].
    apply find_some in E as [Hx Hp]. apply list_elem_of_In, (proj1 (sort_desc_elem l x)) in Hx.
    rewrite (Hf x Hx) in Hp. done.
Qed.
End sorting.
