(* ===== verification/RustStr.v ===== *)
(** * RustStr: the operations of Rust's [str] and integer parsing the daemon uses

    A [str] is the list of its Unicode scalar values.  Every operation below is
    the standard library's: [trim] cuts Unicode White_Space, [lines] drops one
    carriage return per terminated line, [parse::<u8>()] accepts a leading plus
    sign and rejects overflow.  Only the Unicode tables behind [to_lowercase] are
    left abstract, in the class [Unicode]; on ASCII text they are the ASCII
    conversion. *)

From S2P Require Import Prelude.

(** Character literals, ["."%rc]. *)
Definition rchar_parse (bs : list Byte.byte) : option Z :=
  match bs with [b] => Some (Z.of_N (Byte.to_N b)) | _ => None end.
Definition rchar_print (c : Z) : option (list Byte.byte) :=
  match Byte.of_N (Z.to_N c) with Some b => Some [b] | None => None end.
Declare Scope rchar_scope.
Delimit Scope rchar_scope with rc.
String Notation Z rchar_parse rchar_print : rchar_scope.

(** ** Characters *)

Definition is_ascii_char (c : Z) : bool := (0 <=? c) && (c <? 128).
Definition is_ascii_control (c : Z) : bool :=
  ((0 <=? c) && (c <? 32)) || (c =? 127).
Definition is_ascii_uppercase (c : Z) : bool := (65 <=? c) && (c <=? 90).
Definition is_ascii_lowercase (c : Z) : bool := (97 <=? c) && (c <=? 122).
Definition is_ascii_digit (c : Z) : bool := (48 <=? c) && (c <=? 57).
Definition is_ascii_alphabetic (c : Z) : bool :=
  is_ascii_uppercase c || is_ascii_lowercase c.
Definition is_ascii_alphanumeric (c : Z) : bool :=
  is_ascii_alphabetic c || is_ascii_digit c.
Definition is_ascii_hexdigit (c : Z) : bool :=
  is_ascii_digit c || ((65 <=? c) && (c <=? 70)) || ((97 <=? c) && (c <=? 102)).

Definition lower_char (c : Z) : Z := if is_ascii_uppercase c then c + 32 else c.
Definition upper_char (c : Z) : Z := if is_ascii_lowercase c then c - 32 else c.

(** Unicode White_Space, [char::is_whitespace]. *)
Definition is_whitespace (c : Z) : bool :=
  ((9 <=? c) && (c <=? 13)) || (c =? 32) || (c =? 133) || (c =? 160)
  || (c =? 5760) || ((8192 <=? c) && (c <=? 8202)) || (c =? 8232)
  || (c =? 8233) || (c =? 8239) || (c =? 8287) || (c =? 12288).

(** The bytes a scalar value takes in UTF-8. *)
Definition utf8_width (c : Z) : Z :=
  if c <? 128 then 1 else if c <? 2048 then 2 else if c <? 65536 then 3 else 4.

(** ** Strings *)

(** [str::len], in bytes. *)
Definition str_len (s : str) : Z := foldr (λ c n, utf8_width c + n) 0 s.
Definition is_ascii (s : str) : bool := forallb is_ascii_char s.
Definition to_ascii_lowercase : str → str := map lower_char.
Definition to_ascii_uppercase : str → str := map upper_char.
Definition str_eqb (s t : str) : bool := bool_decide (s = t).
Definition is_empty_str (s : str) : bool := match s with [] => true | _ => false end.
Definition eq_ignore_ascii_case (s t : str) : bool :=
  str_eqb (to_ascii_lowercase s) (to_ascii_lowercase t).

(** [str::to_lowercase] needs the Unicode case tables; on ASCII text it is the
    ASCII conversion. *)
Class Unicode := {
  to_lowercase : str → str;
  to_lowercase_ascii s : is_ascii s = true → to_lowercase s = to_ascii_lowercase s;
}.
(** The instance the concrete examples run with. *)
Definition ascii_only : Unicode :=
  {| to_lowercase := to_ascii_lowercase; to_lowercase_ascii s _ := eq_refl |}.

Fixpoint drop_while (p : Z → bool) (s : str) : str :=
  match s with
  | [] => []
  | c :: s' => if p c then drop_while p s' else s
  end.

Fixpoint drop_while_end (p : Z → bool) (s : str) : str :=
  match s with
  | [] => []
  | c :: s' =>
      match drop_while_end p s' with
      | [] => if p c then [] else [c]
      | t => c :: t
      end
  end.

Definition trim_start : str → str := drop_while is_whitespace.
Definition trim_end : str → str := drop_while_end is_whitespace.
Definition trim (s : str) : str := trim_end (trim_start s).
Definition trim_start_matches (c : Z) : str → str := drop_while (Z.eqb c).
Definition trim_end_matches (c : Z) : str → str := drop_while_end (Z.eqb c).

Definition contains (c : Z) (s : str) : bool := existsb (Z.eqb c) s.

Fixpoint strip_prefix (p s : str) : option str :=
  match p, s with
  | [], _ => Some s
  | a :: p', b :: s' => if a =? b then strip_prefix p' s' else None
  | _ :: _, [] => None
  end.
Definition starts_with (p s : str) : bool :=
  match strip_prefix p s with Some _ => true | None => false end.
Definition strip_suffix (p s : str) : option str :=
  match strip_prefix (reverse p) (reverse s) with
  | Some t => Some (reverse t)
  | None => None
  end.
Definition ends_with (p s : str) : bool :=
  match strip_suffix p s with Some _ => true | None => false end.

(** [str::contains] with a string pattern. *)
Fixpoint contains_str (p s : str) : bool :=
  starts_with p s || match s with [] => false | _ :: s' => contains_str p s' end.

(** [trim_start_matches] with a string pattern, a turn per occurrence. *)
Fixpoint trim_start_str_loop (fuel : nat) (p s : str) : str :=
  match fuel with
  | O => s
  | S fuel => match strip_prefix p s with Some t => trim_start_str_loop fuel p t | None => s end
  end.
Definition trim_start_matches_str (p s : str) : str := trim_start_str_loop (length s) p s.

(** [s.find(c)], as a character position. *)
Fixpoint find (c : Z) (s : str) : option nat :=
  match s with
  | [] => None
  | x :: s' => if c =? x then Some 0%nat else S <$> find c s'
  end.

(** [s.find(p)] for a string pattern. *)
Fixpoint find_str (p s : str) : option nat :=
  if starts_with p s then Some 0%nat
  else match s with [] => None | _ :: s' => S <$> find_str p s' end.

Definition split_once (c : Z) (s : str) : option (str * str) :=
  match find c s with
  | Some i => Some (take i s, drop (S i) s)
  | None => None
  end.

Definition split_once_str (p s : str) : option (str * str) :=
  match find_str p s with
  | Some i => Some (take i s, drop (i + length p) s)
  | None => None
  end.

(** The last occurrence. *)
Fixpoint rfind (c : Z) (s : str) : option nat :=
  match s with
  | [] => None
  | x :: s' =>
      match rfind c s' with
      | Some i => Some (S i)
      | None => if c =? x then Some 0%nat else None
      end
  end.
Definition rsplit_once (c : Z) (s : str) : option (str * str) :=
  match rfind c s with
  | Some i => Some (take i s, drop (S i) s)
  | None => None
  end.

(** [s.split(p)]: never empty, empty pieces kept. *)
Fixpoint split_by (p : Z → bool) (s : str) : list str :=
  match s with
  | [] => [[]]
  | c :: s' =>
      if p c then [] :: split_by p s'
      else match split_by p s' with
           | [] => [[c]]
           | w :: ws => (c :: w) :: ws
           end
  end.
Definition split (c : Z) : str → list str := split_by (Z.eqb c).

Definition split_whitespace (s : str) : list str :=
  filter (λ w, w ≠ []) (split_by is_whitespace s).

(** [s.splitn(n, c)]. *)
Fixpoint splitn (n : nat) (c : Z) (s : str) : list str :=
  match n with
  | O => []
  | S O => [s]
  | S n' => match split_once c s with
            | Some (a, b) => a :: splitn n' c b
            | None => [s]
            end
  end.

Definition strip_cr (s : str) : str :=
  match strip_suffix [13] s with Some t => t | None => s end.

(** [s.lines()]: pieces ended by a newline, each less one carriage return, and
    the unterminated rest, if any, as it stands. *)
Fixpoint close_lines (ls : list str) : list str :=
  match ls with
  | [] => []
  | [l] => if is_empty_str l then [] else [l]
  | l :: ls => strip_cr l :: close_lines ls
  end.
Definition lines (s : str) : list str := close_lines (split 10 s).

Fixpoint join (sep : str) (l : list str) : str :=
  match l with
  | [] => []
  | [s] => s
  | s :: l => s ++ sep ++ join sep l
  end.

(** ** UTF-8 *)

Definition utf8_char (c : Z) : list Z :=
  if c <? 128 then [c]
  else if c <? 2048 then [192 + Z.shiftr c 6; 128 + Z.land c 63]
  else if c <? 65536 then
    [224 + Z.shiftr c 12; 128 + Z.land (Z.shiftr c 6) 63; 128 + Z.land c 63]
  else
    [240 + Z.shiftr c 18; 128 + Z.land (Z.shiftr c 12) 63;
     128 + Z.land (Z.shiftr c 6) 63; 128 + Z.land c 63].

(** [str::as_bytes]. *)
Definition as_bytes (s : str) : list Z := concat (map utf8_char s).

Definition is_cont (b : Z) : bool := (128 <=? b) && (b <=? 191).

(** [str::from_utf8]: no overlong form, no surrogate, nothing above U+10FFFF. *)
Fixpoint from_utf8 (bs : list Z) : option str :=
  match bs with
  | [] => Some []
  | b0 :: r0 =>
      if b0 <? 128 then cons b0 <$> from_utf8 r0
      else match r0 with
      | [] => None
      | b1 :: r1 =>
          if negb (is_cont b1) then None
          else if (194 <=? b0) && (b0 <=? 223)
          then cons ((b0 - 192) * 64 + (b1 - 128)) <$> from_utf8 r1
          else match r1 with
          | [] => None
          | b2 :: r2 =>
              let c := (b0 - 224) * 4096 + (b1 - 128) * 64 + (b2 - 128) in
              if negb (is_cont b2) then None
              else if (224 <=? b0) && (b0 <=? 239)
              then if (c <? 2048) || ((55296 <=? c) && (c <=? 57343)) then None
                   else cons c <$> from_utf8 r2
              else match r2 with
              | [] => None
              | b3 :: r3 =>
                  let c := (b0 - 240) * 262144 + (b1 - 128) * 4096 + (b2 - 128) * 64 + (b3 - 128) in
                  if negb (is_cont b3) then None
                  else if (240 <=? b0) && (b0 <=? 244)
                  then if (c <? 65536) || (1114111 <? c) then None
                       else cons c <$> from_utf8 r3
                  else None
              end
          end
      end
  end.

(** [String::from_utf8_lossy]: each maximal prefix of an ill-formed sequence becomes one
    U+FFFD.  A step decodes what the first byte starts. *)
Definition next_in (lo hi : Z) (bs : list Z) : option (Z * list Z) :=
  match bs with
  | b :: r => if (lo <=? b) && (b <=? hi) then Some (b, r) else None
  | [] => None
  end.

Definition lossy_step (b0 : Z) (r0 : list Z) : Z * list Z :=
  if b0 <? 128 then (b0, r0)
  else if (194 <=? b0) && (b0 <=? 223) then
    match next_in 128 191 r0 with
    | Some (b1, r1) => ((b0 - 192) * 64 + (b1 - 128), r1)
    | None => (65533, r0)
    end
  else if (224 <=? b0) && (b0 <=? 239) then
    match next_in (if b0 =? 224 then 160 else 128) (if b0 =? 237 then 159 else 191) r0 with
    | Some (b1, r1) =>
        match next_in 128 191 r1 with
        | Some (b2, r2) => ((b0 - 224) * 4096 + (b1 - 128) * 64 + (b2 - 128), r2)
        | None => (65533, r1)
        end
    | None => (65533, r0)
    end
  else if (240 <=? b0) && (b0 <=? 244) then
    match next_in (if b0 =? 240 then 144 else 128) (if b0 =? 244 then 143 else 191) r0 with
    | Some (b1, r1) =>
        match next_in 128 191 r1 with
        | Some (b2, r2) =>
            match next_in 128 191 r2 with
            | Some (b3, r3) =>
                ((b0 - 240) * 262144 + (b1 - 128) * 4096 + (b2 - 128) * 64 + (b3 - 128), r3)
            | None => (65533, r2)
            end
        | None => (65533, r1)
        end
    | None => (65533, r0)
    end
  else (65533, r0).

Fixpoint lossy_loop (fuel : nat) (bs : list Z) : str :=
  match fuel, bs with
  | S fuel, b0 :: r0 => let '(c, r) := lossy_step b0 r0 in c :: lossy_loop fuel r
  | _, _ => []
  end.

Definition from_utf8_lossy (bs : list Z) : str := lossy_loop (length bs) bs.

(** ** Numerals *)

Definition digit_val (radix c : Z) : option Z :=
  let v := if is_ascii_digit c then c - 48
           else if (97 <=? c) && (c <=? 122) then c - 87
           else if (65 <=? c) && (c <=? 90) then c - 55 else radix in
  if v <? radix then Some v else None.

Fixpoint digits_val (radix acc : Z) (s : str) : option Z :=
  match s with
  | [] => Some acc
  | c :: s' => d ← digit_val radix c; digits_val radix (acc * radix + d) s'
  end.

(** [uN::from_str_radix]: an optional plus sign, at least one digit, no value
    above [2^bits - 1]. *)
Definition from_str_radix (bits radix : Z) (s : str) : option Z :=
  let ds := match s with c :: s' => if c =? "+"%rc then s' else s | [] => [] end in
  match ds with
  | [] => None
  | _ => v ← digits_val radix 0 ds; if v <? 2 ^ bits then Some v else None
  end.
Definition parse_uint (bits : Z) : str → option Z := from_str_radix bits 10.

Definition digit_char (d : Z) : Z := if d <? 10 then 48 + d else 87 + d.

Fixpoint show_aux (radix : Z) (fuel : nat) (n : Z) (acc : str) : str :=
  match fuel with
  | O => acc
  | S f =>
      let acc := digit_char (n mod radix) :: acc in
      if n / radix =? 0 then acc else show_aux radix f (n / radix) acc
  end.
(** The numeral of [n] without leading zeros; the binary length of [n] bounds
    its number of digits. *)
Definition show_radix (radix n : Z) : str :=
  show_aux radix (S (Z.to_nat (Z.log2 n))) n [].
Definition show_dec : Z → str := show_radix 10.
Definition show_hex : Z → str := show_radix 16.

(** ** Laws *)

Lemma drop_while_end_nil p s :
  drop_while_end p s = [] ↔ forallb p s = true.
Proof.
  induction s as [|c s IH]; simpl; [done|].
  destruct (drop_while_end p s) eqn:E.
  - destruct (p c); simpl; [|done]. naive_solver.
  - split; [done|]. intros [_ Hs%IH]%andb_true_iff. done.
Qed.

(** What is left is a prefix, what is cut satisfies [p], and the last character
    left does not. *)
Lemma drop_while_end_spec p s :
  ∃ t, s = drop_while_end p s ++ t ∧ forallb p t = true.
Proof.
  induction s as [|c s (t & Hs & Ht)]; simpl; [by exists []|].
  destruct (drop_while_end p s) as [|d u] eqn:E.
  - destruct (p c) eqn:Hc.
    + exists (c :: s). simpl. rewrite Hc. split; [done|]. by apply drop_while_end_nil.
    + exists s. split; [done|]. by apply drop_while_end_nil.
  - exists t. split; [|done]. simpl. by rewrite Hs.
Qed.

Lemma drop_while_end_last p s : ∀ x, list.last (drop_while_end p s) = Some x → p x = false.
Proof.
  induction s as [|c s IH]; simpl; [done|]. intros x.
  destruct (drop_while_end p s) as [|d u] eqn:E.
  - destruct (p c) eqn:Hc; [done|]. by intros [= <-].
  - intros Hx. apply IH. by destruct u.
Qed.

Lemma drop_while_end_id p s :
  (∀ x, list.last s = Some x → p x = false) → drop_while_end p s = s.
Proof.
  induction s as [|c s IH]; simpl; [done|]. intros Hl.
  destruct s as [|d s']; [by rewrite (Hl c)|].
  by rewrite IH by (intros x Hx; apply Hl; exact Hx).
Qed.

Lemma drop_while_end_idemp p s :
  drop_while_end p (drop_while_end p s) = drop_while_end p s.
Proof. apply drop_while_end_id, drop_while_end_last. Qed.

Lemma drop_while_end_app p s t :
  forallb p t = true → drop_while_end p (s ++ t) = drop_while_end p s.
Proof.
  intros Ht. induction s as [|c s IH]; simpl.
  - by apply drop_while_end_nil.
  - by rewrite IH.
Qed.

Lemma drop_while_end_map p f s :
  (∀ c, p (f c) = p c) →
  drop_while_end p (map f s) = map f (drop_while_end p s).
Proof.
  intros Hf. induction s as [|c s IH]; simpl; [done|].
  rewrite IH. destruct (drop_while_end p s); simpl; [|done].
  rewrite Hf. by destruct (p c).
Qed.

Lemma trim_end_matches_dot s : trim_end_matches "."%rc (s ++ ["."%rc]) = trim_end_matches "."%rc s.
Proof. by apply drop_while_end_app. Qed.

Lemma trim_end_matches_map c f s :
  (∀ x, (c =? f x) = (c =? x)) →
  trim_end_matches c (map f s) = map f (trim_end_matches c s).
Proof. apply drop_while_end_map. Qed.

(** *** ASCII case *)

Lemma lower_char_idemp c : lower_char (lower_char c) = lower_char c.
Proof.
  unfold lower_char, is_ascii_uppercase.
  repeat case_match; bools; try lia.
Qed.

Lemma lower_char_not_upper c : is_ascii_uppercase (lower_char c) = false.
Proof.
  unfold lower_char. destruct (is_ascii_uppercase c) eqn:E; [|done].
  unfold is_ascii_uppercase in *. bools. apply andb_false_iff. right. lia.
Qed.

Lemma lower_char_dot c : ("."%rc =? lower_char c) = ("."%rc =? c).
Proof.
  unfold lower_char. destruct (is_ascii_uppercase c) eqn:E; [|done].
  unfold is_ascii_uppercase in E. bools. destruct (Z.eqb_spec 46 c); lia.
Qed.

Lemma lower_char_id c : is_ascii_uppercase c = false → lower_char c = c.
Proof. by unfold lower_char; intros ->. Qed.

Lemma to_ascii_lowercase_idemp s :
  to_ascii_lowercase (to_ascii_lowercase s) = to_ascii_lowercase s.
Proof. unfold to_ascii_lowercase. rewrite map_map. apply map_ext, lower_char_idemp. Qed.

Lemma to_ascii_lowercase_id s :
  existsb is_ascii_uppercase s = false → to_ascii_lowercase s = s.
Proof.
  unfold to_ascii_lowercase. induction s as [|c s IH]; simpl; [done|].
  intros [Hc Hs]%orb_false_iff. by rewrite lower_char_id, IH.
Qed.

Lemma to_ascii_lowercase_not_upper s :
  existsb is_ascii_uppercase (to_ascii_lowercase s) = false.
Proof. induction s as [|c s IH]; simpl; [done|]. by rewrite lower_char_not_upper. Qed.

Lemma to_ascii_lowercase_app s t :
  to_ascii_lowercase (s ++ t) = to_ascii_lowercase s ++ to_ascii_lowercase t.
Proof. apply map_app. Qed.

Lemma lower_char_ascii c : is_ascii_char (lower_char c) = is_ascii_char c.
Proof.
  unfold lower_char. destruct (is_ascii_uppercase c) eqn:E; [|done].
  unfold is_ascii_uppercase, is_ascii_char in *. bools.
  rewrite !(proj2 (Z.leb_le _ _)), !(proj2 (Z.ltb_lt _ _)) by lia. done.
Qed.

Lemma is_ascii_lower s : is_ascii (to_ascii_lowercase s) = is_ascii s.
Proof. induction s as [|c s IH]; simpl; [done|]. by rewrite lower_char_ascii, IH. Qed.

Lemma is_ascii_app s t : is_ascii (s ++ t) = is_ascii s && is_ascii t.
Proof. apply forallb_app. Qed.

Lemma is_ascii_drop_while_end p s : is_ascii s = true → is_ascii (drop_while_end p s) = true.
Proof.
  destruct (drop_while_end_spec p s) as (t & Hs & _). rewrite Hs at 1.
  rewrite is_ascii_app. by intros [??]%andb_true_iff.
Qed.

Lemma trim_end_matches_lower s :
  trim_end_matches "."%rc (to_ascii_lowercase s) = to_ascii_lowercase (trim_end_matches "."%rc s).
Proof. apply trim_end_matches_map, lower_char_dot. Qed.
#[export] Hint Rewrite to_ascii_lowercase_idemp is_ascii_lower trim_end_matches_lower
  to_ascii_lowercase_app : rust.

(** *** Searching *)

Lemma find_None c s : find c s = None ↔ c ∉ s.
Proof.
  induction s as [|x s IH]; simpl; [split; [intros _; apply not_elem_of_nil|done]|].
  rewrite not_elem_of_cons, <- IH. destruct (Z.eqb_spec c x) as [->|Hne].
  - split; [done|]. by intros [? _].
  - destruct (find c s); simpl; split; try done; by intros [_ ?].
Qed.

Lemma find_Some c s i :
  find c s = Some i ↔ s = take i s ++ c :: drop (S i) s ∧ c ∉ take i s.
Proof.
  revert i. induction s as [|x s IH]; intros i; simpl.
  { split; [done|]. intros [H _]. by destruct i. }
  destruct (Z.eqb_spec c x) as [->|Hne].
  - split.
    + intros [= <-]. simpl. split; [done|]. apply not_elem_of_nil.
    + destruct i; [done|]. simpl. intros [_ []%not_elem_of_cons]. done.
  - destruct i as [|i]; simpl.
    + split; [by destruct (find c s)|]. intros [[= <-] _]. done.
    + split.
      * destruct (find c s) as [j|] eqn:E; [|done]. intros [= ->].
        destruct (proj1 (IH _) eq_refl) as [Hs Hn].
        split; [by rewrite <- Hs|]. by apply not_elem_of_cons.
      * intros [[= Hs] [_ Hn]%not_elem_of_cons].
        by rewrite (proj2 (IH i)).
Qed.

Lemma drop_S_app (a b : str) c : drop (S (length a)) (a ++ c :: b) = b.
Proof. induction a as [|x a IH]; simpl; [done|]. exact IH. Qed.

Lemma split_once_Some c s a b :
  split_once c s = Some (a, b) ↔ s = a ++ c :: b ∧ c ∉ a.
Proof.
  unfold split_once. split.
  - destruct (find c s) as [i|] eqn:E; [|done]. intros [= <- <-].
    by apply find_Some.
  - intros [-> Hn]. rewrite (proj2 (find_Some c (a ++ c :: b) (length a))).
    + by rewrite take_app_length, drop_S_app.
    + by rewrite take_app_length, drop_S_app.
Qed.

Lemma find_split c s i :
  find c s = Some i →
  ∃ k b, s = k ++ (c :: b) ∧ (c ∉ k) ∧ i = length k ∧ take i s = k
    ∧ drop i s = (c :: b) ∧ drop (S i) s = b.
Proof.
  intros [Hs Hn]%find_Some. exists (take i s), (drop (S i) s).
  assert (i = length (take i s)) as Hi.
  { apply (f_equal length) in Hs. rewrite length_app in Hs. simpl in Hs.
    rewrite length_take in *. rewrite length_drop in Hs. lia. }
  repeat split; try done. rewrite Hs at 1. rewrite Hi at 1. by rewrite drop_app_length.
Qed.

(** Two ways of cutting a string at [c]: the first occurrence comes first. *)
Lemma first_cut (c : Z) (k b k' b' : str) :
  c ∉ k → (k ++ c :: b) = (k' ++ c :: b') →
  (k = k' ∧ b = b') ∨ ∃ l, k' = k ++ c :: l ∧ b = l ++ c :: b'.
Proof.
  revert k'. induction k as [|x k IH]; intros k' Hn Heq; destruct k' as [|y k']; simplify_eq/=.
  - by left.
  - right. by exists k'.
  - exfalso. apply Hn. left.
  - apply not_elem_of_cons in Hn as [_ Hn].
    destruct (IH k' Hn ltac:(done)) as [[-> ->]|(l & -> & ->)]; [by left|].
    right. by exists l.
Qed.

Lemma split_once_None c s : split_once c s = None ↔ c ∉ s.
Proof. unfold split_once. rewrite <- find_None. by destruct (find c s). Qed.

Lemma contains_elem c s : contains c s = true ↔ c ∈ s.
Proof.
  unfold contains. rewrite existsb_elem_of. split.
  - by intros (x & Hx & ->%Z.eqb_eq).
  - intros. exists c. split; [done|]. apply Z.eqb_refl.
Qed.

Lemma strip_prefix_Some p s t : strip_prefix p s = Some t ↔ s = p ++ t.
Proof.
  revert s. induction p as [|a p IH]; intros s; simpl.
  { split; [by intros [= ->]|by intros ->]. }
  destruct s as [|b s]; [done|]. destruct (Z.eqb_spec a b) as [->|Hne].
  - rewrite IH. split; [by intros ->|by intros [= ->]].
  - split; [done|]. by intros [= ->].
Qed.

Lemma strip_suffix_Some p s t : strip_suffix p s = Some t ↔ s = t ++ p.
Proof.
  unfold strip_suffix. destruct (strip_prefix _ _) as [u|] eqn:E.
  - apply strip_prefix_Some in E. rewrite <- (reverse_involutive s), E, reverse_app, reverse_involutive.
    split; [by intros [= <-]|]. intros H%app_inj_2; [|done]. by destruct H as [-> _].
  - split; [done|]. intros ->. rewrite reverse_app in E.
    by rewrite (proj2 (strip_prefix_Some _ _ (reverse t))) in E.
Qed.

Lemma ends_with_iff p s : ends_with p s = true ↔ ∃ t, s = t ++ p.
Proof.
  unfold ends_with. destruct (strip_suffix p s) as [t|] eqn:E.
  - apply strip_suffix_Some in E. naive_solver.
  - split; [done|]. intros [t Ht]. apply strip_suffix_Some in Ht. congruence.
Qed.

Lemma starts_with_iff p s : starts_with p s = true ↔ ∃ t, s = p ++ t.
Proof.
  unfold starts_with. destruct (strip_prefix p s) as [t|] eqn:E.
  - apply strip_prefix_Some in E. naive_solver.
  - split; [done|]. intros [t Ht]. apply strip_prefix_Some in Ht. congruence.
Qed.

(** *** Pieces *)

Lemma split_by_cons p s : ∃ w ws, split_by p s = w :: ws.
Proof.
  induction s as [|c s (w & ws & IH)]; simpl; [eauto|]. rewrite IH. case_match; eauto.
Qed.

Lemma split_by_not p s w : w ∈ split_by p s → existsb p w = false.
Proof.
  revert w. induction s as [|c s IH]; simpl; intros w.
  { by intros ->%list_elem_of_singleton. }
  destruct (p c) eqn:Hc.
  - intros [->|Hw]%elem_of_cons; [done|]. by apply IH.
  - destruct (split_by_cons p s) as (v & vs & E). rewrite E in *.
    intros [->|Hw]%elem_of_cons; simpl.
    + rewrite Hc. simpl. apply IH. left.
    + apply IH. by right.
Qed.

(** Every character of a piece is a character of the string. *)
Lemma split_by_elem p s w c : w ∈ split_by p s → c ∈ w → c ∈ s.
Proof.
  revert w. induction s as [|x s IH]; simpl; intros w.
  { by intros ->%list_elem_of_singleton. }
  destruct (p x) eqn:Hx.
  - intros [->|Hw]%elem_of_cons; [by intros ?%elem_of_nil|]. intros. right. by eapply IH.
  - destruct (split_by_cons p s) as (v & vs & E). rewrite E in *.
    intros [->|Hw]%elem_of_cons.
    + intros [->|Hc]%elem_of_cons; [left|right]. eapply IH; [left|done].
    + intros Hc. right. eapply IH; [right; exact Hw|done].
Qed.

Lemma split_by_one p s : existsb p s = false → split_by p s = [s].
Proof.
  induction s as [|c s IH]; simpl; [done|].
  intros [-> Hs]%orb_false_iff. by rewrite (IH Hs).
Qed.

Lemma split_by_length p s : (1 < length (split_by p s))%nat ↔ existsb p s = true.
Proof.
  induction s as [|c s IH]; simpl; [split; [lia|done]|].
  destruct (split_by_cons p s) as (w & ws & E).
  destruct (p c); simpl; rewrite E in *; simpl in *; [split; [done|lia]|]. exact IH.
Qed.

(** *** Numerals *)

Lemma digit_char_val radix d :
  0 <= d < radix → radix <= 16 → digit_val radix (digit_char d) = Some d.
Proof.
  intros Hd Hr. unfold digit_val, digit_char, is_ascii_digit.
  destruct (Z.ltb_spec d 10).
  - rewrite !(proj2 (Z.leb_le _ _)) by lia. simpl.
    rewrite (proj2 (Z.ltb_lt _ _)) by lia. f_equal. lia.
  - rewrite (proj2 (Z.leb_le 48 _)), (proj2 (Z.leb_gt _ 57)) by lia. simpl.
    rewrite !(proj2 (Z.leb_le _ _)) by lia. simpl.
    rewrite (proj2 (Z.ltb_lt _ _)) by lia. f_equal. lia.
Qed.

Lemma show_aux_val radix fuel n acc :
  1 < radix <= 16 → 0 <= n < radix ^ Z.of_nat fuel → (0 < fuel)%nat →
  digits_val radix 0 (show_aux radix fuel n acc) = digits_val radix n acc.
Proof.
  intros Hr. revert n acc. induction fuel as [|fuel IH]; intros n acc Hn Hf; [lia|].
  cbn [show_aux]. rewrite Nat2Z.inj_succ, Z.pow_succ_r in Hn by lia.
  pose proof (Z.div_mod n radix ltac:(lia)) as Hdm.
  pose proof (Z.mod_pos_bound n radix ltac:(lia)) as Hm.
  destruct (Z.eqb_spec (n / radix) 0) as [E|E].
  - cbn [digits_val]. rewrite digit_char_val by lia. simpl. f_equal. lia.
  - assert (n / radix < radix ^ Z.of_nat fuel) by (apply Z.div_lt_upper_bound; lia).
    assert (0 <= n / radix) by (apply Z.div_pos; lia).
    assert (0 < fuel)%nat.
    { destruct fuel as [|fuel]; [simpl in *; nia|lia]. }
    rewrite IH by lia. cbn [digits_val]. rewrite digit_char_val by lia.
    simpl. f_equal. lia.
Qed.

Lemma show_aux_digits (P : Z → Prop) radix fuel n acc :
  1 < radix → 0 <= n → (∀ d, 0 <= d < radix → P (digit_char d)) →
  Forall P acc → Forall P (show_aux radix fuel n acc).
Proof.
  intros Hr Hn HP. revert n acc Hn. induction fuel as [|fuel IH]; intros n acc Hn Hacc; [done|].
  cbn [show_aux]. pose proof (Z.mod_pos_bound n radix ltac:(lia)).
  assert (Forall P (digit_char (n mod radix) :: acc)) by (constructor; auto).
  case_match; [done|]. apply IH; [|done]. apply Z.div_pos; lia.
Qed.

Lemma show_aux_nonempty radix fuel n acc :
  (0 < fuel)%nat ∨ acc ≠ [] → show_aux radix fuel n acc ≠ [].
Proof.
  revert n acc. induction fuel as [|fuel IH]; intros n acc Hf; [destruct Hf; [lia|done]|].
  cbn [show_aux]. case_match; [done|]. apply IH. by right.
Qed.

Lemma show_dec_digits n : 0 <= n → Forall (λ c, is_ascii_digit c = true) (show_dec n).
Proof.
  intros Hn. apply show_aux_digits; [lia|done| |constructor].
  intros d Hd. unfold digit_char, is_ascii_digit. rewrite (proj2 (Z.ltb_lt _ _)) by lia.
  apply andb_true_iff; split; apply Z.leb_le; lia.
Qed.

Lemma show_dec_nonempty n : show_dec n ≠ [].
Proof. apply show_aux_nonempty. left. lia. Qed.

(** Printing and parsing a machine integer are inverse. *)
Lemma parse_show_dec bits n : 0 <= n < 2 ^ bits → parse_uint bits (show_dec n) = Some n.
Proof.
  intros Hn. pose proof (show_dec_digits n ltac:(lia)) as Hd.
  pose proof (show_dec_nonempty n) as Hne.
  assert (digits_val 10 0 (show_dec n) = Some n) as Hv.
  { unfold show_dec, show_radix. rewrite show_aux_val; [done|lia| |lia].
    split; [lia|]. rewrite Nat2Z.inj_succ, Z2Nat.id by apply Z.log2_nonneg.
    destruct (decide (n = 0)) as [->|]; [done|].
    pose proof (Z.log2_spec n ltac:(lia)) as [_ Hlt].
    eapply Z.lt_le_trans; [exact Hlt|]. apply Z.pow_le_mono_l.
    split; lia. }
  unfold parse_uint, from_str_radix. destruct (show_dec n) as [|c s]; [done|].
  apply Forall_cons_1 in Hd as [Hc _].
  assert ((c =? 43) = false) as -> by (unfold is_ascii_digit in Hc; bools; apply Z.eqb_neq; lia).
  rewrite Hv. simpl. by rewrite (proj2 (Z.ltb_lt _ _)) by lia.
Qed.

Lemma from_str_radix_range bits radix s n :
  from_str_radix bits radix s = Some n → n < 2 ^ bits.
Proof.
  unfold from_str_radix. intros H. destruct (match s with [] => [] | _ :: _ => _ end); [done|].
  apply bind_Some in H as (v & _ & H). case_match; simplify_eq. by bools.
Qed.

Lemma digits_val_nonneg radix s acc n :
  0 <= radix → 0 <= acc → digits_val radix acc s = Some n → 0 <= n.
Proof.
  intros Hr. revert acc. induction s as [|c s IH]; simpl; intros acc Hacc; [congruence|].
  intros (d & Hd & H)%bind_Some. eapply IH; [|exact H].
  enough (0 <= d) by nia.
  unfold digit_val, is_ascii_digit in Hd. repeat case_match; simplify_eq; bools; lia.
Qed.

Lemma parse_uint_range bits s n : parse_uint bits s = Some n → 0 <= n < 2 ^ bits.
Proof.
  intros H. split; [|by eapply from_str_radix_range].
  unfold parse_uint, from_str_radix in H.
  destruct (match s with [] => [] | _ :: _ => _ end); [done|].
  apply bind_Some in H as (v & Hv & H). case_match; simplify_eq.
  by eapply (digits_val_nonneg 10); [..|exact Hv].
Qed.

(** ** Zones

    A name is in a zone when it is the apex or ends in a dot and the apex. *)
Definition within (n z : str) : Prop := n = z ∨ ∃ k, n = k ++ "."%rc :: z.

Lemma within_ends_with n z : n = z ∨ ends_with ("."%rs ++ z) n = true ↔ within n z.
Proof. unfold within. by rewrite ends_with_iff. Qed.
