(* ===== verification/Error.v ===== *)
(** * Error: the error type of the crates
    ([rustydns-core/src/error.rs])

    An error of another library that is wrapped stands for the text it is shown as.  The
    resolver and the handler return this type; the other components have error types of
    their own, with the variants they make. *)

From S2P Require Import Prelude RustStr.

Inductive RustyDnsError :=
| Config (msg : str)
| TomlParse (e : str)
| Zone (msg : str)
| Database (msg : str)
| Blocklist (msg : str)
| Resolver (msg : str)
| Upstream (upstream source : str)
| AllUpstreamsFailed
| DnssecValidation (name reason : str)
| PolicyDenied (client zone : str)
| Io (e : str)
| Tls (upstream reason : str).

#[export] Instance RustyDnsError_eq_dec : EqDecision RustyDnsError.
Proof. solve_decision. Defined.

(** [<RustyDnsError as Display>::fmt]. *)
Definition display (e : RustyDnsError) : str :=
  match e with
  | Config msg => "configuration error: "%rs ++ msg
  | TomlParse e => "TOML parse error: "%rs ++ e
  | Zone msg => "zone error: "%rs ++ msg
  | Database msg => "rustynet zone source error: "%rs ++ msg
  | Blocklist msg => "blocklist error: "%rs ++ msg
  | Resolver msg => "resolver error: "%rs ++ msg
  | Upstream upstream source => "upstream error for "%rs ++ upstream ++ ": "%rs ++ source
  | AllUpstreamsFailed =>
      "all upstream resolvers failed "%rs ++ [8212] ++ " returning SERVFAIL (fail_closed = true)"%rs
  | DnssecValidation name reason =>
      "DNSSEC validation failed for `"%rs ++ name ++ "`: "%rs ++ reason
  | PolicyDenied client zone =>
      "policy denied query from `"%rs ++ client ++ "` for zone `"%rs ++ zone ++ "`"%rs
  | Io e => "I/O error: "%rs ++ e
  | Tls upstream reason => "TLS error for "%rs ++ upstream ++ ": "%rs ++ reason
  end.

(** The variant of an error. *)
Definition variant (e : RustyDnsError) : nat :=
  match e with
  | Config _ => 0 | TomlParse _ => 1 | Zone _ => 2 | Database _ => 3 | Blocklist _ => 4
  | Resolver _ => 5 | Upstream _ _ => 6 | AllUpstreamsFailed => 7
  | DnssecValidation _ _ => 8 | PolicyDenied _ _ => 9 | Io _ => 10 | Tls _ _ => 11
  end.

(** A log line tells the variant of the error it shows, whatever the error quotes; and where
    one text is quoted, the text. *)
Theorem display_variant (e e' : RustyDnsError) : display e = display e' → variant e = variant e'.
Proof. by destruct e, e'. Qed.

Theorem display_message (msg msg' : str) :
  (display (Config msg) = display (Config msg') → msg = msg')
  ∧ (display (Zone msg) = display (Zone msg') → msg = msg')
  ∧ (display (Resolver msg) = display (Resolver msg') → msg = msg').
Proof. split_and!; cbn [display]; apply app_inv_head. Qed.
