(* ===== verification/Net.v ===== *)
(** * Net: [std::net] addresses, their parsers and printers

    An IPv4 address is its 32-bit value and an IPv6 address its 128-bit value
    ([u32::from], [u128::from]); octets and segments are read off by shifting.
    The parsers follow [std::net]'s recursive descent: at most three decimal
    digits and no leading zero per IPv4 octet, at most four hexadecimal digits
    per IPv6 group, one [::], an IPv4 address embedded in the last two groups. *)

From S2P Require Import Prelude RustStr.

Inductive ip_addr :=
| V4 (bits : Z)
| V6 (bits : Z).

#[export] Instance ip_addr_eq_dec : EqDecision ip_addr.
Proof. solve_decision. Defined.
#[export] Instance ip_addr_countable : Countable ip_addr.
Proof.
  refine (inj_countable' (λ a, match a with V4 b => inl b | V6 b => inr b end)
    (λ x, match x with inl b => V4 b | inr b => V6 b end) _).
  by intros [].
Defined.

Definition u8_max : Z := 255.
Definition u32_max : Z := 2 ^ 32 - 1.
Definition u64_max : Z := 2 ^ 64 - 1.
Definition u128_max : Z := 2 ^ 128 - 1.

(** Below [2 ^ 32] and [2 ^ 128]. *)
Definition v4_wf (a : Z) : Prop := 0 <= a < 4294967296.
Definition v6_wf (a : Z) : Prop := 0 <= a < 340282366920938463463374607431768211456.
Definition ip_wf (a : ip_addr) : Prop :=
  match a with V4 b => v4_wf b | V6 b => v6_wf b end.

(** ** Octets and segments *)

Definition octet (a : Z) (i : Z) : Z := Z.land (Z.shiftr a (8 * (3 - i))) 255.
Definition octets (a : Z) : list Z := [octet a 0; octet a 1; octet a 2; octet a 3].
Definition segment (a : Z) (i : Z) : Z := Z.land (Z.shiftr a (16 * (7 - i))) 65535.
Definition segments (a : Z) : list Z := segment a <$> [0; 1; 2; 3; 4; 5; 6; 7].

(** The value of a sequence of [w]-bit groups, the most significant first. *)
Definition from_groups (w : Z) (l : list Z) : Z :=
  foldl (λ acc g, Z.lor (Z.shiftl acc w) g) 0 l.
Definition ipv4_from_octets : list Z → Z := from_groups 8.
Definition ipv6_from_segments : list Z → Z := from_groups 16.

(** [Ipv6Addr::to_ipv4_mapped]: the address lies in [::ffff:0:0/96]. *)
Definition to_ipv4_mapped (a : Z) : option Z :=
  if Z.shiftr a 32 =? 65535 then Some (Z.land a u32_max) else None.

Definition v4_is_loopback (a : Z) : bool := octet a 0 =? 127.
Definition v4_is_private (a : Z) : bool :=
  (octet a 0 =? 10)
  || ((octet a 0 =? 172) && (16 <=? octet a 1) && (octet a 1 <=? 31))
  || ((octet a 0 =? 192) && (octet a 1 =? 168)).
Definition v4_is_link_local (a : Z) : bool :=
  (octet a 0 =? 169) && (octet a 1 =? 254).
Definition v4_is_unspecified (a : Z) : bool := a =? 0.
Definition v4_is_broadcast (a : Z) : bool := a =? u32_max.
Definition v4_is_multicast (a : Z) : bool :=
  (224 <=? octet a 0) && (octet a 0 <=? 239).
Definition v6_is_loopback (a : Z) : bool := a =? 1.
Definition v6_is_unspecified (a : Z) : bool := a =? 0.
Definition v6_is_multicast (a : Z) : bool := Z.land (segment a 0) 65280 =? 65280.

Definition is_loopback (a : ip_addr) : bool :=
  match a with V4 b => v4_is_loopback b | V6 b => v6_is_loopback b end.
Definition is_unspecified (a : ip_addr) : bool :=
  match a with V4 b => v4_is_unspecified b | V6 b => v6_is_unspecified b end.
Definition is_multicast (a : ip_addr) : bool :=
  match a with V4 b => v4_is_multicast b | V6 b => v6_is_multicast b end.

(** ** Parsing *)

Fixpoint span (p : Z → bool) (s : str) : str * str :=
  match s with
  | [] => ([], [])
  | c :: s' => if p c then let '(a, b) := span p s' in (c :: a, b) else ([], s)
  end.

Definition is_digit (radix c : Z) : bool :=
  match digit_val radix c with Some _ => true | None => false end.

Definition read_number (bits radix : Z) (max_digits : nat) (allow_zero_prefix : bool)
    (s : str) : option (Z * str) :=
  let '(ds, rest) := span (is_digit radix) s in
  if (max_digits <? length ds)%nat then None
  else match ds with
  | [] => None
  | c :: more =>
      if negb allow_zero_prefix && (c =? "0"%rc) && negb (is_empty_str more) then None
      else v ← digits_val radix 0 ds;
           if v <? 2 ^ bits then Some (v, rest) else None
  end.

Definition read_char (c : Z) (s : str) : option str :=
  match s with x :: s' => if x =? c then Some s' else None | [] => None end.

(** [read_separator]: the separator precedes every group but the first. *)
Definition read_separator {A} (sep : Z) (i : nat) (p : str → option (A * str))
    (s : str) : option (A * str) :=
  match i with O => p s | S _ => s' ← read_char sep s; p s' end.

Definition read_octet (i : nat) : str → option (Z * str) :=
  read_separator "."%rc i (read_number 8 10 3 false).

Definition read_ipv4 (s : str) : option (Z * str) :=
  '(a, s) ← read_octet 0 s;
  '(b, s) ← read_octet 1 s;
  '(c, s) ← read_octet 2 s;
  '(d, s) ← read_octet 3 s;
  Some (ipv4_from_octets [a; b; c; d], s).

(** [read_groups]: groups [i..limit], the groups read so far in order, and
    whether an embedded IPv4 address ended them. *)
Fixpoint read_groups (fuel i limit : nat) (acc : list Z) (s : str) :
    list Z * bool * str :=
  match fuel with
  | O => (acc, false, s)
  | S fuel =>
      let v4 := if (i <? limit - 1)%nat
                then read_separator ":"%rc i read_ipv4 s else None in
      match v4 with
      | Some (a, s) =>
          (acc ++ [Z.shiftr a 16; Z.land a 65535], true, s)
      | None =>
          match read_separator ":"%rc i (read_number 16 16 4 true) s with
          | Some (g, s) => read_groups fuel (S i) limit (acc ++ [g]) s
          | None => (acc, false, s)
          end
      end
  end.

Definition read_ipv6 (s : str) : option (Z * str) :=
  let '(head, head_v4, s) := read_groups 8 0 8 [] s in
  if (length head =? 8)%nat then Some (ipv6_from_segments head, s)
  else if head_v4 then None
  else
    s ← read_char ":"%rc s;
    s ← read_char ":"%rc s;
    let limit := (8 - (length head + 1))%nat in
    let '(tail, _, s) := read_groups limit 0 limit [] s in
    let zeros := replicate (8 - length head - length tail) 0 in
    Some (ipv6_from_segments (head ++ zeros ++ tail), s).

Definition finish {A} (r : option (A * str)) : option A :=
  match r with Some (a, []) => Some a | _ => None end.

Definition parse_ipv4 (s : str) : option Z :=
  if 15 <? str_len s then None else finish (read_ipv4 s).
Definition parse_ipv6 (s : str) : option Z := finish (read_ipv6 s).
Definition read_ip (s : str) : option (ip_addr * str) :=
  match read_ipv4 s with
  | Some (a, s) => Some (V4 a, s)
  | None => '(a, s) ← read_ipv6 s; Some (V6 a, s)
  end.
Definition parse_ip (s : str) : option ip_addr := finish (read_ip s).

(** [SocketAddr]; the flow information of an IPv6 one is always 0 when parsed. *)
Record SocketAddr := { sa_ip : ip_addr; sa_port : Z; sa_scope : Z }.

#[export] Instance socket_addr_eq_dec : EqDecision SocketAddr.
Proof. solve_decision. Defined.

(** A number of any length. *)
Definition read_uint (bits : Z) (s : str) : option (Z * str) :=
  read_number bits 10 (length s) true s.

Definition read_port (s : str) : option (Z * str) :=
  s ← read_char ":"%rc s; read_uint 16 s.

Definition read_scope_id (s : str) : option (Z * str) :=
  s ← read_char "%"%rc s; read_uint 32 s.

Definition read_socket_v4 (s : str) : option (SocketAddr * str) :=
  '(a, s) ← read_ipv4 s;
  '(p, s) ← read_port s;
  Some ({| sa_ip := V4 a; sa_port := p; sa_scope := 0 |}, s).

Definition read_socket_v6 (s : str) : option (SocketAddr * str) :=
  s ← read_char "["%rc s;
  '(a, s) ← read_ipv6 s;
  let '(scope, s) := default (0, s) (read_scope_id s) in
  s ← read_char "]"%rc s;
  '(p, s) ← read_port s;
  Some ({| sa_ip := V6 a; sa_port := p; sa_scope := scope |}, s).

Definition parse_socket_addr (s : str) : option SocketAddr :=
  finish (match read_socket_v4 s with Some r => Some r | None => read_socket_v6 s end).

(** ** Printing *)

Definition show_ipv4 (a : Z) : str := join "."%rs (show_dec <$> octets a).

Definition show_groups (l : list Z) : str := join ":"%rs (show_hex <$> l).

(** The first longest run of zero segments: its start and its length. *)
Fixpoint longest_zeros (i : nat) (cur best : nat * nat) (l : list Z) : nat * nat :=
  match l with
  | [] => best
  | g :: l =>
      if g =? 0 then
        let cur := match cur.2 with O => (i, 1%nat) | S _ => (cur.1, S cur.2) end in
        let best := if (best.2 <? cur.2)%nat then cur else best in
        longest_zeros (S i) cur best l
      else longest_zeros (S i) (0%nat, 0%nat) best l
  end.

Definition show_ipv6 (a : Z) : str :=
  match to_ipv4_mapped a with
  | Some v4 => "::ffff:"%rs ++ show_ipv4 v4
  | None =>
      let segs := segments a in
      let '(start, len) := longest_zeros 0 (0%nat, 0%nat) (0%nat, 0%nat) segs in
      if (1 <? len)%nat
      then show_groups (take start segs) ++ "::"%rs ++ show_groups (drop (start + len) segs)
      else show_groups segs
  end.

Definition show_ip (a : ip_addr) : str :=
  match a with V4 b => show_ipv4 b | V6 b => show_ipv6 b end.

(** ** Laws of the bit layout *)

Lemma land_255 a : Z.land a 255 = a mod 256.
Proof. change 255 with (Z.ones 8). by rewrite Z.land_ones. Qed.
Lemma land_65535 a : Z.land a 65535 = a mod 65536.
Proof. change 65535 with (Z.ones 16). by rewrite Z.land_ones. Qed.
Lemma land_u32_max a : Z.land a u32_max = a mod 2 ^ 32.
Proof. change u32_max with (Z.ones 32). by rewrite Z.land_ones. Qed.

Lemma octet_div a i : i <= 3 → octet a i = (a / 2 ^ (8 * (3 - i))) mod 256.
Proof. intros. unfold octet. by rewrite land_255, Z.shiftr_div_pow2 by lia. Qed.
Lemma segment_div a i : i <= 7 → segment a i = (a / 2 ^ (16 * (7 - i))) mod 65536.
Proof. intros. unfold segment. by rewrite land_65535, Z.shiftr_div_pow2 by lia. Qed.

Lemma octet_range a i : i <= 3 → 0 <= octet a i < 256.
Proof. intros. rewrite octet_div by done. by apply Z.mod_pos_bound. Qed.
Lemma segment_range a i : i <= 7 → 0 <= segment a i < 65536.
Proof. intros. rewrite segment_div by done. by apply Z.mod_pos_bound. Qed.

Lemma lor_shiftl_add w acc g :
  0 <= w → 0 <= g < 2 ^ w → Z.lor (Z.shiftl acc w) g = acc * 2 ^ w + g.
Proof.
  intros Hw Hg. rewrite <- Z.add_nocarry_lor; [by rewrite Z.shiftl_mul_pow2|].
  apply Z.bits_inj'. intros n Hn. rewrite Z.land_spec, Z.shiftl_spec, Z.bits_0 by done.
  destruct (Z.ltb_spec n w).
  - by rewrite Z.testbit_neg_r by lia.
  - rewrite <- (Z.mod_small g (2 ^ w)), Z.mod_pow2_bits_high by lia. apply andb_false_r.
Qed.

Section groups.
Context (w : Z) (Hw : 0 <= w).

Lemma from_groups_snoc l g :
  0 <= g < 2 ^ w → from_groups w (l ++ [g]) = from_groups w l * 2 ^ w + g.
Proof using Hw. intros. unfold from_groups. rewrite foldl_app. by apply lor_shiftl_add. Qed.

Lemma from_groups_range l :
  Forall (λ g, 0 <= g < 2 ^ w) l → 0 <= from_groups w l < 2 ^ (w * Z.of_nat (length l)).
Proof using Hw.
  induction l as [|g l IH] using rev_ind; intros Hl.
  { cbn. rewrite Z.mul_0_r. lia. }
  apply Forall_app in Hl as [Hl Hg]. apply Forall_cons_1 in Hg as [Hg _].
  rewrite length_app, (from_groups_snoc l g Hg). cbn [length].
  replace (w * Z.of_nat (length l + 1)) with (w * Z.of_nat (length l) + w) by lia.
  rewrite Z.pow_add_r by lia. specialize (IH Hl). nia.
Qed.

(** The last [n] groups of [a]. *)
Fixpoint groups (n : nat) (a : Z) : list Z :=
  match n with O => [] | S n => groups n (a / 2 ^ w) ++ [a mod 2 ^ w] end.

Lemma from_groups_groups n a : from_groups w (groups n a) = a mod 2 ^ (w * Z.of_nat n).
Proof using Hw.
  revert a. induction n as [|n IH]; intros a; cbn [groups].
  { rewrite Z.mul_0_r, Z.mod_1_r. done. }
  assert (0 < 2 ^ w) by (apply Z.pow_pos_nonneg; lia).
  rewrite from_groups_snoc, IH by (apply Z.mod_pos_bound; lia).
  replace (w * Z.of_nat (S n)) with (w + w * Z.of_nat n) by lia.
  rewrite Z.pow_add_r, Z.rem_mul_r by lia.  lia.
Qed.
End groups.

Lemma div_pow2_range a k m :
  0 <= k → 0 <= m → 0 <= a < 2 ^ (k + m) → 0 <= a / 2 ^ k < 2 ^ m.
Proof.
  intros Hk Hm Ha. assert (0 < 2 ^ k) by (apply Z.pow_pos_nonneg; lia).
  rewrite Z.pow_add_r in Ha by lia.
  split; [apply Z.div_pos; lia|]. apply Z.div_lt_upper_bound; lia.
Qed.

Lemma octets_groups a : octets a = groups 8 4 a.
Proof.
  unfold octets. rewrite !octet_div by lia. cbn [groups app].
  repeat rewrite Z.div_div by lia.
  change (2 ^ (8 * (3 - 3))) with 1. by rewrite Z.div_1_r.
Qed.

Lemma segments_groups a : segments a = groups 16 8 a.
Proof.
  unfold segments. cbn [fmap list_fmap]. rewrite !segment_div by lia. cbn [groups app].
  repeat rewrite Z.div_div by lia.
  change (2 ^ (16 * (7 - 7))) with 1. by rewrite Z.div_1_r.
Qed.

Lemma ipv4_from_octets_octets a : v4_wf a → ipv4_from_octets (octets a) = a.
Proof.
  intros Ha. unfold ipv4_from_octets. rewrite octets_groups, from_groups_groups by lia.
  by apply Z.mod_small.
Qed.

Lemma ipv6_from_segments_segments a : v6_wf a → ipv6_from_segments (segments a) = a.
Proof.
  intros Ha. unfold ipv6_from_segments. rewrite segments_groups, from_groups_groups by lia.
  by apply Z.mod_small.
Qed.

Lemma to_ipv4_mapped_Some a b : v6_wf a → to_ipv4_mapped a = Some b ↔ v4_wf b ∧ a = 65535 * 2 ^ 32 + b.
Proof.
  unfold to_ipv4_mapped, v6_wf, v4_wf. intros Ha.
  rewrite Z.shiftr_div_pow2, land_u32_max by lia.
  pose proof (Z.div_mod a (2 ^ 32) ltac:(lia)).
  pose proof (Z.mod_pos_bound a (2 ^ 32) ltac:(lia)).
  destruct (Z.eqb_spec (a / 2 ^ 32) 65535) as [E|E]; split.
  - intros [= <-]. lia.
  - intros [Hb ->]. f_equal. lia.
  - done.
  - intros [Hb ->]. exfalso. apply E. rewrite Z.div_add_l, Z.div_small; lia.
Qed.

Lemma to_ipv4_mapped_wf a b : to_ipv4_mapped a = Some b → v4_wf b.
Proof.
  unfold to_ipv4_mapped. case_match; [|done]. intros [= <-].
  rewrite land_u32_max. by apply Z.mod_pos_bound.
Qed.

(** ** Laws of the parsers *)

Lemma read_number_range bits radix m z s n rest :
  0 <= radix → read_number bits radix m z s = Some (n, rest) → 0 <= n < 2 ^ bits.
Proof.
  intros Hr. unfold read_number. destruct (span _ s) as [ds rest'].
  case_match; [done|]. destruct ds as [|c more]; [done|]. case_match; [done|].
  intros (v & Hv & Hb)%bind_Some. case_match; simplify_eq. bools.
  split; [|done]. by eapply (digits_val_nonneg radix _ 0).
Qed.

Lemma read_separator_Some {A} sep i (p : str → option (A * str)) s r :
  read_separator sep i p s = Some r → ∃ s', p s' = Some r.
Proof. destruct i; simpl; [eauto|]. intros (s' & _ & H)%bind_Some. eauto. Qed.

Lemma ipv4_from_octets_wf l : length l = 4%nat → Forall (λ g, 0 <= g < 256) l → v4_wf (ipv4_from_octets l).
Proof.
  intros Hlen Hl. unfold ipv4_from_octets, v4_wf.
  pose proof (from_groups_range 8 ltac:(lia) l Hl) as H. by rewrite Hlen in H.
Qed.

Lemma ipv6_from_segments_wf l : length l = 8%nat → Forall (λ g, 0 <= g < 65536) l → v6_wf (ipv6_from_segments l).
Proof.
  intros Hlen Hl. unfold ipv6_from_segments, v6_wf.
  pose proof (from_groups_range 16 ltac:(lia) l Hl) as H. by rewrite Hlen in H.
Qed.

Lemma read_octet_range i s n rest : read_octet i s = Some (n, rest) → 0 <= n < 256.
Proof.
  intros (s' & H)%read_separator_Some. by eapply (read_number_range 8 10) in H.
Qed.

Lemma read_ipv4_wf s a rest : read_ipv4 s = Some (a, rest) → v4_wf a.
Proof.
  unfold read_ipv4. intros H.
  repeat (apply bind_Some in H as ([? ?] & ?%read_octet_range & H)).
  injection H as <- <-. apply ipv4_from_octets_wf; [done|]. forall_list done.
Qed.

Lemma read_groups_inv fuel i limit acc s l b rest :
  Forall (λ g, 0 <= g < 65536) acc → length acc = i → (i + fuel = limit)%nat →
  read_groups fuel i limit acc s = (l, b, rest) →
  Forall (λ g, 0 <= g < 65536) l ∧ (length l <= limit)%nat.
Proof.
  revert i acc s. induction fuel as [|fuel IH]; intros i acc s Hacc Hi Hf.
  { simpl. intros [= <- _ _]. split; [done|lia]. }
  cbn [read_groups].
  destruct (if (i <? limit - 1)%nat then read_separator ":"%rc i read_ipv4 s else None)
    as [[a s']|] eqn:E.
  - intros [= <- _ _]. destruct (Nat.ltb_spec i (limit - 1)); [|done].
    apply read_separator_Some in E as (s'' & Ha%read_ipv4_wf).
    rewrite length_app. simpl. split; [|lia]. apply Forall_app. split; [done|].
    unfold v4_wf in Ha. rewrite Z.shiftr_div_pow2, land_65535 by lia.
    pose proof (Z.mod_pos_bound a 65536 ltac:(lia)).
    assert (0 <= a / 2 ^ 16) by (apply Z.div_pos; lia).
    assert (a / 2 ^ 16 < 65536) by (apply Z.div_lt_upper_bound; lia).
    forall_list lia.
  - clear E. destruct (read_separator _ _ (read_number _ _ _ _) s) as [[g s']|] eqn:E.
    + apply read_separator_Some in E as (s'' & Hg). apply read_number_range in Hg; [|done].
      apply IH; [|rewrite length_app; simpl; lia|lia].
      apply Forall_app. split; [done|]. forall_list done.
    + intros [= <- _ _]. split; [done|lia].
Qed.

Lemma read_ipv6_wf s a rest : read_ipv6 s = Some (a, rest) → v6_wf a.
Proof.
  unfold read_ipv6. destruct (read_groups 8 0 8 [] s) as [[hd b] s1] eqn:E1.
  apply read_groups_inv in E1 as [Hhd Hlen]; [|constructor|done|done].
  destruct (Nat.eqb_spec (length hd) 8) as [H8|H8].
  { intros [= <- _]. by apply ipv6_from_segments_wf. }
  destruct b; [done|].
  intros (s2 & _ & (s3 & _ & H)%bind_Some)%bind_Some.
  destruct (read_groups _ 0 _ [] s3) as [[tl b'] s4] eqn:E2.
  apply read_groups_inv in E2 as [Htl Htlen]; [|constructor|done|done].
  injection H as <- _. apply ipv6_from_segments_wf.
  - rewrite !length_app, length_replicate. lia.
  - rewrite !Forall_app. repeat split; [done| |done].
    apply Forall_replicate. lia.
Qed.

Lemma finish_Some {A} (r : option (A * str)) a : finish r = Some a ↔ r = Some (a, []).
Proof. destruct r as [[x [|]]|]; simpl; naive_solver. Qed.

Lemma parse_ipv4_wf s a : parse_ipv4 s = Some a → v4_wf a.
Proof. unfold parse_ipv4. case_match; [done|]. by intros ?%finish_Some%read_ipv4_wf. Qed.
Lemma parse_ipv6_wf s a : parse_ipv6 s = Some a → v6_wf a.
Proof. by intros ?%finish_Some%read_ipv6_wf. Qed.
Lemma parse_ip_wf s a : parse_ip s = Some a → ip_wf a.
Proof.
  intros H%finish_Some. unfold read_ip in H.
  destruct (read_ipv4 s) as [[b rest]|] eqn:E.
  - injection H as <- _. by apply read_ipv4_wf in E.
  - apply bind_Some in H as ([b rest] & Hb%read_ipv6_wf & H). by injection H as <- _.
Qed.
#[export] Hint Resolve parse_ip_wf parse_ipv4_wf parse_ipv6_wf : rust.

(** Printing an IPv4 address and parsing it back. *)

Lemma span_all (p : Z → bool) ds rest :
  forallb p ds = true → (∀ c, head rest = Some c → p c = false) →
  span p (ds ++ rest) = (ds, rest).
Proof.
  intros Hds Hr. induction ds as [|c ds IH]; simpl in *.
  - destruct rest as [|c rest]; simpl; [done|]. by rewrite Hr.
  - apply andb_true_iff in Hds as [-> Hds]. by rewrite IH.
Qed.

Definition octet_text_ok (n : Z) : bool :=
  let ds := show_dec n in
  forallb (is_digit 10) ds && (length ds <=? 3)%nat
  && bool_decide (read_number 8 10 3 false ds = Some (n, [])).

Lemma octet_texts : forallb octet_text_ok (Z.of_nat <$> seq 0 256) = true.
Proof. vm_compute. reflexivity. Qed.

Lemma octet_text n : 0 <= n < 256 → octet_text_ok n = true.
Proof.
  intros Hn. apply (proj1 (forallb_elem_of _ _) octet_texts).
  apply list_elem_of_fmap. exists (Z.to_nat n). split; [lia|]. apply elem_of_seq. lia.
Qed.

Lemma read_number_show n rest :
  0 <= n < 256 → (∀ c, head rest = Some c → is_digit 10 c = false) →
  read_number 8 10 3 false (show_dec n ++ rest) = Some (n, rest).
Proof.
  intros Hn Hr. pose proof (octet_text n Hn) as Hok. unfold octet_text_ok in Hok. bools.
  rename H0 into Hrd. unfold read_number in *. rewrite span_all by done.
  rewrite <- (app_nil_r (show_dec n)) in Hrd at 1.
  rewrite span_all in Hrd by done. repeat case_match; simplify_eq; try done.
  apply bind_Some in Hrd as (v & -> & Hv). simpl. case_match; by simplify_eq.
Qed.

Lemma read_octet_show i n rest :
  0 <= n < 256 → (∀ c, head rest = Some c → is_digit 10 c = false) →
  read_octet (S i) ("."%rs ++ show_dec n ++ rest) = Some (n, rest).
Proof. intros. unfold read_octet. simpl. by apply read_number_show. Qed.

Lemma parse_show_ipv4 a : v4_wf a → parse_ip (show_ipv4 a) = Some (V4 a).
Proof.
  intros Ha. apply finish_Some. unfold read_ip.
  enough (read_ipv4 (show_ipv4 a) = Some (a, [])) as -> by done.
  unfold show_ipv4, octets, read_ipv4. cbn [fmap list_fmap join].
  assert (∀ i, i <= 3 → 0 <= octet a i < 256) as Ho by (intros; by apply octet_range).
  assert (∀ rest, ∀ c, head ("."%rs ++ rest) = Some c → is_digit 10 c = false) as Hdot.
  { by intros rest c [= <-]. }
  rewrite (read_number_show : ∀ n rest, _ → _ → read_octet 0 _ = _)
    by (first [apply Ho; lia | apply Hdot]). cbn [mbind option_bind].
  rewrite (read_octet_show 0) by (first [apply Ho; lia | apply Hdot]). cbn [mbind option_bind].
  rewrite (read_octet_show 1) by (first [apply Ho; lia | apply Hdot]). cbn [mbind option_bind].
  rewrite <- (app_nil_r (show_dec (octet a 3))), (read_octet_show 2) by (first [apply Ho; lia | done]).
  cbn [mbind option_bind]. do 2 f_equal. by apply ipv4_from_octets_octets.
Qed.
