(* ===== verification/Config.v ===== *)
(** * Config: the configuration of the daemon
    ([rustydns-core/src/config.rs])

    The configuration structures with their defaults, the SafeSearch presets, the
    forced-loopback metrics listener and the redaction of credentials in displayed
    URLs.  Field names carry their structure's name, since Rocq's projections share
    one name space.  Their TOML form is in [Toml]. *)

From S2P Require Import Prelude RustStr Net.

(** ** Defaults *)

Inductive BlockResponse := Nxdomain | Sinkhole | Refused.
#[export] Instance BlockResponse_eq_dec : EqDecision BlockResponse.
Proof. solve_decision. Defined.

Definition default_block_response : BlockResponse := Nxdomain.
Definition default_doh_listen : option str := Some "127.0.0.1:8053"%rs.
Definition default_false : bool := false.
Definition default_fetch_timeout_ms : Z := 30000.
Definition default_listen : list str := ["127.0.0.53:53"%rs].
Definition default_max_cache_entries : Z := 10000.
Definition default_max_fetch_bytes : Z := 50 * 1024 * 1024.
Definition default_mesh_zone : str := "rustynet."%rs.
Definition default_metrics_listen : str := "127.0.0.1:9153"%rs.
Definition default_metrics_path : str := "/metrics"%rs.
Definition default_poll_interval : Z := 30.
Definition default_reload_interval : Z := 86400.
Definition default_resolvers : list str :=
  ["https://cloudflare-dns.com/dns-query"%rs; "https://dns.quad9.net/dns-query"%rs].
Definition default_rate_limit_qps : Z := 100.
Definition default_rate_limit_burst : Z := 200.
Definition default_rate_limit_max_clients : Z := 10000.
Definition default_ring_size : Z := 1000.
Definition default_query_log_max_file_bytes : Z := 10 * 1024 * 1024.
Definition default_query_log_max_files : Z := 5.
Definition default_mesh_zone_max_age_secs : Z := 600.
Definition default_sinkhole_ip : str := "0.0.0.0"%rs.
Definition default_sources : list str :=
  ["https://raw.githubusercontent.com/StevenBlack/hosts/master/hosts"%rs].
Definition default_timeout_ms : Z := 5000.
Definition default_true : bool := true.

(** ** Structures *)

Record RewriteRule := {
  rewrite_name : str;
  rewrite_address : option str;
  rewrite_target : option str;
  rewrite_block : bool;
}.

Record SafeSearchConfig := {
  safesearch_enabled : bool;
  safesearch_google : bool;
  safesearch_bing : bool;
  safesearch_duckduckgo : bool;
  safesearch_youtube : bool;
}.

Definition SafeSearchConfig_default : SafeSearchConfig :=
  {| safesearch_enabled := false; safesearch_google := true; safesearch_bing := true;
     safesearch_duckduckgo := true; safesearch_youtube := true |}.

Record ServerConfig := {
  server_listen : list str;
  server_mesh_zone : str;
  server_doh_listen : option str;
  server_dot_listen : option str;
  server_doq_listen : option str;
  server_tls_cert_path : option str;
  server_tls_key_path : option str;
}.

Definition ServerConfig_default : ServerConfig :=
  {| server_listen := default_listen; server_mesh_zone := default_mesh_zone;
     server_doh_listen := default_doh_listen; server_dot_listen := None;
     server_doq_listen := None; server_tls_cert_path := None; server_tls_key_path := None |}.

Inductive UpstreamProtocol := Doh | Doq | Plain | Odoh.
#[export] Instance UpstreamProtocol_eq_dec : EqDecision UpstreamProtocol.
Proof. solve_decision. Defined.

Inductive TlsVersion := Tls13.

Record UpstreamRoute := {
  route_zone : str;
  route_resolvers : list str;
  route_protocol : UpstreamProtocol;
}.

Record UpstreamConfig := {
  upstream_resolvers : list str;
  upstream_protocol : UpstreamProtocol;
  upstream_fail_closed : bool;
  upstream_min_tls_version : TlsVersion;
  upstream_dnssec_validation : bool;
  upstream_timeout_ms : Z;
  upstream_max_cache_entries : Z;
  upstream_block_private_rdata : bool;
  upstream_routes : list UpstreamRoute;
  upstream_odoh_proxies : list str;
}.

Definition UpstreamConfig_default : UpstreamConfig :=
  {| upstream_resolvers := default_resolvers; upstream_protocol := Doh;
     upstream_fail_closed := true; upstream_min_tls_version := Tls13;
     upstream_dnssec_validation := true; upstream_timeout_ms := default_timeout_ms;
     upstream_max_cache_entries := default_max_cache_entries;
     upstream_block_private_rdata := false; upstream_routes := [];
     upstream_odoh_proxies := [] |}.

Record StaticRecord := {
  static_name : str;
  static_record_type : str;
  static_address : option str;
  static_target : option str;
  static_ttl : Z;
  static_client_filter : option str;
}.

Record AuthorityConfig := {
  authority_mesh_zone_bundle_path : option str;
  authority_mesh_zone_verifier_key_path : option str;
  authority_mesh_zone_max_age_secs : Z;
  authority_mesh_zone : str;
  authority_static_records : list StaticRecord;
  authority_zones : list str;
  authority_poll_interval_secs : Z;
}.

Definition AuthorityConfig_default : AuthorityConfig :=
  {| authority_mesh_zone_bundle_path := None; authority_mesh_zone_verifier_key_path := None;
     authority_mesh_zone_max_age_secs := default_mesh_zone_max_age_secs;
     authority_mesh_zone := default_mesh_zone; authority_static_records := [];
     authority_zones := []; authority_poll_interval_secs := default_poll_interval |}.

Record BlocklistGroup := {
  group_name : str;
  group_sources : list str;
  group_local_files : list str;
  group_trusted_rpz_sources : list str;
  group_allowlist : list str;
}.

Record BlocklistConfig := {
  blocklist_sources : list str;
  blocklist_trusted_rpz_sources : list str;
  blocklist_local_files : list str;
  blocklist_block_response : BlockResponse;
  blocklist_sinkhole_ip : str;
  blocklist_reload_interval_secs : Z;
  blocklist_fetch_timeout_ms : Z;
  blocklist_max_fetch_bytes : Z;
  blocklist_allowlist : list str;
  blocklist_block_cname_cloaking : bool;
  blocklist_response_ip_denylist : list str;
  blocklist_regex_rules : list str;
  blocklist_groups : list BlocklistGroup;
}.

Definition MAX_REGEX_PATTERN_LEN : Z := 512.
Definition MAX_REGEX_RULES : Z := 1000.

Definition BlocklistConfig_default : BlocklistConfig :=
  {| blocklist_sources := default_sources; blocklist_trusted_rpz_sources := [];
     blocklist_local_files := []; blocklist_block_response := Nxdomain;
     blocklist_sinkhole_ip := default_sinkhole_ip;
     blocklist_reload_interval_secs := default_reload_interval;
     blocklist_fetch_timeout_ms := default_fetch_timeout_ms;
     blocklist_max_fetch_bytes := default_max_fetch_bytes;
     blocklist_allowlist := []; blocklist_block_cname_cloaking := true;
     blocklist_response_ip_denylist := []; blocklist_regex_rules := [];
     blocklist_groups := [] |}.

Record PrivacyConfig := {
  privacy_query_minimization : bool;
  privacy_no_edns_client_subnet : bool;
  privacy_upstream_padding : bool;
  privacy_randomize_upstream_selection : bool;
  privacy_query_log_to_disk : bool;
  privacy_query_log_disk_path : option str;
  privacy_query_log_max_file_bytes : Z;
  privacy_query_log_max_files : Z;
  privacy_query_log_ring_size : Z;
  privacy_log_client_ips : bool;
}.

Definition PrivacyConfig_default : PrivacyConfig :=
  {| privacy_query_minimization := true; privacy_no_edns_client_subnet := true;
     privacy_upstream_padding := true; privacy_randomize_upstream_selection := true;
     privacy_query_log_to_disk := false; privacy_query_log_disk_path := None;
     privacy_query_log_max_file_bytes := default_query_log_max_file_bytes;
     privacy_query_log_max_files := default_query_log_max_files;
     privacy_query_log_ring_size := default_ring_size; privacy_log_client_ips := false |}.

Record MetricsConfig := { metrics_listen : str; metrics_path : str }.

Definition MetricsConfig_default : MetricsConfig :=
  {| metrics_listen := default_metrics_listen; metrics_path := default_metrics_path |}.

Record RateLimitConfig := {
  rate_limit_enabled : bool;
  rate_limit_qps : Z;
  rate_limit_burst : Z;
  rate_limit_max_tracked_clients : Z;
}.

Definition RateLimitConfig_default : RateLimitConfig :=
  {| rate_limit_enabled := true; rate_limit_qps := default_rate_limit_qps;
     rate_limit_burst := default_rate_limit_burst;
     rate_limit_max_tracked_clients := default_rate_limit_max_clients |}.

Record BlockWindow := {
  window_days : list str;
  window_start : option str;
  window_end : option str;
  window_utc_offset_minutes : Z;
}.

Record NodePolicy := {
  policy_node_id : option str;
  policy_client_ip : option str;
  policy_blocklist_bypass : bool;
  policy_zones_allowed : list str;
  policy_log_all_queries : bool;
  policy_block_windows : list BlockWindow;
  policy_blocklist_group : option str;
}.

Record DnsConfig := {
  cfg_server : ServerConfig;
  cfg_upstream : UpstreamConfig;
  cfg_authority : AuthorityConfig;
  cfg_blocklist : BlocklistConfig;
  cfg_privacy : PrivacyConfig;
  cfg_metrics : MetricsConfig;
  cfg_rate_limit : RateLimitConfig;
  cfg_policy : list NodePolicy;
  cfg_rewrite : list RewriteRule;
  cfg_safesearch : SafeSearchConfig;
}.

Definition DnsConfig_default : DnsConfig :=
  {| cfg_server := ServerConfig_default; cfg_upstream := UpstreamConfig_default;
     cfg_authority := AuthorityConfig_default; cfg_blocklist := BlocklistConfig_default;
     cfg_privacy := PrivacyConfig_default; cfg_metrics := MetricsConfig_default;
     cfg_rate_limit := RateLimitConfig_default; cfg_policy := []; cfg_rewrite := [];
     cfg_safesearch := SafeSearchConfig_default |}.

(** ** SafeSearch presets *)

Definition safesearch_cname (name target : str) : RewriteRule :=
  {| rewrite_name := name; rewrite_address := None; rewrite_target := Some target;
     rewrite_block := false |}.

Definition safesearch_rewrite_rules (s : SafeSearchConfig) : list RewriteRule :=
  if negb (safesearch_enabled s) then []
  else
    (if safesearch_google s then
       [safesearch_cname "google.com"%rs "forcesafesearch.google.com."%rs;
        safesearch_cname "www.google.com"%rs "forcesafesearch.google.com."%rs] else [])
    ++ (if safesearch_bing s then
       [safesearch_cname "bing.com"%rs "strict.bing.com."%rs;
        safesearch_cname "www.bing.com"%rs "strict.bing.com."%rs] else [])
    ++ (if safesearch_duckduckgo s then
       [safesearch_cname "duckduckgo.com"%rs "safe.duckduckgo.com."%rs] else [])
    ++ (if safesearch_youtube s then
       (λ n, safesearch_cname n "restrictmoderate.youtube.com."%rs) <$>
         ["youtube.com"%rs; "www.youtube.com"%rs; "m.youtube.com"%rs;
          "youtubei.googleapis.com"%rs; "youtube.googleapis.com"%rs] else []).

(** ** The metrics listener is forced onto loopback *)

Inductive config_error :=
| MetricsListenInvalid (listen : str).

Definition effective_listen (m : MetricsConfig) : result config_error SocketAddr :=
  addr ← ok_or (MetricsListenInvalid (metrics_listen m)) (parse_socket_addr (metrics_listen m));
  let ip := match sa_ip addr with
            | V6 v6 => match to_ipv4_mapped v6 with Some v4 => V4 v4 | None => V6 v6 end
            | V4 v4 => V4 v4
            end in
  if is_loopback ip then Ok {| sa_ip := ip; sa_port := sa_port addr; sa_scope := 0 |}
  else
    let loopback_ip := match ip with
                       | V6 _ => V6 1
                       | V4 _ => V4 (ipv4_from_octets [127; 0; 0; 1])
                       end in
    Ok {| sa_ip := loopback_ip; sa_port := sa_port addr; sa_scope := 0 |}.

(** ** Redaction of credentials in displayed URLs *)

Definition secret_param_keys : list str :=
  ["token"%rs; "access_token"%rs; "auth"%rs; "auth_token"%rs; "authorization"%rs;
   "apikey"%rs; "api_key"%rs; "api-key"%rs; "key"%rs; "secret"%rs; "password"%rs;
   "passwd"%rs; "pass"%rs; "sig"%rs; "signature"%rs; "x-amz-signature"%rs;
   "x-goog-signature"%rs; "x-ms-signature"%rs; "hmac"%rs].

Definition is_secret_param_key (key : str) : bool :=
  bool_decide (to_ascii_lowercase key ∈ secret_param_keys).

Definition scrub_pair (pair : str) : str :=
  match splitn 2 "="%rc pair with
  | key :: _ :: _ => if is_secret_param_key key then key ++ "=<redacted>"%rs else pair
  | _ => pair
  end.

Definition scrub_param_pairs (pairs : str) : str :=
  join "&"%rs (scrub_pair <$> split "&"%rc pairs).

(** [s.find(['/', '?', '#']).unwrap_or(s.len())] splits off the authority. *)
Definition is_authority_end (c : Z) : bool :=
  (c =? "/"%rc) || (c =? "?"%rc) || (c =? "#"%rc).

Definition redact_authority (authority : str) : str :=
  match rfind "@"%rc authority with
  | Some i => "<redacted>@"%rs ++ drop (S i) authority
  | None => authority
  end.

Definition redact_query (path_and_query : str) : str :=
  match find "?"%rc path_and_query with
  | Some q => take (S q) path_and_query ++ scrub_param_pairs (drop (S q) path_and_query)
  | None => path_and_query
  end.

Definition redact_rest (rest : str) : str :=
  match find "#"%rc rest with
  | Some h => redact_query (take h rest) ++ "#"%rs ++ scrub_param_pairs (drop (S h) rest)
  | None => redact_query rest
  end.

Definition redact_url_credentials (url : str) : str :=
  match find_str "://"%rs url with
  | None => url
  | Some scheme_end =>
      let after_scheme := drop (scheme_end + 3) url in
      let '(authority, rest) := span (λ c, negb (is_authority_end c)) after_scheme in
      take (scheme_end + 3) url ++ redact_authority authority ++ redact_rest rest
  end.

Definition redact_list : list str → list str := fmap redact_url_credentials.

Definition redacted_for_display (c : DnsConfig) : DnsConfig :=
  let u := cfg_upstream c in
  let b := cfg_blocklist c in
  {| cfg_server := cfg_server c;
     cfg_upstream :=
       {| upstream_resolvers := redact_list (upstream_resolvers u);
          upstream_protocol := upstream_protocol u;
          upstream_fail_closed := upstream_fail_closed u;
          upstream_min_tls_version := upstream_min_tls_version u;
          upstream_dnssec_validation := upstream_dnssec_validation u;
          upstream_timeout_ms := upstream_timeout_ms u;
          upstream_max_cache_entries := upstream_max_cache_entries u;
          upstream_block_private_rdata := upstream_block_private_rdata u;
          upstream_routes :=
            (λ r, {| route_zone := route_zone r;
                     route_resolvers := redact_list (route_resolvers r);
                     route_protocol := route_protocol r |}) <$> upstream_routes u;
          upstream_odoh_proxies := redact_list (upstream_odoh_proxies u) |};
     cfg_authority := cfg_authority c;
     cfg_blocklist :=
       {| blocklist_sources := redact_list (blocklist_sources b);
          blocklist_trusted_rpz_sources := redact_list (blocklist_trusted_rpz_sources b);
          blocklist_local_files := blocklist_local_files b;
          blocklist_block_response := blocklist_block_response b;
          blocklist_sinkhole_ip := blocklist_sinkhole_ip b;
          blocklist_reload_interval_secs := blocklist_reload_interval_secs b;
          blocklist_fetch_timeout_ms := blocklist_fetch_timeout_ms b;
          blocklist_max_fetch_bytes := blocklist_max_fetch_bytes b;
          blocklist_allowlist := blocklist_allowlist b;
          blocklist_block_cname_cloaking := blocklist_block_cname_cloaking b;
          blocklist_response_ip_denylist := blocklist_response_ip_denylist b;
          blocklist_regex_rules := blocklist_regex_rules b;
          blocklist_groups :=
            (λ g, {| group_name := group_name g;
                     group_sources := redact_list (group_sources g);
                     group_local_files := group_local_files g;
                     group_trusted_rpz_sources := redact_list (group_trusted_rpz_sources g);
                     group_allowlist := group_allowlist g |}) <$> blocklist_groups b |};
     cfg_privacy := cfg_privacy c;
     cfg_metrics := cfg_metrics c;
     cfg_rate_limit := cfg_rate_limit c;
     cfg_policy := cfg_policy c;
     cfg_rewrite := cfg_rewrite c;
     cfg_safesearch := cfg_safesearch c |}.

(** ** Properties *)

(** The metrics endpoint is bound to a loopback address whatever is configured,
    on the configured port. *)
Theorem effective_listen_loopback (m : MetricsConfig) (sa : SocketAddr) :
  effective_listen m = Ok sa →
  is_loopback (sa_ip sa) = true
  ∧ sa_port <$> parse_socket_addr (metrics_listen m) = Some (sa_port sa).
Proof.
  unfold effective_listen. intros H. apply bind_ok in H as (addr & Ha & H).
  destruct (parse_socket_addr (metrics_listen m)) as [addr'|]; [|discriminate Ha].
  injection Ha as ->. cbv zeta in H.
  set (ip := match sa_ip addr with V4 v4 => _ | V6 v6 => _ end) in H.
  destruct (is_loopback ip) eqn:Hl; injection H as <-; (split; [|reflexivity]).
  - exact Hl.
  - by destruct ip; vm_compute.
Qed.

(** [0.0.0.0:9153] becomes [127.0.0.1:9153]. *)
Lemma effective_listen_loopback_witness :
  is_loopback (V4 2130706433) = true
  ∧ sa_port <$> parse_socket_addr "0.0.0.0:9153"%rs = Some 9153.
Proof.
  apply (effective_listen_loopback
    {| metrics_listen := "0.0.0.0:9153"%rs; metrics_path := "/metrics"%rs |}
    {| sa_ip := V4 2130706433; sa_port := 9153; sa_scope := 0 |}).
  vm_compute. reflexivity.
Defined.
