(* ===== verification/Toml.v ===== *)
(** * Toml: reading and writing the configuration
    ([rustydns-core/src/config.rs]: the [Deserialize] and [Serialize] derives)

    The configuration is read from a tree of TOML values, and [--print-config] writes one.
    Each structure is described by its fields as its serde attributes do: the key, the type,
    and what a missing key stands for.  [deny_unknown_fields] is on every structure.  A table
    is a map, as the order of its keys says nothing; text and trees are the business of the
    [toml] crate, which is a parameter where it is used.  Two liberties of the generated code
    are left out: a structure as an array of its fields, and an enum as a table. *)

From S2P Require Import Prelude RustStr Net Config.

(** ** Values *)

#[warnings="-register-all"]
Inductive value :=
| VString (s : str)
| VInteger (z : Z)
| VFloat (text : str)
| VBoolean (b : bool)
| VDatetime (text : str)
| VArray (vs : list value)
| VTable (t : gmap str value).

(** ** Codecs *)

(** How a type is written and read, and which of its values can be written. *)
Record codec (A : Type) := { enc : A → value; dec : value → option A; storable : A → Prop }.
Arguments enc {A} _ _.
Arguments dec {A} _ _.
Arguments storable {A} _ _.

(** What is written is read back, and only such values are read. *)
Class Lawful {A} (c : codec A) : Prop := {
  dec_enc a : storable c a → dec c (enc c a) = Some a;
  dec_storable v a : dec c v = Some a → storable c a;
}.

Definition codec_str : codec str :=
  {| enc := VString; dec v := match v with VString s => Some s | _ => None end;
     storable _ := True |}.

Definition codec_bool : codec bool :=
  {| enc := VBoolean; dec v := match v with VBoolean b => Some b | _ => None end;
     storable _ := True |}.

(** Integers of TOML are [i64]; a type takes those in its range. *)
Definition i64_max : Z := 9223372036854775807.
Definition in_range (lo hi z : Z) : bool := (lo <=? z) && (z <=? Z.min hi i64_max).
Definition codec_int (lo hi : Z) : codec Z :=
  {| enc := VInteger;
     dec v := match v with VInteger z => if in_range lo hi z then Some z else None | _ => None end;
     storable z := in_range lo hi z = true |}.
Definition codec_u64 : codec Z := codec_int 0 (2 ^ 64 - 1).
Definition codec_usize : codec Z := codec_u64.
Definition codec_u32 : codec Z := codec_int 0 (2 ^ 32 - 1).
Definition codec_i32 : codec Z := codec_int (- 2 ^ 31) (2 ^ 31 - 1).

Definition codec_list {A} (c : codec A) : codec (list A) :=
  {| enc l := VArray (enc c <$> l);
     dec v := match v with VArray vs => mapM (dec c) vs | _ => None end;
     storable := Forall (storable c) |}.

(** An enum without data is its variant's name. *)
Definition codec_enum {A} (variants : list (str * A)) (name : A → str) : codec A :=
  {| enc a := VString (name a);
     dec v := match v with
              | VString s => snd <$> List.find (λ p, str_eqb p.1 s) variants
              | _ => None
              end;
     storable _ := True |}.

#[export] Instance codec_str_lawful : Lawful codec_str.
Proof. by split. Qed.
#[export] Instance codec_bool_lawful : Lawful codec_bool.
Proof. by split. Qed.
#[export] Instance codec_int_lawful lo hi : Lawful (codec_int lo hi).
Proof.
  split; cbn [codec_int enc dec storable]; [by intros z ->|].
  intros v z. destruct v as [|z'| | | | |]; try done. by destruct (in_range lo hi z') eqn:E; [intros [= <-]|].
Qed.
#[export] Instance codec_u64_lawful : Lawful codec_u64.
Proof. apply codec_int_lawful. Qed.
#[export] Instance codec_usize_lawful : Lawful codec_usize.
Proof. apply codec_int_lawful. Qed.
#[export] Instance codec_u32_lawful : Lawful codec_u32.
Proof. apply codec_int_lawful. Qed.
#[export] Instance codec_i32_lawful : Lawful codec_i32.
Proof. apply codec_int_lawful. Qed.

#[export] Instance codec_list_lawful {A} (c : codec A) : Lawful c → Lawful (codec_list c).
Proof.
  intros Hc. split; cbn [codec_list enc dec storable].
  - intros l Hl. induction Hl as [|a l Ha Hl IH]; [done|]. cbn. by rewrite dec_enc, IH.
  - intros v l. destruct v as [| | | | |vs|]; try done. intros Hv%mapM_Some.
    induction Hv as [|v a vs l Ha Hv IH]; constructor; [by eapply dec_storable|done].
Qed.

Lemma codec_enum_lawful {A} (variants : list (str * A)) (name : A → str) :
  (∀ a, snd <$> List.find (λ p, str_eqb p.1 (name a)) variants = Some a) →
  Lawful (codec_enum variants name).
Proof. intros Hn. split; [|done]. intros a _. apply Hn. Qed.

(** ** Structures *)

(** A field: its key, how it is written (or left out) and read, what a missing key stands
    for, and which values can be written. *)
Record field (A : Type) := {
  f_key : str;
  f_enc : A → option value;
  f_dec : value → option A;
  f_missing : option A;
  f_storable : A → Prop;
}.
Arguments f_key {A} _.
Arguments f_enc {A} _ _.
Arguments f_dec {A} _ _.
Arguments f_missing {A} _.
Arguments f_storable {A} _ _.

(** A field without [serde(default)]: the key must be there. *)
Definition required {A} (key : str) (c : codec A) : field A :=
  {| f_key := key; f_enc a := Some (enc c a); f_dec := dec c; f_missing := None;
     f_storable := storable c |}.
(** [serde(default = ..)]. *)
Definition defaulted {A} (key : str) (c : codec A) (default : A) : field A :=
  {| f_key := key; f_enc a := Some (enc c a); f_dec := dec c; f_missing := Some default;
     f_storable := storable c |}.
(** An [Option]: [None] is left out, so that it can only be written when a missing key means
    [None]. *)
Definition optional {A} (key : str) (c : codec A) (default : option A) : field (option A) :=
  {| f_key := key; f_enc o := enc c <$> o; f_dec v := Some <$> dec c v; f_missing := Some default;
     f_storable o := match o with Some a => storable c a | None => default = None end |}.

(** The fields of a structure, whose values are a tuple. *)
Inductive fields : Type → Type :=
| FNil : fields unit
| FCons {A B} (f : field A) (fs : fields B) : fields (A * B).
Declare Scope fields_scope.
Delimit Scope fields_scope with fields.
Bind Scope fields_scope with fields.
Notation "f &: fs" := (FCons f fs) (at level 60, right associativity) : fields_scope.
Notation "∎" := FNil : fields_scope.

Fixpoint keys {B} (fs : fields B) : list str :=
  match fs with
  | FNil => []
  | FCons f fs => f_key f :: keys fs
  end.

Fixpoint enc_fields {B} (fs : fields B) : B → gmap str value :=
  match fs with
  | FNil => λ _, ∅
  | FCons f fs => λ '(a, b), partial_alter (λ _, f_enc f a) (f_key f) (enc_fields fs b)
  end.

Definition dec_field {A} (f : field A) (t : gmap str value) : option A :=
  match t !! f_key f with
  | Some v => f_dec f v
  | None => f_missing f
  end.

Fixpoint dec_fields {B} (fs : fields B) (t : gmap str value) : option B :=
  match fs with
  | FNil => Some ()
  | FCons f fs => a ← dec_field f t; b ← dec_fields fs t; Some (a, b)
  end.

Fixpoint storable_fields {B} (fs : fields B) : B → Prop :=
  match fs with
  | FNil => λ _, True
  | FCons f fs => λ '(a, b), f_storable f a ∧ storable_fields fs b
  end.

(** [deny_unknown_fields]. *)
Definition known_keys (ks : list str) (t : gmap str value) : bool :=
  forallb (λ p, bool_decide (p.1 ∈ ks)) (map_to_list t).

(** A structure whose values are made from, and taken apart to, the tuple of its fields. *)
Definition codec_struct {B S} (fs : fields B) (make : B → S) (take_apart : S → B) : codec S :=
  {| enc x := VTable (enc_fields fs (take_apart x));
     dec v := match v with
              | VTable t => if known_keys (keys fs) t then make <$> dec_fields fs t else None
              | _ => None
              end;
     storable x := storable_fields fs (take_apart x) |}.

(** ** The laws of structures *)

Class LawfulField {A} (f : field A) : Prop := {
  field_enc a : f_storable f a →
    match f_enc f a with Some v => f_dec f v = Some a | None => f_missing f = Some a end;
  field_dec v a : f_dec f v = Some a → f_storable f a;
  field_missing a : f_missing f = Some a → f_storable f a;
}.

Lemma required_lawful {A} key (c : codec A) : Lawful c → LawfulField (required key c).
Proof. intros Hc. split; cbn; [apply dec_enc|apply dec_storable|done]. Qed.

Lemma defaulted_lawful {A} key (c : codec A) d :
  Lawful c → storable c d → LawfulField (defaulted key c d).
Proof. intros Hc Hd. split; cbn; [apply dec_enc|apply dec_storable|congruence]. Qed.

Lemma optional_lawful {A} key (c : codec A) d :
  Lawful c → match d with Some a => storable c a | None => True end → LawfulField (optional key c d).
Proof.
  intros Hc Hd. split; cbn.
  - intros [a|]; cbn; [intros Ha; by rewrite dec_enc|congruence].
  - intros v o (a & Ha & ->)%fmap_Some. by eapply dec_storable.
  - intros o [= <-]. by destruct d.
Qed.

Fixpoint lawful_fields {B} (fs : fields B) : Prop :=
  match fs with
  | FNil => True
  | FCons f fs => LawfulField f ∧ lawful_fields fs
  end.

Lemma dec_fields_ext {B} (fs : fields B) t t' :
  (∀ k, k ∈ keys fs → t !! k = t' !! k) → dec_fields fs t = dec_fields fs t'.
Proof.
  induction fs as [|A B f fs IH]; [done|]. cbn. intros Hk. unfold dec_field.
  rewrite (Hk (f_key f)) by by left. rewrite IH; [done|]. intros k Hin. apply Hk. by right.
Qed.

Lemma enc_fields_other {B} (fs : fields B) b k : k ∉ keys fs → enc_fields fs b !! k = None.
Proof.
  induction fs as [|A B f fs IH]; [done|]. cbn. rewrite not_elem_of_cons. intros [Hk Hn].
  destruct b as [a b]. rewrite lookup_partial_alter_ne by done. by apply IH.
Qed.

Lemma dec_enc_fields {B} (fs : fields B) b :
  NoDup (keys fs) → lawful_fields fs → storable_fields fs b → dec_fields fs (enc_fields fs b) = Some b.
Proof.
  induction fs as [|A B f fs IH]; [by destruct b|]. cbn. destruct b as [a b].
  intros [Hf Hn]%list.NoDup_cons [Hl Hls] [Ha Hb]. unfold dec_field. rewrite lookup_partial_alter_eq.
  pose proof (field_enc a Ha) as He.
  assert (dec_fields fs (partial_alter (λ _, f_enc f a) (f_key f) (enc_fields fs b)) = Some b) as ->.
  { rewrite (dec_fields_ext fs _ (enc_fields fs b)); [by apply IH|].
    intros k Hk. rewrite lookup_partial_alter_ne; [done|]. intros He'. by rewrite He' in Hf. }
  by destruct (f_enc f a); rewrite He.
Qed.

Lemma dec_fields_storable {B} (fs : fields B) t b :
  lawful_fields fs → dec_fields fs t = Some b → storable_fields fs b.
Proof.
  induction fs as [|A B f fs IH]; [done|]. cbn. intros [Hl Hls] (a & Ha & Hd)%bind_Some.
  apply bind_Some in Hd as (b' & Hb & [= <-]). split; [|by apply IH].
  unfold dec_field in Ha. destruct (t !! f_key f); [by eapply field_dec|by apply field_missing].
Qed.

Lemma known_keys_spec ks t : known_keys ks t = true ↔ ∀ k, is_Some (t !! k) → k ∈ ks.
Proof.
  unfold known_keys. rewrite forallb_elem_of. split.
  - intros Hk k [v Hv]. apply elem_of_map_to_list, Hk in Hv. by apply bool_decide_eq_true in Hv.
  - intros Hk [k v] Hv%elem_of_map_to_list. apply bool_decide_eq_true, Hk. by eexists.
Qed.

Lemma codec_struct_lawful {B S} (fs : fields B) (make : B → S) (take_apart : S → B) :
  NoDup (keys fs) → lawful_fields fs →
  (∀ x, make (take_apart x) = x) → (∀ b, take_apart (make b) = b) →
  Lawful (codec_struct fs make take_apart).
Proof.
  intros Hn Hl Hmt Htm. split; cbn [codec_struct enc dec storable].
  - intros x Hx. assert (known_keys (keys fs) (enc_fields fs (take_apart x)) = true) as ->.
    { apply known_keys_spec. intros k Hk. destruct (decide (k ∈ keys fs)) as [|Hnk]; [done|].
      rewrite enc_fields_other in Hk by done. by destruct Hk. }
    rewrite dec_enc_fields by done. cbn. by rewrite Hmt.
  - intros v x Hv. destruct v as [| | | | | |t]; try done. destruct (known_keys _ t); [|done].
    apply fmap_Some in Hv as (b & Hb & ->). rewrite Htm. by eapply dec_fields_storable.
Qed.

(** A table with a key that is not a field is not read. *)
Lemma codec_struct_unknown {B S} (fs : fields B) (make : B → S) take_apart t k :
  is_Some (t !! k) → k ∉ keys fs → dec (codec_struct fs make take_apart) (VTable t) = None.
Proof.
  intros Hk Hn. cbn [codec_struct dec]. destruct (known_keys (keys fs) t) eqn:E; [|done].
  rewrite known_keys_spec in E. by apply E in Hk.
Qed.

(** ** The configuration *)

Definition codec_strs : codec (list str) := codec_list codec_str.

Definition UpstreamProtocol_name (p : UpstreamProtocol) : str :=
  match p with Doh => "doh"%rs | Doq => "doq"%rs | Plain => "plain"%rs | Odoh => "odoh"%rs end.
Definition codec_UpstreamProtocol : codec UpstreamProtocol :=
  codec_enum ((λ p, (UpstreamProtocol_name p, p)) <$> [Doh; Doq; Plain; Odoh]) UpstreamProtocol_name.

Definition codec_TlsVersion : codec TlsVersion := codec_enum [("1.3"%rs, Tls13)] (λ _, "1.3"%rs).

Definition BlockResponse_name (r : BlockResponse) : str :=
  match r with Nxdomain => "nxdomain"%rs | Sinkhole => "sinkhole"%rs | Refused => "refused"%rs end.
Definition codec_BlockResponse : codec BlockResponse :=
  codec_enum ((λ r, (BlockResponse_name r, r)) <$> [Nxdomain; Sinkhole; Refused]) BlockResponse_name.

Definition RewriteRule_fields : fields _ :=
  (required "name"%rs codec_str
   &: optional "address"%rs codec_str None
   &: optional "target"%rs codec_str None
   &: defaulted "block"%rs codec_bool default_false
   &: ∎)%fields.
Definition codec_RewriteRule : codec RewriteRule :=
  codec_struct RewriteRule_fields
    (λ '(name, (address, (target, (block, ())))), {| rewrite_name := name; rewrite_address :=
    address; rewrite_target := target; rewrite_block := block |})
    (λ x, (rewrite_name x, (rewrite_address x, (rewrite_target x, (rewrite_block x, ()))))).

Definition SafeSearchConfig_fields : fields _ :=
  (defaulted "enabled"%rs codec_bool default_false
   &: defaulted "google"%rs codec_bool default_true
   &: defaulted "bing"%rs codec_bool default_true
   &: defaulted "duckduckgo"%rs codec_bool default_true
   &: defaulted "youtube"%rs codec_bool default_true
   &: ∎)%fields.
Definition codec_SafeSearchConfig : codec SafeSearchConfig :=
  codec_struct SafeSearchConfig_fields
    (λ '(enabled, (google, (bing, (duckduckgo, (youtube, ()))))), {| safesearch_enabled :=
    enabled; safesearch_google := google; safesearch_bing := bing; safesearch_duckduckgo :=
    duckduckgo; safesearch_youtube := youtube |})
    (λ x, (safesearch_enabled x, (safesearch_google x, (safesearch_bing x, (safesearch_duckduckgo
    x, (safesearch_youtube x, ())))))).

Definition ServerConfig_fields : fields _ :=
  (defaulted "listen"%rs codec_strs default_listen
   &: defaulted "mesh_zone"%rs codec_str default_mesh_zone
   &: optional "doh_listen"%rs codec_str default_doh_listen
   &: optional "dot_listen"%rs codec_str None
   &: optional "doq_listen"%rs codec_str None
   &: optional "tls_cert_path"%rs codec_str None
   &: optional "tls_key_path"%rs codec_str None
   &: ∎)%fields.
Definition codec_ServerConfig : codec ServerConfig :=
  codec_struct ServerConfig_fields
    (λ '(listen, (mesh_zone, (doh_listen, (dot_listen, (doq_listen, (tls_cert_path, (tls_key_path,
    ()))))))), {| server_listen := listen; server_mesh_zone := mesh_zone; server_doh_listen :=
    doh_listen; server_dot_listen := dot_listen; server_doq_listen := doq_listen;
    server_tls_cert_path := tls_cert_path; server_tls_key_path := tls_key_path |})
    (λ x, (server_listen x, (server_mesh_zone x, (server_doh_listen x, (server_dot_listen x,
    (server_doq_listen x, (server_tls_cert_path x, (server_tls_key_path x, ())))))))).

Definition UpstreamRoute_fields : fields _ :=
  (required "zone"%rs codec_str
   &: required "resolvers"%rs codec_strs
   &: defaulted "protocol"%rs codec_UpstreamProtocol Doh
   &: ∎)%fields.
Definition codec_UpstreamRoute : codec UpstreamRoute :=
  codec_struct UpstreamRoute_fields
    (λ '(zone, (resolvers, (protocol, ()))), {| route_zone := zone; route_resolvers := resolvers;
    route_protocol := protocol |})
    (λ x, (route_zone x, (route_resolvers x, (route_protocol x, ())))).

Definition UpstreamConfig_fields : fields _ :=
  (defaulted "resolvers"%rs codec_strs default_resolvers
   &: defaulted "protocol"%rs codec_UpstreamProtocol Doh
   &: defaulted "fail_closed"%rs codec_bool default_true
   &: defaulted "min_tls_version"%rs codec_TlsVersion Tls13
   &: defaulted "dnssec_validation"%rs codec_bool default_true
   &: defaulted "timeout_ms"%rs codec_u64 default_timeout_ms
   &: defaulted "max_cache_entries"%rs codec_usize default_max_cache_entries
   &: defaulted "block_private_rdata"%rs codec_bool default_false
   &: defaulted "routes"%rs (codec_list codec_UpstreamRoute) []
   &: defaulted "odoh_proxies"%rs codec_strs []
   &: ∎)%fields.
Definition codec_UpstreamConfig : codec UpstreamConfig :=
  codec_struct UpstreamConfig_fields
    (λ '(resolvers, (protocol, (fail_closed, (min_tls_version, (dnssec_validation, (timeout_ms,
    (max_cache_entries, (block_private_rdata, (routes, (odoh_proxies, ())))))))))), {|
    upstream_resolvers := resolvers; upstream_protocol := protocol; upstream_fail_closed :=
    fail_closed; upstream_min_tls_version := min_tls_version; upstream_dnssec_validation :=
    dnssec_validation; upstream_timeout_ms := timeout_ms; upstream_max_cache_entries :=
    max_cache_entries; upstream_block_private_rdata := block_private_rdata; upstream_routes :=
    routes; upstream_odoh_proxies := odoh_proxies |})
    (λ x, (upstream_resolvers x, (upstream_protocol x, (upstream_fail_closed x,
    (upstream_min_tls_version x, (upstream_dnssec_validation x, (upstream_timeout_ms x,
    (upstream_max_cache_entries x, (upstream_block_private_rdata x, (upstream_routes x,
    (upstream_odoh_proxies x, ()))))))))))).

Definition StaticRecord_fields : fields _ :=
  (required "name"%rs codec_str
   &: required "type"%rs codec_str
   &: optional "address"%rs codec_str None
   &: optional "target"%rs codec_str None
   &: required "ttl"%rs codec_u32
   &: optional "client_filter"%rs codec_str None
   &: ∎)%fields.
Definition codec_StaticRecord : codec StaticRecord :=
  codec_struct StaticRecord_fields
    (λ '(name, (record_type, (address, (target, (ttl, (client_filter, ())))))), {| static_name :=
    name; static_record_type := record_type; static_address := address; static_target := target;
    static_ttl := ttl; static_client_filter := client_filter |})
    (λ x, (static_name x, (static_record_type x, (static_address x, (static_target x, (static_ttl
    x, (static_client_filter x, ()))))))).

Definition AuthorityConfig_fields : fields _ :=
  (optional "mesh_zone_bundle_path"%rs codec_str None
   &: optional "mesh_zone_verifier_key_path"%rs codec_str None
   &: defaulted "mesh_zone_max_age_secs"%rs codec_u64 default_mesh_zone_max_age_secs
   &: defaulted "mesh_zone"%rs codec_str default_mesh_zone
   &: defaulted "static_records"%rs (codec_list codec_StaticRecord) []
   &: defaulted "zones"%rs codec_strs []
   &: defaulted "poll_interval_secs"%rs codec_u64 default_poll_interval
   &: ∎)%fields.
Definition codec_AuthorityConfig : codec AuthorityConfig :=
  codec_struct AuthorityConfig_fields
    (λ '(mesh_zone_bundle_path, (mesh_zone_verifier_key_path, (mesh_zone_max_age_secs, (mesh_zone,
    (static_records, (zones, (poll_interval_secs, ()))))))), {| authority_mesh_zone_bundle_path :=
    mesh_zone_bundle_path; authority_mesh_zone_verifier_key_path := mesh_zone_verifier_key_path;
    authority_mesh_zone_max_age_secs := mesh_zone_max_age_secs; authority_mesh_zone := mesh_zone;
    authority_static_records := static_records; authority_zones := zones;
    authority_poll_interval_secs := poll_interval_secs |})
    (λ x, (authority_mesh_zone_bundle_path x, (authority_mesh_zone_verifier_key_path x,
    (authority_mesh_zone_max_age_secs x, (authority_mesh_zone x, (authority_static_records x,
    (authority_zones x, (authority_poll_interval_secs x, ())))))))).

Definition BlocklistGroup_fields : fields _ :=
  (required "name"%rs codec_str
   &: defaulted "sources"%rs codec_strs []
   &: defaulted "local_files"%rs codec_strs []
   &: defaulted "trusted_rpz_sources"%rs codec_strs []
   &: defaulted "allowlist"%rs codec_strs []
   &: ∎)%fields.
Definition codec_BlocklistGroup : codec BlocklistGroup :=
  codec_struct BlocklistGroup_fields
    (λ '(name, (sources, (local_files, (trusted_rpz_sources, (allowlist, ()))))), {| group_name :=
    name; group_sources := sources; group_local_files := local_files; group_trusted_rpz_sources :=
    trusted_rpz_sources; group_allowlist := allowlist |})
    (λ x, (group_name x, (group_sources x, (group_local_files x, (group_trusted_rpz_sources x,
    (group_allowlist x, ())))))).

Definition BlocklistConfig_fields : fields _ :=
  (defaulted "sources"%rs codec_strs default_sources
   &: defaulted "trusted_rpz_sources"%rs codec_strs []
   &: defaulted "local_files"%rs codec_strs []
   &: defaulted "block_response"%rs codec_BlockResponse default_block_response
   &: defaulted "sinkhole_ip"%rs codec_str default_sinkhole_ip
   &: defaulted "reload_interval_secs"%rs codec_u64 default_reload_interval
   &: defaulted "fetch_timeout_ms"%rs codec_u64 default_fetch_timeout_ms
   &: defaulted "max_fetch_bytes"%rs codec_u64 default_max_fetch_bytes
   &: defaulted "allowlist"%rs codec_strs []
   &: defaulted "block_cname_cloaking"%rs codec_bool default_true
   &: defaulted "response_ip_denylist"%rs codec_strs []
   &: defaulted "regex_rules"%rs codec_strs []
   &: defaulted "groups"%rs (codec_list codec_BlocklistGroup) []
   &: ∎)%fields.
Definition codec_BlocklistConfig : codec BlocklistConfig :=
  codec_struct BlocklistConfig_fields
    (λ '(sources, (trusted_rpz_sources, (local_files, (block_response, (sinkhole_ip,
    (reload_interval_secs, (fetch_timeout_ms, (max_fetch_bytes, (allowlist, (block_cname_cloaking,
    (response_ip_denylist, (regex_rules, (groups, ()))))))))))))), {| blocklist_sources :=
    sources; blocklist_trusted_rpz_sources := trusted_rpz_sources; blocklist_local_files :=
    local_files; blocklist_block_response := block_response; blocklist_sinkhole_ip := sinkhole_ip;
    blocklist_reload_interval_secs := reload_interval_secs; blocklist_fetch_timeout_ms :=
    fetch_timeout_ms; blocklist_max_fetch_bytes := max_fetch_bytes; blocklist_allowlist :=
    allowlist; blocklist_block_cname_cloaking := block_cname_cloaking;
    blocklist_response_ip_denylist := response_ip_denylist; blocklist_regex_rules := regex_rules;
    blocklist_groups := groups |})
    (λ x, (blocklist_sources x, (blocklist_trusted_rpz_sources x, (blocklist_local_files x,
    (blocklist_block_response x, (blocklist_sinkhole_ip x, (blocklist_reload_interval_secs x,
    (blocklist_fetch_timeout_ms x, (blocklist_max_fetch_bytes x, (blocklist_allowlist x,
    (blocklist_block_cname_cloaking x, (blocklist_response_ip_denylist x, (blocklist_regex_rules
    x, (blocklist_groups x, ())))))))))))))).

Definition PrivacyConfig_fields : fields _ :=
  (defaulted "query_minimization"%rs codec_bool default_true
   &: defaulted "no_edns_client_subnet"%rs codec_bool default_true
   &: defaulted "upstream_padding"%rs codec_bool default_true
   &: defaulted "randomize_upstream_selection"%rs codec_bool default_true
   &: defaulted "query_log_to_disk"%rs codec_bool default_false
   &: optional "query_log_disk_path"%rs codec_str None
   &: defaulted "query_log_max_file_bytes"%rs codec_u64 default_query_log_max_file_bytes
   &: defaulted "query_log_max_files"%rs codec_usize default_query_log_max_files
   &: defaulted "query_log_ring_size"%rs codec_usize default_ring_size
   &: defaulted "log_client_ips"%rs codec_bool default_false
   &: ∎)%fields.
Definition codec_PrivacyConfig : codec PrivacyConfig :=
  codec_struct PrivacyConfig_fields
    (λ '(query_minimization, (no_edns_client_subnet, (upstream_padding,
    (randomize_upstream_selection, (query_log_to_disk, (query_log_disk_path,
    (query_log_max_file_bytes, (query_log_max_files, (query_log_ring_size, (log_client_ips,
    ())))))))))), {| privacy_query_minimization := query_minimization;
    privacy_no_edns_client_subnet := no_edns_client_subnet; privacy_upstream_padding :=
    upstream_padding; privacy_randomize_upstream_selection := randomize_upstream_selection;
    privacy_query_log_to_disk := query_log_to_disk; privacy_query_log_disk_path :=
    query_log_disk_path; privacy_query_log_max_file_bytes := query_log_max_file_bytes;
    privacy_query_log_max_files := query_log_max_files; privacy_query_log_ring_size :=
    query_log_ring_size; privacy_log_client_ips := log_client_ips |})
    (λ x, (privacy_query_minimization x, (privacy_no_edns_client_subnet x,
    (privacy_upstream_padding x, (privacy_randomize_upstream_selection x,
    (privacy_query_log_to_disk x, (privacy_query_log_disk_path x,
    (privacy_query_log_max_file_bytes x, (privacy_query_log_max_files x,
    (privacy_query_log_ring_size x, (privacy_log_client_ips x, ()))))))))))).

Definition MetricsConfig_fields : fields _ :=
  (defaulted "listen"%rs codec_str default_metrics_listen
   &: defaulted "path"%rs codec_str default_metrics_path
   &: ∎)%fields.
Definition codec_MetricsConfig : codec MetricsConfig :=
  codec_struct MetricsConfig_fields
    (λ '(listen, (path, ())), {| metrics_listen := listen; metrics_path := path |})
    (λ x, (metrics_listen x, (metrics_path x, ()))).

Definition RateLimitConfig_fields : fields _ :=
  (defaulted "enabled"%rs codec_bool default_true
   &: defaulted "qps"%rs codec_u32 default_rate_limit_qps
   &: defaulted "burst"%rs codec_u32 default_rate_limit_burst
   &: defaulted "max_tracked_clients"%rs codec_usize default_rate_limit_max_clients
   &: ∎)%fields.
Definition codec_RateLimitConfig : codec RateLimitConfig :=
  codec_struct RateLimitConfig_fields
    (λ '(enabled, (qps, (burst, (max_tracked_clients, ())))), {| rate_limit_enabled := enabled;
    rate_limit_qps := qps; rate_limit_burst := burst; rate_limit_max_tracked_clients :=
    max_tracked_clients |})
    (λ x, (rate_limit_enabled x, (rate_limit_qps x, (rate_limit_burst x,
    (rate_limit_max_tracked_clients x, ()))))).

Definition BlockWindow_fields : fields _ :=
  (defaulted "days"%rs codec_strs []
   &: optional "start"%rs codec_str None
   &: optional "end"%rs codec_str None
   &: defaulted "utc_offset_minutes"%rs codec_i32 0
   &: ∎)%fields.
Definition codec_BlockWindow : codec BlockWindow :=
  codec_struct BlockWindow_fields
    (λ '(days, (start, (end_, (utc_offset_minutes, ())))), {| window_days := days; window_start :=
    start; window_end := end_; window_utc_offset_minutes := utc_offset_minutes |})
    (λ x, (window_days x, (window_start x, (window_end x, (window_utc_offset_minutes x, ()))))).

Definition NodePolicy_fields : fields _ :=
  (optional "node_id"%rs codec_str None
   &: optional "client_ip"%rs codec_str None
   &: defaulted "blocklist_bypass"%rs codec_bool default_false
   &: defaulted "zones_allowed"%rs codec_strs []
   &: defaulted "log_all_queries"%rs codec_bool default_false
   &: defaulted "block_windows"%rs (codec_list codec_BlockWindow) []
   &: optional "blocklist_group"%rs codec_str None
   &: ∎)%fields.
Definition codec_NodePolicy : codec NodePolicy :=
  codec_struct NodePolicy_fields
    (λ '(node_id, (client_ip, (blocklist_bypass, (zones_allowed, (log_all_queries, (block_windows,
    (blocklist_group, ()))))))), {| policy_node_id := node_id; policy_client_ip := client_ip;
    policy_blocklist_bypass := blocklist_bypass; policy_zones_allowed := zones_allowed;
    policy_log_all_queries := log_all_queries; policy_block_windows := block_windows;
    policy_blocklist_group := blocklist_group |})
    (λ x, (policy_node_id x, (policy_client_ip x, (policy_blocklist_bypass x,
    (policy_zones_allowed x, (policy_log_all_queries x, (policy_block_windows x,
    (policy_blocklist_group x, ())))))))).

Definition DnsConfig_fields : fields _ :=
  (defaulted "server"%rs codec_ServerConfig ServerConfig_default
   &: defaulted "upstream"%rs codec_UpstreamConfig UpstreamConfig_default
   &: defaulted "authority"%rs codec_AuthorityConfig AuthorityConfig_default
   &: defaulted "blocklist"%rs codec_BlocklistConfig BlocklistConfig_default
   &: defaulted "privacy"%rs codec_PrivacyConfig PrivacyConfig_default
   &: defaulted "metrics"%rs codec_MetricsConfig MetricsConfig_default
   &: defaulted "rate_limit"%rs codec_RateLimitConfig RateLimitConfig_default
   &: defaulted "policy"%rs (codec_list codec_NodePolicy) []
   &: defaulted "rewrite"%rs (codec_list codec_RewriteRule) []
   &: defaulted "safesearch"%rs codec_SafeSearchConfig SafeSearchConfig_default
   &: ∎)%fields.
Definition codec_DnsConfig : codec DnsConfig :=
  codec_struct DnsConfig_fields
    (λ '(server, (upstream, (authority, (blocklist, (privacy, (metrics, (rate_limit, (policy,
    (rewrite, (safesearch, ())))))))))), {| cfg_server := server; cfg_upstream := upstream;
    cfg_authority := authority; cfg_blocklist := blocklist; cfg_privacy := privacy; cfg_metrics :=
    metrics; cfg_rate_limit := rate_limit; cfg_policy := policy; cfg_rewrite := rewrite;
    cfg_safesearch := safesearch |})
    (λ x, (cfg_server x, (cfg_upstream x, (cfg_authority x, (cfg_blocklist x, (cfg_privacy x,
    (cfg_metrics x, (cfg_rate_limit x, (cfg_policy x, (cfg_rewrite x, (cfg_safesearch x,
    ()))))))))))).

(** ** Laws of the configuration *)

(** A value that is read back as it is can be written. *)
Lemma read_back_storable {A} (c : codec A) `{!Lawful c} a : dec c (enc c a) = Some a → storable c a.
Proof. apply dec_storable. Qed.

Ltac lawful_field :=
  match goal with
  | |- LawfulField (required _ _) => apply required_lawful
  | |- LawfulField (defaulted _ _ _) => apply defaulted_lawful
  | |- LawfulField (optional _ _ _) => apply optional_lawful
  end; try exact _; first [exact I|apply (read_back_storable _); vm_compute; reflexivity].
Ltac lawful_struct :=
  apply codec_struct_lawful;
  [apply (bool_decide_unpack _); vm_compute; exact I
  |repeat (split; [lawful_field|]); exact I
  |by intros []
  |intros b; repeat (match type of b with (_ * _)%type => destruct b as [? b] end); by destruct b].

#[export] Instance codec_strs_lawful : Lawful codec_strs.
Proof. apply codec_list_lawful, _. Qed.
#[export] Instance codec_UpstreamProtocol_lawful : Lawful codec_UpstreamProtocol.
Proof. apply codec_enum_lawful. by intros []. Qed.
#[export] Instance codec_TlsVersion_lawful : Lawful codec_TlsVersion.
Proof. apply codec_enum_lawful. by intros []. Qed.
#[export] Instance codec_BlockResponse_lawful : Lawful codec_BlockResponse.
Proof. apply codec_enum_lawful. by intros []. Qed.
#[export] Instance codec_RewriteRule_lawful : Lawful codec_RewriteRule.
Proof. lawful_struct. Qed.
#[export] Instance codec_SafeSearchConfig_lawful : Lawful codec_SafeSearchConfig.
Proof. lawful_struct. Qed.
#[export] Instance codec_ServerConfig_lawful : Lawful codec_ServerConfig.
Proof. lawful_struct. Qed.
#[export] Instance codec_UpstreamRoute_lawful : Lawful codec_UpstreamRoute.
Proof. lawful_struct. Qed.
#[export] Instance codec_UpstreamConfig_lawful : Lawful codec_UpstreamConfig.
Proof. lawful_struct. Qed.
#[export] Instance codec_StaticRecord_lawful : Lawful codec_StaticRecord.
Proof. lawful_struct. Qed.
#[export] Instance codec_AuthorityConfig_lawful : Lawful codec_AuthorityConfig.
Proof. lawful_struct. Qed.
#[export] Instance codec_BlocklistGroup_lawful : Lawful codec_BlocklistGroup.
Proof. lawful_struct. Qed.
#[export] Instance codec_BlocklistConfig_lawful : Lawful codec_BlocklistConfig.
Proof. lawful_struct. Qed.
#[export] Instance codec_PrivacyConfig_lawful : Lawful codec_PrivacyConfig.
Proof. lawful_struct. Qed.
#[export] Instance codec_MetricsConfig_lawful : Lawful codec_MetricsConfig.
Proof. lawful_struct. Qed.
#[export] Instance codec_RateLimitConfig_lawful : Lawful codec_RateLimitConfig.
Proof. lawful_struct. Qed.
#[export] Instance codec_BlockWindow_lawful : Lawful codec_BlockWindow.
Proof. lawful_struct. Qed.
#[export] Instance codec_NodePolicy_lawful : Lawful codec_NodePolicy.
Proof. lawful_struct. Qed.
#[export] Instance codec_DnsConfig_lawful : Lawful codec_DnsConfig.
Proof. lawful_struct. Qed.

(** ** Secrets *)

(** A secret is read as it is, and shown to nobody. *)
Record Secret := { secret_value : str }.

Definition expose : Secret → str := secret_value.
Definition secret_debug (_ : Secret) : str := "<redacted>"%rs.
Definition codec_Secret : codec Secret :=
  {| enc _ := VString "<redacted>"%rs;
     dec v := Build_Secret <$> dec codec_str v;
     storable s := secret_value s = "<redacted>"%rs |}.

Lemma secret_hidden (s s' : Secret) :
  enc codec_Secret s = enc codec_Secret s' ∧ secret_debug s = secret_debug s'
  ∧ ∀ text, expose <$> dec codec_Secret (VString text) = Some text.
Proof. done. Qed.

(** ** Reading *)

(** The tables of the configuration and the keys they may have. *)
Definition sections : list (str * list str) :=
  [("server"%rs, keys ServerConfig_fields); ("upstream"%rs, keys UpstreamConfig_fields);
   ("authority"%rs, keys AuthorityConfig_fields); ("blocklist"%rs, keys BlocklistConfig_fields);
   ("privacy"%rs, keys PrivacyConfig_fields); ("metrics"%rs, keys MetricsConfig_fields);
   ("rate_limit"%rs, keys RateLimitConfig_fields); ("safesearch"%rs, keys SafeSearchConfig_fields)].

(** Every field of a structure that was read was read itself. *)
Fixpoint fields_read {B} (fs : fields B) (t : gmap str value) : B → Prop :=
  match fs with
  | FNil => λ _, True
  | FCons f fs => λ '(a, b), dec_field f t = Some a ∧ fields_read fs t b
  end.

Lemma dec_fields_read {B} (fs : fields B) t b : dec_fields fs t = Some b → fields_read fs t b.
Proof.
  induction fs as [|A B f fs IH]; [done|]. cbn. intros (a & Ha & Hd)%bind_Some.
  apply bind_Some in Hd as (b' & Hb & [= <-]). by split; [|apply IH].
Qed.

Lemma codec_struct_read {B S} (fs : fields B) (make : B → S) take_apart v x :
  dec (codec_struct fs make take_apart) v = Some x →
  ∃ t b, v = VTable t ∧ x = make b ∧ fields_read fs t b ∧ ∀ k, is_Some (t !! k) → k ∈ keys fs.
Proof.
  cbn [codec_struct dec]. destruct v as [| | | | | |t]; try done.
  destruct (known_keys (keys fs) t) eqn:Hk; [|done]. intros (b & Hb & ->)%fmap_Some.
  exists t, b. split_and!; [done|done|by apply dec_fields_read|by apply known_keys_spec].
Qed.

(** A field that is a structure: its table has the structure's keys only. *)
Lemma struct_field_keys {B S} (fs : fields B) (make : B → S) take_apart key d t t' x k :
  dec_field (defaulted key (codec_struct fs make take_apart) d) t = Some x →
  t !! key = Some (VTable t') → is_Some (t' !! k) → k ∈ keys fs.
Proof.
  unfold dec_field. cbn [defaulted f_key f_dec]. intros Hx Ht Hk. rewrite Ht in Hx.
  apply codec_struct_read in Hx as (t'' & b & [= ->] & _ & _ & Hks). by apply Hks.
Qed.

Lemma redact_storable (c : DnsConfig) :
  storable codec_DnsConfig c → storable codec_DnsConfig (redacted_for_display c).
Proof.
  assert (∀ l, Forall (storable codec_str) (redact_list l)) as Hl by (intros l; by apply list.Forall_true).
  destruct c as [s [] a [] p m r po re ss]. cbn. intros Hc. destruct_and!. split_and!; try done;
    apply Forall_fmap; (eapply list.Forall_impl; [eassumption|]); intros x Hx; cbn in Hx |- *; destruct_and!;
    by split_and!.
Qed.

(** [--print-config] tells the truth.  A configuration that was read from some TOML, written
    back as a tree of values, is read as the same configuration, defaults filled in; and so
    is its redacted form, the one that is printed.  An empty file is the default
    configuration. *)
Theorem config_round_trip (v : value) (c : DnsConfig) :
  dec codec_DnsConfig v = Some c →
  dec codec_DnsConfig (enc codec_DnsConfig c) = Some c
  ∧ dec codec_DnsConfig (enc codec_DnsConfig (redacted_for_display c)) = Some (redacted_for_display c)
  ∧ dec codec_DnsConfig (VTable ∅) = Some DnsConfig_default.
Proof.
  intros Hs%dec_storable. split_and!; [by apply dec_enc|by apply dec_enc, redact_storable|].
  vm_compute. reflexivity.
Qed.

Lemma dec_tls v x : dec codec_TlsVersion v = Some x → v = VString "1.3"%rs.
Proof.
  cbn [codec_TlsVersion codec_enum dec]. destruct v as [s| | | | | |]; try done.
  cbn [List.find fst]. destruct (str_eqb "1.3"%rs s) eqn:E; [|done]. intros _. unfold str_eqb in E. bools. by subst s.
Qed.

(** C20. Reading fails closed.  A configuration that is read has no key that is unknown, neither
    at the top nor in a section; its minimal TLS version is 1.3 if it names one; its block
    response and protocol are among those there are; and it has a DoH listener, since no
    TOML turns it off. *)
Theorem read_config_strict (t : gmap str value) (c : DnsConfig) :
  dec codec_DnsConfig (VTable t) = Some c →
  (∀ k, is_Some (t !! k) → k ∈ "policy"%rs :: "rewrite"%rs :: sections.*1)
  ∧ (∀ name ks t' k, (name, ks) ∈ sections → t !! name = Some (VTable t') → is_Some (t' !! k) → k ∈ ks)
  ∧ (∀ t' v, t !! "upstream"%rs = Some (VTable t') → t' !! "min_tls_version"%rs = Some v →
       v = VString "1.3"%rs)
  ∧ is_Some (server_doh_listen (cfg_server c)).
Proof.
  intros Hd. pose proof (dec_storable _ _ Hd) as Hs.
  apply codec_struct_read in Hd as (t0 & b & [= <-] & -> & Hf & Hk).
  repeat (match type of b with (_ * _)%type => destruct b as [? b] end). destruct b.
  cbn [fields_read DnsConfig_fields] in Hf. destruct_and!. split_and!.
  - assert (Forall (λ k, k ∈ "policy"%rs :: "rewrite"%rs :: sections.*1) (keys DnsConfig_fields)) as Hall
      by (apply (bool_decide_unpack _); vm_compute; exact I).
    rewrite list.Forall_forall in Hall. auto.
  - intros name ks t' k Hin Ht Hkt. apply list_elem_of_In in Hin.
    repeat (destruct Hin as [[<- <-]%pair_equal_spec|Hin]; [by eapply struct_field_keys|]). destruct Hin.
  - intros t' v Ht Hv.
    match goal with Hu : dec_field (defaulted "upstream"%rs _ _) t = Some ?u |- _ =>
      unfold dec_field in Hu; cbn [defaulted f_key f_dec] in Hu; rewrite Ht in Hu;
      apply codec_struct_read in Hu as (t0 & b & [= <-] & -> & Hf & _)
    end.
    repeat (match type of b with (_ * _)%type => destruct b as [? b] end).
    cbn [fields_read UpstreamConfig_fields] in Hf. destruct_and!.
    match goal with Hm : dec_field (defaulted "min_tls_version"%rs _ _) t' = Some _ |- _ =>
      unfold dec_field in Hm; cbn [defaulted f_key f_dec] in Hm; rewrite Hv in Hm; by apply dec_tls in Hm
    end.
  - cbn in Hs. destruct_and!. destruct s as [? ? [doh|] ? ? ? ?]; [done|]. by unfold default_doh_listen in *.
Qed.

(** ** Witnesses *)

Definition demo_value : value :=
  VTable (list_to_map
    [("upstream"%rs, VTable (list_to_map
        [("min_tls_version"%rs, VString "1.3"%rs); ("timeout_ms"%rs, VInteger 1500);
         ("resolvers"%rs, VArray [VString "https://user:pw@dns.example/dns-query"%rs])]));
     ("policy"%rs, VArray [VTable {["client_ip"%rs := VString "10.0.0.9"%rs]}])]).

Definition demo_read : DnsConfig := default DnsConfig_default (dec codec_DnsConfig demo_value).

Lemma demo_value_read : dec codec_DnsConfig demo_value = Some demo_read.
Proof. vm_compute. reflexivity. Qed.

(** Unknown keys, the wrong type, a negative or too large integer, TLS 1.2 and an unknown
    protocol are refused. *)
Example bad_values_refused :
  Forall (λ t, dec codec_DnsConfig (VTable t) = None)
    [ {["upstreams"%rs := VTable ∅]};
      {["upstream"%rs := VTable {["retries"%rs := VInteger 1]}]};
      {["upstream"%rs := VTable {["timeout_ms"%rs := VString "5"%rs]}]};
      {["upstream"%rs := VTable {["timeout_ms"%rs := VInteger (-1)]}]};
      {["rate_limit"%rs := VTable {["qps"%rs := VInteger 4294967296]}]};
      {["upstream"%rs := VTable {["min_tls_version"%rs := VString "1.2"%rs]}]};
      {["upstream"%rs := VTable {["protocol"%rs := VString "DoH"%rs]}]};
      {["rewrite"%rs := VArray [VTable {["block"%rs := VBoolean true]}]]} ].
Proof. repeat constructor; vm_compute; reflexivity. Qed.

Lemma config_round_trip_witness :
  upstream_resolvers (cfg_upstream (redacted_for_display demo_read))
    = ["https://<redacted>@dns.example/dns-query"%rs]
  ∧ dec codec_DnsConfig (enc codec_DnsConfig demo_read) = Some demo_read.
Proof.
  split; [vm_compute; reflexivity|].
  exact (proj1 (config_round_trip demo_value demo_read demo_value_read)).
Defined.

Lemma read_config_strict_witness :
  upstream_timeout_ms (cfg_upstream demo_read) = 1500
  ∧ is_Some (server_doh_listen (cfg_server demo_read)).
Proof.
  split; [vm_compute; reflexivity|].
  pose proof (read_config_strict _ _ demo_value_read) as (_ & _ & _ & Hd). exact Hd.
Defined.
