(* ===== verification/Client.v ===== *)
(** * Client: client identity and its anonymised form
    ([rustydns-core/src/client.rs])

    [anonymized] is what every log line and every stored log entry carries.  The
    theorems say exactly what it reveals: the /16 of an IPv4 client, the /64 of an
    IPv6 client, nothing of the node id; an IPv4 client seen through a dual-stack
    socket is not told apart from the same client seen natively. *)

From S2P Require Import Prelude RustStr Net.

Record ClientId := {
  source_ip : ip_addr;
  node_id : option str;
}.

Definition from_ip (ip : ip_addr) : ClientId := {| source_ip := ip; node_id := None |}.
Definition from_mesh_peer (ip : ip_addr) (node : str) : ClientId :=
  {| source_ip := ip; node_id := Some node |}.
Definition is_mesh_peer (c : ClientId) : bool :=
  match node_id c with Some _ => true | None => false end.

Record AnonymizedClientId := { anon_ip : ip_addr }.

(** Zeroing the last two octets. *)
Definition anonymize_v4 (v4 : Z) : ip_addr :=
  let o := octets v4 in
  let o := <[2%nat := 0]> o in
  let o := <[3%nat := 0]> o in
  V4 (ipv4_from_octets o).

Definition anonymized (c : ClientId) : AnonymizedClientId :=
  {| anon_ip :=
       match source_ip c with
       | V4 v4 => anonymize_v4 v4
       | V6 v6 =>
           match to_ipv4_mapped v6 with
           | Some v4 => anonymize_v4 v4
           | None =>
               let s := segments v6 in
               let s := <[4%nat := 0]> s in
               let s := <[5%nat := 0]> s in
               let s := <[6%nat := 0]> s in
               let s := <[7%nat := 0]> s in
               V6 (ipv6_from_segments s)
           end
       end |}.

Definition show_anonymized (a : AnonymizedClientId) : str :=
  match anon_ip a with
  | V4 _ => show_ip (anon_ip a) ++ "/16/anon"%rs
  | V6 _ => show_ip (anon_ip a) ++ "/64/anon"%rs
  end.

Record FullClientId := { full_ip : ip_addr; full_node : option str }.

Definition full (c : ClientId) : FullClientId :=
  {| full_ip := source_ip c; full_node := node_id c |}.

Definition show_full (c : FullClientId) : str :=
  match full_node c with
  | Some node => show_ip (full_ip c) ++ " ("%rs ++ node ++ ")"%rs
  | None => show_ip (full_ip c)
  end.

(** ** What anonymisation keeps *)

(** The address an IPv4 client has whichever socket it came through. *)
Definition canonical_ip (a : ip_addr) : ip_addr :=
  match a with
  | V4 b => V4 b
  | V6 b => match to_ipv4_mapped b with Some v4 => V4 v4 | None => V6 b end
  end.

(** The network a client is in: /16 for IPv4, /64 for IPv6. *)
Definition network (a : ip_addr) : ip_addr :=
  match canonical_ip a with
  | V4 b => V4 (b / 2 ^ 16)
  | V6 b => V6 (b / 2 ^ 64)
  end.

Lemma anonymize_v4_mask v4 : v4_wf v4 → anonymize_v4 v4 = V4 (v4 / 2 ^ 16 * 2 ^ 16).
Proof.
  intros Hv. unfold anonymize_v4, octets, ipv4_from_octets. cbn [insert list_insert].
  f_equal. change [octet v4 0; octet v4 1; 0; 0] with ([octet v4 0; octet v4 1] ++ [0] ++ [0]).
  rewrite !app_assoc, !from_groups_snoc by lia.
  replace [octet v4 0; octet v4 1] with (groups 8 2 (v4 / 2 ^ 16)).
  { rewrite from_groups_groups by lia. rewrite Z.mod_small; [lia|].
    exact (div_pow2_range v4 16 16 ltac:(lia) ltac:(lia) Hv). }
  rewrite !octet_div by lia. cbn [groups app]. by rewrite Z.div_div by lia.
Qed.

Lemma zero_iid_mask v6 : v6_wf v6 →
  from_groups 16 [segment v6 0; segment v6 1; segment v6 2; segment v6 3; 0; 0; 0; 0]
  = v6 / 2 ^ 64 * 2 ^ 64.
Proof.
  intros Hv.
  change [segment v6 0; segment v6 1; segment v6 2; segment v6 3; 0; 0; 0; 0]
    with ([segment v6 0; segment v6 1; segment v6 2; segment v6 3] ++ [0] ++ [0] ++ [0] ++ [0]).
  rewrite !app_assoc, !from_groups_snoc by lia.
  replace [segment v6 0; segment v6 1; segment v6 2; segment v6 3] with (groups 16 4 (v6 / 2 ^ 64)).
  { rewrite from_groups_groups by lia. rewrite Z.mod_small; [lia|].
    exact (div_pow2_range v6 64 64 ltac:(lia) ltac:(lia) Hv). }
  rewrite !segment_div by lia. cbn [groups app]. by repeat rewrite Z.div_div by lia.
Qed.

(** The anonymised address is the client's network, written as an address. *)
Lemma anonymized_network c : ip_wf (source_ip c) →
  anon_ip (anonymized c) =
    match network (source_ip c) with
    | V4 n => V4 (n * 2 ^ 16)
    | V6 n => V6 (n * 2 ^ 64)
    end.
Proof.
  unfold anonymized, network, canonical_ip. destruct (source_ip c) as [b|b];
    cbn [ip_wf anon_ip]; intros Hwf.
  - by apply anonymize_v4_mask.
  - destruct (to_ipv4_mapped b) as [v4|] eqn:E.
    + by apply anonymize_v4_mask, (to_ipv4_mapped_wf b).
    + f_equal. by apply zero_iid_mask.
Qed.

Lemma anon_network_inj n m :
  match n with V4 n => V4 (n * 2 ^ 16) | V6 n => V6 (n * 2 ^ 64) end =
  match m with V4 n => V4 (n * 2 ^ 16) | V6 n => V6 (n * 2 ^ 64) end → n = m.
Proof. destruct n, m; intros [= ?]; f_equal; lia. Qed.

(** ** Properties *)

(** Two clients have the same anonymised identity if and only if they are in the same
    network (the /16 of their IPv4 address, mapped or native; the /64 of their
    IPv6 address): the host part and the node id are never revealed, and no two
    networks are merged. *)
Theorem anonymized_iff_same_network (c c' : ClientId) :
  ip_wf (source_ip c) → ip_wf (source_ip c') →
  anonymized c = anonymized c' ↔ network (source_ip c) = network (source_ip c').
Proof.
  intros Hc Hc'. pose proof (anonymized_network c Hc) as H.
  pose proof (anonymized_network c' Hc') as H'. split.
  - intros Heq. rewrite Heq in H. rewrite H in H'. by apply anon_network_inj.
  - intros Heq. rewrite Heq, <- H' in H.
    destruct (anonymized c), (anonymized c'). simpl in H. by subst.
Qed.

(** 192.168.1.100 with a node id, and ::ffff:192.168.77.9 without. *)
Lemma anonymized_iff_same_network_witness :
  ip_wf (V4 3232235876) ∧ ip_wf (V6 (65535 * 2 ^ 32 + 3232255241))
  ∧ anonymized (from_mesh_peer (V4 3232235876) "ed25519:k"%rs)
    = anonymized (from_ip (V6 (65535 * 2 ^ 32 + 3232255241))).
Proof.
  assert (ip_wf (V4 3232235876)) as H1 by (unfold ip_wf, v4_wf; lia).
  assert (ip_wf (V6 (65535 * 2 ^ 32 + 3232255241))) as H2 by (unfold ip_wf, v6_wf; lia).
  split; [exact H1|]. split; [exact H2|].
  apply (anonymized_iff_same_network (from_mesh_peer (V4 3232235876) "ed25519:k"%rs)
    (from_ip (V6 (65535 * 2 ^ 32 + 3232255241))) H1 H2).
  vm_compute. reflexivity.
Defined.
