(* ===== verification/IpDenylist.v ===== *)
(** * IpDenylist: CIDR rules on resolved addresses
    ([rustydns-core/src/ip_denylist.rs])

    The parser, the mask arithmetic on 32- and 128-bit words and the two-pass
    lookup are the code's.  The specification reads an entry as an address and a
    prefix length and says which addresses it covers; the theorem is that a parsed
    list blocks exactly the addresses one of its entries covers. *)

From S2P Require Import Prelude RustStr Net.

Inductive Cidr :=
| CidrV4 (network mask : Z)
| CidrV6 (network mask : Z).

Record IpDenylist := {
  deny_v4 : list (Z * Z);
  deny_v6 : list (Z * Z);
}.

Definition default_denylist : IpDenylist := {| deny_v4 := []; deny_v6 := [] |}.

Inductive deny_error :=
| EmptyEntry
| NotAnAddress (entry : str)
| InvalidPrefix (entry : str)
| PrefixTooLong (entry : str) (prefix max : Z).

Definition parse_prefix (prefix_part : option str) (max : Z) (entry : str) :
    result deny_error Z :=
  match prefix_part with
  | None => Ok max
  | Some p =>
      prefix ← ok_or (InvalidPrefix entry) (parse_uint 8 p);
      if max <? prefix then Err (PrefixTooLong entry prefix max) else Ok prefix
  end.

(** [uW::MAX << (w - prefix)] on a [w]-bit word, with the shift by [w] avoided. *)
Definition cidr_mask (w prefix : Z) : Z :=
  if prefix =? 0 then 0
  else Z.land (Z.shiftl (2 ^ w - 1) (w - prefix)) (2 ^ w - 1).

Definition parse_entry (entry : str) : result deny_error Cidr :=
  let entry := trim entry in
  if is_empty_str entry then Err EmptyEntry
  else
    let '(addr_part, prefix_part) :=
      match split_once "/"%rc entry with
      | Some (a, p) => (trim a, Some (trim p))
      | None => (entry, None)
      end in
    ip ← ok_or (NotAnAddress entry) (parse_ip addr_part);
    match ip with
    | V4 v4 =>
        prefix ← parse_prefix prefix_part 32 entry;
        let mask := cidr_mask 32 prefix in
        Ok (CidrV4 (Z.land v4 mask) mask)
    | V6 v6 =>
        prefix ← parse_prefix prefix_part 128 entry;
        match (if 96 <=? prefix then to_ipv4_mapped v6 else None) with
        | Some v4 =>
            let v4_prefix := prefix - 96 in
            let mask := cidr_mask 32 v4_prefix in
            Ok (CidrV4 (Z.land v4 mask) mask)
        | None =>
            let mask := cidr_mask 128 prefix in
            Ok (CidrV6 (Z.land v6 mask) mask)
        end
    end.

Definition denylist_push (d : IpDenylist) (c : Cidr) : IpDenylist :=
  match c with
  | CidrV4 network mask => {| deny_v4 := deny_v4 d ++ [(network, mask)]; deny_v6 := deny_v6 d |}
  | CidrV6 network mask => {| deny_v4 := deny_v4 d; deny_v6 := deny_v6 d ++ [(network, mask)] |}
  end.

Definition parse (entries : list str) : result deny_error IpDenylist :=
  try_fold (λ d entry, c ← parse_entry entry; Ok (denylist_push d c))
    default_denylist entries.

Definition any_rule (rules : list (Z * Z)) (bits : Z) : bool :=
  existsb (λ '(net, mask), Z.land bits mask =? net) rules.

Definition contains (d : IpDenylist) (ip : ip_addr) : bool :=
  let raw_hit := match ip with
                 | V4 v4 => any_rule (deny_v4 d) v4
                 | V6 v6 => any_rule (deny_v6 d) v6
                 end in
  if raw_hit then true
  else match ip with
       | V6 v6 => match to_ipv4_mapped v6 with
                  | Some v4 => any_rule (deny_v4 d) v4
                  | None => false
                  end
       | V4 _ => false
       end.

Definition len (d : IpDenylist) : nat := length (deny_v4 d) + length (deny_v6 d).
Definition is_empty (d : IpDenylist) : bool :=
  match deny_v4 d, deny_v6 d with [], [] => true | _, _ => false end.

(** ** Specification *)

(** What an entry says: an address and a prefix length no longer than it. *)
Definition width (a : ip_addr) : Z := match a with V4 _ => 32 | V6 _ => 128 end.

Inductive reads (entry : str) (a : ip_addr) : Z → Prop :=
| reads_host :
    "/"%rc ∉ trim entry → parse_ip (trim entry) = Some a → reads entry a (width a)
| reads_net x y p :
    trim entry = x ++ "/"%rc :: y → "/"%rc ∉ x →
    parse_ip (trim x) = Some a → parse_uint 8 (trim y) = Some p → p <= width a →
    reads entry a p.

(** The first [p] of [w] bits agree. *)
Definition same_prefix (w p a b : Z) : Prop := a / 2 ^ (w - p) = b / 2 ^ (w - p).

Definition mapped (v4 : Z) : Z := 65535 * 2 ^ 32 + v4.

(** The addresses an entry covers.  An IPv6 entry covers an IPv4 address when it
    is inside the mapped range and covers the address's mapped form. *)
Definition covers (a : ip_addr) (p : Z) (ip : ip_addr) : Prop :=
  match a, ip with
  | V4 a, V4 b => same_prefix 32 p a b
  | V4 a, V6 b => ∃ v4, b = mapped v4 ∧ v4_wf v4 ∧ same_prefix 32 p a v4
  | V6 a, V6 b => same_prefix 128 p a b
  | V6 a, V4 b => 96 <= p ∧ (∃ v4, a = mapped v4 ∧ v4_wf v4) ∧ same_prefix 128 p a (mapped b)
  end.

Definition cidr_matches (c : Cidr) (ip : ip_addr) : bool :=
  contains (denylist_push default_denylist c) ip.

(** ** Masks *)

Lemma land_cidr_mask w p a :
  0 <= p <= w → 0 <= a < 2 ^ w →
  Z.land a (cidr_mask w p) = a / 2 ^ (w - p) * 2 ^ (w - p).
Proof.
  intros Hp Ha. unfold cidr_mask. destruct (Z.eqb_spec p 0) as [->|Hne].
  { rewrite Z.land_0_r, Z.sub_0_r, Z.div_small by lia. lia. }
  rewrite <- Z.shiftr_div_pow2, <- Z.shiftl_mul_pow2 by lia.
  replace (2 ^ w - 1) with (Z.ones w) by (rewrite Z.ones_equiv; lia).
  apply Z.bits_inj'. intros n Hn.
  rewrite !Z.land_spec, !Z.shiftl_spec by lia.
  destruct (Z.ltb_spec n (w - p)).
  - rewrite !(Z.testbit_neg_r _ (n - (w - p))) by lia. simpl. by rewrite andb_false_r.
  - rewrite Z.shiftr_spec by lia. replace (n - (w - p) + (w - p)) with n by lia.
    destruct (Z.ltb_spec n w).
    + rewrite !Z.ones_spec_low by lia. by rewrite andb_true_r.
    + rewrite <- (Z.mod_small a (2 ^ w)), Z.mod_pow2_bits_high by lia. done.
Qed.

Lemma mask_match w p a b :
  0 <= p <= w → 0 <= a < 2 ^ w → 0 <= b < 2 ^ w →
  (Z.land b (cidr_mask w p) =? Z.land a (cidr_mask w p)) = true ↔ same_prefix w p a b.
Proof.
  intros Hp Ha Hb. rewrite !land_cidr_mask, Z.eqb_eq by done. unfold same_prefix.
  assert (0 < 2 ^ (w - p)) by (apply Z.pow_pos_nonneg; lia). nia.
Qed.

Lemma same_prefix_mapped p a b :
  96 <= p <= 128 → same_prefix 128 p (mapped a) (mapped b) ↔ same_prefix 32 (p - 96) a b.
Proof.
  intros Hp. unfold same_prefix, mapped.
  replace (32 - (p - 96)) with (128 - p) by lia.
  assert (∀ x, (65535 * 2 ^ 32 + x) / 2 ^ (128 - p) = 65535 * 2 ^ (p - 96) + x / 2 ^ (128 - p)) as Hm.
  { intros x. replace 32 with ((p - 96) + (128 - p)) by lia. rewrite Z.pow_add_r by lia.
    assert (0 < 2 ^ (128 - p)) by (apply Z.pow_pos_nonneg; lia).
    rewrite Z.mul_assoc, Z.div_add_l by lia. lia. }
  rewrite !Hm. lia.
Qed.

Lemma to_ipv4_mapped_mapped v4 : v4_wf v4 → to_ipv4_mapped (mapped v4) = Some v4.
Proof. intros Hv. apply to_ipv4_mapped_Some; [unfold v6_wf, mapped, v4_wf in *; lia|done]. Qed.

(** A prefix that reaches into the mapped range only covers mapped addresses. *)
Lemma same_prefix_is_mapped p a b :
  v4_wf a → v6_wf b → 96 <= p <= 128 →
  same_prefix 128 p (mapped a) b → ∃ v4, b = mapped v4 ∧ v4_wf v4.
Proof.
  unfold v4_wf, same_prefix, mapped. intros Ha Hb Hp Hs.
  assert (∀ x, x / 2 ^ 32 = x / 2 ^ (128 - p) / 2 ^ (p - 96)) as Hd.
  { intros x. rewrite Z.div_div, <- Z.pow_add_r by (try apply Z.pow_nonzero; lia).
    do 2 f_equal. lia. }
  assert (b / 2 ^ 32 = 65535) as Hq.
  { rewrite Hd, <- Hs, <- Hd. rewrite Z.div_add_l, Z.div_small by lia. lia. }
  exists (b mod 2 ^ 32). split; [|by apply Z.mod_pos_bound].
  rewrite (Z.div_mod b (2 ^ 32)) at 1 by lia. rewrite Hq. lia.
Qed.

(** ** One entry *)

(** The rule an entry [a/p] becomes. *)
Definition rule_of (a : ip_addr) (p : Z) : Cidr :=
  match a with
  | V4 v4 => CidrV4 (Z.land v4 (cidr_mask 32 p)) (cidr_mask 32 p)
  | V6 v6 =>
      match (if 96 <=? p then to_ipv4_mapped v6 else None) with
      | Some v4 => CidrV4 (Z.land v4 (cidr_mask 32 (p - 96))) (cidr_mask 32 (p - 96))
      | None => CidrV6 (Z.land v6 (cidr_mask 128 p)) (cidr_mask 128 p)
      end
  end.

Lemma parse_prefix_ok o max e p :
  0 <= max → parse_prefix o max e = Ok p ↔
  match o with None => p = max | Some s => parse_uint 8 s = Some p ∧ p <= max end.
Proof.
  intros Hmax. destruct o as [s|]; simpl; [|naive_solver].
  destruct (parse_uint 8 s) as [q|]; simpl; [|naive_solver].
  destruct (Z.ltb_spec max q); naive_solver lia.
Qed.

Lemma parse_entry_ok e c :
  parse_entry e = Ok c ↔ ∃ a p, reads e a p ∧ c = rule_of a p.
Proof.
  assert (parse_entry e =
    if is_empty_str (trim e) then Err EmptyEntry else
    let '(x, o) := match split_once "/"%rc (trim e) with
      | Some (a, p) => (trim a, Some (trim p)) | None => (trim e, None) end in
    a ← ok_or (NotAnAddress (trim e)) (parse_ip x);
    p ← parse_prefix o (width a) (trim e); Ok (rule_of a p)) as ->.
  { unfold parse_entry. case_match; [done|].
    destruct (match split_once _ _ with Some _ => _ | None => _ end) as [x o].
    destruct (parse_ip x) as [[v4|v6]|]; simpl; [done| |done].
    destruct (parse_prefix o 128 (trim e)) as [p|]; simpl; [|done]. by repeat case_match. }
  split.
  - intros H. destruct (is_empty_str (trim e)) eqn:He; [done|].
    destruct (split_once "/"%rc (trim e)) as [[x y]|] eqn:Hs; run_ok; simplify_eq;
      (eexists _, _; split; [|done]).
    + apply split_once_Some in Hs as [Hs Hn]. apply parse_prefix_ok in Hrun0 as [Hp Hle]; [|by destruct a].
      by apply (reads_net e a x y).
    + apply split_once_None in Hs. apply parse_prefix_ok in Hrun0 as ->; [|by destruct a].
      by apply reads_host.
  - intros (a & p & Hr & ->). destruct Hr as [Hn Hip|x y p Hs Hn Hip Hp Hle].
    + assert (is_empty_str (trim e) = false) as -> by (by destruct (trim e)).
      rewrite (proj2 (split_once_None _ _) Hn), Hip. by destruct a.
    + assert (is_empty_str (trim e) = false) as -> by (rewrite Hs; by destruct x).
      rewrite (proj2 (split_once_Some _ _ x y)) by done. rewrite Hip.
      cbn [ok_or mbind result_bind].
      assert (parse_prefix (Some (trim y)) (width a) (trim e) = Ok p) as ->; [|done].
      apply parse_prefix_ok; [by destruct a|done].
Qed.

Lemma reads_wf e a p : reads e a p → ip_wf a ∧ 0 <= p <= width a.
Proof.
  destruct 1 as [? H|x y p ?? H Hp ?]; (split; [by eapply parse_ip_wf|]).
  - destruct a; simpl; lia.
  - apply parse_uint_range in Hp. lia.
Qed.

Ltac rule_simpl :=
  cbn [rule_of denylist_push default_denylist deny_v4 deny_v6 app existsb covers];
  rewrite ?orb_false_r.

Lemma rule_of_covers a p ip :
  ip_wf a → ip_wf ip → 0 <= p <= width a →
  cidr_matches (rule_of a p) ip = true ↔ covers a p ip.
Proof.
  intros Ha Hip Hp. unfold cidr_matches, contains, any_rule.
  destruct a as [a|a]; cbn [ip_wf width] in Ha, Hp.
  { destruct ip as [b|b]; cbn [ip_wf] in Hip; rule_simpl.
    - rewrite <- mask_match by done. by case_match.
    - destruct (to_ipv4_mapped b) as [v4|] eqn:E.
      + apply to_ipv4_mapped_Some in E as [Hv ->]; [|done]. rewrite orb_false_r, mask_match by done.
        split; [intros; by exists v4|]. intros (v & Hm & ? & ?). unfold mapped in Hm.
        by replace v4 with v by lia.
      + split; [done|]. intros (v & -> & Hv & _). by rewrite to_ipv4_mapped_mapped in E. }
  unfold rule_of. destruct (if 96 <=? p then to_ipv4_mapped a else None) as [m|] eqn:E.
  - destruct (Z.leb_spec 96 p); [|done].
    apply to_ipv4_mapped_Some in E as [Hm ->]; [|done]. change (65535 * 2 ^ 32 + m) with (mapped m).
    destruct ip as [b|b]; cbn [ip_wf] in Hip; rule_simpl.
    + rewrite same_prefix_mapped, <- mask_match by (done || lia).
      destruct (_ =? _); (split; [|by intros (_ & _ & ?)]); [|done].
      intros _. split; [done|]. split; [by exists m|done].
    + destruct (to_ipv4_mapped b) as [v4|] eqn:E'.
      * apply to_ipv4_mapped_Some in E' as [Hv ->]; [|done]. change (65535 * 2 ^ 32 + v4) with (mapped v4).
        rewrite orb_false_r, mask_match, same_prefix_mapped by (done || lia). done.
      * split; [done|]. intros Hs.
        destruct (same_prefix_is_mapped p m b Hm Hip ltac:(lia) Hs) as (v & -> & Hv%to_ipv4_mapped_mapped).
        congruence.
  - destruct ip as [b|b]; cbn [ip_wf] in Hip; rule_simpl.
    + split; [done|]. intros (? & (v & -> & Hv) & _).
      rewrite to_ipv4_mapped_mapped in E by done. by destruct (Z.leb_spec 96 p); [|lia].
    + rewrite <- mask_match by done.
      destruct (_ =? _); [done|]. by destruct (to_ipv4_mapped b).
Qed.

(** ** The list *)

Lemma any_rule_app rules rules' b :
  any_rule (rules ++ rules') b = any_rule rules b || any_rule rules' b.
Proof. apply existsb_app. Qed.

Lemma contains_or d ip :
  contains d ip = match ip with
    | V4 b => any_rule (deny_v4 d) b
    | V6 b => any_rule (deny_v6 d) b
        || match to_ipv4_mapped b with Some v4 => any_rule (deny_v4 d) v4 | None => false end
    end.
Proof. unfold contains. destruct ip as [b|b]; by destruct (any_rule _ b). Qed.

Lemma contains_default ip : contains default_denylist ip = false.
Proof. rewrite contains_or. destruct ip as [b|b]; [done|]. by destruct (to_ipv4_mapped b). Qed.

Lemma contains_push d c ip :
  contains (denylist_push d c) ip = contains d ip || cidr_matches c ip.
Proof.
  unfold cidr_matches. rewrite !contains_or.
  destruct c as [net mask|net mask], ip as [b|b];
    cbn [denylist_push default_denylist deny_v4 deny_v6 app]; rewrite ?any_rule_app;
    cbn [any_rule existsb]; rewrite ?orb_false_r; try done;
    destruct (to_ipv4_mapped b) as [v4|]; rewrite ?any_rule_app, ?orb_false_r; try done;
    cbn [any_rule existsb]; rewrite ?orb_false_r.
  - by rewrite orb_assoc.
  - by rewrite <- !orb_assoc, (orb_comm (_ =? _)).
Qed.

Lemma try_fold_contains entries d d' ip :
  try_fold (λ d entry, c ← parse_entry entry; Ok (denylist_push d c)) d entries = Ok d' →
  contains d' ip = true ↔
  contains d ip = true ∨ ∃ e c, e ∈ entries ∧ parse_entry e = Ok c ∧ cidr_matches c ip = true.
Proof.
  revert d. induction entries as [|e entries IH]; cbn [try_fold]; intros d.
  { intros [= <-]. split; [by left|]. intros [|(? & ? & ?%elem_of_nil & _)]; done. }
  intros H. run_ok. apply IH in H. rewrite H, contains_push, orb_true_iff. split.
  - intros [[Hc|Hc]|(e' & c' & ? & ? & ?)]; [by left|right..].
    + exists e, a0. split; [left|done].
    + exists e', c'. split; [by right|done].
  - intros [Hc|(e' & c' & [->|He]%elem_of_cons & Hp & Hm)]; [by left; left| |].
    + left. right. congruence.
    + right. by exists e', c'.
Qed.

(** ** Properties *)

(** A denylist parsed from the configured entries contains an address exactly when
    one of the entries, read as an address and a prefix length, covers it.  The
    cover relation closes the family confusion: an IPv4 entry covers the mapped
    IPv6 form of every address it covers, and a mapped entry [::ffff:a.b.c.d/p]
    with [p >= 96] covers the native form. *)
Theorem denylist_contains_spec (entries : list str) (d : IpDenylist) (ip : ip_addr) :
  parse entries = Ok d → ip_wf ip →
  contains d ip = true ↔ ∃ e a p, e ∈ entries ∧ reads e a p ∧ covers a p ip.
Proof.
  intros Hp Hip. unfold parse in Hp. rewrite (try_fold_contains _ _ _ ip Hp). split.
  - intros [Hc|(e & c & He & (a & p & Hr & ->)%parse_entry_ok & Hm)].
    + by rewrite contains_default in Hc.
    + destruct (reads_wf _ _ _ Hr) as [Ha Hpw].
      exists e, a, p. split; [done|]. split; [done|]. by apply rule_of_covers.
  - intros (e & a & p & He & Hr & Hc). right. exists e, (rule_of a p).
    destruct (reads_wf _ _ _ Hr) as [Ha Hpw].
    split; [done|]. split; [apply parse_entry_ok; by exists a, p|]. by apply rule_of_covers.
Qed.

(** The AAAA answer ::ffff:6.6.6.9 is caught by the entry 6.6.6.0/24. *)
Lemma denylist_contains_spec_witness :
  ∃ d, parse ["6.6.6.0/24"%rs] = Ok d ∧
  ∃ e a p, e ∈ ["6.6.6.0/24"%rs] ∧ reads e a p ∧ covers a p (V6 (65535 * 2 ^ 32 + 101058057)).
Proof.
  eexists. split; [vm_compute; reflexivity|].
  apply (denylist_contains_spec ["6.6.6.0/24"%rs] _ (V6 (65535 * 2 ^ 32 + 101058057)) eq_refl).
  - unfold ip_wf, v6_wf. lia.
  - vm_compute. reflexivity.
Defined.
