(* ===== verification/RegexRules.v ===== *)
(** * RegexRules: bounded compilation of QNAME regex rules
    ([rustydns-core/src/regex_rules.rs])

    The [regex] crate is a parameter: a type of compiled sets, its builder (with
    the case-insensitive, non-Unicode, 1 MiB settings of the code) and its
    matcher.  The module's own job, the bounds on the rules, is modelled. *)

From S2P Require Import Prelude RustStr Config.

Class RegexCrate := {
  RegexSet : Type;
  regex_build : list str → option RegexSet;
  regex_is_match : RegexSet → str → bool;
  regex_len : RegexSet → Z;
}.

(** A matcher of literal substrings, for concrete runs. *)
Definition literal_regex : RegexCrate :=
  {| RegexSet := list str; regex_build ps := Some ps;
     regex_is_match ps s := existsb (λ p, contains_str p s) ps;
     regex_len ps := Z.of_nat (length ps) |}.

Section regex_rules.
Context `{RegexCrate}.

Record RegexRules := { regex_set : option RegexSet }.

Definition regex_default : RegexRules := {| regex_set := None |}.

Inductive regex_error :=
| TooManyRules (count : Z)
| RuleTooLong (i : nat) (len : Z)
| InvalidRule.

Definition check_rule_len (i : nat) (p : str) : result regex_error unit :=
  reject_if (MAX_REGEX_PATTERN_LEN <? str_len p) (RuleTooLong i (str_len p)).

Definition compile (patterns : list str) : result regex_error RegexRules :=
  if bool_decide (patterns = []) then Ok {| regex_set := None |}
  else
    _ ← reject_if (MAX_REGEX_RULES <? Z.of_nat (length patterns))
          (TooManyRules (Z.of_nat (length patterns)));
    _ ← try_each (λ '(i, p), check_rule_len i p) (imap pair patterns);
    set ← ok_or InvalidRule (regex_build patterns);
    Ok {| regex_set := Some set |}.

Definition is_match (r : RegexRules) (qname_lc : str) : bool :=
  match regex_set r with
  | Some set => regex_is_match set qname_lc
  | None => false
  end.

Definition len (r : RegexRules) : Z :=
  match regex_set r with Some set => regex_len set | None => 0 end.

Definition is_empty (r : RegexRules) : bool := len r =? 0.
End regex_rules.

Arguments RegexRules {_}.
