(* ===== verification/Schedule.v ===== *)
(** * Schedule: time-of-day block windows
    ([rustydns-core/src/schedule.rs])

    Windows are compiled to a weekday bitmask and a minute span and matched
    against a UTC clock plus the window's fixed offset.  The specification reads a
    window as a set of (weekday, minute) pairs of the local week. *)

From S2P Require Import Prelude RustStr Net Config.

Definition ALL_DAYS : Z := 127.
Definition MIN_TRUSTED_UNIX_SECS : Z := 1577836800.

Definition unix_secs_is_trusted (unix_secs : Z) : bool :=
  MIN_TRUSTED_UNIX_SECS <=? unix_secs.

Record CompiledWindow := {
  days_mask : Z;
  win_span : option (Z * Z);
  offset_min : Z;
}.

Record BlockSchedule := { windows : list CompiledWindow }.

Inductive hhmm_error :=
| ExpectedHHMM | HourNotNumber | MinuteNotNumber | HourRange | MinuteRange.

Inductive schedule_error :=
| BadDay (i : nat) (day : str)
| BadStart (i : nat) (s : str) (e : hhmm_error)
| BadEnd (i : nat) (s : str) (e : hhmm_error)
| EqualStartEnd (i : nat) (s : str)
| HalfOpen (i : nat)
| OffsetRange (i : nat) (offset : Z).

Definition parse_hhmm (s : str) : result hhmm_error Z :=
  '(h, m) ← ok_or ExpectedHHMM (split_once ":"%rc (trim s));
  h ← ok_or HourNotNumber (parse_uint 16 h);
  m ← ok_or MinuteNotNumber (parse_uint 16 m);
  _ ← reject_if (23 <? h) HourRange;
  _ ← reject_if (59 <? m) MinuteRange;
  Ok (h * 60 + m).

Definition day_names : list (str * Z) :=
  [("mon"%rs, 0); ("monday"%rs, 0); ("tue"%rs, 1); ("tuesday"%rs, 1);
   ("wed"%rs, 2); ("wednesday"%rs, 2); ("thu"%rs, 3); ("thursday"%rs, 3);
   ("fri"%rs, 4); ("friday"%rs, 4); ("sat"%rs, 5); ("saturday"%rs, 5);
   ("sun"%rs, 6); ("sunday"%rs, 6)].

Definition day_bit (d : str) : option Z :=
  let d := to_ascii_lowercase (trim d) in
  '(_, (_, bit)) ← list_find (λ p, p.1 = d) day_names; Some bit.

Definition parse_days (days : list str) : result str Z :=
  match days with
  | [] => Ok ALL_DAYS
  | _ =>
      try_fold (λ mask d,
        bit ← ok_or (to_ascii_lowercase (trim d)) (day_bit d);
        Ok (Z.lor mask (Z.shiftl 1 bit))) 0 days
  end.

(** One iteration of the loop of [compile]; the warnings it logs are omitted. *)
Definition compile_window (i : nat) (w : BlockWindow) : result schedule_error CompiledWindow :=
  days_mask ← map_err (BadDay i) (parse_days (window_days w));
  span ←
    match window_start w, window_end w with
    | None, None => Ok None
    | Some s, Some e =>
        start ← map_err (BadStart i s) (parse_hhmm s);
        end_ ← (if str_eqb (trim e) "24:00"%rs then Ok 1440
                else map_err (BadEnd i e) (parse_hhmm e));
        if start =? end_ then Err (EqualStartEnd i s) else Ok (Some (start, end_))
    | _, _ => Err (HalfOpen i)
    end;
  _ ← reject_if ((window_utc_offset_minutes w <? -1440) || (1440 <? window_utc_offset_minutes w))
        (OffsetRange i (window_utc_offset_minutes w));
  Ok {| days_mask := days_mask; win_span := span; offset_min := window_utc_offset_minutes w |}.

Definition compile (ws : list BlockWindow) : result schedule_error BlockSchedule :=
  compiled ← try_map (λ '(i, w), compile_window i w) (imap pair ws);
  Ok {| windows := compiled |}.

(** Two's-complement wrap-around at 64 bits. *)
Definition wrap_i64 (x : Z) : Z := (x + 2 ^ 63) mod 2 ^ 64 - 2 ^ 63.

Definition window_matches (w : CompiledWindow) (unix_secs : Z) : bool :=
  let local := wrap_i64 (wrap_i64 unix_secs + offset_min w * 60) in
  let days := local / 86400 in
  let weekday := (days + 3) mod 7 in
  if Z.land (days_mask w) (Z.shiftl 1 weekday) =? 0 then false
  else
    match win_span w with
    | None => true
    | Some (start, end_) =>
        let tod_min := local mod 86400 / 60 in
        if start <? end_ then (start <=? tod_min) && (tod_min <? end_)
        else (start <=? tod_min) || (tod_min <? end_)
    end.

Definition is_blocked_at (s : BlockSchedule) (unix_secs : Z) : bool :=
  existsb (λ w, window_matches w unix_secs) (windows s).

Definition is_empty (s : BlockSchedule) : bool :=
  match windows s with [] => true | _ => false end.

Definition is_blocked_at_conservative (s : BlockSchedule) (unix_secs : Z) : bool :=
  if negb (unix_secs_is_trusted unix_secs) then negb (is_empty s)
  else is_blocked_at s unix_secs.

(** ** Specification *)

(** Local weekday (Monday is 0) and minute of the day of an instant. *)
Definition local_weekday (offset unix_secs : Z) : Z := ((unix_secs + offset * 60) / 86400 + 3) mod 7.
Definition local_minute (offset unix_secs : Z) : Z := (unix_secs + offset * 60) mod 86400 / 60.

(** The weekdays a window names: all of them when it names none. *)
Definition names_day (w : BlockWindow) (d : Z) : Prop :=
  window_days w = [] ∨ ∃ name, name ∈ window_days w ∧ day_bit name = Some d.

(** The minutes it covers: [start, end) of the day, wrapping at midnight. *)
Definition covers_minute (w : BlockWindow) (m : Z) : Prop :=
  match window_start w, window_end w with
  | Some s, Some e =>
      ∃ start end_, parse_hhmm s = Ok start ∧
        (if str_eqb (trim e) "24:00"%rs then end_ = 1440 else parse_hhmm e = Ok end_) ∧
        (start < end_ ∧ start <= m < end_ ∨ end_ < start ∧ (start <= m ∨ m < end_))
  | _, _ => True
  end.

Definition window_blocks (w : BlockWindow) (unix_secs : Z) : Prop :=
  names_day w (local_weekday (window_utc_offset_minutes w) unix_secs)
  ∧ covers_minute w (local_minute (window_utc_offset_minutes w) unix_secs).

(** ** Lemmas *)

Lemma parse_hhmm_range s n : parse_hhmm s = Ok n → 0 <= n < 1440.
Proof.
  unfold parse_hhmm. intros H. apply bind_ok in H as ([h m] & _ & H). run_ok.
  match goal with
  | H1 : parse_uint 16 h = _, H2 : parse_uint 16 m = _ |- _ =>
      apply parse_uint_range in H1; apply parse_uint_range in H2
  end. bools. lia.
Qed.

Lemma day_bit_range d b : day_bit d = Some b → 0 <= b < 7.
Proof.
  unfold day_bit. intros ([i [n b']] & Hf & [= ->])%bind_Some.
  apply list_find_Some in Hf as (Hl & _ & _). apply list_elem_of_lookup_2 in Hl.
  unfold day_names in Hl. rewrite !elem_of_cons, elem_of_nil in Hl. naive_solver lia.
Qed.

Lemma land_bit_nonzero m d :
  0 <= d → (Z.land m (Z.shiftl 1 d) =? 0) = negb (Z.testbit m d).
Proof.
  intros Hd. rewrite Z.shiftl_1_l. destruct (Z.testbit m d) eqn:E; simpl.
  - apply Z.eqb_neq. intros H. assert (Z.testbit (Z.land m (2 ^ d)) d = true) as Hb.
    { by rewrite Z.land_spec, E, Z.pow2_bits_true. }
    by rewrite H, Z.bits_0 in Hb.
  - apply Z.eqb_eq, Z.bits_inj'. intros n Hn. rewrite Z.land_spec, Z.bits_0.
    destruct (decide (n = d)) as [->|]; [by rewrite E|].
    rewrite Z.pow2_bits_false by lia. apply andb_false_r.
Qed.

(** The mask has exactly the bits of the days in the list. *)
Lemma try_fold_days_mask days mask m d :
  0 <= d →
  try_fold (λ mask d,
    bit ← ok_or (to_ascii_lowercase (trim d)) (day_bit d);
    Ok (Z.lor mask (Z.shiftl 1 bit))) mask days = Ok m →
  Z.testbit m d = true ↔
  Z.testbit mask d = true ∨ ∃ name, name ∈ days ∧ day_bit name = Some d.
Proof.
  intros Hd. revert mask. induction days as [|x days IH]; intros mask; cbn [try_fold].
  { intros [= <-]. split; [by left|]. intros [|(? & ?%elem_of_nil & _)]; done. }
  intros H. apply bind_ok in H as (mask' & Hx & H). apply IH in H. rewrite H.
  destruct (day_bit x) as [b|] eqn:Hb; [|done]. simpl in Hx. injection Hx as <-.
  pose proof (day_bit_range _ _ Hb).
  rewrite Z.lor_spec, Z.shiftl_1_l, orb_true_iff, Z.pow2_bits_eqb, Z.eqb_eq by lia.
  split.
  - intros [[?| ->]|(n & Hn & ?)]; [by left| |].
    + right. exists x. split; [left|done].
    + right. exists n. split; [by right|done].
  - intros [?|(n & [->|Hn]%elem_of_cons & Hnb)]; [by left; left| |].
    + left. right. congruence.
    + right. eauto.
Qed.

Lemma parse_days_spec days m d :
  parse_days days = Ok m → 0 <= d < 7 →
  Z.testbit m d = true ↔ days = [] ∨ ∃ name, name ∈ days ∧ day_bit name = Some d.
Proof.
  intros Hm Hd. destruct days as [|x days].
  - injection Hm as <-. split; [by left|]. intros _.
    change ALL_DAYS with (Z.ones 7). by apply Z.ones_spec_low.
  - unfold parse_days in Hm. rewrite (try_fold_days_mask _ _ _ d ltac:(lia) Hm).
    rewrite Z.bits_0. naive_solver.
Qed.

Lemma wrap_i64_id x : - 2 ^ 63 <= x < 2 ^ 63 → wrap_i64 x = x.
Proof. intros Hx. unfold wrap_i64. rewrite Z.mod_small; lia. Qed.

Lemma compile_window_matches i w c t :
  compile_window i w = Ok c → 0 <= t < 2 ^ 62 →
  window_matches c t = true ↔ window_blocks w t.
Proof.
  intros Hc Ht. unfold compile_window in Hc. run_ok. bools.
  unfold window_matches, window_blocks. cbn [days_mask win_span offset_min].
  rewrite !wrap_i64_id by (rewrite ?wrap_i64_id; lia).
  fold (local_weekday (window_utc_offset_minutes w) t) (local_minute (window_utc_offset_minutes w) t).
  set (d := local_weekday _ t). set (m := local_minute _ t).
  assert (0 <= d < 7) as Hd by (by apply Z.mod_pos_bound).
  rewrite land_bit_nonzero by lia. unfold names_day. rewrite <- (parse_days_spec _ _ d Hrun Hd).
  destruct (Z.testbit a d); simpl; [|by split; [|intros [? _]]].
  transitivity (covers_minute w m); [|by split; [|intros [_ ?]]]. unfold covers_minute.
  destruct (window_start w) as [s|], (window_end w) as [e|]; try done; run_ok; [|done].
  destruct (a1 =? a2) eqn:Hne; [done|]. run_ok. bools.
  assert (if str_eqb (trim e) "24:00"%rs then a2 = 1440 else parse_hhmm e = Ok a2) as He.
  { case_match; run_ok; done. }
  destruct (Z.ltb_spec a1 a2).
  - rewrite andb_true_iff, Z.leb_le, Z.ltb_lt. split.
    + intros ?. exists a1, a2. split; [done|]. split; [done|]. lia.
    + intros (a1' & a2' & Hs & He' & ?). rewrite Hrun1 in Hs. injection Hs as <-.
      assert (a2' = a2) as -> by (case_match; congruence). lia.
  - rewrite orb_true_iff, Z.leb_le, Z.ltb_lt. split.
    + intros ?. exists a1, a2. split; [done|]. split; [done|]. lia.
    + intros (a1' & a2' & Hs & He' & ?). rewrite Hrun1 in Hs. injection Hs as <-.
      assert (a2' = a2) as -> by (case_match; congruence). lia.
Qed.

Lemma try_map_imap_ok {B} (f : nat → BlockWindow → result schedule_error B) k ws cs :
  try_map (λ '(i, w), f i w) (imap (λ i w, ((k + i)%nat, w)) ws) = Ok cs →
  Forall2 (λ w c, ∃ i, f i w = Ok c) ws cs.
Proof.
  revert k cs. induction ws as [|w ws IH]; intros k cs; cbn [imap try_map].
  { intros [= <-]. constructor. }
  intros H. run_ok. constructor; [eauto|]. eapply (IH (S k)).
  erewrite imap_ext; [exact Hrun0|]. intros i x _. simpl. f_equal. lia.
Qed.

Lemma compile_windows ws s :
  compile ws = Ok s → Forall2 (λ w c, ∃ i, compile_window i w = Ok c) ws (windows s).
Proof. unfold compile. intros H. run_ok. by apply (try_map_imap_ok compile_window 0). Qed.

Lemma is_blocked_at_windows ws s t :
  compile ws = Ok s → 0 <= t < 2 ^ 62 →
  is_blocked_at s t = true ↔ ∃ w, w ∈ ws ∧ window_blocks w t.
Proof.
  intros Hc Ht. unfold is_blocked_at. apply compile_windows in Hc.
  induction Hc as [|w c ws cs (i & Hw) Hc IH]; simpl.
  { split; [done|]. by intros (? & ?%elem_of_nil & _). }
  rewrite orb_true_iff, IH, (compile_window_matches i w c t Hw Ht). split.
  - intros [?|(w' & ? & ?)]; [exists w|exists w']; (split; [|done]); [left|by right].
  - intros (w' & [->|Hin]%elem_of_cons & ?); [by left|right; eauto].
Qed.

(** ** Properties *)

(** C35. What the handler asks of a compiled schedule: with a trusted clock the client is
    blocked exactly when the local weekday and minute lie in one of the configured
    windows (a window's end may be 24:00, and a window whose end precedes its start
    wraps past midnight on each of its own days); with an untrusted clock it is
    blocked exactly when it has any window at all. *)
Theorem is_blocked_at_conservative_spec (ws : list BlockWindow) (s : BlockSchedule) (t : Z) :
  compile ws = Ok s → 0 <= t < 2 ^ 62 →
  is_blocked_at_conservative s t = true ↔
  (t < MIN_TRUSTED_UNIX_SECS ∧ ws ≠ [])
  ∨ (MIN_TRUSTED_UNIX_SECS <= t ∧ ∃ w, w ∈ ws ∧ window_blocks w t).
Proof.
  intros Hc Ht. unfold is_blocked_at_conservative, unix_secs_is_trusted.
  destruct (Z.leb_spec MIN_TRUSTED_UNIX_SECS t); simpl.
  - rewrite (is_blocked_at_windows ws s t Hc Ht). split; [by right|]. intros [[? _]|[_ ?]]; [lia|done].
  - apply compile_windows in Hc. unfold is_empty.
    destruct Hc; simpl; (split; [|intros [[_ ?]|[? _]]; done || lia]); try done.
    intros _. left. done.
Qed.

(** Saturday 2024-01-06 22:30 UTC in a 22:00 to 06:00 window on weekends. *)
Lemma is_blocked_at_conservative_spec_witness :
  ∃ s, compile [{| window_days := ["sat"%rs; "sun"%rs]; window_start := Some "22:00"%rs;
                   window_end := Some "06:00"%rs; window_utc_offset_minutes := 0 |}] = Ok s
  ∧ (1704580200 < MIN_TRUSTED_UNIX_SECS ∧
       [{| window_days := ["sat"%rs; "sun"%rs]; window_start := Some "22:00"%rs;
           window_end := Some "06:00"%rs; window_utc_offset_minutes := 0 |}] ≠ []
     ∨ MIN_TRUSTED_UNIX_SECS <= 1704580200 ∧
       ∃ w, w ∈ [{| window_days := ["sat"%rs; "sun"%rs]; window_start := Some "22:00"%rs;
                    window_end := Some "06:00"%rs; window_utc_offset_minutes := 0 |}]
            ∧ window_blocks w 1704580200).
Proof.
  eexists. split; [vm_compute; reflexivity|].
  eapply (is_blocked_at_conservative_spec _ _ 1704580200);
    [vm_compute; reflexivity|lia|vm_compute; reflexivity].
Defined.
