(* ===== verification/Validate.v ===== *)
(** * Validate: the checks a configuration must pass
    ([rustydns-core/src/config.rs], [validate_config])

    The checks are made in the code's order and the first that fails is the error; each
    message of the code is a constructor, with what it quotes.  The warnings are in [Warnings]. *)

From S2P Require Import Prelude RustStr Net Config.
From S2P Require IpDenylist RegexRules Schedule.

(** The listeners of the daemon. *)
Inductive role := PlainDns | DnsOverTls | DnsOverHttps | DnsOverQuic | MetricsHttp.
#[export] Instance role_eq_dec : EqDecision role.
Proof. solve_decision. Defined.

Inductive invalid :=
| ListenEmpty
| ListenEntryInvalid (entry : str)
| ListenerInvalid (field entry : str)
| MeshZoneNotDotted (field zone : str)
| ZoneNotSingleLabel (zone : str)
| ZoneDeclaredTwice (zone : str)
| RolesOverlap (a b : SocketAddr * role)
| DohNotLoopback (doh : SocketAddr)
| TlsMissing
| ResolversEmpty
| OdohTargetNotHttps (url : str)
| OdohProxiesEmpty
| OdohProxyNotHttps (url : str)
| ProxiesWithoutOdoh
| ResolverUrlEmpty
| ResolverPlainHttp (url : str)
| ResolverSchemeMismatch (protocol : UpstreamProtocol) (url : str)
| TimeoutZero
| CacheTooLarge (n : Z)
| RouteZoneEmpty (idx : nat)
| RouteZoneNotDotted (idx : nat) (zone : str)
| RouteZoneRoot (idx : nat)
| RouteZoneTwice (idx : nat) (zone : str)
| RouteNoResolvers (idx : nat) (zone : str)
| RouteUrlEmpty (idx : nat) (zone : str)
| RoutePlainHttp (idx : nat) (url : str)
| RouteSchemeMismatch (idx : nat) (protocol : UpstreamProtocol) (url : str)
| RouteOdoh (idx : nat)
| SourcePlainHttp (source : str)
| TrustedSourcePlainHttp (source : str)
| FetchTimeoutZero
| MaxFetchZero
| MaxFetchTooLarge (n : Z)
| ReloadTooShort (n : Z)
| SinkholeIpInvalid (ip : str)
| DenylistInvalid (e : IpDenylist.deny_error)
| RegexInvalid (e : RegexRules.regex_error)
| AllowlistTooBroad (group : option nat) (entry : str)
| GroupNameEmpty (idx : nat)
| GroupNameTwice (idx : nat) (name : str)
| GroupPlainHttp (idx : nat) (url : str)
| RingTooLarge (n : Z)
| DiskPathMissing
| DiskPathEmpty
| MaxFilesZero
| MaxFileBytesOutOfRange (n : Z)
| MetricsInvalid (listen : str)
| QpsZero
| BurstZero
| BurstBelowQps (burst qps : Z)
| TrackedZero
| TrackedTooLarge (n : Z)
| PolicyMatchesNothing (idx : nat)
| PolicyNodeIdInvalid (idx : nat) (node_id : str)
| PolicyIpInvalid (idx : nat) (ip : str)
| PolicyWindowInvalid (idx : nat) (e : Schedule.schedule_error)
| PolicyGroupUnknown (idx : nat) (group : str)
| RewriteNameEmpty (idx : nat)
| RewriteNoAction (idx : nat)
| RewriteManyActions (idx : nat)
| RewriteAddressInvalid (idx : nat) (address : str)
| RewriteTargetEmpty (idx : nat)
| RewriteSelfReferential (idx : nat)
| RewriteTooBroad (idx : nat).

Abbreviation check := (result invalid unit).

(** [for (idx, x) in l.iter().enumerate()]. *)
Definition try_enumerate {A} (f : nat → A → check) (l : list A) : check :=
  try_each (λ '(idx, x), f idx x) (imap pair l).

(** ** Listeners *)

Definition listener_check (field : str) (value : option str) : check :=
  match value with
  | Some v => reject_if (bool_decide (parse_socket_addr v = None)) (ListenerInvalid field v)
  | None => Ok ()
  end.

Definition listen_checks (s : ServerConfig) (m : MetricsConfig) : check :=
  _ ← reject_if (bool_decide (server_listen s = [])) ListenEmpty;
  _ ← try_each (λ l, reject_if (bool_decide (parse_socket_addr l = None)) (ListenEntryInvalid l))
        (server_listen s);
  _ ← listener_check "server.dot_listen"%rs (server_dot_listen s);
  _ ← listener_check "server.doq_listen"%rs (server_doq_listen s);
  _ ← listener_check "server.doh_listen"%rs (server_doh_listen s);
  listener_check "metrics.listen"%rs (Some (metrics_listen m)).

(** An entry of [authority.zones], as the authority normalises it. *)
Definition declared_form (zone : str) : str :=
  let normalised := to_ascii_lowercase (trim zone) in
  if ends_with "."%rs normalised then normalised else normalised ++ "."%rs.

(** [let mut seen = ..; for x in l { check(x)?; if !seen.insert(key(x)) { return Err(..) } }] *)
Definition insert_new {K} `{Countable K} (k : K) (e : invalid) (seen : gset K) :
    result invalid (gset K) :=
  _ ← reject_if (bool_decide (k ∈ seen)) e; Ok ({[k]} ∪ seen).

Definition zone_check (seen : gset str) (zone : str) : result invalid (gset str) :=
  let normalised := declared_form zone in
  let label := removelast normalised in
  _ ← reject_if (is_empty_str label || contains "."%rc label) (ZoneNotSingleLabel zone);
  insert_new normalised (ZoneDeclaredTwice zone) seen.

Definition zones_checks (s : ServerConfig) (a : AuthorityConfig) : check :=
  _ ← reject_if (negb (ends_with "."%rs (server_mesh_zone s)))
        (MeshZoneNotDotted "server"%rs (server_mesh_zone s));
  _ ← reject_if (negb (ends_with "."%rs (authority_mesh_zone a)))
        (MeshZoneNotDotted "authority"%rs (authority_mesh_zone a));
  _ ← try_fold zone_check ∅ (authority_zones a);
  Ok ().

Definition norm_ip (ip : ip_addr) : ip_addr :=
  match ip with
  | V6 v6 => match to_ipv4_mapped v6 with Some v4 => V4 v4 | None => V6 v6 end
  | other => other
  end.

Definition addrs_compete (a b : ip_addr) : bool :=
  match norm_ip a, norm_ip b with
  | V4 x, V4 y => (x =? y) || v4_is_unspecified x || v4_is_unspecified y
  | V6 x, V6 y => (x =? y) || v6_is_unspecified x || v6_is_unspecified y
  | V6 x, V4 _ => v6_is_unspecified x
  | V4 _, V6 y => v6_is_unspecified y
  end.

Definition overlap (a b : SocketAddr * role) : bool :=
  negb (bool_decide (a.2 = b.2)) && (sa_port a.1 =? sa_port b.1)
  && addrs_compete (sa_ip a.1) (sa_ip b.1).

(** The two nested loops over pairs of listeners. *)
Fixpoint overlap_checks (l : list (SocketAddr * role)) : check :=
  match l with
  | [] => Ok ()
  | a :: l =>
      _ ← try_each (λ b, reject_if (overlap a b) (RolesOverlap a b)) l;
      overlap_checks l
  end.

Definition parse_addr (s : option str) : option SocketAddr := s ≫= parse_socket_addr.

Definition plain_listens (s : ServerConfig) : list SocketAddr :=
  omap parse_socket_addr (server_listen s).

Definition role_addr (r : role) (a : option SocketAddr) : list (SocketAddr * role) :=
  match a with Some a => [(a, r)] | None => [] end.

Definition tcp_addrs (s : ServerConfig) (m : MetricsConfig) : list (SocketAddr * role) :=
  ((λ a, (a, PlainDns)) <$> plain_listens s)
  ++ role_addr DnsOverTls (parse_addr (server_dot_listen s))
  ++ role_addr DnsOverHttps (parse_addr (server_doh_listen s))
  ++ role_addr MetricsHttp (result_ok (effective_listen m)).

Definition udp_addrs (s : ServerConfig) : list (SocketAddr * role) :=
  ((λ a, (a, PlainDns)) <$> plain_listens s)
  ++ role_addr DnsOverQuic (parse_addr (server_doq_listen s)).

Definition tls_configured (s : ServerConfig) : bool :=
  bool_decide (is_Some (server_tls_cert_path s)) && bool_decide (is_Some (server_tls_key_path s)).

Definition tls_checks (s : ServerConfig) : check :=
  _ ← match parse_addr (server_doh_listen s) with
      | Some doh =>
          reject_if (negb (tls_configured s) && negb (is_loopback (norm_ip (sa_ip doh))))
            (DohNotLoopback doh)
      | None => Ok ()
      end;
  reject_if ((bool_decide (is_Some (server_dot_listen s)) || bool_decide (is_Some (server_doq_listen s)))
             && negb (tls_configured s)) TlsMissing.

Definition server_checks (cfg : DnsConfig) : check :=
  let s := cfg_server cfg in
  _ ← listen_checks s (cfg_metrics cfg);
  _ ← zones_checks s (cfg_authority cfg);
  _ ← overlap_checks (tcp_addrs s (cfg_metrics cfg));
  _ ← overlap_checks (udp_addrs s);
  tls_checks s.

(** ** Upstream *)

(** What a resolver URL of a protocol must look like; the oblivious protocol is checked
    apart. *)
Definition scheme_matches (protocol : UpstreamProtocol) (url : str) : bool :=
  match protocol with
  | Doh => starts_with "https://"%rs url
  | Doq => starts_with "quic://"%rs url || starts_with "h3://"%rs url
  | Plain => negb (contains_str "://"%rs url)
  | Odoh => true
  end.

Definition odoh_checks (u : UpstreamConfig) : check :=
  if bool_decide (upstream_protocol u = Odoh) then
    _ ← try_each (λ url, reject_if (negb (starts_with "https://"%rs url)) (OdohTargetNotHttps url))
          (upstream_resolvers u);
    _ ← reject_if (bool_decide (upstream_odoh_proxies u = [])) OdohProxiesEmpty;
    try_each (λ p, reject_if (negb (starts_with "https://"%rs p)) (OdohProxyNotHttps p))
      (upstream_odoh_proxies u)
  else reject_if (negb (bool_decide (upstream_odoh_proxies u = []))) ProxiesWithoutOdoh.

Definition resolver_check (protocol : UpstreamProtocol) (url : str) : check :=
  _ ← reject_if (is_empty_str url) ResolverUrlEmpty;
  _ ← reject_if (starts_with "http://"%rs url) (ResolverPlainHttp url);
  reject_if (negb (scheme_matches protocol url)) (ResolverSchemeMismatch protocol url).

Definition route_url_check (idx : nat) (zone : str) (protocol : UpstreamProtocol) (url : str) :
    check :=
  _ ← reject_if (is_empty_str url) (RouteUrlEmpty idx zone);
  _ ← reject_if (starts_with "http://"%rs url) (RoutePlainHttp idx url);
  match protocol with
  | Odoh => Err (RouteOdoh idx)
  | _ => reject_if (negb (scheme_matches protocol url)) (RouteSchemeMismatch idx protocol url)
  end.

Definition route_check (seen : gset str) (p : nat * UpstreamRoute) : result invalid (gset str) :=
  let '(idx, route) := p in
  let zone_trimmed := trim (route_zone route) in
  _ ← reject_if (is_empty_str zone_trimmed) (RouteZoneEmpty idx);
  _ ← reject_if (negb (ends_with "."%rs (route_zone route))) (RouteZoneNotDotted idx (route_zone route));
  let normalised := to_ascii_lowercase zone_trimmed in
  _ ← reject_if (bool_decide (normalised = "."%rs)) (RouteZoneRoot idx);
  seen ← insert_new normalised (RouteZoneTwice idx normalised) seen;
  _ ← reject_if (bool_decide (route_resolvers route = [])) (RouteNoResolvers idx normalised);
  _ ← try_each (route_url_check idx normalised (route_protocol route)) (route_resolvers route);
  Ok seen.

Definition upstream_checks (cfg : DnsConfig) : check :=
  let u := cfg_upstream cfg in
  _ ← reject_if (bool_decide (upstream_resolvers u = [])) ResolversEmpty;
  _ ← odoh_checks u;
  _ ← try_each (resolver_check (upstream_protocol u)) (upstream_resolvers u);
  _ ← reject_if (upstream_timeout_ms u =? 0) TimeoutZero;
  _ ← reject_if (500000 <? upstream_max_cache_entries u) (CacheTooLarge (upstream_max_cache_entries u));
  _ ← try_fold route_check ∅ (imap pair (upstream_routes u));
  Ok ().

Section validate.
Context `{RegexRules.RegexCrate}.

(** ** Blocklist *)

(** What [reject_overbroad_allowlist] counts: the labels without a wildcard prefix. *)
Definition labels (entry : str) : nat :=
  length (filter (λ l, l ≠ []) (split "."%rc entry)).
Definition bare_entry (entry : str) : str :=
  trim_start_matches "."%rc (trim_start_matches_str "*."%rs (trim entry)).

Definition allowlist_checks (group : option nat) (entries : list str) : check :=
  try_each (λ entry, reject_if (labels (bare_entry entry) <=? 1)%nat
                       (AllowlistTooBroad group (bare_entry entry))) entries.

Definition group_check (seen : gset str) (p : nat * BlocklistGroup) : result invalid (gset str) :=
  let '(idx, group) := p in
  _ ← reject_if (is_empty_str (trim (group_name group))) (GroupNameEmpty idx);
  seen ← insert_new (group_name group) (GroupNameTwice idx (group_name group)) seen;
  _ ← try_each (λ url, reject_if (starts_with "http://"%rs url) (GroupPlainHttp idx url))
        (group_sources group ++ group_trusted_rpz_sources group);
  _ ← allowlist_checks (Some idx) (group_allowlist group);
  Ok seen.

Definition source_checks (b : BlocklistConfig) : check :=
  _ ← try_each (λ s, reject_if (starts_with "http://"%rs s) (SourcePlainHttp s)) (blocklist_sources b);
  _ ← try_each (λ s, reject_if (starts_with "http://"%rs s) (TrustedSourcePlainHttp s))
        (blocklist_trusted_rpz_sources b);
  _ ← reject_if (blocklist_fetch_timeout_ms b =? 0) FetchTimeoutZero;
  _ ← reject_if (blocklist_max_fetch_bytes b =? 0) MaxFetchZero;
  _ ← reject_if (100 * 1024 * 1024 <? blocklist_max_fetch_bytes b)
        (MaxFetchTooLarge (blocklist_max_fetch_bytes b));
  reject_if ((0 <? blocklist_reload_interval_secs b) && (blocklist_reload_interval_secs b <? 300))
    (ReloadTooShort (blocklist_reload_interval_secs b)).

Definition blocklist_checks (b : BlocklistConfig) : check :=
  _ ← source_checks b;
  _ ← reject_if (bool_decide (blocklist_block_response b = Sinkhole)
                 && bool_decide (parse_ip (blocklist_sinkhole_ip b) = None))
        (SinkholeIpInvalid (blocklist_sinkhole_ip b));
  _ ← map_err DenylistInvalid (IpDenylist.parse (blocklist_response_ip_denylist b));
  _ ← map_err RegexInvalid (RegexRules.compile (blocklist_regex_rules b));
  _ ← allowlist_checks None (blocklist_allowlist b);
  _ ← try_fold group_check ∅ (imap pair (blocklist_groups b));
  Ok ().

(** ** Privacy, metrics, rate limit *)

Definition MIN_FILE_BYTES : Z := 4096.
Definition MAX_FILE_BYTES : Z := 1024 * 1024 * 1024.

Definition privacy_checks (p : PrivacyConfig) : check :=
  _ ← reject_if (100000 <? privacy_query_log_ring_size p) (RingTooLarge (privacy_query_log_ring_size p));
  if privacy_query_log_to_disk p then
    _ ← match privacy_query_log_disk_path p with
        | None => Err DiskPathMissing
        | Some path => reject_if (is_empty_str (trim path)) DiskPathEmpty
        end;
    _ ← reject_if (privacy_query_log_max_files p =? 0) MaxFilesZero;
    reject_if ((privacy_query_log_max_file_bytes p <? MIN_FILE_BYTES)
               || (MAX_FILE_BYTES <? privacy_query_log_max_file_bytes p))
      (MaxFileBytesOutOfRange (privacy_query_log_max_file_bytes p))
  else Ok ().

Definition metrics_checks (m : MetricsConfig) : check :=
  reject_if (bool_decide (parse_socket_addr (metrics_listen m) = None)) (MetricsInvalid (metrics_listen m)).

Definition rate_limit_checks (r : RateLimitConfig) : check :=
  if rate_limit_enabled r then
    _ ← reject_if (rate_limit_qps r =? 0) QpsZero;
    _ ← reject_if (rate_limit_burst r =? 0) BurstZero;
    _ ← reject_if (rate_limit_burst r <? rate_limit_qps r)
          (BurstBelowQps (rate_limit_burst r) (rate_limit_qps r));
    _ ← reject_if (rate_limit_max_tracked_clients r =? 0) TrackedZero;
    reject_if (1000000 <? rate_limit_max_tracked_clients r)
      (TrackedTooLarge (rate_limit_max_tracked_clients r))
  else Ok ().

(** ** Policies and rewrites *)

Definition policy_check (b : BlocklistConfig) (idx : nat) (p : NodePolicy) : check :=
  _ ← match policy_node_id p, policy_client_ip p with
      | None, None => Err (PolicyMatchesNothing idx)
      | Some node_id, _ =>
          reject_if (negb (starts_with "ed25519:"%rs node_id)) (PolicyNodeIdInvalid idx node_id)
      | _, _ => Ok ()
      end;
  _ ← match policy_client_ip p with
      | Some ip => reject_if (bool_decide (parse_ip ip = None)) (PolicyIpInvalid idx ip)
      | None => Ok ()
      end;
  _ ← map_err (PolicyWindowInvalid idx) (Schedule.compile (policy_block_windows p));
  match policy_blocklist_group p with
  | Some g =>
      reject_if (negb (existsb (λ grp, str_eqb (group_name grp) g) (blocklist_groups b)))
        (PolicyGroupUnknown idx g)
  | None => Ok ()
  end.

Definition action_count (rule : RewriteRule) : nat :=
  (Nat.b2n (bool_decide (is_Some (rewrite_address rule)))
   + Nat.b2n (bool_decide (is_Some (rewrite_target rule))) + Nat.b2n (rewrite_block rule))%nat.

(** A name or target without trailing dots, in lower case, and one dot. *)
Definition norm_form (s : str) : str :=
  to_ascii_lowercase (trim_end_matches "."%rc (trim s)) ++ "."%rs.

Definition rewrite_check (idx : nat) (rule : RewriteRule) : check :=
  let name := trim (rewrite_name rule) in
  _ ← reject_if (is_empty_str name) (RewriteNameEmpty idx);
  _ ← reject_if (action_count rule =? 0)%nat (RewriteNoAction idx);
  _ ← reject_if (1 <? action_count rule)%nat (RewriteManyActions idx);
  _ ← match rewrite_address rule with
      | Some addr => reject_if (bool_decide (parse_ip addr = None)) (RewriteAddressInvalid idx addr)
      | None => Ok ()
      end;
  _ ← match rewrite_target rule with
      | Some target => reject_if (is_empty_str (trim target)) (RewriteTargetEmpty idx)
      | None => Ok ()
      end;
  _ ← reject_if (bool_decide (rewrite_address rule = None)
                 && str_eqb (norm_form (rewrite_name rule)) (norm_form (default [] (rewrite_target rule))))
        (RewriteSelfReferential idx);
  let bare := trim_end_matches "."%rc
                (trim_start_matches "."%rc (trim_start_matches_str "*."%rs name)) in
  reject_if ((starts_with "*."%rs name || starts_with "."%rs name) && (labels bare <=? 1)%nat)
    (RewriteTooBroad idx).

Definition validate_config (cfg : DnsConfig) : check :=
  _ ← server_checks cfg;
  _ ← upstream_checks cfg;
  _ ← blocklist_checks (cfg_blocklist cfg);
  _ ← privacy_checks (cfg_privacy cfg);
  _ ← metrics_checks (cfg_metrics cfg);
  _ ← rate_limit_checks (cfg_rate_limit cfg);
  _ ← try_enumerate (policy_check (cfg_blocklist cfg)) (cfg_policy cfg);
  try_enumerate rewrite_check (cfg_rewrite cfg).
End validate.

(** ** Lemmas *)

Lemma try_enumerate_ok {A} (f : nat → A → check) (l : list A) :
  try_enumerate f l = Ok () ↔ ∀ idx x, l !! idx = Some x → f idx x = Ok ().
Proof.
  unfold try_enumerate. rewrite try_each_ok, Forall_lookup. split.
  - intros Hf idx x Hx. apply (Hf idx (idx, x)). by rewrite list_lookup_imap, Hx.
  - intros Hf i [idx x] Hp. rewrite list_lookup_imap in Hp. apply fmap_Some in Hp as (y & Hy & [= -> ->]).
    by apply Hf.
Qed.

(** Every element of a list is checked, whatever the accumulator. *)
Lemma try_fold_each {A B E} (P : A → Prop) (f : B → A → result E B) l acc acc' :
  (∀ b x b', f b x = Ok b' → P x) → try_fold f acc l = Ok acc' → Forall P l.
Proof.
  intros Hf. revert acc. induction l as [|x l IH]; intros acc Hr; [constructor|].
  cbn [try_fold] in Hr. run_ok. constructor; [by eapply Hf|by eapply IH].
Qed.

Lemma Forall_imap_pair {A} (P : A → Prop) (l : list A) :
  Forall (λ p, P p.2) (imap pair l) → Forall P l.
Proof.
  rewrite !Forall_lookup. intros Hf i x Hx. apply (Hf i (i, x)). by rewrite list_lookup_imap, Hx.
Qed.

Lemma overlap_checks_ok l :
  overlap_checks l = Ok () →
  ∀ a b, a ∈ l → b ∈ l → a.2 ≠ b.2 → overlap a b = false ∨ overlap b a = false.
Proof.
  induction l as [|c l IH]; intros Hl a b Ha Hb Hab; [by apply elem_of_nil in Ha|].
  cbn [overlap_checks] in Hl. run_ok. apply try_each_ok in Hrun.
  assert (∀ d, d ∈ l → overlap c d = false) as Hc.
  { intros d Hd. eapply Forall_forall in Hrun; [|by apply list_elem_of_In]. by run_ok. }
  apply elem_of_cons in Ha as [-> |Ha], Hb as [-> |Hb]; [done| | |by apply IH]; [left|right]; by apply Hc.
Qed.

(** ** What a valid configuration guarantees *)

(** A socket bound to an address receives what is sent to it, a wildcard socket what is
    sent to its family, and the IPv6 wildcard, being dual-stack, everything. *)
Definition receives (bound dst : ip_addr) : Prop :=
  norm_ip bound = norm_ip dst ∨ norm_ip bound = V6 0
  ∨ norm_ip bound = V4 0 ∧ ∃ v4, norm_ip dst = V4 v4.

Lemma addrs_compete_spec a b :
  addrs_compete a b = true ↔ ∃ dst, receives a dst ∧ receives b dst.
Proof.
  unfold addrs_compete, receives, v4_is_unspecified, v6_is_unspecified. split.
  - destruct (norm_ip a) as [x|x] eqn:Ha, (norm_ip b) as [y|y] eqn:Hb; intros Hc;
      rewrite ?orb_true_iff, ?Z.eqb_eq in Hc; destruct_or?; subst;
      first [exists a; rewrite Ha; naive_solver|exists b; rewrite Hb; naive_solver].
  - intros (dst & Ha & Hb).
    destruct (norm_ip a) as [x|x], (norm_ip b) as [y|y], (norm_ip dst) as [z|z];
      rewrite ?orb_true_iff, ?Z.eqb_eq; naive_solver.
Qed.

Inductive transport := Tcp | Udp.

(** The sockets of a configuration, each with its transport and role. *)
Inductive listener (cfg : DnsConfig) : transport → role → SocketAddr → Prop :=
| plain_listener t s a :
    s ∈ server_listen (cfg_server cfg) → parse_socket_addr s = Some a → listener cfg t PlainDns a
| dot_listener s a :
    server_dot_listen (cfg_server cfg) = Some s → parse_socket_addr s = Some a →
    listener cfg Tcp DnsOverTls a
| doh_listener s a :
    server_doh_listen (cfg_server cfg) = Some s → parse_socket_addr s = Some a →
    listener cfg Tcp DnsOverHttps a
| doq_listener s a :
    server_doq_listen (cfg_server cfg) = Some s → parse_socket_addr s = Some a →
    listener cfg Udp DnsOverQuic a
| metrics_listener a : effective_listen (cfg_metrics cfg) = Ok a → listener cfg Tcp MetricsHttp a.

Lemma listener_addrs cfg t r a :
  listener cfg t r a →
  (a, r) ∈ match t with
           | Tcp => tcp_addrs (cfg_server cfg) (cfg_metrics cfg)
           | Udp => udp_addrs (cfg_server cfg)
           end.
Proof.
  intros Hl. destruct Hl as [t s a Hs Ha|s a Hs Ha|s a Hs Ha|s a Hs Ha|a Ha].
  - assert ((a, PlainDns) ∈ (λ a, (a, PlainDns)) <$> plain_listens (cfg_server cfg)) as Hp.
    { apply list_elem_of_fmap. exists a. split; [done|]. apply list_elem_of_omap. by exists s. }
    destruct t; apply elem_of_app; by left.
  - unfold tcp_addrs. rewrite Hs. cbn. rewrite Ha. set_solver.
  - unfold tcp_addrs. rewrite Hs. cbn. rewrite Ha. set_solver.
  - unfold udp_addrs. rewrite Hs. cbn. rewrite Ha. set_solver.
  - unfold tcp_addrs. rewrite Ha. cbn. set_solver.
Qed.

Section guarantees.
Context `{RegexRules.RegexCrate}.

Lemma validated_addresses_parse (cfg : DnsConfig) s :
  validate_config cfg = Ok () →
  s ∈ server_listen (cfg_server cfg)
  ∨ Some s ∈ [server_dot_listen (cfg_server cfg); server_doq_listen (cfg_server cfg);
              server_doh_listen (cfg_server cfg); Some (metrics_listen (cfg_metrics cfg))] →
  is_Some (parse_socket_addr s).
Proof.
  intros Hv. unfold validate_config, server_checks, listen_checks in Hv. run_ok.
  match goal with He : try_each _ _ = Ok () |- _ => apply try_each_ok in He; rename He into Hl end.
  intros [Hs|Hs].
  - eapply Forall_forall in Hl; [|by apply list_elem_of_In]. run_ok. bools. by apply not_eq_None_Some.
  - unfold listener_check in *. apply not_eq_None_Some.
    rewrite !elem_of_cons, elem_of_nil in Hs.
    destruct Hs as [Hs|[Hs|[Hs|[[= ->]|[]]]]]; try rewrite <- Hs in *; run_ok; by bools.
Qed.

Lemma validated_tls (cfg : DnsConfig) :
  validate_config cfg = Ok () → tls_checks (cfg_server cfg) = Ok ().
Proof. intros Hv. unfold validate_config, server_checks in Hv. by run_ok. Qed.

(** C21. Sockets of a valid configuration are disjoint.  Every address it gives parses, so
    that start-up cannot fail on one; and no two sockets of one transport and different
    roles can receive the same datagram or connection, wildcard and dual-stack sockets
    and IPv4-mapped spellings included. *)
Theorem validated_listeners_disjoint (cfg : DnsConfig) :
  validate_config cfg = Ok () →
  (∀ s, s ∈ server_listen (cfg_server cfg)
        ∨ Some s ∈ [server_dot_listen (cfg_server cfg); server_doq_listen (cfg_server cfg);
                    server_doh_listen (cfg_server cfg); Some (metrics_listen (cfg_metrics cfg))] →
        is_Some (parse_socket_addr s))
  ∧ ∀ t r1 r2 a1 a2, listener cfg t r1 a1 → listener cfg t r2 a2 → r1 ≠ r2 →
      sa_port a1 = sa_port a2 → ¬ ∃ dst, receives (sa_ip a1) dst ∧ receives (sa_ip a2) dst.
Proof.
  intros Hv. split; [intros s Hs; by eapply validated_addresses_parse|].
  unfold validate_config, server_checks in Hv. run_ok.
  intros t r1 r2 a1 a2 H1 H2 Hr Hp Hd. apply addrs_compete_spec in Hd as Hc.
  assert (addrs_compete (sa_ip a2) (sa_ip a1) = true) as Hc'.
  { apply addrs_compete_spec. destruct Hd as (dst & ? & ?). by exists dst. }
  apply listener_addrs in H1, H2.
  assert (overlap (a1, r1) (a2, r2) = false ∨ overlap (a2, r2) (a1, r1) = false) as Ho.
  { destruct t; (eapply overlap_checks_ok; [|exact H1|exact H2|done]); done. }
  unfold overlap in Ho. cbn [fst snd] in Ho.
  rewrite Hc, Hc', Hp, Z.eqb_refl, !bool_decide_false in Ho by congruence. by destruct Ho.
Qed.

(** A URL whose transport is encrypted. *)
Definition encrypted_url (url : str) : Prop :=
  starts_with "https://"%rs url = true ∨ starts_with "quic://"%rs url = true
  ∨ starts_with "h3://"%rs url = true.

Lemma scheme_encrypted protocol url :
  scheme_matches protocol url = true → protocol = Doh ∨ protocol = Doq → encrypted_url url.
Proof.
  unfold encrypted_url. intros Hs [-> | ->]; cbn [scheme_matches] in Hs; [by left|].
  right. by apply orb_true_iff.
Qed.

(** A loop of early returns. *)
Lemma try_each_reject {A} (c : A → bool) (e : A → invalid) l :
  try_each (λ x, reject_if (c x) (e x)) l = Ok () → Forall (λ x, c x = false) l.
Proof.
  intros Hl. apply try_each_ok in Hl. eapply Forall_impl; [|exact Hl]. cbn. intros x Hx. by run_ok.
Qed.

Lemma odoh_checks_ok u :
  odoh_checks u = Ok () → upstream_protocol u = Odoh →
  upstream_odoh_proxies u ≠ []
  ∧ Forall (λ p, starts_with "https://"%rs p = true) (upstream_resolvers u ++ upstream_odoh_proxies u).
Proof.
  unfold odoh_checks. intros Ho Hp. rewrite bool_decide_true in Ho by done. run_ok. bools.
  split; [done|]. apply Forall_app. apply try_each_reject in Ho, Hrun.
  split; (eapply Forall_impl; [|eassumption]); cbn; intros url Hu; by bools.
Qed.

Lemma resolver_checks_ok u :
  odoh_checks u = Ok () → try_each (resolver_check (upstream_protocol u)) (upstream_resolvers u) = Ok () →
  upstream_protocol u ≠ Plain → Forall encrypted_url (upstream_resolvers u).
Proof.
  intros Ho Hr Hp. destruct (decide (upstream_protocol u = Odoh)) as [Hodoh|Hn].
  - apply odoh_checks_ok in Ho as [_ [Hf _]%Forall_app]; [|done].
    eapply Forall_impl; [|exact Hf]. cbn. by left.
  - apply try_each_ok in Hr. eapply Forall_impl; [|exact Hr]. cbn. intros url Hu.
    unfold resolver_check in Hu. run_ok. bools. eapply scheme_encrypted; [done|].
    destruct (upstream_protocol u); auto; done.
Qed.

Lemma route_check_ok seen p seen' :
  route_check seen p = Ok seen' →
  route_protocol p.2 ≠ Odoh ∧ route_resolvers p.2 ≠ []
  ∧ (route_protocol p.2 ≠ Plain → Forall encrypted_url (route_resolvers p.2)).
Proof.
  destruct p as [idx r]. unfold route_check. cbn [snd]. intros Hr. run_ok. bools.
  match goal with He : try_each _ _ = _ |- _ => apply try_each_ok in He; rename He into Hu end.
  unfold route_url_check in Hu. split; [|split; [done|]].
  - intros Hp. rewrite Hp in Hu. destruct (route_resolvers r) as [|url l]; [done|].
    apply Forall_cons_1 in Hu as [Hu _]. by run_ok.
  - intros Hp. eapply Forall_impl; [|exact Hu]. cbn. intros url Hc. run_ok.
    destruct (route_protocol r) eqn:Hpr; run_ok; bools; (eapply scheme_encrypted; [eassumption|auto]).
    done.
Qed.

Lemma group_check_ok seen p seen' :
  group_check seen p = Ok seen' →
  Forall (λ url, starts_with "http://"%rs url = false)
    (group_sources p.2 ++ group_trusted_rpz_sources p.2).
Proof.
  destruct p as [idx g]. unfold group_check. cbn [snd]. intros Hr. run_ok.
  match goal with He : try_each _ _ = _ |- _ => by apply try_each_reject in He end.
Qed.

Lemma blocklist_checks_https b :
  blocklist_checks b = Ok () →
  Forall (λ url, starts_with "http://"%rs url = false)
    (blocklist_sources b ++ blocklist_trusted_rpz_sources b
     ++ (blocklist_groups b ≫= λ g, group_sources g ++ group_trusted_rpz_sources g)).
Proof.
  unfold blocklist_checks, source_checks. intros Hb. run_ok.
  repeat match goal with
  | He : try_each (λ _, reject_if _ _) _ = Ok () |- _ => apply try_each_reject in He
  | He : try_fold group_check _ _ = Ok _ |- _ =>
      apply (try_fold_each _ _ _ _ _ group_check_ok) in He
  end.
  repeat (apply Forall_app; split); [done|done|].
  apply Forall_bind. by apply Forall_imap_pair.
Qed.

(** A loop over keys that rejects a second one. *)
Lemma try_fold_fresh {A} (key : A → str) (f : gset str → A → result invalid (gset str)) l seen seen' :
  (∀ s x s', f s x = Ok s' → (key x ∉ s) ∧ s' = {[key x]} ∪ s) →
  try_fold f seen l = Ok seen' → NoDup (key <$> l) ∧ ∀ x, x ∈ l → key x ∉ seen.
Proof.
  intros Hf. revert seen. induction l as [|x l IH]; intros seen Hl; [split; [constructor|set_solver]|].
  cbn [try_fold] in Hl. run_ok. apply Hf in Hrun as [Hx ->]. apply IH in Hl as [Hn Hs].
  split; [|set_solver]. csimpl. constructor; [|done].
  intros (y & He & Hy)%list_elem_of_fmap. apply (Hs y Hy). rewrite <- He. set_solver.
Qed.

Lemma fmap_imap_pair {A B} (f : A → B) (l : list A) : (λ p : nat * A, f p.2) <$> imap pair l = f <$> l.
Proof. rewrite fmap_imap. apply list_eq. intros i. rewrite list_lookup_imap, list_lookup_fmap. by destruct (l !! i). Qed.

Lemma group_names_fresh gs seen :
  try_fold group_check ∅ (imap pair gs) = Ok seen → NoDup (group_name <$> gs).
Proof.
  intros Hl. eapply (try_fold_fresh (λ p : nat * BlocklistGroup, group_name p.2)) in Hl as [Hn _].
  - by rewrite fmap_imap_pair in Hn.
  - intros s [idx g] s'. unfold group_check, insert_new. cbn [snd]. intros Hr. run_ok. by bools.
Qed.

Lemma validated_blocklist (cfg : DnsConfig) :
  validate_config cfg = Ok () →
  let b := cfg_blocklist cfg in
  is_Some (result_ok (IpDenylist.parse (blocklist_response_ip_denylist b)))
  ∧ is_Some (result_ok (RegexRules.compile (blocklist_regex_rules b)))
  ∧ (blocklist_block_response b = Sinkhole → is_Some (parse_ip (blocklist_sinkhole_ip b)))
  ∧ NoDup (group_name <$> blocklist_groups b).
Proof.
  intros Hv b. unfold validate_config, blocklist_checks in Hv. run_ok. subst b.
  repeat match goal with He : map_err _ ?r = Ok _ |- _ => apply map_err_ok in He end.
  split_and!.
  - by destruct (IpDenylist.parse _).
  - by destruct (RegexRules.compile _).
  - intros Hs.
    match goal with He : bool_decide _ && _ = false |- _ => rewrite bool_decide_true in He by done end.
    cbn [andb] in *. bools. by apply not_eq_None_Some.
  - by eapply group_names_fresh.
Qed.

Lemma validated_policies (cfg : DnsConfig) :
  validate_config cfg = Ok () →
  Forall (λ p, (∀ s, policy_client_ip p = Some s → is_Some (parse_ip s))
    ∧ is_Some (result_ok (Schedule.compile (policy_block_windows p)))
    ∧ ∀ g, policy_blocklist_group p = Some g →
        ∃ grp, grp ∈ blocklist_groups (cfg_blocklist cfg) ∧ group_name grp = g) (cfg_policy cfg).
Proof.
  intros Hv. unfold validate_config in Hv. run_ok. apply Forall_lookup. intros idx p Hp.
  match goal with He : try_enumerate (policy_check _) _ = _ |- _ =>
    rewrite try_enumerate_ok in He; specialize (He idx p Hp); unfold policy_check in He; rename He into Hc
  end.
  run_ok. split_and!.
  - intros s Hs. rewrite Hs in *. run_ok. bools. by apply not_eq_None_Some.
  - by destruct (Schedule.compile _).
  - intros g Hg. rewrite Hg in Hc. run_ok. bools. apply existsb_exists in Hc as (grp & Hin & He).
    exists grp. split; [by apply list_elem_of_In|]. by apply bool_decide_eq_true in He.
Qed.

Lemma tls_checks_ok cfg :
  tls_checks (cfg_server cfg) = Ok () →
  server_tls_cert_path (cfg_server cfg) = None ∨ server_tls_key_path (cfg_server cfg) = None →
  server_dot_listen (cfg_server cfg) = None ∧ server_doq_listen (cfg_server cfg) = None
  ∧ ∀ a, listener cfg Tcp DnsOverHttps a → is_loopback (norm_ip (sa_ip a)) = true.
Proof.
  unfold tls_checks. intros Ht Hno.
  assert (tls_configured (cfg_server cfg) = false) as Hc.
  { unfold tls_configured. by destruct Hno as [-> | ->]; rewrite ?andb_false_r. }
  rewrite Hc in Ht. run_ok. cbn [negb andb] in *. rewrite andb_true_r in Ht. bools.
  split; [by apply eq_None_not_Some|]. split; [by apply eq_None_not_Some|].
  intros a Ha. inversion Ha as [|?|s ? Hs Hp|?|]; subst.
  unfold parse_addr in Hrun. rewrite Hs in Hrun. cbn in Hrun. rewrite Hp in Hrun. run_ok. by bools.
Qed.

(** C22. A valid configuration exposes plain DNS only where it says so.  Unless a protocol is
    declared plain, every resolver, of the default arm or of a route, has an encrypted
    transport; the oblivious protocol has targets and at least one relay, all over HTTPS,
    and routes never use it; no blocklist source, trusted or of a group, is fetched over
    plain HTTP; DoT and DoQ have their certificate; and the DoH listener, which itself
    speaks plain text, is on loopback unless TLS material is configured. *)
Theorem validated_transports (cfg : DnsConfig) :
  validate_config cfg = Ok () →
  let u := cfg_upstream cfg in
  let b := cfg_blocklist cfg in
  let s := cfg_server cfg in
  upstream_resolvers u ≠ []
  ∧ (upstream_protocol u ≠ Plain → Forall encrypted_url (upstream_resolvers u))
  ∧ (upstream_protocol u = Odoh → upstream_odoh_proxies u ≠ []
       ∧ Forall (λ p, starts_with "https://"%rs p = true)
           (upstream_resolvers u ++ upstream_odoh_proxies u))
  ∧ Forall (λ r, route_protocol r ≠ Odoh ∧ route_resolvers r ≠ []
       ∧ (route_protocol r ≠ Plain → Forall encrypted_url (route_resolvers r))) (upstream_routes u)
  ∧ Forall (λ url, starts_with "http://"%rs url = false)
      (blocklist_sources b ++ blocklist_trusted_rpz_sources b
       ++ (blocklist_groups b ≫= λ g, group_sources g ++ group_trusted_rpz_sources g))
  ∧ (server_tls_cert_path s = None ∨ server_tls_key_path s = None →
       server_dot_listen s = None ∧ server_doq_listen s = None
       ∧ ∀ a, listener cfg Tcp DnsOverHttps a → is_loopback (norm_ip (sa_ip a)) = true).
Proof.
  intros Hv u b s. unfold validate_config, server_checks, upstream_checks in Hv. run_ok. bools.
  split; [done|]. split; [by apply resolver_checks_ok|]. split; [by apply odoh_checks_ok|].
  split; [|split; [by apply blocklist_checks_https|by apply tls_checks_ok]].
  apply Forall_imap_pair. by eapply try_fold_each; [apply route_check_ok|].
Qed.
End guarantees.

(** ** Witnesses: the default configuration with DoT and DoQ on one address *)

Definition demo_valid_config : DnsConfig :=
  {| cfg_server :=
       {| server_listen := ["0.0.0.0:53"%rs; "[::1]:53"%rs]; server_mesh_zone := "mesh."%rs;
          server_doh_listen := Some "127.0.0.1:8443"%rs; server_dot_listen := Some "0.0.0.0:853"%rs;
          server_doq_listen := Some "0.0.0.0:853"%rs; server_tls_cert_path := Some "cert.pem"%rs;
          server_tls_key_path := Some "key.pem"%rs |};
     cfg_upstream := UpstreamConfig_default; cfg_authority := AuthorityConfig_default;
     cfg_blocklist := BlocklistConfig_default; cfg_privacy := PrivacyConfig_default;
     cfg_metrics := MetricsConfig_default; cfg_rate_limit := RateLimitConfig_default;
     cfg_policy := []; cfg_rewrite := []; cfg_safesearch := SafeSearchConfig_default |}.

Lemma demo_valid : @validate_config RegexRules.literal_regex demo_valid_config = Ok ().
Proof. vm_compute. reflexivity. Qed.

(** The same with the metrics on the port of plain DNS: the IPv4 wildcard competes. *)
Example demo_overlap :
  @validate_config RegexRules.literal_regex
    {| cfg_server := cfg_server demo_valid_config; cfg_upstream := UpstreamConfig_default;
       cfg_authority := AuthorityConfig_default; cfg_blocklist := BlocklistConfig_default;
       cfg_privacy := PrivacyConfig_default;
       cfg_metrics := {| metrics_listen := "[::ffff:127.0.0.1]:53"%rs; metrics_path := "/metrics"%rs |};
       cfg_rate_limit := RateLimitConfig_default; cfg_policy := []; cfg_rewrite := [];
       cfg_safesearch := SafeSearchConfig_default |}
  = Err (RolesOverlap ({| sa_ip := V4 0; sa_port := 53; sa_scope := 0 |}, PlainDns)
           ({| sa_ip := V4 2130706433; sa_port := 53; sa_scope := 0 |}, MetricsHttp)).
Proof. vm_compute. reflexivity. Qed.

Lemma validated_listeners_disjoint_witness :
  ¬ ∃ dst, receives (V4 0) dst ∧ receives (V6 1) dst.
Proof.
  apply (proj2 (@validated_listeners_disjoint RegexRules.literal_regex
    {| cfg_server :=
         {| server_listen := ["0.0.0.0:53"%rs]; server_mesh_zone := "mesh."%rs;
            server_doh_listen := Some "[::1]:53"%rs; server_dot_listen := None;
            server_doq_listen := None; server_tls_cert_path := None; server_tls_key_path := None |};
       cfg_upstream := UpstreamConfig_default; cfg_authority := AuthorityConfig_default;
       cfg_blocklist := BlocklistConfig_default; cfg_privacy := PrivacyConfig_default;
       cfg_metrics := MetricsConfig_default; cfg_rate_limit := RateLimitConfig_default;
       cfg_policy := []; cfg_rewrite := []; cfg_safesearch := SafeSearchConfig_default |}
    ltac:(vm_compute; reflexivity))
    Tcp PlainDns DnsOverHttps {| sa_ip := V4 0; sa_port := 53; sa_scope := 0 |}
    {| sa_ip := V6 1; sa_port := 53; sa_scope := 0 |}).
  - apply (plain_listener _ Tcp "0.0.0.0:53"%rs); [by left|]. vm_compute. reflexivity.
  - apply (doh_listener _ "[::1]:53"%rs); [reflexivity|]. vm_compute. reflexivity.
  - discriminate.
  - reflexivity.
Defined.

Lemma validated_transports_witness :
  Forall encrypted_url (upstream_resolvers (cfg_upstream demo_valid_config)).
Proof.
  apply (proj1 (proj2 (@validated_transports RegexRules.literal_regex demo_valid_config demo_valid))).
  discriminate.
Defined.
