(* ===== verification/Redaction.v ===== *)
(** * Redaction: what the redacted configuration is still good for
    ([rustydns-core/src/config.rs])

    Redaction rewrites the user information, the query and the fragment of a URL and leaves
    its scheme alone, which is all that validation looks at. *)

From S2P Require Import Prelude RustStr Net Config Validate.
From S2P Require RegexRules.

(** ** Schemes *)

Lemma starts_with_app p s : starts_with p (p ++ s) = true.
Proof. apply starts_with_iff. by eexists. Qed.

(** Only the first characters count. *)
Lemma starts_with_prefix p u t t' :
  (length p <= length u)%nat → starts_with p (u ++ t) = starts_with p (u ++ t').
Proof.
  revert u. unfold starts_with. induction p as [|a p IH]; intros u Hl; [by destruct (u ++ t), (u ++ t')|].
  destruct u as [|b u]; [simpl in Hl; lia|]. cbn. destruct (a =? b); [|done]. apply IH. simpl in Hl. lia.
Qed.

Lemma find_str_prefix p u t t' :
  find_str p (u ++ p ++ t) = Some (length u) → find_str p (u ++ p ++ t') = Some (length u).
Proof.
  induction u as [|c u IH]; cbn [app length].
  - intros _. destruct (p ++ t') eqn:E; cbn [find_str]; by rewrite <- E, starts_with_app.
  - cbn [find_str]. rewrite app_comm_cons.
    rewrite (app_assoc _ p t), (starts_with_prefix p _ t t'), <- (app_assoc _ p t')
      by (rewrite length_app; lia).
    cbn [app]. destruct (starts_with p (c :: u ++ p ++ t')); [done|].
    intros Hf. apply fmap_Some in Hf as (n & Hn & [= <-]). by rewrite IH.
Qed.

Lemma find_str_Some p s i : find_str p s = Some i → ∃ u t, s = u ++ p ++ t ∧ i = length u.
Proof.
  revert i. induction s as [|c s IH]; intros i; cbn [find_str].
  - destruct (starts_with p []) eqn:E; [|done]. intros [= <-]. apply starts_with_iff in E as [t E].
    by exists [], t.
  - destruct (starts_with p (c :: s)) eqn:E.
    + intros [= <-]. apply starts_with_iff in E as [t E]. by exists [], t.
    + intros (n & Hn & ->)%fmap_Some. apply IH in Hn as (u & t & -> & ->). by exists (c :: u), t.
Qed.

Definition separator : str := "://"%rs.

(** The scheme of a URL is what comes before the first separator. *)
Definition scheme (url : str) : option str := (λ i, take i url) <$> find_str separator url.

Lemma starts_with_scheme s url :
  ":"%rc ∉ s → starts_with (s ++ separator) url = true ↔ scheme url = Some s.
Proof.
  intros Hs. rewrite starts_with_iff. unfold scheme. split.
  - intros [t ->]. rewrite <- app_assoc.
    assert (find_str separator (s ++ separator ++ t) = Some (length s)) as ->.
    2:{ cbn. by rewrite take_app_length. }
    induction s as [|c s IH]; [done|]. rewrite not_elem_of_cons in Hs. destruct Hs as [Hc Hs].
    cbn [app find_str]. assert (starts_with separator (c :: s ++ separator ++ t) = false) as ->.
    { unfold starts_with. cbn [separator strip_prefix]. by rewrite (proj2 (Z.eqb_neq _ _)) by done. }
    by rewrite IH.
  - intros (i & Hi & ->)%fmap_Some. apply find_str_Some in Hi as (u & t & -> & ->).
    exists t. by rewrite <- app_assoc, take_app_length.
Qed.

Lemma scheme_redact url : scheme (redact_url_credentials url) = scheme url.
Proof.
  unfold redact_url_credentials. fold separator.
  destruct (find_str separator url) as [i|] eqn:Hi; [|done].
  destruct (span _ _) as [authority rest].
  assert (∀ r, scheme (take (i + 3) url ++ r) = scheme url) as Hr; [|apply Hr]. intros r.
  unfold scheme. pose proof Hi as Hf. apply find_str_Some in Hf as (u & t & -> & ->). rewrite Hi.
  rewrite app_assoc, take_app_length' by (rewrite length_app; done). rewrite <- !app_assoc.
  rewrite (find_str_prefix _ _ _ r Hi). cbn [fmap option_fmap option_map]. by rewrite !take_app_length.
Qed.

(** What validation sees of a URL. *)
Lemma redact_starts_with s url :
  ":"%rc ∉ s → starts_with (s ++ separator) (redact_url_credentials url) = starts_with (s ++ separator) url.
Proof. intros Hs. apply eq_true_iff_eq. by rewrite !starts_with_scheme, scheme_redact. Qed.

Lemma contains_str_find p s : contains_str p s = bool_decide (is_Some (find_str p s)).
Proof.
  induction s as [|c s IH]; cbn [contains_str find_str].
  - by destruct (starts_with p []).
  - destruct (starts_with p (c :: s)); [done|]. cbn [orb]. rewrite IH.
    by destruct (find_str p s).
Qed.

Lemma redact_separator url :
  contains_str separator (redact_url_credentials url) = contains_str separator url.
Proof.
  rewrite !contains_str_find. apply bool_decide_ext.
  assert (∀ u, is_Some (find_str separator u) ↔ is_Some (scheme u)) as Hs.
  { intros u. unfold scheme. by rewrite fmap_is_Some. }
  by rewrite !Hs, scheme_redact.
Qed.

Lemma redact_nonempty url : is_empty_str (redact_url_credentials url) = is_empty_str url.
Proof.
  unfold redact_url_credentials. destruct (find_str _ url) as [i|] eqn:Hi; [|done].
  apply find_str_Some in Hi as (u & t & -> & ->). destruct (span _ _) as [a r].
  destruct u; [done|]. done.
Qed.

Lemma redact_scheme_matches p url : scheme_matches p (redact_url_credentials url) = scheme_matches p url.
Proof.
  destruct p; cbn [scheme_matches]; [| | |done].
  - apply (redact_starts_with "https"%rs); by apply (bool_decide_unpack _).
  - f_equal; [apply (redact_starts_with "quic"%rs); by apply (bool_decide_unpack _)|apply (redact_starts_with "h3"%rs); by apply (bool_decide_unpack _)].
  - f_equal. apply redact_separator.
Qed.

Lemma redact_http url : starts_with "http://"%rs (redact_url_credentials url) = starts_with "http://"%rs url.
Proof. apply (redact_starts_with "http"%rs); by apply (bool_decide_unpack _). Qed.
Lemma redact_https url : starts_with "https://"%rs (redact_url_credentials url) = starts_with "https://"%rs url.
Proof. apply (redact_starts_with "https"%rs); by apply (bool_decide_unpack _). Qed.

(** ** Validation *)

Lemma try_each_redact {E} (f : str → result E unit) l :
  (∀ url, f url = Ok () → f (redact_url_credentials url) = Ok ()) →
  try_each f l = Ok () → try_each f (redact_list l) = Ok ().
Proof.
  intros Hf. rewrite !try_each_ok. intros Hl. apply Forall_fmap. eapply list.Forall_impl; [exact Hl|].
  intros url. apply Hf.
Qed.

Lemma redact_list_nil l : bool_decide (redact_list l = []) = bool_decide (l = []).
Proof. by destruct l. Qed.

Lemma try_fold_map {A B E} (f : B → A → result E B) (g : A → A) l acc acc' :
  (∀ b x b', f b x = Ok b' → f b (g x) = Ok b') →
  try_fold f acc l = Ok acc' → try_fold f acc (g <$> l) = Ok acc'.
Proof.
  intros Hf. revert acc. induction l as [|x l IH]; intros acc Hr; [done|].
  cbn [try_fold fmap list_fmap] in *. run_ok. apply Hf in Hrun. rewrite Hrun. by apply IH.
Qed.

Lemma imap_pair_fmap {A B} (g : A → B) (l : list A) : imap pair (g <$> l) = prod_map id g <$> imap pair l.
Proof. rewrite imap_fmap, fmap_imap. done. Qed.

Ltac check_step :=
  match goal with
  | |- mbind _ _ = Ok _ => apply bind_ok; first [exists ()|eexists]; split; [first [eassumption|idtac]|]
  | |- reject_if _ _ = Ok _ => apply reject_if_ok
  end.

Lemma resolver_check_redact p url :
  resolver_check p url = Ok () → resolver_check p (redact_url_credentials url) = Ok ().
Proof.
  unfold resolver_check. rewrite redact_nonempty, redact_http, redact_scheme_matches. intros Hr. run_ok.
  by repeat check_step.
Qed.

Lemma route_url_check_redact idx zone p url :
  route_url_check idx zone p url = Ok () →
  route_url_check idx zone p (redact_url_credentials url) = Ok ().
Proof.
  unfold route_url_check. rewrite redact_nonempty, redact_http, !redact_scheme_matches. intros Hr. run_ok.
  destruct p; run_ok; by repeat check_step.
Qed.

Lemma odoh_checks_redact (u u' : UpstreamConfig) :
  upstream_protocol u' = upstream_protocol u → upstream_resolvers u' = redact_list (upstream_resolvers u) →
  upstream_odoh_proxies u' = redact_list (upstream_odoh_proxies u) →
  odoh_checks u = Ok () → odoh_checks u' = Ok ().
Proof.
  unfold odoh_checks. intros -> -> ->. rewrite redact_list_nil. case_bool_decide; [|done].
  intros Hr. run_ok. repeat check_step; [|done|]; (eapply try_each_redact; [|eassumption]);
    intros url; rewrite redact_https; intros Hu; run_ok; by check_step.
Qed.

Lemma upstream_checks_redact c :
  upstream_checks c = Ok () → upstream_checks (redacted_for_display c) = Ok ().
Proof.
  unfold upstream_checks. cbn [redacted_for_display cfg_upstream upstream_resolvers upstream_protocol
    upstream_timeout_ms upstream_max_cache_entries upstream_routes]. rewrite redact_list_nil.
  intros Hr. run_ok. rewrite imap_pair_fmap.
  repeat check_step; try done.
  - by apply (odoh_checks_redact (cfg_upstream c)).
  - eapply try_each_redact; [|eassumption]. apply resolver_check_redact.
  - eapply try_fold_map; [|eassumption]. clear. intros b [idx r] b' Hr.
    unfold route_check in *. cbn [prod_map route_zone route_resolvers route_protocol id] in *.
    rewrite redact_list_nil. run_ok. repeat check_step; try done.
    eapply try_each_redact; [|eassumption]. apply route_url_check_redact.
Qed.

Section blocklist.
Context `{RegexRules.RegexCrate}.

Lemma plain_http_redact {E} (e : str → E) l :
  try_each (λ url, reject_if (starts_with "http://"%rs url) (e url)) l = Ok () →
  try_each (λ url, reject_if (starts_with "http://"%rs url) (e url)) (redact_list l) = Ok ().
Proof.
  apply try_each_redact. intros url. rewrite redact_http. intros Hu. run_ok. by check_step.
Qed.

Lemma redact_list_app l l' : redact_list l ++ redact_list l' = redact_list (l ++ l').
Proof. unfold redact_list. by rewrite fmap_app. Qed.

Lemma group_check_redact seen seen' idx g :
  group_check seen (idx, g) = Ok seen' →
  group_check seen (idx, {| group_name := group_name g; group_sources := redact_list (group_sources g);
    group_local_files := group_local_files g;
    group_trusted_rpz_sources := redact_list (group_trusted_rpz_sources g);
    group_allowlist := group_allowlist g |}) = Ok seen'.
Proof.
  unfold group_check. cbn [group_name group_sources group_trusted_rpz_sources group_allowlist].
  rewrite redact_list_app. intros Hr. run_ok. repeat check_step; try done. by apply plain_http_redact.
Qed.

Lemma source_checks_redact c :
  source_checks (cfg_blocklist c) = Ok () → source_checks (cfg_blocklist (redacted_for_display c)) = Ok ().
Proof.
  unfold source_checks. cbn [redacted_for_display cfg_blocklist blocklist_sources
    blocklist_trusted_rpz_sources blocklist_fetch_timeout_ms blocklist_max_fetch_bytes
    blocklist_reload_interval_secs].
  intros Hr. run_ok. repeat check_step; try done; by apply plain_http_redact.
Qed.

Lemma blocklist_checks_redact c :
  blocklist_checks (cfg_blocklist c) = Ok () →
  blocklist_checks (cfg_blocklist (redacted_for_display c)) = Ok ().
Proof.
  unfold blocklist_checks. intros Hr. apply bind_ok in Hr as (u & Hs & Hr). destruct u.
  apply bind_ok. exists (). split; [by apply source_checks_redact|].
  cbn [redacted_for_display cfg_blocklist blocklist_block_response blocklist_sinkhole_ip
    blocklist_response_ip_denylist blocklist_regex_rules blocklist_allowlist blocklist_groups].
  repeat (apply bind_ok in Hr as (? & ? & Hr); apply bind_ok; eexists; split;
    [first [eassumption|rewrite imap_pair_fmap; eapply try_fold_map; [|eassumption];
       intros seen [idx g] seen'; apply group_check_redact]|]).
  exact Hr.
Qed.

(** The groups keep their names, so a policy finds its own. *)
Lemma policy_check_redact c idx p :
  policy_check (cfg_blocklist (redacted_for_display c)) idx p = policy_check (cfg_blocklist c) idx p.
Proof.
  unfold policy_check. cbn [redacted_for_display cfg_blocklist blocklist_groups].
  assert (∀ g gs, existsb (λ grp, str_eqb (group_name grp) g)
    ((λ g, {| group_name := group_name g; group_sources := redact_list (group_sources g);
              group_local_files := group_local_files g;
              group_trusted_rpz_sources := redact_list (group_trusted_rpz_sources g);
              group_allowlist := group_allowlist g |}) <$> gs)
    = existsb (λ grp, str_eqb (group_name grp) g) gs) as Hg.
  { intros g gs. induction gs as [|x gs IH]; [done|]. cbn. by rewrite <- IH. }
  by destruct (policy_blocklist_group p) as [g|]; [rewrite Hg|].
Qed.

(** A valid configuration stays valid when the credentials in its URLs are redacted. *)
Lemma validate_redacted c :
  validate_config c = Ok () → validate_config (redacted_for_display c) = Ok ().
Proof.
  unfold validate_config.
  intros ([] & H1 & ([] & H2 & ([] & H3 & ([] & H4 & ([] & H5 & ([] & H6 & ([] & H7 & H8
    )%bind_ok)%bind_ok)%bind_ok)%bind_ok)%bind_ok)%bind_ok)%bind_ok.
  apply bind_ok; exists (); split; [exact H1|].
  apply bind_ok; exists (); split; [by apply upstream_checks_redact|].
  apply bind_ok; exists (); split; [by apply blocklist_checks_redact|].
  apply bind_ok; exists (); split; [exact H4|].
  apply bind_ok; exists (); split; [exact H5|].
  apply bind_ok; exists (); split; [exact H6|].
  apply bind_ok; exists (); split; [|exact H8].
  rewrite try_enumerate_ok in *. intros i p Hp. rewrite policy_check_redact. eauto.
Qed.
End blocklist.
