(* ===== verification/Allowlist.v ===== *)
(** * Allowlist: names that are never blocked
    ([rustydns-blocklist/src/allowlist.rs])

    Exact names and suffixes are kept in two sets, and a lookup walks up the
    labels of the query.  The specification says which names an entry allows. *)

From S2P Require Import Prelude RustStr.

Record Allowlist := {
  exact : gset str;
  suffixes : gset str;
}.

Definition Allowlist_default : Allowlist := {| exact := ∅; suffixes := ∅ |}.

(** The walk over [rest]: every suffix of it that starts at a dot, the longest
    first. *)
Fixpoint suffix_walk (fuel : nat) (hit : str → bool) (rest : str) : bool :=
  match fuel with
  | O => false
  | S fuel =>
      match find "."%rc rest with
      | None => false
      | Some dot_pos =>
          let rest := drop dot_pos rest in
          if hit rest then true else suffix_walk fuel hit (drop 1 rest)
      end
  end.

Section allowlist.
Context `{Unicode}.

Definition add_entry (a : Allowlist) (entry : str) : Allowlist :=
  let entry := to_lowercase (trim entry) in
  let entry := trim_end_matches "."%rc entry in
  if is_empty_str entry then a
  else
    match strip_prefix "*."%rs entry with
    | Some rest => {| exact := exact a; suffixes := {["."%rs ++ rest]} ∪ suffixes a |}
    | None =>
        if starts_with "."%rs entry
        then {| exact := exact a; suffixes := {[entry]} ∪ suffixes a |}
        else {| exact := {[entry]} ∪ exact a; suffixes := suffixes a |}
    end.

Definition from_entries (entries : list str) : Allowlist :=
  foldl add_entry Allowlist_default entries.

Definition extend_exact (a : Allowlist) (entries : list str) : Allowlist :=
  foldl (λ a entry,
    let entry := to_lowercase (trim_end_matches "."%rc (trim entry)) in
    if is_empty_str entry then a
    else {| exact := {[entry]} ∪ exact a; suffixes := suffixes a |}) a entries.
End allowlist.

Definition is_allowed (a : Allowlist) (domain : str) : bool :=
  let domain := trim_end_matches "."%rc domain in
  if is_empty_str domain then false
  else
    let domain := if existsb is_ascii_uppercase domain then to_ascii_lowercase domain else domain in
    if bool_decide (domain ∈ exact a) then true
    else suffix_walk (S (length domain)) (λ s, bool_decide (s ∈ suffixes a)) domain.

Definition len (a : Allowlist) : nat := (size (exact a) + size (suffixes a))%nat.
Definition is_empty (a : Allowlist) : bool :=
  bool_decide (exact a = ∅) && bool_decide (suffixes a = ∅).

(** ** The walk *)

(** With more fuel than characters, the walk finds a hit exactly when some
    suffix that starts at a dot is one. *)
Lemma suffix_walk_spec fuel hit rest :
  (length rest < fuel)%nat →
  suffix_walk fuel hit rest = true ↔ ∃ k b, rest = k ++ "."%rc :: b ∧ hit ("."%rc :: b) = true.
Proof.
  revert rest. induction fuel as [|fuel IH]; intros rest Hf; [lia|]. cbn [suffix_walk].
  destruct (find "."%rc rest) as [i|] eqn:E.
  - apply find_split in E as (k & b & -> & Hn & -> & _ & -> & _). cbn [drop].
    destruct (hit ("."%rc :: b)) eqn:Hh; [split; [by eauto|done]|].
    rewrite length_app in Hf. simpl in Hf. rewrite drop_0, IH by lia. split.
    + intros (k' & b' & -> & ?). exists (k ++ "."%rc :: k'), b'. by rewrite <- app_assoc.
    + intros (k' & b' & Heq & ?). apply (first_cut _ _ _ _ _ Hn) in Heq.
      destruct Heq as [[-> ->]|(l & -> & ->)]; [congruence|eauto].
  - apply find_None in E. split; [done|]. intros (k & b & -> & _). exfalso. apply E. set_solver.
Qed.

(** ** Specification *)

(** The form in which a query is compared: lowercase, no trailing dot. *)
Definition normal (domain : str) : str :=
  to_ascii_lowercase (trim_end_matches "."%rc domain).

(** A configured entry as a rule: the exact name, or the suffix with its dot. *)
Inductive allow_rule := RuleExact (name : str) | RuleSuffix (suffix : str).

Definition rule_allows (r : allow_rule) (d : str) : Prop :=
  match r with
  | RuleExact name => d = name
  | RuleSuffix suffix => ∃ k, d = k ++ suffix
  end.

Section spec.
Context `{Unicode}.

Definition rule_of (entry : str) : option allow_rule :=
  let e := trim_end_matches "."%rc (to_lowercase (trim entry)) in
  match e with
  | [] => None
  | c :: _ =>
      match strip_prefix "*."%rs e with
      | Some rest => Some (RuleSuffix ("."%rc :: rest))
      | None => if c =? "."%rc then Some (RuleSuffix e) else Some (RuleExact e)
      end
  end.

Definition entries_allow (entries : list str) (d : str) : Prop :=
  ∃ e r, e ∈ entries ∧ rule_of e = Some r ∧ rule_allows r d.

(** The rule sets grow by exactly the rule of the entry. *)
Definition has_rule (a : Allowlist) (r : allow_rule) : Prop :=
  match r with RuleExact n => n ∈ exact a | RuleSuffix s => s ∈ suffixes a end.

Lemma add_entry_has_rule a e r :
  has_rule (add_entry a e) r ↔ has_rule a r ∨ rule_of e = Some r.
Proof.
  unfold add_entry, rule_of. set (e' := trim_end_matches _ _).
  destruct e' as [|c e']; simpl is_empty_str; cbv iota.
  { split; [by left|by intros [?|?]]. }
  destruct (strip_prefix "*."%rs (c :: e')) as [rest|]; cbv iota.
  { destruct r; simpl; [split; [by left|by intros [?|?]]|].
    rewrite elem_of_union, elem_of_singleton. split; [intros [->|?]|intros [?|[= <-]]]; auto. }
  assert (starts_with "."%rs (c :: e') = (c =? "."%rc)) as ->.
  { unfold starts_with. cbn [strip_prefix]. rewrite Z.eqb_sym. by destruct (c =? _). }
  destruct (c =? "."%rc), r; simpl; rewrite ?elem_of_union, ?elem_of_singleton;
    (split; [|intros [?|?]; try done; simplify_eq; auto]); intros; try by left.
  all: match goal with H : _ ∨ _ |- _ => destruct H; subst; auto end.
Qed.

Lemma from_entries_has_rule entries r :
  has_rule (from_entries entries) r ↔ ∃ e, e ∈ entries ∧ rule_of e = Some r.
Proof.
  unfold from_entries.
  enough (∀ a, has_rule (foldl add_entry a entries) r ↔
    has_rule a r ∨ ∃ e, e ∈ entries ∧ rule_of e = Some r) as ->.
  { split; [|by right]. intros [Hr|?]; [|done]. destruct r; cbn in Hr; set_solver. }
  induction entries as [|e es IH]; intros a; simpl.
  { split; [by left|]. intros [?|(? & ?%elem_of_nil & _)]; done. }
  rewrite IH, add_entry_has_rule. split.
  - intros [[?|?]|(e' & ? & ?)]; [by left|right; exists e|right; exists e']; (split; [|done]);
      [left|by right].
  - intros [?|(e' & [->|?]%elem_of_cons & ?)]; [auto..|right; eauto].
Qed.
End spec.

(** Every suffix rule starts with its dot. *)
Definition dotted (a : Allowlist) : Prop := ∀ s, s ∈ suffixes a → ∃ b, s = "."%rc :: b.

Lemma from_entries_dotted `{Unicode} entries : dotted (from_entries entries).
Proof.
  intros s Hs. apply (from_entries_has_rule entries (RuleSuffix s)) in Hs as (e & _ & Hr).
  unfold rule_of in Hr. case_match; [done|]. case_match; simplify_eq; [eauto|].
  destruct (Z.eqb_spec z "."%rc); simplify_eq. eauto.
Qed.

Lemma extend_exact_suffixes `{Unicode} a entries : suffixes (extend_exact a entries) = suffixes a.
Proof.
  unfold extend_exact. revert a. induction entries as [|e es IH]; intros a; simpl; [done|].
  rewrite IH. by case_match.
Qed.

Lemma extend_exact_exact `{Unicode} a entries n :
  n ∈ exact (extend_exact a entries) ↔ n ∈ exact a ∨
  n ≠ [] ∧ ∃ e, e ∈ entries ∧ n = to_lowercase (trim_end_matches "."%rc (trim e)).
Proof.
  unfold extend_exact. revert a. induction entries as [|e es IH]; intros a; simpl.
  { split; [by left|]. intros [?|(_ & ? & ?%elem_of_nil & _)]; done. }
  rewrite IH. destruct (to_lowercase _) as [|c e'] eqn:E; simpl.
  - split; (intros [?|(? & e0 & He & Hn)]; [by left|right; split; [done|]]); [set_solver|].
    apply elem_of_cons in He as [->|He]; [congruence|eauto].
  - rewrite elem_of_union, elem_of_singleton. split.
    + intros [[->|?]|(? & e0 & ? & ?)]; [right|by left|right]; (split; [done|]).
      * exists e. split; [left|done].
      * exists e0. split; [by right|done].
    + intros [?|(? & e0 & [->|?]%elem_of_cons & ?)]; [auto|left; left; congruence|right; eauto].
Qed.

Lemma lower_if_needed s :
  (if existsb is_ascii_uppercase s then to_ascii_lowercase s else s) = to_ascii_lowercase s.
Proof. case_match; [done|]. by rewrite to_ascii_lowercase_id. Qed.

Lemma is_empty_str_false s : is_empty_str s = false ↔ s ≠ [].
Proof. by destruct s. Qed.

Lemma normal_nil d : normal d = [] ↔ trim_end_matches "."%rc d = [].
Proof. unfold normal. by destruct (trim_end_matches "."%rc d). Qed.

Lemma normal_idemp d : normal (normal d) = normal d.
Proof.
  unfold normal. rewrite trim_end_matches_lower, to_ascii_lowercase_idemp.
  f_equal. apply drop_while_end_idemp.
Qed.

Lemma is_allowed_sets a d :
  is_allowed a d = true ↔ normal d ≠ [] ∧
  (normal d ∈ exact a ∨ ∃ k b, normal d = k ++ "."%rc :: b ∧ "."%rc :: b ∈ suffixes a).
Proof.
  unfold is_allowed. rewrite lower_if_needed. fold (normal d).
  destruct (is_empty_str (trim_end_matches "."%rc d)) eqn:E.
  { split; [done|]. intros [Hn _]. exfalso. apply Hn, normal_nil. by destruct (trim_end_matches _ d). }
  apply is_empty_str_false in E. rewrite <- normal_nil in E.
  case_bool_decide as Hx; [split; auto|].
  rewrite suffix_walk_spec by lia. split.
  - intros (k & b & ? & ?%bool_decide_eq_true). eauto 6.
  - intros (_ & [?|(k & b & ? & ?)]); [done|]. exists k, b. by rewrite bool_decide_eq_true.
Qed.

(** The query's case and trailing dots do not matter. *)
Lemma is_allowed_normal a d d' : normal d = normal d' → is_allowed a d = is_allowed a d'.
Proof.
  intros Hd. apply eq_true_iff_eq. by rewrite !is_allowed_sets, Hd.
Qed.

Lemma from_entries_sets `{Unicode} (entries : list str) (n : str) :
  (n ∈ exact (from_entries entries)
   ∨ ∃ k b, n = k ++ "."%rc :: b ∧ "."%rc :: b ∈ suffixes (from_entries entries))
  ↔ entries_allow entries n.
Proof.
  split.
  - intros [Hx|(k & b & -> & Hs)].
    + apply (from_entries_has_rule entries (RuleExact _)) in Hx as (e & ? & ?).
      by exists e, (RuleExact n).
    + apply (from_entries_has_rule entries (RuleSuffix _)) in Hs as (e & ? & ?).
      exists e, (RuleSuffix ("."%rc :: b)). split; [done|]. split; [done|]. by exists k.
  - intros (e & r & He & Hr & Hd).
    assert (has_rule (from_entries entries) r) as Hh by (apply from_entries_has_rule; eauto).
    destruct r as [name|s]; simpl in Hh, Hd.
    + left. by rewrite Hd.
    + right. destruct Hd as [k ->]. destruct (from_entries_dotted _ _ Hh) as [b ->]. eauto.
Qed.

(** ** Properties *)

(** A configured allowlist allows a query exactly when one of its entries does: an
    exact entry allows that one name, and [*.x] or [.x] allows every name that ends
    in [.x], never [x] itself; entry and query are compared without their case and
    trailing dots, and the empty (root) name is never allowed. *)
Theorem from_entries_allowed `{Unicode} (entries : list str) (d : str) :
  is_allowed (from_entries entries) d = true ↔
  normal d ≠ [] ∧ entries_allow entries (normal d).
Proof. by rewrite is_allowed_sets, from_entries_sets. Qed.
