(* ===== verification/BlocklistParser.v ===== *)
(** * BlocklistParser: the four blocklist formats
    ([rustydns-blocklist/src/parser.rs])

    Format detection, the hosts, plain, RPZ and AdGuard parsers, and the domain
    validation they share.  Warnings and traces are omitted. *)

From S2P Require Import Prelude RustStr Net.

Definition MAX_LINE_BYTES : Z := 512.
Definition MAX_DOMAIN_BYTES : Z := 253.
Definition MAX_LABEL_BYTES : Z := 63.

Inductive ParsedEntry :=
| Exact (d : str)
| WildcardParent (d : str)
| Allow (d : str).

#[export] Instance ParsedEntry_eq_dec : EqDecision ParsedEntry.
Proof. solve_decision. Defined.

Inductive ListFormat := Hosts | Plain | Rpz | AdGuard.

(** ** Helpers *)

Definition strip_comment (line : str) (marker : Z) : str :=
  match find marker line with Some pos => take pos line | None => line end.

Definition is_ip_address (s : str) : bool :=
  match parse_ipv4 s with
  | Some _ => true
  | None => match parse_ipv6 s with Some _ => true | None => false end
  end.

Definition always_skipped : list str :=
  ["localhost"%rs; "broadcasthost"%rs; "local"%rs; "ip6-localhost"%rs; "ip6-loopback"%rs;
   "ip6-localnet"%rs; "ip6-mcastprefix"%rs; "ip6-allnodes"%rs; "ip6-allrouters"%rs;
   "ip6-allhosts"%rs].
Definition is_always_skipped (domain : str) : bool := bool_decide (domain ∈ always_skipped).

(** ** Domain validation *)

Definition label_ok (label : str) : bool :=
  negb (MAX_LABEL_BYTES <? str_len label) && negb (is_empty_str label).

Definition validate_and_normalize (s : str) : option str :=
  let s := trim_end_matches "."%rc (trim s) in
  if is_empty_str s then None
  else if existsb (λ b, is_ascii_control b || negb (is_ascii_char b)) s then None
  else
    let lower := to_ascii_lowercase s in
    if MAX_DOMAIN_BYTES <? str_len lower then None
    else if forallb label_ok (split "."%rc lower) then Some lower else None.

Definition validate_allow_entry (s : str) : option str :=
  d ← validate_and_normalize s;
  if negb (contains "."%rc d) then None else Some d.

Definition validate_block_entry (s : str) : option str :=
  d ← validate_and_normalize s;
  if negb (contains "."%rc d) then None else Some d.

(** ** Format detection *)

Definition rpz_types : list str :=
  ["CNAME"%rs; "A"%rs; "AAAA"%rs; "TXT"%rs; "SOA"%rs; "NS"%rs].

Definition detect_line (line : str) : ListFormat :=
  if (starts_with "||"%rs line || starts_with "@@||"%rs line) && contains "^"%rc line then AdGuard
  else
    let parts := split_whitespace line in
    match parts with
    | _ :: typ :: _ :: _ =>
        if bool_decide (to_ascii_uppercase typ ∈ rpz_types) then Rpz
        else if is_ip_address (default [] (head parts)) then Hosts else Plain
    | ip :: _ :: _ => if is_ip_address ip then Hosts else Plain
    | _ => Plain
    end.

Fixpoint detect_lines (ls : list str) : ListFormat :=
  match ls with
  | [] => Plain
  | line :: ls =>
      let line := trim line in
      if is_empty_str line || starts_with "#"%rs line || starts_with ";"%rs line
         || starts_with "!"%rs line || starts_with "["%rs line
      then detect_lines ls else detect_line line
  end.

Definition detect_format (content : str) : ListFormat := detect_lines (lines content).

(** ** The parsers, line by line *)

Definition block_exact (s : str) : list ParsedEntry :=
  match validate_block_entry s with
  | Some d => if negb (is_always_skipped d) then [Exact d] else []
  | None => []
  end.

Definition allow_entry (s : str) : list ParsedEntry :=
  match validate_allow_entry s with Some d => [Allow d] | None => [] end.

Definition hosts_line (line : str) : list ParsedEntry :=
  if MAX_LINE_BYTES <? str_len line then []
  else
    let line := trim (strip_comment line "#"%rc) in
    if is_empty_str line then []
    else match split_whitespace line with
         | ip :: parts => if is_ip_address ip then concat (block_exact <$> parts) else []
         | [] => []
         end.

Definition plain_line (line : str) : list ParsedEntry :=
  if MAX_LINE_BYTES <? str_len line then []
  else
    let line := strip_comment line "#"%rc in
    let line := strip_comment line ";"%rc in
    let line := trim line in
    if is_empty_str line || contains " "%rc line || contains 9 line then []
    else block_exact line.

Definition adguard_line (line : str) : list ParsedEntry :=
  if MAX_LINE_BYTES <? str_len line then []
  else
    let line := trim line in
    if is_empty_str line || starts_with "!"%rs line || starts_with "["%rs line then []
    else
      match strip_prefix "@@||"%rs line with
      | Some rest =>
          match find "^"%rc rest with
          | Some caret =>
              let domain_part := take caret rest in
              if negb (contains "/"%rc domain_part) then allow_entry domain_part else []
          | None => []
          end
      | None =>
          match strip_prefix "||"%rs line with
          | Some rest =>
              match find "^"%rc rest with
              | Some caret =>
                  let domain_part := take caret rest in
                  if contains "/"%rc domain_part then []
                  else match validate_block_entry domain_part with
                       | Some d =>
                           if negb (is_always_skipped d)
                           then [Exact d; WildcardParent d] else []
                       | None => []
                       end
              | None => []
              end
          | None => []
          end
      end.

Definition parse_hosts (content : str) : list ParsedEntry := concat (hosts_line <$> lines content).
Definition parse_plain (content : str) : list ParsedEntry := concat (plain_line <$> lines content).
Definition parse_adguard (content : str) : list ParsedEntry := concat (adguard_line <$> lines content).

Section parser.
Context `{Unicode}.

Definition rpz_line (line : str) : list ParsedEntry :=
  if MAX_LINE_BYTES <? str_len line then []
  else
    let line := strip_comment line ";"%rc in
    let line := strip_comment line "#"%rc in
    let line := trim line in
    if is_empty_str line then []
    else match split_whitespace line with
         | name :: rtype :: rdata :: _ =>
             let rtype := to_ascii_uppercase rtype in
             let rdata := to_lowercase rdata in
             if negb (str_eqb rtype "CNAME"%rs) then []
             else if str_eqb rdata "rpz-passthru."%rs || str_eqb rdata "rpz-passthru"%rs
             then allow_entry name
             else if str_eqb rdata "."%rs then
               match strip_prefix "*."%rs name with
               | Some parent =>
                   match validate_block_entry parent with
                   | Some d => [WildcardParent d]
                   | None => []
                   end
               | None => block_exact name
               end
             else []
         | _ => []
         end.

Definition parse_rpz (content : str) : list ParsedEntry := concat (rpz_line <$> lines content).

Definition parse (content : str) : list ParsedEntry :=
  match detect_format content with
  | Hosts => parse_hosts content
  | Plain => parse_plain content
  | Rpz => parse_rpz content
  | AdGuard => parse_adguard content
  end.
End parser.

(** ** Validity of what is loaded *)

Definition entry_name (e : ParsedEntry) : str :=
  match e with Exact d | WildcardParent d | Allow d => d end.

(** A name that can match a query: lowercase printable ASCII, at most 253 bytes, at
    least two labels, each of 1 to 63 bytes. *)
Record valid_domain (d : str) : Prop := {
  valid_chars : Forall (λ c, 32 <= c <= 126 ∧ is_ascii_uppercase c = false) d;
  valid_len : str_len d <= 253;
  valid_labels : Forall (λ l, 1 <= str_len l <= 63) (split "."%rc d);
  valid_two_labels : (2 <= length (split "."%rc d))%nat;
}.

Lemma utf8_width_pos c : 1 <= utf8_width c.
Proof. unfold utf8_width. repeat case_match; lia. Qed.

Lemma str_len_nonneg s : 0 <= str_len s.
Proof. induction s as [|c s IH]; simpl; [lia|]. pose proof (utf8_width_pos c). lia. Qed.

Lemma label_ok_spec l : label_ok l = true → 1 <= str_len l <= 63.
Proof.
  unfold label_ok, MAX_LABEL_BYTES. intros H. bools. split; [|done].
  destruct l as [|c l]; [done|]. simpl.
  pose proof (utf8_width_pos c). pose proof (str_len_nonneg l). lia.
Qed.

Lemma lower_printable c :
  is_ascii_control c || negb (is_ascii_char c) = false →
  32 <= lower_char c <= 126 ∧ is_ascii_uppercase (lower_char c) = false.
Proof.
  intros Hc. split; [|apply lower_char_not_upper].
  unfold is_ascii_control, is_ascii_char, lower_char, is_ascii_uppercase in *. bools.
  repeat match goal with
  | H : _ && _ = false |- _ => apply andb_false_iff in H; destruct H
  end; bools; repeat case_match; bools; lia.
Qed.

Lemma validate_and_normalize_spec s d :
  validate_and_normalize s = Some d →
  Forall (λ c, 32 <= c <= 126 ∧ is_ascii_uppercase c = false) d
  ∧ str_len d <= 253 ∧ Forall (λ l, 1 <= str_len l <= 63) (split "."%rc d).
Proof.
  unfold validate_and_normalize. set (t := trim_end_matches _ _).
  destruct (is_empty_str t); [done|].
  destruct (existsb _ t) eqn:Hc; [done|].
  destruct (Z.ltb_spec MAX_DOMAIN_BYTES (str_len (to_ascii_lowercase t))); [done|].
  destruct (forallb label_ok _) eqn:Hl; [|done]. intros [= <-].
  split; [|split; [done|]].
  - clear -Hc. induction t as [|c t IH]; simpl in *; [constructor|].
    apply orb_false_iff in Hc as [Hc Ht]. constructor; [by apply lower_printable|by apply IH].
  - apply list.Forall_forall. intros l Hin. apply label_ok_spec.
    by apply (proj1 (forallb_elem_of _ _) Hl).
Qed.

Lemma validate_entry_valid s d :
  validate_block_entry s = Some d ∨ validate_allow_entry s = Some d → valid_domain d.
Proof.
  intros Hs. assert (∃ d', validate_and_normalize s = Some d' ∧
    (if negb (contains "."%rc d') then None else Some d') = Some d) as (d' & Hd & Hc).
  { by destruct Hs as [H|H]; apply bind_Some in H. }
  destruct (contains "."%rc d') eqn:E; [|done]. injection Hc as ->.
  apply validate_and_normalize_spec in Hd as (? & ? & ?). constructor; try done.
  apply split_by_length. exact E.
Qed.

Lemma block_exact_valid s e : e ∈ block_exact s → valid_domain (entry_name e).
Proof.
  unfold block_exact. destruct (validate_block_entry s) as [d|] eqn:E; [|by intros ?%elem_of_nil].
  case_match; [|by intros ?%elem_of_nil]. intros ->%list_elem_of_singleton.
  apply (validate_entry_valid s). by left.
Qed.

Lemma allow_entry_valid s e : e ∈ allow_entry s → valid_domain (entry_name e).
Proof.
  unfold allow_entry. destruct (validate_allow_entry s) as [d|] eqn:E; [|by intros ?%elem_of_nil].
  intros ->%list_elem_of_singleton. apply (validate_entry_valid s). by right.
Qed.
#[export] Hint Resolve block_exact_valid allow_entry_valid : rust.

Lemma elem_of_concat_fmap {A B} (f : A → list B) l y :
  y ∈ concat (f <$> l) ↔ ∃ x, x ∈ l ∧ y ∈ f x.
Proof.
  induction l as [|x l IH]; simpl; [set_solver|]. rewrite elem_of_app, IH. set_solver.
Qed.

(** Follow a line parser to the entry it produced. *)
Ltac line_cases H :=
  repeat (case_match; try solve [by apply elem_of_nil in H]; eauto with rust).

Lemma hosts_line_valid line e : e ∈ hosts_line line → valid_domain (entry_name e).
Proof.
  unfold hosts_line. intros H. line_cases H.
  apply elem_of_concat_fmap in H as (x & _ & H). eauto with rust.
Qed.

Lemma plain_line_valid line e : e ∈ plain_line line → valid_domain (entry_name e).
Proof. unfold plain_line. intros H. line_cases H. Qed.

Lemma adguard_line_valid line e : e ∈ adguard_line line → valid_domain (entry_name e).
Proof.
  unfold adguard_line. intros H. line_cases H.
  match goal with Hv : validate_block_entry _ = Some ?d |- _ =>
    pose proof (validate_entry_valid _ _ (or_introl Hv)) end.
  rewrite !elem_of_cons, elem_of_nil in H. by destruct H as [->|[->|]].
Qed.

Lemma rpz_line_valid `{Unicode} line e : e ∈ rpz_line line → valid_domain (entry_name e).
Proof.
  unfold rpz_line. intros He. line_cases He.
  apply list_elem_of_singleton in He as ->. eapply validate_entry_valid. by left.
Qed.

(** ** Properties *)

(** C40. Every entry any of the parsers yields, from any content whatever, is a valid
    domain: lowercase printable ASCII, at most 253 bytes, at least two labels of 1
    to 63 bytes.  In particular no source can block or allow a top-level domain. *)
Theorem parse_entries_valid `{Unicode} (content : str) (e : ParsedEntry) :
  e ∈ parse content → valid_domain (entry_name e).
Proof.
  unfold parse, parse_hosts, parse_plain, parse_rpz, parse_adguard.
  destruct (detect_format content); intros (line & _ & He)%elem_of_concat_fmap.
  - by eapply hosts_line_valid.
  - by eapply plain_line_valid.
  - by eapply rpz_line_valid.
  - by eapply adguard_line_valid.
Qed.

(** An AdGuard line with a mixed-case name. *)
Lemma parse_entries_valid_witness : valid_domain "ads.example.com"%rs.
Proof.
  apply (@parse_entries_valid ascii_only "||ADS.Example.com^"%rs (Exact "ads.example.com"%rs)).
  apply (bool_decide_eq_true_1 (_ ∈ _)). vm_compute. reflexivity.
Defined.
