(* ===== verification/Engine.v ===== *)
(** * Engine: the blocklist engine
    ([rustydns-blocklist/src/engine.rs])

    A state of sets, allowlist and regex rules is built from the sources and
    swapped in as a whole; the [ArcSwap] cells are the fields of the engine record
    and a store is a record update.  Wall-clock time is an argument, logging is
    omitted. *)

From S2P Require Import Prelude RustStr Net Config.
From S2P Require Import Allowlist.
From S2P Require IpDenylist RegexRules BlocklistParser.
Import BlocklistParser(ParsedEntry, Exact, WildcardParent, Allow, ParsedEntry_eq_dec).

Inductive BlocklistSource := Trusted | Untrusted.
#[export] Instance BlocklistSource_eq_dec : EqDecision BlocklistSource.
Proof. solve_decision. Defined.

Section engine.
Context `{Unicode} `{RegexRules.RegexCrate}.

Record BlocklistState := {
  domains : gset str;
  wildcard_parents : gset str;
  allowlist : Allowlist;
  regex_rules : RegexRules.RegexRules;
  entry_count : Z;
  heap_bytes : Z;
  loaded_at : Z;
  untrusted_allows_discarded : Z;
}.

Definition new_empty (allow : Allowlist) (now : Z) : BlocklistState :=
  {| domains := ∅; wildcard_parents := ∅; allowlist := allow;
     regex_rules := RegexRules.regex_default; entry_count := 0; heap_bytes := 0;
     loaded_at := now; untrusted_allows_discarded := 0 |}.

(** The walk of [is_blocked] over the parents of [rest]. *)
Fixpoint parent_walk (fuel : nat) (hit : str → bool) (rest : str) : bool :=
  match fuel with
  | O => false
  | S fuel =>
      match find "."%rc rest with
      | None => false
      | Some dot_pos =>
          let rest := drop (dot_pos + 1) rest in
          if hit rest then true else parent_walk fuel hit rest
      end
  end.

Definition state_is_blocked (st : BlocklistState) (domain : str) : bool :=
  let domain := trim_end_matches "."%rc domain in
  if is_empty_str domain then false
  else
    let domain := if existsb is_ascii_uppercase domain then to_lowercase domain else domain in
    if is_allowed (allowlist st) domain then false
    else if bool_decide (domain ∈ domains st) then true
    else if parent_walk (S (length domain)) (λ p, bool_decide (p ∈ wildcard_parents st)) domain
    then true
    else RegexRules.is_match (regex_rules st) domain.

Record BlocklistEngine := {
  state : BlocklistState;
  config : BlocklistConfig;
  response_ip_denylist : IpDenylist.IpDenylist;
  engine_regex_rules : RegexRules.RegexRules;
  groups : gmap str BlocklistState;
}.

Definition with_regex (st : BlocklistState) (r : RegexRules.RegexRules) : BlocklistState :=
  {| domains := domains st; wildcard_parents := wildcard_parents st;
     allowlist := allowlist st; regex_rules := r; entry_count := entry_count st;
     heap_bytes := heap_bytes st; loaded_at := loaded_at st;
     untrusted_allows_discarded := untrusted_allows_discarded st |}.

(** [HashMap::from_iter]: a later group of the same name replaces an earlier one. *)
Definition initial_groups (gs : list BlocklistGroup) (r : RegexRules.RegexRules) (now : Z) :
    gmap str BlocklistState :=
  foldl (λ m g,
    <[group_name g :=
        with_regex (new_empty (from_entries (group_allowlist g)) now) r]> m) ∅ gs.

Definition new (config : BlocklistConfig) (now : Z) : BlocklistEngine :=
  let allow := from_entries (blocklist_allowlist config) in
  let denylist := match IpDenylist.parse (blocklist_response_ip_denylist config) with
                  | Ok d => d
                  | Err _ => IpDenylist.default_denylist
                  end in
  let regex := match RegexRules.compile (blocklist_regex_rules config) with
               | Ok r => r
               | Err _ => RegexRules.regex_default
               end in
  {| state := with_regex (new_empty allow now) regex;
     config := config;
     response_ip_denylist := denylist;
     engine_regex_rules := regex;
     groups := initial_groups (blocklist_groups config) regex now |}.

(** One parsed entry of a source; the second component collects the allow
    entries of trusted sources. *)
Definition load_entry (trust : BlocklistSource) (acc : BlocklistState * list str)
    (entry : ParsedEntry) : BlocklistState * list str :=
  let '(st, trusted_allows) := acc in
  match entry with
  | Exact d =>
      ({| domains := {[d]} ∪ domains st; wildcard_parents := wildcard_parents st;
          allowlist := allowlist st; regex_rules := regex_rules st;
          entry_count := entry_count st; heap_bytes := heap_bytes st;
          loaded_at := loaded_at st;
          untrusted_allows_discarded := untrusted_allows_discarded st |}, trusted_allows)
  | WildcardParent p =>
      ({| domains := domains st; wildcard_parents := {[p]} ∪ wildcard_parents st;
          allowlist := allowlist st; regex_rules := regex_rules st;
          entry_count := entry_count st; heap_bytes := heap_bytes st;
          loaded_at := loaded_at st;
          untrusted_allows_discarded := untrusted_allows_discarded st |}, trusted_allows)
  | Allow d =>
      match trust with
      | Trusted => (st, trusted_allows ++ [d])
      | Untrusted =>
          ({| domains := domains st; wildcard_parents := wildcard_parents st;
              allowlist := allowlist st; regex_rules := regex_rules st;
              entry_count := entry_count st; heap_bytes := heap_bytes st;
              loaded_at := loaded_at st;
              untrusted_allows_discarded := (untrusted_allows_discarded st + 1) mod 2 ^ 32 |},
           trusted_allows)
      end
  end.

Definition load_source (acc : BlocklistState * list str) (src : str * BlocklistSource) :
    BlocklistState * list str :=
  foldl (load_entry src.2) acc (BlocklistParser.parse src.1).

Definition build_state (e : BlocklistEngine) (sources : list (str * BlocklistSource))
    (allowlist_entries : list str) (now : Z) : BlocklistState :=
  let '(st, trusted_allows) :=
    foldl load_source (new_empty (from_entries allowlist_entries) now, []) sources in
  let allow := if bool_decide (trusted_allows = []) then allowlist st
               else extend_exact (allowlist st) trusted_allows in
  let count := Z.of_nat (size (domains st)) + Z.of_nat (size (wildcard_parents st)) in
  {| domains := domains st; wildcard_parents := wildcard_parents st;
     allowlist := allow; regex_rules := engine_regex_rules e;
     entry_count := count; heap_bytes := count * 80; loaded_at := loaded_at st;
     untrusted_allows_discarded := untrusted_allows_discarded st |}.

Definition load_many_with_trust (e : BlocklistEngine)
    (sources : list (str * BlocklistSource)) (now : Z) : BlocklistEngine :=
  {| state := build_state e sources (blocklist_allowlist (config e)) now;
     config := config e; response_ip_denylist := response_ip_denylist e;
     engine_regex_rules := engine_regex_rules e; groups := groups e |}.

Definition load_group (e : BlocklistEngine) (group : str)
    (sources : list (str * BlocklistSource)) (allowlist_entries : list str) (now : Z) :
    BlocklistEngine :=
  match groups e !! group with
  | Some _ =>
      {| state := state e; config := config e;
         response_ip_denylist := response_ip_denylist e;
         engine_regex_rules := engine_regex_rules e;
         groups := <[group := build_state e sources allowlist_entries now]> (groups e) |}
  | None => e
  end.

Definition load (e : BlocklistEngine) (content : str) (now : Z) : BlocklistEngine :=
  load_many_with_trust e [(content, Untrusted)] now.
Definition load_trusted (e : BlocklistEngine) (content : str) (now : Z) : BlocklistEngine :=
  load_many_with_trust e [(content, Trusted)] now.

Definition is_blocked_for_group (e : BlocklistEngine) (domain : str) (group : option str) : bool :=
  match group ≫= λ g, groups e !! g with
  | Some st => state_is_blocked st domain
  | None => state_is_blocked (state e) domain
  end.

Definition is_blocked (e : BlocklistEngine) (domain : str) : bool :=
  is_blocked_for_group e domain None.

Definition block_response (e : BlocklistEngine) : BlockResponse :=
  blocklist_block_response (config e).
Definition sinkhole_ip (e : BlocklistEngine) : str := blocklist_sinkhole_ip (config e).
Definition block_cname_cloaking (e : BlocklistEngine) : bool :=
  blocklist_block_cname_cloaking (config e).
Definition response_ip_denylist_active (e : BlocklistEngine) : bool :=
  negb (IpDenylist.is_empty (response_ip_denylist e)).
Definition is_response_ip_blocked (e : BlocklistEngine) (ip : ip_addr) : bool :=
  IpDenylist.contains (response_ip_denylist e) ip.

(** ** Specification *)

(** The entries of the sources, each with the trust of its source. *)
Definition source_entries (sources : list (str * BlocklistSource)) :
    list (ParsedEntry * BlocklistSource) :=
  concat ((λ src, (λ en, (en, src.2)) <$> BlocklistParser.parse src.1) <$> sources).

Definition trusted_allow (sources : list (str * BlocklistSource)) (d : str) : Prop :=
  ∃ a, (Allow a, Trusted) ∈ source_entries sources
    ∧ d = to_lowercase (trim_end_matches "."%rc (trim a)).

(** What a set of sources blocks: a name that an entry names or that lies below a
    wildcard parent or that a regex rule matches, unless the allowlist or an
    allow entry of a trusted source covers it. *)
Definition blocked_by (sources : list (str * BlocklistSource)) (allow : list str)
    (regex : RegexRules.RegexRules) (d : str) : Prop :=
  d ≠ []
  ∧ ¬ (entries_allow allow d ∨ trusted_allow sources d)
  ∧ ((∃ t, (Exact d, t) ∈ source_entries sources)
     ∨ (∃ p t k, (WildcardParent p, t) ∈ source_entries sources ∧ d = k ++ "."%rc :: p)
     ∨ RegexRules.is_match regex d = true).

(** ** Building a state *)

Lemma load_sources_entries acc sources :
  foldl load_source acc sources =
  foldl (λ acc ent, load_entry ent.2 acc ent.1) acc (source_entries sources).
Proof.
  revert acc. induction sources as [|src sources IH]; intros acc; [done|].
  cbn [foldl]. unfold source_entries. cbn [fmap list_fmap concat].
  rewrite foldl_app, IH. f_equal. unfold load_source. generalize (BlocklistParser.parse src.1).
  intros es. revert acc. induction es as [|en es IHes]; intros acc; [done|]. simpl. apply IHes.
Qed.

(** What a state and the collected allow entries hold after loading. *)
Record loaded (st0 : BlocklistState) (ents : list (ParsedEntry * BlocklistSource))
    (st : BlocklistState) (ts0 ts : list str) : Prop := {
  loaded_domains d : d ∈ domains st ↔ d ∈ domains st0 ∨ ∃ t, (Exact d, t) ∈ ents;
  loaded_parents p : p ∈ wildcard_parents st ↔
    p ∈ wildcard_parents st0 ∨ ∃ t, (WildcardParent p, t) ∈ ents;
  loaded_allow : allowlist st = allowlist st0;
  loaded_trusted a : a ∈ ts ↔ a ∈ ts0 ∨ (Allow a, Trusted) ∈ ents;
}.

Lemma load_entries_loaded ents : ∀ st0 ts0,
  let '(st, ts) := foldl (λ acc ent, load_entry ent.2 acc ent.1) (st0, ts0) ents in
  loaded st0 ents st ts0 ts.
Proof.
  induction ents as [|[en t] ents IH]; intros st0 ts0.
  { simpl. constructor; intros; try done; set_solver. }
  cbn [foldl]. destruct (load_entry (en, t).2 (st0, ts0) (en, t).1) as [st1 ts1] eqn:E.
  specialize (IH st1 ts1). destruct (foldl _ _ ents) as [st ts].
  destruct IH as [Hd Hp Ha Ht].
  destruct en as [d|p|a]; simpl in E; [..|destruct t]; injection E as <- <-; simpl in *;
    (constructor; [intros x; rewrite Hd|intros x; rewrite Hp|by rewrite Ha|intros x; rewrite Ht]);
    simpl; rewrite ?elem_of_union, ?elem_of_singleton, ?elem_of_app, ?list_elem_of_singleton;
    setoid_rewrite elem_of_cons; naive_solver.
Qed.

Lemma build_state_loaded e sources al now :
  ∃ ts, loaded (new_empty (from_entries al) now) (source_entries sources)
      {| domains := domains (build_state e sources al now);
         wildcard_parents := wildcard_parents (build_state e sources al now);
         allowlist := from_entries al;
         regex_rules := regex_rules (build_state e sources al now);
         entry_count := entry_count (build_state e sources al now);
         heap_bytes := heap_bytes (build_state e sources al now);
         loaded_at := loaded_at (build_state e sources al now);
         untrusted_allows_discarded := untrusted_allows_discarded (build_state e sources al now) |}
      [] ts
  ∧ suffixes (allowlist (build_state e sources al now)) = suffixes (from_entries al)
  ∧ ∀ n, n ∈ exact (allowlist (build_state e sources al now)) ↔
      n ∈ exact (from_entries al)
      ∨ n ≠ [] ∧ ∃ a, a ∈ ts ∧ n = to_lowercase (trim_end_matches "."%rc (trim a)).
Proof.
  unfold build_state. rewrite load_sources_entries.
  pose proof (load_entries_loaded (source_entries sources)
    (new_empty (from_entries al) now) []) as Hl.
  destruct (foldl _ _ _) as [st ts]. exists ts. destruct Hl as [Hd Hp Ha Ht].
  split; [by constructor|]. simpl. rewrite Ha. simpl.
  case_bool_decide as Hts; simpl; [|split; [apply extend_exact_suffixes|apply extend_exact_exact]].
  split; [done|]. intros n. subst ts. set_solver.
Qed.

Lemma build_state_allowed e sources al now d :
  is_allowed (allowlist (build_state e sources al now)) d = true ↔
  normal d ≠ [] ∧ (entries_allow al (normal d) ∨ trusted_allow sources (normal d)).
Proof.
  destruct (build_state_loaded e sources al now) as (ts & [_ _ _ Ht] & Hs & Hx).
  rewrite is_allowed_sets, Hs, Hx, <- from_entries_sets. unfold trusted_allow.
  setoid_rewrite Ht. clear. set_solver.
Qed.

(** ** Lookups *)

Lemma parent_walk_suffix_walk fuel hit rest :
  parent_walk fuel hit rest = suffix_walk fuel (λ s, hit (drop 1 s)) rest.
Proof.
  revert rest. induction fuel as [|fuel IH]; intros rest; [done|]. simpl.
  destruct (find "."%rc rest) as [i|]; [|done]. rewrite drop_drop.
  by case_match.
Qed.

(** The form the engine looks up; on ASCII names, the normal form. *)
Lemma lower_ascii d : is_ascii d = true →
  (if existsb is_ascii_uppercase (trim_end_matches "."%rc d)
   then to_lowercase (trim_end_matches "."%rc d) else trim_end_matches "."%rc d) = normal d.
Proof.
  intros Ha. unfold normal. apply (is_ascii_drop_while_end (Z.eqb "."%rc)) in Ha.
  case_match; [by apply to_lowercase_ascii|]. by rewrite to_ascii_lowercase_id.
Qed.

Lemma state_is_blocked_sets st d :
  is_ascii d = true →
  state_is_blocked st d = true ↔
  normal d ≠ [] ∧ is_allowed (allowlist st) d = false
  ∧ (normal d ∈ domains st
     ∨ (∃ k p, normal d = k ++ "."%rc :: p ∧ p ∈ wildcard_parents st)
     ∨ RegexRules.is_match (regex_rules st) (normal d) = true).
Proof.
  intros Ha. unfold state_is_blocked. rewrite lower_ascii by done.
  destruct (is_empty_str (trim_end_matches "."%rc d)) eqn:E.
  { split; [done|]. intros [Hn _]. exfalso. apply Hn, normal_nil. by destruct (trim_end_matches _ d). }
  apply is_empty_str_false in E. rewrite <- normal_nil in E.
  rewrite (is_allowed_normal _ (normal d) d) by apply normal_idemp.
  destruct (is_allowed (allowlist st) d) eqn:Hal; [split; [done|by intros (_ & ? & _)]|].
  rewrite parent_walk_suffix_walk.
  assert (suffix_walk (S (length (normal d)))
    (λ s, bool_decide (drop 1 s ∈ wildcard_parents st)) (normal d) = true ↔
    ∃ k p, normal d = k ++ "."%rc :: p ∧ p ∈ wildcard_parents st) as <-.
  { rewrite suffix_walk_spec by lia. cbn [drop]. setoid_rewrite bool_decide_eq_true.
    by setoid_rewrite drop_0. }
  case_bool_decide; [by split; auto|].
  destruct (suffix_walk _ _ _); [by split; auto|].
  split; [by auto|]. by intros (_ & _ & [?|[?|?]]).
Qed.

Lemma build_state_blocked e sources al now d :
  is_ascii d = true →
  state_is_blocked (build_state e sources al now) d = true ↔
  blocked_by sources al (engine_regex_rules e) (normal d).
Proof.
  intros Ha. rewrite state_is_blocked_sets by done.
  rewrite <- not_true_iff_false, build_state_allowed.
  destruct (build_state_loaded e sources al now) as (ts & [Hd Hp _ _] & _).
  simpl in Hd, Hp. rewrite Hd. setoid_rewrite Hp.
  assert (regex_rules (build_state e sources al now) = engine_regex_rules e) as ->.
  { unfold build_state. by destruct (foldl _ _ _). }
  unfold blocked_by. set_solver.
Qed.
End engine.

(** ** Properties *)

Section properties.
Context `{Unicode} `{RegexRules.RegexCrate}.

Lemma source_entries_app s1 s2 :
  source_entries (s1 ++ s2) = source_entries s1 ++ source_entries s2.
Proof. unfold source_entries. by rewrite fmap_app, concat_app. Qed.

Lemma untrusted_source_entries c en :
  (en, Trusted) ∉ source_entries [(c, Untrusted)].
Proof.
  unfold source_entries. simpl. rewrite app_nil_r.
  intros (x & Heq & _)%list_elem_of_fmap. congruence.
Qed.

(** After a load the engine blocks a query exactly when a source's entry names it, a
    wildcard entry names one of its parents or a regex rule matches it, and neither
    the configured allowlist nor an allow entry of a trusted source covers it.  The
    name is compared without case and trailing dots, and the empty name is never
    blocked. *)
Theorem load_many_with_trust_blocks (e : BlocklistEngine)
    (sources : list (str * BlocklistSource)) (now : Z) (d : str) :
  is_ascii d = true →
  is_blocked (load_many_with_trust e sources now) d = true ↔
  blocked_by sources (blocklist_allowlist (config e)) (engine_regex_rules e) (normal d).
Proof. apply build_state_blocked. Qed.

(** C32. An untrusted source cannot unblock anything: adding one anywhere among the sources
    leaves the set of allowed names as it is, and every name blocked without it is
    still blocked. *)
Theorem untrusted_source_never_unblocks (e : BlocklistEngine)
    (before after : list (str * BlocklistSource)) (content : str) (al : list str)
    (now now' : Z) (d : str) :
  is_ascii d = true →
  is_allowed (allowlist (build_state e (before ++ (content, Untrusted) :: after) al now')) d
    = is_allowed (allowlist (build_state e (before ++ after) al now)) d
  ∧ (state_is_blocked (build_state e (before ++ after) al now) d = true →
     state_is_blocked (build_state e (before ++ (content, Untrusted) :: after) al now') d = true).
Proof.
  intros Hd. change ((content, Untrusted) :: after) with ([(content, Untrusted)] ++ after).
  assert (∀ n, trusted_allow (before ++ [(content, Untrusted)] ++ after) n ↔
    trusted_allow (before ++ after) n) as Htr.
  { intros n. unfold trusted_allow. rewrite !source_entries_app.
    pose proof (untrusted_source_entries content) as Hu.
    setoid_rewrite elem_of_app. setoid_rewrite elem_of_app. naive_solver. }
  split.
  - apply eq_true_iff_eq. by rewrite !build_state_allowed, Htr.
  - rewrite !build_state_blocked by done. unfold blocked_by. rewrite Htr, !source_entries_app.
    set_solver.
Qed.

(** Loading a configured group changes what its own clients are blocked from, to what
    its sources and its own allowlist say, and nothing for any other client; loading
    an unknown group changes nothing at all. *)
Theorem load_group_isolated (e : BlocklistEngine) (g : str)
    (sources : list (str * BlocklistSource)) (al : list str) (now : Z) (d : str) :
  is_ascii d = true →
  (groups e !! g = None → load_group e g sources al now = e)
  ∧ (is_Some (groups e !! g) →
      (is_blocked_for_group (load_group e g sources al now) d (Some g) = true ↔
       blocked_by sources al (engine_regex_rules e) (normal d))
      ∧ ∀ g', g' ≠ Some g →
        is_blocked_for_group (load_group e g sources al now) d g' = is_blocked_for_group e d g').
Proof.
  intros Hd. unfold load_group. split; [by intros ->|]. intros [st ->].
  unfold is_blocked_for_group. split.
  - cbn [mbind option_bind groups]. rewrite lookup_insert_eq. by apply build_state_blocked.
  - intros [g'|] Hg; [|done]. cbn [mbind option_bind groups state].
    by rewrite lookup_insert_ne by congruence.
Qed.
End properties.

(** ** Witnesses *)

Definition demo_config : BlocklistConfig :=
  {| blocklist_sources := []; blocklist_trusted_rpz_sources := []; blocklist_local_files := [];
     blocklist_block_response := Nxdomain; blocklist_sinkhole_ip := "0.0.0.0"%rs;
     blocklist_reload_interval_secs := 0; blocklist_fetch_timeout_ms := 0;
     blocklist_max_fetch_bytes := 0; blocklist_allowlist := ["*.good.example.com"%rs];
     blocklist_block_cname_cloaking := true; blocklist_response_ip_denylist := [];
     blocklist_regex_rules := ["tracker"%rs];
     blocklist_groups := [{| group_name := "kids"%rs; group_sources := []; group_local_files := [];
       group_trusted_rpz_sources := []; group_allowlist := [] |}] |}.

Definition demo_engine : @BlocklistEngine RegexRules.literal_regex :=
  @new ascii_only RegexRules.literal_regex demo_config 0.

(** [||example.com^] blocks [WWW.Example.com.], not [a.good.example.com]. *)
Lemma load_many_with_trust_blocks_witness :
  @blocked_by ascii_only RegexRules.literal_regex [("||example.com^"%rs, Untrusted)]
    ["*.good.example.com"%rs] (engine_regex_rules demo_engine) "www.example.com"%rs
  ∧ ¬ @blocked_by ascii_only RegexRules.literal_regex [("||example.com^"%rs, Untrusted)]
    ["*.good.example.com"%rs] (engine_regex_rules demo_engine) "a.good.example.com"%rs.
Proof.
  split.
  - apply (@load_many_with_trust_blocks ascii_only RegexRules.literal_regex demo_engine
      [("||example.com^"%rs, Untrusted)] 1 "WWW.Example.com."%rs eq_refl).
    vm_compute. reflexivity.
  - intros Hb.
    apply (@load_many_with_trust_blocks ascii_only RegexRules.literal_regex demo_engine
      [("||example.com^"%rs, Untrusted)] 1 "a.good.example.com"%rs eq_refl) in Hb.
    vm_compute in Hb. discriminate Hb.
Defined.

(** An untrusted list that tries to allow the name it should block. *)
Lemma untrusted_source_never_unblocks_witness :
  @state_is_blocked ascii_only RegexRules.literal_regex
    (@build_state ascii_only RegexRules.literal_regex demo_engine
      [("@@||ads.example.com^"%rs, Untrusted); ("ads.example.com"%rs, Untrusted)] [] 2)
    "ads.example.com"%rs = true.
Proof.
  apply (@untrusted_source_never_unblocks ascii_only RegexRules.literal_regex demo_engine
    [] [("ads.example.com"%rs, Untrusted)] "@@||ads.example.com^"%rs [] 1 2
    "ads.example.com"%rs eq_refl).
  vm_compute. reflexivity.
Defined.

(** Loading the group [kids] leaves the global clients alone. *)
Lemma load_group_isolated_witness :
  is_Some (groups demo_engine !! "kids"%rs)
  ∧ @is_blocked_for_group ascii_only RegexRules.literal_regex
      (@load_group ascii_only RegexRules.literal_regex demo_engine "kids"%rs
        [("games.example.com"%rs, Trusted)] [] 5) "games.example.com"%rs None
    = @is_blocked_for_group ascii_only RegexRules.literal_regex demo_engine
        "games.example.com"%rs None.
Proof.
  assert (is_Some (groups demo_engine !! "kids"%rs)) as Hk by (eexists; vm_compute; reflexivity).
  split; [exact Hk|].
  apply (@load_group_isolated ascii_only RegexRules.literal_regex demo_engine "kids"%rs
    [("games.example.com"%rs, Trusted)] [] 5 "games.example.com"%rs eq_refl); [exact Hk|done].
Defined.
