(* ===== verification/Loader.v ===== *)
(** * Loader: fetching the blocklists
    ([rustydnsd/src/blocklist_loader.rs])

    A reload round sees an environment: what the files hold and what each request is
    answered.  Up to four requests run at once and their results are put back in source
    order, so the round is a function of that environment.  The shared map of last good
    contents is passed along; error texts and log lines are left out. *)

From S2P Require Import Prelude RustStr Net Config Engine.
From S2P Require RegexRules BlocklistParser Allowlist.

(** What a request is answered: nothing usable, or a status, a length if the server states
    one, and the chunks of the body, of which one may fail. *)
Inductive http_reply :=
| SendFailed
| HttpReply (status : Z) (content_length : option Z) (chunks : list (option (list Z))).

(** The environment of a round: the files (a path that cannot be read has none), and the
    reply to the fetch of a URL, by its place in the list that is fetched. *)
Record Env := {
  env_file : str → option (list Z);
  env_http : nat → str → http_reply;
}.

Inductive load_error :=
| ReadFailed (path : str)
| LocalTooLarge (path : str) (len cap : Z)
| FetchFailed (url : str)
| HttpStatus (url : str) (status : Z)
| LengthTooLarge (url : str) (len cap : Z)
| BodyTooLarge (url : str) (cap : Z).

Record LoadSummary := {
  total_sources : Z;
  loaded_sources : Z;
  failed_sources : Z;
}.

Record BlocklistLoader := {
  ld_config : BlocklistConfig;
  last_good : gmap str str;
}.

Definition loader_new (config : BlocklistConfig) : BlocklistLoader :=
  {| ld_config := config; last_good := ∅ |}.

Definition remember_last_good (key content : str) (l : BlocklistLoader) : BlocklistLoader :=
  {| ld_config := ld_config l; last_good := <[key := content]> (last_good l) |}.

Definition last_good_content (key : str) (l : BlocklistLoader) : option str := last_good l !! key.

(** ** Reading a source *)

Definition body_len (bs : list Z) : Z := Z.of_nat (length bs).

(** [file.take(cap + 1)] and the comparison with [cap]. *)
Definition read_local (env : Env) (cap : Z) (path : str) : result load_error str :=
  match env_file env path with
  | None => Err (ReadFailed path)
  | Some content =>
      let bytes := take (Z.to_nat (Z.min (cap + 1) u64_max)) content in
      if cap <? body_len bytes then Err (LocalTooLarge path (body_len bytes) cap)
      else Ok (from_utf8_lossy bytes)
  end.

Fixpoint read_chunks (url : str) (cap : Z) (body : list Z) (chunks : list (option (list Z))) :
    result load_error (list Z) :=
  match chunks with
  | [] => Ok body
  | None :: _ => Err (FetchFailed url)
  | Some chunk :: chunks =>
      if cap <? body_len body + body_len chunk then Err (BodyTooLarge url cap)
      else read_chunks url cap (body ++ chunk) chunks
  end.

Definition read_body_capped (url_disp : str) (content_length : option Z)
    (chunks : list (option (list Z))) (cap : Z) : result load_error str :=
  _ ← match content_length with
      | Some len => reject_if (cap <? len) (LengthTooLarge url_disp len cap)
      | None => Ok ()
      end;
  from_utf8_lossy <$> read_chunks url_disp cap [] chunks.

Definition fetch_remote (env : Env) (cap : Z) (idx : nat) (url : str) : result load_error str :=
  let url_disp := redact_url_credentials url in
  match env_http env idx url with
  | SendFailed => Err (FetchFailed url_disp)
  | HttpReply status content_length chunks =>
      if (200 <=? status) && (status <=? 299)
      then read_body_capped url_disp content_length chunks cap
      else Err (HttpStatus url_disp status)
  end.

(** ** Gathering *)

(** What is loaded so far, the failures, and the loader. *)
Record Gathered := {
  g_sources : list (str * BlocklistSource);
  g_failed : Z;
  g_loader : BlocklistLoader;
}.

(** The result of one source: its content, or else its last good content. *)
Definition take_source (key : str) (trust : BlocklistSource) (res : result load_error str)
    (g : Gathered) : Gathered :=
  match res with
  | Ok content =>
      {| g_sources := g_sources g ++ [(content, trust)]; g_failed := g_failed g;
         g_loader := remember_last_good key content (g_loader g) |}
  | Err _ =>
      match last_good_content key (g_loader g) with
      | Some last =>
          {| g_sources := g_sources g ++ [(last, trust)]; g_failed := g_failed g;
             g_loader := g_loader g |}
      | None =>
          {| g_sources := g_sources g; g_failed := g_failed g + 1; g_loader := g_loader g |}
      end
  end.

Definition trust_of (trusted_rpz : list str) (url : str) : BlocklistSource :=
  if existsb (λ t, str_eqb t url) trusted_rpz then Trusted else Untrusted.

Definition gather (env : Env) (local_files remote trusted_rpz : list str) (l : BlocklistLoader) :
    Gathered :=
  let cap := blocklist_max_fetch_bytes (ld_config l) in
  let g := foldl (λ g path, take_source path Trusted (read_local env cap path) g)
             {| g_sources := []; g_failed := 0; g_loader := l |} local_files in
  foldl (λ g p, take_source p.2 (trust_of trusted_rpz p.2) (fetch_remote env cap p.1 p.2) g)
    g (imap pair remote).

Section loader.
Context `{Unicode} `{RegexRules.RegexCrate}.

(** One turn of the loop over the groups. *)
Definition reload_group (env : nat → Env) (now : Z) (acc : BlocklistLoader * BlocklistEngine)
    (p : nat * BlocklistGroup) : BlocklistLoader * BlocklistEngine :=
  let '(l, e) := acc in
  let '(idx, group) := p in
  let g := gather (env idx) (group_local_files group) (group_sources group)
             (group_trusted_rpz_sources group) l in
  (g_loader g,
   if bool_decide (length (g_sources g) = 0%nat) then e
   else load_group e (group_name group) (g_sources g)
          (blocklist_allowlist (ld_config l) ++ group_allowlist group) now).

(** A round: the global blocklist, in the first environment, then the groups, each in its
    own. *)
Definition reload (env : nat → Env) (now : Z) (l : BlocklistLoader) (e : BlocklistEngine) :
    LoadSummary * BlocklistLoader * BlocklistEngine :=
  let c := ld_config l in
  let g := gather (env 0%nat) (blocklist_local_files c) (blocklist_sources c)
             (blocklist_trusted_rpz_sources c) l in
  let loaded := Z.of_nat (length (g_sources g)) in
  let summary := {| total_sources := loaded + g_failed g; loaded_sources := loaded;
                    failed_sources := g_failed g |} in
  let e := if bool_decide (length (g_sources g) = 0%nat) then e
           else load_many_with_trust e (g_sources g) now in
  let '(l, e) := foldl (reload_group (λ i, env (S i)) now) (g_loader g, e)
                   (imap pair (blocklist_groups c)) in
  (summary, l, e).
End loader.

(** ** What was ever loaded

    The specification keeps the history of what was read, as (source, content) pairs, and
    has no cache: a list is loaded with the latest content of each of its sources. *)

(** An attempt to read a source: its path or URL, its trust, and what came of it. *)
Record attempt := { att_key : str; att_trust : BlocklistSource; att_result : result load_error str }.

Definition success (a : attempt) : option (str * str) :=
  match att_result a with Ok content => Some (att_key a, content) | Err _ => None end.

Definition latest (history : list (str * str)) (key : str) : option str :=
  snd <$> list.last (filter (λ p, p.1 = key) history).

(** The attempts of a list of sources in an environment: the files, then the URLs. *)
Definition attempts (env : Env) (cap : Z) (local_files remote trusted_rpz : list str) :
    list attempt :=
  ((λ path, {| att_key := path; att_trust := Trusted; att_result := read_local env cap path |})
     <$> local_files)
  ++ imap (λ idx url, {| att_key := url; att_trust := trust_of trusted_rpz url;
                         att_result := fetch_remote env cap idx url |}) remote.

(** What each attempt contributes: the latest content of its source, up to itself. *)
Definition contributed (history : list (str * str)) (atts : list attempt) :
    list (option (str * BlocklistSource)) :=
  imap (λ i a, (λ content, (content, att_trust a)) <$>
                 latest (history ++ omap success (take (S i) atts)) (att_key a)) atts.

Definition feed (history : list (str * str)) (atts : list attempt) : list (str * BlocklistSource) :=
  omap id (contributed history atts).

Lemma latest_snoc h k c key :
  latest (h ++ [(k, c)]) key = if decide (k = key) then Some c else latest h key.
Proof.
  unfold latest. rewrite list.filter_app, filter_cons, filter_nil. cbn [fst].
  destruct (decide (k = key)); [by rewrite last_snoc|by rewrite app_nil_r].
Qed.

Lemma latest_app_known h h' key : is_Some (latest h key) → is_Some (latest (h ++ h') key).
Proof.
  intros Hk. induction h' as [|[k c] h' IH] using rev_ind; [by rewrite app_nil_r|].
  rewrite app_assoc, latest_snoc. by case_decide.
Qed.

(** The cache of a loader holds the latest contents. *)
Definition knows (h : list (str * str)) (l : BlocklistLoader) : Prop :=
  ∀ key, last_good l !! key = latest h key.

Lemma contributed_snoc h atts a :
  contributed h (atts ++ [a]) =
  contributed h atts
  ++ [(λ content, (content, att_trust a)) <$> latest (h ++ omap success (atts ++ [a])) (att_key a)].
Proof.
  unfold contributed. rewrite imap_app. f_equal.
  - apply imap_ext. intros i x Hx%lookup_lt_Some. by rewrite take_app_le by lia.
  - cbn [imap compose]. rewrite Nat.add_0_r, take_ge; [done|]. rewrite length_app. simpl. lia.
Qed.

Lemma take_source_spec h atts l :
  knows h l →
  let g := foldl (λ g a, take_source (att_key a) (att_trust a) (att_result a) g)
             {| g_sources := []; g_failed := 0; g_loader := l |} atts in
  g_sources g = feed h atts
  ∧ g_failed g = Z.of_nat (length (filter (λ o, o = None) (contributed h atts)))
  ∧ knows (h ++ omap success atts) (g_loader g) ∧ ld_config (g_loader g) = ld_config l.
Proof.
  intros Hl. induction atts as [|a atts IH] using rev_ind.
  { simpl. by rewrite app_nil_r. }
  rewrite foldl_app. cbn [foldl]. cbn zeta in IH. destruct (foldl _ _ atts) as [srcs n l'].
  cbn [g_sources g_failed g_loader] in IH. destruct IH as (-> & -> & Hk & Hc).
  assert (omap success [a] =
    match att_result a with Ok content => [(att_key a, content)] | Err _ => [] end) as Hs.
  { csimpl. unfold success. by destruct (att_result a). }
  unfold feed. rewrite contributed_snoc, !omap_app, list.filter_app, length_app, Hs, app_assoc.
  unfold take_source, last_good_content.
  destruct (att_result a) as [content|e]; cbn [g_sources g_failed g_loader].
  - rewrite latest_snoc, decide_True by done.
    split; [done|]. split; [rewrite filter_cons_False, filter_nil by done; simpl; lia|]. split; [|done].
    intros key. cbn [last_good remember_last_good].
    rewrite latest_snoc. case_decide as Hkey; [by rewrite Hkey, lookup_insert_eq|].
    by rewrite lookup_insert_ne.
  - rewrite app_nil_r, Hk.
    destruct (latest _ (att_key a)) as [last|]; csimpl; cbn [g_sources g_failed g_loader];
      rewrite ?app_nil_r, ?filter_cons, ?filter_nil; cbn [length];
      (split; [done|]); (split; [lia|done]).
Qed.

Lemma gather_foldl env files remote trusted l :
  gather env files remote trusted l =
  foldl (λ g a, take_source (att_key a) (att_trust a) (att_result a) g)
    {| g_sources := []; g_failed := 0; g_loader := l |}
    (attempts env (blocklist_max_fetch_bytes (ld_config l)) files remote trusted).
Proof.
  unfold gather, attempts. rewrite foldl_app. set (g0 := {| g_sources := _ |}).
  assert (∀ files g, foldl (λ g a, take_source (att_key a) (att_trust a) (att_result a) g) g
    ((λ path, {| att_key := path; att_trust := Trusted;
       att_result := read_local env (blocklist_max_fetch_bytes (ld_config l)) path |}) <$> files)
    = foldl (λ g path, take_source path Trusted
        (read_local env (blocklist_max_fetch_bytes (ld_config l)) path) g) g files) as ->.
  { intros fs. induction fs as [|f fs IH]; intros g; [done|apply IH]. }
  generalize (foldl (λ g path, take_source path Trusted
    (read_local env (blocklist_max_fetch_bytes (ld_config l)) path) g) g0 files) as g.
  induction remote as [|url remote IH] using rev_ind; intros g; [done|].
  rewrite !imap_app, !foldl_app, IH. done.
Qed.

Lemma gather_spec h env files remote trusted l :
  knows h l →
  let atts := attempts env (blocklist_max_fetch_bytes (ld_config l)) files remote trusted in
  let g := gather env files remote trusted l in
  g_sources g = feed h atts
  ∧ g_failed g = Z.of_nat (length (filter (λ o, o = None) (contributed h atts)))
  ∧ knows (h ++ omap success atts) (g_loader g) ∧ ld_config (g_loader g) = ld_config l.
Proof. intros Hl atts. cbn zeta. rewrite gather_foldl. by apply take_source_spec. Qed.

Lemma attempts_keys env cap files remote trusted :
  att_key <$> attempts env cap files remote trusted = files ++ remote.
Proof.
  unfold attempts. rewrite fmap_app, <- list_fmap_compose, fmap_imap. f_equal.
  - by rewrite <- (list_fmap_id files) at 2.
  - rewrite <- (list_fmap_id remote) at 2. rewrite <- imap_const. by apply imap_ext.
Qed.

Lemma contributed_lookup h atts i a :
  atts !! i = Some a →
  contributed h atts !! i =
    Some ((λ content, (content, att_trust a)) <$> latest (h ++ omap success (take (S i) atts)) (att_key a)).
Proof. intros Ha. unfold contributed. by rewrite list_lookup_imap, Ha. Qed.

(** Once a source of a list was read, the list is never empty again. *)
Lemma feed_nil h atts k : feed h atts = [] → k ∈ att_key <$> atts → latest h k = None.
Proof.
  intros Hf (a & -> & [i Ha]%list_elem_of_lookup)%list_elem_of_fmap.
  destruct (latest h (att_key a)) as [c|] eqn:Hk; [exfalso|done].
  assert (is_Some (latest (h ++ omap success (take (S i) atts)) (att_key a))) as [c' Hc'].
  { apply latest_app_known. by rewrite Hk. }
  apply contributed_lookup with (h := h) in Ha. rewrite Hc' in Ha.
  assert ((c', att_trust a) ∈ feed h atts) as Hin.
  { apply list_elem_of_omap. eexists. split; [by eapply list_elem_of_lookup_2|done]. }
  rewrite Hf in Hin. by apply elem_of_nil in Hin.
Qed.

Lemma feed_known h atts s :
  s ∈ feed h atts → ∃ k, k ∈ att_key <$> atts ∧ is_Some (latest (h ++ omap success atts) k).
Proof.
  intros (o & [i Hi]%list_elem_of_lookup & Ho)%list_elem_of_omap. unfold contributed in Hi.
  rewrite list_lookup_imap in Hi. apply fmap_Some in Hi as (a & Ha & ->). cbn in Ho.
  exists (att_key a). split; [apply list_elem_of_fmap; exists a; split; [done|by eapply list_elem_of_lookup_2]|].
  apply fmap_Some in Ho as (c & Hc & _).
  replace atts with (take (S i) atts ++ drop (S i) atts) by apply take_drop.
  rewrite omap_app, app_assoc. apply latest_app_known. by eexists.
Qed.

(** ** Rounds *)

Definition global_attempts (c : BlocklistConfig) (env : Env) : list attempt :=
  attempts env (blocklist_max_fetch_bytes c) (blocklist_local_files c) (blocklist_sources c)
    (blocklist_trusted_rpz_sources c).
Definition group_attempts (c : BlocklistConfig) (env : Env) (g : BlocklistGroup) : list attempt :=
  attempts env (blocklist_max_fetch_bytes c) (group_local_files g) (group_sources g)
    (group_trusted_rpz_sources g).

(** What a round attempts: the global list, then that of each group. *)
Definition round_attempts (c : BlocklistConfig) (env : nat → Env) : list (list attempt) :=
  global_attempts c (env 0%nat)
  :: imap (λ i g, group_attempts c (env (S i)) g) (blocklist_groups c).

Definition rounds_history (c : BlocklistConfig) (rounds : list ((nat → Env) * Z)) :
    list (str * str) :=
  omap success (concat (concat ((λ r, round_attempts c r.1) <$> rounds))).

(** The feed of the [i]-th list in the last of some rounds. *)
Definition current_feed (c : BlocklistConfig) (rounds : list ((nat → Env) * Z)) (i : nat) :
    list (str * BlocklistSource) :=
  match list.last rounds with
  | None => []
  | Some (env, _) =>
      feed (rounds_history c (removelast rounds)
              ++ omap success (concat (take i (round_attempts c env))))
        (round_attempts c env !!! i)
  end.

Section rounds.
Context `{Unicode} `{RegexRules.RegexCrate}.

(** A state that blocks what some sources, an allowlist and rules say. *)
Definition shows (st : BlocklistState) (sources : list (str * BlocklistSource)) (al : list str)
    (r : RegexRules.RegexRules) : Prop :=
  ∀ d, is_ascii d = true →
    state_is_blocked st d = true ↔ blocked_by sources al r (Allowlist.normal d).

Lemma build_state_shows e sources al now :
  shows (build_state e sources al now) sources al (engine_regex_rules e).
Proof. intros d Hd. by apply build_state_blocked. Qed.

Lemma empty_state_shows al r now : shows (with_regex (new_empty (Allowlist.from_entries al) now) r) [] al r.
Proof.
  set (e := {| state := new_empty (Allowlist.from_entries al) now; config := BlocklistConfig_default;
    response_ip_denylist := IpDenylist.default_denylist; engine_regex_rules := r; groups := ∅ |}).
  exact (build_state_shows e [] al now).
Qed.

Lemma initial_groups_lookup gs r now i g :
  NoDup (group_name <$> gs) → gs !! i = Some g →
  initial_groups gs r now !! group_name g =
    Some (with_regex (new_empty (Allowlist.from_entries (group_allowlist g)) now) r).
Proof.
  unfold initial_groups. revert i. induction gs as [|g' gs IH] using rev_ind; intros i Hn Hg; [done|].
  rewrite foldl_app. cbn [foldl]. rewrite fmap_app in Hn. apply list.NoDup_app in Hn as (Hn & Hd & _).
  apply lookup_app_Some in Hg as [Hg|[_ Hg]].
  - rewrite lookup_insert_ne; [by eapply IH|]. intros He. apply (Hd (group_name g)).
    + apply list_elem_of_fmap. exists g. split; [done|by eapply list_elem_of_lookup_2].
    + cbn. rewrite He. by left.
  - apply list_lookup_singleton_Some in Hg as [_ ->]. by rewrite lookup_insert_eq.
Qed.

(** A list that gives nothing leaves the state as it was. *)
Definition refreshed (st st' : BlocklistState) (f : list (str * BlocklistSource)) (al : list str)
    (r : RegexRules.RegexRules) : Prop :=
  if decide (f = []) then st' = st else shows st' f al r.

Lemma refreshed_trans st st1 st2 f1 f2 al r :
  refreshed st st1 f1 al r → refreshed st1 st2 f2 al r → (f2 = [] → f1 = []) →
  refreshed st st2 f2 al r.
Proof.
  unfold refreshed. intros H1 H2 Hf. case_decide as Hn; [|done].
  rewrite decide_True in H1 by auto. by subst.
Qed.

(** What does not change in a load. *)
Definition same_setup (e e' : BlocklistEngine) : Prop :=
  config e' = config e ∧ engine_regex_rules e' = engine_regex_rules e.

Lemma load_group_spec e name sources al now :
  let e' := load_group e name sources al now in
  same_setup e e' ∧ state e' = state e
  ∧ (∀ n, n ≠ name → groups e' !! n = groups e !! n)
  ∧ ∀ st, groups e !! name = Some st →
      ∃ st', groups e' !! name = Some st' ∧ shows st' sources al (engine_regex_rules e).
Proof.
  cbn zeta. unfold load_group. destruct (groups e !! name) as [st|] eqn:Hg; [|by split_and!].
  split; [done|]. split; [done|]. cbn [groups]. split.
  - intros n Hn. by rewrite lookup_insert_ne.
  - intros _ _. eexists. rewrite lookup_insert_eq. split; [done|apply build_state_shows].
Qed.

(** One turn of the loop over the groups. *)
Lemma reload_group_spec c (env : nat → Env) now h l e i g :
  knows h l → ld_config l = c →
  let mine := group_attempts c (env i) g in
  let '(l', e') := reload_group env now (l, e) (i, g) in
  knows (h ++ omap success mine) l' ∧ ld_config l' = c ∧ same_setup e e' ∧ state e' = state e
  ∧ (∀ n, n ≠ group_name g → groups e' !! n = groups e !! n)
  ∧ ∀ st, groups e !! group_name g = Some st → ∃ st', groups e' !! group_name g = Some st'
      ∧ refreshed st st' (feed h mine) (blocklist_allowlist c ++ group_allowlist g)
          (engine_regex_rules e).
Proof.
  intros Hk Hc mine. cbn [reload_group].
  pose proof (gather_spec _ (env i) (group_local_files g) (group_sources g)
    (group_trusted_rpz_sources g) l Hk) as (Hsrc & _ & Hk' & Hc').
  rewrite Hc in Hsrc, Hk'. fold (group_attempts c (env i) g) in Hsrc, Hk'. fold mine in Hsrc, Hk'.
  set (gd := gather _ _ _ _ l) in *. split; [done|]. split; [by rewrite Hc', Hc|].
  rewrite <- Hsrc. case_bool_decide as Hnil.
  - apply length_zero_iff_nil in Hnil. split; [done|]. split; [done|]. split; [done|].
    intros st Hs. exists st. unfold refreshed. by rewrite decide_True.
  - rewrite Hc. destruct (load_group_spec e (group_name g) (g_sources gd)
      (blocklist_allowlist c ++ group_allowlist g) now) as (Hs & Hs' & Hno & Hyes).
    split; [done|]. split; [done|]. split; [done|]. intros st Hst0.
    destruct (Hyes st Hst0) as (st' & Hst' & Hsh). exists st'. split; [done|].
    unfold refreshed. by rewrite decide_False by (by intros Hf; rewrite Hf in Hnil).
Qed.

(** The loop over the groups, from a loader that knows a history. *)
Lemma reload_groups_spec c (env : nat → Env) now h l e gs :
  knows h l → ld_config l = c → NoDup (group_name <$> gs) →
  let atts := imap (λ i g, group_attempts c (env i) g) gs in
  let '(l', e') := foldl (reload_group env now) (l, e) (imap pair gs) in
  knows (h ++ omap success (concat atts)) l' ∧ ld_config l' = c
  ∧ same_setup e e' ∧ state e' = state e
  ∧ (∀ n, n ∉ group_name <$> gs → groups e' !! n = groups e !! n)
  ∧ ∀ i g st, gs !! i = Some g → groups e !! group_name g = Some st →
      let f := feed (h ++ omap success (concat (take i atts))) (atts !!! i) in
      ∃ st', groups e' !! group_name g = Some st'
        ∧ refreshed st st' f (blocklist_allowlist c ++ group_allowlist g) (engine_regex_rules e).
Proof.
  intros Hl Hc. induction gs as [|g gs IH] using rev_ind; intros Hn atts.
  { simpl. rewrite app_nil_r. by split_and!. }
  rewrite fmap_app in Hn. apply list.NoDup_app in Hn as (Hn & Hfresh & _).
  specialize (IH Hn). cbn zeta in IH.
  set (before := imap (λ i g, group_attempts c (env i) g) gs) in *.
  set (mine := group_attempts c (env (length gs)) g).
  assert (atts = before ++ [mine]) as ->.
  { unfold atts. rewrite imap_app. cbn [imap]. by rewrite Nat.add_0_r. }
  assert (length before = length gs) as Hlen by apply length_imap.
  rewrite imap_app, foldl_app. cbn [imap foldl]. rewrite Nat.add_0_r.
  destruct (foldl (reload_group env now) (l, e) (imap pair gs)) as [l1 e1].
  destruct IH as (Hk & Hc1 & [Hcfg Hre] & Hst & Hothers & Hgs).
  pose proof (reload_group_spec c env now _ l1 e1 (length gs) g Hk Hc1) as Hg1. cbn zeta in Hg1.
  fold mine in Hg1. destruct (reload_group env now (l1, e1) (length gs, g)) as [l2 e2].
  destruct Hg1 as (Hk2 & Hc2 & [Hcfg2 Hre2] & Hst2 & Ho2 & Hg2).
  assert (group_name g ∉ group_name <$> gs) as Hg.
  { intros Hin. apply (Hfresh _ Hin). by left. }
  rewrite (Hothers _ Hg), Hre in Hg2.
  rewrite concat_app, omap_app, app_assoc. cbn [concat]. rewrite app_nil_r.
  split; [done|]. split; [done|]. split; [split; congruence|]. split; [congruence|]. split.
  - intros n Hnn. rewrite fmap_app, not_elem_of_app in Hnn. destruct Hnn as [Hnn Hng].
    rewrite Ho2; [by apply Hothers|]. intros ->. apply Hng. by left.
  - intros i g' st Hi Hs. apply lookup_app_Some in Hi as [Hi|[Hle Hi]].
    + pose proof (lookup_lt_Some _ _ _ Hi) as Hlt.
      rewrite take_app_le, lookup_total_app_l by lia.
      destruct (Hgs i g' st Hi Hs) as (st' & Hst' & Hif). exists st'. split; [|done].
      rewrite Ho2; [done|]. intros He. apply Hg. rewrite <- He.
      apply list_elem_of_fmap. exists g'. split; [done|by eapply list_elem_of_lookup_2].
    + apply list_lookup_singleton_Some in Hi as [Hi <-].
      assert (i = length before) as -> by lia.
      rewrite take_app_length, lookup_total_app_r, Nat.sub_diag by lia. by apply Hg2.
Qed.
(** One round, from a loader that knows a history. *)
Lemma reload_spec c env now h l e :
  knows h l → ld_config l = c → config e = c →
  NoDup (group_name <$> blocklist_groups c) →
  let atts := round_attempts c env in
  let f := λ i, feed (h ++ omap success (concat (take i atts))) (atts !!! i) in
  let '(_, l', e') := reload env now l e in
  knows (h ++ omap success (concat atts)) l' ∧ ld_config l' = c ∧ same_setup e e'
  ∧ refreshed (state e) (state e') (f 0%nat) (blocklist_allowlist c) (engine_regex_rules e)
  ∧ ∀ i g st, blocklist_groups c !! i = Some g → groups e !! group_name g = Some st →
      ∃ st', groups e' !! group_name g = Some st'
        ∧ refreshed st st' (f (S i)) (blocklist_allowlist c ++ group_allowlist g)
            (engine_regex_rules e).
Proof.
  intros Hl Hc Hce Hn atts f. unfold reload. rewrite Hc.
  pose proof (gather_spec _ (env 0%nat) (blocklist_local_files c) (blocklist_sources c)
    (blocklist_trusted_rpz_sources c) l Hl) as (Hsrc & _ & Hk & Hc').
  rewrite Hc in Hsrc, Hk, Hc'. fold (global_attempts c (env 0%nat)) in Hsrc, Hk.
  set (gd := gather _ _ _ _ l) in *. set (e1 := if bool_decide _ then e else _).
  assert (same_setup e e1 ∧ groups e1 = groups e
    ∧ refreshed (state e) (state e1) (g_sources gd) (blocklist_allowlist c) (engine_regex_rules e))
    as ([Hcfg Hre] & Hgr & Hst).
  { unfold e1, refreshed. case_bool_decide as Hnil.
    - apply length_zero_iff_nil in Hnil. by rewrite decide_True.
    - rewrite decide_False by (by intros Hf; rewrite Hf in Hnil). split; [done|]. split; [done|].
      rewrite <- Hce. apply build_state_shows. }
  pose proof (reload_groups_spec c (λ i, env (S i)) now _ (g_loader gd) e1 (blocklist_groups c)
    Hk Hc' Hn) as Hg. cbn zeta in Hg.
  destruct (foldl _ _ _) as [l' e']. destruct Hg as (Hk' & Hl' & [Hcfg' Hre'] & Hst' & _ & Hgs).
  split; [|split; [done|]; split; [split; congruence|]; split].
  - unfold atts, round_attempts. cbn [concat]. by rewrite omap_app, app_assoc.
  - rewrite Hst'. unfold f. cbn [take concat omap list_omap]. rewrite app_nil_r.
    by rewrite Hsrc in Hst.
  - intros i g st Hi Hs. rewrite <- Hgr in Hs. destruct (Hgs i g st Hi Hs) as (st' & Hs' & Hr).
    exists st'. split; [done|]. rewrite Hre in Hr. unfold f, atts, round_attempts.
    cbn [take concat]. by rewrite omap_app, app_assoc.
Qed.

Lemma round_attempts_keys c env env' i :
  att_key <$> (round_attempts c env !!! i) = att_key <$> (round_attempts c env' !!! i).
Proof.
  assert (∀ env, round_attempts c env !!! 0%nat = global_attempts c (env 0%nat)) as Hz by done.
  destruct i as [|i]; [rewrite !Hz; unfold global_attempts; by rewrite !attempts_keys|].
  assert (∀ env, round_attempts c env !!! S i =
    imap (λ i g, group_attempts c (env (S i)) g) (blocklist_groups c) !!! i) as HS by done.
  rewrite !HS, !list_lookup_total_alt, !list_lookup_imap.
  destruct (blocklist_groups c !! i); [|done]. cbn [fmap option_fmap option_map from_option default].
  unfold id, group_attempts. by rewrite !attempts_keys.
Qed.

(** The rounds of a daemon, from its start. *)
Definition run_rounds (c : BlocklistConfig) (t : Z) (rounds : list ((nat → Env) * Z)) :
    BlocklistLoader * BlocklistEngine :=
  foldl (λ le r, let '(_, l, e) := reload r.1 r.2 le.1 le.2 in (l, e))
    (loader_new c, new c t) rounds.

(** What a round attempts of a list that gave something before gives something again. *)
Lemma current_feed_mono c rounds env now i :
  current_feed c (rounds ++ [(env, now)]) i = [] → current_feed c rounds i = [].
Proof.
  unfold current_feed. rewrite last_snoc, removelast_last. intros Hnew.
  destruct (list.last rounds) as [[env' now']|] eqn:Hl; [|done].
  apply last_Some in Hl as [rounds' ->]. rewrite removelast_last.
  set (f := feed _ _). destruct f as [|s f'] eqn:Hf; [done|exfalso]. subst f.
  destruct (feed_known (rounds_history c rounds' ++
      omap success (concat (take i (round_attempts c env'))))
    (round_attempts c env' !!! i) s) as (k & Hk & Hknown); [rewrite Hf; by left|].
  rewrite (round_attempts_keys c env' env) in Hk. revert Hknown.
  destruct (decide (i < length (round_attempts c env'))%nat) as [Hi|Hi].
  2:{ exfalso. rewrite list_lookup_total_alt, lookup_ge_None_2 in Hf by lia. done. }
  intros Hknown. apply (feed_nil _ _ _ Hnew) in Hk. revert Hk.
  apply not_eq_None_Some, latest_app_known. revert Hknown.
  unfold rounds_history at 2. rewrite fmap_app, !concat_app, omap_app. fold (rounds_history c rounds').
  cbn [fmap list_fmap fst concat]. rewrite app_nil_r, <- app_assoc, <- omap_app.
  rewrite <- (take_drop_middle (round_attempts c env') i (round_attempts c env' !!! i))
    at 3 by by apply list_lookup_lookup_total_lt.
  rewrite concat_app, omap_app. cbn [concat]. rewrite omap_app, !app_assoc.
  rewrite omap_app, app_assoc. apply latest_app_known.
Qed.

Lemma run_rounds_spec c t rounds :
  NoDup (group_name <$> blocklist_groups c) →
  let e0 := new c t in
  let '(l, e) := run_rounds c t rounds in
  knows (rounds_history c rounds) l ∧ ld_config l = c ∧ same_setup e0 e
  ∧ refreshed (state e0) (state e) (current_feed c rounds 0) (blocklist_allowlist c)
      (engine_regex_rules e0)
  ∧ ∀ i g, blocklist_groups c !! i = Some g →
      ∃ st0 st, groups e0 !! group_name g = Some st0 ∧ groups e !! group_name g = Some st
        ∧ refreshed st0 st (current_feed c rounds (S i)) (blocklist_allowlist c ++ group_allowlist g)
            (engine_regex_rules e0).
Proof.
  intros Hn e0. unfold run_rounds. induction rounds as [|[env now] rounds IH] using rev_ind.
  { split; [done|]. split; [done|]. split; [done|]. split; [done|]. intros i g Hi.
    pose proof (initial_groups_lookup _ (engine_regex_rules e0) t i g Hn Hi).
    eexists _, _. by split_and!. }
  rewrite foldl_app. cbn [foldl]. destruct (foldl _ _ rounds) as [l e].
  destruct IH as (Hk & Hc & [Hcfg Hre] & Hst & Hgs). cbn [fst snd].
  pose proof (reload_spec c env now _ l e Hk Hc Hcfg Hn) as Hr. cbn zeta in Hr.
  destruct (reload env now l e) as [[sm l'] e'].
  destruct Hr as (Hk' & Hc' & [Hcfg' Hre'] & Hst' & Hgs'). rewrite Hre in Hst', Hgs'.
  assert (∀ i, feed (rounds_history c rounds ++
      omap success (concat (take i (round_attempts c env)))) (round_attempts c env !!! i)
    = current_feed c (rounds ++ [(env, now)]) i) as Hfeed.
  { intros i. unfold current_feed. by rewrite last_snoc, removelast_last. }
  rewrite Hfeed in Hst'. split.
  { unfold rounds_history. rewrite fmap_app, !concat_app, omap_app. cbn [fmap list_fmap fst concat].
    by rewrite app_nil_r. }
  split; [done|]. split; [split; congruence|]. split.
  { eapply refreshed_trans; [exact Hst|exact Hst'|apply current_feed_mono]. }
  intros i g Hi. destruct (Hgs i g Hi) as (st0 & st & H0g & Hg & Hr).
  destruct (Hgs' i g st Hi Hg) as (st' & Hg' & Hr'). exists st0, st'. rewrite Hfeed in Hr'.
  split_and!; [done|done|]. eapply refreshed_trans; [exact Hr|exact Hr'|apply current_feed_mono].
Qed.

(** What a round leaves alone: the configuration, the denylist of addresses, and the groups
    there are. *)
Definition no_new_group (e e' : BlocklistEngine) : Prop :=
  config e' = config e ∧ response_ip_denylist e' = response_ip_denylist e
  ∧ ∀ n, groups e !! n = None → groups e' !! n = None.

#[local] Instance no_new_group_preorder : PreOrder no_new_group.
Proof. split; [by intros e|]. intros e1 e2 e3 (?&?&?) (?&?&?).
  split_and!; [congruence..|auto].
Qed.

Lemma load_group_no_new e name sources al now : no_new_group e (load_group e name sources al now).
Proof.
  unfold load_group. destruct (groups e !! name) as [st|] eqn:Hg; [|done].
  split; [done|]. split; [done|]. cbn [groups]. intros n Hn. rewrite lookup_insert_ne; [done|congruence].
Qed.

Lemma reload_no_new env now l e : no_new_group e (reload env now l e).2.
Proof.
  unfold reload. set (e1 := if bool_decide _ then e else _).
  assert (no_new_group e e1) as He1 by (unfold e1; by case_match).
  set (gs := imap pair _). clearbody gs e1. set (l1 := g_loader _). clearbody l1.
  enough (∀ gs l1 e1, no_new_group e1 (foldl (reload_group (λ i, env (S i)) now) (l1, e1) gs).2) as Hall.
  { specialize (Hall gs l1 e1). destruct (foldl _ _ _) as [l2 e2]. by etrans. }
  clear. intros gs. induction gs as [|[i g] gs IH]; intros l e; [done|]. cbn [foldl reload_group].
  etrans; [|apply IH]. case_match; [done|]. apply load_group_no_new.
Qed.

Lemma run_rounds_no_new c t rounds : no_new_group (new c t) (run_rounds c t rounds).2.
Proof.
  unfold run_rounds. induction rounds as [|[env now] rounds IH] using rev_ind; [done|].
  rewrite foldl_app. cbn [foldl]. destruct (foldl _ _ rounds) as [l e]. cbn [fst snd] in *.
  pose proof (reload_no_new env now l e) as Hr. destruct (reload env now l e) as [[sm l'] e'].
  by etrans.
Qed.

(** The list of a group, or the global list when there is no such group: its feed and the
    allowlist that goes with it. *)
Definition list_of_group (c : BlocklistConfig) (rounds : list ((nat → Env) * Z))
    (group : option str) : list (str * BlocklistSource) * list str :=
  match group ≫= λ n, list_find (λ g, group_name g = n) (blocklist_groups c) with
  | Some (i, g) =>
      let f := current_feed c rounds (S i) in
      (f, (if decide (f = []) then [] else blocklist_allowlist c) ++ group_allowlist g)
  | None => (current_feed c rounds 0, blocklist_allowlist c)
  end.

(** A name is listed for a group when that list and the regex rules block it. *)
Definition listed (c : BlocklistConfig) (rounds : list ((nat → Env) * Z)) (group : option str)
    (name : str) : Prop :=
  let '(f, allow) := list_of_group c rounds group in
  blocked_by f allow (default RegexRules.regex_default (result_ok (RegexRules.compile (blocklist_regex_rules c))))
    (Allowlist.normal name).

Lemma new_regex_rules c t :
  engine_regex_rules (new c t) =
  default RegexRules.regex_default (result_ok (RegexRules.compile (blocklist_regex_rules c))).
Proof. cbn [new engine_regex_rules]. by destruct (RegexRules.compile _). Qed.

Lemma initial_groups_none gs r now n :
  n ∉ group_name <$> gs → initial_groups gs r now !! n = None.
Proof.
  unfold initial_groups. induction gs as [|g gs IH] using rev_ind; [done|].
  rewrite fmap_app, not_elem_of_app, foldl_app. intros [Hn Hg]. cbn [foldl].
  rewrite lookup_insert_ne; [by apply IH|]. intros He. apply Hg. cbn. rewrite He. by left.
Qed.

Lemma run_rounds_listed c t rounds group d :
  NoDup (group_name <$> blocklist_groups c) → is_ascii d = true →
  is_blocked_for_group (run_rounds c t rounds).2 d group = true ↔ listed c rounds group d.
Proof.
  intros Hn Hd. pose proof (run_rounds_spec c t rounds Hn) as Hr. cbn zeta in Hr.
  destruct (run_rounds_no_new c t rounds) as (_ & _ & Hnone).
  destruct (run_rounds c t rounds) as [l e]. destruct Hr as (_ & _ & _ & Hst & Hgs). cbn [snd] in *.
  rewrite new_regex_rules in Hst, Hgs. unfold refreshed in Hst, Hgs.
  assert (state_is_blocked (state e) d = true ↔ listed c rounds None d) as Hglobal.
  { unfold listed, list_of_group. cbn [mbind option_bind].
    case_decide as Hf; [|by apply Hst]. rewrite Hf, Hst, <- (new_regex_rules c t).
    by apply empty_state_shows. }
  destruct group as [n|]; [|exact Hglobal].
  unfold is_blocked_for_group, listed, list_of_group in *. cbn [mbind option_bind] in *.
  destruct (list_find _ (blocklist_groups c)) as [[i g]|] eqn:Hfind.
  - apply list_find_Some in Hfind as (Hi & <- & _).
    destruct (Hgs i g Hi) as (st0 & st & H0g & -> & Hr).
    case_decide as Hf; [|by apply Hr]. rewrite Hf, Hr. cbn [new groups] in H0g.
    rewrite (initial_groups_lookup _ _ _ i g Hn Hi) in H0g. injection H0g as <-.
    change (match RegexRules.compile _ with Ok r => r | Err _ => _ end)
      with (engine_regex_rules (new c t)). rewrite new_regex_rules. by apply empty_state_shows.
  - rewrite Hnone; [done|]. cbn [new groups]. apply initial_groups_none.
    intros (g & -> & Hin)%list_elem_of_fmap. apply list_find_None in Hfind.
    rewrite list.Forall_forall in Hfind. by apply (Hfind g).
Qed.

(** C16. The engine of a daemon that ran some rounds of reloads refines the specification
    without a cache: it blocks what the latest content ever read of each configured source
    says.  A source that cannot be read keeps its last content, a list with no content
    keeps its initial state, and each group has its own list. *)
Theorem reloads_serve_latest (c : BlocklistConfig) (t : Z) (rounds : list ((nat → Env) * Z)) :
  NoDup (group_name <$> blocklist_groups c) →
  let e := (run_rounds c t rounds).2 in
  let rx := engine_regex_rules (new c t) in
  (∀ d, is_ascii d = true →
     is_blocked e d = true
     ↔ blocked_by (current_feed c rounds 0) (blocklist_allowlist c) rx (Allowlist.normal d))
  ∧ ∀ i g d, blocklist_groups c !! i = Some g → is_ascii d = true →
      let f := current_feed c rounds (S i) in
      is_blocked_for_group e d (Some (group_name g)) = true
      ↔ blocked_by f ((if decide (f = []) then [] else blocklist_allowlist c) ++ group_allowlist g)
          rx (Allowlist.normal d).
Proof.
  intros Hn e rx. subst e rx. rewrite new_regex_rules. split.
  - intros d Hd. by apply run_rounds_listed.
  - intros i g d Hi Hd f. rewrite run_rounds_listed by done. unfold listed, list_of_group.
    cbn [mbind option_bind].
    assert (list_find (λ g', group_name g' = group_name g) (blocklist_groups c) = Some (i, g)) as ->; [|done].
    apply list_find_Some. split; [done|]. split; [done|]. intros j g' Hj Hlt He.
    assert (j = i); [|lia]. apply (NoDup_lookup (group_name <$> blocklist_groups c) _ _ (group_name g)); [done|..];
      rewrite list_lookup_fmap; [rewrite Hj|rewrite Hi]; cbn; congruence.
Qed.
End rounds.

(** ** What the loader retains *)

(** The paths and URLs a configuration names. *)
Definition all_sources (c : BlocklistConfig) : list str :=
  blocklist_local_files c ++ blocklist_sources c
  ++ concat ((λ g, group_local_files g ++ group_sources g) <$> blocklist_groups c).

Lemma read_local_bounded env cap path content :
  0 ≤ cap → read_local env cap path = Ok content →
  ∃ bytes, body_len bytes ≤ cap ∧ content = from_utf8_lossy bytes.
Proof.
  intros _. unfold read_local. destruct (env_file env path) as [bs|]; [|done].
  destruct (Z.ltb_spec cap (body_len (take (Z.to_nat (Z.min (cap + 1) u64_max)) bs))); [done|].
  intros [= <-]. by eexists.
Qed.

Lemma read_chunks_bounded url cap chunks : ∀ body body',
  body_len body ≤ cap → read_chunks url cap body chunks = Ok body' → body_len body' ≤ cap.
Proof.
  induction chunks as [|[chunk|] chunks IH]; intros body body' Hb; cbn; [by intros [= <-]| |done].
  destruct (Z.ltb_spec cap (body_len body + body_len chunk)); [done|]. apply IH.
  unfold body_len in *. rewrite length_app. lia.
Qed.

Lemma fetch_remote_bounded env cap idx url content :
  0 ≤ cap → fetch_remote env cap idx url = Ok content →
  ∃ bytes, body_len bytes ≤ cap ∧ content = from_utf8_lossy bytes.
Proof.
  intros Hcap. unfold fetch_remote, read_body_capped.
  destruct (env_http env idx url) as [|status len chunks]; [done|]. destruct (_ && _); [|done].
  destruct (match len with Some _ => _ | None => _ end) as [[]|]; [|done]. cbn.
  destruct (read_chunks _ cap [] chunks) as [body|] eqn:Hr; [|done]. cbn. intros [= <-].
  exists body. split; [|done]. by eapply read_chunks_bounded; [|exact Hr].
Qed.

(** Every success of a round is of a configured source, and within the cap. *)
Lemma round_success c env k content :
  0 ≤ blocklist_max_fetch_bytes c →
  (k, content) ∈ omap success (concat (round_attempts c env)) →
  k ∈ all_sources c
  ∧ ∃ bytes, body_len bytes ≤ blocklist_max_fetch_bytes c ∧ content = from_utf8_lossy bytes.
Proof.
  intros Hcap (a & Ha & Hs)%list_elem_of_omap.
  assert (∃ env' files urls trusted,
    a ∈ attempts env' (blocklist_max_fetch_bytes c) files urls trusted
    ∧ ∀ k, k ∈ files ++ urls → k ∈ all_sources c) as (env' & files & urls & trusted & Hin & Hall).
  { apply list_elem_of_In, in_concat in Ha as (atts & Hatts%list_elem_of_In & Ha%list_elem_of_In).
    unfold round_attempts in Hatts. apply elem_of_cons in Hatts as [->|Hatts].
    - do 4 eexists. split; [exact Ha|]. intros k'. unfold all_sources. set_solver.
    - apply elem_of_lookup_imap in Hatts as (i & g & -> & Hg%list_elem_of_lookup_2).
      do 4 eexists. split; [exact Ha|]. intros k' Hk'. unfold all_sources.
      apply elem_of_app. right. apply elem_of_app. right. apply list_elem_of_In, in_concat.
      exists (group_local_files g ++ group_sources g). rewrite <- !list_elem_of_In.
      split; [|done]. apply list_elem_of_fmap. by exists g. }
  unfold success in Hs. destruct (att_result a) as [content'|] eqn:Hres; [|done].
  injection Hs as <- <-. split.
  - apply Hall. rewrite <- (attempts_keys env' (blocklist_max_fetch_bytes c) files urls trusted).
    apply list_elem_of_fmap. by exists a.
  - apply elem_of_app in Hin as [(p & -> & _)%list_elem_of_fmap|(i & u & -> & _)%elem_of_lookup_imap].
    + by eapply read_local_bounded.
    + by eapply fetch_remote_bounded.
Qed.

Lemma latest_elem h k content : latest h k = Some content → (k, content) ∈ h.
Proof.
  unfold latest. intros (p & Hp & ->)%fmap_Some. apply last_Some in Hp as [l' Hl].
  assert (p ∈ filter (λ p, p.1 = k) h) as [Hk Hin]%list_elem_of_filter.
  { rewrite Hl. set_solver. }
  subst k. by destruct p.
Qed.

Lemma list_to_set_size_le (l : list str) : (size (list_to_set l : gset str) ≤ length l)%nat.
Proof.
  induction l as [|x l IH]; [done|]. cbn [list_to_set foldr fmap list_fmap length] in *.
  rewrite size_union_alt, size_singleton.
  assert (size (list_to_set l ∖ {[x]} : gset str) ≤ size (list_to_set l : gset str))%nat
    by (apply subseteq_size; set_solver). lia.
Qed.

(** What the loader retains is bounded, whatever files and servers hold: the decodings of
    bodies of at most [max_fetch_bytes] bytes, of the configured sources alone. *)
Theorem loader_memory_bounded `{Unicode} `{RegexRules.RegexCrate} (c : BlocklistConfig) (t : Z)
    (rounds : list ((nat → Env) * Z)) :
  NoDup (group_name <$> blocklist_groups c) → 0 ≤ blocklist_max_fetch_bytes c →
  let l := (run_rounds c t rounds).1 in
  (size (last_good l) ≤ length (all_sources c))%nat
  ∧ ∀ k content, last_good l !! k = Some content →
      k ∈ all_sources c
      ∧ ∃ bytes, body_len bytes ≤ blocklist_max_fetch_bytes c ∧ content = from_utf8_lossy bytes.
Proof.
  intros Hn Hcap. pose proof (run_rounds_spec c t rounds Hn) as Hr. cbn zeta in Hr |- *.
  destruct (run_rounds c t rounds) as [l e]. destruct Hr as (Hk & _). cbn [fst].
  assert (∀ k content, last_good l !! k = Some content →
    k ∈ all_sources c
    ∧ ∃ bytes, body_len bytes ≤ blocklist_max_fetch_bytes c ∧ content = from_utf8_lossy bytes)
    as Hall.
  { intros k content Hl. rewrite Hk in Hl. apply latest_elem in Hl.
    unfold rounds_history in Hl. apply list_elem_of_omap in Hl as (a & Ha & Hs).
    apply list_elem_of_In, in_concat in Ha as (atts & Hatts & Ha).
    apply in_concat in Hatts as (ratts & Hratts%list_elem_of_In & Hatts).
    apply list_elem_of_fmap in Hratts as ([env now] & -> & _). apply (round_success c env); [done|].
    apply list_elem_of_omap. exists a. split; [|done]. apply list_elem_of_In, in_concat. by exists atts. }
  split; [|done]. rewrite <- size_dom.
  transitivity (size (list_to_set (all_sources c) : gset str)).
  - apply subseteq_size. intros k [content Hl]%elem_of_dom. apply elem_of_list_to_set.
    by eapply Hall.
  - apply list_to_set_size_le.
Qed.

(** ** Witnesses *)

Definition demo_list_config : BlocklistConfig :=
  {| blocklist_sources := ["https://lists.example/hosts"%rs];
     blocklist_trusted_rpz_sources := []; blocklist_local_files := ["a.txt"%rs];
     blocklist_block_response := Nxdomain; blocklist_sinkhole_ip := "0.0.0.0"%rs;
     blocklist_reload_interval_secs := 0; blocklist_fetch_timeout_ms := 0;
     blocklist_max_fetch_bytes := 32; blocklist_allowlist := [];
     blocklist_block_cname_cloaking := true; blocklist_response_ip_denylist := [];
     blocklist_regex_rules := []; blocklist_groups := [] |}.

(** First both sources are there; then the file is gone and the server says 503. *)
Definition demo_rounds : list ((nat → Env) * Z) :=
  [ (λ _, {| env_file := λ _, Some (as_bytes "ads.example.com"%rs);
             env_http := λ _ _, HttpReply 200 None [Some (as_bytes "bad."%rs);
                                                    Some (as_bytes "example.org"%rs)] |}, 1);
    (λ _, {| env_file := λ _, None; env_http := λ _ _, HttpReply 503 None [] |}, 2) ].

Example demo_first_read :
  current_feed demo_list_config demo_rounds 0
  = [("ads.example.com"%rs, Trusted); ("bad.example.org"%rs, Untrusted)].
Proof. vm_compute. reflexivity. Qed.

Lemma reloads_serve_latest_witness :
  @blocked_by ascii_only RegexRules.literal_regex (current_feed demo_list_config demo_rounds 0) []
    (engine_regex_rules (@new ascii_only RegexRules.literal_regex demo_list_config 0))
    "bad.example.org"%rs.
Proof.
  apply (proj1 (@reloads_serve_latest ascii_only RegexRules.literal_regex demo_list_config 0
    demo_rounds (NoDup_nil_2)) "Bad.Example.org."%rs eq_refl).
  vm_compute. reflexivity.
Defined.

Lemma loader_memory_bounded_witness :
  (size (last_good (@run_rounds ascii_only RegexRules.literal_regex demo_list_config 0
    demo_rounds).1) ≤ 2)%nat.
Proof.
  apply (@loader_memory_bounded ascii_only RegexRules.literal_regex demo_list_config 0 demo_rounds
    NoDup_nil_2). vm_compute. discriminate.
Defined.
