(* ===== verification/Rounds.v ===== *)
(** * Rounds: blocklist rounds that overlap
    ([rustydnsd/src/blocklist_loader.rs], [main.rs])

    The timer and SIGHUP share one loader and one engine, and nothing keeps their rounds
    apart.  Here a round goes through its lists (the global one, then the groups) step by
    step: it reads a local file, takes its result (remembering what was read, falling back on
    what is remembered), and so on with the next; it fetches the remote sources, and takes
    their results one by one; it publishes the list.  Any number of rounds may be under way,
    and between two steps of one the others may take any; the shared cache and the engine are
    those of the moment. *)

From S2P Require Import Prelude RustStr Net Config Engine Loader.
From S2P Require RegexRules BlocklistParser Allowlist.

(** The sources of a list. *)
Record SourceList := { sl_files : list str; sl_remote : list str; sl_trusted : list str }.

Definition group_list (g : BlocklistGroup) : SourceList :=
  {| sl_files := group_local_files g; sl_remote := group_sources g;
     sl_trusted := group_trusted_rpz_sources g |}.

(** The lists of a configuration: the global one, then those of the groups. *)
Definition source_lists (c : BlocklistConfig) : list SourceList :=
  {| sl_files := blocklist_local_files c; sl_remote := blocklist_sources c;
     sl_trusted := blocklist_trusted_rpz_sources c |} :: (group_list <$> blocklist_groups c).

Section rounds.
Context `{Unicode} `{RegexRules.RegexCrate}.

(** What a round has gathered of a list, and how many sources failed. *)
Definition gathered : Type := list (str * BlocklistSource) * Z.

(** Where a round is in a list: before the files that are left; after the read of one, whose
    result is still to be taken; or before the remote results that are left, after the last
    of which it publishes. *)
Inductive phase :=
| Files (files : list str) (got : gathered)
| FileRead (path : str) (res : result load_error str) (files : list str) (got : gathered)
| Results (results : list attempt) (got : gathered).

Record Rounds := {
  rs_loader : BlocklistLoader;
  rs_engine : BlocklistEngine;
  rs_active : gmap nat (nat * phase);
}.

(** The results of the bounded concurrent fetches, put back in order. *)
Definition fetch_all (env : Env) (cap : Z) (sl : SourceList) : list attempt :=
  imap (λ idx url, {| att_key := url; att_trust := trust_of (sl_trusted sl) url;
                      att_result := fetch_remote env cap idx url |}) (sl_remote sl).

(** One result is taken. *)
Definition take_result (a : attempt) (got : gathered) (l : BlocklistLoader) : gathered * BlocklistLoader :=
  let g := take_source (att_key a) (att_trust a) (att_result a)
             {| g_sources := got.1; g_failed := got.2; g_loader := l |} in
  ((g_sources g, g_failed g), g_loader g).

Definition local (path : str) (res : result load_error str) : attempt :=
  {| att_key := path; att_trust := Trusted; att_result := res |}.

Definition publish (c : BlocklistConfig) (i : nat) (sources : list (str * BlocklistSource)) (now : Z)
    (e : BlocklistEngine) : BlocklistEngine :=
  if bool_decide (length sources = 0%nat) then e
  else
    match i with
    | O => load_many_with_trust e sources now
    | S i =>
        match blocklist_groups c !! i with
        | Some g =>
            load_group e (group_name g) sources (blocklist_allowlist c ++ group_allowlist g) now
        | None => e
        end
    end.

Inductive round_event :=
| Start (id : nat)
| Step (id : nat) (env : Env) (now : Z).

Definition set_active (id : nat) (p : nat * phase) (s : Rounds) : Rounds :=
  {| rs_loader := rs_loader s; rs_engine := rs_engine s; rs_active := <[id := p]> (rs_active s) |}.

(** A round begins its [i]-th list, or is through. *)
Definition enter (id i : nat) (s : Rounds) : Rounds :=
  match source_lists (ld_config (rs_loader s)) !! i with
  | Some sl => set_active id (i, Files (sl_files sl) ([], 0)) s
  | None => {| rs_loader := rs_loader s; rs_engine := rs_engine s; rs_active := delete id (rs_active s) |}
  end.

(** A round takes a result and goes on as [p] says. *)
Definition take_step (id i : nat) (a : attempt) (got : gathered) (p : gathered → phase) (s : Rounds) :
    Rounds :=
  let '(got, l) := take_result a got (rs_loader s) in
  {| rs_loader := l; rs_engine := rs_engine s; rs_active := <[id := (i, p got)]> (rs_active s) |}.

Definition round_step (s : Rounds) (ev : round_event) : Rounds :=
  let c := ld_config (rs_loader s) in
  let cap := blocklist_max_fetch_bytes c in
  match ev with
  | Start id => match rs_active s !! id with None => enter id 0 s | Some _ => s end
  | Step id env now =>
      match rs_active s !! id with
      | Some (i, Files (path :: files) got) =>
          set_active id (i, FileRead path (read_local env cap path) files got) s
      | Some (i, FileRead path res files got) => take_step id i (local path res) got (Files files) s
      | Some (i, Files [] got) =>
          match source_lists c !! i with
          | Some sl => set_active id (i, Results (fetch_all env cap sl) got) s
          | None => s
          end
      | Some (i, Results (a :: results) got) => take_step id i a got (Results results) s
      | Some (i, Results [] got) =>
          enter id (S i) {| rs_loader := rs_loader s; rs_engine := publish c i got.1 now (rs_engine s);
                            rs_active := rs_active s |}
      | None => s
      end
  end.

Definition overlap (s : Rounds) (events : list round_event) : Rounds := foldl round_step s events.

Definition rounds_new (c : BlocklistConfig) (t : Z) : Rounds :=
  {| rs_loader := loader_new c; rs_engine := new c t; rs_active := ∅ |}.

Lemma overlap_app s events events' : overlap s (events ++ events') = overlap (overlap s events) events'.
Proof. apply foldl_app. Qed.

(** ** A round alone *)

(** The results of a list, each taken right after the one before. *)
Definition take_results (results : list attempt) (got : gathered) (l : BlocklistLoader) :
    gathered * BlocklistLoader :=
  foldl (λ s a, take_result a s.1 s.2) (got, l) results.

Lemma take_results_foldl results g :
  take_results results (g_sources g, g_failed g) (g_loader g) =
    let g := foldl (λ g a, take_source (att_key a) (att_trust a) (att_result a) g) g results in
    ((g_sources g, g_failed g), g_loader g).
Proof.
  unfold take_results. revert g. induction results as [|a results IH]; intros g; [done|].
  cbn [foldl fst snd]. rewrite <- IH. unfold take_result. by destruct g.
Qed.

Lemma take_result_config a got l : ld_config (take_result a got l).2 = ld_config l.
Proof.
  unfold take_result, take_source. cbn [g_loader]. destruct (att_result a); [done|].
  by destruct (last_good_content _ _).
Qed.

Lemma take_results_config results got l : ld_config (take_results results got l).2 = ld_config l.
Proof.
  unfold take_results. revert got l. induction results as [|a results IH]; intros got l; [done|].
  cbn [foldl fst snd]. destruct (take_result a got l) as [got' l'] eqn:E. rewrite IH.
  change l' with (got', l').2. by rewrite <- E, take_result_config.
Qed.

Definition file_attempts (env : Env) (cap : Z) (files : list str) : list attempt :=
  (λ path, local path (read_local env cap path)) <$> files.

(** What is attempted for a list in an environment. *)
Definition list_attempts (env : Env) (cap : Z) (sl : SourceList) : list attempt :=
  attempts env cap (sl_files sl) (sl_remote sl) (sl_trusted sl).

Lemma list_attempts_app env cap sl :
  list_attempts env cap sl = file_attempts env cap (sl_files sl) ++ fetch_all env cap sl.
Proof. done. Qed.

(** The steps of a round for a list. *)
Definition list_steps (id : nat) (env : Env) (now : Z) (sl : SourceList) : list round_event :=
  replicate (2 * length (sl_files sl)) (Step id env now)
  ++ Step id env now :: replicate (length (sl_remote sl)) (Step id env now) ++ [Step id env now].

Definition taken (id i : nat) (p : gathered → phase) (r : gathered * BlocklistLoader) (s : Rounds) : Rounds :=
  {| rs_loader := r.2; rs_engine := rs_engine s; rs_active := <[id := (i, p r.1)]> (rs_active s) |}.

Lemma files_run id env now i files got s :
  rs_active s !! id = Some (i, Files files got) →
  overlap s (replicate (2 * length files) (Step id env now)) =
    taken id i (Files [])
      (take_results (file_attempts env (blocklist_max_fetch_bytes (ld_config (rs_loader s))) files) got
         (rs_loader s)) s.
Proof.
  revert got s. induction files as [|path files IH]; intros got s Hid.
  { unfold taken. cbn. rewrite insert_id by done. by destruct s. }
  replace (2 * length (path :: files))%nat with (S (S (2 * length files))) by (cbn [length]; lia).
  cbn [replicate]. unfold overlap. cbn [foldl]. unfold round_step at 3. rewrite Hid.
  unfold round_step at 2. cbn [set_active rs_active]. rewrite lookup_insert_eq. unfold take_step.
  unfold set_active. cbn [rs_loader rs_engine rs_active].
  cbn [file_attempts fmap list_fmap take_results foldl fst snd].
  set (a := local path _). destruct (take_result a got (rs_loader s)) as [got' l'] eqn:E.
  assert (ld_config l' = ld_config (rs_loader s)) as Hc.
  { change l' with (got', l').2. by rewrite <- E, take_result_config. }
  rewrite insert_insert_eq.
  etrans; [apply (IH got'); apply lookup_insert_eq|].
  unfold taken. cbn [rs_loader rs_engine rs_active]. by rewrite insert_insert_eq, Hc.
Qed.

Lemma results_run id env now i results got s :
  rs_active s !! id = Some (i, Results results got) →
  overlap s (replicate (length results) (Step id env now)) =
    taken id i (Results []) (take_results results got (rs_loader s)) s.
Proof.
  revert got s. induction results as [|a results IH]; intros got s Hid.
  { unfold taken. cbn. rewrite insert_id by done. by destruct s. }
  cbn [length replicate]. unfold overlap. cbn [foldl]. unfold round_step at 2. rewrite Hid.
  unfold take_step. cbn [take_results foldl fst snd].
  destruct (take_result a got (rs_loader s)) as [got' l'].
  etrans; [apply (IH got'); apply lookup_insert_eq|].
  unfold taken. cbn [rs_loader rs_engine rs_active]. by rewrite insert_insert_eq.
Qed.

Lemma list_steps_run id (env : Env) now s i sl :
  rs_active s !! id = Some (i, Files (sl_files sl) ([], 0)) →
  source_lists (ld_config (rs_loader s)) !! i = Some sl →
  let c := ld_config (rs_loader s) in
  let r := take_results (list_attempts env (blocklist_max_fetch_bytes c) sl) ([], 0) (rs_loader s) in
  overlap s (list_steps id env now sl) =
    enter id (S i) {| rs_loader := r.2; rs_engine := publish c i r.1.1 now (rs_engine s);
                      rs_active := <[id := (i, Results [] r.1)]> (rs_active s) |}.
Proof.
  intros Hid Hsl c r. fold c in Hsl.
  unfold list_steps. rewrite overlap_app, (files_run _ _ _ _ _ _ _ Hid). fold c.
  set (s1 := taken _ _ _ _ _). set (cap := blocklist_max_fetch_bytes c) in *.
  assert (ld_config (rs_loader s1) = c) as Hc1 by apply take_results_config.
  assert (∃ got1, rs_active s1 !! id = Some (i, Files [] got1)
    ∧ got1 = (take_results (file_attempts env cap (sl_files sl)) ([], 0) (rs_loader s)).1) as (got1 & Hid1 & Hg1).
  { eexists. split; [apply lookup_insert_eq|done]. }
  change (Step id env now :: ?l) with ([Step id env now] ++ l). rewrite !overlap_app.
  assert (overlap s1 [Step id env now] = set_active id (i, Results (fetch_all env cap sl) got1) s1) as ->.
  { unfold overlap. cbn [foldl]. unfold round_step. by rewrite Hid1, Hc1, Hsl. }
  assert (length (sl_remote sl) = length (fetch_all env cap sl)) as -> by (unfold fetch_all; by rewrite length_imap).
  rewrite (results_run id env now i (fetch_all env cap sl) got1) by apply lookup_insert_eq.
  set (s2 := taken _ _ _ _ _).
  assert (take_results (fetch_all env cap sl) got1 (rs_loader s1) = r) as Hr.
  { subst r got1. rewrite list_attempts_app. unfold s1, taken, take_results. cbn [rs_loader].
    rewrite (foldl_app _ (file_attempts _ _ _)). by destruct (foldl _ _ (file_attempts _ _ _)). }
  assert (ld_config (rs_loader s2) = c) as Hc2.
  { unfold s2, taken. cbn [rs_loader set_active]. by rewrite take_results_config. }
  unfold overlap. cbn [foldl]. unfold round_step. rewrite Hc2.
  unfold s2, taken in *. cbn [rs_active rs_loader rs_engine set_active] in *. rewrite lookup_insert_eq, Hr.
  unfold s1, taken. cbn [rs_active rs_engine]. by rewrite !insert_insert_eq.
Qed.

(** The steps for the groups from the [i]-th on, each list in its own environment. *)
Fixpoint lists_steps (id : nat) (env : nat → Env) (now : Z) (i : nat) (sls : list SourceList) :
    list round_event :=
  match sls with
  | [] => []
  | sl :: sls => list_steps id (env i) now sl ++ lists_steps id env now (S i) sls
  end.

Definition round_steps (id : nat) (env : nat → Env) (now : Z) (c : BlocklistConfig) :
    list round_event :=
  Start id :: lists_steps id env now 0 (source_lists c).

Lemma enter_list id i s sl :
  source_lists (ld_config (rs_loader s)) !! i = Some sl →
  enter id i s = set_active id (i, Files (sl_files sl) ([], 0)) s.
Proof. unfold enter. by intros ->. Qed.

Lemma groups_run id (env : nat → Env) now c gs i s :
  ld_config (rs_loader s) = c → drop i (blocklist_groups c) = gs →
  let '(l, e) := foldl (reload_group (λ i, env (S i)) now) (rs_loader s, rs_engine s)
                   (imap (λ j g, ((i + j)%nat, g)) gs) in
  let s' := overlap (enter id (S i) s) (lists_steps id env now (S i) (group_list <$> gs)) in
  rs_loader s' = l ∧ rs_engine s' = e.
Proof.
  revert i s. induction gs as [|g gs IH]; intros i s Hc Hgs.
  { cbn. unfold enter. by case_match. }
  assert (blocklist_groups c !! i = Some g) as Hi.
  { rewrite <- (Nat.add_0_r i), <- lookup_drop, Hgs. done. }
  assert (drop (S i) (blocklist_groups c) = gs) as Hgs'.
  { rewrite <- (Nat.add_1_r i), <- drop_drop, Hgs. done. }
  assert (source_lists c !! S i = Some (group_list g)) as Hsl.
  { change (source_lists c !! S i) with ((group_list <$> blocklist_groups c) !! i).
    by rewrite list_lookup_fmap, Hi. }
  rewrite (enter_list id (S i) s (group_list g)) by by rewrite Hc.
  cbn [imap foldl fmap list_fmap lists_steps]. rewrite Nat.add_0_r, overlap_app.
  rewrite (list_steps_run id (env (S i)) now (set_active id _ s) (S i) (group_list g));
    [|apply lookup_insert_eq|cbn [set_active rs_loader]; by rewrite Hc].
  cbn [set_active rs_loader rs_engine rs_active]. set (s1 := {| rs_loader := _ |}). specialize (IH (S i) s1).
  assert (imap (compose (λ j g, ((i + j)%nat, g)) S) gs = imap (λ j g, ((S i + j)%nat, g)) gs) as ->.
  { apply imap_ext. intros j x _. cbn. f_equal. lia. }
  assert (reload_group (λ i, env (S i)) now (rs_loader s, rs_engine s) (i, g)
    = (rs_loader s1, rs_engine s1)) as ->.
  { cbn [reload_group]. rewrite gather_foldl. unfold s1, publish. cbn [rs_loader rs_engine].
    pose proof (take_results_foldl (list_attempts (env (S i)) (blocklist_max_fetch_bytes (ld_config (rs_loader s)))
      (group_list g)) {| g_sources := []; g_failed := 0; g_loader := rs_loader s |}) as Hr.
    cbn [g_sources g_failed g_loader] in Hr. rewrite Hr. cbn [fst snd]. by rewrite Hc, Hi. }
  apply IH; [|done]. unfold s1. cbn [rs_loader]. by rewrite take_results_config.
Qed.

(** A round that meets no other is the round of [Loader]. *)
Theorem round_alone (id : nat) (env : nat → Env) (now : Z) (s : Rounds) :
  rs_active s !! id = None →
  let '(_, l, e) := reload env now (rs_loader s) (rs_engine s) in
  let s' := overlap s (round_steps id env now (ld_config (rs_loader s))) in
  rs_loader s' = l ∧ rs_engine s' = e.
Proof.
  intros Hid. set (c := ld_config (rs_loader s)). unfold round_steps, source_lists.
  set (sl := {| sl_files := _ |}). cbn [lists_steps].
  change (Start id :: ?l) with ([Start id] ++ l). rewrite !overlap_app.
  assert (overlap s [Start id] = set_active id (0%nat, Files (sl_files sl) ([], 0)) s) as ->.
  { unfold overlap. cbn [foldl]. unfold round_step. rewrite Hid. by apply enter_list. }
  rewrite (list_steps_run id (env 0%nat) now (set_active id _ s) 0 sl) by (done || apply lookup_insert_eq).
  cbn [set_active rs_loader rs_engine rs_active]. set (s1 := {| rs_loader := _ |}).
  pose proof (groups_run id env now c (blocklist_groups c) 0 s1 (take_results_config _ _ _) eq_refl) as Hg.
  unfold reload. fold c. rewrite gather_foldl.
  pose proof (take_results_foldl (list_attempts (env 0%nat) (blocklist_max_fetch_bytes c) sl)
    {| g_sources := []; g_failed := 0; g_loader := rs_loader s |}) as Hr.
  cbn [g_sources g_failed g_loader] in Hr. unfold s1, publish in *. fold c in Hg |- *.
  rewrite Hr in Hg |- *. cbn [fst snd rs_loader rs_engine] in Hg |- *.
  assert (imap (λ j g, ((0 + j)%nat, g)) (blocklist_groups c) = imap pair (blocklist_groups c)) as Him
    by (by apply imap_ext). rewrite Him in Hg.
  change (attempts (env 0%nat) _ _ _ _) with (list_attempts (env 0%nat) (blocklist_max_fetch_bytes c) sl).
  destruct (foldl (reload_group _ _) _ _) as [l e]. exact Hg.
Qed.

(** ** Rounds that overlap *)

(** What an event takes from a source, and what some events do. *)
Definition took (s : Rounds) (ev : round_event) : list (str * str) :=
  match ev with
  | Start _ => []
  | Step id _ _ =>
      match rs_active s !! id with
      | Some (_, FileRead path res _ _) => option_list (success (local path res))
      | Some (_, Results (a :: _) _) => option_list (success a)
      | _ => []
      end
  end.

Fixpoint history (s : Rounds) (events : list round_event) : list (str * str) :=
  match events with
  | [] => []
  | ev :: events => took s ev ++ history (round_step s ev) events
  end.

Lemma history_snoc s events ev :
  history s (events ++ [ev]) = history s events ++ took (overlap s events) ev.
Proof.
  revert s. induction events as [|ev' events IH]; intros s; cbn [app history]; [by rewrite app_nil_r|].
  rewrite IH. unfold overlap. cbn [foldl]. by rewrite app_assoc.
Qed.

(** The allowlist of a list, and its state in an engine. *)
Definition list_allow (c : BlocklistConfig) (i : nat) : list str :=
  match i with
  | O => blocklist_allowlist c
  | S i => blocklist_allowlist c ++ from_option group_allowlist [] (blocklist_groups c !! i)
  end.
Definition list_state (c : BlocklistConfig) (i : nat) (e : BlocklistEngine) : option BlocklistState :=
  match i with
  | O => Some (state e)
  | S i => g ← blocklist_groups c !! i; groups e !! group_name g
  end.

Section overlap.
Context (c : BlocklistConfig) (t : Z).

(** The rounds after the first [k] of some events, and what was taken by then. *)
Definition rounds_at (events : list round_event) (k : nat) : Rounds := overlap (rounds_new c t) (take k events).
Definition taken_by (events : list round_event) (k : nat) : list (str * str) :=
  history (rounds_new c t) (take k events).

(** The [j]-th source of the [i]-th list, with what some event could read of it. *)
Definition attempt_of (events : list round_event) (i j : nat) (a : attempt) : Prop :=
  ∃ id env now sl, Step id env now ∈ events ∧ source_lists c !! i = Some sl
    ∧ list_attempts env (blocklist_max_fetch_bytes c) sl !! j = Some a.

Definition readable (events : list round_event) (p : str * str) : Prop :=
  ∃ i j a, attempt_of events i j a ∧ success a = Some p.

(** After [k0] events the round [id] begins the [i]-th list, with sources [sl]. *)
Definition begins (events : list round_event) (id i : nat) (sl : SourceList) (k0 : nat) : Prop :=
  source_lists c !! i = Some sl ∧ (k0 <= length events)%nat
  ∧ rs_active (rounds_at events k0) !! id = Some (i, Files (sl_files sl) ([], 0)).

(** What the round [id] has gathered from [k0] to [k]: it takes the results of its attempts at
    moments of its own, one after the other, each for the last content that was taken of its
    source by any round up to that moment. *)
Inductive gathers (events : list round_event) (id k0 : nat) :
    nat → list attempt → list (str * BlocklistSource) → Prop :=
| gathers_begin : gathers events id k0 k0 [] []
| gathers_take k k' env now atts sources a :
    gathers events id k0 k atts sources →
    (k <= k')%nat → events !! k' = Some (Step id env now) →
    taken_by events (S k') = taken_by events k' ++ option_list (success a) →
    gathers events id k0 (S k') (atts ++ [a])
      (sources ++ option_list ((λ content, (content, att_trust a)) <$>
                                 latest (taken_by events (S k')) (att_key a))).

Definition tried (events : list round_event) (i : nat) (atts : list attempt) : Prop :=
  ∀ j a, atts !! j = Some a → attempt_of events i j a.

(** A list that a round gathered to its end, between two moments. *)
Definition gathered_list (events : list round_event) (i : nat) (sources : list (str * BlocklistSource)) : Prop :=
  ∃ id sl k0 k atts, begins events id i sl k0 ∧ gathers events id k0 k atts sources
    ∧ tried events i atts ∧ length atts = (length (sl_files sl) + length (sl_remote sl))%nat
    ∧ ∀ a, a ∈ atts → is_Some (latest (taken_by events k0) (att_key a)) →
        ∃ content, (content, att_trust a) ∈ sources.

(** *** More events *)

Lemma rounds_at_more events ev k : (k <= length events)%nat → rounds_at (events ++ [ev]) k = rounds_at events k.
Proof. intros Hk. unfold rounds_at. by rewrite take_app_le. Qed.

Lemma taken_by_more events ev k : (k <= length events)%nat → taken_by (events ++ [ev]) k = taken_by events k.
Proof. intros Hk. unfold taken_by. by rewrite take_app_le. Qed.

Lemma taken_by_all events : taken_by events (length events) = history (rounds_new c t) events.
Proof. unfold taken_by. by rewrite firstn_all. Qed.

Lemma attempt_of_more events ev i j a : attempt_of events i j a → attempt_of (events ++ [ev]) i j a.
Proof.
  intros (id & env & now & sl & Hin & Hrest). exists id, env, now, sl.
  split; [|done]. apply elem_of_app. by left.
Qed.

Lemma begins_more events ev id i sl k0 : begins events id i sl k0 → begins (events ++ [ev]) id i sl k0.
Proof.
  intros (Hsl & Hk & Ha). split; [done|]. split; [rewrite length_app; lia|]. by rewrite rounds_at_more.
Qed.

Lemma gathers_more events ev id k0 k atts sources :
  gathers events id k0 k atts sources → gathers (events ++ [ev]) id k0 k atts sources.
Proof.
  induction 1 as [|k k' env now atts sources a Hg IH Hk Hev Ht]; [constructor|].
  pose proof (lookup_lt_Some _ _ _ Hev) as Hlt.
  rewrite <- (taken_by_more events ev (S k')) by lia. apply (gathers_take _ _ _ k k' env now); [done..| |].
  - by rewrite lookup_app_l.
  - by rewrite !taken_by_more by lia.
Qed.

Lemma gathers_le events id k0 k atts sources :
  (k0 <= length events)%nat → gathers events id k0 k atts sources → (k0 <= k <= length events)%nat.
Proof.
  intros Hlo. induction 1 as [|k k' env now atts sources a Hg IH Hk Hev _]; [done|].
  apply lookup_lt_Some in Hev. lia.
Qed.

Lemma history_prefix s events k : history s (take k events) `prefix_of` history s events.
Proof.
  revert s k. induction events as [|ev events IH]; intros s [|k]; [done..|apply prefix_nil|].
  cbn [take history]. apply prefix_app, IH.
Qed.

Lemma taken_by_prefix events k k' : (k <= k')%nat → taken_by events k `prefix_of` taken_by events k'.
Proof.
  intros Hk. unfold taken_by. replace (take k events) with (take k (take k' events)).
  - apply history_prefix.
  - rewrite take_take. f_equal. lia.
Qed.

(** A source that was taken before a round began the list is in it. *)
Lemma gathers_known events id k0 k atts sources a :
  (k0 <= length events)%nat → gathers events id k0 k atts sources → a ∈ atts →
  is_Some (latest (taken_by events k0) (att_key a)) → ∃ content, (content, att_trust a) ∈ sources.
Proof.
  intros Hlo Hg Ha Hk. induction Hg as [|k k' env now atts sources b Hg IH Hle Hev _]; [by apply elem_of_nil in Ha|].
  apply elem_of_app in Ha as [Ha|Ha%list_elem_of_singleton]; [|subst b].
  - destruct (IH Ha) as [content Hc]. exists content. apply elem_of_app. by left.
  - pose proof (gathers_le _ _ _ _ _ _ Hlo Hg) as Hb.
    destruct (taken_by_prefix events k0 (S k')) as [rest Hrest]; [lia|].
    assert (is_Some (latest (taken_by events (S k')) (att_key a))) as [content Hc].
    { rewrite Hrest. by apply latest_app_known. }
    exists content. apply elem_of_app. right. rewrite Hc. by left.
Qed.

(** *** What is true of a round that is under way *)

Definition got_of (p : phase) : gathered :=
  match p with Files _ got | FileRead _ _ _ got | Results _ got => got end.

Definition left_over (events : list round_event) (i : nat) (sl : SourceList) (n : nat) (p : phase) : Prop :=
  match p with
  | Files files _ => (n <= length (sl_files sl))%nat ∧ files = drop n (sl_files sl)
  | FileRead path res files _ =>
      attempt_of events i n (local path res) ∧ (n < length (sl_files sl))%nat ∧ files = drop (S n) (sl_files sl)
  | Results results _ =>
      (n + length results)%nat = (length (sl_files sl) + length (sl_remote sl))%nat
      ∧ ∀ j a, results !! j = Some a → attempt_of events i (n + j) a
  end.

Definition round_at (events : list round_event) (id i : nat) (p : phase) : Prop :=
  ∃ sl k0 k atts, begins events id i sl k0 ∧ gathers events id k0 k atts (got_of p).1
    ∧ tried events i atts ∧ left_over events i sl (length atts) p.

Lemma left_over_more events ev i sl n p : left_over events i sl n p → left_over (events ++ [ev]) i sl n p.
Proof.
  destruct p; cbn; [done|intros [? ?]; split; [by apply attempt_of_more|done]|].
  intros [? Ha]. split; [done|]. intros j a ?. by apply attempt_of_more, Ha.
Qed.

Lemma tried_more events ev i atts : tried events i atts → tried (events ++ [ev]) i atts.
Proof. intros Ht j a ?. by apply attempt_of_more, Ht. Qed.

Lemma round_at_more events ev id i p : round_at events id i p → round_at (events ++ [ev]) id i p.
Proof.
  intros (sl & k0 & k & atts & Hb & Hg & Ht & Hl). exists sl, k0, k, atts.
  split; [by apply begins_more|]. split; [by apply gathers_more|].
  split; [by apply tried_more|by apply left_over_more].
Qed.

Lemma gathered_list_more events ev i sources :
  gathered_list events i sources → gathered_list (events ++ [ev]) i sources.
Proof.
  intros (id & sl & k0 & k & atts & Hb & Hg & Ht & Hn & Hk). exists id, sl, k0, k, atts.
  split; [by apply begins_more|]. split; [by apply gathers_more|]. split; [by apply tried_more|].
  split; [done|]. destruct Hb as (_ & Hlo & _). by rewrite taken_by_more.
Qed.

Lemma take_result_spec h a got l :
  knows h l →
  let h' := h ++ option_list (success a) in
  let '(got', l') := take_result a got l in
  got'.1 = got.1 ++ option_list ((λ content, (content, att_trust a)) <$> latest h' (att_key a))
  ∧ knows h' l' ∧ ld_config l' = ld_config l.
Proof.
  intros Hl h'. subst h'. unfold take_result, take_source, success, last_good_content.
  cbn [g_loader g_sources g_failed]. destruct (att_result a) as [content|e]; unfold option_list; cbn [option_rect].
  - rewrite latest_snoc, decide_True by done. split; [done|]. split; [|done].
    intros key. cbn [g_loader last_good remember_last_good].
    rewrite latest_snoc. case_decide as Hkey; [by rewrite Hkey, lookup_insert_eq|by rewrite lookup_insert_ne].
  - rewrite app_nil_r, Hl. destruct (latest h (att_key a)); cbn; by rewrite ?app_nil_r.
Qed.

(** *** The invariant *)

(** A list is as it was at the start, or as some round gathered it. *)
Definition list_served (events : list round_event) (i : nat) (e : BlocklistEngine) : Prop :=
  list_state c i e = list_state c i (new c t)
  ∨ ∃ st sources, list_state c i e = Some st ∧ gathered_list events i sources
      ∧ shows st sources (list_allow c i) (engine_regex_rules (new c t)).

Record overlap_inv (events : list round_event) (s : Rounds) : Prop := {
  ov_knows : knows (history (rounds_new c t) events) (rs_loader s);
  ov_config : ld_config (rs_loader s) = c;
  ov_setup : same_setup (new c t) (rs_engine s);
  ov_read : Forall (readable events) (history (rounds_new c t) events);
  ov_rounds id i p : rs_active s !! id = Some (i, p) → round_at events id i p;
  ov_lists i : list_served events i (rs_engine s);
}.

Lemma list_served_more events ev i e : list_served events i e → list_served (events ++ [ev]) i e.
Proof.
  intros [?|(st & sources & ? & Hg & ?)]; [by left|right]. exists st, sources.
  split; [done|]. split; [by apply gathered_list_more|done].
Qed.

Lemma readable_more events ev p : readable events p → readable (events ++ [ev]) p.
Proof. intros (i & j & a & Ha & Hs). exists i, j, a. split; [by apply attempt_of_more|done]. Qed.

(** What a step must show. *)
Lemma overlap_inv_next events ev :
  let s := overlap (rounds_new c t) events in
  let s' := round_step s ev in
  overlap_inv events s →
  knows (history (rounds_new c t) events ++ took s ev) (rs_loader s') → ld_config (rs_loader s') = c →
  same_setup (new c t) (rs_engine s') → Forall (readable events) (took s ev) →
  (∀ id i p, rs_active s' !! id = Some (i, p) →
     rs_active s !! id = Some (i, p) ∨ round_at (events ++ [ev]) id i p) →
  (∀ i, list_served events i (rs_engine s')) →
  overlap_inv (events ++ [ev]) s'.
Proof.
  intros s s' [_ _ _ Hr Hp _] Hk Hc Hs Hr' Hp' Hl. constructor; rewrite ?history_snoc; try done.
  - apply Forall_app. split; (eapply list.Forall_impl; [eassumption|]; intros p; apply readable_more).
  - intros id i p [?%Hp|?]%Hp'; [by apply round_at_more|done].
  - intros i. by apply list_served_more.
Qed.

Lemma publish_served events i sources now e j :
  NoDup (group_name <$> blocklist_groups c) → config e = c → engine_regex_rules e = engine_regex_rules (new c t) →
  gathered_list events i sources → list_served events j e → list_served events j (publish c i sources now e).
Proof.
  intros Hn Hc Hre Hg Hj. unfold publish. case_bool_decide as Hnil; [done|]. destruct i as [|i].
  - destruct j as [|j]; [|exact Hj]. right. eexists _, sources. split; [done|]. split; [done|].
    cbn [list_allow]. rewrite <- Hre, <- Hc. apply build_state_shows.
  - destruct (blocklist_groups c !! i) as [g|] eqn:Hi; [|done].
    destruct (load_group_spec e (group_name g) sources (blocklist_allowlist c ++ group_allowlist g) now)
      as (_ & Hst & Hother & Hmine).
    destruct j as [|j]; [unfold list_served in *; cbn [list_state] in *; by rewrite Hst|].
    destruct (decide (j = i)) as [->|Hne].
    + destruct (groups e !! group_name g) as [st|] eqn:Hs.
      * right. destruct (Hmine st eq_refl) as (st' & Hs' & Hsh). exists st', sources.
        split; [cbn [list_state]; by rewrite Hi|]. split; [done|].
        cbn [list_allow]. rewrite Hi, <- Hre. exact Hsh.
      * replace (load_group e (group_name g) _ _ _) with e; [done|]. unfold load_group. by rewrite Hs.
    + unfold list_served in *. cbn [list_state] in *.
      destruct (blocklist_groups c !! j) as [g'|] eqn:Hj'; [|by left]. cbn [mbind option_bind] in *.
      rewrite Hother; [done|]. intros He. apply Hne.
      apply (NoDup_lookup (group_name <$> blocklist_groups c) _ _ (group_name g)); [done|..];
        rewrite list_lookup_fmap; [rewrite Hj'|rewrite Hi]; cbn; congruence.
Qed.

Lemma publish_setup i sources now e :
  same_setup (new c t) e → same_setup (new c t) (publish c i sources now e).
Proof.
  intros [Hc Hre]. unfold publish. case_match; [done|]. destruct i; [done|].
  destruct (blocklist_groups c !! _); [|done].
  destruct (load_group_spec e (group_name b) sources (blocklist_allowlist c ++ group_allowlist b) now)
    as ([? ?] & _). split; congruence.
Qed.

(** A round that enters a list has begun it. *)
Lemma enter_rounds events ev id i s1 :
  ld_config (rs_loader s1) = c → rounds_at (events ++ [ev]) (S (length events)) = enter id i s1 →
  ∀ id' j p, rs_active (enter id i s1) !! id' = Some (j, p) →
    rs_active s1 !! id' = Some (j, p) ∨ round_at (events ++ [ev]) id' j p.
Proof.
  intros Hc Hat id' j p Hp. pose proof Hp as Hp'. unfold enter in Hp. rewrite Hc in Hp.
  destruct (source_lists c !! i) as [sl|] eqn:Hsl; cbn [set_active rs_active] in Hp.
  - destruct (decide (id' = id)) as [->|Hne]; [|rewrite lookup_insert_ne in Hp by done; by left].
    rewrite lookup_insert_eq in Hp. injection Hp as <- <-. right.
    exists sl, (S (length events)), (S (length events)), []. split; [|split; [constructor|split; [done|]]].
    + split; [done|]. split; [rewrite length_app; cbn; lia|]. by rewrite Hat.
    + split; [cbn; lia|done].
  - left. apply lookup_delete_Some in Hp as [_ Hp]. done.
Qed.

Lemma rounds_at_next events ev :
  rounds_at (events ++ [ev]) (S (length events)) = round_step (overlap (rounds_new c t) events) ev.
Proof.
  unfold rounds_at. rewrite take_ge by (rewrite length_app; cbn; lia). by rewrite overlap_app.
Qed.

(** A step that leaves the loader and the engine. *)
Lemma overlap_inv_quiet events id env now i p :
  let s := overlap (rounds_new c t) events in
  let ev := Step id env now in
  overlap_inv events s → took s ev = [] → round_step s ev = set_active id (i, p) s →
  round_at (events ++ [ev]) id i p → overlap_inv (events ++ [ev]) (round_step s ev).
Proof.
  intros s ev Hi Ht Hs Hr. pose proof Hi as [Hk Hc Hset _ _ Hl].
  apply overlap_inv_next; [done|..]; fold s; rewrite ?Ht, ?Hs, ?app_nil_r; try done.
  intros id' j q. cbn [set_active rs_active]. destruct (decide (id' = id)) as [->|Hne].
  - rewrite lookup_insert_eq. intros [= <- <-]. by right.
  - rewrite lookup_insert_ne by done. by left.
Qed.

(** A step that takes a result. *)
Lemma overlap_inv_take events id env now i a got p sl k0 k atts :
  let s := overlap (rounds_new c t) events in
  let ev := Step id env now in
  overlap_inv events s → took s ev = option_list (success a) → round_step s ev = take_step id i a got p s →
  begins events id i sl k0 → gathers events id k0 k atts got.1 → tried events i atts →
  attempt_of events i (length atts) a →
  (∀ got', got_of (p got') = got' ∧ left_over events i sl (S (length atts)) (p got')) →
  overlap_inv (events ++ [ev]) (round_step s ev).
Proof.
  intros s ev Hi Ht Hs Hb Hg Htr Ha Hp. pose proof Hi as [Hk Hc Hset _ _ Hl].
  pose proof (take_result_spec (history (rounds_new c t) events) a got (rs_loader s) Hk) as Hspec.
  cbv zeta in Hspec. unfold take_step in Hs. destruct (take_result a got (rs_loader s)) as [got' l'].
  destruct Hspec as (Hgot & Hk' & Hc').
  apply overlap_inv_next; [done|..]; fold s; rewrite ?Ht, ?Hs; cbn [rs_loader rs_engine rs_active]; try done.
  - congruence.
  - destruct (success a) as [q|] eqn:Hq; unfold option_list; cbn [option_rect]; [|constructor].
    constructor; [|constructor]. by exists i, (length atts), a.
  - intros id' j q. destruct (decide (id' = id)) as [->|Hne]; [|rewrite lookup_insert_ne by done; by left].
    rewrite lookup_insert_eq. intros [= <- <-]. right. destruct (Hp got') as [Hgo Hleft].
    pose proof (gathers_le _ _ _ _ _ _ (proj1 (proj2 Hb)) Hg) as Hle.
    assert (taken_by (events ++ [ev]) (S (length events)) = history (rounds_new c t) events ++ option_list (success a))
      as Hall.
    { replace (S (length events)) with (length (events ++ [ev])) by (rewrite length_app; cbn; lia).
      by rewrite taken_by_all, history_snoc, <- Ht. }
    exists sl, k0, (S (length events)), (atts ++ [a]). split; [by apply begins_more|].
    rewrite Hgo, Hgot, <- Hall. split; [|split].
    + apply (gathers_take _ _ _ k (length events) env now); [by apply gathers_more|lia| |].
      * by rewrite lookup_app_r, Nat.sub_diag by lia.
      * by rewrite Hall, taken_by_more, taken_by_all by lia.
    + intros n b Hn. apply attempt_of_more. apply lookup_app_Some in Hn as [Hn|[Hn1 Hn]]; [by apply Htr|].
      apply list_lookup_singleton_Some in Hn as [Hn <-]. by replace n with (length atts) by lia.
    + apply left_over_more. rewrite length_app. cbn [length]. by rewrite Nat.add_1_r.
Qed.

(** A step that publishes. *)
Lemma overlap_inv_publish events id env now i got :
  let s := overlap (rounds_new c t) events in
  let ev := Step id env now in
  NoDup (group_name <$> blocklist_groups c) → overlap_inv events s →
  rs_active s !! id = Some (i, Results [] got) → overlap_inv (events ++ [ev]) (round_step s ev).
Proof.
  intros s ev Hn Hi Hid. pose proof Hi as [Hk Hc Hset _ Hr Hl]. pose proof (rounds_at_next events ev) as Hnext.
  set (s1 := {| rs_loader := rs_loader s; rs_engine := publish c i got.1 now (rs_engine s);
                rs_active := rs_active s |}).
  assert (round_step s ev = enter id (S i) s1) as Hs by (unfold ev, round_step; by rewrite Hid, Hc).
  fold s in Hnext. rewrite Hs in Hnext.
  assert (took s ev = []) as Ht by (unfold ev, took; by rewrite Hid).
  assert (rs_loader (enter id (S i) s1) = rs_loader s ∧ rs_engine (enter id (S i) s1) = rs_engine s1) as [El Ee].
  { unfold enter. by case_match. }
  apply overlap_inv_next; [done|..]; fold s; rewrite ?Ht, ?Hs, ?El, ?Ee, ?app_nil_r; try done.
  - by apply publish_setup.
  - exact (enter_rounds events ev id (S i) s1 Hc Hnext).
  - destruct Hset as [Hcfg Hre]. intros j. cbn [rs_engine s1]. apply publish_served; [done..| |by apply Hl].
    destruct (Hr _ _ _ Hid) as (sl & k0 & k & atts & Hb & Hg & Htr & Hlen & _). cbn [got_of length] in *.
    exists id, sl, k0, k, atts. split; [done|]. split; [done|]. split; [done|]. split; [lia|].
    intros a. apply (gathers_known _ _ _ _ _ _ _ (proj1 (proj2 Hb)) Hg).
Qed.

Lemma overlap_inv_same events ev :
  let s := overlap (rounds_new c t) events in
  overlap_inv events s → took s ev = [] → round_step s ev = s → overlap_inv (events ++ [ev]) (round_step s ev).
Proof.
  intros s Hi Ht Hs. pose proof Hi as [Hk Hc Hset _ _ Hl].
  apply overlap_inv_next; [done|..]; fold s; rewrite ?Ht, ?Hs, ?app_nil_r; try done. intros id i p. by left.
Qed.

Lemma overlap_inv_start events id :
  let s := overlap (rounds_new c t) events in
  overlap_inv events s → overlap_inv (events ++ [Start id]) (round_step s (Start id)).
Proof.
  intros s Hi. destruct (rs_active s !! id) eqn:Hid.
  { apply overlap_inv_same; [done..|]. fold s. unfold round_step. by rewrite Hid. }
  pose proof Hi as [Hk Hc Hset _ _ Hl]. pose proof (rounds_at_next events (Start id)) as Hnext. fold s in Hnext.
  assert (round_step s (Start id) = enter id 0 s) as Hs by (unfold round_step; by rewrite Hid).
  rewrite Hs in Hnext.
  assert (rs_loader (enter id 0 s) = rs_loader s ∧ rs_engine (enter id 0 s) = rs_engine s) as [El Ee].
  { unfold enter. by case_match. }
  apply overlap_inv_next; [done|..]; fold s; rewrite ?Hs, ?El, ?Ee; cbn [took]; rewrite ?app_nil_r; try done.
  exact (enter_rounds events (Start id) id 0 s Hc Hnext).
Qed.

Lemma file_attempt env cap sl n path files :
  (n <= length (sl_files sl))%nat → path :: files = drop n (sl_files sl) →
  list_attempts env cap sl !! n = Some (local path (read_local env cap path))
  ∧ (n < length (sl_files sl))%nat ∧ files = drop (S n) (sl_files sl).
Proof.
  intros Hn Hd. assert (sl_files sl !! n = Some path) as Hp.
  { rewrite <- (Nat.add_0_r n), <- lookup_drop, <- Hd. done. }
  pose proof (lookup_lt_Some _ _ _ Hp) as Hlt. split; [|split; [done|]].
  - rewrite list_attempts_app, lookup_app_l by (unfold file_attempts; by rewrite length_fmap).
    unfold file_attempts. by rewrite list_lookup_fmap, Hp.
  - by rewrite <- (Nat.add_1_r n), <- drop_drop, <- Hd.
Qed.

Lemma remote_attempt env cap sl j a :
  fetch_all env cap sl !! j = Some a → list_attempts env cap sl !! (length (sl_files sl) + j)%nat = Some a.
Proof.
  intros Ha. rewrite list_attempts_app, lookup_app_r; unfold file_attempts; rewrite length_fmap; [|lia].
  by rewrite Nat.add_comm, Nat.add_sub.
Qed.

Lemma overlap_inv_step events ev :
  let s := overlap (rounds_new c t) events in
  NoDup (group_name <$> blocklist_groups c) → overlap_inv events s →
  overlap_inv (events ++ [ev]) (round_step s ev).
Proof.
  intros s Hn Hi. destruct ev as [id|id env now]; [by apply overlap_inv_start|].
  pose proof Hi as [_ Hc _ _ Hr _]. destruct (rs_active s !! id) as [[i p]|] eqn:Hid.
  2: { apply overlap_inv_same; [done|..]; fold s; unfold took, round_step; by rewrite Hid. }
  destruct (Hr _ _ _ Hid) as (sl & k0 & k & atts & Hb & Hg & Htr & Hleft). pose proof (proj1 Hb) as Hsl.
  assert (Step id env now ∈ events ++ [Step id env now]) as Hin by (apply elem_of_app; right; by left).
  destruct p as [[|path files] got|path res files got|[|a results] got]; cbn [left_over got_of] in Hleft, Hg.
  - destruct Hleft as [Hle Hd]. symmetry in Hd. apply (f_equal length) in Hd. rewrite length_drop in Hd. cbn in Hd.
    apply (overlap_inv_quiet events id env now i (Results (fetch_all env (blocklist_max_fetch_bytes c) sl) got) Hi);
      fold s; [unfold took; by rewrite Hid|unfold round_step; by rewrite Hid, Hc, Hsl|].
    exists sl, k0, k, atts. split; [by apply begins_more|]. split; [by apply gathers_more|].
    split; [by apply tried_more|]. split; [unfold fetch_all; rewrite length_imap; lia|].
    intros j a Ha%remote_attempt. exists id, env, now, sl. replace (length atts) with (length (sl_files sl)) by lia.
    done.
  - destruct Hleft as [Hle Hd]. destruct (file_attempt env (blocklist_max_fetch_bytes c) sl _ _ _ Hle Hd) as (Ha & Hlt & Hd').
    apply (overlap_inv_quiet events id env now i (FileRead path (read_local env (blocklist_max_fetch_bytes c) path) files got) Hi);
      fold s; [unfold took; by rewrite Hid|unfold round_step; by rewrite Hid, Hc|].
    exists sl, k0, k, atts. split; [by apply begins_more|]. split; [by apply gathers_more|].
    split; [by apply tried_more|]. split; [by exists id, env, now, sl|done].
  - destruct Hleft as (Ha & Hlt & Hd).
    apply (overlap_inv_take events id env now i (local path res) got (Files files) sl k0 k atts Hi);
      fold s; try done; try (unfold took, round_step; by rewrite Hid).
  - by apply (overlap_inv_publish events id env now i got).
  - destruct Hleft as [Hlen Ha].
    apply (overlap_inv_take events id env now i a got (Results results) sl k0 k atts Hi);
      fold s; try done; try (unfold took, round_step; by rewrite Hid).
    + replace (length atts) with (length atts + 0)%nat by lia. by apply Ha.
    + intros got'. split; [done|]. split; [cbn [length] in Hlen; lia|]. intros j b Hj.
      replace (S (length atts) + j)%nat with (length atts + S j)%nat by lia. by apply Ha.
Qed.

(** C17. Rounds of the timer and of signals may overlap.  However they do, the cache of the
    loader holds, for each source, the last content some round took of it, which a round
    really read of that source; and the list in force, the global one as that of each
    group, is either the one there was at the start, or blocks what the sources say that
    some round gathered to the end: it took the result of each of the list's sources at a
    moment of its own, one after the other, and each source counts with the last content that
    any round had taken of it by that moment.  A source that was ever taken before the round
    began the list is in it, so overlapping never opens a list. *)
Theorem overlapping_rounds_serve_read (events : list round_event) :
  NoDup (group_name <$> blocklist_groups c) →
  let s := overlap (rounds_new c t) events in
  let h := history (rounds_new c t) events in
  knows h (rs_loader s) ∧ Forall (readable events) h
  ∧ ∀ i, list_state c i (rs_engine s) = list_state c i (new c t)
      ∨ ∃ st sources id sl k0 k atts,
          list_state c i (rs_engine s) = Some st
          ∧ shows st sources (list_allow c i) (engine_regex_rules (new c t))
          ∧ begins events id i sl k0 ∧ gathers events id k0 k atts sources ∧ tried events i atts
          ∧ length atts = (length (sl_files sl) + length (sl_remote sl))%nat
          ∧ ∀ a, a ∈ atts → is_Some (latest (taken_by events k0) (att_key a)) →
              ∃ content, (content, att_trust a) ∈ sources.
Proof.
  intros Hn s h. assert (overlap_inv events s) as Hi.
  { subst s h. induction events as [|ev events IH] using rev_ind.
    - constructor; try done. by left.
    - rewrite overlap_app. by apply overlap_inv_step. }
  destruct Hi as [Hk Hc _ Hr _ Hl]. split; [done|]. split; [done|]. intros i.
  destruct (Hl i) as [?|(st & sources & Hst & (id & sl & k0 & k & atts & Hrest) & Hsh)]; [by left|right].
  by exists st, sources, id, sl, k0, k, atts.
Qed.
End overlap.
End rounds.

(** ** Witnesses: a slow round that publishes what is out of date *)

(** The file [a.txt] holds one name, and the server says nothing. *)
Definition demo_file (content : str) : Env :=
  {| env_file := λ _, Some (as_bytes content); env_http := λ _ _, SendFailed |}.

(** The first round reads the file; then it is replaced, and a second round reads, takes and
    publishes it; only then does the first round go on. *)
Definition demo_overlap : list round_event :=
  let old := demo_file "ads.example.com"%rs in
  let new := demo_file "ads.example.org"%rs in
  [Start 0; Start 1; Step 0 old 1] ++ replicate 5 (Step 1 new 2) ++ replicate 4 (Step 0 new 3).

Definition demo_engine_after (events : list round_event) : BlocklistEngine :=
  rs_engine (@overlap ascii_only RegexRules.literal_regex
    (@rounds_new ascii_only RegexRules.literal_regex demo_list_config 0) events).

(** What was read last was in force, and is not any more. *)
Example stale_list_wins :
  @is_blocked ascii_only RegexRules.literal_regex (demo_engine_after (take 8 demo_overlap))
    "ads.example.org"%rs = true
  ∧ @is_blocked ascii_only RegexRules.literal_regex (demo_engine_after demo_overlap)
      "ads.example.org"%rs = false.
Proof. split; vm_compute; reflexivity. Qed.

(** A round may publish a list that mixes what two rounds read: two files, of which the second
    cannot be read by the first round, after the second round has taken both. *)
Definition two_files : BlocklistConfig :=
  {| blocklist_sources := []; blocklist_trusted_rpz_sources := [];
     blocklist_local_files := ["a.txt"%rs; "b.txt"%rs];
     blocklist_block_response := Nxdomain; blocklist_sinkhole_ip := "0.0.0.0"%rs;
     blocklist_reload_interval_secs := 0; blocklist_fetch_timeout_ms := 0;
     blocklist_max_fetch_bytes := 32; blocklist_allowlist := [];
     blocklist_block_cname_cloaking := true; blocklist_response_ip_denylist := [];
     blocklist_regex_rules := []; blocklist_groups := [] |}.

Definition mixing_overlap : list round_event :=
  let gone := {| env_file := λ _, None; env_http := λ _ _, SendFailed |} in
  [Start 0; Start 1] ++ replicate 2 (Step 0 (demo_file "old.example.com"%rs) 1)
  ++ replicate 6 (Step 1 (demo_file "new.example.com"%rs) 2) ++ replicate 4 (Step 0 gone 3).

Example rounds_mix :
  let e := rs_engine (@overlap ascii_only RegexRules.literal_regex
    (@rounds_new ascii_only RegexRules.literal_regex two_files 0) mixing_overlap) in
  (@is_blocked ascii_only RegexRules.literal_regex e "old.example.com"%rs,
   @is_blocked ascii_only RegexRules.literal_regex e "new.example.com"%rs) = (true, true).
Proof. vm_compute. reflexivity. Qed.

Lemma overlapping_rounds_serve_read_witness :
  let s := @overlap ascii_only RegexRules.literal_regex
    (@rounds_new ascii_only RegexRules.literal_regex demo_list_config 0) demo_overlap in
  let h := @history ascii_only RegexRules.literal_regex
    (@rounds_new ascii_only RegexRules.literal_regex demo_list_config 0) demo_overlap in
  knows h (rs_loader s) ∧ Forall (readable demo_list_config demo_overlap) h.
Proof.
  destruct (@overlapping_rounds_serve_read ascii_only RegexRules.literal_regex demo_list_config 0
    demo_overlap NoDup_nil_2) as (Hk & Hr & _). exact (conj Hk Hr).
Defined.
