(* ===== verification/Record.v ===== *)
(** * Record: the in-memory DNS record
    ([rustydns-core/src/record.rs])

    A [Duration] TTL is its number of seconds. *)

From S2P Require Import Prelude RustStr Net.

Definition MESH_RECORD_TTL : Z := 30.
Definition STATIC_RECORD_TTL : Z := 300.

Inductive RecordData :=
| A (ip : Z)
| Aaaa (ip : Z)
| Cname (target : str)
| Ptr (target : str)
| Txt (parts : list (list Z))
| Mx (preference : Z) (exchange : str)
| Ns (target : str)
| Srv (priority weight port : Z) (target : str).

#[export] Instance RecordData_eq_dec : EqDecision RecordData.
Proof. solve_decision. Defined.

Definition data_type_name (d : RecordData) : str :=
  match d with
  | A _ => "A"%rs
  | Aaaa _ => "AAAA"%rs
  | Cname _ => "CNAME"%rs
  | Ptr _ => "PTR"%rs
  | Txt _ => "TXT"%rs
  | Mx _ _ => "MX"%rs
  | Ns _ => "NS"%rs
  | Srv _ _ _ _ => "SRV"%rs
  end.

Record DnsRecord := {
  rec_name : str;
  rec_data : RecordData;
  rec_ttl : Z;
  rec_mesh_node_id : option str;
}.

#[export] Instance DnsRecord_eq_dec : EqDecision DnsRecord.
Proof. solve_decision. Defined.

Definition record_new `{Unicode} (name : str) (data : RecordData) (ttl : Z) : DnsRecord :=
  let name := to_lowercase name in
  let name := if ends_with "."%rs name then name else name ++ "."%rs in
  {| rec_name := name; rec_data := data; rec_ttl := ttl; rec_mesh_node_id := None |}.

Definition with_mesh_node (r : DnsRecord) (node : str) : DnsRecord :=
  {| rec_name := rec_name r; rec_data := rec_data r; rec_ttl := rec_ttl r;
     rec_mesh_node_id := Some node |}.

Definition type_name (r : DnsRecord) : str := data_type_name (rec_data r).

Definition show_data (d : RecordData) : str :=
  match d with
  | A ip => show_ipv4 ip
  | Aaaa ip => show_ipv6 ip
  | Cname n | Ptr n | Ns n => n
  | Txt parts => show_dec (Z.of_nat (length parts)) ++ " TXT parts"%rs
  | Mx preference exchange => show_dec preference ++ " "%rs ++ exchange
  | Srv priority weight port target =>
      show_dec priority ++ " "%rs ++ show_dec weight ++ " "%rs ++ show_dec port
      ++ " "%rs ++ target
  end.

Definition show_record (r : DnsRecord) : str :=
  rec_name r ++ " "%rs ++ type_name r ++ " "%rs ++ show_data (rec_data r)
  ++ " (ttl="%rs ++ show_dec (rec_ttl r) ++ "s)"%rs.
