(* ===== verification/Mesh.v ===== *)
(** * Mesh: the signed mesh-zone bundle
    ([rustydns-authority/src/mesh.rs])

    The wire format, its field map and record builder, and the freshness check.
    The ed25519 implementation is a parameter (class [Ed25519]); the file system is
    a function from paths to contents and the clock an argument. *)

From S2P Require Import Prelude RustStr Net Record.
From S2P Require Schedule.

Definition MAX_BUNDLE_BYTES : Z := 256 * 1024.
Definition MAX_BUNDLE_RECORDS : Z := 100000.

(** [ed25519_dalek]: keys, and strict verification of a 64-byte signature. *)
Class Ed25519 := {
  VerifyingKey : Type;
  key_from_bytes : list Z → option VerifyingKey;
  verify_strict : VerifyingKey → list Z → list Z → bool;
}.

Inductive invalid_reason :=
| NotUtf8 | NotKeyValue | DuplicateField | UnsupportedVersion (v : str)
| ExpiresNotAfterGenerated | RecordCountTooLarge (n : Z) | OnlyA (got : str)
| OnlyMeshIpv4 (got : str) | NotIpv4 | NotU64 | NotUsize | MissingRecordField
| LabelEmpty | LabelTooLong (n : Z) | LabelNotAscii | LabelHasDot (l : str).

Inductive key_error := KeyFileEmpty | KeyNotHex | KeyInvalid.

Inductive stale_reason :=
| UntrustedClock (now : Z) | Expired (expires now : Z) | TooOld (generated max_age now : Z).

Inductive MeshBundleError :=
| Io
| TooLarge
| MissingField (name : str)
| InvalidField (field : str) (reason : invalid_reason)
| InvalidVerifierKey (reason : key_error)
| MissingSignature
| SignatureMismatch
| Stale (reason : stale_reason)
| Rollback (candidate_generated_at candidate_nonce current_generated_at current_nonce : Z)
| ZoneMismatch (bundle configured : str).

Record LoadedBundle := {
  bundle_records : list DnsRecord;
  generated_at_unix : Z;
  expires_at_unix : Z;
  nonce : Z;
}.

(** ** Helpers *)

Definition nibble (b : Z) : result unit Z :=
  if (48 <=? b) && (b <=? 57) then Ok (b - 48)
  else if (97 <=? b) && (b <=? 102) then Ok (b - 97 + 10)
  else if (65 <=? b) && (b <=? 70) then Ok (b - 65 + 10)
  else Err ().

Fixpoint decode_pairs (bytes : list Z) : result unit (list Z) :=
  match bytes with
  | h :: l :: rest =>
      hi ← nibble h;
      lo ← nibble l;
      out ← decode_pairs rest;
      Ok (Z.lor (Z.shiftl hi 4) lo :: out)
  | _ => Ok []
  end.

Definition decode_hex_fixed (N : nat) (s : str) : result unit (list Z) :=
  let s := trim s in
  let bytes := as_bytes s in
  if negb (length bytes =? N * 2)%nat then Err () else decode_pairs bytes.

Definition fields := gmap str str.

Definition require (m : fields) (name : str) : result MeshBundleError str :=
  ok_or (MissingField name) (m !! name).

Definition record_key (index : nat) (name : str) : str :=
  "record."%rs ++ show_dec (Z.of_nat index) ++ "."%rs ++ name.

Definition required_indexed (m : fields) (index : nat) (name : str) : result MeshBundleError str :=
  ok_or (InvalidField (record_key index name) MissingRecordField) (m !! record_key index name).

Definition parse_u64 (m : fields) (name : str) : result MeshBundleError Z :=
  v ← require m name; ok_or (InvalidField name NotU64) (parse_uint 64 v).

Definition parse_usize (m : fields) (name : str) : result MeshBundleError Z :=
  v ← require m name; ok_or (InvalidField name NotUsize) (parse_uint 64 v).

Definition validate_single_label (value field : str) : result MeshBundleError unit :=
  if is_empty_str value then Err (InvalidField field LabelEmpty)
  else if 63 <? str_len value then Err (InvalidField field (LabelTooLong (str_len value)))
  else if negb (is_ascii value) then Err (InvalidField field LabelNotAscii)
  else if contains "."%rc value then Err (InvalidField field (LabelHasDot value))
  else Ok ().

Definition normalise_zone (value : str) : str :=
  let trimmed := trim_end_matches "."%rc (trim value) in
  let s := to_ascii_lowercase trimmed in
  if ends_with "."%rs s then s else s ++ "."%rs.

Definition mesh_zone_dotted (mesh_zone : str) : str :=
  if is_empty_str mesh_zone then "."%rs
  else if starts_with "."%rs mesh_zone then mesh_zone
  else "."%rs ++ mesh_zone.

(** ** Signature extraction and payload *)

(** The position of the last occurrence of [needle]. *)
Fixpoint rposition (needle bs : list Z) : option nat :=
  match bs with
  | [] => None
  | _ :: bs' =>
      match rposition needle bs' with
      | Some i => Some (S i)
      | None => if starts_with needle bs then Some 0%nat else None
      end
  end.

Definition signature_needle : list Z := 10 :: "signature="%rs.

Definition split_payload_and_signature (raw : list Z) : result MeshBundleError (list Z * str) :=
  pos ← ok_or MissingSignature (rposition signature_needle raw);
  let payload := take (S pos) raw in
  let sig_bytes := drop (pos + length signature_needle) raw in
  sig_str ← ok_or MissingSignature (from_utf8 sig_bytes);
  let sig_str := trim (trim_end_matches 10 sig_str) in
  if is_empty_str sig_str then Err MissingSignature else Ok (payload, sig_str).

Definition parse_signature (hex : str) : result MeshBundleError (list Z) :=
  map_err (λ _, MissingSignature) (decode_hex_fixed 64 hex).

Definition parse_field_line (map : fields) (line : str) : result MeshBundleError fields :=
  if is_empty_str line then Ok map
  else
    '(k, v) ← ok_or (InvalidField line NotKeyValue) (split_once "="%rc line);
    match map !! trim k with
    | Some _ => Err (InvalidField (trim k) DuplicateField)
    | None => Ok (<[trim k := trim v]> map)
    end.

Definition parse_fields (payload : list Z) : result MeshBundleError fields :=
  text ← ok_or (InvalidField "<payload>"%rs NotUtf8) (from_utf8 payload);
  try_fold parse_field_line ∅ (lines text).

Section mesh.
Context `{Unicode} `{Ed25519}.

(** The aliases of a record: the non-empty trimmed pieces between commas. *)
Definition alias_list (aliases : str) : list str :=
  filter (λ s, s ≠ []) (trim <$> split ","%rc aliases).

Definition mesh_record (mesh_zone target_node_id : str) (ip ttl : Z) (n : str) : DnsRecord :=
  with_mesh_node (record_new (n ++ mesh_zone_dotted mesh_zone) (A ip) ttl) target_node_id.

Definition build_record (m : fields) (mesh_zone : str) (index : nat) :
    result MeshBundleError (list DnsRecord) :=
  label ← required_indexed m index "label"%rs;
  _ ← validate_single_label label (record_key index "label"%rs);
  rr_type ← required_indexed m index "rr_type"%rs;
  target_addr_kind ← required_indexed m index "target_addr_kind"%rs;
  expected_ip ← required_indexed m index "expected_ip"%rs;
  ttl_secs_str ← required_indexed m index "ttl_secs"%rs;
  target_node_id ← required_indexed m index "target_node_id"%rs;
  let aliases := default [] (m !! record_key index "aliases"%rs) in
  _ ← reject_if (negb (str_eqb rr_type "A"%rs))
        (InvalidField (record_key index "rr_type"%rs) (OnlyA rr_type));
  _ ← reject_if (negb (str_eqb target_addr_kind "mesh_ipv4"%rs))
        (InvalidField (record_key index "target_addr_kind"%rs) (OnlyMeshIpv4 target_addr_kind));
  ip ← ok_or (InvalidField (record_key index "expected_ip"%rs) NotIpv4) (parse_ipv4 expected_ip);
  ttl ← ok_or (InvalidField (record_key index "ttl_secs"%rs) NotU64) (parse_uint 64 ttl_secs_str);
  names ← try_map (λ alias,
            _ ← validate_single_label alias (record_key index "aliases"%rs); Ok alias)
            (alias_list aliases);
  Ok (mesh_record mesh_zone target_node_id ip ttl <$> label :: names).

Definition build_loaded_bundle (m : fields) (mesh_zone : str) :
    result MeshBundleError LoadedBundle :=
  version ← require m "version"%rs;
  _ ← reject_if (negb (str_eqb version "1"%rs))
        (InvalidField "version"%rs (UnsupportedVersion version));
  zone_name ← require m "zone_name"%rs;
  _ ← reject_if (negb (str_eqb (normalise_zone zone_name) mesh_zone))
        (ZoneMismatch zone_name mesh_zone);
  generated_at_unix ← parse_u64 m "generated_at_unix"%rs;
  expires_at_unix ← parse_u64 m "expires_at_unix"%rs;
  _ ← reject_if (expires_at_unix <=? generated_at_unix)
        (InvalidField "expires_at_unix"%rs ExpiresNotAfterGenerated);
  nonce ← parse_u64 m "nonce"%rs;
  record_count ← parse_usize m "record_count"%rs;
  _ ← reject_if (MAX_BUNDLE_RECORDS <? record_count)
        (InvalidField "record_count"%rs (RecordCountTooLarge record_count));
  records ← try_map (build_record m mesh_zone) (seq 0 (Z.to_nat record_count));
  Ok {| bundle_records := concat records; generated_at_unix := generated_at_unix;
        expires_at_unix := expires_at_unix; nonce := nonce |}.

Definition saturating_add_u64 (a b : Z) : Z := Z.min (a + b) (2 ^ 64 - 1).

Definition enforce_freshness_at (b : LoadedBundle) (max_age_secs now : Z) :
    result MeshBundleError unit :=
  if now <? Schedule.MIN_TRUSTED_UNIX_SECS then Err (Stale (UntrustedClock now))
  else if expires_at_unix b <=? now then Err (Stale (Expired (expires_at_unix b) now))
  else if (0 <? max_age_secs) && (saturating_add_u64 (generated_at_unix b) max_age_secs <? now)
  then Err (Stale (TooOld (generated_at_unix b) max_age_secs now))
  else Ok ().

(** ** Files *)

(** The readable files of the system; [None] is an I/O error. *)
Definition files := str → option (list Z).

Definition read_verifier_key (fs : files) (path : str) : result MeshBundleError VerifyingKey :=
  contents ← ok_or Io (fs path ≫= from_utf8);
  line ← ok_or (InvalidVerifierKey KeyFileEmpty)
           (head (filter (λ l, l ≠ []) (trim <$> lines contents)));
  bytes ← map_err (λ _, InvalidVerifierKey KeyNotHex) (decode_hex_fixed 32 line);
  ok_or (InvalidVerifierKey KeyInvalid) (key_from_bytes bytes).

Definition read_bundle_file (fs : files) (path : str) : result MeshBundleError (list Z) :=
  contents ← ok_or Io (fs path);
  let buf := take (Z.to_nat (MAX_BUNDLE_BYTES + 1)) contents in
  if MAX_BUNDLE_BYTES <? Z.of_nat (length buf) then Err TooLarge else Ok buf.

Definition load_mesh_bundle (fs : files) (bundle_path verifier_key_path mesh_zone : str)
    (max_age_secs now : Z) : result MeshBundleError LoadedBundle :=
  key ← read_verifier_key fs verifier_key_path;
  raw ← read_bundle_file fs bundle_path;
  '(payload, signature_hex) ← split_payload_and_signature raw;
  signature ← parse_signature signature_hex;
  _ ← reject_if (negb (verify_strict key payload signature)) SignatureMismatch;
  m ← parse_fields payload;
  bundle ← build_loaded_bundle m mesh_zone;
  _ ← enforce_freshness_at bundle max_age_secs now;
  Ok bundle.
End mesh.

(** ** What a record's name may be *)

Definition single_label (l : str) : Prop :=
  l ≠ [] ∧ str_len l <= 63 ∧ is_ascii l = true ∧ "."%rc ∉ l.

(** An address record for one label of the mesh zone, tagged with its node. *)
Definition mesh_host (zone : str) (r : DnsRecord) : Prop :=
  (∃ ip, rec_data r = A ip ∧ v4_wf ip)
  ∧ is_Some (rec_mesh_node_id r)
  ∧ ∃ label, single_label label ∧ rec_name r = to_ascii_lowercase label ++ "."%rc :: zone.

(** [generated], [expires] and the configured age all allow [now]. *)
Definition fresh (b : LoadedBundle) (max_age now : Z) : Prop :=
  Schedule.MIN_TRUSTED_UNIX_SECS <= now < expires_at_unix b
  ∧ generated_at_unix b < expires_at_unix b
  ∧ (0 < max_age → now <= generated_at_unix b + max_age).

(** The records of the [i]-th entry: one for its label and for each alias. *)
Definition record_of (m : fields) (zone : str) (i : nat) (rs : list DnsRecord) : Prop :=
  ∃ label node ip ttl,
    m !! record_key i "label"%rs = Some label
    ∧ m !! record_key i "rr_type"%rs = Some "A"%rs
    ∧ m !! record_key i "target_addr_kind"%rs = Some "mesh_ipv4"%rs
    ∧ m !! record_key i "expected_ip"%rs ≫= parse_ipv4 = Some ip
    ∧ m !! record_key i "ttl_secs"%rs ≫= parse_uint 64 = Some ttl
    ∧ m !! record_key i "target_node_id"%rs = Some node
    ∧ let names := label :: alias_list (default [] (m !! record_key i "aliases"%rs)) in
      Forall single_label names
      ∧ rs = (λ n, {| rec_name := to_ascii_lowercase n ++ "."%rc :: zone; rec_data := A ip; rec_ttl := ttl;
                      rec_mesh_node_id := Some node |}) <$> names.

(** A bundle says what its fields say; the zone is its own but for case, spaces around it and
    final dots. *)
Record bundle_of_fields (m : fields) (zone : str) (b : LoadedBundle) : Prop := {
  bf_version : m !! "version"%rs = Some "1"%rs;
  bf_zone : ∃ z, m !! "zone_name"%rs = Some z
    ∧ zone = to_ascii_lowercase (trim_end_matches "."%rc (trim z)) ++ "."%rs;
  bf_generated : m !! "generated_at_unix"%rs ≫= parse_uint 64 = Some (generated_at_unix b);
  bf_expires : m !! "expires_at_unix"%rs ≫= parse_uint 64 = Some (expires_at_unix b);
  bf_nonce : m !! "nonce"%rs ≫= parse_uint 64 = Some (nonce b);
  bf_records : ∃ n rss, m !! "record_count"%rs ≫= parse_uint 64 = Some n ∧ n <= MAX_BUNDLE_RECORDS
    ∧ Forall2 (record_of m zone) (seq 0 (Z.to_nat n)) rss ∧ bundle_records b = concat rss;
}.

Lemma validate_single_label_ok v field u :
  validate_single_label v field = Ok u → single_label v.
Proof.
  unfold validate_single_label. intros Hv. repeat case_match; try done. bools.
  repeat split; [by destruct v|done|done|].
  intros Hin. apply contains_elem in Hin. congruence.
Qed.

Lemma enforce_freshness_at_ok b max_age now u :
  generated_at_unix b < expires_at_unix b →
  enforce_freshness_at b max_age now = Ok u → fresh b max_age now.
Proof.
  unfold enforce_freshness_at, fresh, saturating_add_u64. intros Hge Hf.
  repeat case_match; try done. bools.
  split; [done|]. split; [done|]. intros Hm.
  match goal with H : _ && _ = false |- _ => apply andb_false_iff in H as [H|H] end; bools; lia.
Qed.

Lemma ends_with_snoc c s : ends_with [c] (s ++ [c]) = true.
Proof. apply ends_with_iff. by exists s. Qed.

Lemma normalise_zone_form v : ∃ w, normalise_zone v = w ++ "."%rs
  ∧ to_ascii_lowercase (normalise_zone v) = normalise_zone v.
Proof.
  unfold normalise_zone. set (s := to_ascii_lowercase _).
  destruct (ends_with "."%rs s) eqn:E.
  - apply ends_with_iff in E as [t Ht]. exists t. split; [done|].
    apply to_ascii_lowercase_idemp.
  - exists s. split; [done|]. rewrite to_ascii_lowercase_app.
    subst s. by rewrite to_ascii_lowercase_idemp.
Qed.

Lemma normalise_zone_eq v :
  normalise_zone v = to_ascii_lowercase (trim_end_matches "."%rc (trim v)) ++ "."%rs.
Proof.
  unfold normalise_zone. rewrite <- trim_end_matches_lower. set (s := to_ascii_lowercase (trim v)).
  destruct (ends_with "."%rs _) eqn:E; [|done]. exfalso. apply ends_with_iff in E as [t Ht].
  pose proof (drop_while_end_last (Z.eqb "."%rc) s "."%rc) as Hl. unfold trim_end_matches in Ht.
  rewrite Ht, last_snoc in Hl. by specialize (Hl eq_refl).
Qed.

Lemma split_payload_prefix raw payload hex :
  split_payload_and_signature raw = Ok (payload, hex) → ∃ rest, raw = payload ++ rest.
Proof.
  unfold split_payload_and_signature. intros Hs. apply bind_ok in Hs as (pos & _ & Hs).
  apply bind_ok in Hs as (sig & _ & Hs). case_match; [done|]. injection Hs as <- _.
  exists (drop (S pos) raw). by rewrite take_drop.
Qed.

(** A file that is not too large is read whole. *)
Lemma read_bundle_file_whole fs path raw : read_bundle_file fs path = Ok raw → fs path = Some raw.
Proof.
  unfold read_bundle_file. intros Hr. apply bind_ok in Hr as (contents & Hc & Hr).
  apply ok_or_ok in Hc. rewrite Hc. case_match eqn:Hlen; [done|]. injection Hr as <-.
  apply Z.ltb_ge in Hlen. rewrite length_take in Hlen. unfold MAX_BUNDLE_BYTES in *.
  f_equal. rewrite take_ge; [done|]. lia.
Qed.

Section proofs.
Context `{Unicode} `{Ed25519}.

Lemma mesh_record_form zone node ip ttl n w :
  zone = w ++ "."%rs → starts_with "."%rs zone = false → is_ascii zone = true →
  to_ascii_lowercase zone = zone → single_label n →
  mesh_record zone node ip ttl n =
    {| rec_name := to_ascii_lowercase n ++ "."%rc :: zone; rec_data := A ip; rec_ttl := ttl;
       rec_mesh_node_id := Some node |}.
Proof.
  intros Hw Hs Ha Hl (_ & _ & Hna & _). unfold mesh_record, with_mesh_node, record_new.
  cbn [rec_data rec_mesh_node_id rec_name rec_ttl].
  assert (mesh_zone_dotted zone = "."%rs ++ zone) as ->.
  { unfold mesh_zone_dotted. rewrite Hs. by destruct zone; [destruct w|]. }
  rewrite to_lowercase_ascii by (rewrite !is_ascii_app, Hna, Ha; done).
  rewrite !to_ascii_lowercase_app, Hl.
  assert (ends_with "."%rs (to_ascii_lowercase n ++ to_ascii_lowercase "."%rs ++ zone) = true) as ->;
    [|done].
  apply ends_with_iff. rewrite Hw. eexists. by rewrite !app_assoc.
Qed.

Lemma labels_ok field names ns :
  try_map (λ alias, _ ← validate_single_label alias field; Ok alias) names = Ok ns →
  ns = names ∧ Forall single_label names.
Proof.
  intros Ht%try_map_ok. induction Ht as [|x y xs ys Hx _ [-> IH]]; [done|].
  apply bind_ok in Hx as (u & Hu & [= ->]). split; [done|].
  constructor; [by eapply validate_single_label_ok|done].
Qed.

Lemma build_record_of m zone i rs w :
  zone = w ++ "."%rs → starts_with "."%rs zone = false → is_ascii zone = true →
  to_ascii_lowercase zone = zone →
  build_record m zone i = Ok rs → record_of m zone i rs.
Proof.
  intros Hw Hs Ha Hl Hb. unfold build_record, required_indexed in Hb. run_ok. bools.
  repeat match goal with He : ok_or _ _ = Ok _ |- _ => apply ok_or_ok in He end.
  match goal with Ht : try_map _ _ = Ok _ |- _ => apply labels_ok in Ht as [-> Hsl] end.
  repeat match goal with He : str_eqb _ _ = true |- _ => apply bool_decide_eq_true in He end. subst.
  eexists _, _, _, _. do 3 (split; [eassumption|]).
  do 2 (split; [match goal with He : m !! ?k = Some _ |- m !! ?k ≫= _ = _ => rewrite He end; eassumption|]).
  split; [eassumption|].
  split; [constructor; [by eapply validate_single_label_ok|done]|].
  change (mesh_record ?z ?n ?i ?t ?l :: list_fmap _ _ _ ?ls) with (mesh_record z n i t <$> (l :: ls)).
  apply list_fmap_ext. intros j n Hn. eapply mesh_record_form; eauto.
  apply list_elem_of_lookup_2 in Hn. apply elem_of_cons in Hn as [->|Hn]; [by eapply validate_single_label_ok|].
  rewrite list.Forall_forall in Hsl. by apply Hsl.
Qed.

Lemma record_of_hosts m zone i rs : record_of m zone i rs → Forall (mesh_host zone) rs.
Proof.
  intros (label & node & ip & ttl & _ & _ & _ & Hip & _ & _ & Hn & ->).
  apply Forall_fmap. eapply list.Forall_impl; [exact Hn|]. intros n Hs. unfold mesh_host. cbn.
  split; [|split; [by eexists|by exists n]]. exists ip. split; [done|].
  apply bind_Some in Hip as (t & _ & Hip). by eapply parse_ipv4_wf.
Qed.

Lemma build_loaded_bundle_fields m zone b :
  starts_with "."%rs zone = false → is_ascii zone = true →
  build_loaded_bundle m zone = Ok b →
  bundle_of_fields m zone b ∧ generated_at_unix b < expires_at_unix b.
Proof.
  intros Hs Ha Hb. unfold build_loaded_bundle, parse_u64, parse_usize, require in Hb. run_ok. bools.
  repeat match goal with He : ok_or _ _ = Ok _ |- _ => apply ok_or_ok in He end.
  repeat match goal with He : str_eqb _ _ = true |- _ => apply bool_decide_eq_true in He end. subst.
  cbn [bundle_records generated_at_unix expires_at_unix nonce]. split; [|done].
  match goal with Hz : m !! "zone_name"%rs = Some ?v |- _ =>
    destruct (normalise_zone_form v) as (w & Hw & Hl) end.
  constructor; cbn [bundle_records generated_at_unix expires_at_unix nonce];
    try (match goal with He : m !! ?k = Some _ |- m !! ?k ≫= _ = _ => rewrite He end; eassumption).
  - done.
  - eexists. split; [eassumption|]. apply normalise_zone_eq.
  - match goal with Hc : m !! "record_count"%rs = Some _ |- _ => rewrite Hc end.
    match goal with Ht : try_map _ (seq 0 (Z.to_nat ?n)) = Ok ?rss |- _ =>
      exists n, rss; apply try_map_ok in Ht; rename Ht into Hrs end.
    split; [eassumption|]. split; [done|]. split; [|done].
    eapply Forall2_impl; [|exact Hrs]. intros i rs. by eapply build_record_of.
Qed.

(** C36. A bundle is loaded only when the configured key verifies its signature over exactly
    the payload its fields are parsed from, the clock is trusted and the bundle fresh; and what
    is loaded is what the fields say: they name the configured zone itself, but for case, spaces
    around it and final dots, and the records are those of the entries, for their labels and
    aliases.  Every record is an address record for a single label directly under the mesh zone,
    tagged with its mesh node. *)
Theorem load_mesh_bundle_ok (fs : files) (bundle_path key_path zone : str)
    (max_age now : Z) (b : LoadedBundle) :
  starts_with "."%rs zone = false → is_ascii zone = true →
  load_mesh_bundle fs bundle_path key_path zone max_age now = Ok b →
  (∃ key raw payload rest hex sig m,
     read_verifier_key fs key_path = Ok key ∧ fs bundle_path = Some raw
     ∧ split_payload_and_signature raw = Ok (payload, hex) ∧ raw = payload ++ rest
     ∧ parse_signature hex = Ok sig ∧ verify_strict key payload sig = true
     ∧ parse_fields payload = Ok m ∧ bundle_of_fields m zone b)
  ∧ fresh b max_age now
  ∧ Forall (mesh_host zone) (bundle_records b).
Proof.
  intros Hs Ha Hl. unfold load_mesh_bundle in Hl.
  apply bind_ok in Hl as (key & Hkey & Hl). apply bind_ok in Hl as (raw & Hraw & Hl).
  apply bind_ok in Hl as ([payload hex] & Hsplit & Hl).
  apply bind_ok in Hl as (sig & Hsig & Hl). apply bind_ok in Hl as ([] & Hver & Hl).
  apply bind_ok in Hl as (m & Hm & Hl). apply bind_ok in Hl as (b' & Hb & Hl).
  apply bind_ok in Hl as ([] & Hf & [= ->]). apply reject_if_ok in Hver. bools.
  destruct (build_loaded_bundle_fields m zone b Hs Ha Hb) as [Hfields Hge].
  split; [|split; [by eapply enforce_freshness_at_ok|]].
  2: { destruct (bf_records _ _ _ Hfields) as (n & rss & _ & _ & Hrs & ->). apply Forall_concat.
       apply list.Forall_forall. intros rs [j Hj]%list_elem_of_lookup.
       destruct (Forall2_lookup_r _ _ _ _ _ Hrs Hj) as (i & _ & Hi). by eapply record_of_hosts. }
  apply read_bundle_file_whole in Hraw.
  destruct (split_payload_prefix _ _ _ Hsplit) as [rest Hrest].
  by exists key, raw, payload, rest, hex, sig, m.
Qed.
End proofs.

(** ** Witness: a bundle with one aliased host, under a key that accepts it *)

Definition demo_lines : list str :=
  ["version=1"%rs; "zone_name=mesh"%rs; "generated_at_unix=1700000000"%rs;
   "expires_at_unix=1700003600"%rs; "nonce=7"%rs; "record_count=1"%rs;
   "record.0.label=NAS"%rs; "record.0.rr_type=A"%rs;
   "record.0.target_addr_kind=mesh_ipv4"%rs; "record.0.expected_ip=100.64.0.9"%rs;
   "record.0.ttl_secs=30"%rs; "record.0.target_node_id=ed25519:nas"%rs;
   "record.0.aliases=files, media"%rs].

Definition demo_payload : list Z := concat ((λ l, l ++ [10]) <$> demo_lines).
Definition demo_bundle : list Z := demo_payload ++ "signature="%rs ++ replicate 128 97 ++ [10].

(** A key of 32 equal bytes, and a verifier that accepts the demo payload alone. *)
Definition demo_ed25519 : Ed25519 :=
  {| VerifyingKey := list Z; key_from_bytes := Some;
     verify_strict _ p _ := bool_decide (p = demo_payload) |}.

Definition demo_files : files := λ path,
  if str_eqb path "bundle"%rs then Some demo_bundle
  else if str_eqb path "key"%rs then Some (replicate 64 98 ++ [10]) else None.

Definition demo_load : result MeshBundleError LoadedBundle :=
  @load_mesh_bundle ascii_only demo_ed25519 demo_files "bundle"%rs "key"%rs "mesh."%rs 600 1700000300.

Lemma load_mesh_bundle_ok_witness :
  ∃ b, demo_load = Ok b
  ∧ (rec_name <$> bundle_records b) = ["nas.mesh."%rs; "files.mesh."%rs; "media.mesh."%rs]
  ∧ fresh b 600 1700000300 ∧ Forall (mesh_host "mesh."%rs) (bundle_records b).
Proof.
  eexists. split; [vm_compute; reflexivity|]. split; [vm_compute; reflexivity|].
  eapply (@load_mesh_bundle_ok ascii_only demo_ed25519 demo_files "bundle"%rs "key"%rs
    "mesh."%rs 600 1700000300); vm_compute; reflexivity.
Defined.
