(* ===== verification/Authority.v ===== *)
(** * Authority: the authoritative zone server
    ([rustydns-authority/src/lib.rs])

    Zones and records are held in a snapshot that a mesh reload replaces as a whole;
    the [ArcSwap] and the watermark mutex are fields of the authority, and a reload
    is a transition of it.  A zone set is only ever tested for membership, so the
    [BTreeSet] of declared zones is a [gset]. *)

From S2P Require Import Prelude RustStr Net Config Record Mesh.

Record Snapshot := {
  snap_zones : list str;
  snap_records : gmap str (list DnsRecord);
}.

Record Authority := {
  auth_config : AuthorityConfig;
  mesh_zone : str;
  static_records : gmap str (list DnsRecord);
  static_zones : list str;
  snapshot : Snapshot;
  mesh_watermark : option (Z * Z);
}.

Inductive zone_error :=
| BareTldApex (name parent : str)
| RootApex (name : str)
| UndeclaredSingleLabel (name : str)
| MissingAddress (name type_label : str)
| MissingTarget (name type_label : str)
| InvalidA (name addr : str)
| InvalidAaaa (name addr : str)
| TxtTooLong (name : str) (len : Z)
| MxPreference (name target : str)
| MxExchange (name target : str)
| MxTrailing (name target : str)
| SrvFields (name target : str)
| NotU16 (name label value : str)
| UnsupportedType (name type : str).

(** ** Names *)

Definition normalise_name (name : str) : str :=
  let trimmed := trim name in
  let has_dot := ends_with "."%rs trimmed in
  let has_upper := existsb is_ascii_uppercase trimmed in
  if has_dot && negb has_upper && (str_len trimmed =? str_len name) then name
  else
    let n := to_ascii_lowercase trimmed in
    if has_dot then n else n ++ "."%rs.

(** [name.as_bytes()[name.len() - zone.len() - 1] == b'.'], on characters. *)
Definition name_within_zone (name zone : str) : bool :=
  if str_eqb name zone then true
  else (length zone <? length name)%nat && ends_with zone name
       && bool_decide (name !! (length name - length zone - 1)%nat = Some "."%rc).

(** ** Static records *)

Definition require_address (sr : StaticRecord) (type_label : str) : result zone_error str :=
  ok_or (MissingAddress (static_name sr) type_label)
    (a ← static_address sr; if is_empty_str a then None else Some a).

Definition require_target (sr : StaticRecord) (type_label : str) : result zone_error str :=
  ok_or (MissingTarget (static_name sr) type_label)
    (t ← static_target sr; if is_empty_str t then None else Some t).

Definition parse_u16 (sr : StaticRecord) (label value : str) : result zone_error Z :=
  ok_or (NotU16 (static_name sr) label value) (parse_uint 16 value).

Definition static_mx (sr : StaticRecord) (target : str) : result zone_error RecordData :=
  let parts := split_whitespace target in
  pref ← ok_or (MxPreference (static_name sr) target) (head parts ≫= parse_uint 16);
  exchange ← ok_or (MxExchange (static_name sr) target)
    (e ← parts !! 1%nat; let e := trim e in if is_empty_str e then None else Some e);
  _ ← reject_if (bool_decide (is_Some (parts !! 2%nat))) (MxTrailing (static_name sr) target);
  Ok (Mx pref (normalise_name exchange)).

Definition static_srv (sr : StaticRecord) (target : str) : result zone_error RecordData :=
  match split_whitespace target with
  | [p0; p1; p2; p3] =>
      priority ← parse_u16 sr "SRV priority"%rs p0;
      weight ← parse_u16 sr "SRV weight"%rs p1;
      port ← parse_u16 sr "SRV port"%rs p2;
      Ok (Srv priority weight port (normalise_name p3))
  | _ => Err (SrvFields (static_name sr) target)
  end.

Definition static_data (sr : StaticRecord) : result zone_error RecordData :=
  let rtype := to_ascii_uppercase (trim (static_record_type sr)) in
  if str_eqb rtype "A"%rs then
    addr ← require_address sr "A"%rs;
    ip ← ok_or (InvalidA (static_name sr) addr) (parse_ipv4 addr);
    Ok (A ip)
  else if str_eqb rtype "AAAA"%rs then
    addr ← require_address sr "AAAA"%rs;
    ip ← ok_or (InvalidAaaa (static_name sr) addr) (parse_ipv6 addr);
    Ok (Aaaa ip)
  else if str_eqb rtype "CNAME"%rs then
    t ← require_target sr "CNAME"%rs; Ok (Cname (normalise_name t))
  else if str_eqb rtype "PTR"%rs then
    t ← require_target sr "PTR"%rs; Ok (Ptr (normalise_name t))
  else if str_eqb rtype "TXT"%rs then
    target ← require_target sr "TXT"%rs;
    let bytes := as_bytes target in
    _ ← reject_if (255 <? Z.of_nat (length bytes))
          (TxtTooLong (static_name sr) (Z.of_nat (length bytes)));
    Ok (Txt [bytes])
  else if str_eqb rtype "NS"%rs then
    t ← require_target sr "NS"%rs; Ok (Ns (normalise_name t))
  else if str_eqb rtype "MX"%rs then
    target ← require_target sr "MX"%rs; static_mx sr target
  else if str_eqb rtype "SRV"%rs then
    target ← require_target sr "SRV"%rs; static_srv sr target
  else Err (UnsupportedType (static_name sr) rtype).

Definition static_record_to_dns_record `{Unicode} (sr : StaticRecord) :
    result zone_error DnsRecord :=
  let ttl := if static_ttl sr =? 0 then STATIC_RECORD_TTL else static_ttl sr in
  data ← static_data sr;
  Ok (record_new (static_name sr) data ttl).

Definition static_zone_apex (name mesh_zone : str) (declared : gset str) :
    result zone_error str :=
  let parent := match split_once "."%rc name with Some (_, p) => p | None => [] end in
  if negb (is_empty_str parent) then
    let single_label := negb (contains "."%rc (take (length parent - 1) parent)) in
    if single_label && negb (str_eqb parent mesh_zone) && negb (bool_decide (parent ∈ declared))
    then Err (BareTldApex name parent) else Ok parent
  else if str_eqb name "."%rs then Err (RootApex name)
  else if bool_decide (name ∈ declared) || str_eqb name mesh_zone then Ok name
  else Err (UndeclaredSingleLabel name).

(** [entry(name).or_default().push(rec)]. *)
Definition push_record (m : gmap str (list DnsRecord)) (r : DnsRecord) :
    gmap str (list DnsRecord) :=
  <[rec_name r := default [] (m !! rec_name r) ++ [r]]> m.

Definition push_zone (zones : list str) (z : str) : list str :=
  if existsb (str_eqb z) zones then zones else zones ++ [z].

Definition build_snapshot (records : gmap str (list DnsRecord)) (zones : list str)
    (mesh : option LoadedBundle) : Snapshot :=
  match mesh with
  | Some loaded =>
      {| snap_records := foldl push_record records (bundle_records loaded);
         snap_zones := foldl push_zone zones (rec_name <$> bundle_records loaded) |}
  | None => {| snap_records := records; snap_zones := zones |}
  end.

(** ** Lookups *)

Definition is_authoritative_for_normalised (a : Authority) (name : str) (snap : Snapshot) : bool :=
  if name_within_zone name (mesh_zone a) then true
  else existsb (λ zone, name_within_zone name zone) (snap_zones snap).

Definition is_authoritative_for (a : Authority) (name : str) : bool :=
  is_authoritative_for_normalised a (normalise_name name) (snapshot a).

Definition MAX_CNAME_DEPTH : nat := 8.

Definition is_cname (r : DnsRecord) : bool :=
  match rec_data r with Cname _ => true | _ => false end.
Definition cname_target (r : DnsRecord) : option str :=
  match rec_data r with Cname t => Some t | _ => None end.
Definition find_cname (recs : list DnsRecord) : option DnsRecord := List.find is_cname recs.
Definition of_type (rtype : str) (recs : list DnsRecord) : list DnsRecord :=
  filter (λ r, type_name r = rtype) recs.

(** The loop over [MAX_CNAME_DEPTH] hops. *)
Fixpoint chase (depth : nat) (a : Authority) (snap : Snapshot) (rtype : str)
    (visited : gset str) (next : str) (out : list DnsRecord) : list DnsRecord :=
  match depth with
  | O => out
  | S depth =>
      if bool_decide (next ∈ visited) then out
      else
        let visited := {[next]} ∪ visited in
        if negb (is_authoritative_for_normalised a next snap) then out
        else
          match snap_records snap !! next with
          | Some recs =>
              let terminal := of_type rtype recs in
              if negb (bool_decide (terminal = [])) then out ++ terminal
              else
                match find_cname recs with
                | Some next_cname =>
                    let out := out ++ [next_cname] in
                    match cname_target next_cname with
                    | Some t => chase depth a snap rtype visited t out
                    | None => out
                    end
                | None => out
                end
          | None => out
          end
  end.

Definition collect_with_cname_chain (a : Authority) (name rtype : str) (snap : Snapshot) :
    list DnsRecord :=
  let initial := snap_records snap !! name in
  let direct :=
    match initial with
    | Some recs => if str_eqb rtype "ANY"%rs then recs else of_type rtype recs
    | None => []
    end in
  if str_eqb rtype "CNAME"%rs || str_eqb rtype "ANY"%rs || negb (bool_decide (direct = []))
  then direct
  else
    match initial ≫= find_cname with
    | None => []
    | Some first_cname =>
        match cname_target first_cname with
        | Some t => chase MAX_CNAME_DEPTH a snap rtype {[name]} t [first_cname]
        | None => [first_cname]
        end
    end.

Definition lookup (a : Authority) (name record_type : str) : option (list DnsRecord) :=
  let key := normalise_name name in
  let rtype := to_ascii_uppercase (trim record_type) in
  if negb (is_authoritative_for_normalised a key (snapshot a)) then None
  else Some (collect_with_cname_chain a key rtype (snapshot a)).

Definition mesh_record_count (a : Authority) : nat :=
  length (filter (λ r, is_Some (rec_mesh_node_id r))
    (concat (snd <$> map_to_list (snap_records (snapshot a))))).

(** ** Construction and reload *)

Section authority.
Context `{Unicode} `{Ed25519}.

Definition load_mesh_if_configured (fs : files) (config : AuthorityConfig) (mesh_zone : str)
    (now : Z) : option LoadedBundle :=
  match authority_mesh_zone_bundle_path config, authority_mesh_zone_verifier_key_path config with
  | Some bundle, Some key =>
      result_ok (load_mesh_bundle fs bundle key mesh_zone
        (authority_mesh_zone_max_age_secs config) now)
  | _, _ => None
  end.

Definition add_static (mesh_zone : str) (declared : gset str)
    (acc : gmap str (list DnsRecord) * list str) (sr : StaticRecord) :
    result zone_error (gmap str (list DnsRecord) * list str) :=
  let '(records, zones) := acc in
  rec ← static_record_to_dns_record sr;
  apex ← static_zone_apex (rec_name rec) mesh_zone declared;
  Ok (push_record records rec, push_zone zones apex).

Definition declared_zones (config : AuthorityConfig) : gset str :=
  list_to_set (normalise_name <$> authority_zones config).

Definition new (fs : files) (config : AuthorityConfig) (now : Z) : result zone_error Authority :=
  let mesh_zone := normalise_name (authority_mesh_zone config) in
  let declared := declared_zones config in
  '(records, zones) ← try_fold (add_static mesh_zone declared) (∅, [])
      (authority_static_records config);
  let zones := foldl (λ zs z, if str_eqb z mesh_zone then zs else push_zone zs z)
                 zones (elements declared) in
  let mesh := load_mesh_if_configured fs config mesh_zone now in
  Ok {| auth_config := config; mesh_zone := mesh_zone; static_records := records;
        static_zones := zones; snapshot := build_snapshot records zones mesh;
        mesh_watermark := (λ m, (generated_at_unix m, nonce m)) <$> mesh |}.

(** Lexicographic order on [(generated_at_unix, nonce)]. *)
Definition watermark_ltb (a b : Z * Z) : bool :=
  (a.1 <? b.1) || ((a.1 =? b.1) && (a.2 <? b.2)).

Definition apply_bundle (a : Authority) (loaded : LoadedBundle) : Authority :=
  {| auth_config := auth_config a; mesh_zone := mesh_zone a;
     static_records := static_records a; static_zones := static_zones a;
     snapshot := build_snapshot (static_records a) (static_zones a) (Some loaded);
     mesh_watermark := Some (generated_at_unix loaded, nonce loaded) |}.

Definition is_rollback (candidate : Z * Z) (watermark : option (Z * Z)) : bool :=
  match watermark with Some cur => watermark_ltb candidate cur | None => false end.

Definition reload_mesh (fs : files) (a : Authority) (now : Z) :
    result MeshBundleError (option nat) * Authority :=
  match authority_mesh_zone_bundle_path (auth_config a),
        authority_mesh_zone_verifier_key_path (auth_config a) with
  | Some bundle_path, Some key_path =>
      match load_mesh_bundle fs bundle_path key_path (mesh_zone a)
              (authority_mesh_zone_max_age_secs (auth_config a)) now with
      | Err e => (Err e, a)
      | Ok loaded =>
          let candidate := (generated_at_unix loaded, nonce loaded) in
          if is_rollback candidate (mesh_watermark a)
          then
            let cur := default (0, 0) (mesh_watermark a) in
            (Err (Rollback candidate.1 candidate.2 cur.1 cur.2), a)
          else (Ok (Some (length (bundle_records loaded))), apply_bundle a loaded)
      end
  | _, _ => (Ok None, a)
  end.

(** A reload in its two halves: what is read and verified before the lock of the watermark is
    taken, and what is done under it. *)
Definition verify_mesh (fs : files) (a : Authority) (now : Z) :
    result MeshBundleError (option LoadedBundle) :=
  match authority_mesh_zone_bundle_path (auth_config a),
        authority_mesh_zone_verifier_key_path (auth_config a) with
  | Some bundle_path, Some key_path =>
      loaded ← load_mesh_bundle fs bundle_path key_path (mesh_zone a)
                 (authority_mesh_zone_max_age_secs (auth_config a)) now;
      Ok (Some loaded)
  | _, _ => Ok None
  end.

Definition apply_mesh (loaded : LoadedBundle) (a : Authority) :
    result MeshBundleError (option nat) * Authority :=
  let candidate := (generated_at_unix loaded, nonce loaded) in
  if is_rollback candidate (mesh_watermark a)
  then
    let cur := default (0, 0) (mesh_watermark a) in
    (Err (Rollback candidate.1 candidate.2 cur.1 cur.2), a)
  else (Ok (Some (length (bundle_records loaded))), apply_bundle a loaded).

(** Reloaders that race: each verifies a bundle, and applies it when it gets the lock. *)
Inductive race_event := Verifies (fs : files) (now : Z) | Applies (i : nat).

Definition race_step (s : Authority * list LoadedBundle) (ev : race_event) :
    Authority * list LoadedBundle :=
  match ev with
  | Verifies fs now =>
      match verify_mesh fs s.1 now with
      | Ok (Some loaded) => (s.1, s.2 ++ [loaded])
      | _ => s
      end
  | Applies i =>
      match s.2 !! i with
      | Some loaded => ((apply_mesh loaded s.1).2, delete i s.2)
      | None => s
      end
  end.

Definition run_race (a : Authority) (events : list race_event) : Authority :=
  (foldl race_step (a, []) events).1.
End authority.

(** ** Zones *)

Lemma name_within_zone_spec n z : name_within_zone n z = true ↔ within n z.
Proof.
  unfold name_within_zone, within, str_eqb. case_bool_decide as Hnz; [by split; [left|]|].
  rewrite !andb_true_iff, Nat.ltb_lt, ends_with_iff, bool_decide_eq_true. split.
  - intros [[Hlen [t ->]] Hd]. right. rewrite length_app in *.
    replace (length t + length z - length z - 1)%nat with (length t - 1)%nat in Hd by lia.
    destruct t as [|c k _] using rev_ind; [simpl in Hlen; lia|].
    rewrite length_app in Hd. simpl in Hd.
    rewrite lookup_app_l in Hd by (rewrite length_app; simpl; lia).
    replace (length k + 1 - 1)%nat with (length k) in Hd by lia.
    rewrite list_lookup_middle in Hd by done. injection Hd as ->.
    exists k. by rewrite <- app_assoc.
  - intros [Heq|[k ->]]; [done|]. rewrite length_app. simpl. split; [split; [lia|]|].
    + exists (k ++ "."%rs). by rewrite <- app_assoc.
    + replace (length k + S (length z) - length z - 1)%nat with (length k) by lia.
      by rewrite list_lookup_middle.
Qed.

Definition in_scope (a : Authority) (snap : Snapshot) (n : str) : Prop :=
  within n (mesh_zone a) ∨ ∃ z, z ∈ snap_zones snap ∧ within n z.

Lemma is_authoritative_spec a n snap :
  is_authoritative_for_normalised a n snap = true ↔ in_scope a snap n.
Proof.
  unfold is_authoritative_for_normalised, in_scope. rewrite <- name_within_zone_spec.
  destruct (name_within_zone n (mesh_zone a)); [by split; [left|]|].
  rewrite existsb_elem_of. setoid_rewrite name_within_zone_spec.
  split; [by right|]. by intros [|].
Qed.

(** ** Alias chains *)

Section chains.
Context (a : Authority) (snap : Snapshot) (rtype : str).

(** At [n] there is no record of the type but an alias [c] to [t]. *)
Definition hop (n : str) (c : DnsRecord) (t : str) : Prop :=
  ∃ recs, snap_records snap !! n = Some recs ∧ of_type rtype recs = []
    ∧ find_cname recs = Some c ∧ cname_target c = Some t.

(** The aliases from [n] to [m], through the names [ns] they lead to. *)
Inductive alias_path : str → list DnsRecord → list str → str → Prop :=
| path_here n : alias_path n [] [] n
| path_hop n c t cs ns m : hop n c t → alias_path t cs ns m → alias_path n (c :: cs) (t :: ns) m.

(** How a chain from [n] ends at [m], which may take [depth] aliases and must not come to a name
    [visited] before: with all records of the type at [m], if it has any; with none, if it has
    none and no alias either; or for one of four reasons to stop there. *)
Definition chain_ends (visited : str → Prop) (depth : nat) (n : str) (cs : list DnsRecord) (ns : list str)
    (m : str) (ts : list DnsRecord) : Prop :=
  let before := removelast (n :: ns) in
  NoDup before ∧ Forall (λ x, ¬ visited x ∧ in_scope a snap x) before ∧ (length cs <= depth)%nat
  ∧ (((length cs < depth)%nat ∧ in_scope a snap m ∧ ∃ recs, snap_records snap !! m = Some recs
        ∧ ts = of_type rtype recs ∧ (ts = [] → find_cname recs = None))
     ∨ ts = [] ∧ (length cs = depth ∨ visited m ∨ m ∈ before ∨ ¬ in_scope a snap m
                  ∨ snap_records snap !! m = None)).

Lemma find_cname_target recs c : find_cname recs = Some c → ∃ t, cname_target c = Some t.
Proof.
  unfold find_cname. intros [_ Hc]%find_some. unfold is_cname, cname_target in *.
  destruct (rec_data c); try done. by eexists.
Qed.

Lemma chain_ends_here visited depth n ts :
  (((0 < depth)%nat ∧ in_scope a snap n ∧ ∃ recs, snap_records snap !! n = Some recs
        ∧ ts = of_type rtype recs ∧ (ts = [] → find_cname recs = None))
   ∨ ts = [] ∧ (0%nat = depth ∨ visited n ∨ ¬ in_scope a snap n ∨ snap_records snap !! n = None)) →
  chain_ends visited depth n [] [] n ts.
Proof.
  intros Hc. split; [constructor|]. split; [constructor|]. split; [cbn; lia|]. cbn. tauto.
Qed.

Lemma chain_ends_hop (visited : str → Prop) depth n c t cs ns m ts :
  ¬ visited n → in_scope a snap n →
  chain_ends (λ x, x = n ∨ visited x) depth t cs ns m ts →
  chain_ends visited (S depth) n (c :: cs) (t :: ns) m ts.
Proof.
  intros Hv Hs (Hnd & Hf & Hl & He). unfold chain_ends.
  change (removelast (n :: t :: ns)) with (n :: removelast (t :: ns)). set (before := removelast _) in *.
  rewrite list.Forall_forall in Hf. split; [|split; [|split; [cbn; lia|]]].
  - constructor; [|done]. intros Hin. destruct (Hf n Hin) as [[] _]. by left.
  - constructor; [done|]. apply list.Forall_forall. intros x Hx. destruct (Hf x Hx). tauto.
  - destruct He as [(Hlt & He)|(-> & He)]; [left; split; [cbn; lia|done]|right]. split; [done|].
    destruct He as [?|[[->|?]|[?|?]]]; [left; cbn; lia|right; right; left; by left|by right; left| |tauto].
    right; right; left. by right.
Qed.

Lemma chase_sound depth : ∀ visited next out,
  ∃ cs ns m ts, chase depth a snap rtype visited next out = out ++ cs ++ ts
    ∧ alias_path next cs ns m ∧ chain_ends (λ x, x ∈ visited) depth next cs ns m ts.
Proof.
  induction depth as [|depth IH]; intros visited next out; cbn [chase].
  { exists [], [], next, []. rewrite !app_nil_r. split; [done|]. split; [constructor|].
    apply chain_ends_here. right. tauto. }
  assert (∀ ts, chain_ends (λ x, x ∈ visited) (S depth) next [] [] next ts →
    ∃ cs ns m ts', out ++ ts = out ++ cs ++ ts' ∧ alias_path next cs ns m
      ∧ chain_ends (λ x, x ∈ visited) (S depth) next cs ns m ts') as Hstop.
  { intros ts Hts. exists [], [], next, ts. split; [done|]. split; [constructor|done]. }
  assert (∀ ts, chain_ends (λ x, x ∈ visited) (S depth) next [] [] next ts → ts = [] →
    ∃ cs ns m ts', out = out ++ cs ++ ts' ∧ alias_path next cs ns m
      ∧ chain_ends (λ x, x ∈ visited) (S depth) next cs ns m ts') as Hstop'.
  { intros ts Hts ->. destruct (Hstop [] Hts) as (cs & ns & m & ts' & E & Hrest). rewrite app_nil_r in E.
    by exists cs, ns, m, ts'. }
  case_bool_decide as Hv; [apply (Hstop' []); [apply chain_ends_here; tauto|done]|].
  destruct (is_authoritative_for_normalised a next snap) eqn:Hz; cbn [negb].
  2: { apply (Hstop' []); [|done]. apply chain_ends_here. right. rewrite <- is_authoritative_spec, Hz.
       split; [done|]. right; right; by left. }
  apply is_authoritative_spec in Hz.
  destruct (snap_records snap !! next) as [recs|] eqn:Hr; [|apply (Hstop' []); [apply chain_ends_here; tauto|done]].
  case_bool_decide as Ht; cbn [negb].
  2: { apply Hstop, chain_ends_here. left. split; [lia|]. split; [done|]. by exists recs. }
  destruct (find_cname recs) as [c|] eqn:Hc.
  2: { apply (Hstop' (of_type rtype recs)); [|done]. apply chain_ends_here. left. split; [lia|]. split; [done|].
       by exists recs. }
  destruct (find_cname_target _ _ Hc) as [t Hct]. rewrite Hct.
  destruct (IH ({[next]} ∪ visited) t (out ++ [c])) as (cs & ns & m & ts & -> & Hp & He).
  exists (c :: cs), (t :: ns), m, ts. rewrite <- app_assoc. split; [done|].
  split; [constructor; [by exists recs|done]|]. apply chain_ends_hop; [done..|].
  unfold chain_ends in *. setoid_rewrite elem_of_union in He. by setoid_rewrite elem_of_singleton in He.
Qed.

Lemma chase_complete cs ns n m recs : ∀ depth visited out,
  alias_path n cs ns m → (length cs < depth)%nat →
  NoDup (n :: ns) → Forall (λ x, x ∉ visited) (n :: ns) → Forall (in_scope a snap) (n :: ns) →
  snap_records snap !! m = Some recs → of_type rtype recs ≠ [] →
  chase depth a snap rtype visited n out = out ++ cs ++ of_type rtype recs.
Proof.
  intros depth visited out Hp. revert depth visited out.
  induction Hp as [n|n c t cs ns m Hh Hp IH]; intros depth visited out Hd Hnd Hv Hs Hm Ht;
    (destruct depth as [|depth]; [simpl in Hd; lia|]); cbn [chase];
    apply Forall_cons_1 in Hv as [Hv Hvs]; apply Forall_cons_1 in Hs as [Hsn Hss];
    (rewrite bool_decide_false by done); apply is_authoritative_spec in Hsn as Hz; rewrite Hz;
    cbn [negb].
  - rewrite Hm. by rewrite bool_decide_false.
  - destruct Hh as (recs' & Hr & Hno & Hc & Hct). rewrite Hr, bool_decide_true, Hc, Hct by done.
    cbn [negb]. apply list.NoDup_cons in Hnd as [Hn Hnd]. rewrite IH; try done.
    + by rewrite <- app_assoc.
    + simpl in Hd. lia.
    + apply list.Forall_forall. intros x Hx. apply (list.Forall_forall _ _) with (x:=x) in Hvs; [|done].
      set_solver.
Qed.
End chains.

(** An alias is a record of its own type. *)
Lemma find_cname_of_type recs : of_type "CNAME"%rs recs = [] → find_cname recs = None.
Proof.
  intros Hn. destruct (find_cname recs) as [c|] eqn:Hc; [|done]. exfalso.
  unfold find_cname in Hc. apply find_some in Hc as [Hin Hc].
  assert (c ∈ of_type "CNAME"%rs recs) as Hin'.
  { apply list_elem_of_filter. split; [|by apply list_elem_of_In].
    unfold type_name, is_cname in *. by destruct (rec_data c). }
  rewrite Hn in Hin'. by apply elem_of_nil in Hin'.
Qed.

Lemma collect_chain a n rtype snap :
  in_scope a snap n → rtype ≠ "ANY"%rs →
  ∃ cs ns m ts, collect_with_cname_chain a n rtype snap = cs ++ ts
    ∧ alias_path snap rtype n cs ns m ∧ chain_ends a snap rtype (λ _, False) 9 n cs ns m ts.
Proof.
  intros Hz Hany. unfold collect_with_cname_chain, str_eqb.
  rewrite (bool_decide_false (rtype = "ANY"%rs)) by done. rewrite orb_false_r.
  assert (∀ x, chain_ends a snap rtype (λ _, False) 9 n [] [] n x →
    ∃ cs ns m ts, x = cs ++ ts ∧ alias_path snap rtype n cs ns m
      ∧ chain_ends a snap rtype (λ _, False) 9 n cs ns m ts) as Hdir.
  { intros x Hx. exists [], [], n, x. split; [done|]. by split; [constructor|]. }
  destruct (snap_records snap !! n) as [recs|] eqn:Hr; cbn [mbind option_bind].
  2:{ case_match; apply Hdir, chain_ends_here; right; tauto. }
  destruct (bool_decide (rtype = "CNAME"%rs) || negb (bool_decide (of_type rtype recs = []))) eqn:Hb.
  { apply Hdir, chain_ends_here. left. split; [lia|]. split; [done|]. exists recs. split; [done|]. split; [done|].
    intros Hnil. rewrite Hnil, (bool_decide_true ([] = [])), orb_false_r in Hb by done.
    apply bool_decide_eq_true in Hb as ->. by apply find_cname_of_type. }
  bools. destruct (find_cname recs) as [c|] eqn:Hc.
  2: { apply Hdir, chain_ends_here. left. split; [lia|]. split; [done|]. by exists recs. }
  destruct (find_cname_target _ _ Hc) as [t Ht]. rewrite Ht.
  destruct (chase_sound a snap rtype MAX_CNAME_DEPTH {[n]} t [c]) as (cs & ns & m & ts & -> & Hp & He).
  exists (c :: cs), (t :: ns), m, ts. split; [done|]. split; [constructor; [by exists recs|done]|].
  apply chain_ends_hop; [tauto|done|]. unfold chain_ends in *.
  setoid_rewrite elem_of_singleton in He. by setoid_rewrite (right_id False or).
Qed.

(** ** Zone apexes *)

(** More than one label: a dot before the trailing one. *)
Definition multi_label (z : str) : Prop := "."%rc ∈ take (length z - 1) z.

Lemma static_zone_apex_ok name mz declared z :
  static_zone_apex name mz declared = Ok z → z = mz ∨ z ∈ declared ∨ multi_label z.
Proof.
  unfold static_zone_apex. set (parent := match split_once _ _ with Some _ => _ | None => _ end).
  destruct (negb (is_empty_str parent)).
  - destruct (contains "."%rc (take (length parent - 1) parent)) eqn:Hc; simpl.
    + intros [= <-]. right; right. by apply contains_elem.
    + unfold str_eqb. repeat case_bool_decide; simpl; intros; simplify_eq; auto.
  - unfold str_eqb. case_bool_decide; [done|]. repeat case_bool_decide; simpl; intros; simplify_eq; auto.
Qed.

Lemma push_zone_elem zones z x : x ∈ push_zone zones z ↔ x ∈ zones ∨ x = z.
Proof.
  unfold push_zone. destruct (existsb (str_eqb z) zones) eqn:E.
  - apply existsb_elem_of in E as (y & Hy & ->%bool_decide_eq_true). naive_solver.
  - rewrite elem_of_app, list_elem_of_singleton. done.
Qed.

Definition zone_allowed (mz : str) (declared : gset str) (z : str) : Prop :=
  z = mz ∨ z ∈ declared ∨ multi_label z.

Section transitions.
Context `{Unicode} `{Ed25519}.

Lemma add_static_zones mz declared acc sr acc' :
  Forall (zone_allowed mz declared) acc.2 →
  add_static mz declared acc sr = Ok acc' → Forall (zone_allowed mz declared) acc'.2.
Proof.
  destruct acc as [records zones]. unfold add_static. intros Hz Ha. run_ok.
  match goal with Hap : static_zone_apex _ _ _ = Ok _ |- _ => apply static_zone_apex_ok in Hap as Hok end.
  cbn [snd] in *. apply list.Forall_forall. intros x [Hx| ->]%push_zone_elem; [|exact Hok].
  by eapply list.Forall_forall in Hz.
Qed.

Lemma declared_zones_allowed mz declared zs zones :
  Forall (zone_allowed mz declared) zones → (∀ z, z ∈ zs → z ∈ declared) →
  Forall (zone_allowed mz declared)
    (foldl (λ zs z, if str_eqb z mz then zs else push_zone zs z) zones zs).
Proof.
  revert zones. induction zs as [|z zs IH]; intros zones Hz Hd; [done|]. cbn [foldl].
  apply IH; [|intros; apply Hd; by right]. case_match; [done|].
  apply list.Forall_forall. intros x [Hx| ->]%push_zone_elem.
  - by eapply list.Forall_forall in Hz.
  - right; left. apply Hd. left.
Qed.

(** What the published snapshot is built from: the static half, and the bundle whose
    stamp is the watermark. *)
Definition published (a : Authority) : Prop :=
  match mesh_watermark a with
  | None => snapshot a = build_snapshot (static_records a) (static_zones a) None
  | Some w => ∃ b, (generated_at_unix b, nonce b) = w
      ∧ snapshot a = build_snapshot (static_records a) (static_zones a) (Some b)
  end.

Definition watermark_le (v w : option (Z * Z)) : Prop :=
  match v, w with
  | None, _ => True
  | Some _, None => False
  | Some v, Some w => watermark_ltb w v = false
  end.

#[export] Instance watermark_le_preorder : PreOrder watermark_le.
Proof.
  unfold watermark_le, watermark_ltb. split.
  - intros [[g n]|]; [|done]. simpl. rewrite !Z.ltb_irrefl. by rewrite andb_false_r.
  - intros [[g n]|] [[g' n']|] [[g'' n'']|]; simpl; try done.
    intros H1 H2. bools. apply orb_false_iff. split; [lia|].
    repeat match goal with H : _ && _ = false |- _ => apply andb_false_iff in H; destruct H end;
      bools; apply andb_false_iff; rewrite Z.eqb_neq, Z.ltb_ge; lia.
Qed.

Lemma reload_mesh_split fs a now :
  reload_mesh fs a now =
    match verify_mesh fs a now with
    | Err e => (Err e, a)
    | Ok None => (Ok None, a)
    | Ok (Some loaded) => apply_mesh loaded a
    end.
Proof.
  unfold reload_mesh, verify_mesh.
  destruct (authority_mesh_zone_bundle_path (auth_config a)),
    (authority_mesh_zone_verifier_key_path (auth_config a)); try done.
  by destruct (load_mesh_bundle _ _ _ _ _ _).
Qed.

(** An authority that [a] may become. *)
Definition succeeds (a a' : Authority) : Prop :=
  (published a → published a')
  ∧ watermark_le (mesh_watermark a) (mesh_watermark a')
  ∧ static_records a' = static_records a ∧ static_zones a' = static_zones a.

#[local] Instance succeeds_preorder : PreOrder succeeds.
Proof.
  split; [by intros a|]. intros a1 a2 a3 (Hp & Hw & Hr & Hz) (Hp' & Hw' & Hr' & Hz').
  split; [auto|]. split; [by etrans|]. split; congruence.
Qed.

Lemma apply_mesh_step b a :
  succeeds a (apply_mesh b a).2 ∧ (is_ok (apply_mesh b a).1 = false → (apply_mesh b a).2 = a).
Proof.
  unfold apply_mesh. destruct (is_rollback _ _) eqn:Hr; [done|]. unfold succeeds, published. simpl.
  split; [|done]. split; [intros _; by exists b|]. split; [|done].
  unfold is_rollback in Hr. by destruct (mesh_watermark a).
Qed.

Lemma reload_mesh_step fs a now :
  let '(r, a') := reload_mesh fs a now in
  (published a → published a')
  ∧ watermark_le (mesh_watermark a) (mesh_watermark a')
  ∧ static_records a' = static_records a ∧ static_zones a' = static_zones a
  ∧ (is_ok r = false → a' = a).
Proof.
  rewrite reload_mesh_split. destruct (verify_mesh fs a now) as [[b|]|e]; try done.
  destruct (apply_mesh_step b a) as [Hs He]. unfold succeeds in Hs. destruct (apply_mesh b a). naive_solver.
Qed.

Lemma new_published fs config now a : new fs config now = Ok a → published a.
Proof.
  unfold new. intros ([records zones] & _ & [= <-])%bind_ok.
  unfold published. simpl. destruct (load_mesh_if_configured _ _ _ _) as [b|]; simpl; [|done].
  by exists b.
Qed.

Definition run_reloads (a : Authority) (events : list (files * Z)) : Authority :=
  foldl (λ a ev, (reload_mesh ev.1 a ev.2).2) a events.

(** Whatever the sequence of reloads (poller and SIGHUP in any order, whatever files
    and clock they see), the anti-rollback watermark never goes back, the static half
    never changes, and the published snapshot is always the one of the bundle whose
    stamp is the watermark; a reload that fails leaves everything as it was. *)
Theorem reloads_never_roll_back (fs : files) (config : AuthorityConfig) (now : Z)
    (a : Authority) (events : list (files * Z)) :
  new fs config now = Ok a →
  published (run_reloads a events)
  ∧ watermark_le (mesh_watermark a) (mesh_watermark (run_reloads a events))
  ∧ static_records (run_reloads a events) = static_records a
  ∧ static_zones (run_reloads a events) = static_zones a
  ∧ ∀ fs' now', is_ok (reload_mesh fs' (run_reloads a events) now').1 = false →
      (reload_mesh fs' (run_reloads a events) now').2 = run_reloads a events.
Proof.
  intros Hn. assert (published a) as Hp by (by eapply new_published).
  clear Hn. revert a Hp. unfold run_reloads.
  induction events as [|[fs' now'] events IH]; intros a Hp; cbn [foldl].
  - split; [done|]. split; [done|]. split; [done|]. split; [done|]. intros fs' now'.
    pose proof (reload_mesh_step fs' a now') as Hs. destruct (reload_mesh fs' a now') as [r a'']. apply Hs.
  - pose proof (reload_mesh_step fs' a now') as Hs. cbn [fst snd].
    destruct (reload_mesh fs' a now') as [r a']. cbn [snd].
    destruct Hs as (Hp' & Hw & Hr & Hz & _).
    destruct (IH a' (Hp' Hp)) as (? & Hw' & Hr' & Hz' & ?).
    split; [done|]. split; [by etrans|]. split; [congruence|]. split; [congruence|done].
Qed.

(** ** Racing reloaders *)

Definition offered (b : LoadedBundle) : option (Z * Z) := Some (generated_at_unix b, nonce b).

Lemma apply_mesh_over b a : watermark_le (offered b) (mesh_watermark (apply_mesh b a).2).
Proof.
  unfold apply_mesh. destruct (is_rollback _ _) eqn:Hr; cbn [snd]; [|by cbn; unfold watermark_ltb; rewrite !Z.ltb_irrefl, andb_false_r].
  unfold is_rollback in Hr. destruct (mesh_watermark a) as [[g n]|]; [|done]. cbn [watermark_le offered].
  unfold watermark_ltb in *. cbn [fst snd] in *. bools; apply orb_false_iff; (split; [lia|]);
    apply andb_false_iff; rewrite Z.eqb_neq, Z.ltb_ge; lia.
Qed.

(** What a race has made of an authority, and of the bundles that wait for the lock. *)
Definition race_from (a : Authority) (events : list race_event)
    (s : Authority * list LoadedBundle) : Prop :=
  let verified b := ∃ fs now, Verifies fs now ∈ events ∧ verify_mesh fs a now = Ok (Some b) in
  succeeds a s.1 ∧ auth_config s.1 = auth_config a ∧ mesh_zone s.1 = mesh_zone a
  ∧ Forall verified s.2
  ∧ (snapshot s.1 = snapshot a
     ∨ ∃ b, verified b
         ∧ snapshot s.1 = build_snapshot (static_records a) (static_zones a) (Some b)).

Lemma verify_mesh_config fs a a' now :
  auth_config a' = auth_config a → mesh_zone a' = mesh_zone a →
  verify_mesh fs a' now = verify_mesh fs a now.
Proof. intros Hc Hz. unfold verify_mesh. by rewrite Hc, Hz. Qed.

Lemma race_from_step a events s ev :
  race_from a events s → race_from a (events ++ [ev]) (race_step s ev).
Proof.
  intros (Hs & Hc & Hz & Hv & Hsnap).
  assert (∀ b, (∃ fs now, Verifies fs now ∈ events ∧ verify_mesh fs a now = Ok (Some b)) →
    ∃ fs now, Verifies fs now ∈ events ++ [ev] ∧ verify_mesh fs a now = Ok (Some b)) as Hmore.
  { intros b (fs & now & Hin & Hb). exists fs, now. split; [|done]. apply elem_of_app. by left. }
  assert (race_from a (events ++ [ev]) s) as Hsame.
  { split; [done|]. split; [done|]. split; [done|]. split; [by eapply list.Forall_impl|].
    destruct Hsnap as [?|(b & Hb & ?)]; [by left|right]. exists b. by split; [apply Hmore|]. }
  destruct ev as [fs now|i]; cbn [race_step].
  - rewrite (verify_mesh_config fs a) by done. destruct (verify_mesh fs a now) as [[b|]|e] eqn:Hb; [|done..].
    destruct Hsame as (? & ? & ? & Hv' & Hsn). split; [done|]. split; [done|]. split; [done|]. split; [|done].
    apply Forall_app. split; [done|]. constructor; [|constructor]. exists fs, now. split; [|done].
    apply elem_of_app. right. by left.
  - destruct (s.2 !! i) as [b|] eqn:Hi; [|done]. destruct Hsame as (_ & _ & _ & Hv' & Hsn).
    destruct (apply_mesh_step b s.1) as [Hs' _]. pose proof Hs as (_ & _ & Hrec & Hzon).
    assert (∃ fs now, Verifies fs now ∈ events ++ [Applies i] ∧ verify_mesh fs a now = Ok (Some b)) as Hbv.
    { exact (proj1 (list.Forall_forall _ _) Hv' b (list_elem_of_lookup_2 _ _ _ Hi)). }
    split; [by etrans|]. cbn [fst snd].
    assert (Forall (λ b, ∃ fs now, Verifies fs now ∈ events ++ [Applies i] ∧ verify_mesh fs a now = Ok (Some b))
      (delete i s.2)) as Hdel by (by apply Forall_delete).
    unfold apply_mesh. destruct (is_rollback _ _); cbn [snd]; [done|].
    split; [done|]. split; [done|]. split; [done|]. right. exists b. split; [done|].
    cbn [apply_bundle snapshot]. by rewrite Hrec, Hzon.
Qed.

Lemma race_from_run a events : race_from a events (foldl race_step (a, []) events).
Proof.
  induction events as [|ev events IH] using rev_ind.
  - split; [done|]. repeat (split; [done|]). by left.
  - rewrite foldl_app. cbn [foldl]. by apply race_from_step.
Qed.

Lemma race_watermark events s :
  watermark_le (mesh_watermark s.1) (mesh_watermark (foldl race_step s events).1).
Proof.
  revert s. induction events as [|ev events IH]; intros s; [reflexivity|]. cbn [foldl].
  etrans; [|apply IH]. destruct ev as [fs now|i]; cbn [race_step].
  - by destruct (verify_mesh fs s.1 now) as [[b|]|e].
  - destruct (s.2 !! i) as [b|]; [|done]. by destruct (apply_mesh_step b s.1) as [(_ & ? & _) _].
Qed.

(** C33. Reloaders may race (the poller and a SIGHUP), each verifying its bundle before it
    takes the lock.  However verifications and applications interleave, and whatever
    files and clocks they see, the anti-rollback watermark never goes back and ends no
    older than any bundle that was applied or refused; the static half never changes; the
    published snapshot is that of the bundle whose stamp is the watermark, and it is the
    one there was or that of a bundle that verified. *)
Theorem racing_reloads_never_roll_back (fs : files) (config : AuthorityConfig) (now : Z)
    (a : Authority) (events : list race_event) :
  new fs config now = Ok a →
  let a' := run_race a events in
  published a' ∧ watermark_le (mesh_watermark a) (mesh_watermark a')
  ∧ static_records a' = static_records a ∧ static_zones a' = static_zones a
  ∧ (snapshot a' = snapshot a
     ∨ ∃ b fs now, Verifies fs now ∈ events ∧ verify_mesh fs a now = Ok (Some b)
         ∧ snapshot a' = build_snapshot (static_records a) (static_zones a) (Some b))
  ∧ ∀ pre i post b, events = pre ++ Applies i :: post →
      (foldl race_step (a, []) pre).2 !! i = Some b →
      watermark_le (offered b) (mesh_watermark a').
Proof.
  intros Hn a'. assert (published a) as Hp by (by eapply new_published).
  destruct (race_from_run a events) as ((Hpub & Hw & Hr & Hz) & _ & _ & _ & Hsnap).
  split; [by apply Hpub|]. split; [done|]. split; [done|]. split; [done|]. split.
  { destruct Hsnap as [?|(b & (fs' & now' & ? & ?) & ?)]; [by left|right]. by exists b, fs', now'. }
  intros pre i post b He Hi. subst a' events. unfold run_race. rewrite foldl_app. cbn [foldl].
  set (s := foldl race_step (a, []) pre) in *. cbn [race_step]. rewrite Hi.
  etrans; [exact (apply_mesh_over b s.1)|]. exact (race_watermark post (_, _)).
Qed.

(** The authority never claims the root or a bare top-level domain: each of its static
    zones has at least two labels, is the configured mesh zone, or was explicitly
    declared in [authority.zones]. *)
Theorem static_zones_allowed (fs : files) (config : AuthorityConfig) (now : Z) (a : Authority) :
  new fs config now = Ok a →
  Forall (zone_allowed (mesh_zone a) (declared_zones config)) (static_zones a).
Proof.
  intros Hn. unfold new in Hn. apply bind_ok in Hn as ([records zones] & Hf & [= <-]).
  cbn [mesh_zone static_zones]. apply declared_zones_allowed; [|intros z; apply elem_of_elements].
  eapply (try_fold_inv (λ acc, Forall (zone_allowed _ _) acc.2)) in Hf; [exact Hf|constructor|].
  intros acc sr acc' _. apply add_static_zones.
Qed.
End transitions.

(** C34. A lookup answers [None] exactly outside every zone of the authority.  Inside, [ANY]
    gets all the records at the queried name.  Any other type gets a chain of at most nine
    aliases that starts at the queried name and goes through distinct names of the
    authority's zones, followed by all the records of the type at the chain's end.  There are
    none of these only if that name has none and no alias that would lead on, is outside the
    zones, was passed before, or is the end of nine aliases. *)
Theorem lookup_sound (a : Authority) (name record_type : str) :
  let n := normalise_name name in
  let rtype := to_ascii_uppercase (trim record_type) in
  let records := snap_records (snapshot a) in
  (lookup a name record_type = None ↔ ¬ in_scope a (snapshot a) n)
  ∧ (∀ rs, lookup a name record_type = Some rs → rtype = "ANY"%rs → rs = default [] (records !! n))
  ∧ ∀ rs, lookup a name record_type = Some rs → rtype ≠ "ANY"%rs →
    ∃ cs ns m ts, rs = cs ++ ts ∧ alias_path (snapshot a) rtype n cs ns m
      ∧ (length cs <= 9)%nat
      ∧ NoDup (removelast (n :: ns)) ∧ Forall (in_scope a (snapshot a)) (removelast (n :: ns))
      ∧ ((in_scope a (snapshot a) m ∧ ∃ recs, records !! m = Some recs
            ∧ ts = of_type rtype recs ∧ (ts = [] → find_cname recs = None))
         ∨ ts = [] ∧ (length cs = 9%nat ∨ m ∈ removelast (n :: ns) ∨ ¬ in_scope a (snapshot a) m
                      ∨ records !! m = None)).
Proof.
  intros n rtype records. unfold lookup. fold n rtype.
  destruct (is_authoritative_for_normalised a n (snapshot a)) eqn:Hz; cbn [negb].
  2:{ split; [|done]. split; [|done]. intros _ Hs%is_authoritative_spec. congruence. }
  apply is_authoritative_spec in Hz. split; [by split|]. split.
  { intros rs [= <-] Hany. unfold collect_with_cname_chain. fold records. rewrite Hany. cbn. by destruct (records !! n). }
  intros rs [= <-] Hany.
  destruct (collect_chain a n rtype (snapshot a) Hz Hany) as (cs & ns & m & ts & -> & Hp & Hnd & Hf & Hl & He).
  exists cs, ns, m, ts. do 4 (split; [done|]).
  split; [eapply list.Forall_impl; [exact Hf|]; cbn; tauto|]. cbn in He. tauto.
Qed.

(** An alias chain that ends is answered in full: when at most eight aliases lead from
    the queried name, through distinct names of the authority's zones, to records of
    the requested type, the answer is those aliases followed by those records. *)
Theorem lookup_follows_aliases (a : Authority) (name record_type : str)
    (cs : list DnsRecord) (ns : list str) (m : str) (recs : list DnsRecord) :
  let n := normalise_name name in
  let rtype := to_ascii_uppercase (trim record_type) in
  rtype ≠ "ANY"%rs → rtype ≠ "CNAME"%rs →
  alias_path (snapshot a) rtype n cs ns m → (length cs <= 8)%nat →
  NoDup (n :: ns) → Forall (in_scope a (snapshot a)) (n :: ns) →
  snap_records (snapshot a) !! m = Some recs → of_type rtype recs ≠ [] →
  lookup a name record_type = Some (cs ++ of_type rtype recs).
Proof.
  intros n rtype Hany Hcn Hp Hlen Hnd Hs Hm Ht. unfold lookup. fold n rtype.
  apply Forall_cons_1 in Hs as [Hsn Hss]. apply is_authoritative_spec in Hsn as Hz.
  rewrite Hz. cbn [negb]. f_equal. unfold collect_with_cname_chain, str_eqb.
  rewrite !(bool_decide_false (rtype = _)) by done. cbn [orb].
  inversion Hp as [|? c t cs' ns' m' (recs' & Hr & Hno & Hc & Hct) Hp']; subst.
  - rewrite Hm. by rewrite (bool_decide_false (of_type rtype recs = [])).
  - rewrite Hr, bool_decide_true by done. cbn [negb mbind option_bind]. rewrite Hc, Hct.
    apply list.NoDup_cons in Hnd as [Hn Hnd].
    rewrite (chase_complete a (snapshot a) rtype cs' ns' t m recs); try done.
    apply list.Forall_forall. intros x Hx. set_solver.
Qed.

(** ** Witnesses: an aliased static host beside the demo mesh bundle *)

Definition demo_static (name type : str) (address target : option str) : StaticRecord :=
  {| static_name := name; static_record_type := type; static_address := address;
     static_target := target; static_ttl := 60; static_client_filter := None |}.

Definition demo_authority_config : AuthorityConfig :=
  {| authority_mesh_zone_bundle_path := Some "bundle"%rs;
     authority_mesh_zone_verifier_key_path := Some "key"%rs;
     authority_mesh_zone_max_age_secs := 600; authority_mesh_zone := "mesh"%rs;
     authority_static_records :=
       [demo_static "nas.home.lan"%rs "A"%rs (Some "10.0.0.2"%rs) None;
        demo_static "WWW.home.lan"%rs "cname"%rs None (Some "nas.home.lan"%rs)];
     authority_zones := ["lab"%rs]; authority_poll_interval_secs := 30 |}.

Definition demo_authority : result zone_error Authority :=
  @new ascii_only demo_ed25519 demo_files demo_authority_config 1700000300.

(** A later reload of a vanished bundle and one of the same bundle. *)
Definition demo_events : list (files * Z) :=
  [((λ _, None), 1700000310); (demo_files, 1700000320)].

Lemma reloads_never_roll_back_witness :
  ∃ a, demo_authority = Ok a
  ∧ mesh_watermark a = Some (1700000000, 7)
  ∧ watermark_le (mesh_watermark a)
      (mesh_watermark (@run_reloads ascii_only demo_ed25519 a demo_events)).
Proof.
  eexists. split; [vm_compute; reflexivity|]. split; [vm_compute; reflexivity|].
  eapply (@reloads_never_roll_back ascii_only demo_ed25519 demo_files demo_authority_config
    1700000300). vm_compute. reflexivity.
Defined.

(** A reloader verifies the bundle, another one applies it first; both are idempotent. *)
Definition demo_race : list race_event :=
  [Verifies demo_files 1700000310; Verifies demo_files 1700000320; Applies 1; Applies 0].

Example demo_race_waits :
  (λ a, length (foldl (@race_step ascii_only demo_ed25519) (a, []) (take 2 demo_race)).2)
    <$> result_ok demo_authority = Some 2%nat.
Proof. vm_compute. reflexivity. Qed.

Lemma racing_reloads_never_roll_back_witness :
  match demo_authority with
  | Ok a =>
      let a' := @run_race ascii_only demo_ed25519 a demo_race in
      published a' ∧ watermark_le (mesh_watermark a) (mesh_watermark a')
  | Err _ => False
  end.
Proof.
  destruct demo_authority as [a|e] eqn:E; [|vm_compute in E; discriminate E].
  destruct (@racing_reloads_never_roll_back ascii_only demo_ed25519 demo_files
    demo_authority_config 1700000300 a demo_race E) as (Hp & Hw & _).
  exact (conj Hp Hw).
Defined.

Lemma static_zones_allowed_witness :
  ∃ a, demo_authority = Ok a ∧ static_zones a = ["home.lan."%rs; "lab."%rs]
  ∧ Forall (zone_allowed (mesh_zone a) (declared_zones demo_authority_config)) (static_zones a).
Proof.
  eexists. split; [vm_compute; reflexivity|]. split; [vm_compute; reflexivity|].
  eapply (@static_zones_allowed ascii_only demo_ed25519 demo_files demo_authority_config
    1700000300). vm_compute. reflexivity.
Defined.

Definition demo_nas : DnsRecord :=
  {| rec_name := "nas.home.lan."%rs; rec_data := A 167772162; rec_ttl := 60;
     rec_mesh_node_id := None |}.
Definition demo_www : DnsRecord :=
  {| rec_name := "www.home.lan."%rs; rec_data := Cname "nas.home.lan."%rs; rec_ttl := 60;
     rec_mesh_node_id := None |}.

Definition demo_static_authority : Authority :=
  {| auth_config := demo_authority_config; mesh_zone := "mesh."%rs;
     static_records := push_record (push_record ∅ demo_nas) demo_www;
     static_zones := ["home.lan."%rs];
     snapshot := {| snap_zones := ["home.lan."%rs];
                    snap_records := push_record (push_record ∅ demo_nas) demo_www |};
     mesh_watermark := None |}.

Lemma lookup_sound_witness :
  ∃ cs ns m ts, [demo_www; demo_nas] = cs ++ ts
  ∧ alias_path (snapshot demo_static_authority) "A"%rs "www.home.lan."%rs cs ns m
  ∧ (length cs <= 9)%nat.
Proof.
  destruct (proj2 (proj2 (lookup_sound demo_static_authority "WWW.home.lan"%rs "a"%rs)) [demo_www; demo_nas])
    as (cs & ns & m & ts & Hrs & Hp & Hl & _).
  - vm_compute. reflexivity.
  - vm_compute. discriminate.
  - exists cs, ns, m, ts. exact (conj Hrs (conj Hp Hl)).
Defined.

Lemma lookup_follows_aliases_witness :
  lookup demo_static_authority "WWW.home.lan"%rs "a"%rs = Some ([demo_www] ++ of_type "A"%rs [demo_nas]).
Proof.
  apply (lookup_follows_aliases demo_static_authority "WWW.home.lan"%rs "a"%rs
    [demo_www] ["nas.home.lan."%rs] "nas.home.lan."%rs [demo_nas]).
  - vm_compute. discriminate.
  - vm_compute. discriminate.
  - apply path_hop with (t := "nas.home.lan."%rs); [|apply path_here].
    exists [demo_www]. repeat split; vm_compute; reflexivity.
  - simpl. lia.
  - apply (bool_decide_eq_true_1 (NoDup _)). vm_compute. reflexivity.
  - forall_list ltac:(apply is_authoritative_spec; vm_compute; reflexivity).
  - vm_compute. reflexivity.
  - vm_compute. discriminate.
Defined.
