(* ===== verification/Hickory.v ===== *)
(** * Hickory: what the code uses of the DNS library
    (the crates [hickory_proto] and [hickory_resolver])

    Record types, names, resolver errors and the data the code does not look into are
    parameters, gathered in the class [Hickory].  The enumerations the code matches on
    are given with the variants it names and one constructor for the others. *)

From S2P Require Import Prelude RustStr.

Inductive ResponseCode :=
| NoError | FormErr | ServFail | NXDomain | NotImp | Refused | BADVERS
| OtherCode (low : Z).

#[export] Instance ResponseCode_eq_dec : EqDecision ResponseCode.
Proof. solve_decision. Defined.

(** The variants of [NetError] that [error_kind_label] names. *)
Inductive NetErrorKind := KBusy | KDns | KMessage | KMsg | KNoConnections | KProto | KOther.

Class Hickory := {
  RecordType : Type;
  RecordType_eqdec :: EqDecision RecordType;
  RT_A : RecordType;
  RT_AAAA : RecordType;
  RT_CNAME : RecordType;
  RT_PTR : RecordType;
  RT_NS : RecordType;
  RT_MX : RecordType;
  RT_SRV : RecordType;
  RT_TXT : RecordType;
  RT_ANY : RecordType;
  RT_AXFR : RecordType;
  RT_IXFR : RecordType;
  (** The variants are distinct. *)
  RT_distinct :
    NoDup [RT_A; RT_AAAA; RT_CNAME; RT_PTR; RT_NS; RT_MX; RT_SRV; RT_TXT; RT_ANY;
           RT_AXFR; RT_IXFR];
  record_type_from_str : str → option RecordType;
  (** [Into<&'static str>]. *)
  record_type_to_string : RecordType → str;
  HName : Type;
  name_to_utf8 : HName → str;
  name_from_utf8 : str → option HName;
  name_from_str : str → option HName;
  (** Record data of the types the code has no variant for. *)
  OtherRData : Type;
  NetError : Type;
  is_no_records_found : NetError → bool;
  is_nx_domain : NetError → bool;
  net_error_kind : NetError → NetErrorKind;
}.

Inductive RData `{Hickory} :=
| RD_A (ip : Z)
| RD_AAAA (ip : Z)
| RD_CNAME (n : HName)
| RD_PTR (n : HName)
| RD_NS (n : HName)
| RD_MX (preference : Z) (exchange : HName)
| RD_SRV (priority weight port : Z) (target : HName)
| RD_TXT (txt_data : list (list Z))
| RD_Other (o : OtherRData).

(** [hickory_proto::rr::Record]. *)
Record RR `{Hickory} := { rr_name : HName; rr_ttl : Z; rr_data : RData }.

Section types.
Context `{Hickory}.

(** Two variants at different places of the enumeration differ. *)
Lemma RT_neq i j x y :
  [RT_A; RT_AAAA; RT_CNAME; RT_PTR; RT_NS; RT_MX; RT_SRV; RT_TXT; RT_ANY; RT_AXFR; RT_IXFR]
    !! i = Some x →
  [RT_A; RT_AAAA; RT_CNAME; RT_PTR; RT_NS; RT_MX; RT_SRV; RT_TXT; RT_ANY; RT_AXFR; RT_IXFR]
    !! j = Some y →
  i ≠ j → x ≠ y.
Proof. intros Hi Hj Hij ->. apply Hij. by eapply NoDup_lookup; [apply RT_distinct|..]. Qed.
End types.

(** The place of a variant in the enumeration. *)
Ltac rt_index x :=
  lazymatch x with
  | RT_A => constr:(0%nat) | RT_AAAA => constr:(1%nat) | RT_CNAME => constr:(2%nat)
  | RT_PTR => constr:(3%nat) | RT_NS => constr:(4%nat) | RT_MX => constr:(5%nat)
  | RT_SRV => constr:(6%nat) | RT_TXT => constr:(7%nat) | RT_ANY => constr:(8%nat)
  | RT_AXFR => constr:(9%nat) | RT_IXFR => constr:(10%nat)
  end.

(** Decide every comparison of two named record types in the goal. *)
Ltac rt_decide :=
  repeat match goal with
  | |- context [bool_decide (?x = ?x)] => rewrite (bool_decide_true (x = x)) by reflexivity
  | |- context [bool_decide (?x = ?y)] =>
      let i := rt_index x in
      let j := rt_index y in
      rewrite (bool_decide_false (x = y)) by (apply (RT_neq i j); [reflexivity|reflexivity|lia])
  end.

(** Two different named record types are equal: absurd. *)
Ltac rt_absurd E :=
  match type of E with
  | ?x = ?y =>
      let i := rt_index x in
      let j := rt_index y in
      exfalso; revert E; apply (RT_neq i j); [reflexivity|reflexivity|lia]
  end.

(** ** A concrete instance: types by their numbers, names as their text *)

Definition demo_types : list (str * Z) :=
  [("A"%rs, 1); ("AAAA"%rs, 28); ("CNAME"%rs, 5); ("PTR"%rs, 12); ("NS"%rs, 2); ("MX"%rs, 15);
   ("SRV"%rs, 33); ("TXT"%rs, 16); ("ANY"%rs, 255); ("AXFR"%rs, 252); ("IXFR"%rs, 251)].

Definition demo_type_name (t : Z) : str :=
  default (show_dec t) (fst <$> List.find (λ p, p.2 =? t) demo_types).

Definition demo_type_from (s : str) : option Z :=
  snd <$> List.find (λ p, str_eqb p.1 s) demo_types.

Lemma demo_types_distinct : NoDup [1; 28; 5; 12; 2; 15; 33; 16; 255; 252; 251].
Proof. apply (bool_decide_eq_true_1 _). vm_compute. reflexivity. Qed.

Definition demo_hickory : Hickory :=
  {| RecordType := Z; RT_A := 1; RT_AAAA := 28; RT_CNAME := 5; RT_PTR := 12; RT_NS := 2;
     RT_MX := 15; RT_SRV := 33; RT_TXT := 16; RT_ANY := 255; RT_AXFR := 252; RT_IXFR := 251;
     RT_distinct := demo_types_distinct;
     record_type_from_str := demo_type_from; record_type_to_string := demo_type_name;
     HName := str; name_to_utf8 := λ n, n; name_from_utf8 := Some; name_from_str := Some;
     OtherRData := unit; NetError := bool * bool;
     is_no_records_found := fst; is_nx_domain := snd; net_error_kind := λ _, KBusy |}.
