(* ===== verification/Answers.v ===== *)
(** * Answers: upstream answers, their conversion and the answer defences
    ([rustydns-resolver/src/lib.rs], the part every transport shares)

    An answer is a list of records; a filter returns the records it keeps and how many
    it dropped, as a [u32].  Containment is the fixpoint the code computes, with one
    pass of fuel per record and one more. *)

From S2P Require Import Prelude RustStr Net Record Hickory.

Definition u32_count (n : nat) : Z := Z.of_nat n mod 2 ^ 32.

Record ResolveOutcome := {
  out_records : list DnsRecord;
  private_rdata_dropped : Z;
  nxdomain : bool;
}.

(** What a filter returns: the records kept and the number dropped. *)
Abbreviation filtered := (list DnsRecord * Z)%type.

(** [records.retain(keep)] and the count of the records it removes. *)
Definition retain (keep : DnsRecord → bool) (records : list DnsRecord) : filtered :=
  let kept := List.filter keep records in
  (kept, u32_count (length records - length kept)).

(** ** Addresses that no public answer should contain *)

Definition is_documentation_v4 (ip : Z) : bool :=
  ((octet ip 0 =? 192) && (octet ip 1 =? 0) && (octet ip 2 =? 2))
  || ((octet ip 0 =? 198) && (octet ip 1 =? 51) && (octet ip 2 =? 100))
  || ((octet ip 0 =? 203) && (octet ip 1 =? 0) && (octet ip 2 =? 113)).

Definition is_private_or_internal_v4 (ip : Z) : bool :=
  v4_is_private ip || v4_is_loopback ip || v4_is_link_local ip || v4_is_unspecified ip
  || v4_is_broadcast ip || is_documentation_v4 ip || v4_is_multicast ip.

Definition is_documentation_v6 (ip : Z) : bool :=
  (segment ip 0 =? 8193) && (segment ip 1 =? 3512).

(** [fc00::/7] and [fe80::/10]. *)
Definition v6_is_unique_local (ip : Z) : bool := Z.land (segment ip 0) 65024 =? 64512.
Definition v6_is_unicast_link_local (ip : Z) : bool := Z.land (segment ip 0) 65472 =? 65152.

Definition is_private_or_internal_v6 (ip : Z) : bool :=
  match to_ipv4_mapped ip with
  | Some v4 => is_private_or_internal_v4 v4
  | None =>
      v6_is_loopback ip || v6_is_unspecified ip || v6_is_unique_local ip
      || v6_is_unicast_link_local ip || is_documentation_v6 ip || v6_is_multicast ip
  end.

Definition private_record (r : DnsRecord) : bool :=
  match rec_data r with
  | A ip => is_private_or_internal_v4 ip
  | Aaaa ip => is_private_or_internal_v6 ip
  | _ => false
  end.

Definition filter_private_rdata (records : list DnsRecord) : filtered :=
  retain (λ r, negb (private_record r)) records.

(** ** Identical records

    The key [name|data|ttl] is an injective rendering of the three fields, so a key is
    the triple itself. *)

Definition dedup_key (r : DnsRecord) : str * RecordData * Z :=
  (rec_name r, rec_data r, rec_ttl r).

Fixpoint dedup_loop (seen : list (str * RecordData * Z)) (records : list DnsRecord) :
    list DnsRecord :=
  match records with
  | [] => []
  | r :: records =>
      if bool_decide (dedup_key r ∈ seen) then dedup_loop seen records
      else r :: dedup_loop (dedup_key r :: seen) records
  end.

Definition dedup_identical (records : list DnsRecord) : filtered :=
  let kept := dedup_loop [] records in
  (kept, u32_count (length records - length kept)).

(** ** Containment *)

Definition canonical (n : str) : str := to_ascii_lowercase (trim_end_matches "."%rc n).

Definition grow_step (acc : gset str * bool) (r : DnsRecord) : gset str * bool :=
  let '(allowed, grew) := acc in
  match rec_data r with
  | Cname target =>
      if bool_decide (canonical (rec_name r) ∈ allowed)
         && negb (bool_decide (canonical target ∈ allowed))
      then ({[canonical target]} ∪ allowed, true)
      else (allowed, grew)
  | _ => (allowed, grew)
  end.

Definition grow_pass (records : list DnsRecord) (allowed : gset str) : gset str * bool :=
  foldl grow_step (allowed, false) records.

Fixpoint grow_loop (fuel : nat) (records : list DnsRecord) (allowed : gset str) :
    option (gset str) :=
  match fuel with
  | O => None
  | S fuel =>
      let '(allowed, grew) := grow_pass records allowed in
      if grew then grow_loop fuel records allowed else Some allowed
  end.

Definition allowed_names (records : list DnsRecord) (qname : str) : gset str :=
  default ∅ (grow_loop (S (length records)) records {[canonical qname]}).

Definition filter_out_of_bailiwick (records : list DnsRecord) (qname : str) : filtered :=
  let allowed := allowed_names records qname in
  retain (λ r, bool_decide (canonical (rec_name r) ∈ allowed)) records.

(** ** Types and conversion *)

Section hickory.
Context `{Hickory}.

Definition qtype_name (qtype : RecordType) : str :=
  if bool_decide (qtype = RT_A) then "A"%rs
  else if bool_decide (qtype = RT_AAAA) then "AAAA"%rs
  else if bool_decide (qtype = RT_CNAME) then "CNAME"%rs
  else if bool_decide (qtype = RT_PTR) then "PTR"%rs
  else if bool_decide (qtype = RT_NS) then "NS"%rs
  else if bool_decide (qtype = RT_MX) then "MX"%rs
  else if bool_decide (qtype = RT_SRV) then "SRV"%rs
  else if bool_decide (qtype = RT_TXT) then "TXT"%rs
  else [].

Definition type_label_matches (qtype : RecordType) (data : RecordData) : bool :=
  let want := qtype_name qtype in
  match data with
  | A _ => str_eqb want "A"%rs
  | Aaaa _ => str_eqb want "AAAA"%rs
  | _ => false
  end
  || match data with
     | Ptr _ => str_eqb want "PTR"%rs
     | Ns _ => str_eqb want "NS"%rs
     | Mx _ _ => str_eqb want "MX"%rs
     | Srv _ _ _ _ => str_eqb want "SRV"%rs
     | Txt _ => str_eqb want "TXT"%rs
     | _ => false
     end.

Definition filter_wrong_type (records : list DnsRecord) (qtype : RecordType) : filtered :=
  retain (λ r, match rec_data r with
               | Cname _ => true
               | other => type_label_matches qtype other
               end) records.

Definition filter_answer_sanity (records : list DnsRecord) (qname : str) (qtype : RecordType) :
    filtered :=
  let '(records, dropped) := filter_out_of_bailiwick records qname in
  let '(records, dropped') := filter_wrong_type records qtype in
  let '(records, dropped'') := dedup_identical records in
  (records, (dropped + dropped' + dropped'') mod 2 ^ 32).

Definition rdata_to_record_data (rdata : RData) : option RecordData :=
  match rdata with
  | RD_A a => Some (A a)
  | RD_AAAA a => Some (Aaaa a)
  | RD_CNAME c => Some (Cname (name_to_utf8 c))
  | RD_PTR p => Some (Ptr (name_to_utf8 p))
  | RD_NS n => Some (Ns (name_to_utf8 n))
  | RD_MX preference exchange => Some (Mx preference (name_to_utf8 exchange))
  | RD_SRV priority weight port target => Some (Srv priority weight port (name_to_utf8 target))
  | RD_TXT txt_data => Some (Txt txt_data)
  | RD_Other _ => None
  end.

Context `{Unicode}.

Definition record_to_dns_record (rec : RR) : option DnsRecord :=
  data ← rdata_to_record_data (rr_data rec);
  Some (record_new (name_to_utf8 (rr_name rec)) data (rr_ttl rec)).

Definition lookup_to_dns_records (records : list RR) : list DnsRecord :=
  omap record_to_dns_record records.

(** The pipeline of a successful answer: conversion, sanity, and the rebinding defence
    where it applies. *)
Definition answer_outcome (answers : list RR) (qname : str) (qtype : RecordType)
    (block_private : bool) : ResolveOutcome :=
  let records := lookup_to_dns_records answers in
  let '(records, dropped) := filter_answer_sanity records qname qtype in
  let '(records, dropped) :=
    if block_private
    then let '(records, dropped') := filter_private_rdata records in
         (records, (dropped + dropped') mod 2 ^ 32)
    else (records, dropped) in
  {| out_records := records; private_rdata_dropped := dropped; nxdomain := false |}.
End hickory.

(** ** What a filter keeps *)

Lemma retain_elem keep records r :
  r ∈ (retain keep records).1 ↔ r ∈ records ∧ keep r = true.
Proof. simpl. by rewrite !list_elem_of_In, filter_In. Qed.

Lemma list_filter_sublist (keep : DnsRecord → bool) records : List.filter keep records `sublist_of` records.
Proof. induction records as [|r rs IH]; simpl; [done|]. case_match; by constructor. Qed.

(** ** Containment: the names reached are those of the aliases *)

Section containment.
Context (records : list DnsRecord).

(** The names an answer may speak about: the queried one, and the target of an alias
    whose owner is one. *)
Inductive reached (qname : str) : str → Prop :=
| reached_qname : reached qname (canonical qname)
| reached_alias r target :
    r ∈ records → rec_data r = Cname target →
    reached qname (canonical (rec_name r)) → reached qname (canonical target).

(** No alias leads out of the set. *)
Definition closed (rs : list DnsRecord) (allowed : gset str) : Prop :=
  ∀ r t, r ∈ rs → rec_data r = Cname t → canonical (rec_name r) ∈ allowed → canonical t ∈ allowed.

Definition targets : gset str :=
  list_to_set (omap (λ r, match rec_data r with Cname t => Some (canonical t) | _ => None end) records).

Lemma size_list_to_set (l : list str) : (size (list_to_set (C := gset str) l) ≤ length l)%nat.
Proof.
  induction l as [|t ts IH]; [done|]. cbn [list_to_set length].
  destruct (decide (t ∈ list_to_set (C := gset str) ts)) as [Hin|Hout].
  - rewrite (subseteq_union_1_L {[t]}) by set_solver. lia.
  - rewrite size_union, size_singleton by set_solver. lia.
Qed.

Lemma size_targets : (size targets ≤ length records)%nat.
Proof.
  unfold targets. etrans; [apply size_list_to_set|apply omap_length_le].
Qed.

(** A step either adds the target of an alias of a name in the set, or the record does
    not lead out of it. *)
Lemma grow_step_cases allowed grew r :
  (grow_step (allowed, grew) r = (allowed, grew)
   ∧ (∀ t, rec_data r = Cname t → canonical (rec_name r) ∈ allowed → canonical t ∈ allowed))
  ∨ (∃ t, rec_data r = Cname t ∧ canonical (rec_name r) ∈ allowed ∧ ¬ (canonical t ∈ allowed)
      ∧ grow_step (allowed, grew) r = ({[canonical t]} ∪ allowed, true)).
Proof.
  unfold grow_step. destruct (rec_data r) as [| |t| | | | |]; try (left; by split).
  case_bool_decide; [case_bool_decide|]; simpl.
  - left. split; [done|]. by intros ? [= <-].
  - right. eauto.
  - left. split; [done|]. by intros ? [= <-].
Qed.

Lemma grow_fold rs allowed grew allowed' grew' :
  (∀ r, r ∈ rs → r ∈ records) →
  foldl grow_step (allowed, grew) rs = (allowed', grew') →
  allowed ⊆ allowed' ∧ (grew = true → grew' = true)
  ∧ (grew' = false → allowed' = allowed ∧ closed rs allowed)
  ∧ (grew = false → grew' = true → (size allowed < size allowed')%nat)
  ∧ allowed' ⊆ allowed ∪ targets
  ∧ (∀ q, (∀ x, x ∈ allowed → reached q x) → ∀ x, x ∈ allowed' → reached q x).
Proof.
  revert allowed grew. induction rs as [|r rs IH]; intros allowed grew Hrs; cbn [foldl].
  { intros [= <- <-]. split; [done|]. split; [done|]. split; [|split; [by intros ->|]].
    - intros _. split; [done|]. by intros r t ?%not_elem_of_nil.
    - split; [set_solver|done]. }
  assert (r ∈ records) as Hr by (apply Hrs; left).
  assert (∀ r', r' ∈ rs → r' ∈ records) as Hrs' by (intros; apply Hrs; by right).
  destruct (grow_step_cases allowed grew r) as [[-> Hstay]|(t & Ht & Ho & Hn & ->)];
    intros Hf; apply IH in Hf as (Hsub & Hg & Hc & Hs & Hb & Hre); try exact Hrs'.
  - split; [done|]. split; [done|]. split; [|done]. intros [-> Hcl]%Hc. split; [done|].
    intros r' t' [->|?]%elem_of_cons; [by apply Hstay|by apply Hcl].
  - assert (canonical t ∈ targets) as Htt.
    { apply elem_of_list_to_set, list_elem_of_omap. exists r. by rewrite Ht. }
    split; [clear -Hsub; set_solver|]. split; [by intros; apply Hg|].
    split; [intros ->; by specialize (Hg eq_refl)|]. split.
    { intros _ _. apply subseteq_size in Hsub.
      rewrite size_union, size_singleton in Hsub by (clear -Hn; set_solver). lia. }
    split; [clear -Hb Htt; set_solver|]. intros q Hq. apply Hre. intros x [->%elem_of_singleton|Hx]%elem_of_union.
    + eapply reached_alias; eauto.
    + by apply Hq.
Qed.

Lemma grow_loop_spec fuel allowed qname :
  canonical qname ∈ allowed → (∀ x, x ∈ allowed → reached qname x) →
  allowed ⊆ {[canonical qname]} ∪ targets →
  (S (length records) < fuel + size allowed)%nat →
  ∃ final, grow_loop fuel records allowed = Some final ∧ canonical qname ∈ final
    ∧ closed records final ∧ ∀ x, x ∈ final → reached qname x.
Proof.
  revert allowed. induction fuel as [|fuel IH]; intros allowed Hq Hre Hb Hf.
  { exfalso. apply subseteq_size in Hb.
    assert (size ({[canonical qname]} ∪ targets) ≤ 1 + size targets)%nat as Hu.
    { rewrite size_union_alt, size_singleton.
      pose proof (subseteq_size (targets ∖ {[canonical qname]}) targets ltac:(set_solver)). lia. }
    pose proof size_targets. lia. }
  cbn [grow_loop]. destruct (grow_pass records allowed) as [allowed' grew] eqn:E.
  apply grow_fold in E as (Hsub & _ & Hc & Hs & Hbn & Hre'); [|done].
  destruct grew.
  - apply IH; [by apply Hsub|by apply Hre'|clear -Hb Hbn; set_solver|]. specialize (Hs eq_refl eq_refl). lia.
  - destruct (Hc eq_refl) as [-> Hcl]. by exists allowed.
Qed.

Lemma grow_loop_more fuel k allowed final :
  grow_loop fuel records allowed = Some final → grow_loop (fuel + k) records allowed = Some final.
Proof.
  revert allowed. induction fuel as [|fuel IH]; intros allowed; [done|]. cbn [grow_loop Nat.add].
  destruct (grow_pass records allowed) as [allowed' []]; [apply IH|done].
Qed.

Lemma grow_loop_stops fuel allowed final :
  grow_loop fuel records allowed = Some final → grow_pass records final = (final, false).
Proof.
  revert allowed. induction fuel as [|fuel IH]; intros allowed; [done|]. cbn [grow_loop].
  destruct (grow_pass records allowed) as [allowed' []] eqn:E; [apply IH|]. intros [= <-].
  pose proof E as E'. apply grow_fold in E' as (_ & _ & Hc & _); [|done].
  by destruct (Hc eq_refl) as [-> _].
Qed.

(** The fuel is enough, and the fixpoint is the set of names reached. *)
Lemma allowed_names_reached qname x : x ∈ allowed_names records qname ↔ reached qname x.
Proof.
  destruct (grow_loop_spec (S (length records)) {[canonical qname]} qname)
    as (final & Hf & Hq & Hc & Hre).
  - set_solver.
  - intros y ->%elem_of_singleton. constructor.
  - set_solver.
  - rewrite size_singleton. lia.
  - unfold allowed_names. rewrite Hf. cbn [default]. split; [apply Hre|].
    induction 1 as [|r t Hr Ht _ IH]; [done|]. by eapply Hc.
Qed.
End containment.

(** C39. The containment filter terminates: whatever aliases an answer holds, cycles included,
    the loop that grows the set of names it admits stops after at most one pass per record
    and one more, at a set that a further pass leaves alone; more passes change nothing. *)
Theorem containment_terminates (records : list DnsRecord) (qname : str) :
  ∃ final, (∀ fuel, (length records < fuel)%nat →
              grow_loop fuel records {[canonical qname]} = Some final)
    ∧ grow_pass records final = (final, false).
Proof.
  destruct (grow_loop_spec records (S (length records)) {[canonical qname]} qname)
    as (final & Hf & _).
  - set_solver.
  - intros y ->%elem_of_singleton. constructor.
  - set_solver.
  - rewrite size_singleton. lia.
  - exists final. split; [|by eapply grow_loop_stops]. intros fuel Hlt.
    replace fuel with (S (length records) + (fuel - S (length records)))%nat by lia.
    by apply grow_loop_more.
Qed.

Lemma bailiwick_elem records qname r :
  r ∈ (filter_out_of_bailiwick records qname).1
  ↔ r ∈ records ∧ reached records qname (canonical (rec_name r)).
Proof.
  unfold filter_out_of_bailiwick. by rewrite retain_elem, bool_decide_eq_true, allowed_names_reached.
Qed.

(** ** Duplicates *)

Lemma dedup_loop_spec seen records :
  NoDup (dedup_key <$> dedup_loop seen records)
  ∧ dedup_loop seen records `sublist_of` records
  ∧ ∀ k, k ∈ dedup_key <$> dedup_loop seen records ↔ k ∈ dedup_key <$> records ∧ k ∉ seen.
Proof.
  revert seen. induction records as [|r rs IH]; intros seen; csimpl.
  { split; [constructor|]. split; [done|]. intros k. rewrite !elem_of_nil. naive_solver. }
  case_bool_decide as Hin; csimpl.
  - destruct (IH seen) as (Hn & Hs & Hk). split; [done|]. split; [by constructor|].
    intros k. rewrite Hk, elem_of_cons. naive_solver.
  - destruct (IH (dedup_key r :: seen)) as (Hn & Hs & Hk). split; [|split].
    + constructor; [|done]. rewrite Hk, elem_of_cons. naive_solver.
    + by constructor.
    + intros k. rewrite !elem_of_cons, Hk, elem_of_cons.
      destruct (decide (k = dedup_key r)) as [->|]; naive_solver.
Qed.

Section sanity.
Context `{Hickory}.

(** The type of a record. *)
Definition data_type (d : RecordData) : RecordType :=
  match d with
  | A _ => RT_A
  | Aaaa _ => RT_AAAA
  | Cname _ => RT_CNAME
  | Ptr _ => RT_PTR
  | Txt _ => RT_TXT
  | Mx _ _ => RT_MX
  | Ns _ => RT_NS
  | Srv _ _ _ _ => RT_SRV
  end.

Definition wanted (qtype : RecordType) (d : RecordData) : Prop :=
  data_type d = RT_CNAME ∨ data_type d = qtype.

Lemma data_type_cname d : data_type d = RT_CNAME ↔ ∃ t, d = Cname t.
Proof.
  split; [|by intros [t ->]]. destruct d; cbn; try (by eauto);
    intros E; rt_absurd E.
Qed.

Lemma type_label_matches_spec qtype d :
  (∀ t, d ≠ Cname t) → type_label_matches qtype d = true ↔ qtype = data_type d.
Proof.
  intros Hc. unfold type_label_matches, qtype_name. split.
  - repeat case_bool_decide; subst; by destruct d.
  - intros ->. destruct d as [| |t| | | | |]; cbn [data_type]; rt_decide; try reflexivity.
    by destruct (Hc t).
Qed.

Lemma filter_wrong_type_elem records qtype r :
  r ∈ (filter_wrong_type records qtype).1 ↔ r ∈ records ∧ wanted qtype (rec_data r).
Proof.
  unfold filter_wrong_type. rewrite retain_elem. f_equiv. unfold wanted.
  rewrite data_type_cname. destruct (rec_data r) eqn:E;
    try (rewrite type_label_matches_spec by done; naive_solver).
  naive_solver.
Qed.

Lemma retain_count keep records :
  (retain keep records).2 = u32_count (length records - length (retain keep records).1).
Proof. done. Qed.

Lemma u32_count_sum a b c :
  (u32_count a + u32_count b + u32_count c) mod 2 ^ 32 = u32_count (a + b + c).
Proof.
  unfold u32_count. rewrite Zplus_mod_idemp_r.
  rewrite <- (Zplus_mod_idemp_l (_ + _)), <- Zplus_mod, Zplus_mod_idemp_l. f_equal. lia.
Qed.

Lemma sanity_kept records qname qtype :
  let kept := (filter_answer_sanity records qname qtype).1 in
  kept `sublist_of` records
  ∧ Forall (λ r, reached records qname (canonical (rec_name r)) ∧ wanted qtype (rec_data r)) kept
  ∧ NoDup (dedup_key <$> kept).
Proof.
  intros kept. subst kept. unfold filter_answer_sanity.
  destruct (filter_out_of_bailiwick records qname) as [r1 d1] eqn:E1.
  destruct (filter_wrong_type r1 qtype) as [r2 d2] eqn:E2. unfold dedup_identical.
  destruct (dedup_loop_spec [] r2) as (Hn & Hs & _). cbn [fst].
  assert (r1 `sublist_of` records) as S1 by (injection E1 as <- _; apply list_filter_sublist).
  assert (r2 `sublist_of` r1) as S2 by (injection E2 as <- _; apply list_filter_sublist).
  split; [by etrans; [|etrans]|]. split; [|done].
  apply list.Forall_forall. intros r Hr. eapply elem_of_submseteq in Hr; [|apply sublist_submseteq, Hs].
  replace r2 with (filter_wrong_type r1 qtype).1 in Hr by (by rewrite E2).
  apply filter_wrong_type_elem in Hr as [Hr Hw]. split; [|done].
  replace r1 with (filter_out_of_bailiwick records qname).1 in Hr by (by rewrite E1).
  by apply bailiwick_elem in Hr as [_ ?].
Qed.

Lemma sanity_complete records qname qtype r :
  r ∈ records → reached records qname (canonical (rec_name r)) → wanted qtype (rec_data r) →
  dedup_key r ∈ dedup_key <$> (filter_answer_sanity records qname qtype).1.
Proof.
  intros Hr Hreach Hw. unfold filter_answer_sanity, dedup_identical.
  destruct (filter_out_of_bailiwick records qname) as [r1 d1] eqn:E1.
  destruct (filter_wrong_type r1 qtype) as [r2 d2] eqn:E2.
  destruct (dedup_loop_spec [] r2) as (_ & _ & Hk). cbn [fst].
  apply Hk. split; [|apply not_elem_of_nil]. apply list_elem_of_fmap_2.
  replace r2 with (filter_wrong_type r1 qtype).1 by (by rewrite E2). apply filter_wrong_type_elem.
  split; [|done]. replace r1 with (filter_out_of_bailiwick records qname).1 by (by rewrite E1).
  by apply bailiwick_elem.
Qed.

(** C15. The answer defences of every transport, together: of the records of an upstream
    answer they keep, in their order, exactly those that are about the queried name or
    a name its aliases lead to, and are aliases or of the requested type, each distinct
    record once; and they count what they drop. *)
Theorem filter_answer_sanity_spec (records : list DnsRecord) (qname : str) (qtype : RecordType) :
  let kept := (filter_answer_sanity records qname qtype).1 in
  kept `sublist_of` records
  ∧ Forall (λ r, reached records qname (canonical (rec_name r)) ∧ wanted qtype (rec_data r)) kept
  ∧ NoDup (dedup_key <$> kept)
  ∧ (∀ r, r ∈ records → reached records qname (canonical (rec_name r)) →
       wanted qtype (rec_data r) → dedup_key r ∈ dedup_key <$> kept)
  ∧ (filter_answer_sanity records qname qtype).2 = u32_count (length records - length kept).
Proof.
  intros kept. destruct (sanity_kept records qname qtype) as (Hsub & Hf & Hn). fold kept in Hsub, Hf, Hn.
  split; [done|]. split; [done|]. split; [done|]. split; [by apply sanity_complete|].
  subst kept. clear Hf Hn Hsub. unfold filter_answer_sanity, dedup_identical.
  destruct (filter_out_of_bailiwick records qname) as [r1 d1] eqn:E1.
  destruct (filter_wrong_type r1 qtype) as [r2 d2] eqn:E2.
  destruct (dedup_loop_spec [] r2) as (_ & Hs & _). cbn [fst snd].
  injection E1 as E1' <-. injection E2 as E2' <-. rewrite E1', E2', u32_count_sum.
  assert (r1 `sublist_of` records) as L1%sublist_length by (rewrite <- E1'; apply list_filter_sublist).
  assert (r2 `sublist_of` r1) as L2%sublist_length by (rewrite <- E2'; apply list_filter_sublist).
  apply sublist_length in Hs. f_equal. lia.
Qed.
End sanity.

(** ** Answers as a whole *)

Section outcome.
Context `{Hickory} `{Unicode}.

(** What is kept of the records of an answer: in their order, those about the queried name or
    one its aliases lead to, which are aliases or of the requested type, and public where
    private addresses are blocked; each distinct one once, and none left out. *)
Record defended (records : list DnsRecord) (qname : str) (qtype : RecordType) (block : bool)
    (kept : list DnsRecord) : Prop := {
  def_sublist : kept `sublist_of` records;
  def_kept : Forall (λ r, reached records qname (canonical (rec_name r)) ∧ wanted qtype (rec_data r)
               ∧ (block = true → private_record r = false)) kept;
  def_nodup : NoDup (dedup_key <$> kept);
  def_complete r : r ∈ records → reached records qname (canonical (rec_name r)) →
    wanted qtype (rec_data r) → (block = true → private_record r = false) →
    dedup_key r ∈ dedup_key <$> kept;
}.

(** Records with the same key are both private or both public. *)
Lemma private_key r r' : dedup_key r = dedup_key r' → private_record r = private_record r'.
Proof. unfold private_record. by intros [= _ -> _]. Qed.

Lemma answer_outcome_spec answers qname qtype block :
  let o := answer_outcome answers qname qtype block in
  defended (lookup_to_dns_records answers) qname qtype block (out_records o) ∧ nxdomain o = false.
Proof.
  intros o. subst o. unfold answer_outcome. set (records := lookup_to_dns_records answers).
  destruct (sanity_kept records qname qtype) as (Hs & Hf & Hn).
  pose proof (sanity_complete records qname qtype) as Hc.
  destruct (filter_answer_sanity records qname qtype) as [kept d]. cbn [fst] in *.
  rewrite list.Forall_forall in Hf. destruct block; cbn [out_records nxdomain]; (split; [|done]).
  - unfold filter_private_rdata, retain. cbn [out_records nxdomain].
    set (keep := λ r, negb (private_record r)).
    pose proof (list_filter_sublist keep kept) as Hsub. constructor.
    + by etrans.
    + apply list.Forall_forall. intros r Hr. apply list_elem_of_In, filter_In in Hr as [Hr Hp].
      apply list_elem_of_In, Hf in Hr as [? ?]. split; [done|]. split; [done|]. intros _.
      by apply negb_true_iff.
    + eapply sublist_NoDup; [exact Hn|by apply fmap_sublist].
    + intros r Hr Hre Hw Hp. apply (Hc r Hr Hre) in Hw as (r' & Hk & Hr')%list_elem_of_fmap.
      rewrite Hk. apply list_elem_of_fmap_2. apply list_elem_of_In, filter_In.
      split; [by apply list_elem_of_In|]. unfold keep. by rewrite <- (private_key _ _ Hk), Hp.
  - constructor; [done| |done|by eauto]. apply list.Forall_forall. intros r Hr. naive_solver.
Qed.
End outcome.

(** ** Witness: a hostile answer

    The queried alias, its target's address twice, and three planted records. *)

Definition demo_rec (name : str) (d : RecordData) : DnsRecord :=
  {| rec_name := name; rec_data := d; rec_ttl := 60; rec_mesh_node_id := None |}.

Definition demo_records : list DnsRecord :=
  [demo_rec "cdn.example."%rs (A 134744072); demo_rec "www.example."%rs (Cname "CDN.example"%rs);
   demo_rec "cdn.example."%rs (A 134744072); demo_rec "www.example."%rs (Txt [[1]]);
   demo_rec "bank.test."%rs (A 1); demo_rec "bank.test."%rs (Cname "cdn.example."%rs)].

(** Two names that are aliases of each other. *)
Lemma containment_terminates_witness :
  let cycle := [demo_rec "a."%rs (Cname "b."%rs); demo_rec "b."%rs (Cname "a."%rs)] in
  ∃ final, grow_loop 3 cycle {[canonical "a."%rs]} = Some final
    ∧ grow_pass cycle final = (final, false).
Proof.
  intros cycle. destruct (containment_terminates cycle "a."%rs) as (final & Hf & Hp).
  exists final. split; [apply Hf; cbn; lia|exact Hp].
Defined.

Example demo_records_kept :
  @filter_answer_sanity demo_hickory demo_records "WWW.example"%rs 1
  = ([demo_rec "cdn.example."%rs (A 134744072); demo_rec "www.example."%rs (Cname "CDN.example"%rs)], 4).
Proof. vm_compute. reflexivity. Qed.

Lemma filter_answer_sanity_spec_witness :
  let kept := (@filter_answer_sanity demo_hickory demo_records "WWW.example"%rs 1).1 in
  kept `sublist_of` demo_records
  ∧ Forall (λ r, reached demo_records "WWW.example"%rs (canonical (rec_name r))
              ∧ @wanted demo_hickory 1 (rec_data r)) kept
  ∧ NoDup (dedup_key <$> kept)
  ∧ (∀ r, r ∈ demo_records → reached demo_records "WWW.example"%rs (canonical (rec_name r)) →
       @wanted demo_hickory 1 (rec_data r) → dedup_key r ∈ dedup_key <$> kept)
  ∧ (@filter_answer_sanity demo_hickory demo_records "WWW.example"%rs 1).2
    = u32_count (length demo_records - length kept).
Proof. apply (@filter_answer_sanity_spec demo_hickory). Defined.
