(* ===== verification/Odoh.v ===== *)
(** * Odoh: the oblivious transport
    ([rustydns-resolver/src/odoh.rs])

    The state of the arm is the history of its network actions, the redirects that its client
    follows included, and the cached target configurations ([ArcSwapOption] cells, by
    target).  What the network, the random source and the OS generator answer is any function
    of that history, so a statement about all of them is one about every environment.  HPKE, the URL and DNS codecs and
    the DNSSEC validator are parameters (class [OdohLib]); the texts of errors are left out,
    but for those of building the arm. *)

From S2P Require Import Prelude RustStr Config Record Hickory Answers.

Inductive OdohError :=
| Build (msg : str) | Http | ConfigStatus (code : Z) | RelayStatus (code : Z) | NoConfig | ConfigParse
| QueryBuild | Encrypt | Compose | ResponseParse | Decrypt | DnsParse
| TargetRcode (rc : ResponseCode) | Validation | Bogus.

#[export] Instance OdohError_eq_dec : EqDecision OdohError.
Proof. solve_decision. Defined.

Definition kind_label (e : OdohError) : str :=
  match e with
  | Build _ => "build"%rs
  | Http => "http"%rs
  | ConfigStatus _ => "config_status"%rs
  | RelayStatus _ => "relay_status"%rs
  | NoConfig => "no_config"%rs
  | ConfigParse => "config_parse"%rs
  | QueryBuild => "query_build"%rs
  | Encrypt => "encrypt"%rs
  | Compose => "compose"%rs
  | ResponseParse => "response_parse"%rs
  | Decrypt => "decrypt"%rs
  | DnsParse => "dns_parse"%rs
  | TargetRcode _ => "target_rcode"%rs
  | Validation => "validation"%rs
  | Bogus => "bogus"%rs
  end.

(** The text of an error of [odoh_new], which is always a [Build]. *)
Definition odoh_error_text (e : OdohError) : str :=
  match e with
  | Build msg => "ODoH arm construction failed: "%rs ++ msg
  | e => kind_label e
  end.

Definition ODOH_CONFIGS_PATH : str := "/.well-known/odohconfigs"%rs.
Definition MAX_CONFIG_BYTES : Z := 64 * 1024.
Definition MAX_RESPONSE_BYTES : Z := 128 * 1024.

Abbreviation bytes := (list Z).

(** The network actions of the arm: a request, or a hop of one, to the location it was
    redirected to, with its body or without. *)
Inductive action :=
| Fetch (configs_url : str)
| Post (proxy_url target_host target_path : str) (body : bytes)
| Follow (location : str) (body : option bytes).

(** The draws the arm takes from the random source. *)
Inductive draw := PickTarget | PickProxy | QueryId.

(** A redirect that [reqwest] followed: where to, and whether it sent the body again, which
    depends on the status. *)
Record redirect := { location : str; resent : bool }.

(** What a request comes to, after the redirects on its way: a transport error, or a status,
    an announced length and the chunks of the body, each of which may fail. *)
Inductive reply :=
| ReplyErr (redirects : list redirect)
| Reply (redirects : list redirect) (status : Z) (content_length : option Z)
    (chunks : list (option bytes)).

Definition redirects (r : reply) : list redirect :=
  match r with ReplyErr hops | Reply hops _ _ _ => hops end.

Definition request_body (a : action) : option bytes :=
  match a with Fetch _ => None | Post _ _ _ body => Some body | Follow _ body => body end.

(** The hops of a request. *)
Definition hops (a : action) (r : reply) : list action :=
  (λ hop, Follow (location hop) (if resent hop then request_body a else None)) <$> redirects r.

Inductive DnssecSummary := Secure | Insecure | BogusSummary.

Record OdohTarget := {
  query_url : str;
  target_host : str;
  target_path : str;
  configs_url : str;
}.

#[export] Instance OdohTarget_inhabited : Inhabited OdohTarget :=
  populate {| query_url := []; target_host := []; target_path := []; configs_url := [] |}.

(** What the code asks of the HTTPS client: nothing but HTTPS, the floor of TLS, so many
    redirects, and the timeout, in milliseconds. *)
Record HttpClient := {
  https_only : bool;
  min_tls_version : TlsVersion;
  redirect_limit : nat;
  timeout_ms : Z;
}.

Record OdohTransport := {
  targets : list OdohTarget;
  proxy_urls : list str;
  http : HttpClient;
  randomize : bool;
  pad_queries : bool;
}.

Record OdohArm := { transport : OdohTransport; trust_anchor : bool }.

(** ** Bodies and padding *)

Definition is_success (status : Z) : bool := (200 <=? status) && (status <? 300).

(** [(body.len() as u64).saturating_add(chunk.len() as u64)]. *)
Definition body_len (body chunk : bytes) : Z :=
  Z.min (Z.of_nat (length body) + Z.of_nat (length chunk)) (2 ^ 64 - 1).

Fixpoint read_chunks (cap : Z) (body : bytes) (chunks : list (option bytes)) :
    result OdohError bytes :=
  match chunks with
  | [] => Ok body
  | None :: _ => Err Http
  | Some chunk :: chunks =>
      if cap <? body_len body chunk then Err Http else read_chunks cap (body ++ chunk) chunks
  end.

Definition read_capped (content_length : option Z) (chunks : list (option bytes)) (cap : Z) :
    result OdohError bytes :=
  match content_length with
  | Some len => if cap <? len then Err Http else read_chunks cap [] chunks
  | None => read_chunks cap [] chunks
  end.

Definition fetched (r : reply) : result OdohError bytes :=
  match r with
  | ReplyErr _ => Err Http
  | Reply _ status len chunks =>
      if is_success status then read_capped len chunks MAX_CONFIG_BYTES
      else Err (ConfigStatus status)
  end.

Definition posted (r : reply) : result OdohError bytes :=
  match r with
  | ReplyErr _ => Err Http
  | Reply _ status len chunks =>
      if is_success status then read_capped len chunks MAX_RESPONSE_BYTES
      else Err (RelayStatus status)
  end.

Definition query_padding (msg_len : Z) (pad : bool) : Z :=
  if pad then (128 - msg_len mod 128) mod 128 else 0.

(** ** The libraries *)

(** A parsed URL and what the code reads of it. *)
Record Url := {
  url_scheme : str;
  url_host_str : option str;
  url_port : option Z;
  url_path : str;
  (** The URL printed with another path and no query. *)
  url_with_path : str → str;
}.

Class OdohLib `{Hickory} := {
  parse_url : str → result str Url;
  (** Whether reqwest can build such a client, or why not. *)
  reqwest_build : HttpClient → result str unit;
  OConfig : Type;
  OSecret : Type;
  OMessage : Type;
  parse_configs : bytes → option (list OConfig);
  (** The query, its padding, the key; the history stands for the generator's state. *)
  encrypt_query : list action → bytes → Z → OConfig → option (OMessage * OSecret);
  compose : OMessage → option bytes;
  parse_message : bytes → option OMessage;
  decrypt_response : bytes → Z → OMessage → OSecret → option bytes;
  encode_query : Z → HName → RecordType → option bytes;
  decode_message : bytes → option (list RR * ResponseCode);
  dnssec_summary : list RR → DnssecSummary;
}.

Definition target_parse `{OdohLib} (url : str) : result OdohError OdohTarget :=
  parsed ← map_err (λ e, Build ("invalid ODoH target URL `"%rs ++ url ++ "`: "%rs ++ e)) (parse_url url);
  _ ← reject_if (negb (str_eqb (url_scheme parsed) "https"%rs))
        (Build ("ODoH target `"%rs ++ url ++ "` must be https://"%rs));
  host ← ok_or (Build ("ODoH target `"%rs ++ url ++ "` has no host"%rs)) (url_host_str parsed);
  Ok {| query_url := url;
        target_host := match url_port parsed with
                       | Some p => host ++ ":"%rs ++ show_dec p
                       | None => host
                       end;
        target_path := if is_empty_str (url_path parsed) then "/"%rs else url_path parsed;
        configs_url := url_with_path parsed ODOH_CONFIGS_PATH |}.

Definition build_http_client `{OdohLib} (min_tls : TlsVersion) (timeout : Z) : result OdohError HttpClient :=
  let client := {| https_only := true; min_tls_version := min_tls; redirect_limit := 3;
                   timeout_ms := timeout |} in
  _ ← map_err (λ e, Build ("failed to build ODoH HTTPS client: "%rs ++ e)) (reqwest_build client);
  Ok client.

Definition odoh_new `{OdohLib} (config : DnsConfig) : result OdohError OdohArm :=
  _ ← reject_if (bool_decide (upstream_odoh_proxies (cfg_upstream config) = []))
        (Build "upstream.odoh_proxies must list at least one oblivious relay for ODoH"%rs);
  ts ← try_map target_parse (upstream_resolvers (cfg_upstream config));
  _ ← reject_if (bool_decide (ts = [])) (Build "no ODoH targets configured"%rs);
  client ← build_http_client (upstream_min_tls_version (cfg_upstream config))
             (upstream_timeout_ms (cfg_upstream config));
  Ok {| transport := {| targets := ts;
                        proxy_urls := upstream_odoh_proxies (cfg_upstream config);
                        http := client;
                        randomize := privacy_randomize_upstream_selection (cfg_privacy config);
                        pad_queries := privacy_upstream_padding (cfg_privacy config) |};
        trust_anchor := upstream_dnssec_validation (cfg_upstream config) |}.

(** ** One oblivious exchange *)

Record OdohState `{OdohLib} := {
  history : list action;
  cells : gmap nat OConfig;
}.

(** How an attempt of the retry loop ends: with an answer, with [continue], or with the
    error it fails closed on. *)
Inductive attempt :=
| Done (plain : bytes)
| Retry (e : OdohError)
| Stop (e : OdohError).

Section exchange.
Context `{OdohLib} `{Unicode}.
(** The network's replies and the random source, as functions of the history. *)
Context (net : list action → action → reply) (rand : list action → draw → Z).

Definition perform (a : action) (st : OdohState) : reply * OdohState :=
  let r := net (history st) a in
  (r, {| history := history st ++ a :: hops a r; cells := cells st |}).

Definition store_config (i : nat) (c : option OConfig) (st : OdohState) : OdohState :=
  {| history := history st;
     cells := match c with Some c => <[i := c]> (cells st) | None => delete i (cells st) end |}.

(** The index of a random pick among [n], or the first; never out of range. *)
Definition select (t : OdohTransport) (d : draw) (n : nat) (st : OdohState) : nat :=
  if randomize t && (1 <? n)%nat
  then Z.to_nat (rand (history st) d mod Z.of_nat n) else 0%nat.
Definition select_target (t : OdohTransport) (st : OdohState) : nat :=
  select t PickTarget (length (targets t)) st.
Definition select_proxy (t : OdohTransport) (st : OdohState) : str :=
  proxy_urls t !!! select t PickProxy (length (proxy_urls t)) st.

Definition config_for (i : nat) (target : OdohTarget) (st : OdohState) :
    result OdohError OConfig * OdohState :=
  match cells st !! i with
  | Some c => (Ok c, st)
  | None =>
      let '(r, st) := perform (Fetch (configs_url target)) st in
      let contents :=
        b ← fetched r;
        configs ← ok_or ConfigParse (parse_configs b);
        ok_or NoConfig (head configs) in
      (contents, match contents with Ok c => store_config i (Some c) st | Err _ => st end)
  end.

(** What a reply to the oblivious query means: the plaintext, or an error and whether it
    signals a stale key. *)
Definition read_response (query : bytes) (padding : Z) (secret : OSecret) (r : reply) :
    attempt :=
  match posted r with
  | Ok resp_bytes =>
      match parse_message resp_bytes with
      | Some resp_msg =>
          match decrypt_response query padding resp_msg secret with
          | Some plain => Done plain
          | None => Retry Decrypt
          end
      | None => Stop ResponseParse
      end
  | Err (RelayStatus code) =>
      if code =? 400 then Retry (RelayStatus code) else Stop (RelayStatus code)
  | Err e => Stop e
  end.

Definition encrypted (t : OdohTransport) (query : bytes) (config : OConfig) (st : OdohState) :
    result OdohError (bytes * OSecret) :=
  let padding := query_padding (Z.of_nat (length query)) (pad_queries t) in
  '(omsg, secret) ← ok_or Encrypt (encrypt_query (history st) query padding config);
  body ← ok_or Compose (compose omsg);
  Ok (body, secret).

Definition exchange_attempt (t : OdohTransport) (proxy : str) (i : nat) (query : bytes)
    (may_retry : bool) (st : OdohState) : attempt * OdohState :=
  let target := targets t !!! i in
  let '(config, st) := config_for i target st in
  match (c ← config; encrypted t query c st) with
  | Err e => (Stop e, st)
  | Ok (body, secret) =>
      let '(r, st) := perform (Post proxy (target_host target) (target_path target) body) st in
      let padding := query_padding (Z.of_nat (length query)) (pad_queries t) in
      match read_response query padding secret r with
      | Retry e =>
          if may_retry then (Retry e, store_config i None st) else (Stop e, st)
      | other => (other, st)
      end
  end.

Fixpoint exchange_loop (t : OdohTransport) (proxy : str) (i : nat) (query : bytes)
    (attempts : list nat) (last_err : option OdohError) (st : OdohState) :
    result OdohError bytes * OdohState :=
  match attempts with
  | [] => (Err (default Decrypt last_err), st)
  | n :: attempts =>
      match exchange_attempt t proxy i query (n =? 0)%nat st with
      | (Done plain, st) => (Ok plain, st)
      | (Retry e, st) => exchange_loop t proxy i query attempts (Some e) st
      | (Stop e, st) => (Err e, st)
      end
  end.

Definition exchange (t : OdohTransport) (i : nat) (query : bytes) (st : OdohState) :
    result OdohError bytes * OdohState :=
  exchange_loop t (select_proxy t st) i query (seq 0 2) None st.

(** ** Resolution *)

Definition outcome_from_parts (answers : list RR) (response_code : ResponseCode) (qname : str)
    (qtype : RecordType) (block_private_rdata : bool) : result OdohError ResolveOutcome :=
  match response_code with
  | NoError => Ok (answer_outcome answers qname qtype block_private_rdata)
  | NXDomain => Ok {| out_records := []; private_rdata_dropped := 0; nxdomain := true |}
  | other => Err (TargetRcode other)
  end.

Definition build_query_wire (name : str) (qtype : RecordType) (st : OdohState) :
    result OdohError bytes :=
  qname ← ok_or QueryBuild (name_from_str name);
  ok_or QueryBuild (encode_query (rand (history st) QueryId) qname qtype).

Definition resolve_plain (t : OdohTransport) (name : str) (qtype : RecordType)
    (block_private_rdata : bool) (st : OdohState) : result OdohError ResolveOutcome * OdohState :=
  let i := select_target t st in
  match build_query_wire name qtype st with
  | Err e => (Err e, st)
  | Ok query_wire =>
      let '(r, st) := exchange t i query_wire st in
      ((response_wire ← r;
        '(answers, rcode) ← ok_or DnsParse (decode_message response_wire);
        outcome_from_parts answers rcode name qtype block_private_rdata), st)
  end.

(** The handle the validator sends its queries through. *)
Definition handle_send (t : OdohTransport) (request : bytes) (st : OdohState) :
    result OdohError bytes * OdohState :=
  exchange t (select_target t st) request st.

(** [DnssecDnsHandle::lookup]: it sends what it wants through the handle it is given. *)
Context (validate : (bytes → OdohState → result OdohError bytes * OdohState) →
  HName → RecordType → OdohState → option (list RR * ResponseCode) * OdohState).

Definition resolve_validated (t : OdohTransport) (name : str) (qtype : RecordType)
    (block_private_rdata : bool) (st : OdohState) : result OdohError ResolveOutcome * OdohState :=
  match name_from_str name with
  | None => (Err QueryBuild, st)
  | Some qname =>
      let '(r, st) := validate (handle_send t) qname qtype st in
      ((response ← ok_or Validation r;
        match dnssec_summary response.1 with
        | BogusSummary => Err Bogus
        | _ => outcome_from_parts response.1 response.2 name qtype block_private_rdata
        end), st)
  end.

Definition odoh_resolve (a : OdohArm) (name : str) (qtype : RecordType)
    (block_private_rdata : bool) (st : OdohState) : result OdohError ResolveOutcome * OdohState :=
  if trust_anchor a then resolve_validated (transport a) name qtype block_private_rdata st
  else resolve_plain (transport a) name qtype block_private_rdata st.
End exchange.

(** ** What the arm does on the network *)

Section privacy.
Context `{OdohLib} `{Unicode}.
Context (net : list action → action → reply) (rand : list action → draw → Z).

(** An oblivious message: the encryption of some query; with padding on, of a whole
    number of 128-byte blocks. *)
Definition sealed (t : OdohTransport) (query body : bytes) : Prop :=
  ∃ hist padding config omsg secret,
    encrypt_query hist query padding config = Some (omsg, secret) ∧ compose omsg = Some body
    ∧ 0 <= padding < 128
    ∧ (if pad_queries t then (Z.of_nat (length query) + padding) mod 128 = 0 else padding = 0).

Lemma query_padding_spec n pad :
  0 <= query_padding n pad < 128
  ∧ (if pad then (n + query_padding n pad) mod 128 = 0 else query_padding n pad = 0).
Proof.
  unfold query_padding. destruct pad; [|lia]. split; [by apply Z.mod_pos_bound|].
  rewrite Zplus_mod_idemp_r. replace (n + (128 - n mod 128)) with (128 + 128 * (n / 128))
    by (pose proof (Z.div_mod n 128 ltac:(lia)); lia).
  by rewrite Z.add_mod, Z.mod_same, Z.mul_comm, Z.mod_mul by lia.
Qed.

(** What may be requested: a target's configuration, or, of a relay, the delivery of a sealed
    query. *)
Definition oblivious (t : OdohTransport) (a : action) : Prop :=
  match a with
  | Fetch url => ∃ target, target ∈ targets t ∧ url = configs_url target
  | Post proxy host path body =>
      proxy ∈ proxy_urls t ∧ (∃ query, sealed t query body)
      ∧ ∃ target, target ∈ targets t ∧ host = target_host target ∧ path = target_path target
  | Follow _ _ => False
  end.

(** What is sent after the history [h]: such requests, each with the hops that the endpoints
    on its way redirect it to, which are as [ok] says. *)
Inductive sends (ok : list redirect → Prop) (t : OdohTransport) : list action → list action → Prop :=
| sends_nothing h : sends ok t h []
| sends_request h a rest :
    oblivious t a → ok (redirects (net h a)) →
    sends ok t (h ++ a :: hops a (net h a)) rest →
    sends ok t h (a :: hops a (net h a) ++ rest).

Lemma sends_app ok t h l l' : sends ok t h l → sends ok t (h ++ l) l' → sends ok t h (l ++ l').
Proof.
  induction 1 as [h|h a rest Ha Hok Hs IH]; [by rewrite app_nil_r|].
  intros Hl. rewrite <- app_comm_cons, <- app_assoc. constructor; [done..|]. apply IH.
  by rewrite <- app_assoc, <- app_comm_cons.
Qed.

Lemma sends_one (ok : list redirect → Prop) t h a :
  oblivious t a → ok (redirects (net h a)) → sends ok t h (a :: hops a (net h a)).
Proof.
  intros Ha Hok. rewrite <- (app_nil_r (hops a (net h a))). constructor; [done..|constructor].
Qed.

(** The documented behaviour of [reqwest]: it follows so many redirects at most
    ([Policy::limited]), and nothing but HTTPS if it was told so ([https_only]). *)
Definition over_https (hop : redirect) : Prop := starts_with "https://"%rs (location hop) = true.

Definition client_obeys (c : HttpClient) : Prop :=
  ∀ h a, (length (redirects (net h a)) <= redirect_limit c)%nat
    ∧ (https_only c = true → Forall over_https (redirects (net h a))).

Definition is_post (a : action) : bool := match a with Post _ _ _ _ => true | _ => false end.
Definition posts (l : list action) : nat := length (List.filter is_post l).

Lemma posts_app l l' : posts (l ++ l') = (posts l + posts l')%nat.
Proof. unfold posts. by rewrite List.filter_app, length_app. Qed.

Lemma posts_hops a r : posts (hops a r) = 0%nat.
Proof. unfold posts, hops. by induction (redirects r). Qed.

(** The reply to the last request of [l] decrypts to [plain]. *)
Definition answered (t : OdohTransport) (query plain : bytes) (l : list action) : Prop :=
  ∃ before a resp_bytes omsg config secret resp,
    l = before ++ a :: hops a (net before a) ∧ posted (net before a) = Ok resp_bytes
    ∧ encrypt_query before query (query_padding (Z.of_nat (length query)) (pad_queries t)) config
        = Some (omsg, secret)
    ∧ parse_message resp_bytes = Some resp
    ∧ decrypt_response query (query_padding (Z.of_nat (length query)) (pad_queries t)) resp secret
        = Some plain.

Lemma select_lt t d n st : (0 < n)%nat → (select rand t d n st < n)%nat.
Proof.
  intros Hn. unfold select. case_match; [|done].
  pose proof (Z.mod_pos_bound (rand (history st) d) (Z.of_nat n)). lia.
Qed.

Lemma lookup_total_elem {A} `{Inhabited A} (l : list A) i : (i < length l)%nat → l !!! i ∈ l.
Proof.
  intros [x Hx]%lookup_lt_is_Some. rewrite (list_lookup_total_correct _ _ _ Hx).
  by eapply list_elem_of_lookup_2.
Qed.

Section course.
Context (ok : list redirect → Prop) (ok_net : ∀ h a, ok (redirects (net h a))).

(** The course of a computation: what it adds to the history, with at most [n] posts. *)
Definition course (t : OdohTransport) (n : nat) (st st' : OdohState) : Prop :=
  ∃ new, history st' = history st ++ new ∧ (posts new <= n)%nat ∧ sends ok t (history st) new.

Lemma course_same t n st st' : history st' = history st → course t n st st'.
Proof. intros E. exists []. rewrite app_nil_r. split; [done|]. split; [apply Nat.le_0_l|constructor]. Qed.

Lemma course_refl t n st : course t n st st.
Proof. by apply course_same. Qed.

Lemma course_trans t n m st st' st'' :
  course t n st st' → course t m st' st'' → course t (n + m) st st''.
Proof.
  intros (new & Hh & Hp & Ho) (new' & Hh' & Hp' & Ho'). exists (new ++ new').
  rewrite Hh', Hh, app_assoc, posts_app. split; [done|]. split; [lia|].
  apply sends_app; [done|by rewrite <- Hh].
Qed.

Lemma course_weaken t n m st st' : (n <= m)%nat → course t n st st' → course t m st st'.
Proof. intros Hnm (new & ? & ? & ?). exists new. split; [done|]. split; [lia|done]. Qed.

Lemma course_perform t a st :
  oblivious t a → course t (if is_post a then 1 else 0) st (perform net a st).2.
Proof.
  intros Ha. exists (a :: hops a (net (history st) a)). split; [done|].
  split; [|by apply sends_one].
  change (a :: hops a ?r) with ([a] ++ hops a r). rewrite posts_app, posts_hops.
  unfold posts. cbn [List.filter]. by destruct (is_post a).
Qed.

Lemma config_for_course t i st :
  targets t !!! i ∈ targets t → course t 0 st (config_for net i (targets t !!! i) st).2.
Proof.
  intros Hi. unfold config_for. destruct (cells st !! i); [apply course_refl|].
  pose proof (course_perform t (Fetch (configs_url (targets t !!! i))) st) as Hc.
  cbn [is_post] in Hc. destruct (perform net _ st) as [r st1]. cbn [snd] in *.
  destruct (b ← fetched r; _) as [c|e]; apply (course_trans t 0 0 st st1);
    try (apply Hc; by exists (targets t !!! i)); [by apply course_same|apply course_refl].
Qed.

Lemma exchange_attempt_spec t proxy i query may_retry st out st' :
  proxy ∈ proxy_urls t → targets t !!! i ∈ targets t →
  exchange_attempt net t proxy i query may_retry st = (out, st') →
  course t 1 st st' ∧ ∀ plain, out = Done plain → answered t query plain (history st').
Proof.
  intros Hproxy Hi. unfold exchange_attempt.
  pose proof (config_for_course t i st Hi) as Hc1.
  destruct (config_for net i _ st) as [config st1]. cbn [snd] in Hc1. destruct config as [config|e]; cbn [mbind result_bind];
    [|intros [= <- <-]; split; [by eapply course_weaken; [|done]; lia|done]].
  destruct (encrypted t query config st1) as [[body secret]|e] eqn:Een;
    [|intros [= <- <-]; split; [by eapply course_weaken; [|done]; lia|done]].
  unfold encrypted in Een. apply bind_ok in Een as ([omsg secret'] & Henc & Een).
  apply bind_ok in Een as (body' & Hbody & [= -> ->]). apply ok_or_ok in Henc, Hbody.
  set (padding := query_padding (Z.of_nat (length query)) (pad_queries t)) in *.
  set (post := Post proxy (target_host (targets t !!! i)) (target_path (targets t !!! i)) body).
  assert (course t 1 st1 (perform net post st1).2) as Hc2.
  { apply (course_perform t post). split; [done|]. split; [|eauto].
    exists query, (history st1), padding, config, omsg, secret. split; [done|]. split; [done|].
    apply query_padding_spec. }
  cbn [perform] in *. set (st2 := {| history := _; cells := _ |}) in *. intros Hout.
  assert (history st' = history st2 ∧ (∀ plain, out = Done plain →
    read_response query padding secret (net (history st1) post) = Done plain)) as [Hst' Hdone].
  { clearbody st2. destruct (read_response _ _ _ _); [|destruct may_retry|]; by invc Hout. }
  clear Hout. split.
  - eapply (course_trans t 0 1); [done|]. eapply (course_trans t 1 0); [done|]. by apply course_same.
  - intros plain Hp%Hdone. unfold read_response in Hp. unfold answered.
    destruct (posted _) as [resp_bytes|e] eqn:Hpost; [|by repeat case_match].
    destruct (parse_message resp_bytes) as [resp|] eqn:Hpm; [|done].
    destruct (decrypt_response _ _ resp secret) as [p|] eqn:Hd; [|done]. injection Hp as ->.
    by exists (history st1), post, resp_bytes, omsg, config, secret, resp.
Qed.

Lemma exchange_loop_spec t proxy i query attempts last_err st r st' :
  proxy ∈ proxy_urls t → targets t !!! i ∈ targets t →
  exchange_loop net t proxy i query attempts last_err st = (r, st') →
  course t (length attempts) st st' ∧ ∀ plain, r = Ok plain → answered t query plain (history st').
Proof.
  intros Hproxy Hi. revert last_err st. induction attempts as [|n ns IH]; intros last_err st;
    cbn [exchange_loop length].
  { intros [= <- <-]. split; [apply course_refl|done]. }
  destruct (exchange_attempt _ _ _ _ _ _ _) as [out st1] eqn:E.
  apply exchange_attempt_spec in E as [Hc Ha]; [|done..].
  destruct out as [plain|e|e].
  - intros [= <- <-]. split; [by eapply course_weaken; [|done]; lia|].
    intros p [= <-]. by apply Ha.
  - intros [Hc' Ha']%IH. split; [by apply (course_trans t 1 (length ns) st st1)|done].
  - intros [= <- <-]. split; [by eapply course_weaken; [|done]; lia|done].
Qed.

(** An arm that was built has a target and a relay. *)
Definition usable (t : OdohTransport) : Prop := targets t ≠ [] ∧ proxy_urls t ≠ [].

Lemma exchange_spec t st st0 query r st' :
  usable t → exchange net rand t (select_target rand t st0) query st = (r, st') →
  course t 2 st st' ∧ ∀ plain, r = Ok plain → answered t query plain (history st').
Proof.
  intros [Ht Hp] He. eapply exchange_loop_spec in He; [done|..].
  - apply lookup_total_elem, select_lt. by destruct (proxy_urls t); [|simpl; lia].
  - apply lookup_total_elem, select_lt. by destruct (targets t); [|simpl; lia].
Qed.
End course.

Lemma odoh_new_usable config a : odoh_new config = Ok a → usable (transport a).
Proof. intros Ha. unfold odoh_new in Ha. run_ok. bools. by split. Qed.

(** The client of an arm that was built, and the configuration it is of. *)
Lemma odoh_new_client config a :
  odoh_new config = Ok a →
  https_only (http (transport a)) = true
  ∧ min_tls_version (http (transport a)) = upstream_min_tls_version (cfg_upstream config)
  ∧ trust_anchor a = upstream_dnssec_validation (cfg_upstream config)
  ∧ proxy_urls (transport a) = upstream_odoh_proxies (cfg_upstream config)
  ∧ redirect_limit (http (transport a)) = 3%nat.
Proof. intros Ha. unfold odoh_new, build_http_client in Ha. run_ok. done. Qed.

(** The documented behaviour of the validator: it reaches the network only through the
    handle it is given. *)
Definition only_sends
    (validate : (bytes → OdohState → result OdohError bytes * OdohState) →
       HName → RecordType → OdohState → option (list RR * ResponseCode) * OdohState) : Prop :=
  ∀ send qname qtype (P : OdohState → Prop),
    (∀ wire s, P s → P (send wire s).2) → ∀ s, P s → P (validate send qname qtype s).2.

(** The DNS message that a resolution has at its end: what the reply decrypts to, or what the
    validator returns. *)
Definition received (a : OdohArm)
    (validate : (bytes → OdohState → result OdohError bytes * OdohState) →
       HName → RecordType → OdohState → option (list RR * ResponseCode) * OdohState)
    (name : str) (qtype : RecordType) (st : OdohState)
    (answers : list RR) (rcode : ResponseCode) : Prop :=
  if trust_anchor a
  then ∃ qname, name_from_str name = Some qname
    ∧ (validate (handle_send net rand (transport a)) qname qtype st).1 = Some (answers, rcode)
  else ∃ query plain, build_query_wire rand name qtype st = Ok query
    ∧ (exchange net rand (transport a) (select_target rand (transport a) st) query st).1 = Ok plain
    ∧ decode_message plain = Some (answers, rcode).

(** The outcome that is made of it. *)
Definition outcome_of (answers : list RR) (rcode : ResponseCode) (name : str) (qtype : RecordType)
    (block : bool) (o : ResolveOutcome) : Prop :=
  rcode = NoError ∧ o = answer_outcome answers name qtype block
  ∨ rcode = NXDomain ∧ out_records o = [] ∧ nxdomain o = true.

Lemma outcome_from_parts_ok answers rcode name qtype block o :
  outcome_from_parts answers rcode name qtype block = Ok o → outcome_of answers rcode name qtype block o.
Proof. unfold outcome_from_parts. destruct rcode; intros Ho; run_ok; [by left|by right]. Qed.

Lemma odoh_resolve_ok a validate name qtype block st o :
  (odoh_resolve net rand validate a name qtype block st).1 = Ok o →
  ∃ answers rcode, received a validate name qtype st answers rcode
    ∧ outcome_of answers rcode name qtype block o.
Proof.
  unfold odoh_resolve, resolve_validated, resolve_plain, received. destruct (trust_anchor a).
  - destruct (name_from_str name) as [qname|]; [|done].
    destruct (validate _ _ _ _) as [r st'] eqn:E.
    cbn [fst]. intros ([answers rcode] & ->%ok_or_ok & Ho)%bind_ok. exists answers, rcode.
    split; [exists qname; by rewrite E|].
    apply outcome_from_parts_ok. cbn in Ho. by destruct (dnssec_summary _).
  - destruct (build_query_wire _ _ _ _) as [query|]; [|done].
    destruct (exchange _ _ _ _ _ _) as [r st'] eqn:E.
    cbn [fst]. intros (plain & -> & Ho)%bind_ok. apply bind_ok in Ho as ([answers rcode] & Hd%ok_or_ok & Ho).
    exists answers, rcode. split; [exists query, plain; by rewrite E|]. by apply outcome_from_parts_ok.
Qed.

(** At most three redirects, all to HTTPS. *)
Definition few_hops (rs : list redirect) : Prop := (length rs <= 3)%nat ∧ Forall over_https rs.

Lemma odoh_resolve_course ok a validate name qtype block st :
  (∀ h act, ok (redirects (net h act))) → usable (transport a) → only_sends validate →
  ∃ n, course ok (transport a) n st (odoh_resolve net rand validate a name qtype block st).2.
Proof.
  intros Hok Hu Hv. unfold odoh_resolve. destruct (trust_anchor a).
  - unfold resolve_validated. destruct (name_from_str name); [|exists 0%nat; apply course_refl].
    destruct (validate _ _ _ _) as [r st'] eqn:Er. cbn [snd].
    replace st' with (r, st').2 by done. rewrite <- Er.
    apply (Hv _ _ _ (λ s, ∃ n, course ok (transport a) n st s)); [|exists 0%nat; apply course_refl].
    intros wire s [n Hn]. unfold handle_send. destruct (exchange _ _ _ _ _ s) as [o s'] eqn:Ee.
    apply (exchange_spec ok Hok) in Ee as [Hc _]; [|done]. exists (n + 2)%nat. by eapply course_trans.
  - unfold resolve_plain. destruct (build_query_wire _ _ _ _); [|exists 0%nat; apply course_refl].
    destruct (exchange _ _ _ _ _ st) as [o s'] eqn:Ee. apply (exchange_spec ok Hok) in Ee as [Hc _]; [|done].
    by exists 2%nat.
Qed.

(** C13. Oblivious resolution is oblivious: whatever the relays and targets answer, and with
    DNSSEC validation as without, the only requests the arm of a configuration makes
    while it resolves are for a target's published configuration, and, to a configured
    relay, the delivery of an encryption of a DNS query, of a whole number of 128-byte blocks
    when padding is on.  Each goes on to at most three other endpoints, over HTTPS, which are
    those that the ones before redirect it to; these get nothing but the same encryption.
    The client is set to HTTPS only and to the configured floor of TLS.  No failure makes the
    arm use another path. *)
Theorem odoh_resolve_oblivious (config : DnsConfig) (a : OdohArm) validate
    (name : str) (qtype : RecordType) (block : bool) (st : OdohState) :
  odoh_new config = Ok a → only_sends validate → client_obeys (http (transport a)) →
  ∃ new, history (odoh_resolve net rand validate a name qtype block st).2 = history st ++ new
    ∧ sends few_hops (transport a) (history st) new
    ∧ https_only (http (transport a)) = true
    ∧ min_tls_version (http (transport a)) = upstream_min_tls_version (cfg_upstream config).
Proof.
  intros Ha Hv Hc. destruct (odoh_new_client _ _ Ha) as (Hs & Ht & _ & _ & Hl).
  destruct (odoh_resolve_course few_hops a validate name qtype block st) as (n & new & Hh & _ & Hn);
    [|by eapply odoh_new_usable|done|by exists new].
  intros h act. destruct (Hc h act) as [Hle Hhttps]. rewrite Hl in Hle. split; [done|by apply Hhttps].
Qed.

(** Any redirects at all. *)
Definition any_hops (rs : list redirect) : Prop := True.

(** C14. Without validation, an outcome is only ever made from a reply: resolution succeeds
    only when, after at most two posts (and whatever redirects), the last reply decrypts to a
    DNS message with code [NoError] or [NXDomain], and the outcome is that message's answer. *)
Theorem odoh_plain_answered (config : DnsConfig) (a : OdohArm) validate
    (name : str) (qtype : RecordType) (block : bool) (st st' : OdohState) (o : ResolveOutcome) :
  odoh_new config = Ok a → trust_anchor a = false →
  odoh_resolve net rand validate a name qtype block st = (Ok o, st') →
  course any_hops (transport a) 2 st st'
  ∧ ∃ query plain answers rcode,
      build_query_wire rand name qtype st = Ok query
      ∧ answered (transport a) query plain (history st')
      ∧ decode_message plain = Some (answers, rcode)
      ∧ (rcode = NoError ∧ o = answer_outcome answers name qtype block
         ∨ rcode = NXDomain ∧ out_records o = [] ∧ nxdomain o = true).
Proof.
  intros Hu%odoh_new_usable Hta. unfold odoh_resolve, resolve_plain. rewrite Hta.
  destruct (build_query_wire _ _ _ _) as [query|]; [|done].
  destruct (exchange _ _ _ _ _ st) as [r s'] eqn:Ee. apply (exchange_spec any_hops) in Ee as [Hc Ha]; [|done..].
  intros [= Hr <-]. split; [done|]. apply bind_ok in Hr as (plain & -> & Hr).
  apply bind_ok in Hr as ([answers rcode] & Hd%ok_or_ok & Ho).
  exists query, plain, answers, rcode. split; [done|]. split; [by apply Ha|]. split; [done|].
  by apply outcome_from_parts_ok.
Qed.
End privacy.

(** ** Witnesses: a target whose key was rotated *)

Definition demo_url (url : str) : result str Url :=
  Ok {| url_scheme := "https"%rs; url_host_str := Some "odoh.example"%rs; url_port := None;
        url_path := "/dns-query"%rs; url_with_path := λ p, "https://odoh.example"%rs ++ p |}.

(** A toy cipher: a message is the key followed by the text. *)
Definition demo_odoh : @OdohLib demo_hickory :=
  {| parse_url := demo_url; reqwest_build := λ _, Ok (); OConfig := Z; OSecret := Z;
     OMessage := list Z; parse_configs := Some;
     encrypt_query := λ _ q p k, Some (k :: q ++ replicate (Z.to_nat p) 0, k);
     compose := Some; parse_message := Some;
     decrypt_response := λ _ _ m k, match m with k' :: t => if k =? k' then Some t else None | [] => None end;
     encode_query := λ id (n : @HName demo_hickory) _, Some (id :: n);
     decode_message := λ b,
       Some ([@Build_RR demo_hickory "www.example."%rs 60 (@RD_A demo_hickory 134744072)], NoError);
     dnssec_summary := λ _, Insecure |}.

(** The first query, sealed with the stale key, is refused. *)
Definition demo_net (h : list action) (a : action) : reply :=
  match a with
  | Fetch _ => Reply [] 200 None [Some [2]]
  | Post _ _ _ (1 :: _) => Reply [] 400 None []
  | _ => Reply [] 200 (Some 2) [Some [2]; Some [9]]
  end.

(** The relay sends the client on to the target itself. *)
Definition redirecting_net (h : list action) (a : action) : reply :=
  match a with
  | Fetch _ => Reply [] 200 None [Some [2]]
  | _ => Reply [{| location := "https://odoh.example/dns-query"%rs; resent := true |}]
           200 (Some 2) [Some [2]; Some [9]]
  end.

Definition demo_odoh_config (dnssec : bool) : DnsConfig :=
  {| cfg_server := ServerConfig_default;
     cfg_upstream :=
       {| upstream_resolvers := ["https://odoh.example/dns-query"%rs]; upstream_protocol := Config.Odoh;
          upstream_fail_closed := true; upstream_min_tls_version := Tls13;
          upstream_dnssec_validation := dnssec; upstream_timeout_ms := 5000;
          upstream_max_cache_entries := 100; upstream_block_private_rdata := true;
          upstream_routes := []; upstream_odoh_proxies := ["https://relay.example/proxy"%rs] |};
     cfg_authority := AuthorityConfig_default; cfg_blocklist := BlocklistConfig_default;
     cfg_privacy := PrivacyConfig_default; cfg_metrics := MetricsConfig_default;
     cfg_rate_limit := RateLimitConfig_default; cfg_policy := []; cfg_rewrite := [];
     cfg_safesearch := SafeSearchConfig_default |}.

(** A validator that sends one query. *)
Definition demo_validate
    (send : bytes → @OdohState demo_hickory demo_odoh →
       result OdohError bytes * @OdohState demo_hickory demo_odoh)
    (qname : str) (qtype : Z) (st : @OdohState demo_hickory demo_odoh) :
    option (list (@RR demo_hickory) * ResponseCode) * @OdohState demo_hickory demo_odoh :=
  let '(r, st) := send qname st in (result_ok r ≫= @decode_message demo_hickory demo_odoh, st).

(** The cached key is stale. *)
Definition demo_odoh_state : @OdohState demo_hickory demo_odoh :=
  @Build_OdohState demo_hickory demo_odoh [] {[ 0%nat := 1 ]}.

Definition demo_draws (h : list action) (d : draw) : Z := Z.of_nat (length h).

Definition demo_arm (dnssec : bool) : OdohArm :=
  {| transport :=
       {| targets := [{| query_url := "https://odoh.example/dns-query"%rs;
                         target_host := "odoh.example"%rs; target_path := "/dns-query"%rs;
                         configs_url := "https://odoh.example/.well-known/odohconfigs"%rs |}];
          proxy_urls := ["https://relay.example/proxy"%rs];
          http := {| https_only := true; min_tls_version := Tls13; redirect_limit := 3;
                     timeout_ms := 5000 |};
          randomize := true; pad_queries := true |};
     trust_anchor := dnssec |}.

Definition demo_run_on (net : list action → action → reply) (dnssec : bool) :=
  @odoh_resolve demo_hickory demo_odoh ascii_only net demo_draws demo_validate
    (demo_arm dnssec) "www.example."%rs 1 true demo_odoh_state.
Definition demo_run := demo_run_on demo_net.

(** The stale key is noticed, the configuration fetched, and the answer obtained. *)
Example demo_run_kinds : (is_post <$> history (demo_run false).2) = [true; false; true].
Proof. vm_compute. reflexivity. Qed.

(** A redirect takes the sealed query, and the address of its sender, to the target, which can
    open it. *)
Example redirect_reaches_target :
  ∃ body, list.last (history (demo_run_on redirecting_net false).2)
    = Some (Follow (query_url (targets (transport (demo_arm false)) !!! 0%nat)) (Some body)).
Proof. eexists. vm_compute. reflexivity. Qed.

Lemma odoh_resolve_oblivious_witness :
  ∃ new, history (demo_run_on redirecting_net true).2 = [] ++ new
    ∧ @sends demo_hickory demo_odoh redirecting_net few_hops (transport (demo_arm true)) [] new
    ∧ https_only (http (transport (demo_arm true))) = true
    ∧ min_tls_version (http (transport (demo_arm true))) = Tls13.
Proof.
  apply (@odoh_resolve_oblivious demo_hickory demo_odoh ascii_only redirecting_net demo_draws
    (demo_odoh_config true) (demo_arm true) demo_validate "www.example."%rs 1 true demo_odoh_state).
  - vm_compute. reflexivity.
  - intros send qname qtype P Hs s Hp. unfold demo_validate.
    pose proof (Hs qname s Hp) as Hq. destruct (send qname s). exact Hq.
  - intros h [url|proxy host path body|url body]; cbn; (split; [lia|intros _]); repeat constructor.
Defined.

Definition demo_outcome : ResolveOutcome :=
  {| out_records := [{| rec_name := "www.example."%rs; rec_data := A 134744072; rec_ttl := 60;
                        rec_mesh_node_id := None |}];
     private_rdata_dropped := 0; nxdomain := false |}.

Lemma odoh_plain_answered_witness :
  @course demo_hickory demo_odoh demo_net any_hops (transport (demo_arm false)) 2 demo_odoh_state (demo_run false).2
  ∧ ∃ query plain answers rcode,
      @build_query_wire demo_hickory demo_odoh demo_draws "www.example."%rs 1 demo_odoh_state
        = Ok query
      ∧ @answered demo_hickory demo_odoh demo_net (transport (demo_arm false)) query plain
          (history (demo_run false).2)
      ∧ @decode_message demo_hickory demo_odoh plain = Some (answers, rcode)
      ∧ (rcode = NoError
         ∧ demo_outcome = @answer_outcome demo_hickory ascii_only answers "www.example."%rs 1 true
         ∨ rcode = NXDomain ∧ out_records demo_outcome = [] ∧ nxdomain demo_outcome = true).
Proof.
  apply (@odoh_plain_answered demo_hickory demo_odoh ascii_only demo_net demo_draws
    (demo_odoh_config false) (demo_arm false) demo_validate "www.example."%rs 1 true
    demo_odoh_state (demo_run false).2 demo_outcome).
  - vm_compute. reflexivity.
  - reflexivity.
  - etrans; [apply (surjective_pairing (demo_run false))|].
    apply (f_equal (λ o, (o, (demo_run false).2))). vm_compute. reflexivity.
Defined.
