(* ===== verification/Rewrite.v ===== *)
(** * Rewrite: the local cloaking map
    ([rustydnsd/src/rewrite.rs]) *)

From S2P Require Import Prelude RustStr Net Config Record Hickory.

Inductive Action :=
| Address (ip : ip_addr)
| CnameTo (target : str)
| Block.

Inductive RewriteDecision :=
| Answer (records : list DnsRecord)
| NoData
| Nxdomain.

Record RewriteMap := {
  rw_exact : gmap str Action;
  rw_suffixes : list (str * Action);
}.

Definition lower_no_dot (s : str) : str :=
  to_ascii_lowercase (trim_end_matches "."%rc (trim s)).

Definition normalise_fqdn (s : str) : str :=
  let n := to_ascii_lowercase (trim s) in
  if ends_with "."%rs n then n else n ++ "."%rs.

(** The action of a rule; [None] skips it. *)
Definition rule_action (rule : RewriteRule) : option Action :=
  match rewrite_address rule with
  | Some addr =>
      match parse_ip addr with
      | Some (V6 v6) =>
          match to_ipv4_mapped v6 with
          | Some v4 => Some (Address (V4 v4))
          | None => Some (Address (V6 v6))
          end
      | Some ip => Some (Address ip)
      | None => None
      end
  | None =>
      match rewrite_target rule with
      | Some target => Some (CnameTo (normalise_fqdn target))
      | None => if rewrite_block rule then Some Block else None
      end
  end.

(** One turn of the loop of [from_rules]. *)
Definition add_rule (m : RewriteMap) (rule : RewriteRule) : RewriteMap :=
  match rule_action rule with
  | None => m
  | Some action =>
      let name := trim (rewrite_name rule) in
      let add_suffix rest :=
        {| rw_exact := rw_exact m;
           rw_suffixes := rw_suffixes m ++ [("."%rs ++ lower_no_dot rest, action)] |} in
      match strip_prefix "*."%rs name with
      | Some rest => add_suffix rest
      | None =>
          match strip_prefix "."%rs name with
          | Some rest => add_suffix rest
          | None =>
              {| rw_exact := <[lower_no_dot name := action]> (rw_exact m);
                 rw_suffixes := rw_suffixes m |}
          end
      end
  end.

Definition suffix_len (p : str * Action) : Z := str_len p.1.

Definition from_rules (rules : list RewriteRule) : RewriteMap :=
  let m := foldl add_rule {| rw_exact := ∅; rw_suffixes := [] |} rules in
  {| rw_exact := rw_exact m; rw_suffixes := sort_desc suffix_len (rw_suffixes m) |}.

Definition rewrite_len (m : RewriteMap) : nat := (size (rw_exact m) + length (rw_suffixes m))%nat.

Definition rewrite_is_empty (m : RewriteMap) : bool :=
  bool_decide (rw_exact m = ∅) && bool_decide (length (rw_suffixes m) = 0%nat).

Section rewrite.
Context `{Hickory} `{Unicode}.

Definition decide_action (action : Action) (qname_canon : str) (qtype : RecordType) : RewriteDecision :=
  match action with
  | Block => Nxdomain
  | CnameTo target => Answer [record_new qname_canon (Cname target) STATIC_RECORD_TTL]
  | Address (V4 v4) =>
      if bool_decide (qtype = RT_A ∨ qtype = RT_ANY)
      then Answer [record_new qname_canon (A v4) STATIC_RECORD_TTL] else NoData
  | Address (V6 v6) =>
      if bool_decide (qtype = RT_AAAA ∨ qtype = RT_ANY)
      then Answer [record_new qname_canon (Aaaa v6) STATIC_RECORD_TTL] else NoData
  end.

Definition rewrite_lookup (m : RewriteMap) (qname_canon : str) (qtype : RecordType) :
    option RewriteDecision :=
  let key := trim_end_matches "."%rc qname_canon in
  if is_empty_str key then None
  else match rw_exact m !! key with
       | Some action => Some (decide_action action qname_canon qtype)
       | None =>
           '(_, action) ← List.find (λ p, ends_with p.1 key) (rw_suffixes m);
           Some (decide_action action qname_canon qtype)
       end.
End rewrite.

(** ** What the rules mean *)

(** What a rule matches: a name, or the names ending in a dotted suffix. *)
Inductive pattern := Exact (name : str) | Suffix (suffix : str).

Definition rule_pattern (rule : RewriteRule) : pattern :=
  let name := trim (rewrite_name rule) in
  match strip_prefix "*."%rs name with
  | Some rest => Suffix ("."%rs ++ lower_no_dot rest)
  | None =>
      match strip_prefix "."%rs name with
      | Some rest => Suffix ("."%rs ++ lower_no_dot rest)
      | None => Exact (lower_no_dot name)
      end
  end.

(** The rules that pin a name, in their order; of several, the last counts. *)
Definition exact_rule (key : str) (rule : RewriteRule) : option Action :=
  match rule_pattern rule with
  | Exact name => if bool_decide (name = key) then rule_action rule else None
  | Suffix _ => None
  end.

(** The suffix rules, in their order. *)
Definition suffix_rule (rule : RewriteRule) : option (str * Action) :=
  match rule_pattern rule with
  | Suffix s => (λ a, (s, a)) <$> rule_action rule
  | Exact _ => None
  end.

(** The rule in force for a name: the last that pins it, or else the first of those with
    the longest suffix it ends in. *)
Definition in_force (rules : list RewriteRule) (key : str) (action : Action) : Prop :=
  list.last (omap (exact_rule key) rules) = Some action
  ∨ omap (exact_rule key) rules = []
    ∧ ∃ s, first_max suffix_len (λ p, ends_with p.1 key) (omap suffix_rule rules) (s, action).

Lemma add_rule_spec m rule key :
  rw_exact (add_rule m rule) !! key =
    match exact_rule key rule with Some a => Some a | None => rw_exact m !! key end
  ∧ rw_suffixes (add_rule m rule) =
    rw_suffixes m ++ match suffix_rule rule with Some p => [p] | None => [] end.
Proof.
  unfold add_rule, exact_rule, suffix_rule, rule_pattern. set (name := trim _).
  destruct (strip_prefix "*."%rs name) as [rest|]; [|destruct (strip_prefix "."%rs name) as [rest|]];
    destruct (rule_action rule) as [a|]; simpl; rewrite ?app_nil_r; try done.
  - case_bool_decide as Hk; [by rewrite Hk, lookup_insert_eq|by rewrite lookup_insert_ne].
  - by case_bool_decide.
Qed.

Lemma last_snoc_cons {A} (x : A) l l' :
  match list.last (x :: l) with Some y => Some y | None => l' end
  = match list.last l with Some y => Some y | None => Some x end.
Proof. rewrite last_cons. by destruct (list.last l). Qed.

Lemma add_rules_spec rules m key :
  rw_exact (foldl add_rule m rules) !! key =
    match list.last (omap (exact_rule key) rules) with
    | Some a => Some a
    | None => rw_exact m !! key
    end
  ∧ rw_suffixes (foldl add_rule m rules) = rw_suffixes m ++ omap suffix_rule rules.
Proof.
  revert m. induction rules as [|rule rules IH]; intros m; csimpl; [by rewrite app_nil_r|].
  destruct (IH (add_rule m rule)) as [-> ->]. destruct (add_rule_spec m rule key) as [-> ->].
  split.
  - destruct (exact_rule key rule); [|done]. by rewrite last_snoc_cons.
  - rewrite <- app_assoc. by destruct (suffix_rule rule).
Qed.

Lemma from_rules_exact rules key :
  rw_exact (from_rules rules) !! key = list.last (omap (exact_rule key) rules).
Proof.
  unfold from_rules. cbn [rw_exact].
  destruct (add_rules_spec rules {| rw_exact := ∅; rw_suffixes := [] |} key) as [-> _].
  cbn [rw_exact]. rewrite lookup_empty. by destruct (list.last _).
Qed.

Lemma from_rules_suffixes rules p :
  p ∈ rw_suffixes (from_rules rules) ↔ p ∈ omap suffix_rule rules.
Proof.
  unfold from_rules. cbn [rw_suffixes]. rewrite sort_desc_elem.
  by destruct (add_rules_spec rules {| rw_exact := ∅; rw_suffixes := [] |} []) as [_ ->].
Qed.

(** A rule is in a map: its suffix is there with its action, or its name with the action of the
    last rule that pins it. *)
Definition rule_kept (rules : list RewriteRule) (m : RewriteMap) (rule : RewriteRule) : Prop :=
  ∃ a, rule_action rule = Some a
    ∧ match rule_pattern rule with
      | Exact name => ∃ before rule' after a', rules = before ++ rule' :: after
          ∧ rule_pattern rule' = Exact name ∧ rule_action rule' = Some a' ∧ rw_exact m !! name = Some a'
          ∧ Forall (λ r, exact_rule name r = None) after ∧ (rule ∈ after → False)
      | Suffix s => (s, a) ∈ rw_suffixes m
      end.

Lemma last_omap {A B} (f : A → option B) l b :
  list.last (omap f l) = Some b →
  ∃ before a after, l = before ++ a :: after ∧ f a = Some b ∧ Forall (λ x, f x = None) after.
Proof.
  induction l as [|a l IH] using rev_ind; [done|]. rewrite omap_app. cbn [omap list_omap].
  destruct (f a) as [b'|] eqn:E.
  - rewrite last_snoc. intros [= ->]. by exists l, a, [].
  - rewrite app_nil_r. intros (before & x & after & -> & Hx & Ha)%IH.
    exists before, x, (after ++ [a]). rewrite <- app_assoc. split; [done|]. split; [done|].
    apply Forall_app. by repeat constructor.
Qed.

Lemma from_rules_keeps rules rule a :
  rule ∈ rules → rule_action rule = Some a → rule_kept rules (from_rules rules) rule.
Proof.
  intros Hr Ha. exists a. split; [done|]. destruct (rule_pattern rule) as [name|s] eqn:Hp.
  - assert (exact_rule name rule = Some a) as He by (unfold exact_rule; by rewrite Hp, bool_decide_true).
    destruct (list.last (omap (exact_rule name) rules)) as [a'|] eqn:Hl.
    2: { apply last_None in Hl. assert (a ∈ omap (exact_rule name) rules) as Hin.
         { apply list_elem_of_omap. by exists rule. } rewrite Hl in Hin. by apply elem_of_nil in Hin. }
    pose proof Hl as (before & rule' & after & Hrs & Hr' & Haft)%last_omap.
    exists before, rule', after, a'. rewrite from_rules_exact, Hl. split; [done|].
    unfold exact_rule in Hr'. destruct (rule_pattern rule') as [name'|]; [|done].
    case_bool_decide as Hn; [|done]. subst name'. do 4 (split; [done|]).
    intros Hin. rewrite list.Forall_forall in Haft. by rewrite (Haft _ Hin) in He.
  - apply from_rules_suffixes, list_elem_of_omap. exists rule. split; [done|].
    unfold suffix_rule. by rewrite Hp, Ha.
Qed.

Lemma last_None_nil {A} (l : list A) : list.last l = None → l = [].
Proof. induction l as [|x l IH] using rev_ind; [done|]. by rewrite last_snoc. Qed.

Section correctness.
Context `{Hickory} `{Unicode}.

(** C27. The rewrite map does what its rules say: a query is decided by the rule in force
    for its name (the last valid rule that pins the name, or else the first of those
    with the longest suffix), whatever its type, and is left to the rest of the pipeline
    exactly when the name is the root or no valid rule matches it. *)
Theorem rewrite_lookup_spec (rules : list RewriteRule) (qname : str) (qtype : RecordType) :
  let key := trim_end_matches "."%rc qname in
  (∀ d, rewrite_lookup (from_rules rules) qname qtype = Some d →
     ∃ action, in_force rules key action ∧ d = decide_action action qname qtype)
  ∧ (rewrite_lookup (from_rules rules) qname qtype = None ↔
     key = [] ∨ omap (exact_rule key) rules = []
       ∧ Forall (λ p, ends_with p.1 key = false) (omap suffix_rule rules)).
Proof.
  intros key. unfold rewrite_lookup, from_rules. fold key. cbn [rw_exact rw_suffixes].
  destruct (add_rules_spec rules {| rw_exact := ∅; rw_suffixes := [] |} key) as [-> ->].
  cbn [rw_exact rw_suffixes app]. rewrite lookup_empty.
  destruct (is_empty_str key) eqn:Hkey.
  { split; [done|]. destruct key; [|done]. by split; [left|]. }
  assert (key ≠ []) as Hne by (by destruct key).
  destruct (list.last (omap (exact_rule key) rules)) as [a|] eqn:Hl.
  { split; [|split; [done|]].
    - intros d [= <-]. exists a. by split; [left|].
    - intros [?|[Hnil _]]; [done|]. by rewrite Hnil in Hl. }
  apply last_None_nil in Hl.
  destruct (List.find _ _) as [[s a]|] eqn:Hf; cbn [mbind option_bind].
  - split; [|split; [done|]].
    + intros d [= <-]. exists a. split; [|done]. right. split; [done|]. exists s.
      by apply find_sort_desc.
    + intros [?|[_ Hall]]; [done|]. apply find_some in Hf as [Hin Hp].
      apply list_elem_of_In, sort_desc_elem in Hin.
      rewrite list.Forall_forall in Hall. by rewrite (Hall _ Hin) in Hp.
  - split; [done|]. split; [|done]. intros _. right. split; [done|].
    rewrite find_sort_desc_None in Hf. by apply list.Forall_forall.
Qed.
End correctness.

(** ** Witness: nested wildcards, and a name pinned twice *)

Definition demo_rule (name : str) (address target : option str) (block : bool) : RewriteRule :=
  {| rewrite_name := name; rewrite_address := address; rewrite_target := target;
     rewrite_block := block |}.

Definition demo_rules : list RewriteRule :=
  [demo_rule "*.example.com"%rs None None true;
   demo_rule "*.CDN.example.com"%rs None (Some "edge.lan"%rs) false;
   demo_rule "nas.example.com"%rs (Some "10.0.0.8"%rs) None false;
   demo_rule "nas.example.com."%rs (Some "::ffff:10.0.0.9"%rs) None false;
   demo_rule "bad.example.com"%rs (Some "no address"%rs) None false].

Definition demo_pin : RewriteDecision :=
  Answer [{| rec_name := "nas.example.com."%rs; rec_data := A 167772169; rec_ttl := 300;
             rec_mesh_node_id := None |}].

Lemma rewrite_lookup_spec_witness :
  ∃ action, in_force demo_rules "nas.example.com"%rs action
    ∧ demo_pin = @decide_action demo_hickory ascii_only action "nas.example.com."%rs 1.
Proof.
  apply (proj1 (@rewrite_lookup_spec demo_hickory ascii_only demo_rules "nas.example.com."%rs 1)).
  vm_compute. reflexivity.
Defined.
