(* ===== verification/RateLimiter.v ===== *)
(** * RateLimiter: per-source token buckets
    ([rustydnsd/src/rate_limiter.rs])

    Tokens are the code's [f64], as the Standard Library's binary64 numbers; an [Instant]
    is its number of nanoseconds and the clock an argument; the mutex is the state that
    is passed along.  The iteration order of the hash map, which only breaks ties in the
    choice of the least recently used bucket, is that of the finite map. *)

From Stdlib Require Import Floats.SpecFloat.
From S2P Require Import Prelude Net Config.

Abbreviation f64 := spec_float.
Definition f64_prec : Z := 53.
Definition f64_emax : Z := 1024.
Definition f64_of_Z (n : Z) : f64 := binary_normalize f64_prec f64_emax n 0 false.
Definition f64_add : f64 → f64 → f64 := SFadd f64_prec f64_emax.
Definition f64_sub : f64 → f64 → f64 := SFsub f64_prec f64_emax.
Definition f64_mul : f64 → f64 → f64 := SFmul f64_prec f64_emax.
Definition f64_div : f64 → f64 → f64 := SFdiv f64_prec f64_emax.
(** [f64::min]: the other operand when one is not a number. *)
Definition f64_min (x y : f64) : f64 :=
  match x, y with
  | S754_nan, _ => y
  | _, S754_nan => x
  | _, _ => if SFleb x y then x else y
  end.

Definition NANOS : Z := 1000000000.
Definition GC_INTERVAL : Z := 30 * NANOS.
Definition IDLE_THRESHOLD : Z := 300 * NANOS.

(** [Instant::duration_since], which saturates at zero. *)
Definition duration_since (now earlier : Z) : Z := Z.max 0 (now - earlier).
(** [Duration::as_secs_f64]. *)
Definition as_secs_f64 (d : Z) : f64 :=
  f64_add (f64_of_Z (d / NANOS)) (f64_div (f64_of_Z (d mod NANOS)) (f64_of_Z NANOS)).

Definition bucket_key (ip : ip_addr) : ip_addr :=
  match ip with
  | V4 _ => ip
  | V6 v6 => V6 (ipv6_from_segments
                   [segment v6 0; segment v6 1; segment v6 2; segment v6 3; 0; 0; 0; 0])
  end.

Definition normalise_mapped (ip : ip_addr) : ip_addr :=
  match ip with
  | V6 v6 => match to_ipv4_mapped v6 with Some v4 => V4 v4 | None => V6 v6 end
  | v4 => v4
  end.

Record Bucket := { tokens : f64; last_refill : Z; last_used : Z }.

Record LimiterState := { buckets : gmap ip_addr Bucket; last_gc : Z }.

Record RateLimiter := {
  rl_state : option LimiterState;
  qps : f64;
  burst : f64;
  max_tracked : Z;
}.

Inductive LimitDecision := Allow | Refuse.
#[global] Instance LimitDecision_eq_dec : EqDecision LimitDecision.
Proof. solve_decision. Defined.

Definition limiter_new (cfg : RateLimitConfig) (now : Z) : RateLimiter :=
  {| rl_state := if rate_limit_enabled cfg then Some {| buckets := ∅; last_gc := now |} else None;
     qps := f64_of_Z (rate_limit_qps cfg); burst := f64_of_Z (rate_limit_burst cfg);
     max_tracked := rate_limit_max_tracked_clients cfg |}.

(** The first of the elements with the least key. *)
Definition min_by_key {A} (key : A → Z) (l : list A) : option A :=
  foldl (λ acc x, match acc with
                  | Some y => if key x <? key y then Some x else Some y
                  | None => Some x
                  end) None l.

Definition gc (now : Z) (s : LimiterState) : LimiterState :=
  if GC_INTERVAL <=? duration_since now (last_gc s)
  then {| buckets := filter (λ p, duration_since now (last_used p.2) < IDLE_THRESHOLD) (buckets s);
          last_gc := now |}
  else s.

Definition evict (max_tracked : Z) (ip : ip_addr) (s : LimiterState) : LimiterState :=
  if negb (bool_decide (is_Some (buckets s !! ip)))
     && (max_tracked <=? Z.of_nat (size (buckets s)))
  then match min_by_key (λ p, last_used p.2) (map_to_list (buckets s)) with
       | Some (oldest, _) => {| buckets := delete oldest (buckets s); last_gc := last_gc s |}
       | None => s
       end
  else s.

Definition refill (l : RateLimiter) (now : Z) (b : Bucket) : Bucket :=
  let elapsed := as_secs_f64 (duration_since now (last_refill b)) in
  {| tokens := f64_min (f64_add (tokens b) (f64_mul elapsed (qps l))) (burst l);
     last_refill := now; last_used := now |}.

Definition fresh_bucket (l : RateLimiter) (now : Z) : Bucket :=
  {| tokens := burst l; last_refill := now; last_used := now |}.

Definition take_token (b : Bucket) : LimitDecision * Bucket :=
  if SFleb (f64_of_Z 1) (tokens b)
  then (Allow, {| tokens := f64_sub (tokens b) (f64_of_Z 1); last_refill := last_refill b;
                  last_used := last_used b |})
  else (Refuse, b).

Definition check (l : RateLimiter) (ip : ip_addr) (now : Z) : LimitDecision * RateLimiter :=
  let ip := normalise_mapped ip in
  if is_loopback ip then (Allow, l)
  else
    match rl_state l with
    | None => (Allow, l)
    | Some s =>
        let ip := bucket_key ip in
        let s := evict (max_tracked l) ip (gc now s) in
        let b := refill l now (default (fresh_bucket l now) (buckets s !! ip)) in
        let '(decision, b) := take_token b in
        (decision,
         {| rl_state := Some {| buckets := <[ip := b]> (buckets s); last_gc := last_gc s |};
            qps := qps l; burst := burst l; max_tracked := max_tracked l |})
    end.

(** ** Lemmas *)

Lemma min_by_key_spec {A} (key : A → Z) (l : list A) :
  match min_by_key key l with
  | Some x => x ∈ l ∧ ∀ y, y ∈ l → key x <= key y
  | None => l = []
  end.
Proof.
  induction l as [|x l IH] using rev_ind; [done|].
  unfold min_by_key in *. rewrite foldl_app. cbn [foldl].
  destruct (foldl _ None l) as [y|].
  - destruct IH as [Hy Hmin].
    destruct (Z.ltb_spec (key x) (key y)); (split; [apply elem_of_app|]);
      [right; by left| |by left|];
      intros z [Hz| ->%list_elem_of_singleton]%elem_of_app; try lia; specialize (Hmin z Hz); lia.
  - subst l. split; [by left|]. by intros z ->%list_elem_of_singleton.
Qed.

Lemma gc_size now s : (size (buckets (gc now s)) <= size (buckets s))%nat.
Proof.
  unfold gc. case_match; [|done]. apply map_subseteq_size, map_filter_subseteq.
Qed.

(** The bucket of [k] is the least recently used of the table. *)
Definition least_recent (s : LimiterState) (k : ip_addr) : Prop :=
  ∃ b, buckets s !! k = Some b
    ∧ ∀ k' b', buckets s !! k' = Some b' → last_used b <= last_used b'.

Lemma evict_spec m ip s k :
  buckets (evict m ip s) !! k = buckets s !! k
  ∨ buckets (evict m ip s) !! k = None ∧ buckets s !! ip = None
    ∧ m <= Z.of_nat (size (buckets s)) ∧ least_recent s k.
Proof.
  unfold evict. destruct (negb _ && _) eqn:E; [|by left]. bools.
  pose proof (min_by_key_spec (λ p, last_used p.2) (map_to_list (buckets s))) as Hmin.
  destruct (min_by_key _ _) as [[oldest b]|]; [|by left]. cbn [buckets].
  destruct Hmin as [Hin%elem_of_map_to_list Hmin].
  destruct (decide (k = oldest)) as [->|]; [|left; by rewrite lookup_delete_ne].
  right. rewrite lookup_delete_eq. split; [done|]. rewrite eq_None_not_Some.
  split; [done|]. split; [done|]. exists b. split; [done|].
  intros k' b' Hb'%elem_of_map_to_list. apply (Hmin _ Hb').
Qed.

Lemma evict_room m ip s :
  buckets (evict m ip s) !! ip = None → buckets s !! ip = None →
  Z.of_nat (size (buckets s)) <= Z.max 1 m →
  Z.of_nat (size (buckets (evict m ip s))) + 1 <= Z.max 1 m.
Proof.
  intros _ Hip Hs. unfold evict. rewrite Hip, bool_decide_false by (by intros []). cbn [negb andb].
  destruct (Z.leb_spec m (Z.of_nat (size (buckets s)))); [|lia].
  pose proof (min_by_key_spec (λ p, last_used p.2) (map_to_list (buckets s))) as Hmin.
  destruct (min_by_key _ _) as [[oldest b]|].
  - destruct Hmin as [Hin%elem_of_map_to_list _]. cbn [buckets].
    assert (size (buckets s) ≠ 0)%nat.
    { intros Hz%map_size_empty_inv. rewrite Hz in Hin. by rewrite lookup_empty in Hin. }
    rewrite map_size_delete_Some by (by exists b). lia.
  - apply map_to_list_empty_iff in Hmin. rewrite Hmin, map_size_empty. lia.
Qed.

Definition tracked (l : RateLimiter) : Z :=
  match rl_state l with Some s => Z.of_nat (size (buckets s)) | None => 0 end.

Lemma check_bounded l ip now :
  tracked l <= Z.max 1 (max_tracked l) →
  tracked (check l ip now).2 <= Z.max 1 (max_tracked l)
  ∧ max_tracked (check l ip now).2 = max_tracked l.
Proof.
  unfold check. destruct (is_loopback _); [done|].
  unfold tracked. destruct (rl_state l) as [s|] eqn:Hs; [|cbn [snd]; by rewrite Hs].
  intros Hb. set (k := bucket_key _). pose proof (gc_size now s) as Hgc.
  set (s1 := gc now s) in *. set (s2 := evict _ k s1). set (b := refill _ _ _).
  destruct (take_token b) as [d b']. cbn [snd rl_state buckets max_tracked]. split; [|done].
  destruct (buckets s2 !! k) as [b0|] eqn:Hk.
  - rewrite map_size_insert_Some by (by exists b0).
    assert (size (buckets s2) <= size (buckets s1))%nat; [|lia].
    subst s2. unfold evict. case_match; [|done]. case_match; [|done]. destruct p. cbn [buckets].
    apply map_subseteq_size, delete_subseteq.
  - rewrite map_size_insert_None by done.
    assert (buckets s1 !! k = None) as Hk1.
    { destruct (evict_spec (max_tracked l) k s1 k) as [He|(_ & Hnone & _)]; [|done].
      fold s2 in He. by rewrite <- He. }
    pose proof (evict_room (max_tracked l) k s1 Hk Hk1 ltac:(lia)) as Hroom. fold s2 in Hroom. lia.
Qed.

(** ** Correctness *)

Definition run_checks (l : RateLimiter) (events : list (ip_addr * Z)) : RateLimiter :=
  foldl (λ l ev, (check l ev.1 ev.2).2) l events.

(** The limiter's memory is bounded: whatever queries arrive, from however many sources
    and at whatever times, it never tracks more than [max_tracked_clients] buckets (one
    if that is zero). *)
Theorem limiter_memory_bounded (cfg : RateLimitConfig) (start : Z) (events : list (ip_addr * Z)) :
  tracked (run_checks (limiter_new cfg start) events)
  <= Z.max 1 (rate_limit_max_tracked_clients cfg).
Proof.
  assert (∀ l, tracked l <= Z.max 1 (max_tracked l) →
    tracked (run_checks l events) <= Z.max 1 (max_tracked l)) as Hrun.
  { unfold run_checks. induction events as [|[ip now] events IH]; intros l Hl; cbn [foldl]; [done|].
    destruct (check_bounded l ip now Hl) as [Hb Hm]. rewrite <- Hm. apply IH. by rewrite Hm. }
  apply (Hrun (limiter_new cfg start)). unfold tracked, limiter_new. cbn [rl_state max_tracked].
  destruct (rate_limit_enabled cfg); cbn [buckets]; rewrite ?map_size_empty; lia.
Qed.

(** The unit a client is limited by. *)
Definition limit_key (ip : ip_addr) : ip_addr := bucket_key (normalise_mapped ip).

Lemma sfleb_refl x : x ≠ S754_nan → SFleb x x = true.
Proof.
  unfold SFleb, SFcompare. destruct x as [s|s| |s m e]; try done; destruct s; try done;
    by rewrite Z.compare_refl, Pos.compare_refl.
Qed.

Lemma f64_min_le x y : y ≠ S754_nan → SFleb (f64_min x y) y = true.
Proof.
  intros Hy. pose proof (sfleb_refl y Hy). unfold f64_min.
  destruct x, y; try done; by case_match.
Qed.

(** The bucket a source has at a check: the stored one, unless the idle collection is due and
    takes it. *)
Definition surviving (s : LimiterState) (now : Z) (k : ip_addr) : option Bucket :=
  b ← buckets s !! k;
  if (GC_INTERVAL <=? duration_since now (last_gc s)) && (IDLE_THRESHOLD <=? duration_since now (last_used b))
  then None else Some b.

Lemma gc_surviving now s k : buckets (gc now s) !! k = surviving s now k.
Proof.
  unfold gc, surviving. destruct (GC_INTERVAL <=? _); cbn [andb buckets].
  2: by destruct (buckets s !! k).
  destruct (buckets s !! k) as [b|] eqn:Hb; cbn [mbind option_bind].
  - destruct (Z.leb_spec IDLE_THRESHOLD (duration_since now (last_used b))).
    + apply map_lookup_filter_None. right. intros b' Hb'. rewrite Hb in Hb'. injection Hb' as <-. cbn. lia.
    + by apply map_lookup_filter_Some.
  - apply map_lookup_filter_None. by left.
Qed.

(** The source whose bucket makes room for that of [k], if one does. *)
Definition makes_room (m : Z) (s : LimiterState) (k : ip_addr) (victim : option ip_addr) : Prop :=
  match victim with
  | Some v => buckets s !! k = None ∧ m <= Z.of_nat (size (buckets s)) ∧ least_recent s v
  | None => is_Some (buckets s !! k) ∨ Z.of_nat (size (buckets s)) < m ∨ buckets s = ∅
  end.

Lemma evict_victim m ip s :
  ∃ victim, makes_room m s ip victim
    ∧ ∀ k, buckets (evict m ip s) !! k = if decide (victim = Some k) then None else buckets s !! k.
Proof.
  unfold evict. destruct (buckets s !! ip) as [b|] eqn:Hb.
  { rewrite bool_decide_true by by eexists. exists None. split; [left; by eexists|]. done. }
  rewrite bool_decide_false by (by intros []). cbn [negb andb].
  destruct (Z.leb_spec m (Z.of_nat (size (buckets s)))) as [Hm|Hm].
  2: { exists None. split; [right; by left|done]. }
  pose proof (min_by_key_spec (λ p, last_used p.2) (map_to_list (buckets s))) as Hmin.
  destruct (min_by_key _ _) as [[oldest b]|].
  - destruct Hmin as [Hin%elem_of_map_to_list Hmin]. exists (Some oldest). split.
    + split; [done|]. split; [done|]. exists b. split; [done|].
      intros k' b' Hb'%elem_of_map_to_list. apply (Hmin _ Hb').
    + intros k. cbn [buckets]. destruct (decide (Some oldest = Some k)) as [[= ->]|Hne].
      * by rewrite lookup_delete_eq.
      * by rewrite lookup_delete_ne by congruence.
  - exists None. apply map_to_list_empty_iff in Hmin. split; [by right; right|done].
Qed.

(** C26. What a check does.  A loopback client, in native or mapped form, is always admitted
    and leaves no trace.  Any other is admitted exactly when its own bucket, after a
    refill that never exceeds the burst, holds a token, which is then taken.  Its bucket is the
    one that is stored; it is a full one only if none is, or if the stored one was idle for
    five minutes and the collection is due.  The bucket of any other source is left alone,
    unless it is collected likewise, or it is the one least recently used bucket that makes
    room for a new one in a full table. *)
Theorem check_spec (l : RateLimiter) (s : LimiterState) (ip : ip_addr) (now : Z) :
  rl_state l = Some s →
  (is_loopback (normalise_mapped ip) = true → check l ip now = (Allow, l))
  ∧ (is_loopback (normalise_mapped ip) = false → burst l ≠ S754_nan →
     let key := limit_key ip in
     let b := refill l now (default (fresh_bucket l now) (surviving s now key)) in
     ∃ s' victim decision,
       (check l ip now).1 = decision ∧ rl_state (check l ip now).2 = Some s'
       ∧ SFleb (tokens b) (burst l) = true
       ∧ (decision = Allow ↔ SFleb (f64_of_Z 1) (tokens b) = true)
       ∧ buckets s' !! key =
           Some (if decide (decision = Allow)
                 then {| tokens := f64_sub (tokens b) (f64_of_Z 1); last_refill := now; last_used := now |}
                 else b)
       ∧ (∀ k, k ≠ key → buckets s' !! k = if decide (victim = Some k) then None else surviving s now k)
       ∧ makes_room (max_tracked l) (gc now s) key victim).
Proof.
  intros Hs. split; [by unfold check; intros ->|]. intros Hlo Hnan key b. unfold check.
  rewrite Hlo, Hs. fold (limit_key ip). fold key.
  destruct (evict_victim (max_tracked l) key (gc now s)) as (victim & Hv & He).
  assert (buckets (evict (max_tracked l) key (gc now s)) !! key = surviving s now key) as Hkey.
  { rewrite He, gc_surviving. case_decide as Hd; [|done]. subst victim.
    destruct Hv as (Hnone & _). by rewrite gc_surviving in Hnone. }
  rewrite Hkey. fold b. destruct (take_token b) as [d b'] eqn:Ht. cbn [fst snd rl_state].
  eexists _, victim, d. split; [done|]. split; [done|]. split; [by apply f64_min_le|]. cbn [buckets].
  rewrite lookup_insert_eq. unfold take_token in Ht.
  split; [by destruct (SFleb (f64_of_Z 1) (tokens b)); injection Ht as <- <-|]. split; [|split; [|done]].
  - by destruct (SFleb (f64_of_Z 1) (tokens b)); injection Ht as <- <-.
  - intros k Hk. rewrite lookup_insert_ne by done. by rewrite He, gc_surviving.
Qed.

(** ** Witness: the last token of a client, among others *)

Definition demo_limits : RateLimitConfig :=
  {| rate_limit_enabled := true; rate_limit_qps := 2; rate_limit_burst := 3;
     rate_limit_max_tracked_clients := 2 |}.

Definition demo_limiter : RateLimiter :=
  run_checks (limiter_new demo_limits 0) [(V4 167772161, 0); (V4 167772161, 0); (V4 167772162, 0)].

(** Three at once, the fourth refused, and one more after half a second; the mapped form
    shares the bucket. *)
Example demo_burst :
  (check demo_limiter (V4 167772161) 0).1 = Allow
  ∧ (check (run_checks demo_limiter [(V4 167772161, 0)]) (V6 (65535 * 2 ^ 32 + 167772161)) 0).1 = Refuse
  ∧ (check (run_checks demo_limiter [(V4 167772161, 0)]) (V4 167772161) 500000000).1 = Allow.
Proof. repeat split; vm_compute; reflexivity. Qed.

Definition demo_limiter_state : LimiterState :=
  default {| buckets := ∅; last_gc := 0 |} (rl_state demo_limiter).

Lemma check_spec_witness :
  ∃ s' victim decision,
    (check demo_limiter (V4 167772161) 0).1 = decision
    ∧ rl_state (check demo_limiter (V4 167772161) 0).2 = Some s'
    ∧ makes_room (max_tracked demo_limiter) (gc 0 demo_limiter_state) (limit_key (V4 167772161)) victim.
Proof.
  destruct (proj2 (check_spec demo_limiter demo_limiter_state (V4 167772161) 0 ltac:(vm_compute; reflexivity)))
    as (s' & victim & decision & Hd & Hs & _ & _ & _ & _ & Hv).
  - vm_compute. reflexivity.
  - vm_compute. discriminate.
  - exists s', victim, decision. exact (conj Hd (conj Hs Hv)).
Defined.
