(* ===== verification/QueryLog.v ===== *)
(** * QueryLog: the bounded query log and its disk sink
    ([rustydnsd/src/query_log.rs])

    The keyed hash is a parameter, the clock an argument.  The channel to the disk
    writer is a bounded queue that the writer may drain or close at any time. *)

From S2P Require Import Prelude RustStr Net Client.

Inductive ServedBy :=
| ByAuthority | ByRewrite | ByBlocklist | ByResolver | ByServerFailure | ByRejected.

#[export] Instance ServedBy_eq_dec : EqDecision ServedBy.
Proof. solve_decision. Defined.

Definition served_by_str (s : ServedBy) : str :=
  match s with
  | ByAuthority => "authority"%rs
  | ByRewrite => "rewrite"%rs
  | ByBlocklist => "blocklist"%rs
  | ByResolver => "resolver"%rs
  | ByServerFailure => "servfail"%rs
  | ByRejected => "rejected"%rs
  end.

(** The first 48 bytes of the displayed client. *)
Record AnonymisedClient := { client_bytes : list Z }.

Definition from_client (c : ClientId) : AnonymisedClient :=
  {| client_bytes := take 48 (as_bytes (show_anonymized (anonymized c))) |}.

Definition client_str (a : AnonymisedClient) : str :=
  default "?"%rs (from_utf8 (client_bytes a)).

Record QueryLogEntry := {
  timestamp_unix : Z;
  client_anonymised : AnonymisedClient;
  qname_hash : Z;
  entry_qtype : str;
  entry_rcode : Z;
  entry_served_by : ServedBy;
}.

(** [s.replace('\\', "\\\\").replace('"', "\\\"")]: a backslash before each
    backslash, then one before each quotation mark. *)
Definition json_escape (s : str) : str :=
  let s := concat (map (λ c, if c =? 92 then [92; 92] else [c]) s) in
  concat (map (λ c, if c =? 34 then [92; 34] else [c]) s).

(** [{:016x}]. *)
Definition show_hex16 (n : Z) : str :=
  let digits := show_hex n in replicate (16 - length digits) "0"%rc ++ digits.

Definition quoted (s : str) : str := 34 :: s ++ [34].

Definition to_json (e : QueryLogEntry) : str :=
  "{"%rs ++ quoted "ts"%rs ++ ":"%rs ++ show_dec (timestamp_unix e)
  ++ ","%rs ++ quoted "client"%rs ++ ":"%rs ++ quoted (json_escape (client_str (client_anonymised e)))
  ++ ","%rs ++ quoted "qname_hash"%rs ++ ":"%rs ++ quoted (show_hex16 (qname_hash e))
  ++ ","%rs ++ quoted "qtype"%rs ++ ":"%rs ++ quoted (entry_qtype e)
  ++ ","%rs ++ quoted "rcode"%rs ++ ":"%rs ++ show_dec (entry_rcode e)
  ++ ","%rs ++ quoted "served_by"%rs ++ ":"%rs ++ quoted (served_by_str (entry_served_by e))
  ++ "}"%rs.

(** A bounded channel: its capacity, what is queued, and whether the receiver lives. *)
Record Channel := { chan_capacity : nat; chan_queue : list QueryLogEntry; chan_open : bool }.

Definition try_send (c : Channel) (e : QueryLogEntry) : option Channel :=
  if chan_open c && (length (chan_queue c) <? chan_capacity c)%nat
  then Some {| chan_capacity := chan_capacity c; chan_queue := chan_queue c ++ [e];
               chan_open := chan_open c |}
  else None.

Record QueryLog := {
  log_capacity : nat;
  log_ring : list QueryLogEntry;
  (** The sink and its counter of dropped entries. *)
  log_disk : option (Channel * Z);
}.

Definition log_new (capacity : nat) : QueryLog :=
  {| log_capacity := capacity; log_ring := []; log_disk := None |}.

Definition with_disk_sink (capacity : nat) (tx : Channel) (dropped : Z) : QueryLog :=
  {| log_capacity := capacity; log_ring := []; log_disk := Some (tx, dropped) |}.

Definition send_to_disk (disk : option (Channel * Z)) (e : QueryLogEntry) :
    option (Channel * Z) :=
  match disk with
  | Some (tx, dropped) =>
      match try_send tx e with
      | Some tx => Some (tx, dropped)
      | None => Some (tx, dropped + 1)
      end
  | None => None
  end.

(** [pop_front] when full, then [push_back]. *)
Definition push_ring (capacity : nat) (ring : list QueryLogEntry) (e : QueryLogEntry) :
    list QueryLogEntry :=
  (if (length ring =? capacity)%nat then tail ring else ring) ++ [e].

Section log.
(** [hash_qname], under the keys of this process. *)
Context (hash_qname : str → Z).

Definition log_entry (now : Z) (c : ClientId) (qname_lower qtype : str) (rcode : Z)
    (served_by : ServedBy) : QueryLogEntry :=
  {| timestamp_unix := now; client_anonymised := from_client c;
     qname_hash := hash_qname qname_lower; entry_qtype := qtype; entry_rcode := rcode;
     entry_served_by := served_by |}.

Definition record (l : QueryLog) (now : Z) (c : ClientId) (qname_lower qtype : str) (rcode : Z)
    (served_by : ServedBy) : QueryLog :=
  if (log_capacity l =? 0)%nat && bool_decide (log_disk l = None :> option (Channel * Z)) then l
  else
    let e := log_entry now c qname_lower qtype rcode served_by in
    let disk := send_to_disk (log_disk l) e in
    {| log_capacity := log_capacity l;
       log_ring := if (log_capacity l =? 0)%nat then log_ring l
                   else push_ring (log_capacity l) (log_ring l) e;
       log_disk := disk |}.

Definition log_snapshot (l : QueryLog) : list QueryLogEntry := rev (log_ring l).
Definition log_len (l : QueryLog) : nat := length (log_ring l).
Definition log_is_empty (l : QueryLog) : bool := (log_len l =? 0)%nat.
End log.

(** ** Histories of a log *)

Section histories.
Context (hash_qname : str → Z).

(** What happens to a log with a sink: queries, and what the disk writer does. *)
Inductive log_event :=
| Logged (now : Z) (c : ClientId) (qname qtype : str) (rcode : Z) (served_by : ServedBy)
| WriterReceives
| WriterStops.

Record LogRun := { run_log : QueryLog; run_written : list QueryLogEntry }.

Definition log_step (r : LogRun) (ev : log_event) : LogRun :=
  match ev with
  | Logged now c qname qtype rcode served_by =>
      {| run_log := record hash_qname (run_log r) now c qname qtype rcode served_by;
         run_written := run_written r |}
  | WriterReceives =>
      match log_disk (run_log r) with
      | Some ({| chan_capacity := cap; chan_queue := e :: q; chan_open := true |}, dropped) =>
          {| run_log := {| log_capacity := log_capacity (run_log r); log_ring := log_ring (run_log r);
               log_disk := Some ({| chan_capacity := cap; chan_queue := q; chan_open := true |}, dropped) |};
             run_written := run_written r ++ [e] |}
      | _ => r
      end
  | WriterStops =>
      {| run_log := {| log_capacity := log_capacity (run_log r); log_ring := log_ring (run_log r);
           log_disk := (λ p, ({| chan_capacity := chan_capacity p.1; chan_queue := chan_queue p.1;
                                 chan_open := false |}, p.2)) <$> log_disk (run_log r) |};
         run_written := run_written r |}
  end.

Definition event_entry (ev : log_event) : option QueryLogEntry :=
  match ev with
  | Logged now c qname qtype rcode served_by =>
      Some (log_entry hash_qname now c qname qtype rcode served_by)
  | _ => None
  end.

(** The last [n] of a list. *)
Definition latest {A} (n : nat) (l : list A) : list A := drop (length l - n) l.

Lemma push_ring_latest n es e :
  (0 < n)%nat → push_ring n (latest n es) e = latest n (es ++ [e]).
Proof.
  intros Hn. unfold push_ring, latest. rewrite length_drop, length_app. cbn [length].
  destruct (Nat.eqb_spec (length es - (length es - n)) n) as [He|He].
  - replace (length es + 1 - n)%nat with (S (length es - n)) by lia.
    rewrite drop_app_le by lia. f_equal.
    generalize (length es - n)%nat as k. clear He. intros k. revert es.
    induction k as [|k IH]; intros [|x es]; try done. apply (IH es).
  - replace (length es - n)%nat with 0%nat by lia. replace (length es + 1 - n)%nat with 0%nat by lia.
    done.
Qed.
(** The state of a run after the entries [es]: the ring holds the latest, and what was
    queued for the disk was written, is still queued, or was counted as dropped. *)
Definition log_inv (n cap : nat) (es : list QueryLogEntry) (r : LogRun) : Prop :=
  log_capacity (run_log r) = n
  ∧ log_ring (run_log r) = latest n es
  ∧ ∃ tx dropped, log_disk (run_log r) = Some (tx, dropped)
    ∧ chan_capacity tx = cap ∧ (length (chan_queue tx) <= cap)%nat
    ∧ run_written r ++ chan_queue tx `sublist_of` es
    ∧ dropped = Z.of_nat (length es) - Z.of_nat (length (run_written r ++ chan_queue tx)).

Lemma log_step_inv n cap es r ev :
  log_inv n cap es r →
  log_inv n cap (es ++ match event_entry ev with Some e => [e] | None => [] end) (log_step r ev).
Proof.
  intros (Hn & Hring & tx & dropped & Hd & Hcap & Hlen & Hsub & Hdrop).
  destruct ev as [now c qname qtype rcode served_by| |]; cbn [log_step event_entry].
  - set (e := log_entry hash_qname now c qname qtype rcode served_by).
    unfold record, log_inv. fold e. cbn [run_log run_written].
    rewrite (bool_decide_false (log_disk (run_log r) = None)) by (by rewrite Hd).
    rewrite andb_false_r. cbn [log_capacity log_ring log_disk]. split; [done|]. split.
    { rewrite Hn, Hring. destruct (Nat.eqb_spec n 0) as [->|]; [|apply push_ring_latest; lia].
      unfold latest. rewrite !Nat.sub_0_r. by rewrite !drop_ge by done. }
    rewrite Hd. cbn [send_to_disk]. unfold try_send.
    destruct (chan_open tx && _) eqn:Ho.
    + bools. apply Nat.ltb_lt in H0. eexists _, _. split; [done|]. cbn [chan_capacity chan_queue].
      rewrite !length_app in *. cbn [length]. rewrite app_assoc.
      split; [done|]. split; [lia|]. split; [by apply sublist_app|]. lia.
    + exists tx, (dropped + 1). split; [done|]. split; [done|]. split; [done|].
      rewrite !length_app in *. cbn [length]. split; [by apply sublist_inserts_r|]. lia.
  - rewrite app_nil_r. rewrite Hd. destruct tx as [cap' q o]. cbn [chan_capacity chan_queue] in *.
    destruct q as [|e q]; [|destruct o];
      try (split; [done|]; split; [done|]; eexists _, _; split; [done|]; done).
    split; [done|]. split; [done|]. eexists _, _. split; [done|].
    cbn [run_written chan_queue chan_capacity length] in *. rewrite <- app_assoc. cbn [app].
    split; [done|]. split; [lia|]. done.
  - rewrite app_nil_r, Hd. split; [done|]. split; [done|]. cbn [run_log log_disk fmap option_fmap option_map].
    eexists _, _. split; [done|]. done.
Qed.

Lemma run_log_inv n cap events :
  log_inv n cap (omap event_entry events)
    (foldl log_step
       {| run_log := with_disk_sink n {| chan_capacity := cap; chan_queue := [];
                                         chan_open := true |} 0;
          run_written := [] |} events).
Proof.
  induction events as [|ev events IH] using rev_ind.
  - split; [done|]. split; [done|]. eexists _, _. split; [done|]. split; [done|].
    split; [simpl; lia|]. done.
  - rewrite foldl_app, omap_app. apply (log_step_inv _ _ _ _ ev) in IH. cbn [foldl].
    csimpl. by destruct (event_entry ev).
Qed.

(** C28. The query log, over any history of queries and of a disk writer that drains the
    channel, lags or dies: the ring holds exactly the latest [capacity] entries, whatever
    the writer does; the channel never outgrows its bound; what reaches the disk is, in
    order, among the entries; and every entry was written, is queued, or is counted in
    the dropped counter. *)
Theorem query_log_history (n cap : nat) (events : list log_event) :
  let r := foldl log_step
             {| run_log := with_disk_sink n {| chan_capacity := cap; chan_queue := [];
                                               chan_open := true |} 0;
                run_written := [] |} events in
  let es := omap event_entry events in
  log_snapshot (run_log r) = take n (rev es)
  ∧ ∃ tx dropped, log_disk (run_log r) = Some (tx, dropped)
    ∧ (length (chan_queue tx) <= cap)%nat
    ∧ run_written r ++ chan_queue tx `sublist_of` es
    ∧ dropped + Z.of_nat (length (run_written r ++ chan_queue tx)) = Z.of_nat (length es).
Proof.
  intros r es.
  destruct (run_log_inv n cap events) as (Hn & Hring & tx & dropped & Hd & Hcap & Hlen & Hsub & Hdrop).
  fold r es in Hn, Hring, Hd, Hsub, Hdrop. split.
  - unfold log_snapshot. rewrite Hring. unfold latest. by rewrite List.firstn_rev.
  - exists tx, dropped. split; [done|]. split; [done|]. split; [done|]. lia.
Qed.

(** C29. The log cannot tell apart two clients of the same network, nor two names of the same
    hash: whichever of them a query came from or asked for, the log, its sink and what
    is printed of it are the same. *)
Theorem record_hides (l : QueryLog) (now : Z) (c c' : ClientId) (q q' qtype : str) (rcode : Z)
    (served_by : ServedBy) :
  ip_wf (source_ip c) → ip_wf (source_ip c') → network (source_ip c) = network (source_ip c') →
  hash_qname q = hash_qname q' →
  record hash_qname l now c q qtype rcode served_by = record hash_qname l now c' q' qtype rcode served_by
  ∧ to_json (log_entry hash_qname now c q qtype rcode served_by)
    = to_json (log_entry hash_qname now c' q' qtype rcode served_by).
Proof.
  intros Hc Hc' Hn Hq.
  assert (log_entry hash_qname now c q qtype rcode served_by
    = log_entry hash_qname now c' q' qtype rcode served_by) as He.
  { assert (anonymized c = anonymized c') as Ha.
    { apply anonymized_network in Hc, Hc'. rewrite Hn, <- Hc' in Hc.
      destruct (anonymized c), (anonymized c'). cbn in Hc. by subst. }
    unfold log_entry, from_client. by rewrite Hq, Ha. }
  unfold record. by rewrite He.
Qed.
End histories.

(** ** Witness *)

(** A toy hash: the length of the name. *)
Definition demo_hash (s : str) : Z := Z.of_nat (length s).

Example demo_json :
  to_json (log_entry demo_hash 1700000000 (from_ip (V4 3232235876)) "a.example."%rs "A"%rs 3 ByBlocklist)
  = "{"%rs ++ quoted "ts"%rs ++ ":1700000000,"%rs ++ quoted "client"%rs ++ ":"%rs
    ++ quoted "192.168.0.0/16/anon"%rs ++ ","%rs ++ quoted "qname_hash"%rs ++ ":"%rs
    ++ quoted "000000000000000a"%rs ++ ","%rs ++ quoted "qtype"%rs ++ ":"%rs ++ quoted "A"%rs
    ++ ","%rs ++ quoted "rcode"%rs ++ ":3,"%rs ++ quoted "served_by"%rs ++ ":"%rs
    ++ quoted "blocklist"%rs ++ "}"%rs.
Proof. vm_compute. reflexivity. Qed.

Lemma record_hides_witness :
  record demo_hash (log_new 2) 1700000000 (from_ip (V4 3232235876)) "a.example."%rs "A"%rs 3 ByBlocklist
  = record demo_hash (log_new 2) 1700000000 (from_ip (V4 3232255241)) "b.example."%rs "A"%rs 3 ByBlocklist.
Proof.
  apply (record_hides demo_hash (log_new 2) 1700000000 (from_ip (V4 3232235876))
    (from_ip (V4 3232255241)) "a.example."%rs "b.example."%rs "A"%rs 3 ByBlocklist).
  - unfold ip_wf, v4_wf. cbn. lia.
  - unfold ip_wf, v4_wf. cbn. lia.
  - vm_compute. reflexivity.
  - reflexivity.
Defined.
