(* ===== verification/DiskLog.v ===== *)
(** * DiskLog: the on-disk query log
    ([rustydnsd/src/query_log_disk.rs])

    The file system is a map from names to files and from files to their mode and bytes;
    which of the numbered operations fail, and how much a failed write leaves behind, are
    parameters.  What the buffer in front of the active file holds counts as written. *)

From S2P Require Import Prelude RustStr Net.
From S2P Require QueryLog.

Definition CHANNEL_CAPACITY : nat := Z.to_nat 8192.

Record File := { f_mode : Z; f_bytes : list Z }.

(** The disk, and the number of operations asked of it. *)
Record Disk := {
  d_names : gmap str nat;
  d_files : gmap nat File;
  d_ops : nat;
}.

(** The counters of the writer. *)
Record DiskMetrics := { written : Z; io_errors : Z; rotations : Z }.

Record Writer := {
  path : str;
  max_file_bytes : Z;
  max_files : nat;
  cur_size : Z;
  io_error_streak : Z;
  out : nat;
  metrics : DiskMetrics;
}.

(** ** Disk operations *)

Definition tick (d : Disk) : Disk :=
  {| d_names := d_names d; d_files := d_files d; d_ops := S (d_ops d) |}.

Definition with_names (n : gmap str nat) (d : Disk) : Disk :=
  {| d_names := n; d_files := d_files d; d_ops := d_ops d |}.
Definition with_files (f : gmap nat File) (d : Disk) : Disk :=
  {| d_names := d_names d; d_files := f; d_ops := d_ops d |}.

Inductive stat := NotFound | StatFailed | Mode (mode : Z).

Definition file_at (d : Disk) (p : str) : option File := d_names d !! p ≫= λ i, d_files d !! i.

Definition append (i : nat) (bytes : list Z) (d : Disk) : Disk :=
  with_files (alter (λ f, {| f_mode := f_mode f; f_bytes := f_bytes f ++ bytes |}) i (d_files d)) d.

(** [path.{n}]. *)
Definition numbered (p : str) (n : nat) : str := p ++ "."%rs ++ show_dec (Z.of_nat n).

Section writer.
Context (fails : nat → bool) (partial : nat → nat).

Definition op_fails (d : Disk) : bool := fails (d_ops d).

Definition metadata (p : str) (d : Disk) : stat * Disk :=
  (if op_fails d then StatFailed
   else match file_at d p with Some f => Mode (f_mode f) | None => NotFound end, tick d).

Definition exists_ (p : str) (d : Disk) : bool * Disk :=
  (negb (op_fails d) && bool_decide (is_Some (d_names d !! p)), tick d).

Definition remove_file (p : str) (d : Disk) : Disk :=
  if op_fails d then tick d else tick (with_names (delete p (d_names d)) d).

Definition rename (from to : str) (d : Disk) : bool * Disk :=
  match d_names d !! from with
  | Some i =>
      if op_fails d then (false, tick d)
      else (true, tick (with_names (<[to := i]> (delete from (d_names d))) d))
  | None => (false, tick d)
  end.

(** Append mode; a file that is created has mode 0600. *)
Definition open_append_0600 (p : str) (d : Disk) : option nat * Disk :=
  if op_fails d then (None, tick d)
  else match d_names d !! p with
       | Some i => (Some i, tick d)
       | None =>
           let i := fresh (dom (d_files d)) in
           (Some i, tick (with_names (<[p := i]> (d_names d))
                       (with_files (<[i := {| f_mode := 384; f_bytes := [] |}]> (d_files d)) d)))
       end.

(** A failed write may leave some of the bytes. *)
Definition write_all (i : nat) (bytes : list Z) (d : Disk) : bool * Disk :=
  if op_fails d then (false, tick (append i (take (partial (d_ops d)) bytes) d))
  else (true, tick (append i bytes d)).

Definition flush_ok (d : Disk) : bool * Disk := (negb (op_fails d), tick d).

(** ** The writer *)

Definition check_existing_permissions (p : str) (d : Disk) : bool * Disk :=
  let '(s, d) := metadata p d in
  (match s with
   | Mode mode => Z.land (Z.land mode 511) 63 =? 0
   | NotFound => true
   | StatFailed => false
   end, d).

Definition spawn (p : str) (max_file_bytes : Z) (max_files : nat) (d : Disk) : option Writer * Disk :=
  match check_existing_permissions p d with
  | (false, d) => (None, d)
  | (true, d) =>
      match open_append_0600 p d with
      | (None, d) => (None, d)
      | (Some i, d) =>
          let initial_size := if op_fails d then 0
                              else match d_files d !! i with
                                   | Some f => Z.of_nat (length (f_bytes f))
                                   | None => 0
                                   end in
          (Some {| path := p; max_file_bytes := max_file_bytes; max_files := max_files;
                   cur_size := initial_size; io_error_streak := 0; out := i;
                   metrics := {| written := 0; io_errors := 0; rotations := 0 |} |}, tick d)
      end
  end.

Definition set_active (i : nat) (w : Writer) : Writer :=
  {| path := path w; max_file_bytes := max_file_bytes w; max_files := max_files w;
     cur_size := 0; io_error_streak := io_error_streak w; out := i;
     metrics := {| written := written (metrics w); io_errors := io_errors (metrics w);
                   rotations := rotations (metrics w) + 1 |} |}.

Definition write_done (len : Z) (w : Writer) : Writer :=
  {| path := path w; max_file_bytes := max_file_bytes w; max_files := max_files w;
     cur_size := cur_size w + len; io_error_streak := 0; out := out w;
     metrics := {| written := written (metrics w) + 1; io_errors := io_errors (metrics w);
                   rotations := rotations (metrics w) |} |}.

Definition write_failed (w : Writer) : Writer :=
  {| path := path w; max_file_bytes := max_file_bytes w; max_files := max_files w;
     cur_size := cur_size w; io_error_streak := io_error_streak w + 1; out := out w;
     metrics := {| written := written (metrics w); io_errors := io_errors (metrics w) + 1;
                   rotations := rotations (metrics w) |} |}.

Definition flush_failed (w : Writer) : Writer :=
  {| path := path w; max_file_bytes := max_file_bytes w; max_files := max_files w;
     cur_size := cur_size w; io_error_streak := io_error_streak w; out := out w;
     metrics := {| written := written (metrics w); io_errors := io_errors (metrics w) + 1;
                   rotations := rotations (metrics w) |} |}.

(** One turn of the loop over the backups: [.n] becomes [.{n+1}] if it exists. *)
Definition shift_one (p : str) (d : Disk) (n : nat) : Disk :=
  let '(e, d) := exists_ (numbered p n) d in
  if e then (rename (numbered p n) (numbered p (n + 1)) d).2 else d.

Definition shift_backups (p : str) (max_files : nat) (d : Disk) : Disk :=
  foldl (shift_one p) d (rev (seq 1 (max_files - 1 - 1))).

Definition rotate (w : Writer) (d : Disk) : Writer * Disk :=
  match flush_ok d with
  | (false, d) => (w, d)
  | (true, d) =>
      let d := remove_file (numbered (path w) (max_files w - 1)) d in
      let d := shift_backups (path w) (max_files w) d in
      let '(moved, d) := if (2 <=? max_files w)%nat
                         then rename (path w) (numbered (path w) 1) d
                         else (true, remove_file (path w) d) in
      if moved then
        match open_append_0600 (path w) d with
        | (Some i, d) => (set_active i w, d)
        | (None, d) => (w, d)
        end
      else (w, d)
  end.

Definition write_bytes (bytes : list Z) (w : Writer) (d : Disk) : Writer * Disk :=
  let len := Z.of_nat (length bytes) in
  let '(w, d) := if (max_file_bytes w <? cur_size w + len) && (0 <? cur_size w)
                 then rotate w d else (w, d) in
  match write_all (out w) bytes d with
  | (true, d) => (write_done len w, d)
  | (false, d) => (write_failed w, d)
  end.

Definition entry_bytes (e : QueryLog.QueryLogEntry) : list Z :=
  as_bytes (QueryLog.to_json e ++ [10]).

Definition write_entry (e : QueryLog.QueryLogEntry) : Writer → Disk → Writer * Disk :=
  write_bytes (entry_bytes e).

Definition flush (w : Writer) (d : Disk) : Writer * Disk :=
  match flush_ok d with
  | (true, d) => (w, d)
  | (false, d) => (flush_failed w, d)
  end.

(** The entries arrive in batches; after each batch, and at the end, the file is flushed. *)
Definition write_batch (wd : Writer * Disk) (batch : list QueryLog.QueryLogEntry) : Writer * Disk :=
  let '(w, d) := foldl (λ wd e, write_entry e wd.1 wd.2) wd batch in flush w d.

Definition run (batches : list (list QueryLog.QueryLogEntry)) (w : Writer) (d : Disk) : Writer * Disk :=
  let '(w, d) := foldl write_batch (w, d) batches in flush w d.
End writer.

(** ** The log as a list of files

    The active file, then [path.1], [path.2], ...: what each holds, if it exists. *)

Abbreviation history := (list (option (list Z))).

Definition len (bytes : list Z) : Z := Z.of_nat (length bytes).

(** A line goes to the active file, or, when that is full, to a new one before it. *)
Definition log_line (cap : Z) (h : history) (line : list Z) : history :=
  match h with
  | Some active :: backups =>
      if (cap <? len active + len line) && (0 <? len active) then take (length h) (Some line :: h)
      else Some (active ++ line) :: backups
  | _ => h
  end.

Definition file_name (p : str) (n : nat) : str := match n with O => p | S _ => numbered p n end.

(** The names of a log lead to distinct files, which hold what [h] says. *)
Record represents (w : Writer) (d : Disk) (h : history) : Prop := {
  rep_len : length h = max_files w;
  rep_files n o : h !! n = Some o → f_bytes <$> file_at d (file_name (path w) n) = o;
  rep_inj n m i : (n < max_files w)%nat → (m < max_files w)%nat →
    d_names d !! file_name (path w) n = Some i → d_names d !! file_name (path w) m = Some i → n = m;
  rep_alloc n i : (n < max_files w)%nat → d_names d !! file_name (path w) n = Some i →
    is_Some (d_files d !! i);
  rep_out : d_names d !! path w = Some (out w);
  rep_size : ∃ active, h !! 0%nat = Some (Some active) ∧ cur_size w = len active;
}.

Lemma show_dec_inj n m : 0 <= n → 0 <= m → show_dec n = show_dec m → n = m.
Proof.
  intros Hn Hm E. assert (∀ k, 0 <= k → k < 2 ^ (1 + n + m) ∨ n + m < k) as Hb.
  { intros k Hk. destruct (Z.le_gt_cases k (n + m)) as [Hle|]; [left|by right].
    pose proof (Z.pow_gt_lin_r 2 (1 + n + m)). lia. }
  assert (Some n = Some m) as [= ->]; [|done].
  rewrite <- (parse_show_dec (1 + n + m) n), <- (parse_show_dec (1 + n + m) m), E; [done| |];
    (split; [done|]); [destruct (Hb m)|destruct (Hb n)]; lia.
Qed.

Lemma numbered_inj p n m : numbered p n = numbered p m → n = m.
Proof.
  unfold numbered. intros E%app_inv_head%app_inv_head%show_dec_inj; lia.
Qed.

Lemma numbered_neq p n : numbered p n ≠ p.
Proof.
  unfold numbered. intros E%(f_equal length). rewrite !length_app in E. cbn in E. lia.
Qed.

Lemma file_name_inj p n m : file_name p n = file_name p m → n = m.
Proof.
  destruct n, m; cbn; [done| | |apply numbered_inj]; intros E; exfalso; by eapply numbered_neq.
Qed.

Section reliable.
Context (partial : nat → nat).

(** Every operation succeeds. *)
Definition never : nat → bool := λ _, false.

Lemma shift_one_spec p n d :
  let d' := shift_one never p d (S n) in
  d_files d' = d_files d
  ∧ (d_names d !! file_name p (S (S n)) = None →
     d_names d' !! file_name p (S (S n)) = d_names d !! file_name p (S n)
     ∧ d_names d' !! file_name p (S n) = None)
  ∧ ∀ q, q ≠ file_name p (S n) → q ≠ file_name p (S (S n)) → d_names d' !! q = d_names d !! q.
Proof.
  cbv zeta. unfold shift_one, exists_, never. rewrite Nat.add_1_r. cbn [file_name].
  assert (numbered p (S n) ≠ numbered p (S (S n))) as Hne by (intros E%numbered_inj; lia).
  destruct (d_names d !! numbered p (S n)) as [i|] eqn:Hi.
  - rewrite bool_decide_true by done. cbn. unfold rename. cbn [tick d_names]. rewrite Hi. cbn.
    split; [done|]. split.
    + intros _. rewrite lookup_insert_eq, lookup_insert_ne, lookup_delete_eq; done.
    + intros q Hq Hq'. by rewrite lookup_insert_ne, lookup_delete_ne.
  - rewrite bool_decide_false by (by intros []). cbn. split; [done|]. split; [|done].
    intros ->. done.
Qed.

Lemma shift_backups_spec p m : ∀ d,
  d_names d !! file_name p (S m) = None →
  let d' := foldl (shift_one never p) d (rev (seq 1 m)) in
  d_files d' = d_files d
  ∧ d_names d' !! file_name p 1 = None
  ∧ (∀ k, (1 <= k <= m)%nat → d_names d' !! file_name p (S k) = d_names d !! file_name p k)
  ∧ ∀ q, (∀ k, (1 <= k <= S m)%nat → q ≠ file_name p k) → d_names d' !! q = d_names d !! q.
Proof.
  induction m as [|m IH]; intros d Hd; cbv zeta.
  { split; [done|]. split; [done|]. split; [lia|done]. }
  rewrite seq_S, rev_app_distr. cbn [rev app foldl]. replace (1 + m)%nat with (S m) by lia.
  destruct (shift_one_spec p m d) as (Hf1 & Hmove & Ho1).
  destruct (Hmove Hd) as [Hm1 Hm2]. set (d1 := shift_one never p d (S m)) in *.
  destruct (IH d1 Hm2) as (Hf & H1 & Hk & Ho). split; [congruence|]. split; [done|]. split.
  - intros k Hle. destruct (decide (k = S m)) as [->|Hn].
    + rewrite Ho, Hm1; [done|]. intros k' Hk' E%file_name_inj. lia.
    + rewrite Hk by lia. apply Ho1; intros E%file_name_inj; lia.
  - intros q Hq. rewrite Ho, Ho1; [done| | |]; try (apply Hq; lia). intros k Hk'. apply Hq. lia.
Qed.

(** The active file moved away, and every backup a place further; the oldest is gone. *)
Lemma rotate_away w d d1 :
  (0 < max_files w)%nat → d_names d !! path w = Some (out w) → d_files d1 = d_files d →
  d_names d1 = delete (numbered (path w) (max_files w - 1)) (d_names d) →
  let d2 := shift_backups never (path w) (max_files w) d1 in
  ∃ d3, (if (2 <=? max_files w)%nat
         then rename never (path w) (numbered (path w) 1) d2
         else (true, remove_file never (path w) d2)) = (true, d3)
    ∧ d_files d3 = d_files d ∧ d_names d3 !! path w = None
    ∧ ∀ k, (1 <= k < max_files w)%nat →
        d_names d3 !! file_name (path w) k = d_names d !! file_name (path w) (k - 1).
Proof.
  intros HN Hout Hf1 Hd1 d2. destruct (max_files w) as [|[|m]] eqn:EN; [lia| |].
  { exists (remove_file never (path w) d2). split; [done|]. split; [done|]. split; [|lia].
    cbn. by rewrite lookup_delete_eq. }
  replace (S (S m) - 1)%nat with (S m) in Hd1 by lia.
  unfold d2, shift_backups. replace (S (S m) - 1 - 1)%nat with m by lia.
  destruct (shift_backups_spec (path w) m d1) as (Hf & H1 & Hk & Ho).
  { by rewrite Hd1, lookup_delete_eq. }
  set (d2' := foldl _ d1 _) in *.
  assert (∀ k, (k < S m)%nat → d_names d1 !! file_name (path w) k = d_names d !! file_name (path w) k)
    as Hd1k.
  { intros k Hk'. rewrite Hd1, lookup_delete_ne; [done|].
    intros E. apply (file_name_inj _ (S m) k) in E. lia. }
  assert (d_names d2' !! path w = Some (out w)) as Hout2.
  { rewrite Ho; [by rewrite <- Hout; apply (Hd1k 0%nat); lia|].
    intros k Hk' E. apply (file_name_inj _ 0%nat k) in E. lia. }
  cbn [Nat.leb]. unfold rename. rewrite Hout2. cbn [never op_fails]. eexists. split; [done|]. cbn.
  split; [congruence|]. split.
  - rewrite lookup_insert_ne by apply numbered_neq. by rewrite lookup_delete_eq.
  - intros k Hk'. destruct (decide (k = 1%nat)) as [->|Hn]; [cbn; by rewrite lookup_insert_eq, Hout|].
    rewrite lookup_insert_ne, lookup_delete_ne.
    + destruct k as [|k]; [lia|]. rewrite Hk by lia. replace (S k - 1)%nat with k by lia. apply Hd1k. lia.
    + intros E. apply (file_name_inj _ 0%nat k) in E. lia.
    + intros E. apply (file_name_inj _ 1%nat k) in E. lia.
Qed.

(** A new active file, every other one a place further. *)
Lemma rotate_names w d :
  (0 < max_files w)%nat → d_names d !! path w = Some (out w) →
  ∃ i d', rotate never w d = (set_active i w, d')
    ∧ d_files d !! i = None
    ∧ d_files d' = <[i := {| f_mode := 384; f_bytes := [] |}]> (d_files d)
    ∧ d_names d' !! path w = Some i
    ∧ ∀ k, (1 <= k < max_files w)%nat →
        d_names d' !! file_name (path w) k = d_names d !! file_name (path w) (k - 1).
Proof.
  intros HN Hout. unfold rotate. cbn [never negb flush_ok op_fails].
  set (d1 := remove_file never (numbered (path w) (max_files w - 1)) (tick d)).
  destruct (rotate_away w d d1 HN Hout eq_refl eq_refl) as (d3 & -> & Hf3 & Hp3 & Hk3).
  unfold open_append_0600. cbn [never op_fails]. rewrite Hp3, Hf3.
  set (i := fresh (dom (d_files d))). exists i. eexists. split; [done|]. cbn.
  split; [apply not_elem_of_dom, is_fresh|]. split; [done|].
  split; [by rewrite lookup_insert_eq|]. intros k Hk. rewrite lookup_insert_ne; [by apply Hk3|].
  intros E. apply (file_name_inj _ 0%nat k) in E. lia.
Qed.

Lemma rotate_spec w d h :
  (0 < max_files w)%nat → represents w d h →
  let '(w', d') := rotate never w d in
  represents w' d' (take (max_files w) (Some [] :: h))
  ∧ path w' = path w ∧ max_files w' = max_files w ∧ max_file_bytes w' = max_file_bytes w.
Proof.
  intros HN [Hlen Hfiles Hinj Halloc Hout _].
  destruct (rotate_names w d HN Hout) as (i & d' & -> & Hi & Hf & Hp & Hk).
  split; [|done].
  assert (∀ k i', (k < max_files w)%nat → d_names d' !! file_name (path w) k = Some i' →
    (k = 0%nat ∧ i' = i) ∨ (1 <= k ∧ i' ≠ i)%nat
      ∧ d_names d !! file_name (path w) (k - 1) = Some i' ∧ is_Some (d_files d !! i')) as Hcases.
  { intros [|k] i' Hlt Hn; [left; cbn in Hn; by simplify_eq|right].
    rewrite Hk in Hn by lia. pose proof (Halloc (S k - 1)%nat i' ltac:(lia) Hn) as Ha.
    split; [|done]. split; [lia|]. intros ->. rewrite Hi in Ha. by destruct Ha. }
  constructor; cbn [set_active path max_files out cur_size].
  - rewrite length_take. cbn. lia.
  - intros n o. destruct (decide (n < max_files w)%nat) as [Hlt|]; [|rewrite lookup_take_ge; [done|lia]].
    rewrite lookup_take_lt by done. destruct n as [|n]; cbn [lookup list_lookup].
    + intros [= <-]. unfold file_at. cbn [file_name]. rewrite Hp. cbn. by rewrite Hf, lookup_insert_eq.
    + intros Ho. unfold file_at. rewrite Hk by lia. replace (S n - 1)%nat with n by lia.
      rewrite <- (Hfiles n o Ho). unfold file_at.
      destruct (d_names d !! file_name (path w) n) as [i'|] eqn:Hn; [|done]. cbn.
      destruct (Halloc n i' ltac:(lia) Hn) as [f' Hf']. rewrite Hf, lookup_insert_ne; [done|].
      intros ->. by rewrite Hi in Hf'.
  - intros n m i' Hn Hm Hni Hmi.
    destruct (Hcases n i' Hn Hni) as [[-> ->]|([? ?] & Hn' & _)],
      (Hcases m _ Hm Hmi) as [[-> Hi']|([? ?] & Hm' & _)]; [done|congruence|congruence|].
    assert (n - 1 = m - 1)%nat by (eapply Hinj; [| |exact Hn'|exact Hm']; lia). lia.
  - intros n i' Hn Hni. rewrite Hf. destruct (Hcases n i' Hn Hni) as [[-> ->]|([? ?] & _ & Ha)].
    + rewrite lookup_insert_eq. by eexists.
    + by rewrite lookup_insert_ne.
  - done.
  - exists []. split; [|done]. by destruct (max_files w); [lia|].
Qed.

Lemma append_spec w d h active backups bytes :
  represents w d h → h = Some active :: backups →
  represents (write_done (len bytes) w) (tick (append (out w) bytes d)) (Some (active ++ bytes) :: backups).
Proof.
  intros [Hlen Hfiles Hinj Halloc Hout (a & Ha & Hsize)] ->. injection Ha as <-.
  assert (0 < max_files w)%nat as HN by (rewrite <- Hlen; cbn; lia).
  constructor; cbn [write_done path max_files out cur_size tick append with_files d_names d_files].
  - done.
  - intros n o Ho. unfold file_at. cbn [d_names d_files tick append with_files].
    destruct n as [|n]; cbn [lookup list_lookup] in Ho.
    + injection Ho as <-. specialize (Hfiles 0%nat _ eq_refl). unfold file_at in Hfiles.
      cbn [file_name] in *. rewrite Hout in *. cbn in *. rewrite lookup_alter_eq.
      destruct (d_files d !! out w); cbn in *; by simplify_eq.
    + specialize (Hfiles (S n) o Ho). unfold file_at in Hfiles.
      destruct (d_names d !! file_name (path w) (S n)) as [i|] eqn:Hn; [|done]. cbn in *.
      apply lookup_lt_Some in Ho. rewrite lookup_alter_ne; [done|]. intros <-.
      cbn in Hlen. enough (0 = S n)%nat by lia. eapply Hinj; [| |exact Hout|exact Hn]; lia.
  - done.
  - intros n i Hn Hni. rewrite lookup_alter_is_Some. by eapply Halloc.
  - done.
  - exists (active ++ bytes). split; [done|]. rewrite Hsize. unfold len. rewrite length_app. lia.
Qed.

Lemma write_bytes_spec w d h bytes :
  (0 < max_files w)%nat → represents w d h →
  let '(w', d') := write_bytes never partial bytes w d in
  represents w' d' (log_line (max_file_bytes w) h bytes)
  ∧ path w' = path w ∧ max_files w' = max_files w ∧ max_file_bytes w' = max_file_bytes w.
Proof.
  intros HN Hr. destruct (rep_size w d h Hr) as (active & Ha & Hsize).
  destruct h as [|o backups] eqn:Hh; [done|]. injection Ha as ->. rewrite <- Hh in *.
  unfold write_bytes. rewrite Hsize. fold (len bytes). unfold log_line. rewrite Hh, <- Hh.
  destruct ((max_file_bytes w <? len active + len bytes) && (0 <? len active)) eqn:Hfull.
  - pose proof (rotate_spec w d h HN Hr) as Hrot. destruct (rotate never w d) as [w1 d1].
    destruct Hrot as (Hr1 & Hp & Hm & Hb). unfold write_all, never, op_fails.
    split; [|by rewrite <- Hp, <- Hm, <- Hb].
    rewrite (rep_len _ _ _ Hr). destruct (max_files w) as [|N] eqn:EN; [lia|]. cbn [take] in *.
    eapply (append_spec w1 d1 _ [] _ bytes Hr1). done.
  - unfold write_all, never, op_fails. split; [|done]. by eapply append_spec.
Qed.

Lemma represents_tick w d h : represents w d h → represents w (tick d) h.
Proof. intros []. by constructor. Qed.

Lemma run_spec w d h batches :
  (0 < max_files w)%nat → represents w d h →
  let '(w', d') := run never partial batches w d in
  represents w' d' (foldl (log_line (max_file_bytes w)) h (entry_bytes <$> concat batches))
  ∧ path w' = path w ∧ max_files w' = max_files w.
Proof.
  intros HN Hr. unfold run.
  set (good h wd := represents wd.1 wd.2 h ∧ path wd.1 = path w ∧ max_files wd.1 = max_files w
    ∧ max_file_bytes wd.1 = max_file_bytes w).
  assert (∀ es wd h, good h wd →
    good (foldl (log_line (max_file_bytes w)) h (entry_bytes <$> es))
      (foldl (λ wd e, write_entry never partial e wd.1 wd.2) wd es)) as Hes.
  { induction es as [|e es IH]; intros [w1 d1] h1 Hg; [done|]. cbn [foldl fmap list_fmap]. apply IH.
    destruct Hg as (Hr1 & Hp & Hm & Hb). cbn [fst snd] in *. unfold write_entry.
    pose proof (write_bytes_spec w1 d1 h1 (entry_bytes e) ltac:(lia) Hr1) as Hw.
    destruct (write_bytes _ _ _ _ _) as [w2 d2]. rewrite Hb in Hw.
    destruct Hw as (? & ? & ? & ?). unfold good. cbn [fst snd]. split_and!; congruence. }
  assert (∀ bs wd h, good h wd →
    good (foldl (log_line (max_file_bytes w)) h (entry_bytes <$> concat bs))
      (foldl (write_batch never partial) wd bs)) as Hbs.
  { induction bs as [|b bs IH]; intros wd h1 Hg; [done|]. cbn [foldl concat].
    rewrite fmap_app, foldl_app. apply IH. unfold write_batch. specialize (Hes b wd h1 Hg).
    destruct (foldl _ wd b) as [w2 d2]. destruct Hes as (? & ?). cbn. split; [|done].
    by apply represents_tick. }
  specialize (Hbs batches (w, d) h ltac:(done)). destruct (foldl _ (w, d) batches) as [w2 d2].
  destruct Hbs as (? & ? & ? & ?). cbn. split; [|done]. by apply represents_tick.
Qed.

(** A disk on which the names of a log lead to files, and to distinct ones. *)
Definition disk_ok (p : str) (n : nat) (d : Disk) : Prop :=
  (∀ k i, (k < n)%nat → d_names d !! file_name p k = Some i → is_Some (d_files d !! i))
  ∧ ∀ k l i, (k < n)%nat → (l < n)%nat →
      d_names d !! file_name p k = Some i → d_names d !! file_name p l = Some i → k = l.

Definition on_disk (p : str) (d : Disk) (k : nat) : option (list Z) :=
  f_bytes <$> file_at d (file_name p k).

(** The log as it is opened: the active file is created if need be. *)
Definition opened (p : str) (n : nat) (d : Disk) : history :=
  Some (default [] (on_disk p d 0)) :: (on_disk p d <$> seq 1 (n - 1)).

Lemma opened_lookup p n d k o :
  (0 < n)%nat → opened p n d !! k = Some o →
  (k < n)%nat ∧ o = if decide (k = 0%nat) then Some (default [] (on_disk p d 0)) else on_disk p d k.
Proof.
  intros Hn. destruct k as [|k]; [intros [= <-]; by split|].
  change (opened p n d !! S k) with ((on_disk p d <$> seq 1 (n - 1)) !! k).
  rewrite list_lookup_fmap. intros (k' & Hk & ->)%fmap_Some. apply lookup_seq in Hk as [-> ?].
  split; [lia|done].
Qed.

Lemma spawn_spec p cap n d w d1 :
  (0 < n)%nat → disk_ok p n d → spawn never p cap n d = (Some w, d1) →
  represents w d1 (opened p n d) ∧ path w = p ∧ max_files w = n ∧ max_file_bytes w = cap.
Proof.
  intros Hn [Halloc Hinj]. unfold spawn, check_existing_permissions. cbn [metadata never op_fails].
  destruct (match _ with NotFound => _ | StatFailed => _ | Mode _ => _ end); [|done].
  unfold open_append_0600. cbn [never op_fails tick d_names d_files d_ops].
  pose proof (λ k o, opened_lookup p n d k o Hn) as Hop.
  assert (length (opened p n d) = n) as Hlen.
  { unfold opened. cbn. rewrite length_fmap, length_seq. lia. }
  destruct (d_names d !! p) as [i|] eqn:Hi.
  - intros [= <- <-]. split; [|done]. destruct (Halloc 0%nat i Hn Hi) as [f Hf].
    constructor; cbn [path max_files out cur_size tick d_names d_files];
      [done| |by eauto|by eauto|done|].
    + intros k o [Hk ->]%Hop. unfold on_disk, file_at. cbn [tick d_names d_files].
      case_decide as Hk0; [|done]. subst k. cbn [file_name]. by rewrite Hi; cbn; rewrite Hf.
    + eexists. split; [done|]. unfold on_disk, file_at. cbn [file_name]. rewrite Hi. cbn. by rewrite Hf.
  - set (i := fresh _). intros [= <- <-]. split; [|done].
    assert (d_files d !! i = None) as Hfresh by apply not_elem_of_dom, is_fresh.
    assert (∀ k i', (k < n)%nat → <[p:=i]> (d_names d) !! file_name p k = Some i' →
      (k = 0%nat ∧ i' = i) ∨ (k ≠ 0%nat ∧ i' ≠ i ∧ d_names d !! file_name p k = Some i'
        ∧ is_Some (d_files d !! i'))) as Hcases.
    { intros [|k] i' Hk; [cbn; rewrite lookup_insert_eq; intros [= <-]; by left|right].
      rewrite lookup_insert_ne in H by (intros E; by apply (file_name_inj _ 0%nat (S k)) in E).
      pose proof (Halloc (S k) i' Hk H) as Ha. split_and!; try done. intros ->. rewrite Hfresh in Ha.
      by destruct Ha. }
    constructor; cbn [path max_files out cur_size tick with_names with_files d_names d_files]; [done| | | | |].
    + intros k o [Hk ->]%Hop. unfold on_disk, file_at. cbn [tick with_names with_files d_names d_files].
      case_decide as Hk0; [subst k; cbn [file_name]; rewrite Hi; cbn|].
      * rewrite lookup_insert_eq. cbn. by rewrite lookup_insert_eq.
      * rewrite lookup_insert_ne by (intros E; by apply (file_name_inj _ 0%nat k) in E).
        destruct (d_names d !! file_name p k) as [i'|] eqn:Hi'; [|done]. cbn.
        rewrite lookup_insert_ne; [done|]. intros ->. destruct (Halloc k _ Hk Hi') as [? ?]. congruence.
    + intros k l i' Hk Hl Hki Hli. destruct (Hcases k i' Hk Hki) as [[-> ->]|(? & ? & ? & _)],
        (Hcases l _ Hl Hli) as [[-> ?]|(? & ? & ? & _)]; [done|done|done|]. by eapply Hinj.
    + intros k i' Hk Hki. destruct (Hcases k i' Hk Hki) as [[-> ->]|(? & ? & ? & ?)].
      * rewrite lookup_insert_eq. by eexists.
      * by rewrite lookup_insert_ne.
    + by rewrite lookup_insert_eq.
    + eexists. split; [done|]. unfold on_disk, file_at. cbn [file_name]. rewrite Hi. cbn.
      by rewrite lookup_insert_eq.
Qed.
End reliable.

(** ** The abstract log *)

(** All the text of a log, the oldest first. *)
Definition text (h : history) : list Z := concat (default [] <$> rev h).

Lemma log_line_length cap h line : length (log_line cap h line) = length h.
Proof.
  unfold log_line. destruct h as [|[active|] backups]; [done| |done].
  case_match; [|done]. rewrite length_take. cbn. lia.
Qed.

Lemma log_line_bounded cap bound h line :
  cap <= bound → len line <= bound → Forall (λ o, len (default [] o) <= bound) h →
  Forall (λ o, len (default [] o) <= bound) (log_line cap h line).
Proof.
  intros Hc Hl Hh. unfold log_line. destruct h as [|[active|] backups]; [done| |done].
  apply Forall_cons_iff in Hh as [Ha Hb].
  destruct ((cap <? _) && _) eqn:Hfull.
  - apply Forall_take. by repeat constructor.
  - constructor; [|done]. cbn in *. unfold len in *. rewrite length_app, Nat2Z.inj_add.
    apply andb_false_iff in Hfull. rewrite !Z.ltb_ge in Hfull. lia.
Qed.

Lemma text_take n h : text (take n h) `suffix_of` text h.
Proof.
  unfold text. rewrite <- (take_drop n h) at 2. rewrite rev_app_distr, fmap_app, concat_app.
  by eexists.
Qed.

Lemma text_cons (a : list Z) h : text (Some a :: h) = text h ++ a.
Proof. unfold text. cbn. by rewrite fmap_app, concat_app; cbn; rewrite app_nil_r. Qed.

Lemma log_line_text cap h line :
  head h ≠ None → head h ≠ Some None → text (log_line cap h line) `suffix_of` text h ++ line
  ∧ ∃ active, head (log_line cap h line) = Some (Some active).
Proof.
  intros Hh Hh'. unfold log_line. destruct h as [|[active|] backups]; [done| |done].
  case_match.
  - split; [|by eexists]. etrans; [apply text_take|]. by rewrite text_cons.
  - split; [|by eexists]. by rewrite !text_cons, app_assoc.
Qed.

Lemma log_lines_text cap h lines :
  (∃ active, head h = Some (Some active)) →
  text (foldl (log_line cap) h lines) `suffix_of` text h ++ concat lines.
Proof.
  intros Hh. assert (∃ active, head (foldl (log_line cap) h lines) = Some (Some active)) as Hd.
  { induction lines as [|line lines IH] using rev_ind; [done|]. rewrite foldl_app. cbn.
    destruct IH as [a Ha]. apply log_line_text; by rewrite Ha. }
  clear Hd. induction lines as [|line lines IH] using rev_ind; [by rewrite app_nil_r|].
  rewrite foldl_app, concat_app, app_assoc. cbn. rewrite app_nil_r.
  assert (∃ active, head (foldl (log_line cap) h lines) = Some (Some active)) as [a Ha].
  { clear IH. induction lines as [|l lines IH] using rev_ind; [done|]. rewrite foldl_app. cbn.
    destruct IH as [a Ha]. apply log_line_text; by rewrite Ha. }
  etrans; [apply log_line_text; by rewrite Ha|].
  destruct IH as [k ->]. exists k. by rewrite app_assoc.
Qed.

Lemma log_lines_bounded cap bound h lines :
  cap <= bound → Forall (λ l, len l <= bound) lines →
  Forall (λ o, len (default [] o) <= bound) h →
  Forall (λ o, len (default [] o) <= bound) (foldl (log_line cap) h lines)
  ∧ length (foldl (log_line cap) h lines) = length h.
Proof.
  intros Hc Hl Hh. induction lines as [|line lines IH] using rev_ind; [done|].
  apply Forall_app in Hl as [Hl Hline]. apply Forall_cons_iff in Hline as [Hline _].
  destruct (IH Hl) as [Hb Hlen]. rewrite foldl_app. cbn. rewrite log_line_length.
  split; [by apply log_line_bounded|done].
Qed.

(** ** Whatever fails *)

Section faulty.
Context (fails : nat → bool) (partial : nat → nat).
Context (p : str) (n : nat) (d0 : Disk) (i0 : nat).

(** The names of a log of [n] files; with one file, the rotation also deletes [path.0]. *)
Definition own_name (p : str) (n : nat) (q : str) : Prop :=
  q = p ∨ ∃ k, (k < n)%nat ∧ q = numbered p k.

(** Nothing but the names of the log, the active file and new files has changed. *)
Record kept (d : Disk) : Prop := {
  kept_names q : ¬ own_name p n q → d_names d !! q = d_names d0 !! q;
  kept_files i f : d_files d0 !! i = Some f → i ≠ i0 → d_files d !! i = Some f;
  kept_alloc i : is_Some (d_files d0 !! i) → is_Some (d_files d !! i);
}.

Definition new_or (i : nat) : Prop := i = i0 ∨ d_files d0 !! i = None.

Lemma kept_tick d : kept d → kept (tick d).
Proof. intros []. by constructor. Qed.

Lemma kept_remove q d : own_name p n q → kept d → kept (remove_file fails q d).
Proof.
  intros Hq [Hn Hf Ha]. unfold remove_file. destruct (op_fails _ _); [by constructor|].
  constructor; [|done|done]. intros q' Hq'. cbn. rewrite lookup_delete_ne; [by apply Hn|].
  by intros <-.
Qed.

Lemma kept_rename from to d : own_name p n from → own_name p n to → kept d → kept (rename fails from to d).2.
Proof.
  intros Hq Hq' [Hn Hf Ha]. unfold rename. destruct (d_names d !! from); [|by constructor].
  destruct (op_fails _ _); [by constructor|]. constructor; [|done|done]. intros q Hno. cbn.
  rewrite lookup_insert_ne, lookup_delete_ne; [by apply Hn| |]; by intros <-.
Qed.

Lemma kept_append i bytes d : new_or i → kept d → kept (append i bytes d).
Proof.
  intros Hi [Hn Hf Ha]. constructor; [done| |]; cbn.
  - intros j f Hj Hne. rewrite lookup_alter_ne; [by apply Hf|]. intros <-. destruct Hi; congruence.
  - intros j Hj. rewrite lookup_alter_is_Some. by apply Ha.
Qed.

Lemma kept_open d : kept d →
  let '(o, d') := open_append_0600 fails p d in
  kept d' ∧ match o with
            | Some i => d_names d' !! p = Some i
                ∧ (d_names d !! p = Some i ∧ d_files d' = d_files d
                   ∨ d_files d0 !! i = None ∧ ∀ f, d_files d' !! i = Some f → Z.land (f_mode f) 63 = 0)
            | None => d_names d' = d_names d ∧ d_files d' = d_files d
            end.
Proof.
  intros [Hn Hf Ha]. unfold open_append_0600. destruct (op_fails _ _); [by repeat split|].
  destruct (d_names d !! p) as [i|] eqn:Hp; [split; [by constructor|]; split; [done|by left]|].
  set (i := fresh _). assert (d_files d !! i = None) as Hi by apply not_elem_of_dom, is_fresh.
  assert (d_files d0 !! i = None) as Hi0.
  { apply eq_None_not_Some. intros [? ?]%Ha. congruence. }
  split; [constructor; cbn|split; [cbn; by rewrite lookup_insert_eq|right; split; [done|]]].
  - intros q Hq. rewrite lookup_insert_ne; [by apply Hn|]. intros <-. apply Hq. by left.
  - intros j f Hj Hne. rewrite lookup_insert_ne; [by apply Hf|]. congruence.
  - intros j Hj. destruct (decide (i = j)) as [<-|]; [by rewrite lookup_insert_eq|].
    rewrite lookup_insert_ne by done. by apply Ha.
  - cbn. intros f. rewrite lookup_insert_eq. by intros [= <-].
Qed.

(** The writer writes to a private file, which it opened or created. *)
Record private (w : Writer) (d : Disk) : Prop := {
  pr_kept : kept d;
  pr_path : path w = p ∧ max_files w = n;
  pr_out : new_or (out w);
  pr_mode f : d_files d !! out w = Some f → Z.land (f_mode f) 63 = 0;
  pr_name : d_names d !! p = Some (out w) ∨ d_names d !! p = None;
}.

Lemma shift_one_kept k d :
  (S k < n)%nat → kept d →
  let d' := shift_one fails p d k in
  kept d' ∧ d_files d' = d_files d ∧ d_names d' !! p = d_names d !! p.
Proof.
  intros Hk Hd. cbv zeta. unfold shift_one, exists_. destruct (negb _ && _); [|by repeat split; destruct Hd].
  split; [|].
  - apply kept_rename; [right; exists k; split; [lia|done]|right; exists (k + 1)%nat; split; [lia|done]|].
    by apply kept_tick.
  - unfold rename. cbn [tick d_names]. destruct (d_names d !! _); [|done].
    destruct (op_fails _ _); [done|]. cbn. split; [done|].
    by rewrite lookup_insert_ne, lookup_delete_ne by apply numbered_neq.
Qed.

Lemma shift_backups_kept d :
  kept d →
  let d' := shift_backups fails p n d in
  kept d' ∧ d_files d' = d_files d ∧ d_names d' !! p = d_names d !! p.
Proof.
  intros Hd. cbv zeta. unfold shift_backups.
  assert (∀ ks d, Forall (λ k, (S k < n)%nat) ks → kept d →
    let d' := foldl (shift_one fails p) d ks in
    kept d' ∧ d_files d' = d_files d ∧ d_names d' !! p = d_names d !! p) as Hks.
  { induction ks as [|k ks IH]; intros d1 Hks Hd1; [done|]. apply Forall_cons_iff in Hks as [Hk Hks].
    destruct (shift_one_kept k d1 Hk Hd1) as (Hk1 & Hf1 & Hn1).
    destruct (IH _ Hks Hk1) as (? & Hf2 & Hn2). cbn [foldl].
    split; [done|]. split; congruence. }
  apply Hks; [|done]. apply list.Forall_forall. intros k Hk%list_elem_of_In%in_rev%in_seq. lia.
Qed.

Lemma rotate_private w d :
  (0 < n)%nat → private w d → let '(w', d') := rotate fails w d in private w' d'.
Proof.
  intros Hn [Hk [Hp Hm] Ho Hmode Hname]. unfold rotate, flush_ok.
  destruct (negb _); [|constructor; try done; by apply kept_tick]. rewrite Hp, Hm.
  set (d1 := remove_file fails (numbered p (n - 1)) (tick d)).
  assert (kept d1 ∧ d_files d1 = d_files d ∧ d_names d1 !! p = d_names d !! p) as (Hk1 & Hf1 & Hn1).
  { split; [apply kept_remove; [right; exists (n - 1)%nat; split; [lia|done]|by apply kept_tick]|].
    unfold d1, remove_file. destruct (op_fails _ _); [done|]. cbn. split; [done|].
    by rewrite lookup_delete_ne by apply numbered_neq. }
  destruct (shift_backups_kept d1 Hk1) as (Hk2 & Hf2 & Hn2).
  set (d2 := shift_backups fails p n d1) in *.
  destruct (if (2 <=? n)%nat then _ else _) as [moved d3] eqn:E3.
  assert (kept d3 ∧ d_files d3 = d_files d ∧ (d_names d3 !! p = Some (out w) ∨ d_names d3 !! p = None))
    as (Hk3 & Hf3 & Hn3).
  { rewrite <- Hn1, <- Hn2 in Hname. rewrite <- Hf1, <- Hf2.
    destruct (Nat.leb_spec 2 n) as [H2|H2].
    - assert (d3 = (rename fails p (numbered p 1) d2).2) as -> by by rewrite E3.
      split; [apply kept_rename; [by left|right; exists 1%nat; split; [lia|done]|done]|].
      unfold rename. destruct (d_names d2 !! p) eqn:Hp2; [|split; [done|by right]].
      destruct (op_fails _ _); [split; [done|by left; cbn; rewrite Hp2; destruct Hname]|]. cbn. split; [done|]. right.
      rewrite lookup_insert_ne by apply numbered_neq. by rewrite lookup_delete_eq.
    - injection E3 as _ <-. split; [apply kept_remove; [by left|done]|].
      unfold remove_file. destruct (op_fails _ _); [by split|]. cbn. split; [done|]. right.
      by rewrite lookup_delete_eq. }
  destruct moved; [|by constructor; try done; rewrite Hf3].
  pose proof (kept_open d3 Hk3) as Hopen. destruct (open_append_0600 fails p d3) as [[i|] d4].
  - destruct Hopen as (Hk4 & Hn4 & Hcase). constructor; cbn [set_active path max_files out]; try done.
    + destruct Hcase as [[Hi _]|[? _]]; [|by right]. destruct Hn3 as [Hn3|Hn3]; congruence.
    + destruct Hcase as [[Hi Hf4]|[_ ?]]; [|done]. rewrite Hf4, Hf3.
      destruct Hn3 as [Hn3|Hn3]; [|congruence]. rewrite Hi in Hn3. injection Hn3 as ->. done.
    + by left.
  - destruct Hopen as (Hk4 & Hn4 & Hf4). constructor; try done; [by rewrite Hf4, Hf3|by rewrite Hn4].
Qed.

Lemma private_tick w d : private w d → private w (tick d).
Proof. intros []. constructor; try done. by apply kept_tick. Qed.

Lemma private_append w w' bytes d :
  path w' = path w → max_files w' = max_files w → out w' = out w →
  private w d → private w' (tick (append (out w) bytes d)).
Proof.
  intros Hp Hm Ho [Hk Hpm Hout Hmode Hname].
  constructor; rewrite ?Hp, ?Hm, ?Ho; [by apply kept_tick, kept_append|done|done| |done].
  intros f. cbn. rewrite lookup_alter_eq. intros (f' & Hf' & ->)%fmap_Some. exact (Hmode f' Hf').
Qed.

Lemma write_bytes_private bytes w d :
  (0 < n)%nat → private w d → let '(w', d') := write_bytes fails partial bytes w d in private w' d'.
Proof.
  intros Hn Hpr. unfold write_bytes. destruct (if _ && _ then _ else _) as [w1 d1] eqn:E1.
  assert (private w1 d1) as Hpr1.
  { destruct (_ && _); [|by injection E1 as <- <-].
    pose proof (rotate_private w d Hn Hpr) as Hr. by rewrite E1 in Hr. }
  unfold write_all. destruct (op_fails fails d1); by apply private_append.
Qed.

Lemma run_private batches w d :
  (0 < n)%nat → private w d → let '(w', d') := run fails partial batches w d in private w' d'.
Proof.
  intros Hn. unfold run.
  assert (∀ w d, private w d → let '(w', d') := flush fails w d in private w' d') as Hflush.
  { intros w1 d1 Hp. unfold flush, flush_ok. destruct (negb _); apply private_tick; [done|].
    by destruct Hp. }
  assert (∀ es wd, private wd.1 wd.2 →
    let wd' := foldl (λ wd e, write_entry fails partial e wd.1 wd.2) wd es in
    private wd'.1 wd'.2) as Hes.
  { induction es as [|e es IH]; intros wd Hp; [done|]. cbn [foldl]. apply IH.
    pose proof (write_bytes_private (entry_bytes e) wd.1 wd.2 Hn Hp) as Hw.
    unfold write_entry. by destruct (write_bytes _ _ _ _ _). }
  assert (∀ bs wd, private wd.1 wd.2 →
    let wd' := foldl (write_batch fails partial) wd bs in private wd'.1 wd'.2) as Hbs.
  { induction bs as [|b bs IH]; intros wd Hp; [done|]. cbn [foldl]. apply IH.
    unfold write_batch. specialize (Hes b wd Hp). cbv zeta in Hes.
    destruct (foldl _ wd b) as [w2 d2]. pose proof (Hflush w2 d2 Hes) as Hf.
    by destruct (flush fails w2 d2). }
  intros Hp. specialize (Hbs batches (w, d) Hp). cbv zeta in Hbs.
  destruct (foldl _ (w, d) batches) as [w2 d2]. by apply Hflush.
Qed.
End faulty.

Lemma private_mode m : (Z.land (Z.land m 511) 63 =? 0) = true → Z.land m 63 = 0.
Proof. rewrite Z.eqb_eq, <- Z.land_assoc. by change (Z.land 511 63) with 63. Qed.

Lemma spawn_private fails p cap n d w d1 :
  spawn fails p cap n d = (Some w, d1) → private p n d (out w) w d1.
Proof.
  unfold spawn, check_existing_permissions, metadata. destruct (op_fails fails d); [done|].
  destruct (match match _ with Some _ => _ | None => _ end with NotFound => _ | StatFailed => _ | Mode _ => _ end)
    eqn:Hperm; [|done].
  destruct (open_append_0600 fails p (tick d)) as [[i|] d2] eqn:Eo; [|done].
  intros [= <- <-]. apply private_tick. cbn [out].
  assert (kept p n d i (tick d)) as Hk by (constructor; done).
  pose proof (kept_open fails p n d i (tick d) Hk) as Ho. rewrite Eo in Ho.
  destruct Ho as (Hk2 & Hn2 & Hcase).
  constructor; cbn [path max_files out]; [done|done|by left| |by left].
  destruct Hcase as [[Hi Hf]|[_ ?]]; [|done]. intros f Hfi. rewrite Hf in Hfi.
  cbn [tick d_names d_files] in Hi, Hfi. unfold file_at in Hperm. rewrite Hi in Hperm. cbn in Hperm.
  rewrite Hfi in Hperm. by apply private_mode.
Qed.

(** ** Properties *)

(** C30. On a disk that does not fail, the writer refines the abstract rotating log: after any
    batches, each of its files holds what that log says, the active one first. *)
Theorem writer_refines_log (partial : nat → nat) (p : str) (cap : Z) (n : nat) (d d1 : Disk)
    (w : Writer) (batches : list (list QueryLog.QueryLogEntry)) :
  (0 < n)%nat → disk_ok p n d → spawn never p cap n d = (Some w, d1) →
  let '(w', d') := run never partial batches w d1 in
  let h := foldl (log_line cap) (opened p n d) (entry_bytes <$> concat batches) in
  length h = n ∧ ∀ k o, h !! k = Some o → on_disk p d' k = o.
Proof.
  intros Hn Hok Hs. destruct (spawn_spec p cap n d w d1 Hn Hok Hs) as (Hr & Hp & Hm & Hb).
  pose proof (run_spec partial w d1 _ batches ltac:(by rewrite Hm) Hr) as Hrun.
  destruct (run _ _ batches w d1) as [w' d']. rewrite Hb in Hrun. destruct Hrun as (Hr' & Hp' & Hm').
  cbn zeta. split; [by rewrite (rep_len _ _ _ Hr'), Hm'|]. intros k o Ho. unfold on_disk.
  rewrite <- Hp, <- Hp'. by apply (rep_files _ _ _ Hr').
Qed.

(** Its footprint is bounded and it loses only the oldest lines: each of the files stays
    within the cap, or the longest line if that is longer, and their texts, the oldest
    first, are the end of what was there and was written. *)
Theorem disk_log_bounded (partial : nat → nat) (p : str) (cap bound : Z) (n : nat) (d d1 : Disk)
    (w : Writer) (batches : list (list QueryLog.QueryLogEntry)) :
  (0 < n)%nat → disk_ok p n d → spawn never p cap n d = (Some w, d1) →
  cap <= bound → Forall (λ e, len (entry_bytes e) <= bound) (concat batches) →
  Forall (λ o, len (default [] o) <= bound) (opened p n d) →
  let '(w', d') := run never partial batches w d1 in
  let texts := on_disk p d' <$> seq 0 n in
  Forall (λ o, len (default [] o) <= bound) texts
  ∧ text texts `suffix_of` text (opened p n d) ++ concat (entry_bytes <$> concat batches).
Proof.
  intros Hn Hok Hs Hc He Ho. destruct (spawn_spec p cap n d w d1 Hn Hok Hs) as (Hr & Hp & Hm & Hb).
  pose proof (run_spec partial w d1 _ batches ltac:(by rewrite Hm) Hr) as Hrun.
  destruct (run _ _ batches w d1) as [w' d']. rewrite Hb in Hrun. destruct Hrun as (Hr' & Hp' & Hm').
  cbn zeta. set (h := foldl _ _ _) in *.
  assert (on_disk p d' <$> seq 0 n = h) as ->.
  { apply list_eq. intros k. rewrite list_lookup_fmap. pose proof (rep_len _ _ _ Hr') as Hlen.
    destruct (h !! k) as [o|] eqn:Hk.
    - apply lookup_lt_Some in Hk as Hlt. rewrite lookup_seq_lt by (rewrite <- Hm, <- Hm'; lia).
      cbn. f_equal. unfold on_disk. rewrite <- Hp, <- Hp'. by apply (rep_files _ _ _ Hr').
    - apply lookup_ge_None in Hk. rewrite lookup_seq_ge; [done|]. rewrite <- Hm, <- Hm'. lia. }
  split; [|by apply log_lines_text; eexists].
  apply log_lines_bounded; [done|by apply Forall_fmap|done].
Qed.

(** C31. Whatever fails, the log stays private and keeps to itself: a writer that starts never
    writes to a file that others may read or write; no name outside the log's own changes,
    and no file that existed but the active one; a target with loose permissions, or that
    cannot be examined, is refused untouched. *)
Theorem disk_log_private (fails : nat → bool) (partial : nat → nat) (p : str) (cap : Z) (n : nat)
    (d : Disk) (batches : list (list QueryLog.QueryLogEntry)) :
  (0 < n)%nat →
  match spawn fails p cap n d with
  | (None, d1) => ∀ f, file_at d p = Some f → file_at d1 p = Some f
  | (Some w, d1) =>
      let '(w', d') := run fails partial batches w d1 in
      (∀ f, d_files d' !! out w' = Some f → Z.land (f_mode f) 63 = 0)
      ∧ (∀ q, ¬ own_name p n q → d_names d' !! q = d_names d !! q)
      ∧ ∀ i f, d_files d !! i = Some f → i ≠ out w → d_files d' !! i = Some f
  end
  ∧ ∀ f, file_at d p = Some f → Z.land (f_mode f) 63 ≠ 0 → (spawn fails p cap n d).1 = None.
Proof.
  intros Hn. split.
  - destruct (spawn fails p cap n d) as [[w|] d1] eqn:Es.
    + apply spawn_private in Es. pose proof (run_private fails partial p n d (out w) batches w d1 Hn Es) as Hr.
      destruct (run _ _ batches w d1) as [w' d']. destruct Hr as [[Hq Hf _] _ _ Hm _]. by split_and!.
    + intros f Hf. revert Es. unfold spawn, check_existing_permissions, metadata.
      destruct (op_fails fails d); [by intros [= <-]|].
      destruct (match match _ with Some _ => _ | None => _ end with NotFound => _ | StatFailed => _ | Mode _ => _ end);
        [|by intros [= <-]].
      unfold open_append_0600. destruct (op_fails _ _); [by intros [= <-]|].
      by destruct (d_names (tick d) !! p).
  - intros f Hf Hmode. unfold spawn, check_existing_permissions, metadata.
    destruct (op_fails fails d); [done|]. rewrite Hf.
    destruct (Z.land (Z.land (f_mode f) 511) 63 =? 0) eqn:E; [|done].
    by apply private_mode in E.
Qed.

(** ** Witnesses *)

Definition demo_entry (hash : Z) : QueryLog.QueryLogEntry :=
  {| QueryLog.timestamp_unix := 1; QueryLog.client_anonymised := {| QueryLog.client_bytes := [120] |};
     QueryLog.qname_hash := hash; QueryLog.entry_qtype := "A"%rs; QueryLog.entry_rcode := 0;
     QueryLog.entry_served_by := QueryLog.ByResolver |}.

Definition empty_disk : Disk := {| d_names := ∅; d_files := ∅; d_ops := 0 |}.

Lemma empty_disk_ok : disk_ok "log"%rs 3 empty_disk.
Proof. split; intros *; cbn; by rewrite lookup_empty. Qed.

(** The lines of the entries 1, 2, 3 ..., two of which fit in a file of 250 bytes. *)
Definition demo_batches : list (list QueryLog.QueryLogEntry) :=
  [[demo_entry 1; demo_entry 2; demo_entry 3]; [demo_entry 4; demo_entry 5]].

Example demo_line : len (entry_bytes (demo_entry 1)) = 99.
Proof. vm_compute. reflexivity. Qed.

Lemma writer_refines_log_witness :
  ∃ w d1, spawn never "log"%rs 250 3 empty_disk = (Some w, d1)
    ∧ ∀ w' d', run never (λ _, 0%nat) demo_batches w d1 = (w', d') →
        on_disk "log"%rs d' 2 = Some (entry_bytes (demo_entry 1) ++ entry_bytes (demo_entry 2)).
Proof.
  destruct (spawn never "log"%rs 250 3 empty_disk) as [[w|] d1] eqn:E; [|vm_compute in E; discriminate E].
  exists w, d1. split; [reflexivity|]. intros w' d' Hr.
  pose proof (writer_refines_log (λ _, 0%nat) "log"%rs 250 3 empty_disk d1 w demo_batches
    ltac:(lia) empty_disk_ok E) as Hw. rewrite Hr in Hw.
  apply (proj2 Hw). vm_compute. reflexivity.
Defined.

Lemma disk_log_bounded_witness :
  ∃ w d1, spawn never "log"%rs 250 3 empty_disk = (Some w, d1)
    ∧ ∀ w' d', run never (λ _, 0%nat) demo_batches w d1 = (w', d') →
        Forall (λ o, len (default [] o) <= 250) (on_disk "log"%rs d' <$> seq 0 3).
Proof.
  destruct (spawn never "log"%rs 250 3 empty_disk) as [[w|] d1] eqn:E; [|vm_compute in E; discriminate E].
  exists w, d1. split; [reflexivity|]. intros w' d' Hr.
  pose proof (disk_log_bounded (λ _, 0%nat) "log"%rs 250 250 3 empty_disk d1 w demo_batches
    ltac:(lia) empty_disk_ok E) as Hw. rewrite Hr in Hw. apply Hw.
  - lia.
  - apply (bool_decide_unpack _). vm_compute. exact I.
  - apply (bool_decide_unpack _). vm_compute. exact I.
Defined.

Lemma disk_log_private_witness :
  ∃ w d1, spawn (Nat.eqb 11) "log"%rs 250 3 empty_disk = (Some w, d1)
    ∧ ∀ w' d', run (Nat.eqb 11) (λ _, 0%nat) demo_batches w d1 = (w', d') →
        ∀ f, d_files d' !! out w' = Some f → Z.land (f_mode f) 63 = 0.
Proof.
  destruct (spawn (Nat.eqb 11) "log"%rs 250 3 empty_disk) as [[w|] d1] eqn:E;
    [|vm_compute in E; discriminate E].
  exists w, d1. split; [reflexivity|]. intros w' d' Hr.
  destruct (disk_log_private (Nat.eqb 11) (λ _, 0%nat) "log"%rs 250 3 empty_disk demo_batches
    (Nat.lt_0_succ 2)) as [Hw _]. rewrite E in Hw. rewrite Hr in Hw. destruct Hw as [Hw _]. exact Hw.
Defined.

(** When only the reopening of the first rotation fails (operation 9), the renamed file stays
    the active one, every later line shifts the backups once more, and in the end none of the
    nine lines has a name, while all are counted as written and no error is. *)
Example reopen_failure_loses_log :
  match spawn (Nat.eqb 9) "log"%rs 250 3 empty_disk with
  | (Some w, d1) =>
      let '(w', d') := run (Nat.eqb 9) (λ _, 0%nat)
        [demo_entry <$> [1; 2; 3; 4; 5; 6; 7; 8; 9]] w d1 in
      (on_disk "log"%rs d' <$> seq 0 3 = [None; None; None])
      ∧ written (metrics w') = 9 ∧ io_errors (metrics w') = 0
  | (None, _) => False
  end.
Proof. vm_compute. by repeat split. Qed.
