(* ===== verification/Handler.v ===== *)
(** * Handler: the request pipeline
    ([rustydnsd/src/handler.rs])

    A request passes the gates (rate limit, opcode, EDNS version, ANY, class), then the
    pipeline (schedule, zones, authority, rewrite, blocklist) and at last the resolver;
    the first stage that decides makes the reply, which is logged and sent in one place.
    A stage is a transition of the handler that may give a reply.  The shared cells
    ([ArcSwap]) are fields of the handler and a hot reload is a record update between
    two requests ([Concurrent] lets them interleave); tracing lines are left out, except the
    audit lines a policy asks for.  What the code uses of [hickory_server] is the class [Server]. *)

From S2P Require Error.
From S2P Require Import Prelude RustStr Net Config Record Hickory Answers Odoh Resolver.
From S2P Require Schedule RegexRules Authority Engine Rewrite RateLimiter Client QueryLog.

(** ** Requests and responses *)

Inductive Protocol := Udp | OtherProtocol.
Inductive OpCode := OpQuery | OtherOpCode.
#[export] Instance OpCode_eq_dec : EqDecision OpCode.
Proof. solve_decision. Defined.
Inductive MessageType := TypeQuery | TypeResponse.
#[export] Instance MessageType_eq_dec : EqDecision MessageType.
Proof. solve_decision. Defined.
Inductive DNSClass := ClassIN | OtherClass.
#[export] Instance DNSClass_eq_dec : EqDecision DNSClass.
Proof. solve_decision. Defined.

(** The OPT record: what the code reads and writes of it, and the rest, which is echoed. *)
Record Edns := { max_payload : Z; edns_version : Z; edns_rest : str }.

Record QueryInfo `{Hickory} := { q_name : HName; q_type : RecordType; q_class : DNSClass }.

(** A request; its question is [None] when it has not exactly one. *)
Record Request `{Hickory} := {
  req_src : ip_addr;
  req_protocol : Protocol;
  req_op_code : OpCode;
  req_message_type : MessageType;
  req_edns : option Edns;
  req_query : option QueryInfo;
}.

Record Response `{Hickory} := {
  resp_code : ResponseCode;
  resp_authoritative : bool;
  resp_truncation : bool;
  resp_recursion_available : bool;
  resp_edns : option Edns;
  resp_answers : list RR;
}.

Class Server `{Hickory} := {
  (** [Name]'s [Display]. *)
  name_to_string : HName → str;
  (** Whether [Metadata::response_from_request] sets TC. *)
  initial_truncation : Request → bool;
  (** The bytes the response to a request is emitted in, if it can be. *)
  emit_len : Request → Response → option Z;
  (** [ResponseCode::low]. *)
  rcode_low : ResponseCode → Z;
}.

(** ** Metrics *)

Inductive metric :=
| Queries | QueriesByQtype (label : str) | ResponsesByRcode (label : str)
| AuthorityHits | RewriteHits | BlocklistHits | CnameCloakingBlocked | ResponseIpBlocked
| ResolverQueries | ResolverFailures | PolicyBlocklistBypass | PolicyZoneDenied
| PolicyScheduleBlocked | PolicyRateLimited | PolicyRefusedAny | PrivateRdataDropped.

#[export] Instance metric_eq_dec : EqDecision metric.
Proof. solve_decision. Defined.

Definition Metrics := metric → Z.
Definition inc_by (m : metric) (n : Z) (s : Metrics) : Metrics :=
  λ x, if decide (x = m) then s x + n else s x.

Definition rcode_metric_label (rcode : ResponseCode) : str :=
  match rcode with
  | NoError => "NOERROR"%rs
  | FormErr => "FORMERR"%rs
  | ServFail => "SERVFAIL"%rs
  | NXDomain => "NXDOMAIN"%rs
  | NotImp => "NOTIMP"%rs
  | Refused => "REFUSED"%rs
  | BADVERS => "BADVERS"%rs
  | OtherCode _ => "other"%rs
  end.

(** ** Policies *)

Record PolicyDecision := {
  pd_blocklist_bypass : bool;
  pd_zones_allowed : list str;
  pd_log_all_queries : bool;
  pd_schedule_blocked : bool;
  pd_blocklist_group : option str;
}.

Definition PolicyDecision_default : PolicyDecision :=
  {| pd_blocklist_bypass := false; pd_zones_allowed := []; pd_log_all_queries := false;
     pd_schedule_blocked := false; pd_blocklist_group := None |}.

Record CompiledPolicy := {
  cp_blocklist_bypass : bool;
  cp_zones_allowed : list str;
  cp_log_all_queries : bool;
  cp_schedule : Schedule.BlockSchedule;
  cp_blocklist_group : option str;
}.

Definition canonical_client_ip (ip : ip_addr) : ip_addr :=
  match ip with
  | V6 v6 => match to_ipv4_mapped v6 with Some v4 => V4 v4 | None => V6 v6 end
  | v4 => v4
  end.

Definition compile_policy (p : NodePolicy) : CompiledPolicy :=
  {| cp_blocklist_bypass := policy_blocklist_bypass p;
     cp_zones_allowed := policy_zones_allowed p;
     cp_log_all_queries := policy_log_all_queries p;
     cp_schedule := default {| Schedule.windows := [] |}
                      (result_ok (Schedule.compile (policy_block_windows p)));
     cp_blocklist_group := policy_blocklist_group p |}.

Definition add_policy (m : gmap ip_addr CompiledPolicy) (p : NodePolicy) :
    gmap ip_addr CompiledPolicy :=
  match policy_client_ip p ≫= parse_ip with
  | Some ip => <[canonical_client_ip ip := compile_policy p]> m
  | None => m
  end.

Definition build_policy_map (policies : list NodePolicy) : gmap ip_addr CompiledPolicy :=
  foldl add_policy ∅ policies.

(** ** Names *)

Definition name_in_zone (lower zone : str) : bool :=
  let z := to_ascii_lowercase (trim_end_matches "."%rc (trim zone)) in
  if is_empty_str z then false
  else
    str_eqb lower z
    || ((length z <? length lower)%nat && ends_with z lower
        && bool_decide (lower !! (length lower - length z - 1)%nat = Some "."%rc)).

Definition name_in_any_zone (qname : str) (zones : list str) : bool :=
  let lower := to_ascii_lowercase (trim_end_matches "."%rc qname) in
  existsb (name_in_zone lower) zones.

Definition canonical_qname (name : str) : str :=
  if existsb is_ascii_uppercase name then to_ascii_lowercase name else name.

Definition MAX_EDNS_PAYLOAD : Z := 4096.
Definition SINKHOLE_TTL_SECS : Z := 60.

(** [x.clamp(lo, hi)]. *)
Definition clamp (lo hi x : Z) : Z := Z.max lo (Z.min hi x).

(** A line of the [log_all_queries] audit. *)
Record AuditLine := {
  audit_client : Client.AnonymizedClientId;
  audit_qname_hash : Z;
  audit_qtype : str;
  audit_rcode : Z;
  audit_served_by : QueryLog.ServedBy;
}.

Section handler.
Context `{Hickory} `{!Server} `{!Upstream} `{!OdohLib} `{Unicode} `{RegexRules.RegexCrate}.
(** The network and the random source of the oblivious arm, its validator, and the keyed
    hash of the query log. *)
Context (net : list action → action → reply) (rand : list action → draw → Z).
Context (validate : (bytes → OdohState → result OdohError bytes * OdohState) →
  HName → RecordType → OdohState → option (list RR * ResponseCode) * OdohState).
Context (hash_qname : str → Z).

Record DnsHandler := {
  h_authority : Authority.Authority;
  h_blocklist : Engine.BlocklistEngine;
  h_resolver : Resolver;
  h_rewrites : Rewrite.RewriteMap;
  h_policy_by_ip : gmap ip_addr CompiledPolicy;
  h_sinkhole_ip : option ip_addr;
  h_rate_limiter : RateLimiter.RateLimiter;
  h_metrics : Metrics;
  h_query_log : QueryLog.QueryLog;
  h_audit : list AuditLine;
  h_odoh : OdohState;
}.

(** The clocks a request sees: the monotonic one, in nanoseconds, and the wall clock. *)
Record Now := { now_instant : Z; now_unix : Z }.

Definition set_limiter (r : RateLimiter.RateLimiter) (h : DnsHandler) : DnsHandler :=
  {| h_authority := h_authority h; h_blocklist := h_blocklist h; h_resolver := h_resolver h;
     h_rewrites := h_rewrites h; h_policy_by_ip := h_policy_by_ip h;
     h_sinkhole_ip := h_sinkhole_ip h; h_rate_limiter := r; h_metrics := h_metrics h;
     h_query_log := h_query_log h; h_audit := h_audit h; h_odoh := h_odoh h |}.

Definition inc_n (m : metric) (n : Z) (h : DnsHandler) : DnsHandler :=
  {| h_authority := h_authority h; h_blocklist := h_blocklist h; h_resolver := h_resolver h;
     h_rewrites := h_rewrites h; h_policy_by_ip := h_policy_by_ip h;
     h_sinkhole_ip := h_sinkhole_ip h; h_rate_limiter := h_rate_limiter h;
     h_metrics := inc_by m n (h_metrics h);
     h_query_log := h_query_log h; h_audit := h_audit h; h_odoh := h_odoh h |}.
Definition inc (m : metric) : DnsHandler → DnsHandler := inc_n m 1.

Definition set_log (l : QueryLog.QueryLog) (audit : list AuditLine) (h : DnsHandler) : DnsHandler :=
  {| h_authority := h_authority h; h_blocklist := h_blocklist h; h_resolver := h_resolver h;
     h_rewrites := h_rewrites h; h_policy_by_ip := h_policy_by_ip h;
     h_sinkhole_ip := h_sinkhole_ip h; h_rate_limiter := h_rate_limiter h;
     h_metrics := h_metrics h; h_query_log := l; h_audit := audit; h_odoh := h_odoh h |}.

Definition set_odoh (st : OdohState) (h : DnsHandler) : DnsHandler :=
  {| h_authority := h_authority h; h_blocklist := h_blocklist h; h_resolver := h_resolver h;
     h_rewrites := h_rewrites h; h_policy_by_ip := h_policy_by_ip h;
     h_sinkhole_ip := h_sinkhole_ip h; h_rate_limiter := h_rate_limiter h;
     h_metrics := h_metrics h; h_query_log := h_query_log h; h_audit := h_audit h;
     h_odoh := st |}.

(** The hot reloads. *)
Definition swap_rate_limiter : RateLimiter.RateLimiter → DnsHandler → DnsHandler := set_limiter.

(** The targets of a new resolver have no configuration yet. *)
Definition swap_resolver (r : Resolver) (h : DnsHandler) : DnsHandler :=
  {| h_authority := h_authority h; h_blocklist := h_blocklist h; h_resolver := r;
     h_rewrites := h_rewrites h; h_policy_by_ip := h_policy_by_ip h;
     h_sinkhole_ip := h_sinkhole_ip h; h_rate_limiter := h_rate_limiter h;
     h_metrics := h_metrics h; h_query_log := h_query_log h; h_audit := h_audit h;
     h_odoh := {| history := history (h_odoh h); cells := ∅ |} |}.

Definition swap_policies (policies : list NodePolicy) (h : DnsHandler) : DnsHandler :=
  {| h_authority := h_authority h; h_blocklist := h_blocklist h; h_resolver := h_resolver h;
     h_rewrites := h_rewrites h; h_policy_by_ip := build_policy_map policies;
     h_sinkhole_ip := h_sinkhole_ip h; h_rate_limiter := h_rate_limiter h;
     h_metrics := h_metrics h; h_query_log := h_query_log h; h_audit := h_audit h;
     h_odoh := h_odoh h |}.

Definition swap_rewrites (rewrites : list RewriteRule) (h : DnsHandler) : DnsHandler :=
  {| h_authority := h_authority h; h_blocklist := h_blocklist h; h_resolver := h_resolver h;
     h_rewrites := Rewrite.from_rules rewrites; h_policy_by_ip := h_policy_by_ip h;
     h_sinkhole_ip := h_sinkhole_ip h; h_rate_limiter := h_rate_limiter h;
     h_metrics := h_metrics h; h_query_log := h_query_log h; h_audit := h_audit h;
     h_odoh := h_odoh h |}.

Definition handler_new (authority : Authority.Authority) (blocklist : Engine.BlocklistEngine)
    (resolver : Resolver) (metrics : Metrics) (query_log : QueryLog.QueryLog)
    (rate_limiter : RateLimiter.RateLimiter) (policies : list NodePolicy)
    (rewrites : list RewriteRule) (odoh : OdohState) : result resolver_error DnsHandler :=
  sinkhole ← match Engine.block_response blocklist with
             | Config.Sinkhole =>
                 Some <$> ok_or (Error.Config ("blocklist.sinkhole_ip `"%rs ++ Engine.sinkhole_ip blocklist
                                   ++ "` is not a valid IP address"%rs))
                            (parse_ip (Engine.sinkhole_ip blocklist))
             | _ => Ok None
             end;
  Ok {| h_authority := authority; h_blocklist := blocklist; h_resolver := resolver;
        h_rewrites := Rewrite.from_rules rewrites; h_policy_by_ip := build_policy_map policies;
        h_sinkhole_ip := sinkhole; h_rate_limiter := rate_limiter; h_metrics := metrics;
        h_query_log := query_log; h_audit := []; h_odoh := odoh |}.

Definition resolve_policy (h : DnsHandler) (unix : Z) (src_ip : ip_addr) : PolicyDecision :=
  match h_policy_by_ip h !! canonical_client_ip src_ip with
  | Some p =>
      {| pd_blocklist_bypass := cp_blocklist_bypass p; pd_zones_allowed := cp_zones_allowed p;
         pd_log_all_queries := cp_log_all_queries p;
         pd_schedule_blocked := negb (Schedule.is_empty (cp_schedule p))
                                && Schedule.is_blocked_at_conservative (cp_schedule p) unix;
         pd_blocklist_group := cp_blocklist_group p |}
  | None => PolicyDecision_default
  end.

(** ** Records on the wire *)

Definition record_ttl (ttl : Z) : Z :=
  Z.min (clamp MIN_POSITIVE_CACHE_TTL_SECS MAX_POSITIVE_CACHE_TTL_SECS ttl) u32_max.

Definition data_to_rdata (d : RecordData) : option RData :=
  match d with
  | A ip => Some (RD_A ip)
  | Aaaa ip => Some (RD_AAAA ip)
  | Cname target => RD_CNAME <$> name_from_str target
  | Ptr target => RD_PTR <$> name_from_str target
  | Ns target => RD_NS <$> name_from_str target
  | Txt parts => Some (RD_TXT parts)
  | Mx preference exchange => RD_MX preference <$> name_from_str exchange
  | Srv priority weight port target => RD_SRV priority weight port <$> name_from_str target
  end.

Definition dns_record_to_rr (rec : DnsRecord) : option RR :=
  name ← name_from_str (rec_name rec);
  rdata ← data_to_rdata (rec_data rec);
  Some {| rr_name := name; rr_ttl := record_ttl (rec_ttl rec); rr_data := rdata |}.

Definition dns_records_to_rrs (records : list DnsRecord) : list RR := omap dns_record_to_rr records.

Definition sinkhole_answers (h : DnsHandler) (qname : str) (qtype : RecordType) : list RR :=
  match h_sinkhole_ip h, name_from_str qname with
  | Some ip, Some name =>
      let rr data := [{| rr_name := name; rr_ttl := SINKHOLE_TTL_SECS; rr_data := data |}] in
      match ip with
      | V4 v4 => if bool_decide (qtype = RT_A ∨ qtype = RT_ANY) then rr (RD_A v4) else []
      | V6 v6 => if bool_decide (qtype = RT_AAAA ∨ qtype = RT_ANY) then rr (RD_AAAA v6) else []
      end
  | _, _ => []
  end.

Definition build_block_response (h : DnsHandler) (qname : str) (qtype : RecordType) :
    ResponseCode * list RR :=
  match Engine.block_response (h_blocklist h) with
  | Config.Nxdomain => (NXDomain, [])
  | Config.Refused => (Refused, [])
  | Config.Sinkhole =>
      match sinkhole_answers h qname qtype with
      | [] => (NXDomain, [])
      | answers => (NoError, answers)
      end
  end.

Definition cname_chain_blocked (h : DnsHandler) (records : list DnsRecord) (group : option str) :
    bool :=
  existsb (λ rec, match rec_data rec with
                  | Cname target => Engine.is_blocked_for_group (h_blocklist h) target group
                  | _ => false
                  end) records.

Definition response_ip_blocked (h : DnsHandler) (records : list DnsRecord) : bool :=
  existsb (λ rec, match rec_data rec with
                  | A ip => Engine.is_response_ip_blocked (h_blocklist h) (V4 ip)
                  | Aaaa ip => Engine.is_response_ip_blocked (h_blocklist h) (V6 ip)
                  | _ => false
                  end) records.

(** ** Stages *)

Record QueryCtx := {
  src_ip : ip_addr;
  client : Client.ClientId;
  policy : PolicyDecision;
  qname : str;
  qname_canon : str;
  qtype : RecordType;
  qtype_label : str;
  qclass : DNSClass;
}.

Record Reply := {
  code : ResponseCode;
  authoritative : bool;
  answers : list RR;
  served_by : QueryLog.ServedBy;
}.

Definition reject (c : ResponseCode) : Reply :=
  {| code := c; authoritative := false; answers := []; served_by := QueryLog.ByRejected |}.

(** A stage may reply, and may change the handler. *)
Definition stage : Type := DnsHandler → option Reply * DnsHandler.

(** [.or_else]. *)
Definition or_else (s1 s2 : stage) : stage := λ h,
  match s1 h with
  | (Some reply, h) => (Some reply, h)
  | (None, h) => s2 h
  end.

Definition gate_rate_limit (now : Now) (ctx : QueryCtx) : stage := λ h,
  let '(decision, limiter) :=
    RateLimiter.check (h_rate_limiter h) (src_ip ctx) (now_instant now) in
  let h := set_limiter limiter h in
  match decision with
  | RateLimiter.Refuse => (Some (reject Refused), inc PolicyRateLimited h)
  | RateLimiter.Allow => (None, h)
  end.

Definition gate_opcode (request : Request) : stage := λ h,
  (match req_op_code request, req_message_type request with
   | OtherOpCode, _ => Some (reject NotImp)
   | OpQuery, TypeResponse => Some (reject Refused)
   | OpQuery, TypeQuery => None
   end, h).

Definition gate_edns_version (request : Request) : stage := λ h,
  (match req_edns request with
   | Some edns => if 0 <? edns_version edns then Some (reject BADVERS) else None
   | None => None
   end, h).

Definition gate_any_qtype (ctx : QueryCtx) : stage := λ h,
  if bool_decide (qtype ctx = RT_ANY ∨ qtype ctx = RT_AXFR ∨ qtype ctx = RT_IXFR)
  then (Some (reject Refused), if bool_decide (qtype ctx = RT_ANY) then inc PolicyRefusedAny h else h)
  else (None, h).

Definition gate_class (ctx : QueryCtx) : stage := λ h,
  (match qclass ctx with ClassIN => None | OtherClass => Some (reject NotImp) end, h).

Definition gate_schedule (ctx : QueryCtx) : stage := λ h,
  if pd_schedule_blocked (policy ctx)
  then (Some (reject Refused), inc PolicyScheduleBlocked h) else (None, h).

Definition gate_zones (ctx : QueryCtx) : stage := λ h,
  if negb (bool_decide (length (pd_zones_allowed (policy ctx)) = 0%nat))
     && negb (name_in_any_zone (qname_canon ctx) (pd_zones_allowed (policy ctx)))
  then (Some (reject Refused), inc PolicyZoneDenied h) else (None, h).

Definition authority_reply (records : list DnsRecord) : Reply :=
  {| code := NoError; authoritative := true; answers := dns_records_to_rrs records;
     served_by := QueryLog.ByAuthority |}.

Definition gate_authority (ctx : QueryCtx) : stage := λ h,
  match Authority.lookup (h_authority h) (qname_canon ctx) (qtype_label ctx) with
  | None => (None, h)
  | Some records => (Some (authority_reply records), inc AuthorityHits h)
  end.

Definition rewrite_reply (decision : Rewrite.RewriteDecision) : Reply :=
  let '(c, rrs) := match decision with
                   | Rewrite.Nxdomain => (NXDomain, [])
                   | Rewrite.NoData => (NoError, [])
                   | Rewrite.Answer records => (NoError, dns_records_to_rrs records)
                   end in
  {| code := c; authoritative := false; answers := rrs; served_by := QueryLog.ByRewrite |}.

Definition gate_rewrite (ctx : QueryCtx) : stage := λ h,
  match Rewrite.rewrite_lookup (h_rewrites h) (qname_canon ctx) (qtype ctx) with
  | None => (None, h)
  | Some decision => (Some (rewrite_reply decision), inc RewriteHits h)
  end.

Definition block_reply (h : DnsHandler) (ctx : QueryCtx) : Reply :=
  let '(c, rrs) := build_block_response h (qname ctx) (qtype ctx) in
  {| code := c; authoritative := false; answers := rrs; served_by := QueryLog.ByBlocklist |}.

Definition gate_blocklist (ctx : QueryCtx) : stage := λ h,
  let blocked := Engine.is_blocked_for_group (h_blocklist h) (qname_canon ctx)
                   (pd_blocklist_group (policy ctx)) in
  let bypass := pd_blocklist_bypass (policy ctx) in
  let h := if bypass && blocked then inc PolicyBlocklistBypass h else h in
  if negb bypass && blocked then (Some (block_reply h ctx), inc BlocklistHits h) else (None, h).

(** What the answer of the resolver becomes. *)
Definition resolved_reply (out : ResolveOutcome) : Reply :=
  let rrs := dns_records_to_rrs (out_records out) in
  {| code := if nxdomain out && bool_decide (length rrs = 0%nat) then NXDomain else NoError;
     authoritative := false; answers := rrs; served_by := QueryLog.ByResolver |}.

Definition stage_resolve (ctx : QueryCtx) (h : DnsHandler) : Reply * DnsHandler :=
  let h := inc ResolverQueries h in
  let '(res, st) := resolve net rand validate (h_resolver h) (qname ctx) (qtype_label ctx) (h_odoh h) in
  let h := set_odoh st h in
  match res with
  | Ok out =>
      let h := inc_n PrivateRdataDropped (private_rdata_dropped out) h in
      if Engine.block_cname_cloaking (h_blocklist h) && negb (pd_blocklist_bypass (policy ctx))
         && cname_chain_blocked h (out_records out) (pd_blocklist_group (policy ctx))
      then (block_reply h ctx, inc CnameCloakingBlocked (inc BlocklistHits h))
      else if Engine.response_ip_denylist_active (h_blocklist h)
              && negb (pd_blocklist_bypass (policy ctx)) && response_ip_blocked h (out_records out)
      then (block_reply h ctx, inc ResponseIpBlocked (inc BlocklistHits h))
      else (resolved_reply out, h)
  | Err _ =>
      ({| code := ServFail; authoritative := false; answers := [];
          served_by := QueryLog.ByServerFailure |}, inc ResolverFailures h)
  end.

(** ** Responses *)

Definition log_query (now : Now) (p : PolicyDecision) (c : Client.ClientId)
    (qname_canon qtype : str) (rcode : ResponseCode) (s : QueryLog.ServedBy) (h : DnsHandler) :
    DnsHandler :=
  set_log
    (QueryLog.record hash_qname (h_query_log h) (now_unix now) c qname_canon qtype (rcode_low rcode) s)
    (h_audit h ++
     if pd_log_all_queries p
     then [{| audit_client := Client.anonymized c; audit_qname_hash := hash_qname qname_canon;
              audit_qtype := qtype; audit_rcode := rcode_low rcode; audit_served_by := s |}]
     else [])
    h.

(** The echoed OPT, with a bounded payload and version 0. *)
Definition normalized_edns (request : Request) : option Edns :=
  (λ e, {| max_payload := if MAX_EDNS_PAYLOAD <? max_payload e then MAX_EDNS_PAYLOAD
                          else max_payload e;
           edns_version := 0; edns_rest := edns_rest e |}) <$> req_edns request.

(** The largest datagram for a request. *)
Definition udp_cap (request : Request) : Z :=
  match req_edns request with
  | Some e => clamp 512 MAX_EDNS_PAYLOAD (max_payload e)
  | None => 512
  end.

Definition response (request : Request) (rcode : ResponseCode) (aa tc : bool) (rrs : list RR) :
    Response :=
  {| resp_code := rcode; resp_authoritative := aa; resp_truncation := tc;
     resp_recursion_available := true; resp_edns := normalized_edns request;
     resp_answers := rrs |}.

(** [measure_now(..).is_none_or(|n| n > cap)]. *)
Definition over_cap (request : Request) (rcode : ResponseCode) (aa tc : bool) (rrs : list RR) :
    bool :=
  match emit_len request (response request rcode aa tc rrs) with
  | Some n => udp_cap request <? n
  | None => true
  end.

(** The loop that pops answers; one turn per answer is enough. *)
Fixpoint shed (fuel : nat) (over : list RR → bool) (rrs : list RR) : list RR :=
  match fuel with
  | O => rrs
  | S fuel =>
      if negb (bool_decide (length rrs = 0%nat)) && over rrs
      then shed fuel over (removelast rrs) else rrs
  end.

Definition respond (request : Request) (rcode : ResponseCode) (aa : bool) (rrs : list RR)
    (h : DnsHandler) : Response * DnsHandler :=
  let h := inc (ResponsesByRcode (rcode_metric_label rcode)) h in
  let truncate :=
    match req_protocol request with
    | Udp => over_cap request rcode aa false rrs
    | OtherProtocol => false
    end in
  let kept := if truncate then shed (length rrs) (over_cap request rcode aa true) rrs else rrs in
  (response request rcode aa (initial_truncation request || truncate) kept, h).

Definition finish (now : Now) (request : Request) (ctx : QueryCtx) (reply : Reply)
    (h : DnsHandler) : Response * DnsHandler :=
  respond request (code reply) (authoritative reply) (answers reply)
    (log_query now (policy ctx) (client ctx) (qname_canon ctx) (qtype_label ctx) (code reply)
       (served_by reply) h).

(** ** The pipeline *)

Definition query_ctx (h : DnsHandler) (now : Now) (request : Request) (q : QueryInfo) : QueryCtx :=
  let name := name_to_string (q_name q) in
  {| src_ip := req_src request; client := Client.from_ip (req_src request);
     policy := resolve_policy h (now_unix now) (req_src request);
     qname := name; qname_canon := canonical_qname name; qtype := q_type q;
     qtype_label := record_type_to_string (q_type q); qclass := q_class q |}.

Definition gates (now : Now) (request : Request) (ctx : QueryCtx) : stage :=
  or_else (or_else (or_else (or_else (gate_rate_limit now ctx) (gate_opcode request))
    (gate_edns_version request)) (gate_any_qtype ctx)) (gate_class ctx).

Definition pipeline (ctx : QueryCtx) : stage :=
  or_else (or_else (or_else (or_else (gate_schedule ctx) (gate_zones ctx)) (gate_authority ctx))
    (gate_rewrite ctx)) (gate_blocklist ctx).

(** The reply to a query, before it is logged and sent. *)
Definition decide_reply (now : Now) (request : Request) (ctx : QueryCtx) (h : DnsHandler) :
    Reply * DnsHandler :=
  match gates now request ctx h with
  | (Some reply, h) => (reply, h)
  | (None, h) =>
      match pipeline ctx h with
      | (Some reply, h) => (reply, h)
      | (None, h) => stage_resolve ctx h
      end
  end.

Definition handle_request (now : Now) (request : Request) (h : DnsHandler) :
    Response * DnsHandler :=
  match req_query request with
  | None =>
      let p := resolve_policy h (now_unix now) (req_src request) in
      let h := log_query now p (Client.from_ip (req_src request)) [] "?"%rs FormErr
                 QueryLog.ByRejected h in
      respond request FormErr false [] h
  | Some q =>
      let ctx := query_ctx h now request q in
      let h := inc (QueriesByQtype (qtype_label ctx)) (inc Queries h) in
      let '(reply, h) := decide_reply now request ctx h in
      finish now request ctx reply h
  end.
(** ** What the stages change

    The gates and the pipeline change metrics and token buckets only. *)

Definition frame (h h' : DnsHandler) : Prop :=
  h_authority h' = h_authority h ∧ h_blocklist h' = h_blocklist h ∧ h_resolver h' = h_resolver h
  ∧ h_rewrites h' = h_rewrites h ∧ h_policy_by_ip h' = h_policy_by_ip h
  ∧ h_sinkhole_ip h' = h_sinkhole_ip h ∧ h_query_log h' = h_query_log h
  ∧ h_audit h' = h_audit h ∧ h_odoh h' = h_odoh h.

#[local] Instance frame_preorder : PreOrder frame.
Proof.
  split; [by intros h|]. unfold frame. intros h1 h2 h3 H12 H23. destruct_and!.
  repeat split; etrans; eauto.
Qed.

(** A metric a stage does not touch. *)
Definition keeps (m : metric) (h h' : DnsHandler) : Prop := h_metrics h' m = h_metrics h m.

Definition stage_frame (m : metric) (s : stage) : Prop :=
  ∀ h, frame h (s h).2 ∧ keeps m h (s h).2.

Lemma or_else_frame m s1 s2 : stage_frame m s1 → stage_frame m s2 → stage_frame m (or_else s1 s2).
Proof.
  intros Hs1 Hs2 h. unfold or_else. destruct (Hs1 h) as [Hf Hk].
  destruct (s1 h) as [[reply|] h1]; [done|]. destruct (Hs2 h1) as [Hf2 Hk2].
  split; [by etrans|]. unfold keeps in *. cbn [snd] in *. congruence.
Qed.

Lemma inc_frame m n h : frame h (inc_n m n h).
Proof. done. Qed.

Lemma inc_keeps m m' n h : m' ≠ m → keeps m h (inc_n m' n h).
Proof. intros Hm. unfold keeps. cbn. unfold inc_by. by rewrite decide_False. Qed.

(** The metrics of rejections and of local answers. *)
Definition gate_metric (m : metric) : bool :=
  match m with
  | PolicyRateLimited | PolicyRefusedAny | PolicyScheduleBlocked | PolicyZoneDenied
  | AuthorityHits | RewriteHits | BlocklistHits | PolicyBlocklistBypass => true
  | _ => false
  end.

Ltac stage_tac :=
  intros h; repeat (case_match; simplify_eq; try done); unfold keeps; cbn;
  repeat (case_match; simplify_eq; try done); cbn;
  (split; [done|]); unfold inc_by;
  repeat (destruct (decide _) as [-> |]; [match goal with Hm : gate_metric _ = false |- _ =>
         discriminate Hm end|]); done.

Lemma gates_frame m now request ctx : gate_metric m = false → stage_frame m (gates now request ctx).
Proof.
  intros Hm. unfold gates. repeat apply or_else_frame.
  - unfold gate_rate_limit. stage_tac.
  - unfold gate_opcode. stage_tac.
  - unfold gate_edns_version. stage_tac.
  - unfold gate_any_qtype. stage_tac.
  - unfold gate_class. stage_tac.
Qed.

Lemma pipeline_frame m ctx : gate_metric m = false → stage_frame m (pipeline ctx).
Proof.
  intros Hm. unfold pipeline. repeat apply or_else_frame.
  - unfold gate_schedule. stage_tac.
  - unfold gate_zones. stage_tac.
  - unfold gate_authority. stage_tac.
  - unfold gate_rewrite. stage_tac.
  - unfold gate_blocklist. stage_tac.
Qed.
(** Everything a reply's making leaves alone: all but metrics, buckets and the oblivious
    arm. *)
Definition reply_frame (h h' : DnsHandler) : Prop :=
  h_query_log h' = h_query_log h ∧ h_audit h' = h_audit h
  ∧ ∀ l, keeps (ResponsesByRcode l) h h'.

Lemma frame_reply_frame h h' :
  frame h h' → (∀ l, keeps (ResponsesByRcode l) h h') → reply_frame h h'.
Proof. intros Hf Hk. unfold frame in Hf. by destruct_and!. Qed.

#[local] Instance reply_frame_trans : Transitive reply_frame.
Proof.
  intros h1 h2 h3 (?&?&Hk) (?&?&Hk'). split; [congruence|]. split; [congruence|].
  intros l. unfold keeps in *. by rewrite Hk', Hk.
Qed.

Lemma stage_reply_frame (s : stage) :
  (∀ m, gate_metric m = false → stage_frame m s) → ∀ h, reply_frame h (s h).2.
Proof.
  intros Hs h. apply frame_reply_frame; [by apply (Hs Queries)|]. intros l. by apply Hs.
Qed.

Lemma stage_resolve_frame ctx h : reply_frame h (stage_resolve ctx h).2.
Proof.
  unfold stage_resolve. destruct (resolve _ _ _ _ _ _ _) as [[out|e] st]; [|done].
  destruct (_ && _); [done|]. destruct (_ && _); [done|]. done.
Qed.

Lemma decide_reply_frame now request ctx h : reply_frame h (decide_reply now request ctx h).2.
Proof.
  unfold decide_reply.
  pose proof (stage_reply_frame (gates now request ctx) (λ m, gates_frame m now request ctx) h) as Hg.
  destruct (gates now request ctx h) as [[reply|] h1]; [done|]. cbn [snd] in Hg.
  pose proof (stage_reply_frame (pipeline ctx) (λ m, pipeline_frame m ctx) h1) as Hp.
  destruct (pipeline ctx h1) as [[reply|] h2]; cbn [snd] in *; [by etrans|].
  etrans; [exact Hg|]. etrans; [exact Hp|]. apply stage_resolve_frame.
Qed.

Lemma inc_reply_frame m n h : (∀ l, m ≠ ResponsesByRcode l) → reply_frame h (inc_n m n h).
Proof. intros Hm. split; [done|]. split; [done|]. intros l. by apply inc_keeps. Qed.

(** The reply of a request, as one transition: what is decided for its question, or the
    format error. *)
Definition request_reply (now : Now) (request : Request) (h : DnsHandler) :
    Reply * DnsHandler :=
  match req_query request with
  | None => (reject FormErr, h)
  | Some q =>
      let ctx := query_ctx h now request q in
      decide_reply now request ctx (inc (QueriesByQtype (qtype_label ctx)) (inc Queries h))
  end.

(** What is logged of a request: the hashed name and the type's label. *)
Definition log_name (h : DnsHandler) (now : Now) (request : Request) : str * str :=
  match req_query request with
  | None => ([], "?"%rs)
  | Some q => (canonical_qname (name_to_string (q_name q)), record_type_to_string (q_type q))
  end.

Lemma handle_request_reply now request h :
  let '(reply, h1) := request_reply now request h in
  handle_request now request h =
    respond request (code reply) (authoritative reply) (answers reply)
      (log_query now (resolve_policy h (now_unix now) (req_src request))
         (Client.from_ip (req_src request)) (log_name h now request).1 (log_name h now request).2
         (code reply) (served_by reply) h1).
Proof.
  unfold request_reply, handle_request, log_name. destruct (req_query request) as [q|]; [|done].
  by destruct (decide_reply _ _ _ _) as [reply h1].
Qed.

Lemma request_reply_frame now request h : reply_frame h (request_reply now request h).2.
Proof.
  unfold request_reply. destruct (req_query request) as [q|]; [|done].
  etrans; [|apply decide_reply_frame]. etrans; by apply inc_reply_frame.
Qed.

(** Every request is answered, and accounted for once: whichever stage decides, one
    entry with the code that was sent goes to the query log under the client's address,
    one audit line is written if the client's policy asks for it, and the counter of
    that code, and no other response counter, goes up by one. *)
Theorem handle_request_accounted (now : Now) (request : Request) (h : DnsHandler) :
  let p := resolve_policy h (now_unix now) (req_src request) in
  let '(resp, h') := handle_request now request h in
  (∃ s, h_query_log h' =
     QueryLog.record hash_qname (h_query_log h) (now_unix now) (Client.from_ip (req_src request))
       (log_name h now request).1 (log_name h now request).2 (rcode_low (resp_code resp)) s)
  ∧ length (h_audit h') = (length (h_audit h) + if pd_log_all_queries p then 1 else 0)%nat
  ∧ ∀ l, h_metrics h' (ResponsesByRcode l) =
      h_metrics h (ResponsesByRcode l)
      + if decide (l = rcode_metric_label (resp_code resp)) then 1 else 0.
Proof.
  cbn zeta. pose proof (handle_request_reply now request h) as Hr.
  pose proof (request_reply_frame now request h) as (Hlog & Haudit & Hm).
  destruct (request_reply now request h) as [reply h1]. cbn [snd] in *. rewrite Hr.
  unfold respond. cbn [h_query_log h_audit h_metrics inc inc_n log_query set_log resp_code response].
  split; [|split].
  - exists (served_by reply). by rewrite Hlog.
  - rewrite length_app, Haudit. by destruct (pd_log_all_queries _).
  - intros l. unfold inc_by. rewrite <- (Hm l). destruct (decide (l = _)) as [->|Hl].
    + by rewrite decide_True.
    + rewrite decide_False by congruence. lia.
Qed.
(** ** Bounded responses *)

Lemma over_cap_fits request rcode aa tc rrs :
  over_cap request rcode aa tc rrs = false →
  ∃ n, emit_len request (response request rcode aa tc rrs) = Some n ∧ n <= udp_cap request.
Proof. unfold over_cap. destruct (emit_len _ _) as [n|]; [|done]. intros ?. bools. eauto. Qed.

Lemma shed_spec over n rrs :
  length rrs = n →
  shed n over rrs `prefix_of` rrs
  ∧ (shed n over rrs = [] ∨ over (shed n over rrs) = false)
  ∧ ∀ k, (length (shed n over rrs) < k <= n)%nat → over (take k rrs) = true.
Proof.
  revert rrs. induction n as [|n IH]; intros rrs Hn; cbn [shed].
  { apply length_zero_iff_nil in Hn as ->. split; [done|]. split; [by left|]. simpl. lia. }
  rewrite bool_decide_false by lia. cbn [negb andb]. destruct (over rrs) eqn:Ho.
  - rewrite List.removelast_firstn_len, Hn. cbn [Nat.pred].
    destruct (IH (take n rrs)) as (Hp & Hf & Hk); [rewrite length_take; lia|].
    split; [etrans; [exact Hp|apply prefix_take]|]. split; [done|]. intros k Hlt.
    destruct (decide (k = S n)) as [->|]; [by rewrite take_ge by lia|].
    rewrite <- (Hk k) by lia. f_equal. rewrite take_take. f_equal. lia.
  - split; [done|]. split; [by right|]. intros k ?. lia.
Qed.

Definition ttl_ok (r : RR) : Prop := 2 <= rr_ttl r <= 86400.

Lemma record_ttl_ok ttl : 2 <= record_ttl ttl <= 86400.
Proof.
  unfold record_ttl, clamp, MIN_POSITIVE_CACHE_TTL_SECS, MAX_POSITIVE_CACHE_TTL_SECS, u32_max. lia.
Qed.

Lemma dns_records_to_rrs_ttl records : Forall ttl_ok (dns_records_to_rrs records).
Proof.
  apply list.Forall_forall. intros rr (rec & _ & Hr)%list_elem_of_omap.
  unfold dns_record_to_rr in Hr. apply bind_Some in Hr as (name & _ & Hr).
  apply bind_Some in Hr as (rdata & _ & [= <-]). apply record_ttl_ok.
Qed.

Lemma sinkhole_answers_ttl h n t : Forall ttl_ok (sinkhole_answers h n t).
Proof.
  unfold sinkhole_answers, SINKHOLE_TTL_SECS. repeat case_match; try constructor; try constructor;
    unfold ttl_ok; cbn; lia.
Qed.

Lemma block_reply_ttl h ctx : Forall ttl_ok (answers (block_reply h ctx)).
Proof.
  unfold block_reply, build_block_response. pose proof (sinkhole_answers_ttl h (qname ctx) (qtype ctx)).
  destruct (Engine.block_response _); [constructor| |constructor].
  destruct (sinkhole_answers h _ _); [constructor|done].
Qed.

Definition reply_ttl (o : option Reply) : Prop :=
  match o with Some reply => Forall ttl_ok (answers reply) | None => True end.

Lemma or_else_ttl (s1 s2 : stage) :
  (∀ h, reply_ttl (s1 h).1) → (∀ h, reply_ttl (s2 h).1) → ∀ h, reply_ttl (or_else s1 s2 h).1.
Proof.
  intros Hs1 Hs2 h. unfold or_else. specialize (Hs1 h). destruct (s1 h) as [[reply|] h1]; [done|].
  apply Hs2.
Qed.

Lemma gates_ttl now request ctx h : reply_ttl (gates now request ctx h).1.
Proof.
  unfold gates. revert h. repeat apply or_else_ttl; intros h; cbn.
  - unfold gate_rate_limit. by destruct (RateLimiter.check _ _ _) as [[] l]; cbn.
  - unfold gate_opcode. by repeat case_match; cbn.
  - unfold gate_edns_version. by repeat case_match; cbn.
  - unfold gate_any_qtype. by case_match; cbn.
  - unfold gate_class. by repeat case_match; cbn.
Qed.

Lemma pipeline_ttl ctx h : reply_ttl (pipeline ctx h).1.
Proof.
  unfold pipeline. revert h. repeat apply or_else_ttl; intros h; cbn.
  - unfold gate_schedule. by case_match; cbn.
  - unfold gate_zones. by case_match; cbn.
  - unfold gate_authority. case_match; cbn; [apply dns_records_to_rrs_ttl|done].
  - unfold gate_rewrite. destruct (Rewrite.rewrite_lookup _ _ _) as [[records| |]|]; try constructor.
    apply dns_records_to_rrs_ttl.
  - unfold gate_blocklist. cbn zeta. case_match; [|done]. apply block_reply_ttl.
Qed.

Lemma stage_resolve_ttl ctx h : Forall ttl_ok (answers (stage_resolve ctx h).1).
Proof.
  unfold stage_resolve. destruct (resolve _ _ _ _ _ _ _) as [[out|e] st]; [|constructor].
  destruct (_ && _); [apply block_reply_ttl|]. destruct (_ && _); [apply block_reply_ttl|].
  apply dns_records_to_rrs_ttl.
Qed.

Lemma request_reply_ttl now request h : Forall ttl_ok (answers (request_reply now request h).1).
Proof.
  unfold request_reply. destruct (req_query request) as [q|]; [|constructor]. cbn zeta.
  set (h0 := inc _ _). set (ctx := query_ctx _ _ _ _). unfold decide_reply.
  pose proof (gates_ttl now request ctx h0) as Hg.
  destruct (gates now request ctx h0) as [[reply|] h1]; [done|].
  pose proof (pipeline_ttl ctx h1) as Hp. destruct (pipeline ctx h1) as [[reply|] h2]; [done|].
  apply stage_resolve_ttl.
Qed.

(** C9. Every response is bounded.  Its records are the first of the reply's, all of them
    unless it is marked truncated, and each lives between 2 seconds and a day whatever
    the upstream said.  Over UDP, where hickory does not mark a response truncated by itself, a
    response is emitted within the client's advertised payload (512 bytes without EDNS, never
    more than 4096); or else it carries no record at all, is marked truncated, and would not
    fit without records either, as it echoes the options of the request.  No longer prefix of
    the reply would fit.  The echoed OPT never advertises more than 4096 bytes, nor a version
    but 0. *)
Theorem response_bounded (now : Now) (request : Request) (h : DnsHandler) :
  let reply := (request_reply now request h).1 in
  let resp := (handle_request now request h).1 in
  resp_answers resp `prefix_of` answers reply
  ∧ (resp_truncation resp = false → resp_answers resp = answers reply)
  ∧ Forall ttl_ok (resp_answers resp)
  ∧ (req_protocol request = Udp → initial_truncation request = false →
       ((∃ n, emit_len request resp = Some n ∧ n <= udp_cap request)
        ∨ resp_answers resp = [] ∧ resp_truncation resp = true
          ∧ over_cap request (code reply) (authoritative reply) true [] = true)
       ∧ ∀ k, (length (resp_answers resp) < k <= length (answers reply))%nat →
           over_cap request (code reply) (authoritative reply) true (take k (answers reply)) = true)
  ∧ 512 <= udp_cap request <= 4096
  ∧ (∀ e, resp_edns resp = Some e → max_payload e <= 4096 ∧ edns_version e = 0)
  ∧ (resp_edns resp = None ↔ req_edns request = None).
Proof.
  intros reply resp.
  pose proof (handle_request_reply now request h) as Hr. pose proof (request_reply_ttl now request h) as Httl.
  subst reply resp. destruct (request_reply now request h) as [reply h1]. cbn [fst] in *.
  rewrite Hr. clear Hr. unfold respond. cbn [fst].
  set (rrs := answers reply) in *. set (over := over_cap request (code reply) (authoritative reply) true).
  set (tr := match req_protocol request with Udp => _ | _ => _ end).
  destruct (shed_spec over (length rrs) rrs eq_refl) as (Hp & Hf & Hk).
  cbn [resp_answers resp_truncation resp_edns response].
  assert ((if tr then shed (length rrs) over rrs else rrs) `prefix_of` rrs) as Hpre by (by destruct tr).
  split; [done|]. split; [by intros [_ ->]%orb_false_iff|]. split.
  { destruct Hpre as [rest Hrest]. rewrite Hrest in Httl. by apply Forall_app in Httl as [? _]. }
  split; [|split; [|split]].
  - intros Hudp ->. cbn [orb]. destruct tr eqn:Htr.
    + split; [|exact Hk]. destruct (over (shed (length rrs) over rrs)) eqn:Ho; [|left; by eapply over_cap_fits].
      right. destruct Hf as [Hnil|]; [|done]. by rewrite Hnil in *.
    + split; [|intros k ?; lia]. left. unfold tr in Htr. rewrite Hudp in Htr. by eapply over_cap_fits.
  - unfold udp_cap, clamp, MAX_EDNS_PAYLOAD. destruct (req_edns request); lia.
  - intros e He. unfold normalized_edns in He. apply fmap_Some in He as (e0 & _ & ->).
    cbn [max_payload edns_version]. unfold MAX_EDNS_PAYLOAD.
    destruct (Z.ltb_spec 4096 (max_payload e0)); lia.
  - unfold normalized_edns. apply fmap_None.
Qed.

(** ** Denied clients *)

(** A configured zone, as the gate compares it. *)
Definition zone_form (zone : str) : str := to_ascii_lowercase (trim_end_matches "."%rc (trim zone)).

Lemma name_in_zone_spec lower zone :
  name_in_zone lower zone = true ↔ zone_form zone ≠ [] ∧ within lower (zone_form zone).
Proof.
  clear net rand validate hash_qname. unfold name_in_zone. fold (zone_form zone). rewrite <- Authority.name_within_zone_spec.
  unfold Authority.name_within_zone. destruct (zone_form zone) as [|c z] eqn:Hz; [by split; [|intros []]|].
  cbn [is_empty_str]. destruct (str_eqb lower (c :: z)); cbn [orb]; naive_solver.
Qed.

(** A policy denies a name: its schedule blocks now, or it has zones and the name is in
    none of them. *)
Definition denied (p : PolicyDecision) (name : str) : Prop :=
  pd_schedule_blocked p = true
  ∨ pd_zones_allowed p ≠ [] ∧ ∀ zone, zone ∈ pd_zones_allowed p → zone_form zone ≠ [] →
      ¬ within (to_ascii_lowercase (trim_end_matches "."%rc name)) (zone_form zone).

Lemma name_in_any_zone_spec name zones :
  name_in_any_zone name zones = false ↔
  ∀ zone, zone ∈ zones → zone_form zone ≠ [] →
    ¬ within (to_ascii_lowercase (trim_end_matches "."%rc name)) (zone_form zone).
Proof.
  unfold name_in_any_zone.
  rewrite <- not_true_iff_false, existsb_elem_of. setoid_rewrite name_in_zone_spec. clear net rand validate hash_qname. naive_solver.
Qed.

(** The handler with another authority, blocklist, resolver and rewrite map. *)
Definition with_backends (a : Authority.Authority) (b : Engine.BlocklistEngine) (r : Resolver)
    (w : Rewrite.RewriteMap) (h : DnsHandler) : DnsHandler :=
  {| h_authority := a; h_blocklist := b; h_resolver := r; h_rewrites := w;
     h_policy_by_ip := h_policy_by_ip h; h_sinkhole_ip := h_sinkhole_ip h;
     h_rate_limiter := h_rate_limiter h; h_metrics := h_metrics h;
     h_query_log := h_query_log h; h_audit := h_audit h; h_odoh := h_odoh h |}.

(** A stage that does not look at them. *)
Definition blind (s : stage) : Prop :=
  ∀ a b r w h, s (with_backends a b r w h) = ((s h).1, with_backends a b r w (s h).2).

Lemma or_else_blind s1 s2 : blind s1 → blind s2 → blind (or_else s1 s2).
Proof.
  intros Hs1 Hs2 a b r w h. unfold or_else. rewrite Hs1. destruct (s1 h) as [[reply|] h1]; [done|].
  cbn [fst snd]. apply Hs2.
Qed.

Lemma gates_blind now request ctx : blind (gates now request ctx).
Proof.
  unfold gates. repeat apply or_else_blind; intros a b r w h.
  - unfold gate_rate_limit. cbn [with_backends h_rate_limiter].
    by destruct (RateLimiter.check _ _ _) as [[] l].
  - done.
  - done.
  - unfold gate_any_qtype. case_match; [|done]. by case_match.
  - done.
Qed.

Definition policy_gates (ctx : QueryCtx) : stage := or_else (gate_schedule ctx) (gate_zones ctx).

Lemma policy_gates_blind ctx : blind (policy_gates ctx).
Proof.
  apply or_else_blind; intros a b r w h.
  - unfold gate_schedule. by case_match.
  - unfold gate_zones. by case_match.
Qed.

Lemma or_else_left (s1 s2 : stage) h reply h1 :
  s1 h = (Some reply, h1) → or_else s1 s2 h = (Some reply, h1).
Proof. intros Hs. unfold or_else. by rewrite Hs. Qed.

Lemma or_else_right (s1 s2 : stage) h h1 : s1 h = (None, h1) → or_else s1 s2 h = s2 h1.
Proof. intros Hs. unfold or_else. by rewrite Hs. Qed.

Lemma pipeline_policy ctx h reply h1 :
  policy_gates ctx h = (Some reply, h1) → pipeline ctx h = (Some reply, h1).
Proof. intros Hp. unfold pipeline. do 3 apply or_else_left. exact Hp. Qed.

Lemma policy_gates_denied ctx h :
  denied (policy ctx) (qname_canon ctx) →
  ∃ h1, policy_gates ctx h = (Some (reject Refused), h1) ∧ h_odoh h1 = h_odoh h.
Proof.
  intros Hd. unfold policy_gates, or_else, gate_schedule.
  destruct (pd_schedule_blocked (policy ctx)) eqn:Hs; [by eexists|].
  destruct Hd as [?|[Hz Hn]]; [congruence|]. unfold gate_zones.
  rewrite bool_decide_false by (intros ?%length_zero_iff_nil; done). cbn [negb andb].
  apply name_in_any_zone_spec in Hn. rewrite Hn. by eexists.
Qed.

(** The codes of a rejection. *)
Definition rejection (c : ResponseCode) : Prop := c = Refused ∨ c = NotImp ∨ c = BADVERS.

Definition rejects (o : option Reply) : Prop :=
  match o with Some reply => ∃ c, reply = reject c ∧ rejection c | None => True end.

Lemma gates_reject now request ctx h : rejects (gates now request ctx h).1.
Proof.
  unfold gates, or_else, gate_rate_limit. destruct (RateLimiter.check _ _ _) as [[] l]; cbn.
  2:{ exists Refused. by split; [|left]. }
  unfold gate_opcode. destruct (req_op_code request), (req_message_type request); cbn;
    try (exists NotImp; by split; [|right; left]); try (exists Refused; by split; [|left]).
  unfold gate_edns_version. destruct (req_edns request) as [e|]; [destruct (0 <? edns_version e)|];
    cbn; try (exists BADVERS; by split; [|right; right]);
    (unfold gate_any_qtype; destruct (bool_decide _); cbn; [exists Refused; by split; [|left]|]);
    (unfold gate_class; destruct (qclass ctx); cbn; [done|exists NotImp; by split; [|right; left]]).
Qed.

Lemma request_reply_denied now request h q :
  req_query request = Some q →
  denied (resolve_policy h (now_unix now) (req_src request))
    (canonical_qname (name_to_string (q_name q))) →
  ∃ c h1, rejection c ∧ request_reply now request h = (reject c, h1) ∧ h_odoh h1 = h_odoh h
    ∧ ∀ a b r w, (request_reply now request (with_backends a b r w h)).1 = reject c.
Proof.
  intros Hq Hd. unfold request_reply. rewrite Hq. cbn zeta.
  set (ctx := query_ctx h now request q). set (h0 := inc _ _).
  assert (∀ a b r w, query_ctx (with_backends a b r w h) now request q = ctx) as Hctx by done.
  unfold decide_reply.
  pose proof (gates_reject now request ctx h0) as Hg.
  pose proof (gates_frame Queries now request ctx eq_refl h0) as [Hf _].
  pose proof (gates_blind now request ctx) as Hbl.
  destruct (gates now request ctx h0) as [[reply|] h1] eqn:E; cbn [fst snd] in *.
  - destruct Hg as (c & -> & Hc). exists c, h1. split; [done|]. split; [done|].
    split; [unfold frame in Hf; by destruct_and!|]. intros a b r w. rewrite Hctx.
    specialize (Hbl a b r w h0). rewrite E in Hbl. change (inc _ (inc _ (with_backends a b r w h)))
      with (with_backends a b r w h0). by rewrite Hbl.
  - destruct (policy_gates_denied ctx h1 Hd) as (h2 & Hp & Ho).
    rewrite (pipeline_policy ctx h1 _ _ Hp). exists Refused, h2. split; [by left|]. split; [done|].
    split; [trans (h_odoh h1); [done|unfold frame in Hf; by destruct_and!]|]. intros a b r w. rewrite Hctx.
    specialize (Hbl a b r w h0). rewrite E in Hbl. change (inc _ (inc _ (with_backends a b r w h)))
      with (with_backends a b r w h0). rewrite Hbl. cbn [fst snd].
    pose proof (policy_gates_blind ctx a b r w h1) as Hpb. rewrite Hp in Hpb.
    by rewrite (pipeline_policy ctx _ _ _ Hpb).
Qed.

(** C5. A denied client is isolated.  When a client's schedule blocks it now, or the name is
    outside the zones it is allowed, the query is rejected without a record; neither the
    authority, nor the rewrite map, nor the blocklist, nor the resolver has any influence
    on the response, and nothing is sent upstream. *)
Theorem denied_client_isolated (now : Now) (request : Request) (h : DnsHandler) (q : QueryInfo) :
  req_query request = Some q →
  denied (resolve_policy h (now_unix now) (req_src request))
    (canonical_qname (name_to_string (q_name q))) →
  let '(resp, h') := handle_request now request h in
  resp_answers resp = [] ∧ rejection (resp_code resp)
  ∧ h_odoh h' = h_odoh h
  ∧ ∀ a b r w, (handle_request now request (with_backends a b r w h)).1 = resp.
Proof.
  intros Hq Hd.
  destruct (request_reply_denied now request h q Hq Hd) as (c & h1 & Hc & Hr & Ho & Hb).
  pose proof (handle_request_reply now request h) as Hh. rewrite Hr in Hh. rewrite Hh.
  unfold respond. cbn [reject code authoritative answers length shed].
  set (tr := match req_protocol request with Udp => _ | _ => _ end).
  assert ((if tr then [] else []) = ([] : list RR)) as -> by (by destruct tr).
  split; [done|]. split; [done|]. split; [done|]. intros a b r w.
  pose proof (handle_request_reply now request (with_backends a b r w h)) as Hh'.
  specialize (Hb a b r w). destruct (request_reply now request (with_backends a b r w h)) as [reply h2].
  cbn [fst] in Hb. subst reply. rewrite Hh'. unfold respond. cbn [fst reject code authoritative answers length shed].
  fold tr. by destruct tr.
Qed.
(** ** The order of the pipeline *)

(** What the stages see of a question. *)
Section question.
Context (h : DnsHandler) (ctx : QueryCtx).

Definition authority_says : option (list DnsRecord) :=
  Authority.lookup (h_authority h) (qname_canon ctx) (qtype_label ctx).
Definition rewrite_says : option Rewrite.RewriteDecision :=
  Rewrite.rewrite_lookup (h_rewrites h) (qname_canon ctx) (qtype ctx).
Definition blocklisted : bool :=
  Engine.is_blocked_for_group (h_blocklist h) (qname_canon ctx) (pd_blocklist_group (policy ctx)).
Definition filtered_client : bool := negb (pd_blocklist_bypass (policy ctx)).
Definition upstream_says : result resolver_error ResolveOutcome :=
  (resolve net rand validate (h_resolver h) (qname ctx) (qtype_label ctx) (h_odoh h)).1.
End question.

(** The reasons to refuse a question, in the order they are checked: the gates', which look
    at the request and the rate limiter, and the policy's. *)
Definition gate_refusals (now : Now) (request : Request) (h : DnsHandler) (ctx : QueryCtx) :
    list (bool * ResponseCode) :=
  [ (bool_decide ((RateLimiter.check (h_rate_limiter h) (src_ip ctx) (now_instant now)).1
       = RateLimiter.Refuse), Refused);
    (bool_decide (req_op_code request = OtherOpCode), NotImp);
    (bool_decide (req_message_type request = TypeResponse), Refused);
    (0 <? default 0 (edns_version <$> req_edns request), BADVERS);
    (bool_decide (qtype ctx = RT_ANY ∨ qtype ctx = RT_AXFR ∨ qtype ctx = RT_IXFR), Refused);
    (bool_decide (qclass ctx = OtherClass), NotImp) ].
Definition policy_refusals (ctx : QueryCtx) : list (bool * ResponseCode) :=
  [ (pd_schedule_blocked (policy ctx), Refused);
    (negb (bool_decide (length (pd_zones_allowed (policy ctx)) = 0%nat))
       && negb (name_in_any_zone (qname_canon ctx) (pd_zones_allowed (policy ctx))), Refused) ].

(** The code of the first one that holds. *)
Definition first_code (l : list (bool * ResponseCode)) : option ResponseCode :=
  snd <$> List.find fst l.
Definition refusal (now : Now) (request : Request) (h : DnsHandler) (ctx : QueryCtx) :
    option ResponseCode :=
  first_code (gate_refusals now request h ctx ++ policy_refusals ctx).

Lemma first_code_app l1 l2 :
  first_code (l1 ++ l2) = match first_code l1 with Some c => Some c | None => first_code l2 end.
Proof.
  induction l1 as [|[b c] l1 IH]; [done|]. unfold first_code in *. cbn. by destruct b.
Qed.

Lemma gates_cases now request ctx h :
  (gates now request ctx h).1 = reject <$> first_code (gate_refusals now request h ctx).
Proof.
  unfold gates, or_else, gate_refusals, first_code, gate_rate_limit.
  destruct (RateLimiter.check _ _ _) as [[] l]; [|done]. unfold gate_opcode, gate_edns_version.
  destruct (req_op_code request), (req_message_type request); try done.
  destruct (req_edns request) as [e|]; cbn -[Z.ltb]; [destruct (0 <? edns_version e); [done|]|];
    (unfold gate_any_qtype; cbn; destruct (bool_decide _); [done|]);
    unfold gate_class; by destruct (qclass ctx).

Qed.

(** The reply of a local stage, in the order they are asked. *)
Inductive local_reply (refused : option ResponseCode) (h : DnsHandler) (ctx : QueryCtx) :
    Reply → Prop :=
| by_rejection c : refused = Some c → local_reply refused h ctx (reject c)
| by_authority records :
    refused = None → authority_says h ctx = Some records →
    local_reply refused h ctx (authority_reply records)
| by_rewrite decision :
    refused = None → authority_says h ctx = None → rewrite_says h ctx = Some decision →
    local_reply refused h ctx (rewrite_reply decision)
| by_blocklist :
    refused = None → authority_says h ctx = None → rewrite_says h ctx = None →
    filtered_client ctx = true → blocklisted h ctx = true →
    local_reply refused h ctx (block_reply h ctx).

(** The question goes upstream. *)
Definition goes_upstream (refused : option ResponseCode) (h : DnsHandler) (ctx : QueryCtx) : Prop :=
  refused = None ∧ authority_says h ctx = None ∧ rewrite_says h ctx = None
  ∧ (filtered_client ctx = true → blocklisted h ctx = false).

Lemma block_reply_frame h h' ctx : frame h h' → block_reply h' ctx = block_reply h ctx.
Proof.
  intros Hf. unfold frame in Hf. destruct_and!.
  assert (build_block_response h' (qname ctx) (qtype ctx)
    = build_block_response h (qname ctx) (qtype ctx)) as Hb.
  { unfold build_block_response, sinkhole_answers. by repeat match goal with
      He : _ h' = _ h |- _ => rewrite He; clear He end. }
  unfold block_reply. by rewrite Hb.
Qed.

Lemma pipeline_cases ctx h :
  let '(o, h1) := pipeline ctx h in
  let refused := first_code (policy_refusals ctx) in
  match o with
  | Some reply => local_reply refused h ctx reply
  | None => goes_upstream refused h ctx
  end.
Proof.
  unfold pipeline, or_else, policy_refusals, first_code, gate_schedule, gate_zones.
  destruct (pd_schedule_blocked _); [by constructor|]. cbn [List.find fst].
  destruct (negb _ && _); [by constructor|].
  unfold gate_authority. destruct (Authority.lookup _ _ _) as [records|] eqn:Ha; [by constructor|].
  unfold gate_rewrite. destruct (Rewrite.rewrite_lookup _ _ _) as [decision|] eqn:Hw; [by constructor|].
  unfold gate_blocklist. cbn zeta.
  destruct (pd_blocklist_bypass (policy ctx)) eqn:Hby, (Engine.is_blocked_for_group _ _ _) eqn:Hbl;
    cbn [negb andb]; try (split; [done|]; split; [done|]; split; [done|]); unfold filtered_client; rewrite ?Hby; try done.
  by constructor; unfold filtered_client; rewrite ?Hby.
Qed.

Lemma local_reply_frame refused h h' ctx reply :
  frame h h' → local_reply refused h' ctx reply → local_reply refused h ctx reply.
Proof.
  intros Hf Hl. pose proof (block_reply_frame h h' ctx Hf) as Hb. unfold frame in Hf. destruct_and!.
  destruct Hl as [c Hc|records Hr Ha|decision Hr Ha Hw|Hr Ha Hw Hfc Hbl];
    unfold authority_says, rewrite_says, blocklisted in *.
  - by constructor.
  - constructor; unfold authority_says; congruence.
  - constructor; unfold authority_says, rewrite_says; congruence.
  - rewrite Hb. constructor; unfold authority_says, rewrite_says, blocklisted; congruence.
Qed.

Lemma goes_upstream_frame refused h h' ctx :
  frame h h' → goes_upstream refused h' ctx → goes_upstream refused h ctx.
Proof.
  intros Hf. unfold frame in Hf. destruct_and!.
  unfold goes_upstream, authority_says, rewrite_says, blocklisted. congruence.
Qed.

Lemma decide_reply_cases now request ctx h :
  let '(reply, h') := decide_reply now request ctx h in
  let refused := refusal now request h ctx in
  local_reply refused h ctx reply ∧ h_odoh h' = h_odoh h ∧ keeps ResolverQueries h h'
  ∨ goes_upstream refused h ctx ∧ ∃ h1, frame h h1 ∧ stage_resolve ctx h1 = (reply, h').
Proof.
  unfold decide_reply, refusal. rewrite first_code_app.
  pose proof (gates_cases now request ctx h) as Hg.
  pose proof (gates_frame ResolverQueries now request ctx eq_refl h) as [Hf1 Hk1].
  assert (∀ h h', frame h h' → h_odoh h' = h_odoh h) as Hodoh.
  { intros ?? Hf. unfold frame in Hf. by destruct_and!. }
  destruct (gates now request ctx h) as [[reply|] h1]; cbn [fst snd] in *.
  { left. destruct (first_code (gate_refusals _ _ _ _)) as [c|]; [|done]. simplify_eq/=.
    split; [by constructor|]. split; [by apply Hodoh|done]. }
  destruct (first_code (gate_refusals _ _ _ _)); [done|].
  pose proof (pipeline_cases ctx h1) as Hp.
  pose proof (pipeline_frame ResolverQueries ctx eq_refl h1) as [Hf2 Hk2].
  destruct (pipeline ctx h1) as [[reply|] h2]; cbn [snd] in *.
  - left. split; [by eapply local_reply_frame|].
    split; [by apply Hodoh; etrans|unfold keeps in *; congruence].
  - destruct (stage_resolve ctx h2) as [reply h3] eqn:Es. right.
    split; [by eapply goes_upstream_frame|]. exists h2. split; [by etrans|done].
Qed.


(** ** The policy of a client *)

(** The policy a list of them has for an address: the last one that names it. *)
Definition names_client (ip : ip_addr) (p : NodePolicy) : bool :=
  bool_decide (canonical_client_ip <$> (policy_client_ip p ≫= parse_ip) = Some (canonical_client_ip ip)).
Definition policy_for (policies : list NodePolicy) (ip : ip_addr) : option NodePolicy :=
  List.find (names_client ip) (rev policies).

Lemma build_policy_map_lookup policies ip :
  build_policy_map policies !! canonical_client_ip ip = compile_policy <$> policy_for policies ip.
Proof.
  unfold policy_for, build_policy_map. induction policies as [|p ps IH] using rev_ind; [done|].
  rewrite foldl_app, rev_unit. cbn [foldl List.find]. unfold add_policy at 1, names_client at 1.
  destruct (policy_client_ip p ≫= parse_ip) as [ip'|]; cbn [fmap option_fmap option_map].
  - destruct (decide (canonical_client_ip ip' = canonical_client_ip ip)) as [He|Hne].
    + rewrite He, lookup_insert_eq. by rewrite bool_decide_true.
    + rewrite lookup_insert_ne by done. by rewrite bool_decide_false by congruence.
  - by rewrite bool_decide_false.
Qed.

Lemma policy_for_listed policies p ip :
  p ∈ policies → policy_client_ip p ≫= parse_ip = Some ip → is_Some (policy_for policies ip).
Proof.
  intros Hp Hip. unfold policy_for. destruct (List.find _ _) as [q|] eqn:Hf; [done|].
  apply find_none with (x := p) in Hf; [|by apply in_rev; rewrite rev_involutive; apply list_elem_of_In].
  unfold names_client in Hf. rewrite Hip in Hf. by apply bool_decide_eq_false in Hf.
Qed.

(** What that policy decides at a time. *)
Definition policy_now (policies : list NodePolicy) (unix : Z) (ip : ip_addr) : PolicyDecision :=
  match policy_for policies ip with
  | Some p =>
      {| pd_blocklist_bypass := policy_blocklist_bypass p;
         pd_zones_allowed := policy_zones_allowed p;
         pd_log_all_queries := policy_log_all_queries p;
         pd_schedule_blocked :=
           match Schedule.compile (policy_block_windows p) with
           | Ok s => negb (Schedule.is_empty s) && Schedule.is_blocked_at_conservative s unix
           | Err _ => false
           end;
         pd_blocklist_group := policy_blocklist_group p |}
  | None => PolicyDecision_default
  end.

Lemma resolve_policy_now h policies unix ip :
  h_policy_by_ip h = build_policy_map policies →
  resolve_policy h unix ip = policy_now policies unix ip.
Proof.
  intros Hp. unfold resolve_policy, policy_now. rewrite Hp, build_policy_map_lookup.
  destruct (policy_for policies ip) as [p|]; [|done]. cbn. by destruct (Schedule.compile _).
Qed.

(** The policy of a client.  After a reload a client has the last policy that names its
    address, an IPv4 address and the IPv6 address it is mapped to being one client, with
    its windows (none, when they do not compile) evaluated now; a client no policy names
    has the policy that allows everything. *)
Theorem policy_of_client (h : DnsHandler) (policies : list NodePolicy) (unix : Z) (ip : ip_addr) :
  resolve_policy (swap_policies policies h) unix ip = policy_now policies unix ip
  ∧ ∀ v4 v6, to_ipv4_mapped v6 = Some v4 →
      policy_for policies (V6 v6) = policy_for policies (V4 v4).
Proof.
  split; [by apply resolve_policy_now|].
  intros v4 v6 Hm. unfold policy_for, names_client. cbn [canonical_client_ip]. by rewrite Hm.
Qed.

(** ** Upstream answers *)

(** What the answer-time defences leave of an outcome for a client that is not exempt. *)
Definition clean (h : DnsHandler) (ctx : QueryCtx) (out : ResolveOutcome) : Prop :=
  ∀ rec, rec ∈ out_records out →
    match rec_data rec with
    | Cname target =>
        Engine.block_cname_cloaking (h_blocklist h) = true →
        Engine.is_blocked_for_group (h_blocklist h) target (pd_blocklist_group (policy ctx)) = false
    | A ip => Engine.is_response_ip_blocked (h_blocklist h) (V4 ip) = false
    | Aaaa ip => Engine.is_response_ip_blocked (h_blocklist h) (V6 ip) = false
    | _ => True
    end.

Lemma denylist_inactive e ip :
  Engine.response_ip_denylist_active e = false → Engine.is_response_ip_blocked e ip = false.
Proof.
  unfold Engine.response_ip_denylist_active, Engine.is_response_ip_blocked, IpDenylist.is_empty.
  intros Ha. unfold IpDenylist.contains.
  destruct (IpDenylist.deny_v4 _); [|done]. destruct (IpDenylist.deny_v6 _); [|done].
  destruct ip as [v4|v6]; [done|]. cbn. by destruct (to_ipv4_mapped v6).
Qed.

Lemma not_defended_clean h ctx out :
  filtered_client ctx = true →
  Engine.block_cname_cloaking (h_blocklist h) && negb (pd_blocklist_bypass (policy ctx))
    && cname_chain_blocked h (out_records out) (pd_blocklist_group (policy ctx)) = false →
  Engine.response_ip_denylist_active (h_blocklist h)
    && negb (pd_blocklist_bypass (policy ctx)) && response_ip_blocked h (out_records out) = false →
  clean h ctx out.
Proof.
  unfold filtered_client. intros -> Hc Hi. rewrite andb_true_r in Hc, Hi. intros rec Hrec.
  assert (Engine.response_ip_denylist_active (h_blocklist h) = true →
    response_ip_blocked h (out_records out) = false) as Hip.
  { intros Ha. by rewrite Ha in Hi. }
  assert (∀ ip, rec_data rec = A ip ∨ rec_data rec = Aaaa ip → response_ip_blocked h (out_records out) = false →
    match rec_data rec with A ip => Engine.is_response_ip_blocked (h_blocklist h) (V4 ip)
    | Aaaa ip => Engine.is_response_ip_blocked (h_blocklist h) (V6 ip) | _ => false end = false) as Hin.
  { intros ip _ Hb. apply not_true_iff_false in Hb. apply not_true_iff_false. intros Hx. apply Hb.
    unfold response_ip_blocked. apply existsb_elem_of. by exists rec. }
  destruct (rec_data rec) as [ip|ip|t| | | | |] eqn:Hd; try done.
  - destruct (Engine.response_ip_denylist_active _) eqn:Ha; [|by apply denylist_inactive].
    apply (Hin ip); auto.
  - destruct (Engine.response_ip_denylist_active _) eqn:Ha; [|by apply denylist_inactive].
    apply (Hin ip); auto.
  - intros Hon. rewrite Hon in Hc. cbn [andb] in Hc. apply not_true_iff_false in Hc.
    apply not_true_iff_false. intros Hx. apply Hc. apply existsb_elem_of. exists rec.
    by rewrite Hd.
Qed.

(** The reply of the resolver stage. *)
Inductive upstream_reply (h : DnsHandler) (ctx : QueryCtx) : Reply → Prop :=
| by_failure e :
    upstream_says h ctx = Err e →
    upstream_reply h ctx {| code := ServFail; authoritative := false; answers := [];
                            served_by := QueryLog.ByServerFailure |}
| by_defence out :
    upstream_says h ctx = Ok out → filtered_client ctx = true → ¬ clean h ctx out →
    upstream_reply h ctx (block_reply h ctx)
| by_resolver out :
    upstream_says h ctx = Ok out → (filtered_client ctx = true → clean h ctx out) →
    upstream_reply h ctx (resolved_reply out).

Lemma cloaked_not_clean h ctx out :
  Engine.block_cname_cloaking (h_blocklist h) = true →
  cname_chain_blocked h (out_records out) (pd_blocklist_group (policy ctx)) = true → ¬ clean h ctx out.
Proof.
  intros Hon (rec & Hrec & Hb)%existsb_elem_of Hc. specialize (Hc rec Hrec).
  destruct (rec_data rec); try done. by rewrite Hc in Hb.
Qed.

Lemma denylisted_not_clean h ctx out :
  response_ip_blocked h (out_records out) = true → ¬ clean h ctx out.
Proof.
  intros (rec & Hrec & Hb)%existsb_elem_of Hc. specialize (Hc rec Hrec).
  destruct (rec_data rec); congruence.
Qed.

Lemma stage_resolve_cases ctx h : upstream_reply h ctx (stage_resolve ctx h).1.
Proof.
  unfold stage_resolve. pose proof (eq_refl (upstream_says h ctx)) as Hu. unfold upstream_says at 1 in Hu.
  cbn [inc inc_n h_resolver h_odoh].
  destruct (resolve net rand validate (h_resolver h) (qname ctx) (qtype_label ctx) (h_odoh h))
    as [[out|e] st]; cbn [fst] in Hu; [|by econstructor].
  set (h1 := inc_n _ _ _). change (block_reply h1 ctx) with (block_reply h ctx).
  change (h_blocklist h1) with (h_blocklist h).
  change (cname_chain_blocked h1) with (cname_chain_blocked h).
  change (response_ip_blocked h1) with (response_ip_blocked h).
  set (cloaked := Engine.block_cname_cloaking (h_blocklist h) && _ && _).
  set (denied := Engine.response_ip_denylist_active (h_blocklist h) && _ && _).
  destruct cloaked eqn:Hc; [|destruct denied eqn:Hi]; cbn [fst]; subst cloaked denied.
  - bools. apply (by_defence h ctx out); [done|by apply negb_true_iff|by apply cloaked_not_clean].
  - bools. apply (by_defence h ctx out); [done|by apply negb_true_iff|by apply denylisted_not_clean].
  - apply by_resolver; [done|]. intros Hf. by eapply not_defended_clean.
Qed.

Lemma upstream_reply_frame h h1 ctx r :
  frame h h1 → upstream_reply h1 ctx r → upstream_reply h ctx r.
Proof.
  intros Hf Hu. pose proof (block_reply_frame h h1 ctx Hf) as Hb. unfold frame in Hf. destruct_and!.
  assert (upstream_says h1 ctx = upstream_says h ctx) as Hs by (unfold upstream_says; congruence).
  assert (∀ out, clean h1 ctx out ↔ clean h ctx out) as Hcl.
  { intros out. unfold clean. by replace (h_blocklist h1) with (h_blocklist h). }
  destruct Hu as [e He|out Ho Hf Hn|out Ho Hn]; rewrite Hs in *.
  - by econstructor.
  - rewrite Hb. eapply by_defence; [done..|]. by rewrite <- Hcl.
  - apply by_resolver; [done|]. intros. by apply Hcl, Hn.
Qed.

(** C4. Upstream answers are defended, and failures fail closed.  A query no local stage
    decides is answered from what the resolver said of the client's own question:
    [SERVFAIL] without records exactly when it failed; the block response when the
    answer has an alias to a blocked name (cloaking defence on) or an address on the
    denylist and the client is not exempt; and otherwise the resolver's records, which
    for such a client hold neither. *)
Theorem upstream_replies_defended (now : Now) (request : Request) (h : DnsHandler) (q : QueryInfo) :
  req_query request = Some q →
  let ctx := query_ctx h now request q in
  goes_upstream (refusal now request h ctx) h ctx →
  upstream_reply h ctx (request_reply now request h).1.
Proof.
  intros Hq ctx Hup. unfold request_reply. rewrite Hq. cbn zeta. fold ctx.
  set (h0 := inc (QueriesByQtype (qtype_label ctx)) (inc Queries h)).
  pose proof (decide_reply_cases now request ctx h0) as Hc.
  destruct (decide_reply now request ctx h0) as [reply h']. cbn [fst].
  destruct Hc as [(Hl & _ & _)|(Hu & h1 & Hf1 & Hs)].
  - apply (local_reply_frame _ h h0) in Hl; [|done]. destruct Hup as (Hr & Ha & Hw & Hbl).
    change (refusal now request h0 ctx) with (refusal now request h ctx) in Hl.
    destruct Hl as [c Hc|records _ Har|d _ _ Hwr|_ _ _ Hfc Hb]; try congruence.
    by rewrite (Hbl Hfc) in Hb.
  - pose proof (stage_resolve_cases ctx h1) as Hr. rewrite Hs in Hr.
    exact (upstream_reply_frame h h1 ctx reply Hf1 Hr).
Qed.
End handler.

(** ** Records through the daemon and back

    Between an upstream and a client the names of a record are text: hickory prints them and
    reads them again, which turns them into lower case and fails for some. *)

Section relay.
Context `{Hickory} `{Unicode}.

(** The text an owner is kept as. *)
Definition owner_text (n : HName) : str := rec_name (record_new (name_to_utf8 n) (A 0) 0).

Definition data_names (data : RData) : list HName :=
  match data with
  | RD_CNAME n | RD_PTR n | RD_NS n | RD_MX _ n | RD_SRV _ _ _ n => [n]
  | _ => []
  end.

(** A record of a type the daemon serves, each name of which can be read again. *)
Definition sendable (rr : RR) : Prop :=
  (∀ o, rr_data rr ≠ RD_Other o)
  ∧ is_Some (name_from_str (owner_text (rr_name rr)))
  ∧ ∀ n, n ∈ data_names (rr_data rr) → is_Some (name_from_str (name_to_utf8 n)).

(** Names that can be read again come back as the [same] name. *)
Definition read_back (same : HName → HName → Prop) (rr : RR) : Prop :=
  (∀ m, name_from_str (owner_text (rr_name rr)) = Some m → same (rr_name rr) m)
  ∧ ∀ n m, n ∈ data_names (rr_data rr) → name_from_str (name_to_utf8 n) = Some m → same n m.

Definition same_data (same : HName → HName → Prop) (data data' : RData) : Prop :=
  match data, data' with
  | RD_A ip, RD_A ip' | RD_AAAA ip, RD_AAAA ip' => ip = ip'
  | RD_CNAME n, RD_CNAME n' | RD_PTR n, RD_PTR n' | RD_NS n, RD_NS n' => same n n'
  | RD_MX preference n, RD_MX preference' n' => preference = preference' ∧ same n n'
  | RD_SRV priority weight port n, RD_SRV priority' weight' port' n' =>
      priority = priority' ∧ weight = weight' ∧ port = port' ∧ same n n'
  | RD_TXT parts, RD_TXT parts' => parts = parts'
  | _, _ => False
  end.

(** What is sent of the records of an upstream, in order. *)
Inductive relayed (same : HName → HName → Prop) : list RR → list RR → Prop :=
| relayed_nil : relayed same [] []
| relayed_sent rr rr' rrs rrs' :
    sendable rr →
    same (rr_name rr) (rr_name rr') → same_data same (rr_data rr) (rr_data rr') →
    rr_ttl rr' = Z.max 2 (Z.min 86400 (rr_ttl rr)) →
    relayed same rrs rrs' → relayed same (rr :: rrs) (rr' :: rrs')
| relayed_dropped rr rrs rrs' :
    ¬ sendable rr → relayed same rrs rrs' → relayed same (rr :: rrs) rrs'.

Lemma data_relayed same data :
  (∀ n m, n ∈ data_names data → name_from_str (name_to_utf8 n) = Some m → same n m) →
  match rdata_to_record_data data ≫= data_to_rdata with
  | Some data' => same_data same data data'
      ∧ (∀ o, data ≠ RD_Other o) ∧ (∀ n, n ∈ data_names data → is_Some (name_from_str (name_to_utf8 n)))
  | None => (∃ o, data = RD_Other o) ∨ ∃ n, n ∈ data_names data ∧ name_from_str (name_to_utf8 n) = None
  end.
Proof.
  intros Hs. destruct data as [ip|ip|n|n|n|p n|p w q n|parts|o]; cbn in *;
    try (split; [done|]; split; [done|]; by intros ? ?%elem_of_nil); [..|by left; eexists];
    (destruct (name_from_str (name_to_utf8 n)) as [m|] eqn:E; cbn;
      [|right; exists n; split; [by left|done]];
      split; [repeat split; by apply Hs; [left|]|];
      split; [done|intros n' ->%list_elem_of_singleton; by eexists]).
Qed.

Lemma round_trip rr :
  record_to_dns_record rr ≫= dns_record_to_rr =
    data ← rdata_to_record_data (rr_data rr);
    name ← name_from_str (owner_text (rr_name rr));
    data' ← data_to_rdata data;
    Some {| rr_name := name; rr_ttl := record_ttl (rr_ttl rr); rr_data := data' |}.
Proof. unfold record_to_dns_record. by destruct (rdata_to_record_data (rr_data rr)). Qed.

Lemma record_relayed same rr :
  read_back same rr →
  match record_to_dns_record rr ≫= dns_record_to_rr with
  | Some rr' => sendable rr ∧ same (rr_name rr) (rr_name rr') ∧ same_data same (rr_data rr) (rr_data rr')
      ∧ rr_ttl rr' = Z.max 2 (Z.min 86400 (rr_ttl rr))
  | None => ¬ sendable rr
  end.
Proof.
  intros [Ho Hd]. pose proof (data_relayed same (rr_data rr) Hd) as Hr.
  rewrite round_trip. unfold sendable.
  destruct (rdata_to_record_data (rr_data rr)) as [data|] eqn:Ed; cbn [mbind option_bind] in *.
  2: { intros (Hn & _ & Hs). destruct Hr as [[o Hr]|(n & Hn' & Hr)]; [by destruct (Hn o)|].
       destruct (Hs n Hn') as [m Hm]. congruence. }
  destruct (name_from_str (owner_text (rr_name rr))) as [m|] eqn:Eo; cbn [mbind option_bind].
  2: { by intros (_ & [? ?] & _). }
  destruct (data_to_rdata data) as [data'|]; cbn [mbind option_bind rr_name rr_data rr_ttl].
  - destruct Hr as (Hsame & Hserved & Hread). repeat split; eauto.
    unfold record_ttl, clamp, MIN_POSITIVE_CACHE_TTL_SECS, MAX_POSITIVE_CACHE_TTL_SECS, u32_max. lia.
  - intros (Hn & _ & Hs). destruct Hr as [[o Hr]|(n & Hn' & Hr)]; [by destruct (Hn o)|].
    destruct (Hs n Hn') as [m' Hm]. congruence.
Qed.

(** C25. Records survive the daemon.  Of what the resolver reads of an upstream's answer the
    handler writes back, in order, every record of a type that is served whose names hickory
    can read again, and no other: the same owner and data, with the TTL between 2 seconds and
    a day.  Names are the same for the client in any sense in which those of these records
    that can be read again come back the same, such as up to case. *)
Theorem answers_relayed (same : HName → HName → Prop) (rrs : list RR) :
  Forall (read_back same) rrs →
  relayed same rrs (dns_records_to_rrs (lookup_to_dns_records rrs)).
Proof.
  unfold dns_records_to_rrs, lookup_to_dns_records.
  induction 1 as [|rr rrs Hrr _ IH]; [constructor|].
  pose proof (record_relayed same rr Hrr) as Hone. cbn.
  destruct (record_to_dns_record rr) as [rec|]; cbn in *; [|by constructor].
  destruct (dns_record_to_rr rec) as [rr'|]; [|by constructor].
  destruct Hone as (? & ? & ? & ?). by constructor.
Qed.
End relay.

(** ** Witnesses: a handler over the demo components

    Client 10.0.0.9 may ask for [lan] names only; other clients have no policy. *)

#[local] Existing Instances demo_hickory demo_upstream demo_odoh ascii_only RegexRules.literal_regex.

(** A hundred bytes an answer. *)
Definition demo_server : @Server demo_hickory :=
  {| name_to_string := λ n : @HName demo_hickory, n; initial_truncation := λ _, false;
     emit_len := λ _ resp, Some (12 + 100 * Z.of_nat (length (resp_answers resp))
       + match resp_edns resp with Some e => 11 + Z.of_nat (length (edns_rest e)) | None => 0 end);
     rcode_low := λ c, match c with NoError => 0 | NXDomain => 3 | Refused => 5 | _ => 2 end |}.
#[local] Existing Instance demo_server.

Definition demo_policy : NodePolicy :=
  {| policy_node_id := None; policy_client_ip := Some "10.0.0.9"%rs; policy_blocklist_bypass := false;
     policy_zones_allowed := ["Lan."%rs]; policy_log_all_queries := true;
     policy_block_windows := []; policy_blocklist_group := None |}.

Definition demo_handler : DnsHandler :=
  {| h_authority := Authority.demo_static_authority; h_blocklist := Engine.demo_engine;
     h_resolver := demo_resolver; h_rewrites := Rewrite.from_rules Rewrite.demo_rules;
     h_policy_by_ip := build_policy_map [demo_policy]; h_sinkhole_ip := None;
     h_rate_limiter := RateLimiter.demo_limiter; h_metrics := λ _, 0;
     h_query_log := QueryLog.log_new 4; h_audit := []; h_odoh := demo_odoh_state |}.

Definition demo_now : Now := {| now_instant := 2000000000; now_unix := 1700000000 |}.

Definition demo_question (name : str) : QueryInfo :=
  @Build_QueryInfo demo_hickory name 1 ClassIN.
Definition demo_request (src : Z) (name : str) : Request :=
  {| req_src := V4 src; req_protocol := Udp; req_op_code := OpQuery; req_message_type := TypeQuery;
     req_edns := Some {| max_payload := 65535; edns_version := 0; edns_rest := [] |};
     req_query := Some (demo_question name) |}.

Definition demo_handle (request : Request) : Response * DnsHandler :=
  handle_request demo_net demo_draws demo_validate QueryLog.demo_hash demo_now request demo_handler.
Definition demo_reply (request : Request) : Reply * DnsHandler :=
  request_reply demo_net demo_draws demo_validate demo_now request demo_handler.

(** The local authority, a rewrite, an upstream answer, and a refusal. *)
Example demo_replies :
  (length (resp_answers (demo_handle (demo_request 167772163 "nas.home.lan."%rs)).1),
   length (resp_answers (demo_handle (demo_request 167772163 "NAS.example.com."%rs)).1),
   length (resp_answers (demo_handle (demo_request 167772163 "www.example."%rs)).1),
   length (resp_answers (demo_handle (demo_request 167772169 "www.example."%rs)).1))
  = (1, 1, 1, 0)%nat.
Proof. vm_compute. reflexivity. Qed.

(** The options of the request are sent back, so that a response without records can exceed
    the cap nevertheless. *)
Definition padded_request : Request :=
  {| req_src := V4 167772163; req_protocol := Udp; req_op_code := OpQuery; req_message_type := TypeQuery;
     req_edns := Some {| max_payload := 512; edns_version := 0; edns_rest := repeat 0 600 |};
     req_query := Some (demo_question "www.example."%rs) |}.

Example echoed_options_exceed_cap :
  let resp := (demo_handle padded_request).1 in
  (resp_answers resp, resp_truncation resp, emit_len padded_request resp, udp_cap padded_request)
  = ([], true, Some 623, 512).
Proof. vm_compute. reflexivity. Qed.

Lemma response_bounded_witness :
  let resp := (demo_handle (demo_request 167772163 "www.example."%rs)).1 in
  (∃ n, emit_len (demo_request 167772163 "www.example."%rs) resp = Some n
    ∧ n <= udp_cap (demo_request 167772163 "www.example."%rs)) ∨ resp_answers resp = [].
Proof.
  destruct (response_bounded demo_net demo_draws demo_validate QueryLog.demo_hash demo_now
    (demo_request 167772163 "www.example."%rs) demo_handler) as (_ & _ & _ & Hudp & _).
  destruct (Hudp eq_refl eq_refl) as [[Hfit|[Hnil _]] _]; [by left|by right].
Defined.

Lemma denied_client_isolated_witness :
  let '(resp, h') := demo_handle (demo_request 167772169 "www.example."%rs) in
  resp_answers resp = [] ∧ rejection (resp_code resp) ∧ h_odoh h' = demo_odoh_state
  ∧ ∀ a b r w, (handle_request demo_net demo_draws demo_validate QueryLog.demo_hash demo_now
      (demo_request 167772169 "www.example."%rs) (with_backends a b r w demo_handler)).1 = resp.
Proof.
  apply (denied_client_isolated demo_net demo_draws demo_validate QueryLog.demo_hash demo_now
    (demo_request 167772169 "www.example."%rs) demo_handler (demo_question "www.example."%rs)).
  - reflexivity.
  - right. split; [vm_compute; discriminate|]. apply (proj1 (name_in_any_zone_spec _ _)).
    vm_compute. reflexivity.
Defined.


Lemma upstream_replies_defended_witness :
  let request := demo_request 167772163 "www.example."%rs in
  upstream_reply demo_net demo_draws demo_validate demo_handler
    (query_ctx demo_handler demo_now request (demo_question "www.example."%rs))
    (demo_reply request).1.
Proof.
  apply (upstream_replies_defended demo_net demo_draws demo_validate demo_now
    (demo_request 167772163 "www.example."%rs) demo_handler (demo_question "www.example."%rs)).
  - reflexivity.
  - split; [vm_compute; reflexivity|]. split; [vm_compute; reflexivity|].
    split; [vm_compute; reflexivity|]. intros _. vm_compute. reflexivity.
Defined.

(** Names as texts that are read in lower case; those with a blank are not read. *)
Definition lowering_hickory : Hickory :=
  {| RecordType := Z; RT_A := 1; RT_AAAA := 28; RT_CNAME := 5; RT_PTR := 12; RT_NS := 2;
     RT_MX := 15; RT_SRV := 33; RT_TXT := 16; RT_ANY := 255; RT_AXFR := 252; RT_IXFR := 251;
     RT_distinct := demo_types_distinct;
     record_type_from_str := demo_type_from; record_type_to_string := demo_type_name;
     HName := str; name_to_utf8 := λ n, n; name_from_utf8 := Some;
     name_from_str := λ s, if existsb (Z.eqb " "%rc) s then None else Some (to_ascii_lowercase s);
     OtherRData := unit; NetError := bool * bool;
     is_no_records_found := fst; is_nx_domain := snd; net_error_kind := λ _, KBusy |}.

Definition relay_answer : list (@RR lowering_hickory) :=
  [@Build_RR lowering_hickory "Mail.Example."%rs 0 (@RD_MX lowering_hickory 10 "mx.Example."%rs);
   @Build_RR lowering_hickory "Mail.Example."%rs 5 (@RD_Other lowering_hickory ());
   @Build_RR lowering_hickory "Mail.Example."%rs 90 (@RD_NS lowering_hickory "no name."%rs);
   @Build_RR lowering_hickory "Mail.Example."%rs 90 (@RD_A lowering_hickory 1)].

Example relay_answer_sent :
  @dns_records_to_rrs lowering_hickory (@lookup_to_dns_records lowering_hickory ascii_only relay_answer)
  = [@Build_RR lowering_hickory "mail.example."%rs 2 (@RD_MX lowering_hickory 10 "mx.example."%rs);
     @Build_RR lowering_hickory "mail.example."%rs 90 (@RD_A lowering_hickory 1)].
Proof. vm_compute. reflexivity. Qed.

Lemma answers_relayed_witness :
  @relayed lowering_hickory ascii_only (λ n m, to_ascii_lowercase n = to_ascii_lowercase m) relay_answer
    (@dns_records_to_rrs lowering_hickory (@lookup_to_dns_records lowering_hickory ascii_only relay_answer)).
Proof.
  apply (@answers_relayed lowering_hickory ascii_only).
  repeat (apply List.Forall_cons; [split; [intros m [= <-]; reflexivity|]|]); [..|apply List.Forall_nil].
  - intros n m ->%list_elem_of_singleton [= <-]. reflexivity.
  - intros n m ?%elem_of_nil. done.
  - intros n m ->%list_elem_of_singleton. discriminate.
  - intros n m ?%elem_of_nil. done.
Defined.
