(* ===== verification/Listeners.v ===== *)
(** * Listeners: the sockets of the daemon and their live handover
    ([rustydnsd/src/listeners.rs], and the listener part of [rustydnsd/src/main.rs])

    What the operating system and the TLS library answer is the class [Os], asked once per
    call; what the daemon did is a [World]: the calls made and every server started.  The
    functions run in the monad [NetM], which passes the world along, also on an error. *)

From S2P Require Import Prelude RustStr Net Config.
From S2P Require RegexRules Validate.

Inductive Proto := Tcp | Udp.
#[export] Instance Proto_eq_dec : EqDecision Proto.
Proof. solve_decision. Defined.

Inductive listen_error :=
| AddrInvalid (s : str)
| FdNotAdopted
| BindFailed (p : Proto) (addr : SocketAddr)
| TlsPathMissing
| TlsFailed
| NoTlsConfig
| RegisterFailed (addr : SocketAddr)
| PlaintextDohPublic (addr : SocketAddr)
| PathReserved (path : str)
| PathMetacharacter (path : str)
| PathDotSegment (path : str).

(** The [n]-th call: whether a socket can be bound, whether the library registers it, and
    the TLS configuration of a certificate, a key and the ALPN protocols. *)
Class Os := {
  TlsServerConfig : Type;
  os_bind : nat → Proto → SocketAddr → bool;
  os_register : nat → SocketAddr → bool;
  os_tls : nat → str → str → list str → option TlsServerConfig;
}.

(** ** Sockets passed by systemd *)

(** A descriptor of [LISTEN_FDS]: of a type, with its address unless it cannot be adopted,
    or of no type the daemon serves. *)
Inductive passed_fd := PassedSock (p : Proto) (addr : option SocketAddr) | PassedOther.

Record InheritedSockets := {
  inh_udp : list (SocketAddr * nat);
  inh_tcp : list (SocketAddr * nat);
  total_passed : nat;
}.

Definition inherited_empty : InheritedSockets :=
  {| inh_udp := []; inh_tcp := []; total_passed := 0 |}.

Definition adopt_fd (inh : InheritedSockets) (p : nat * passed_fd) :
    result listen_error InheritedSockets :=
  match p.2 with
  | PassedSock Tcp addr =>
      a ← ok_or FdNotAdopted addr;
      Ok {| inh_udp := inh_udp inh; inh_tcp := inh_tcp inh ++ [(a, p.1)];
            total_passed := total_passed inh |}
  | PassedSock Udp addr =>
      a ← ok_or FdNotAdopted addr;
      Ok {| inh_udp := inh_udp inh ++ [(a, p.1)]; inh_tcp := inh_tcp inh;
            total_passed := total_passed inh |}
  | PassedOther => Ok inh
  end.

Definition from_env (fds : list passed_fd) : result listen_error InheritedSockets :=
  try_fold adopt_fd {| inh_udp := []; inh_tcp := []; total_passed := length fds |}
    (imap pair fds).

Definition inherited_is_empty (inh : InheritedSockets) : bool :=
  match inh_udp inh, inh_tcp inh with [], [] => true | _, _ => false end.
Definition remaining (inh : InheritedSockets) : nat :=
  (length (inh_udp inh) + length (inh_tcp inh))%nat.
Definition socket_activation_active (inh : InheritedSockets) : bool :=
  (0 <? total_passed inh)%nat.

(** The position of the first socket of an address, and its removal. *)
Fixpoint take_socket (addr : SocketAddr) (l : list (SocketAddr * nat)) :
    option (nat * list (SocketAddr * nat)) :=
  match l with
  | [] => None
  | (a, fd) :: l =>
      if bool_decide (a = addr) then Some (fd, l)
      else '(fd', l') ← take_socket addr l; Some (fd', (a, fd) :: l')
  end.

Definition take_udp (addr : SocketAddr) (inh : InheritedSockets) : option (nat * InheritedSockets) :=
  '(fd, l) ← take_socket addr (inh_udp inh);
  Some (fd, {| inh_udp := l; inh_tcp := inh_tcp inh; total_passed := total_passed inh |}).
Definition take_tcp (addr : SocketAddr) (inh : InheritedSockets) : option (nat * InheritedSockets) :=
  '(fd, l) ← take_socket addr (inh_tcp inh);
  Some (fd, {| inh_udp := inh_udp inh; inh_tcp := l; total_passed := total_passed inh |}).

(** ** Ports *)

Definition is_privileged (a : SocketAddr) : bool := negb (sa_port a =? 0) && (sa_port a <? 1024).
Definition all_unprivileged (l : list SocketAddr) : bool := forallb (λ a, negb (is_privileged a)) l.

(** ** The metrics path *)

Definition RESERVED_METRICS_PATHS : list str := ["/health"%rs; "/queries"%rs].

(** The bytes with each escape decoded; an incomplete or invalid one stays as it is. *)
Fixpoint decode_escapes (fuel : nat) (bytes : list Z) : list Z :=
  match fuel, bytes with
  | S fuel, b :: rest =>
      match b =? "%"%rc, rest with
      | true, h :: l :: rest' =>
          if is_ascii_hexdigit h && is_ascii_hexdigit l
          then (default 0 (digit_val 16 h) * 16 + default 0 (digit_val 16 l))
                 :: decode_escapes fuel rest'
          else b :: decode_escapes fuel rest
      | _, _ => b :: decode_escapes fuel rest
      end
  | _, _ => []
  end.

Definition is_dot_segment (seg : str) : bool :=
  if str_eqb seg "."%rs || str_eqb seg ".."%rs then true
  else
    let bytes := as_bytes seg in
    let decoded := decode_escapes (length bytes) bytes in
    bool_decide (decoded = as_bytes "."%rs) || bool_decide (decoded = as_bytes ".."%rs).

Definition normalize_metrics_path (path : str) : result listen_error str :=
  let trimmed := trim path in
  let normalised :=
    if is_empty_str trimmed then "/metrics"%rs
    else match strip_prefix "/"%rs trimmed with
         | Some rest => "/"%rs ++ rest
         | None => "/"%rs ++ trimmed
         end in
  _ ← reject_if (existsb (str_eqb normalised) RESERVED_METRICS_PATHS) (PathReserved path);
  _ ← reject_if (contains "{"%rc normalised || contains "}"%rc normalised
                 || contains "*"%rc normalised) (PathMetacharacter path);
  _ ← reject_if (existsb is_dot_segment (split "/"%rc normalised)) (PathDotSegment path);
  Ok normalised.

(** ** Addresses *)

Definition parse_socket (s : str) : result listen_error SocketAddr :=
  ok_or (AddrInvalid s) (parse_socket_addr s).
Definition parse_socket_addrs (l : list str) : result listen_error (list SocketAddr) :=
  try_map parse_socket l.
Definition parse_socket_opt (s : option str) : result listen_error (option SocketAddr) :=
  match s with Some s => Some <$> parse_socket s | None => Ok None end.

Definition metrics_listen_addr (m : MetricsConfig) : result listen_error SocketAddr :=
  addr ← ok_or (AddrInvalid (metrics_listen m)) (parse_socket_addr (metrics_listen m));
  let ip := match sa_ip addr with
            | V6 v6 => match to_ipv4_mapped v6 with Some v4 => V4 v4 | None => V6 v6 end
            | v4 => v4
            end in
  if is_loopback ip then Ok {| sa_ip := ip; sa_port := sa_port addr; sa_scope := 0 |}
  else
    let loopback_ip := match ip with
                       | V6 _ => V6 1
                       | V4 _ => V4 (ipv4_from_octets [127; 0; 0; 1])
                       end in
    Ok {| sa_ip := loopback_ip; sa_port := sa_port addr; sa_scope := 0 |}.

Definition ensure_doh_bind_allowed (addr : SocketAddr) (tls_configured : bool) :
    result listen_error unit :=
  let ip := match sa_ip addr with
            | V6 v6 => match to_ipv4_mapped v6 with Some v4 => V4 v4 | None => V6 v6 end
            | v4 => v4
            end in
  if is_loopback ip then Ok ()
  else reject_if (negb tls_configured) (PlaintextDohPublic addr).

Section listeners.
Context `{Os}.

(** ** The servers *)

Inductive Origin := Adopted (fd : nat) | Bound.
Record Sock := { sk_proto : Proto; sk_addr : SocketAddr; sk_origin : Origin }.

(** What is registered with a DNS server. *)
Inductive Registration :=
| RegSocket (s : Sock)
| RegListener (s : Sock)
| RegTls (s : Sock) (tls : TlsServerConfig)
| RegQuic (s : Sock) (tls : TlsServerConfig).

Inductive NetServer :=
| DnsServer (regs : list Registration)
| DohServer (addr : SocketAddr) (upstream_timeout : Z)
| MetricsServer (addr : SocketAddr) (path : str).

(** A retired server takes no new work: its token is cancelled, or it is draining. *)
Inductive ServerState := Serving | Retired.

Record World := { w_calls : nat; w_servers : list (NetServer * ServerState) }.

Definition NetM (A : Type) : Type := World → result listen_error A * World.
#[export] Instance net_ret : MRet NetM := λ A a w, (Ok a, w).
#[export] Instance net_bind : MBind NetM := λ A B f m w,
  match m w with
  | (Ok a, w) => f a w
  | (Err e, w) => (Err e, w)
  end.

Definition lift {A} (r : result listen_error A) : NetM A := λ w, (r, w).
Definition call {A} (f : nat → result listen_error A) : NetM A := λ w,
  (f (w_calls w), {| w_calls := S (w_calls w); w_servers := w_servers w |}).

Definition spawn (s : NetServer) : NetM nat := λ w,
  (Ok (length (w_servers w)),
   {| w_calls := w_calls w; w_servers := w_servers w ++ [(s, Serving)] |}).

Definition retire (id : option nat) : NetM unit := λ w,
  (Ok (),
   match id with
   | Some id => {| w_calls := w_calls w;
                   w_servers := alter (λ s, (s.1, Retired)) id (w_servers w) |}
   | None => w
   end).

Definition bind_socket (p : Proto) (addr : SocketAddr) : NetM Sock :=
  call (λ n, if os_bind n p addr
             then Ok {| sk_proto := p; sk_addr := addr; sk_origin := Bound |}
             else Err (BindFailed p addr)).

Definition bind_udp : SocketAddr → NetM Sock := bind_socket Udp.
Definition bind_tcp : SocketAddr → NetM Sock := bind_socket Tcp.

Definition udp_listener (addr : SocketAddr) (inh : InheritedSockets) : NetM (Sock * InheritedSockets) :=
  match take_udp addr inh with
  | Some (fd, inh) => mret ({| sk_proto := Udp; sk_addr := addr; sk_origin := Adopted fd |}, inh)
  | None => s ← bind_udp addr; mret (s, inh)
  end.

Definition tcp_listener (addr : SocketAddr) (inh : InheritedSockets) : NetM (Sock * InheritedSockets) :=
  match take_tcp addr inh with
  | Some (fd, inh) => mret ({| sk_proto := Tcp; sk_addr := addr; sk_origin := Adopted fd |}, inh)
  | None => s ← bind_tcp addr; mret (s, inh)
  end.

Definition register (addr : SocketAddr) (r : Registration) : NetM Registration :=
  call (λ n, if os_register n addr then Ok r else Err (RegisterFailed addr)).

(** The loop over the plain listeners. *)
Fixpoint register_plain (listen : list SocketAddr) (regs : list Registration)
    (inh : InheritedSockets) : NetM (list Registration * InheritedSockets) :=
  match listen with
  | [] => mret (regs, inh)
  | addr :: listen =>
      '(udp, inh) ← udp_listener addr inh;
      '(tcp, inh) ← tcp_listener addr inh;
      register_plain listen (regs ++ [RegSocket udp; RegListener tcp]) inh
  end.

Definition build_dns_server (listen : list SocketAddr) (dot : option SocketAddr)
    (tls : option TlsServerConfig) (doq : option SocketAddr) (doq_tls : option TlsServerConfig)
    (inh : InheritedSockets) : NetM (list Registration * InheritedSockets) :=
  '(regs, inh) ← register_plain listen [] inh;
  '(regs, inh) ← match dot with
                 | Some addr =>
                     tls ← lift (ok_or NoTlsConfig tls);
                     '(tcp, inh) ← tcp_listener addr inh;
                     reg ← register addr (RegTls tcp tls);
                     mret (regs ++ [reg], inh)
                 | None => mret (regs, inh)
                 end;
  match doq with
  | Some addr =>
      tls ← lift (ok_or NoTlsConfig doq_tls);
      '(udp, inh) ← udp_listener addr inh;
      reg ← register addr (RegQuic udp tls);
      mret (regs ++ [reg], inh)
  | None => mret (regs, inh)
  end.

Definition build_tls_server_config (server : ServerConfig) (alpn : list str) : NetM TlsServerConfig :=
  cert_path ← lift (ok_or TlsPathMissing (server_tls_cert_path server));
  key_path ← lift (ok_or TlsPathMissing (server_tls_key_path server));
  call (λ n, ok_or TlsFailed (os_tls n cert_path key_path alpn)).

Definition load_tls_config (server : ServerConfig) : NetM TlsServerConfig :=
  build_tls_server_config server [].
Definition load_doq_tls_config (server : ServerConfig) : NetM TlsServerConfig :=
  build_tls_server_config server ["doq"%rs].

(** ** The active generation *)

Record DnsGroup := {
  dns_server : option nat;
  live_listen : list SocketAddr;
  live_dot : option SocketAddr;
  live_doq : option SocketAddr;
  live_tls_paths : option str * option str;
}.
Record DohGroup := {
  doh_token : option nat;
  live_doh : option SocketAddr;
  live_doh_timeout : option Z;
}.
Record MetricsGroup := {
  metrics_token : option nat;
  live_metrics : option SocketAddr;
  live_metrics_path : str;
}.
Record ActiveListeners := {
  al_dns : DnsGroup;
  al_doh : DohGroup;
  al_metrics : MetricsGroup;
  health_ready : bool;
}.

Definition set_dns (g : DnsGroup) (a : ActiveListeners) : ActiveListeners :=
  {| al_dns := g; al_doh := al_doh a; al_metrics := al_metrics a; health_ready := health_ready a |}.
Definition set_doh (g : DohGroup) (a : ActiveListeners) : ActiveListeners :=
  {| al_dns := al_dns a; al_doh := g; al_metrics := al_metrics a; health_ready := health_ready a |}.
Definition set_metrics (g : MetricsGroup) (a : ActiveListeners) : ActiveListeners :=
  {| al_dns := al_dns a; al_doh := al_doh a; al_metrics := g; health_ready := health_ready a |}.

Definition active_new (id : nat) (listen : list SocketAddr) (dot doq : option SocketAddr)
    (tls_paths : option str * option str) : ActiveListeners :=
  {| al_dns := {| dns_server := Some id; live_listen := listen; live_dot := dot;
                  live_doq := doq; live_tls_paths := tls_paths |};
     al_doh := {| doh_token := None; live_doh := None; live_doh_timeout := None |};
     al_metrics := {| metrics_token := None; live_metrics := None; live_metrics_path := [] |};
     health_ready := false |}.

Definition tls_paths (s : ServerConfig) : option str * option str :=
  (server_tls_cert_path s, server_tls_key_path s).
Definition has_tls (s : ServerConfig) : bool :=
  bool_decide (is_Some (server_tls_cert_path s)) && bool_decide (is_Some (server_tls_key_path s)).

Definition install_doh (addr : SocketAddr) (upstream_timeout : Z) (tls_configured : bool)
    (a : ActiveListeners) : NetM ActiveListeners :=
  _ ← lift (ensure_doh_bind_allowed addr tls_configured);
  _ ← bind_tcp addr;
  id ← spawn (DohServer addr upstream_timeout);
  _ ← retire (doh_token (al_doh a));
  mret (set_doh {| doh_token := Some id; live_doh := Some addr;
                   live_doh_timeout := Some upstream_timeout |} a).

Definition install_metrics (addr : SocketAddr) (path : str) (a : ActiveListeners) :
    NetM ActiveListeners :=
  _ ← bind_tcp addr;
  id ← spawn (MetricsServer addr path);
  _ ← retire (metrics_token (al_metrics a));
  mret (set_metrics {| metrics_token := Some id; live_metrics := Some addr;
                       live_metrics_path := path |} a).

Definition start_doh (cfg : DnsConfig) (a : ActiveListeners) : NetM ActiveListeners :=
  match server_doh_listen (cfg_server cfg) with
  | Some s =>
      addr ← lift (parse_socket s);
      install_doh addr (upstream_timeout_ms (cfg_upstream cfg)) (has_tls (cfg_server cfg)) a
  | None => mret a
  end.

Definition start_metrics (cfg : DnsConfig) (a : ActiveListeners) : NetM ActiveListeners :=
  addr ← lift (metrics_listen_addr (cfg_metrics cfg));
  path ← lift (normalize_metrics_path (metrics_path (cfg_metrics cfg)));
  install_metrics addr path a.

(** The part of [main] that opens the listeners. *)
Definition start_listeners (cfg : DnsConfig) (fds : list passed_fd) : NetM ActiveListeners :=
  let s := cfg_server cfg in
  listen_addrs ← lift (parse_socket_addrs (server_listen s));
  dot_addr ← lift (parse_socket_opt (server_dot_listen s));
  doq_addr ← lift (parse_socket_opt (server_doq_listen s));
  initial_tls ← match dot_addr with
                | Some _ => t ← load_tls_config s; mret (Some t)
                | None => mret None
                end;
  initial_doq_tls ← match doq_addr with
                    | Some _ => t ← load_doq_tls_config s; mret (Some t)
                    | None => mret None
                    end;
  inherited ← lift (from_env fds);
  '(regs, _) ← build_dns_server listen_addrs dot_addr initial_tls doq_addr initial_doq_tls inherited;
  id ← spawn (DnsServer regs);
  a ← start_doh cfg (active_new id listen_addrs dot_addr doq_addr (tls_paths s));
  a ← start_metrics cfg a;
  mret {| al_dns := al_dns a; al_doh := al_doh a; al_metrics := al_metrics a;
          health_ready := true |}.

(** A reload of a group that fails leaves the listeners as they were. *)
Definition keep (a : ActiveListeners) (m : NetM ActiveListeners) (w : World) :
    ActiveListeners * World :=
  match m w with
  | (Ok a', w') => (a', w')
  | (Err _, w') => (a, w')
  end.

Definition reload_dns_group (cfg : DnsConfig) (a : ActiveListeners) : World → ActiveListeners * World :=
  let s := cfg_server cfg in
  let g := al_dns a in
  keep a
    (new_listen ← lift (parse_socket_addrs (server_listen s));
     new_dot ← lift (parse_socket_opt (server_dot_listen s));
     new_doq ← lift (parse_socket_opt (server_doq_listen s));
     let new_tls := tls_paths s in
     if bool_decide (new_listen = live_listen g) && bool_decide (new_dot = live_dot g)
        && bool_decide (new_doq = live_doq g) && bool_decide (new_tls = live_tls_paths g)
     then mret a
     else if negb (all_unprivileged (new_listen ++ option_list new_dot ++ option_list new_doq))
     then mret a
     else
       tls ← match new_dot with
             | Some _ => t ← load_tls_config s; mret (Some t)
             | None => mret None
             end;
       doq_tls ← match new_doq with
                 | Some _ => t ← load_doq_tls_config s; mret (Some t)
                 | None => mret None
                 end;
       '(regs, _) ← build_dns_server new_listen new_dot tls new_doq doq_tls inherited_empty;
       id ← spawn (DnsServer regs);
       _ ← retire (dns_server g);
       mret (set_dns {| dns_server := Some id; live_listen := new_listen; live_dot := new_dot;
                        live_doq := new_doq; live_tls_paths := new_tls |} a)).

Definition reload_doh_group (cfg : DnsConfig) (a : ActiveListeners) : World → ActiveListeners * World :=
  let s := cfg_server cfg in
  let g := al_doh a in
  keep a
    (new_doh ← lift (parse_socket_opt (server_doh_listen s));
     let new_timeout := upstream_timeout_ms (cfg_upstream cfg) in
     if bool_decide (new_doh = live_doh g) && bool_decide (Some new_timeout = live_doh_timeout g)
     then mret a
     else match new_doh with
          | None =>
              _ ← retire (doh_token g);
              mret (set_doh {| doh_token := None; live_doh := None; live_doh_timeout := None |} a)
          | Some addr =>
              if is_privileged addr then mret a
              else install_doh addr new_timeout (has_tls s) a
          end).

Definition reload_metrics_group (cfg : DnsConfig) (a : ActiveListeners) :
    World → ActiveListeners * World :=
  let g := al_metrics a in
  keep a
    (new_addr ← lift (metrics_listen_addr (cfg_metrics cfg));
     new_path ← lift (normalize_metrics_path (metrics_path (cfg_metrics cfg)));
     if bool_decide (Some new_addr = live_metrics g) && bool_decide (new_path = live_metrics_path g)
     then mret a
     else if is_privileged new_addr then mret a
     else install_metrics new_addr new_path a).

Definition reload_listeners (cfg : DnsConfig) (a : ActiveListeners) (w : World) :
    ActiveListeners * World :=
  let '(a, w) := reload_dns_group cfg a w in
  let '(a, w) := reload_doh_group cfg a w in
  reload_metrics_group cfg a w.

(** The shutdown: every server is told to stop. *)
Definition drain (a : ActiveListeners) : NetM ActiveListeners :=
  _ ← retire (doh_token (al_doh a));
  _ ← retire (metrics_token (al_metrics a));
  _ ← retire (dns_server (al_dns a));
  mret {| al_dns := {| dns_server := None; live_listen := live_listen (al_dns a);
                       live_dot := live_dot (al_dns a); live_doq := live_doq (al_dns a);
                       live_tls_paths := live_tls_paths (al_dns a) |};
          al_doh := {| doh_token := None; live_doh := live_doh (al_doh a);
                       live_doh_timeout := live_doh_timeout (al_doh a) |};
          al_metrics := {| metrics_token := None; live_metrics := live_metrics (al_metrics a);
                           live_metrics_path := live_metrics_path (al_metrics a) |};
          health_ready := health_ready a |}.

(** ** Lemmas on the monad *)

Lemma net_bind_ok {A B} (m : NetM A) (f : A → NetM B) w b w' :
  (m ≫= f) w = (Ok b, w') ↔ ∃ a w1, m w = (Ok a, w1) ∧ f a w1 = (Ok b, w').
Proof.
  unfold mbind, net_bind. destruct (m w) as [[a|e] w1]; split.
  - intros Hf. by exists a, w1.
  - by intros (a' & w1' & [= <- <-] & Hf).
  - done.
  - by intros (? & ? & ? & _).
Qed.

Lemma bind_run {A B} (m : NetM A) (f : A → NetM B) w a w' : m w = (Ok a, w') → (m ≫= f) w = f a w'.
Proof. unfold mbind, net_bind. by intros ->. Qed.

Lemma bind_lift {A B} (r : result listen_error A) (f : A → NetM B) w a :
  r = Ok a → (lift r ≫= f) w = f a w.
Proof. by intros ->. Qed.

Lemma lift_ok {A} (r : result listen_error A) w a w' : lift r w = (Ok a, w') ↔ r = Ok a ∧ w' = w.
Proof. unfold lift. split; [by intros [= <- <-]|by intros [-> ->]]. Qed.

(** A computation that starts and stops no server. *)
Definition quiet {A} (m : NetM A) : Prop := ∀ w, w_servers (m w).2 = w_servers w.

Lemma quiet_ret {A} (a : A) : quiet (mret a).
Proof. done. Qed.
Lemma quiet_lift {A} (r : result listen_error A) : quiet (lift r).
Proof. done. Qed.
Lemma quiet_call {A} (f : nat → result listen_error A) : quiet (call f).
Proof. done. Qed.
Lemma quiet_bind {A B} (m : NetM A) (f : A → NetM B) : quiet m → (∀ a, quiet (f a)) → quiet (m ≫= f).
Proof.
  intros Hm Hf w. specialize (Hm w). unfold mbind, net_bind.
  destruct (m w) as [[a|e] w1]; cbn in *; [by rewrite Hf|done].
Qed.
Lemma quiet_ok {A} (m : NetM A) w a w' : quiet m → m w = (Ok a, w') → w_servers w' = w_servers w.
Proof. intros Hq Hm. specialize (Hq w). by rewrite Hm in Hq. Qed.

Create HintDb quiet.
Hint Resolve quiet_ret quiet_lift quiet_call quiet_bind : quiet.
Ltac solve_quiet :=
  repeat first [ apply quiet_ret | apply quiet_lift | apply quiet_call
               | apply quiet_bind; [|intros] | progress case_match | solve [eauto with quiet] ].

Lemma quiet_udp_listener addr inh : quiet (udp_listener addr inh).
Proof. unfold udp_listener, bind_udp, bind_socket. solve_quiet. Qed.
Lemma quiet_tcp_listener addr inh : quiet (tcp_listener addr inh).
Proof. unfold tcp_listener, bind_tcp, bind_socket. solve_quiet. Qed.
Lemma quiet_bind_tcp addr : quiet (bind_tcp addr).
Proof. apply quiet_call. Qed.
Hint Resolve quiet_udp_listener quiet_tcp_listener quiet_bind_tcp : quiet.

Lemma quiet_register_plain listen : ∀ regs inh, quiet (register_plain listen regs inh).
Proof. induction listen; intros regs inh; cbn; solve_quiet. Qed.
Hint Resolve quiet_register_plain : quiet.

Lemma quiet_build_dns_server listen dot tls doq doq_tls inh :
  quiet (build_dns_server listen dot tls doq doq_tls inh).
Proof. unfold build_dns_server, register. solve_quiet. Qed.
Lemma quiet_load_tls_config s : quiet (load_tls_config s).
Proof. unfold load_tls_config, build_tls_server_config. solve_quiet. Qed.
Lemma quiet_load_doq_tls_config s : quiet (load_doq_tls_config s).
Proof. unfold load_doq_tls_config, build_tls_server_config. solve_quiet. Qed.
Hint Resolve quiet_build_dns_server quiet_load_tls_config quiet_load_doq_tls_config : quiet.

(** ** What a DNS server is bound to *)

Inductive service := PlainUdp | PlainTcp | OverTls | OverQuic.

Definition reg_sock (r : Registration) : Sock :=
  match r with RegSocket s | RegListener s | RegTls s _ | RegQuic s _ => s end.
Definition reg_service (r : Registration) : service :=
  match r with
  | RegSocket _ => PlainUdp | RegListener _ => PlainTcp
  | RegTls _ _ => OverTls | RegQuic _ _ => OverQuic
  end.
Definition binding (r : Registration) : service * Proto * SocketAddr :=
  (reg_service r, sk_proto (reg_sock r), sk_addr (reg_sock r)).

Definition wanted (listen : list SocketAddr) (dot doq : option SocketAddr) :
    list (service * Proto * SocketAddr) :=
  concat ((λ a, [(PlainUdp, Udp, a); (PlainTcp, Tcp, a)]) <$> listen)
  ++ ((λ a, (OverTls, Tcp, a)) <$> option_list dot)
  ++ ((λ a, (OverQuic, Udp, a)) <$> option_list doq).

(** The descriptors some registrations adopted, and those that are left. *)
Definition adopted (regs : list Registration) : list nat :=
  omap (λ r, match sk_origin (reg_sock r) with Adopted fd => Some fd | Bound => None end) regs.
Definition passed (inh : InheritedSockets) : list nat := (inh_udp inh ++ inh_tcp inh).*2.
Definition passed_to (inh : InheritedSockets) (p : Proto) (addr : SocketAddr) : list nat :=
  (filter (λ s, s.1 = addr) (match p with Udp => inh_udp inh | Tcp => inh_tcp inh end)).*2.

(** The sockets taken from [inh], leaving [inh']. *)
Definition took (regs : list Registration) (inh inh' : InheritedSockets) : Prop :=
  adopted regs ++ passed inh' ≡ₚ passed inh
  ∧ Forall (λ r, match sk_origin (reg_sock r) with
                 | Adopted fd => fd ∈ passed_to inh (sk_proto (reg_sock r)) (sk_addr (reg_sock r))
                 | Bound => passed_to inh' (sk_proto (reg_sock r)) (sk_addr (reg_sock r)) = []
                 end) regs
  ∧ ∀ p a, passed_to inh' p a ⊆ passed_to inh p a.

Lemma take_socket_Some addr l fd l' :
  take_socket addr l = Some (fd, l') →
  ∃ l1 l2, l = l1 ++ (addr, fd) :: l2 ∧ l' = l1 ++ l2 ∧ Forall (λ s, s.1 ≠ addr) l1.
Proof.
  revert l'. induction l as [|[a fd'] l IH]; intros l'; cbn; [done|].
  case_bool_decide as Ha.
  - intros [= -> ->]. subst a. by exists [], l'.
  - destruct (take_socket addr l) as [[fd1 l1']|]; [|done]. cbn. intros [= <- <-].
    destruct (IH _ eq_refl) as (l1 & l2 & -> & -> & Hf).
    exists ((a, fd') :: l1), l2. split; [done|]. split; [done|]. by constructor.
Qed.

Lemma take_socket_None addr l : take_socket addr l = None → filter (λ s, s.1 = addr) l = [].
Proof.
  induction l as [|[a fd'] l IH]; cbn [take_socket]; [done|].
  case_bool_decide as Ha; [done|]. destruct (take_socket addr l) as [[]|]; [done|].
  intros _. rewrite filter_cons_False by done. by apply IH.
Qed.

Lemma took_refl inh : took [] inh inh.
Proof. by repeat split. Qed.

Lemma took_trans regs1 regs2 inh1 inh2 inh3 :
  took regs1 inh1 inh2 → took regs2 inh2 inh3 → took (regs1 ++ regs2) inh1 inh3.
Proof.
  intros (Hp1 & Hf1 & Hs1) (Hp2 & Hf2 & Hs2). split; [|split].
  - unfold adopted. rewrite omap_app, <- app_assoc. fold (adopted regs1) (adopted regs2).
    by rewrite Hp2.
  - apply Forall_app. split.
    + eapply list.Forall_impl; [exact Hf1|]. intros r. cbn beta. destruct (sk_origin (reg_sock r)); [done|]. intros Hr.
      specialize (Hs2 (sk_proto (reg_sock r)) (sk_addr (reg_sock r))). rewrite Hr in Hs2.
      by apply list_nil_subseteq in Hs2.
    + eapply list.Forall_impl; [exact Hf2|]. intros r. cbn beta. destruct (sk_origin (reg_sock r)); [|done].
      intros Hr. by apply Hs1.
  - intros p a x Hx. by apply Hs1, Hs2.
Qed.

(** One socket, adopted or bound. *)
Definition got (s : Sock) (p : Proto) (addr : SocketAddr) : Prop := sk_proto s = p ∧ sk_addr s = addr.

Lemma took_one r inh inh' p addr (l l' : list (SocketAddr * nat)) fd :
  got (reg_sock r) p addr → sk_origin (reg_sock r) = Adopted fd →
  take_socket addr (match p with Udp => inh_udp inh | Tcp => inh_tcp inh end) = Some (fd, l') →
  inh' = match p with
         | Udp => {| inh_udp := l'; inh_tcp := inh_tcp inh; total_passed := total_passed inh |}
         | Tcp => {| inh_udp := inh_udp inh; inh_tcp := l'; total_passed := total_passed inh |}
         end →
  took [r] inh inh'.
Proof.
  intros [Hp Ha] Ho (l1 & l2 & Hl & -> & _)%take_socket_Some ->. split; [|split].
  - unfold adopted. cbn [omap list_omap]. rewrite Ho. unfold passed.
    destruct p; cbn [inh_udp inh_tcp] in *; rewrite Hl, !fmap_app, fmap_cons; cbn [snd];
      solve_Permutation.
  - constructor; [|done]. rewrite Ho, Hp, Ha. unfold passed_to. rewrite Hl.
    rewrite list.filter_app, filter_cons_True, fmap_app by done. set_solver.
  - intros p' a. unfold passed_to. destruct p', p; cbn [inh_udp inh_tcp] in *; try done;
      rewrite Hl, !list.filter_app, filter_cons; case_decide; set_solver.
Qed.

Lemma bind_socket_ok p addr w s w' :
  bind_socket p addr w = (Ok s, w') → s = {| sk_proto := p; sk_addr := addr; sk_origin := Bound |}.
Proof. unfold bind_socket, call. destruct (os_bind (w_calls w) p addr); by intros [= <- _]. Qed.

Lemma udp_listener_ok addr inh w s inh' w' :
  udp_listener addr inh w = (Ok (s, inh'), w') →
  got s Udp addr ∧ ∀ r, reg_sock r = s → took [r] inh inh'.
Proof.
  unfold udp_listener, take_udp. destruct (take_socket addr (inh_udp inh)) as [[fd l']|] eqn:Ht; cbn.
  - intros [= <- <- <-]. split; [done|]. intros r Hr.
    apply (took_one r inh _ Udp addr (inh_udp inh) l' fd); by rewrite ?Hr.
  - intros (s' & w1 & ->%bind_socket_ok & [= <- <- _])%net_bind_ok. split; [done|]. intros r Hr. split; [|split; [|done]].
    + unfold adopted. cbn. by rewrite Hr.
    + constructor; [|done]. rewrite Hr. cbn. unfold passed_to. by rewrite take_socket_None.
Qed.

Lemma tcp_listener_ok addr inh w s inh' w' :
  tcp_listener addr inh w = (Ok (s, inh'), w') →
  got s Tcp addr ∧ ∀ r, reg_sock r = s → took [r] inh inh'.
Proof.
  unfold tcp_listener, take_tcp. destruct (take_socket addr (inh_tcp inh)) as [[fd l']|] eqn:Ht; cbn.
  - intros [= <- <- <-]. split; [done|]. intros r Hr.
    apply (took_one r inh _ Tcp addr (inh_tcp inh) l' fd); by rewrite ?Hr.
  - intros (s' & w1 & ->%bind_socket_ok & [= <- <- _])%net_bind_ok. split; [done|]. intros r Hr. split; [|split; [|done]].
    + unfold adopted. cbn. by rewrite Hr.
    + constructor; [|done]. rewrite Hr. cbn. unfold passed_to. by rewrite take_socket_None.
Qed.

Lemma binding_got r p addr : got (reg_sock r) p addr → binding r = (reg_service r, p, addr).
Proof. unfold binding. by intros [-> ->]. Qed.

Lemma register_plain_ok listen : ∀ regs inh w regs' inh' w',
  register_plain listen regs inh w = (Ok (regs', inh'), w') →
  ∃ new, regs' = regs ++ new ∧ binding <$> new = wanted listen None None ∧ took new inh inh'.
Proof.
  induction listen as [|addr listen IH]; intros regs inh w regs' inh' w'; cbn [register_plain].
  { intros [= <- <- _]. exists []. by rewrite app_nil_r. }
  intros ([udp inh1] & w1 & [Hgu Hu]%udp_listener_ok & Hr)%net_bind_ok.
  apply net_bind_ok in Hr as ([tcp inh2] & w2 & [Hgt Ht]%tcp_listener_ok & (new & -> & Hb & Hk)%IH).
  exists ([RegSocket udp] ++ [RegListener tcp] ++ new). rewrite <- app_assoc. split; [done|]. split.
  - rewrite !fmap_app, Hb. cbn [fmap list_fmap].
    by rewrite (binding_got _ Udp addr), (binding_got _ Tcp addr) by done.
  - eapply took_trans; [by apply Hu|]. eapply took_trans; [by apply Ht|done].
Qed.

Lemma register_ok addr r w r' w' : register addr r w = (Ok r', w') → r' = r.
Proof. unfold register, call. destruct (os_register (w_calls w) addr); by intros [= <- _]. Qed.

Lemma build_dns_server_ok listen dot tls doq doq_tls inh w regs inh' w' :
  build_dns_server listen dot tls doq doq_tls inh w = (Ok (regs, inh'), w') →
  binding <$> regs = wanted listen dot doq ∧ took regs inh inh'.
Proof.
  unfold build_dns_server.
  intros ([regs1 inh1] & w1 & (new & -> & Hb & Hk)%register_plain_ok & Hr)%net_bind_ok.
  apply net_bind_ok in Hr as ([regs2 inh2] & w2 & Hdot & Hr). cbn [app] in Hdot.
  assert (binding <$> regs2 = wanted listen dot None ∧ took regs2 inh inh2) as [Hb2 Hk2].
  { destruct dot as [addr|].
    - apply net_bind_ok in Hdot as (t & ? & _ & Hdot).
      apply net_bind_ok in Hdot as ([tcp inh3] & ? & [Hg Ht]%tcp_listener_ok & Hdot).
      apply net_bind_ok in Hdot as (reg & ? & ->%register_ok & [= <- <- <-]).
      split; [|eapply took_trans; [done|by apply Ht]].
      rewrite fmap_app, Hb. cbn [fmap list_fmap]. rewrite (binding_got _ Tcp addr) by done.
      unfold wanted. cbn [option_list fmap list_fmap]. by rewrite !app_nil_r.
    - by injection Hdot as <- <- _. }
  destruct doq as [addr|].
  - apply net_bind_ok in Hr as (t & ? & _ & Hr).
    apply net_bind_ok in Hr as ([udp inh3] & ? & [Hg Ht]%udp_listener_ok & Hr).
    apply net_bind_ok in Hr as (reg & ? & ->%register_ok & [= <- <- <-]).
    split; [|eapply took_trans; [done|by apply Ht]].
    rewrite fmap_app, Hb2. cbn [fmap list_fmap]. rewrite (binding_got _ Udp addr) by done.
    unfold wanted. cbn [option_list fmap list_fmap]. by rewrite app_nil_r, <- app_assoc.
  - by injection Hr as <- <- _.
Qed.

(** ** One server per role *)

Inductive role := DnsRole | DohRole | MetricsRole.
#[local] Instance role_eq_dec : EqDecision role.
Proof. solve_decision. Defined.

Definition role_of (s : NetServer) : role :=
  match s with
  | DnsServer _ => DnsRole | DohServer _ _ => DohRole | MetricsServer _ _ => MetricsRole
  end.

Definition serving (w : World) (id : nat) (s : NetServer) : Prop :=
  w_servers w !! id = Some (s, Serving).

(** The server a token stands for serves, and is the only one of its role. *)
Definition current (w : World) (k : role) (tok : option nat) (P : NetServer → Prop) : Prop :=
  (∀ id s, serving w id s → role_of s = k → tok = Some id)
  ∧ ∀ id, tok = Some id → ∃ s, serving w id s ∧ role_of s = k ∧ P s.

(** A server replaces the one of a token. *)
Definition replaced (s : NetServer) (tok : option nat) (w : World) : World :=
  (retire tok (spawn s w).2).2.

Lemma retire_lookup tok w id s :
  serving (retire tok w).2 id s ↔ serving w id s ∧ tok ≠ Some id.
Proof.
  unfold serving, retire. destruct tok as [id'|]; cbn; [|naive_solver].
  destruct (decide (id' = id)) as [->|Hn].
  - rewrite list_lookup_alter_eq. split; [by intros (? & _ & [=])%fmap_Some|by intros [_ []]].
  - rewrite list_lookup_alter_ne by done. split; [intros Hs; split; congruence|by intros []].
Qed.

Lemma spawn_lookup s w id s' :
  serving (spawn s w).2 id s' ↔ serving w id s' ∨ (id = length (w_servers w) ∧ s' = s).
Proof.
  unfold serving, spawn. cbn. rewrite lookup_app_Some, list_lookup_singleton_Some. split.
  - intros [?|[? [? [= <-]]]]; [by left|right]. split; [lia|done].
  - intros [?|[-> ->]]; [by left|right]. split; [lia|]. by rewrite Nat.sub_diag.
Qed.

Lemma serving_lt w id s : serving w id s → (id < length (w_servers w))%nat.
Proof. apply lookup_lt_Some. Qed.

Lemma replaced_current w k tok P s (Q : NetServer → Prop) :
  current w k tok P → role_of s = k → Q s →
  current (replaced s tok w) k (Some (length (w_servers w))) Q.
Proof.
  intros [Hu Ht] Hk HQ. unfold replaced. split.
  - intros id s' [[Hs|[-> _]]%spawn_lookup Hne]%retire_lookup Hk'; [|done].
    by specialize (Hu id s' Hs Hk').
  - intros ? [= <-]. exists s. split_and!; [|done|done]. apply retire_lookup. split.
    + apply spawn_lookup. by right.
    + intros Htok. destruct (Ht _ Htok) as (s' & Hs & _). apply serving_lt in Hs. lia.
Qed.

Lemma retired_other w k k' tok tok' P P' :
  current w k tok P → current w k' tok' P' → k' ≠ k → current (retire tok w).2 k' tok' P'.
Proof.
  intros [_ Ht] [Hu' Ht'] Hk. split.
  - intros id s [Hs _]%retire_lookup. by apply Hu'.
  - intros id Hid. destruct (Ht' id Hid) as (s & Hs & Hks & HP). exists s. split; [|done].
    apply retire_lookup. split; [done|]. intros Htok. destruct (Ht id Htok) as (s' & Hs' & Hks' & _).
    unfold serving in *. rewrite Hs in Hs'. injection Hs' as <-. congruence.
Qed.

Lemma retired_current w k tok P Q : current w k tok P → current (retire tok w).2 k None Q.
Proof.
  intros [Hu Ht]. split; [|done]. intros id s [Hs Hne]%retire_lookup Hk.
  exfalso. apply Hne. by eapply Hu.
Qed.

Lemma spawned_other w s k' tok' P' :
  current w k' tok' P' → k' ≠ role_of s → current (spawn s w).2 k' tok' P'.
Proof.
  intros [Hu Ht] Hk. split.
  - intros id s' [Hs|[_ ->]]%spawn_lookup Hk'; [by eapply Hu|done].
  - intros id Hid. destruct (Ht id Hid) as (s' & Hs & ?). exists s'. split; [|done].
    apply spawn_lookup. by left.
Qed.

Lemma replaced_other w s k' tok tok' P P' :
  current w (role_of s) tok P → current w k' tok' P' → k' ≠ role_of s →
  current (replaced s tok w) k' tok' P'.
Proof.
  intros Hc Hc' Hk. unfold replaced. split.
  - intros id s' [[Hs|[_ ->]]%spawn_lookup _]%retire_lookup Hk'; [by eapply Hc'|done].
  - intros id Hid. destruct Hc' as [_ Ht']. destruct (Ht' id Hid) as (s' & Hs & Hks & HP).
    exists s'. split; [|done]. apply retire_lookup. split; [apply spawn_lookup; by left|].
    intros Htok. destruct (proj2 Hc id Htok) as (s2 & Hs2 & Hk2 & _).
    unfold serving in *. rewrite Hs in Hs2. injection Hs2 as <-. congruence.
Qed.

(** ** The invariant *)

Definition is_dns (g : DnsGroup) (s : NetServer) : Prop :=
  ∃ regs, s = DnsServer regs ∧ binding <$> regs = wanted (live_listen g) (live_dot g) (live_doq g).
Definition is_doh (g : DohGroup) (s : NetServer) : Prop :=
  ∃ addr t, s = DohServer addr t ∧ live_doh g = Some addr ∧ live_doh_timeout g = Some t.
Definition is_metrics (g : MetricsGroup) (s : NetServer) : Prop :=
  ∃ addr, s = MetricsServer addr (live_metrics_path g) ∧ live_metrics g = Some addr.

(** The groups describe the servers that serve: one for DNS, at most one for the metrics,
    and one for DoH when there is an address for it. *)
Record listeners_inv (a : ActiveListeners) (w : World) : Prop := {
  inv_dns : current w DnsRole (dns_server (al_dns a)) (is_dns (al_dns a));
  inv_doh : current w DohRole (doh_token (al_doh a)) (is_doh (al_doh a));
  inv_metrics : current w MetricsRole (metrics_token (al_metrics a)) (is_metrics (al_metrics a));
  inv_dns_some : is_Some (dns_server (al_dns a));
  inv_doh_none : doh_token (al_doh a) = None →
    live_doh (al_doh a) = None ∧ live_doh_timeout (al_doh a) = None;
}.

(** A path that serves only itself: literal for the router, for the proxies before it, and
    not one of the fixed endpoints. *)
Definition path_literal (path : str) : Prop :=
  starts_with "/"%rs path = true ∧ (path ∉ RESERVED_METRICS_PATHS)
  ∧ (∀ c, c ∈ ["{"%rc; "}"%rc; "*"%rc] → c ∉ path)
  ∧ ∀ seg, seg ∈ split "/"%rc path → is_dot_segment seg = false.

(** Where a server may listen, by a configuration. *)
Definition canonical (ip : ip_addr) : ip_addr :=
  match ip with
  | V6 v6 => match to_ipv4_mapped v6 with Some v4 => V4 v4 | None => V6 v6 end
  | v4 => v4
  end.
Definition permitted (cfg : DnsConfig) (s : NetServer) : Prop :=
  match s with
  | DnsServer _ => True
  | DohServer addr _ => is_loopback (canonical (sa_ip addr)) = true ∨ has_tls (cfg_server cfg) = true
  | MetricsServer addr path => is_loopback (sa_ip addr) = true ∧ path_literal path
  end.

Definition bound_addrs (s : NetServer) : list SocketAddr :=
  match s with
  | DnsServer regs => (λ r, sk_addr (reg_sock r)) <$> regs
  | DohServer addr _ | MetricsServer addr _ => [addr]
  end.
Definition unprivileged (s : NetServer) : Prop :=
  Forall (λ a, is_privileged a = false) (bound_addrs s).

(** No server is forgotten, and the new ones satisfy [Q]. *)
Definition grows (Q : NetServer → Prop) (w w' : World) : Prop :=
  (length (w_servers w) ≤ length (w_servers w'))%nat
  ∧ ∀ id s st, w_servers w' !! id = Some (s, st) →
      (∃ st0, w_servers w !! id = Some (s, st0)) ∨ (length (w_servers w) ≤ id ∧ Q s)%nat.

Lemma grows_refl Q w w' : w_servers w' = w_servers w → grows Q w w'.
Proof. intros E. split; [by rewrite E|]. intros id s st Hs. left. rewrite E in Hs. by exists st. Qed.

Lemma grows_trans Q w1 w2 w3 : grows Q w1 w2 → grows Q w2 w3 → grows Q w1 w3.
Proof.
  intros [Hl1 H1] [Hl2 H2]. split; [lia|]. intros id s st Hs.
  destruct (H2 id s st Hs) as [[st0 Hs0]|[? ?]]; [by eapply H1|right; split; [lia|done]].
Qed.

Lemma grows_impl (Q Q' : NetServer → Prop) w w' : (∀ s, Q s → Q' s) → grows Q w w' → grows Q' w w'.
Proof.
  intros Hi [Hl Hq]. split; [done|]. intros id s st Hs.
  destruct (Hq id s st Hs) as [?|[? ?]]; [by left|right; auto].
Qed.

Lemma grows_retire Q tok w : grows Q w (retire tok w).2.
Proof.
  unfold retire. destruct tok as [id'|]; [|by apply grows_refl]. split.
  { cbn. by rewrite length_alter. }
  cbn. intros id s st. destruct (decide (id' = id)) as [->|Hn].
  - rewrite list_lookup_alter_eq. intros ([s0 st0] & Hs & [= -> ->])%fmap_Some. left. by exists st0.
  - rewrite list_lookup_alter_ne by done. left. by exists st.
Qed.

Lemma grows_replaced (Q : NetServer → Prop) s tok w : Q s → grows Q w (replaced s tok w).
Proof.
  intros HQ. eapply grows_trans; [|apply grows_retire]. split; [cbn; rewrite length_app; lia|].
  cbn. intros id s' st [Hs|[Hle Hs]]%lookup_app_Some; [left; by exists st|right].
  apply list_lookup_singleton_Some in Hs as [_ [= -> _]]. split; [lia|done].
Qed.

Lemma listeners_inv_servers a w w' :
  w_servers w' = w_servers w → listeners_inv a w → listeners_inv a w'.
Proof.
  intros E []. unfold current, serving in *. constructor; unfold current, serving; try done;
    by rewrite E.
Qed.

(** A computation that, from a generation that describes the servers, gives another one, or
    fails and starts nothing. *)
Definition safe_step (Q : NetServer → Prop) (a : ActiveListeners) (m : NetM ActiveListeners) : Prop :=
  ∀ w, listeners_inv a w →
    match m w with
    | (Ok a', w') =>
        listeners_inv a' w' ∧ grows Q w w'
        ∧ (is_Some (metrics_token (al_metrics a)) → is_Some (metrics_token (al_metrics a')))
    | (Err _, w') => w_servers w' = w_servers w
    end.

Lemma safe_step_ret Q a : safe_step Q a (mret a).
Proof. intros w Hw. cbn. split; [done|]. split; [by apply grows_refl|done]. Qed.

Lemma safe_step_bind {B} Q a (m : NetM B) (f : B → NetM ActiveListeners) :
  quiet m → (∀ x w w', m w = (Ok x, w') → safe_step Q a (f x)) → safe_step Q a (m ≫= f).
Proof.
  intros Hq Hf w Hw. specialize (Hq w). unfold mbind, net_bind.
  destruct (m w) as [[x|e] w1] eqn:Hm; cbn in Hq; [|done].
  pose proof (listeners_inv_servers a w w1 Hq Hw) as Hw1. specialize (Hf x w w1 Hm w1 Hw1).
  destruct (f x w1) as [[a'|e] w2]; [|congruence].
  destruct Hf as (? & Hg & ?). split; [done|]. split; [|done].
  eapply grows_trans; [by apply grows_refl|done].
Qed.

Lemma install_doh_safe Q addr t tls a :
  (ensure_doh_bind_allowed addr tls = Ok () → Q (DohServer addr t)) →
  safe_step Q a (install_doh addr t tls a).
Proof.
  intros HQ. unfold install_doh. apply safe_step_bind; [apply quiet_lift|].
  intros [] w1 w2 [He _]%lift_ok. apply safe_step_bind; [apply quiet_bind_tcp|].
  intros sock w3 w4 _ w [Hdns Hdoh Hm Hds Hdn]. cbn -[retire].
  split; [|split; [by apply (grows_replaced Q); auto|done]]. constructor; cbn; try done.
  - by eapply (replaced_other w (DohServer addr t)).
  - eapply (replaced_current w DohRole _ _ (DohServer addr t)); [done|done|]. by exists addr, t.
  - by eapply (replaced_other w (DohServer addr t)).
Qed.

Lemma install_metrics_safe (Q : NetServer → Prop) addr path a :
  Q (MetricsServer addr path) → safe_step Q a (install_metrics addr path a).
Proof.
  intros HQ. unfold install_metrics. apply safe_step_bind; [apply quiet_bind_tcp|].
  intros sock w3 w4 _ w [Hdns Hdoh Hm Hds Hdn]. cbn -[retire].
  split; [|split; [by apply (grows_replaced Q); auto|done]]. constructor; cbn; try done.
  - by eapply (replaced_other w (MetricsServer addr path)).
  - by eapply (replaced_other w (MetricsServer addr path)).
  - eapply (replaced_current w MetricsRole _ _ (MetricsServer addr path)); [done|done|].
    by exists addr.
Qed.

Lemma remove_doh_safe Q a :
  safe_step Q a (_ ← retire (doh_token (al_doh a));
                 mret (set_doh {| doh_token := None; live_doh := None; live_doh_timeout := None |} a)).
Proof.
  intros w [Hdns Hdoh Hm Hds Hdn]. cbn -[retire].
  assert ((retire (doh_token (al_doh a)) w).1 = Ok ()) as Hr by done.
  unfold mbind, net_bind. destruct (retire _ w) as [r w'] eqn:E. cbn in Hr. subst r.
  assert (w' = (retire (doh_token (al_doh a)) w).2) as -> by by rewrite E.
  cbn -[retire]. split; [|split; [apply grows_retire|done]]. constructor; cbn -[retire]; try done.
  - by eapply (retired_other w DohRole).
  - by eapply retired_current.
  - by eapply (retired_other w DohRole).
Qed.

Lemma spawn_dns_safe (Q : NetServer → Prop) a g regs :
  Q (DnsServer regs) → binding <$> regs = wanted (live_listen g) (live_dot g) (live_doq g) →
  safe_step Q a (id ← spawn (DnsServer regs);
                 _ ← retire (dns_server (al_dns a));
                 mret (set_dns {| dns_server := Some id; live_listen := live_listen g;
                                  live_dot := live_dot g; live_doq := live_doq g;
                                  live_tls_paths := live_tls_paths g |} a)).
Proof.
  intros HQ Hb w [Hdns Hdoh Hm Hds Hdn]. cbn -[retire].
  split; [|split; [by apply (grows_replaced Q); auto|done]]. constructor; cbn; try done.
  - eapply (replaced_current w DnsRole _ _ (DnsServer regs)); [done|done|]. by exists regs.
  - by eapply (replaced_other w (DnsServer regs)).
  - by eapply (replaced_other w (DnsServer regs)).
Qed.

(** ** The guards *)

Lemma is_loopback_v6 : is_loopback (V6 1) = true.
Proof. done. Qed.
Lemma is_loopback_v4 : is_loopback (V4 (ipv4_from_octets [127; 0; 0; 1])) = true.
Proof. done. Qed.

Lemma metrics_listen_addr_loopback m addr :
  metrics_listen_addr m = Ok addr → is_loopback (sa_ip addr) = true.
Proof.
  unfold metrics_listen_addr. intros (a & _ & Ha)%bind_ok. cbv zeta in Ha.
  set (ip := match sa_ip a with V4 _ => _ | V6 _ => _ end) in Ha.
  destruct (is_loopback ip) eqn:Hl; injection Ha as <-; [done|]. by destruct ip.
Qed.

Lemma strip_slash path :
  starts_with "/"%rs
    (if is_empty_str path then "/metrics"%rs
     else match strip_prefix "/"%rs path with
          | Some rest => "/"%rs ++ rest
          | None => "/"%rs ++ path
          end) = true.
Proof.
  apply starts_with_iff. destruct (is_empty_str path); [by eexists|].
  destruct (strip_prefix "/"%rs path); by eexists.
Qed.

Lemma normalize_metrics_path_literal path p :
  normalize_metrics_path path = Ok p → path_literal p.
Proof.
  unfold normalize_metrics_path. pose proof (strip_slash (trim path)) as Hs.
  set (n := if is_empty_str (trim path) then _ else _) in *. clearbody n. cbv zeta.
  intros (? & Hr%reject_if_ok & Hp)%bind_ok.
  apply bind_ok in Hp as (? & Hm%reject_if_ok & Hp).
  apply bind_ok in Hp as (? & Hd%reject_if_ok & [= <-]).
  split; [done|]. split; [|split].
  - intros Hin. apply Bool.not_true_iff_false in Hr. apply Hr. apply existsb_elem_of.
    exists n. split; [done|]. unfold str_eqb. by rewrite bool_decide_true.
  - rewrite !orb_false_iff in Hm. destruct Hm as [[H1 H2] H3].
    intros c Hc Hin. apply contains_elem in Hin. set_unfold in Hc.
    destruct Hc as [-> | [-> | [-> | []]]]; congruence.
  - intros seg Hseg. apply Bool.not_true_iff_false in Hd. apply Bool.not_true_iff_false.
    intros Ht. apply Hd, existsb_elem_of. by exists seg.
Qed.

Lemma ensure_doh_allowed cfg addr t :
  ensure_doh_bind_allowed addr (has_tls (cfg_server cfg)) = Ok () → permitted cfg (DohServer addr t).
Proof.
  unfold ensure_doh_bind_allowed, permitted, canonical. cbv zeta.
  destruct (sa_ip addr) as [v4|v6]; (destruct (is_loopback _); [by left|]);
    intros Hr%reject_if_ok; right; by destruct (has_tls _).
Qed.

Lemma all_unprivileged_spec l : all_unprivileged l = true ↔ Forall (λ a, is_privileged a = false) l.
Proof.
  unfold all_unprivileged. rewrite list.Forall_forall, forallb_elem_of.
  split; intros Hf a Ha; specialize (Hf a Ha); by apply negb_true_iff.
Qed.

Lemma wanted_addrs listen dot doq p :
  p ∈ wanted listen dot doq → p.2 ∈ listen ++ option_list dot ++ option_list doq.
Proof.
  unfold wanted. rewrite !elem_of_app. intros [Hp|[Hp|Hp]].
  - left. apply list_elem_of_In, in_concat in Hp as (l & Hl%list_elem_of_In & Hp%list_elem_of_In).
    apply list_elem_of_fmap in Hl as (a & -> & Ha). set_solver.
  - right. left. apply list_elem_of_fmap in Hp as (a & -> & Ha). done.
  - right. right. apply list_elem_of_fmap in Hp as (a & -> & Ha). done.
Qed.

Lemma bindings_unprivileged regs listen dot doq :
  binding <$> regs = wanted listen dot doq →
  all_unprivileged (listen ++ option_list dot ++ option_list doq) = true →
  unprivileged (DnsServer regs).
Proof.
  intros Hb Hu. apply all_unprivileged_spec in Hu. rewrite list.Forall_forall in Hu.
  unfold unprivileged. cbn. apply list.Forall_forall. intros a (r & -> & Hr)%list_elem_of_fmap.
  apply Hu. apply (wanted_addrs _ _ _ (binding r)). rewrite <- Hb. apply list_elem_of_fmap. by exists r.
Qed.

(** ** The reloads *)

Definition allowed (cfg : DnsConfig) (s : NetServer) : Prop := permitted cfg s ∧ unprivileged s.

Lemma reload_dns_safe cfg a : ∃ m, reload_dns_group cfg a = keep a m ∧ safe_step (allowed cfg) a m.
Proof.
  eexists. split; [reflexivity|].
  apply safe_step_bind; [apply quiet_lift|]. intros new_listen w1 w1' _.
  apply safe_step_bind; [apply quiet_lift|]. intros new_dot w2 w2' _.
  apply safe_step_bind; [apply quiet_lift|]. intros new_doq w3 w3' _. cbv zeta.
  destruct (_ && _); [apply safe_step_ret|].
  destruct (all_unprivileged _) eqn:Hu; cbn [negb]; [|apply safe_step_ret].
  apply safe_step_bind; [solve_quiet|]. intros tls w4 w4' _.
  apply safe_step_bind; [solve_quiet|]. intros doq_tls w5 w5' _.
  apply safe_step_bind; [solve_quiet|]. intros [regs inh] w6 w6' [Hb _]%build_dns_server_ok.
  eapply (spawn_dns_safe _ a {| dns_server := None; live_listen := new_listen; live_dot := new_dot;
    live_doq := new_doq; live_tls_paths := tls_paths (cfg_server cfg) |}); [|done].
  split; [done|]. by eapply bindings_unprivileged.
Qed.

Lemma reload_doh_safe cfg a : ∃ m, reload_doh_group cfg a = keep a m ∧ safe_step (allowed cfg) a m.
Proof.
  eexists. split; [reflexivity|].
  apply safe_step_bind; [apply quiet_lift|]. intros new_doh w1 w1' _. cbv zeta.
  destruct (_ && _); [apply safe_step_ret|]. destruct new_doh as [addr|]; [|apply remove_doh_safe].
  destruct (is_privileged addr) eqn:Hp; [apply safe_step_ret|].
  apply install_doh_safe. intros He. split; [by apply ensure_doh_allowed|]. by repeat constructor.
Qed.

Lemma reload_metrics_safe cfg a :
  ∃ m, reload_metrics_group cfg a = keep a m ∧ safe_step (allowed cfg) a m.
Proof.
  eexists. split; [reflexivity|].
  apply safe_step_bind; [apply quiet_lift|]. intros addr w1 w1' [Ha _]%lift_ok.
  apply safe_step_bind; [apply quiet_lift|]. intros path w2 w2' [Hp _]%lift_ok.
  destruct (_ && _); [apply safe_step_ret|].
  destruct (is_privileged addr) eqn:Hu; [apply safe_step_ret|].
  apply install_metrics_safe. split; [|by repeat constructor].
  split; [by eapply metrics_listen_addr_loopback|by eapply normalize_metrics_path_literal].
Qed.

(** What a reload of the listeners preserves. *)
Definition well_served (a : ActiveListeners) (w : World) : Prop :=
  listeners_inv a w ∧ is_Some (metrics_token (al_metrics a)).

Lemma keep_safe Q a m w :
  safe_step Q a m → well_served a w →
  let '(a', w') := keep a m w in well_served a' w' ∧ grows Q w w'.
Proof.
  intros Hs [Hw Hm]. specialize (Hs w Hw). unfold keep. destruct (m w) as [[a'|e] w'].
  - destruct Hs as (? & ? & ?). split; [|done]. split; auto.
  - split; [|by apply grows_refl]. split; [|done]. by eapply listeners_inv_servers.
Qed.

Lemma reload_listeners_safe cfg a w :
  well_served a w →
  let '(a', w') := reload_listeners cfg a w in well_served a' w' ∧ grows (allowed cfg) w w'.
Proof.
  intros Hw. unfold reload_listeners.
  destruct (reload_dns_safe cfg a) as (m1 & -> & Hm1).
  pose proof (keep_safe _ a m1 w Hm1 Hw) as H1. destruct (keep a m1 w) as [a1 w1].
  destruct H1 as [Hw1 Hg1].
  destruct (reload_doh_safe cfg a1) as (m2 & -> & Hm2).
  pose proof (keep_safe _ a1 m2 w1 Hm2 Hw1) as H2. destruct (keep a1 m2 w1) as [a2 w2].
  destruct H2 as [Hw2 Hg2].
  destruct (reload_metrics_safe cfg a2) as (m3 & -> & Hm3).
  pose proof (keep_safe _ a2 m3 w2 Hm3 Hw2) as H3. destruct (keep a2 m3 w2) as [a3 w3].
  destruct H3 as [Hw3 Hg3]. split; [done|].
  eapply grows_trans; [exact Hg1|]. by eapply grows_trans.
Qed.

(** ** Start-up, and any history of reloads *)

Definition no_world : World := {| w_calls := 0; w_servers := [] |}.

Definition run_reloads (cfgs : list DnsConfig) (a : ActiveListeners) (w : World) :
    ActiveListeners * World :=
  foldl (λ aw cfg, reload_listeners cfg aw.1 aw.2) (a, w) cfgs.

Lemma start_doh_safe cfg a : safe_step (permitted cfg) a (start_doh cfg a).
Proof.
  unfold start_doh. destruct (server_doh_listen _) as [s|]; [|apply safe_step_ret].
  apply safe_step_bind; [apply quiet_lift|]. intros addr w w' _.
  apply install_doh_safe. apply ensure_doh_allowed.
Qed.

Lemma start_metrics_safe cfg a :
  safe_step (permitted cfg) a (start_metrics cfg a)
  ∧ ∀ w a' w', start_metrics cfg a w = (Ok a', w') → is_Some (metrics_token (al_metrics a')).
Proof.
  unfold start_metrics. split.
  - apply safe_step_bind; [apply quiet_lift|]. intros addr w1 w1' [Ha _]%lift_ok.
    apply safe_step_bind; [apply quiet_lift|]. intros path w2 w2' [Hp _]%lift_ok.
    apply install_metrics_safe.
    split; [by eapply metrics_listen_addr_loopback|by eapply normalize_metrics_path_literal].
  - intros w a' w' (addr & ? & _ & Hm)%net_bind_ok.
    apply net_bind_ok in Hm as (path & ? & _ & Hm). unfold install_metrics in Hm.
    apply net_bind_ok in Hm as (sock & ? & _ & Hm). injection Hm as <- _. by eexists.
Qed.

Lemma start_listeners_served cfg fds w a w' :
  w_servers w = [] → start_listeners cfg fds w = (Ok a, w') →
  well_served a w'
  ∧ ∀ id s st, w_servers w' !! id = Some (s, st) → permitted cfg s.
Proof.
  intros Hw. unfold start_listeners. cbv zeta.
  intros (listen & w1 & [_ ->]%lift_ok & Hs)%net_bind_ok.
  apply net_bind_ok in Hs as (dot & ? & [_ ->]%lift_ok & Hs).
  apply net_bind_ok in Hs as (doq & ? & [_ ->]%lift_ok & Hs).
  apply net_bind_ok in Hs as (tls & w2 & Hq2%quiet_ok & Hs); [|solve_quiet].
  apply net_bind_ok in Hs as (doq_tls & w3 & Hq3%quiet_ok & Hs); [|solve_quiet].
  apply net_bind_ok in Hs as (inh & ? & [_ ->]%lift_ok & Hs).
  apply net_bind_ok in Hs as ([regs inh'] & w4 & Hb & Hs).
  apply quiet_ok in Hb as Hq4; [|solve_quiet]. apply build_dns_server_ok in Hb as [Hb _].
  assert (w_servers w4 = []) as Hw4 by congruence.
  apply net_bind_ok in Hs as (id & w5 & [= <- <-] & Hs). rewrite Hw4 in Hs. cbn [length app] in Hs.
  set (a0 := active_new _ _ _ _ _) in Hs. set (w5 := {| w_calls := _; w_servers := _ |}) in Hs.
  assert (listeners_inv a0 w5) as Hinv.
  { constructor; try done.
    - split; [by intros [|id] ? Hid|]. intros ? [= <-]. eexists. split; [reflexivity|].
      split; [done|]. by exists regs.
    - split; [by intros [|id] ? [= <-]|done].
    - split; [by intros [|id] ? [= <-]|done]. }
  apply net_bind_ok in Hs as (a1 & w6 & Hdoh & Hs).
  pose proof (start_doh_safe cfg a0 w5 Hinv) as Hd. rewrite Hdoh in Hd. destruct Hd as (Hi1 & Hg1 & _).
  apply net_bind_ok in Hs as (a2 & w7 & Hm & [= <- <-]).
  destruct (start_metrics_safe cfg a1) as [Hms Hmt]. apply Hmt in Hm as Hsome.
  specialize (Hms w6 Hi1). rewrite Hm in Hms. destruct Hms as (Hi2 & Hg2 & _).
  split; [split; [by destruct Hi2|done]|]. intros id s st Hs.
  destruct (grows_trans _ _ _ _ Hg1 Hg2) as [_ Hg]. destruct (Hg id s st Hs) as [[st0 H0]|[_ ?]]; [|done].
  destruct id; [|done]. by injection H0 as <- _.
Qed.

Lemma run_reloads_safe cfgs a w :
  well_served a w →
  let '(a', w') := run_reloads cfgs a w in
  well_served a' w' ∧ grows (λ s, ∃ cfg, cfg ∈ cfgs ∧ allowed cfg s) w w'.
Proof.
  intros Hw. unfold run_reloads. induction cfgs as [|cfg cfgs IH] using rev_ind.
  { split; [done|by apply grows_refl]. }
  rewrite foldl_app. cbn [foldl]. destruct (foldl _ _ cfgs) as [a1 w1]. destruct IH as [Hw1 Hg].
  pose proof (reload_listeners_safe cfg a1 w1 Hw1) as Hr. cbn [fst snd].
  destruct (reload_listeners cfg a1 w1) as [a2 w2]. destruct Hr as [Hw2 Hg2]. split; [done|].
  eapply grows_trans.
  - eapply grows_impl; [|exact Hg]. intros s (c & ? & ?). exists c. split; [set_solver|done].
  - eapply grows_impl; [|exact Hg2]. intros s Hs. exists cfg. split; [set_solver|done].
Qed.

(** C18. Once started, the daemon is always served, and only as it may be: whatever the
    reloads and whatever the system refuses, exactly one DNS server, bound to the recorded
    addresses, one metrics server and at most one DoH server take work; every server ever
    started was permitted by one of the configurations (metrics on loopback, at a literal
    path; DoH in the open only with TLS material), and those started after start-up, when
    the capabilities are gone, use no privileged port. *)
Theorem listeners_always_served (cfg0 : DnsConfig) (fds : list passed_fd) (cfgs : list DnsConfig)
    (a0 : ActiveListeners) (w0 : World) :
  start_listeners cfg0 fds no_world = (Ok a0, w0) →
  let '(a, w) := run_reloads cfgs a0 w0 in
  well_served a w
  ∧ ∀ id s st, w_servers w !! id = Some (s, st) →
      (∃ cfg, cfg ∈ cfg0 :: cfgs ∧ permitted cfg s)
      ∧ ((length (w_servers w0) ≤ id)%nat → unprivileged s).
Proof.
  intros Hs. apply start_listeners_served in Hs as [Hw0 Hp0]; [|done].
  pose proof (run_reloads_safe cfgs a0 w0 Hw0) as Hr. destruct (run_reloads cfgs a0 w0) as [a w].
  destruct Hr as [Hw [Hl Hg]]. split; [done|]. intros id s st Hid.
  destruct (Hg id s st Hid) as [[st0 H0]|[Hle (cfg & Hc & Hp & Hu)]].
  - split; [exists cfg0; split; [by left|by eapply Hp0]|]. apply lookup_lt_Some in H0. lia.
  - split; [|done]. exists cfg. split; [by right|done].
Qed.

(** Sockets passed by the service manager are used exactly where they belong: a DNS
    server that is built has one socket per configured service, in order; a socket passed
    for an address and transport is adopted instead of binding a new one, each at most
    once, and the others are left. *)
Theorem passed_sockets_adopted (listen : list SocketAddr) (dot doq : option SocketAddr)
    (tls doq_tls : option TlsServerConfig) (inh inh' : InheritedSockets) (w w' : World)
    (regs : list Registration) :
  build_dns_server listen dot tls doq doq_tls inh w = (Ok (regs, inh'), w') →
  binding <$> regs = wanted listen dot doq
  ∧ adopted regs ++ passed inh' ≡ₚ passed inh
  ∧ Forall (λ r, match sk_origin (reg_sock r) with
                 | Adopted fd => fd ∈ passed_to inh (sk_proto (reg_sock r)) (sk_addr (reg_sock r))
                 | Bound => passed_to inh' (sk_proto (reg_sock r)) (sk_addr (reg_sock r)) = []
                 end) regs.
Proof. intros (Hb & Hp & Hf & _)%build_dns_server_ok. by split_and!. Qed.

(** ** Convergence *)

(** A system that grants every request. *)
Definition grants : Prop :=
  (∀ n p a, os_bind n p a = true) ∧ (∀ n a, os_register n a = true)
  ∧ ∀ n c k alpn, is_Some (os_tls n c k alpn).

Definition total {A} (m : NetM A) : Prop := ∀ w, ∃ a w', m w = (Ok a, w').

Lemma total_ret {A} (a : A) : total (mret a).
Proof. intros w. by eexists _, _. Qed.
Lemma total_bind {A B} (m : NetM A) (f : A → NetM B) : total m → (∀ a, total (f a)) → total (m ≫= f).
Proof.
  intros Hm Hf w. destruct (Hm w) as (a & w1 & E). unfold mbind, net_bind. rewrite E. apply Hf.
Qed.
Lemma total_lift {A} (r : result listen_error A) a : r = Ok a → total (lift r).
Proof. intros -> w. by eexists _, _. Qed.

Section granted.
Hypothesis Hgrants : grants.

Lemma total_udp_listener addr inh : total (udp_listener addr inh).
Proof.
  unfold udp_listener. destruct (take_udp addr inh) as [[fd inh']|]; [apply total_ret|].
  apply total_bind; [|intros; apply total_ret]. intros w. unfold bind_udp, bind_socket, call.
  destruct Hgrants as (-> & _). by eexists _, _.
Qed.
Lemma total_bind_tcp addr : total (bind_tcp addr).
Proof.
  intros w. unfold bind_tcp, bind_socket, call. destruct Hgrants as (-> & _). by eexists _, _.
Qed.
Lemma total_tcp_listener addr inh : total (tcp_listener addr inh).
Proof.
  unfold tcp_listener. destruct (take_tcp addr inh) as [[fd inh']|]; [apply total_ret|].
  apply total_bind; [apply total_bind_tcp|intros; apply total_ret].
Qed.
Lemma total_register addr r : total (register addr r).
Proof. intros w. unfold register, call. destruct Hgrants as (_ & -> & _). by eexists _, _. Qed.

Lemma total_register_plain listen : ∀ regs inh, total (register_plain listen regs inh).
Proof.
  induction listen as [|addr listen IH]; intros regs inh; cbn; [apply total_ret|].
  apply total_bind; [apply total_udp_listener|]. intros [udp inh1].
  apply total_bind; [apply total_tcp_listener|]. intros [tcp inh2]. apply IH.
Qed.

Lemma total_build_dns_server listen dot tls doq doq_tls inh :
  (is_Some dot → is_Some tls) → (is_Some doq → is_Some doq_tls) →
  total (build_dns_server listen dot tls doq doq_tls inh).
Proof.
  intros Hdot Hdoq. unfold build_dns_server. apply total_bind; [apply total_register_plain|].
  intros [regs1 inh1]. apply total_bind.
  - destruct dot as [addr|]; [|apply total_ret]. destruct Hdot as [t ->]; [done|].
    eapply total_bind; [by eapply total_lift|]. intros t'.
    apply total_bind; [apply total_tcp_listener|]. intros [tcp inh2].
    apply total_bind; [apply total_register|]. intros. apply total_ret.
  - intros [regs2 inh2]. destruct doq as [addr|]; [|apply total_ret]. destruct Hdoq as [t ->]; [done|].
    eapply total_bind; [by eapply total_lift|]. intros t'.
    apply total_bind; [apply total_udp_listener|]. intros [udp inh3].
    apply total_bind; [apply total_register|]. intros. apply total_ret.
Qed.

Lemma total_tls s alpn : has_tls s = true → total (build_tls_server_config s alpn).
Proof.
  unfold has_tls. rewrite andb_true_iff, !bool_decide_eq_true. intros [[c Hc] [k Hk]].
  unfold build_tls_server_config. rewrite Hc, Hk.
  eapply total_bind; [by eapply total_lift|]. intros c'.
  eapply total_bind; [by eapply total_lift|]. intros k' w. unfold call.
  destruct Hgrants as (_ & _ & Ht). destruct (Ht (w_calls w) c' k' alpn) as [t ->]. by eexists _, _.
Qed.

(** The TLS configuration of an optional listener. *)
Lemma optional_tls (addr : option SocketAddr) (m : NetM TlsServerConfig) w :
  (is_Some addr → total m) →
  ∃ t w', match addr with
          | Some _ => t ← m; mret (Some t)
          | None => mret None
          end w = (Ok t, w') ∧ (is_Some addr → is_Some t).
Proof.
  intros Hm. destruct addr; [|by eexists _, _].
  destruct (Hm ltac:(done) w) as (t & w' & E). exists (Some t), w'. split; [|done].
  unfold mbind, net_bind. by rewrite E.
Qed.

(** What a configuration asks of the listeners. *)
Record asks (cfg : DnsConfig) (listen : list SocketAddr) (dot doq doh : option SocketAddr)
    (metrics : SocketAddr) (path : str) : Prop := {
  asks_listen : parse_socket_addrs (server_listen (cfg_server cfg)) = Ok listen;
  asks_dot : parse_socket_opt (server_dot_listen (cfg_server cfg)) = Ok dot;
  asks_doq : parse_socket_opt (server_doq_listen (cfg_server cfg)) = Ok doq;
  asks_doh : parse_socket_opt (server_doh_listen (cfg_server cfg)) = Ok doh;
  asks_metrics : metrics_listen_addr (cfg_metrics cfg) = Ok metrics;
  asks_path : normalize_metrics_path (metrics_path (cfg_metrics cfg)) = Ok path;
}.

Lemma reload_dns_converges cfg listen dot doq doh metrics path a w :
  asks cfg listen dot doq doh metrics path →
  all_unprivileged (listen ++ option_list dot ++ option_list doq) = true →
  (is_Some dot ∨ is_Some doq → has_tls (cfg_server cfg) = true) →
  let '(a', w') := reload_dns_group cfg a w in
  (live_listen (al_dns a') = listen ∧ live_dot (al_dns a') = dot ∧ live_doq (al_dns a') = doq
   ∧ live_tls_paths (al_dns a') = tls_paths (cfg_server cfg))
  ∧ al_doh a' = al_doh a ∧ al_metrics a' = al_metrics a.
Proof.
  intros [Hl Hdot Hdoq _ _ _] Hu Htls. unfold reload_dns_group, keep. cbv zeta.
  rewrite (bind_lift _ _ _ _ Hl), (bind_lift _ _ _ _ Hdot), (bind_lift _ _ _ _ Hdoq).
  destruct (_ && _) eqn:Heq.
  { rewrite !andb_true_iff, !bool_decide_eq_true in Heq.
    destruct Heq as [[[-> ->] ->] ->]. cbn. by destruct a. }
  rewrite Hu. cbn [negb].
  destruct (optional_tls dot (load_tls_config (cfg_server cfg)) w) as (tls & w1 & E1 & Ht1).
  { intros ?. apply total_tls. auto. }
  destruct (optional_tls doq (load_doq_tls_config (cfg_server cfg)) w1) as (tls' & w2 & E2 & Ht2).
  { intros ?. apply total_tls. auto. }
  destruct (total_build_dns_server listen dot tls doq tls' inherited_empty Ht1 Ht2 w2)
    as ([regs inh] & w3 & E3).
  rewrite (bind_run _ _ _ _ _ E1), (bind_run _ _ _ _ _ E2), (bind_run _ _ _ _ _ E3).
  cbn. by split_and!.
Qed.

Lemma reload_doh_converges cfg listen dot doq doh metrics path a w :
  asks cfg listen dot doq doh metrics path →
  (∀ addr, doh = Some addr → is_privileged addr = false
     ∧ (has_tls (cfg_server cfg) = true ∨ is_loopback (canonical (sa_ip addr)) = true)) →
  let '(a', w') := reload_doh_group cfg a w in
  (live_doh (al_doh a') = doh
   ∧ match doh with
     | Some _ => live_doh_timeout (al_doh a') = Some (upstream_timeout_ms (cfg_upstream cfg))
     | None => al_doh a' = {| doh_token := None; live_doh := None; live_doh_timeout := None |}
               ∨ live_doh_timeout (al_doh a') = Some (upstream_timeout_ms (cfg_upstream cfg))
     end)
  ∧ al_dns a' = al_dns a ∧ al_metrics a' = al_metrics a.
Proof.
  intros [_ _ _ Hd _ _] Hok. unfold reload_doh_group, keep. cbv zeta.
  rewrite (bind_lift _ _ _ _ Hd). destruct (_ && _) eqn:Heq.
  { rewrite !andb_true_iff, !bool_decide_eq_true in Heq. destruct Heq as [-> Ht]. cbn.
    destruct (live_doh (al_doh a)); split_and!; auto. }
  destruct doh as [addr|]; [|cbn; split_and!; by auto]. destruct (Hok addr eq_refl) as [-> He].
  unfold install_doh.
  assert (ensure_doh_bind_allowed addr (has_tls (cfg_server cfg)) = Ok ()) as Hallow.
  { unfold ensure_doh_bind_allowed, canonical in *. cbv zeta.
    destruct (sa_ip addr) as [v4|v6]; destruct He as [-> | ->]; by repeat case_match. }
  destruct (total_bind_tcp addr w) as (sock & w1 & E1).
  rewrite (bind_lift _ _ _ _ Hallow), (bind_run _ _ _ _ _ E1). cbn. by split_and!.
Qed.

Lemma reload_metrics_converges cfg listen dot doq doh metrics path a w :
  asks cfg listen dot doq doh metrics path → is_privileged metrics = false →
  let '(a', w') := reload_metrics_group cfg a w in
  (live_metrics (al_metrics a') = Some metrics ∧ live_metrics_path (al_metrics a') = path)
  ∧ al_dns a' = al_dns a ∧ al_doh a' = al_doh a.
Proof.
  intros [_ _ _ _ Hm Hp] Hu. unfold reload_metrics_group, keep. cbv zeta.
  rewrite (bind_lift _ _ _ _ Hm), (bind_lift _ _ _ _ Hp). destruct (_ && _) eqn:Heq.
  { rewrite !andb_true_iff, !bool_decide_eq_true in Heq. destruct Heq as [E1 E2]. cbn. by split_and!. }
  rewrite Hu. unfold install_metrics. destruct (total_bind_tcp metrics w) as (sock & w1 & E1).
  rewrite (bind_run _ _ _ _ _ E1). cbn. by split_and!.
Qed.


Lemma parse_socket_addrs_all l :
  (∀ s, s ∈ l → is_Some (parse_socket_addr s)) →
  parse_socket_addrs l = Ok (omap parse_socket_addr l).
Proof.
  intros Hl. apply try_map_ok. induction l as [|s l IH]; [constructor|].
  destruct (Hl s) as [a Ha]; [by left|]. cbn. rewrite Ha. constructor.
  - unfold parse_socket. by rewrite Ha.
  - apply IH. intros s' Hs'. apply Hl. by right.
Qed.

Lemma parse_socket_opt_all o :
  (∀ s, o = Some s → is_Some (parse_socket_addr s)) → parse_socket_opt o = Ok (Validate.parse_addr o).
Proof.
  intros Ho. destruct o as [s|]; [|done]. destruct (Ho s eq_refl) as [a Ha].
  cbn. unfold parse_socket. by rewrite Ha.
Qed.

(** The daemon binds the address that validation checked for collisions. *)
Lemma metrics_listen_addr_effective m : result_ok (metrics_listen_addr m) = result_ok (effective_listen m).
Proof.
  unfold metrics_listen_addr, effective_listen. destruct (parse_socket_addr _) as [a|]; [|done]. cbn.
  destruct (sa_ip a) as [v4|v6]; [|destruct (to_ipv4_mapped v6)]; by destruct (is_loopback _).
Qed.

Lemma validated_asks `{RegexRules.RegexCrate} cfg path :
  Validate.validate_config cfg = Ok () →
  normalize_metrics_path (metrics_path (cfg_metrics cfg)) = Ok path →
  let s := cfg_server cfg in
  ∃ metrics, result_ok (effective_listen (cfg_metrics cfg)) = Some metrics
    ∧ asks cfg (Validate.plain_listens s) (Validate.parse_addr (server_dot_listen s))
        (Validate.parse_addr (server_doq_listen s)) (Validate.parse_addr (server_doh_listen s))
        metrics path.
Proof.
  intros Hv Hp. cbv zeta. pose proof (λ s, Validate.validated_addresses_parse cfg s Hv) as Hall.
  destruct (Hall (metrics_listen (cfg_metrics cfg))) as [m Hm]; [set_solver|].
  assert (∃ a, metrics_listen_addr (cfg_metrics cfg) = Ok a) as [a Ha].
  { unfold metrics_listen_addr. rewrite Hm. cbn. destruct (is_loopback _); by eexists. }
  exists a. rewrite <- metrics_listen_addr_effective, Ha. split; [done|]. constructor; try done.
  - apply parse_socket_addrs_all. intros s Hs. apply Hall. by left.
  - apply parse_socket_opt_all. intros s Hs. apply Hall. rewrite Hs. set_solver.
  - apply parse_socket_opt_all. intros s Hs. apply Hall. rewrite Hs. set_solver.
  - apply parse_socket_opt_all. intros s Hs. apply Hall. rewrite Hs. set_solver.
Qed.

(** What is live is what a configuration asks. *)
Definition live_as (cfg : DnsConfig) (path : str) (a : ActiveListeners) : Prop :=
  live_listen (al_dns a) = Validate.plain_listens (cfg_server cfg)
  ∧ live_dot (al_dns a) = Validate.parse_addr (server_dot_listen (cfg_server cfg))
  ∧ live_doq (al_dns a) = Validate.parse_addr (server_doq_listen (cfg_server cfg))
  ∧ live_tls_paths (al_dns a) = tls_paths (cfg_server cfg)
  ∧ live_doh (al_doh a) = Validate.parse_addr (server_doh_listen (cfg_server cfg))
  ∧ (is_Some (live_doh (al_doh a)) → live_doh_timeout (al_doh a) = Some (upstream_timeout_ms (cfg_upstream cfg)))
  ∧ live_metrics (al_metrics a) = result_ok (effective_listen (cfg_metrics cfg))
  ∧ live_metrics_path (al_metrics a) = path.

Lemma role_addr_unprivileged r o :
  Forall (λ p, is_privileged p.1 = false) (Validate.role_addr r o) →
  Forall (λ a, is_privileged a = false) (option_list o).
Proof. destruct o; [|done]. cbn. rewrite !Forall_cons_iff. by intros [? _]. Qed.

Lemma reload_settles `{RegexRules.RegexCrate} cfg path a w :
  Validate.validate_config cfg = Ok () →
  normalize_metrics_path (metrics_path (cfg_metrics cfg)) = Ok path →
  Forall (λ p, is_privileged p.1 = false)
    (Validate.tcp_addrs (cfg_server cfg) (cfg_metrics cfg) ++ Validate.udp_addrs (cfg_server cfg)) →
  live_as cfg path (reload_listeners cfg a w).1.
Proof.
  intros Hv Hp Hu. destruct (validated_asks cfg path Hv Hp) as (metrics & Hm & Hasks).
  unfold Validate.tcp_addrs, Validate.udp_addrs in Hu. rewrite Hm, !Forall_app in Hu.
  destruct Hu as ((Hplain & Hdot & Hdoh & Hme) & _ & Hdoq).
  apply role_addr_unprivileged in Hdot, Hdoh, Hme, Hdoq. rewrite Forall_fmap in Hplain.
  pose proof (Validate.tls_checks_ok cfg (Validate.validated_tls cfg Hv)) as Htls.
  assert (has_tls (cfg_server cfg) = true ∨
    server_tls_cert_path (cfg_server cfg) = None ∨ server_tls_key_path (cfg_server cfg) = None) as Hcase.
  { unfold has_tls. destruct (server_tls_cert_path _), (server_tls_key_path _); auto. }
  unfold reload_listeners.
  pose proof (reload_dns_converges _ _ _ _ _ _ _ a w Hasks) as Hr1.
  destruct (reload_dns_group cfg a w) as [a1 w1]. destruct Hr1 as ((? & ? & ? & ?) & E1 & E1').
  { apply all_unprivileged_spec. by rewrite !Forall_app. }
  { destruct Hcase as [?|Hno]; [done|]. destruct (Htls Hno) as (-> & -> & _). cbn. by intros [[]|[]]. }
  pose proof (reload_doh_converges _ _ _ _ _ _ _ a1 w1 Hasks) as Hr2.
  destruct (reload_doh_group cfg a1 w1) as [a2 w2]. destruct Hr2 as ((Hd & Htime) & E2 & E2').
  { intros addr Ha. rewrite Ha in Hdoh. split; [by apply Forall_cons_1 in Hdoh as []|].
    destruct Hcase as [?|Hno]; [by left|right]. destruct (Htls Hno) as (_ & _ & Hl).
    unfold Validate.parse_addr in Ha. apply bind_Some in Ha as (s & Hs & Ha).
    by eapply Hl, Validate.doh_listener. }
  pose proof (reload_metrics_converges _ _ _ _ _ _ _ a2 w2 Hasks) as Hr3.
  destruct (reload_metrics_group cfg a2 w2) as [a3 w3]. destruct Hr3 as ((? & ?) & E3 & E3').
  { by apply Forall_cons_1 in Hme as []. }
  assert (is_Some (live_doh (al_doh a2)) →
    live_doh_timeout (al_doh a2) = Some (upstream_timeout_ms (cfg_upstream cfg))) as Htime'.
  { rewrite Hd. intros [addr Ha]. by rewrite Ha in Htime. }
  cbn. unfold live_as. rewrite Hm, E3'. split_and!; first [exact Htime'|congruence].
Qed.

(** The server takes work, and no other of its role does. *)
Definition alone (w : World) (s : NetServer) : Prop :=
  ∃ id, serving w id s ∧ ∀ id' s', serving w id' s' → role_of s' = role_of s → id' = id.

(** What serves is what a configuration asks: the DNS server with a socket for each of its
    listeners, the DoH server where there is to be one, and the metrics server. *)
Definition serves_as (cfg : DnsConfig) (path : str) (w : World) : Prop :=
  let s := cfg_server cfg in
  (∃ regs, alone w (DnsServer regs)
     ∧ binding <$> regs = wanted (Validate.plain_listens s) (Validate.parse_addr (server_dot_listen s))
                            (Validate.parse_addr (server_doq_listen s)))
  ∧ match Validate.parse_addr (server_doh_listen s) with
    | Some addr => alone w (DohServer addr (upstream_timeout_ms (cfg_upstream cfg)))
    | None => ∀ id s', serving w id s' → role_of s' ≠ DohRole
    end
  ∧ ∃ addr, result_ok (effective_listen (cfg_metrics cfg)) = Some addr ∧ alone w (MetricsServer addr path).

Lemma current_alone w tok (P : NetServer → Prop) k :
  current w k tok P → is_Some tok → ∃ s, role_of s = k ∧ P s ∧ alone w s.
Proof.
  intros [Hu Ht] [id ->]. destruct (Ht id eq_refl) as (s & Hs & Hk & HP). exists s.
  split; [done|]. split; [done|]. exists id. split; [done|]. intros id' s' Hs' Hr.
  specialize (Hu id' s' Hs'). rewrite Hr in Hu. specialize (Hu Hk). congruence.
Qed.

Lemma live_serves cfg path a w : live_as cfg path a → well_served a w → serves_as cfg path w.
Proof.
  intros (Hl & Hdot & Hdoq & _ & Hdoh & Htime & Hm & Hp) [[Hd Hh Hme Hds Hnone] Hms]. split; [|split].
  - destruct (current_alone _ _ _ _ Hd Hds) as (s & _ & (regs & -> & Hb) & Ha). exists regs.
    by rewrite <- Hl, <- Hdot, <- Hdoq.
  - rewrite <- Hdoh. destruct (doh_token (al_doh a)) as [tok|] eqn:Htok.
    + destruct (current_alone _ _ _ _ Hh) as (s & _ & (addr & t & -> & Haddr & Ht) & Ha); [by eexists|].
      rewrite Haddr in *. rewrite Htime in Ht by done. by injection Ht as ->.
    + destruct (Hnone eq_refl) as [-> _]. intros id s Hs Hr. by specialize (proj1 Hh id s Hs Hr).
  - destruct (current_alone _ _ _ _ Hme Hms) as (s & _ & (addr & -> & Haddr) & Ha).
    exists addr. rewrite <- Hm, Haddr. split; [done|]. by rewrite <- Hp.
Qed.

End granted.

(** C38. A reload converges: when the system grants what is asked, a valid configuration on
    unprivileged ports whose metrics path is acceptable to the daemon (validation does not look
    at it) is live after one reload, whatever the listeners were: it is what is recorded, and,
    from a generation that describes what serves, as every start and reload leaves it, it is
    what serves.  One DNS server has the sockets of all configured listeners, one DoH server its
    address if there is one, and one metrics server its address and path; these are the
    addresses that validation checked for collisions. *)
Theorem reload_converges `{RegexRules.RegexCrate} (cfg : DnsConfig) (path : str)
    (a : ActiveListeners) (w : World) :
  grants → Validate.validate_config cfg = Ok () →
  normalize_metrics_path (metrics_path (cfg_metrics cfg)) = Ok path →
  Forall (λ p, is_privileged p.1 = false)
    (Validate.tcp_addrs (cfg_server cfg) (cfg_metrics cfg) ++ Validate.udp_addrs (cfg_server cfg)) →
  let '(a', w') := reload_listeners cfg a w in
  live_as cfg path a' ∧ (well_served a w → serves_as cfg path w').
Proof.
  intros Hg Hv Hp Hu. pose proof (reload_settles Hg cfg path a w Hv Hp Hu) as Hl.
  pose proof (reload_listeners_safe cfg a w) as Hs. destruct (reload_listeners cfg a w) as [a' w'].
  split; [exact Hl|]. intros Hw. destruct (Hs Hw) as [Hw' _]. by apply (live_serves cfg path a').
Qed.
End listeners.

(** ** Witnesses *)

Definition granting : Os :=
  {| TlsServerConfig := unit; os_bind := λ _ _ _, true; os_register := λ _ _, true;
     os_tls := λ _ _ _ _, Some () |}.

(** A system that refuses every socket but the first four. *)
Definition refusing : Os :=
  {| TlsServerConfig := unit; os_bind := λ n _ _, (n <? 4)%nat; os_register := λ _ _, true;
     os_tls := λ _ _ _ _, Some () |}.

Definition demo_listeners (listen : str) (metrics : str) : DnsConfig :=
  {| cfg_server :=
       {| server_listen := [listen]; server_mesh_zone := default_mesh_zone;
          server_doh_listen := Some "127.0.0.1:8053"%rs; server_dot_listen := None;
          server_doq_listen := None; server_tls_cert_path := None; server_tls_key_path := None |};
     cfg_upstream := UpstreamConfig_default; cfg_authority := AuthorityConfig_default;
     cfg_blocklist := BlocklistConfig_default; cfg_privacy := PrivacyConfig_default;
     cfg_metrics := {| metrics_listen := metrics; metrics_path := "stats"%rs |};
     cfg_rate_limit := RateLimitConfig_default; cfg_policy := []; cfg_rewrite := [];
     cfg_safesearch := SafeSearchConfig_default |}.

Definition demo_started : result listen_error (@ActiveListeners) * @World granting :=
  @start_listeners granting (demo_listeners "0.0.0.0:53"%rs "127.0.0.1:9153"%rs)
    [PassedSock Tcp (parse_socket_addr "0.0.0.0:53"%rs)] no_world.

(** A reload moves DNS to another port, and the metrics to a loopback one. *)
Lemma listeners_always_served_witness :
  ∃ a0 w0, demo_started = (Ok a0, w0)
    ∧ well_served
        (run_reloads [demo_listeners "0.0.0.0:5353"%rs "0.0.0.0:9154"%rs] a0 w0).1
        (run_reloads [demo_listeners "0.0.0.0:5353"%rs "0.0.0.0:9154"%rs] a0 w0).2.
Proof.
  destruct demo_started as [[a0|e] w0] eqn:E; [|vm_compute in E; discriminate E].
  exists a0, w0. split; [reflexivity|].
  pose proof (@listeners_always_served granting (demo_listeners "0.0.0.0:53"%rs "127.0.0.1:9153"%rs)
    [PassedSock Tcp (parse_socket_addr "0.0.0.0:53"%rs)]
    [demo_listeners "0.0.0.0:5353"%rs "0.0.0.0:9154"%rs] a0 w0 E) as Hs.
  destruct (run_reloads _ a0 w0) as [a w]. exact (proj1 Hs).
Defined.

(** Refused, a reload keeps what serves. *)
Example demo_refused :
  match @start_listeners refusing (demo_listeners "0.0.0.0:53"%rs "127.0.0.1:9153"%rs) [] no_world with
  | (Ok a0, w0) =>
      (reload_listeners (demo_listeners "0.0.0.0:5353"%rs "0.0.0.0:9154"%rs) a0 w0).1 = a0
  | _ => False
  end.
Proof. vm_compute. reflexivity. Qed.

(** The passed socket of port 53 is adopted, that of another address is left. *)
Definition demo_passed : InheritedSockets :=
  {| inh_udp := []; inh_tcp := [({| sa_ip := V4 0; sa_port := 5300; sa_scope := 0 |}, 0%nat);
                                ({| sa_ip := V4 0; sa_port := 53; sa_scope := 0 |}, 1%nat)];
     total_passed := 2 |}.

Lemma passed_sockets_adopted_witness :
  ∃ regs inh' w',
    @build_dns_server granting [{| sa_ip := V4 0; sa_port := 53; sa_scope := 0 |}] None None None
      None demo_passed no_world = (Ok (regs, inh'), w')
    ∧ adopted regs = [1%nat] ∧ passed inh' = [0%nat]
    ∧ adopted regs ++ passed inh' ≡ₚ passed demo_passed.
Proof.
  destruct (@build_dns_server granting _ _ _ _ _ _ _) as [[[regs inh']|e] w'] eqn:E;
    [|vm_compute in E; discriminate E].
  exists regs, inh', w'. split; [reflexivity|].
  apply (@passed_sockets_adopted granting) in E as Hs.
  vm_compute in E. injection E as <- <- <-. split; [reflexivity|]. split; [reflexivity|].
  exact (proj1 (proj2 Hs)).
Defined.

Lemma reload_converges_witness :
  ∃ a0 w0, demo_started = (Ok a0, w0)
    ∧ @serves_as granting (demo_listeners "0.0.0.0:5353"%rs "0.0.0.0:9154"%rs) "/stats"%rs
        (reload_listeners (demo_listeners "0.0.0.0:5353"%rs "0.0.0.0:9154"%rs) a0 w0).2.
Proof.
  destruct demo_started as [[a0|e] w0] eqn:E; [|vm_compute in E; discriminate E].
  exists a0, w0. split; [reflexivity|].
  pose proof (@start_listeners_served granting (demo_listeners "0.0.0.0:53"%rs "127.0.0.1:9153"%rs)
    [PassedSock Tcp (parse_socket_addr "0.0.0.0:53"%rs)] no_world a0 w0 eq_refl E) as [Hw _].
  pose proof (@reload_converges granting RegexRules.literal_regex
    (demo_listeners "0.0.0.0:5353"%rs "0.0.0.0:9154"%rs) "/stats"%rs a0 w0) as Hr.
  destruct (reload_listeners _ a0 w0) as [a' w']. apply Hr; [| | | |exact Hw].
  - split; [done|]. split; [done|]. intros. by eexists.
  - vm_compute. reflexivity.
  - vm_compute. reflexivity.
  - apply (bool_decide_unpack _). vm_compute. exact I.
Defined.
