(* ===== verification/Http.v ===== *)
(** * Http: DNS over HTTPS and the metrics listener's pages
    ([rustydnsd/src/doh.rs] and the endpoints of [rustydnsd/src/metrics.rs])

    What the web framework does before a handler runs (the choice of the route, methods, the
    query string, the limit on bodies) is not modelled, but for the routes it is given;
    base64, the parser and the encoder of DNS messages and the text of header values are
    parameters. *)

From S2P Require Import Prelude RustStr Net Hickory Odoh Resolver Handler.
From S2P Require RegexRules QueryLog Listeners.

Record HttpResponse := { status : Z; headers : list (str * str); body : list Z }.

Definition no_store : str * str := ("Cache-Control"%rs, "no-store"%rs).
Definition content_type (value : str) : str * str := ("Content-Type"%rs, value).

(** ** The deadline of a response *)

(** Durations in nanoseconds, of which there are at most [Duration::MAX]. *)
Definition DURATION_MAX : Z := 2 ^ 64 * 1000000000 - 1.
Definition from_millis (ms : Z) : Z := ms * 1000000.
Definition saturating_mul (d n : Z) : Z := if d * n <=? DURATION_MAX then d * n else DURATION_MAX.
(** Addition panics when it overflows. *)
Definition duration_add (a b : Z) : option Z := if a + b <=? DURATION_MAX then Some (a + b) else None.

Definition DOH_TIMEOUT_FLOOR : Z := 5 * 1000000000.
Definition DOH_TIMEOUT_SLACK : Z := from_millis 500.

Definition doh_deadline (upstream_timeout : Z) : option Z :=
  Z.max DOH_TIMEOUT_FLOOR <$> duration_add (saturating_mul upstream_timeout 2) DOH_TIMEOUT_SLACK.

(** ** DNS over HTTPS *)

Definition MAX_DOH_MESSAGE_BYTES : Z := 65535.

Definition bad_request (message : str) : HttpResponse :=
  {| status := 400; headers := [no_store]; body := as_bytes message |}.
Definition server_error (message : str) : HttpResponse :=
  {| status := 500; headers := [no_store]; body := as_bytes message |}.
Definition too_large : HttpResponse :=
  {| status := 413; headers := [no_store]; body := as_bytes "DNS message too large"%rs |}.
Definition unsupported_media_type : HttpResponse :=
  {| status := 415; headers := [("Accept"%rs, "application/dns-message"%rs)];
     body := as_bytes "content-type must be application/dns-message"%rs |}.
Definition dns_message (response_bytes : list Z) : HttpResponse :=
  {| status := 200; headers := [content_type "application/dns-message"%rs; no_store];
     body := response_bytes |}.

Class DohLib `{Hickory} := {
  (** [URL_SAFE_NO_PAD.decode]. *)
  base64url_decode : str → option (list Z);
  (** [HeaderValue::to_str]. *)
  header_to_str : list Z → option str;
  (** [Request::from_bytes], of a message received over HTTPS. *)
  from_bytes : list Z → SocketAddr → option Request;
  (** [MessageResponse::destructive_emit], up to 65535 bytes. *)
  emit : Request → Response → option (list Z);
}.

(** What the framework gives to the handlers: the [dns] parameter, or the first
    [Content-Type] header and the body. *)
Inductive DohRequest :=
| DohGet (dns : str)
| DohPost (content_type : option (list Z)) (body : list Z).

Section doh.
Context `{Hickory} `{!Server} `{!Upstream} `{!OdohLib} `{!DohLib} `{Unicode}
  `{RegexRules.RegexCrate}.
Context (net : list action → action → reply) (rand : list action → draw → Z).
Context (validate : (bytes → OdohState → result OdohError bytes * OdohState) →
  HName → RecordType → OdohState → option (list RR * ResponseCode) * OdohState).
Context (hash_qname : str → Z).

Definition is_dns_message_content_type (value : option (list Z)) : bool :=
  match value ≫= header_to_str with
  | Some v =>
      match head (split ";"%rc v) with
      | Some t => eq_ignore_ascii_case (trim t) "application/dns-message"%rs
      | None => false
      end
  | None => false
  end.

(** The one-shot channel of a request: whether its sender is still there, and what was
    received. *)
Record DohResponseHandler := { sender : bool; received : option (list Z) }.

Definition doh_response_handler_new : DohResponseHandler := {| sender := true; received := None |}.

(** Whether the response was encoded; the first that is goes to the channel. *)
Definition send_response (encoded : option (list Z)) (c : DohResponseHandler) : bool * DohResponseHandler :=
  match encoded with
  | None => (false, c)
  | Some buffer => (true, if sender c then {| sender := false; received := Some buffer |} else c)
  end.

(** The deadline on the channel is only set when the handler is done: the response is there,
    or never will be. *)
Definition handle_dns_message (now : Now) (src : SocketAddr) (bytes : list Z) (h : DnsHandler) :
    HttpResponse * DnsHandler :=
  if bool_decide (bytes = []) then (bad_request "empty DNS message"%rs, h)
  else if MAX_DOH_MESSAGE_BYTES <? Z.of_nat (length bytes) then (too_large, h)
  else match from_bytes bytes src with
       | None => (bad_request "malformed DNS message"%rs, h)
       | Some request =>
           let '(response, h) := handle_request net rand validate hash_qname now request h in
           match received (send_response (emit request response) doh_response_handler_new).2 with
           | Some response_bytes => (dns_message response_bytes, h)
           | None => (server_error "failed to build DNS response"%rs, h)
           end
       end.

Definition handle_get (now : Now) (src : SocketAddr) (dns : str) (h : DnsHandler) :
    HttpResponse * DnsHandler :=
  match base64url_decode dns with
  | Some decoded => handle_dns_message now src decoded h
  | None => (bad_request "invalid base64url in dns parameter"%rs, h)
  end.

Definition handle_post (now : Now) (src : SocketAddr) (value : option (list Z)) (body : list Z)
    (h : DnsHandler) : HttpResponse * DnsHandler :=
  if negb (is_dns_message_content_type value) then (unsupported_media_type, h)
  else handle_dns_message now src body h.

Definition handle_doh (now : Now) (src : SocketAddr) (r : DohRequest) (h : DnsHandler) :
    HttpResponse * DnsHandler :=
  match r with
  | DohGet dns => handle_get now src dns h
  | DohPost value body => handle_post now src value body h
  end.

(** ** What a client of DNS over HTTPS gets *)

(** The DNS message a request carries, or the status that says it carries none. *)
Definition carried (r : DohRequest) : result Z (list Z) :=
  bytes ← match r with
          | DohGet dns => ok_or 400 (base64url_decode dns)
          | DohPost value body =>
              _ ← reject_if (negb (is_dns_message_content_type value)) 415; Ok body
          end;
  _ ← reject_if (bool_decide (bytes = [])) 400;
  _ ← reject_if (MAX_DOH_MESSAGE_BYTES <? Z.of_nat (length bytes)) 413;
  Ok bytes.

(** C37. DNS over HTTPS serves what the request handler serves, and nothing else: a request
    that carries no message, or one that does not parse, leaves the handler alone and gets
    the 4xx status of what is wrong with it; any other goes through the handler, once, and
    gets status 200 with the bytes of exactly that response, or 500 when it cannot be
    encoded.  Nothing may be stored by a cache, but for the bare 415. *)
Theorem doh_serves_handler (now : Now) (src : SocketAddr) (r : DohRequest) (h : DnsHandler) :
  let '(resp, h') := handle_doh now src r h in
  match carried r with
  | Err code => status resp = code ∧ h' = h
  | Ok bytes =>
      match from_bytes bytes src with
      | None => status resp = 400 ∧ h' = h
      | Some request =>
          let '(response, h1) := handle_request net rand validate hash_qname now request h in
          h' = h1
          ∧ (∀ out, emit request response = Some out ↔ status resp = 200 ∧ body resp = out)
          ∧ (emit request response = None ↔ status resp = 500)
      end
  end
  ∧ (status resp ≠ 415 → no_store ∈ headers resp)
  ∧ (status resp = 200 → content_type "application/dns-message"%rs ∈ headers resp).
Proof.
  unfold handle_doh, handle_get, handle_post, handle_dns_message, carried.
  destruct r as [dns|value bytes]; cbn [mbind result_bind];
    [destruct (base64url_decode dns) as [bytes|]|destruct (is_dns_message_content_type value)];
    cbn; try (split; [done|set_solver]).
  all: case_bool_decide; cbn; [split; [done|set_solver]|].
  all: destruct (_ <? _); cbn; [split; [done|set_solver]|].
  all: destruct (from_bytes bytes src) as [request|]; cbn; [|split; [done|set_solver]].
  all: destruct (handle_request _ _ _ _ _ _ _) as [response h1].
  all: destruct (emit request response) as [out|]; cbn; (split; [|set_solver]); naive_solver.
Qed.
End doh.

(** The deadline of a response never panics, whatever timeout is configured: for any
    number of milliseconds a [u64] can hold it is twice that and half a second, but at
    least five seconds. *)
Theorem doh_deadline_total (timeout_ms : Z) :
  0 ≤ timeout_ms ≤ u64_max →
  doh_deadline (from_millis timeout_ms)
  = Some (Z.max 5000000000 (2 * from_millis timeout_ms + 500000000)).
Proof.
  unfold u64_max, doh_deadline, saturating_mul, duration_add, from_millis, DURATION_MAX,
    DOH_TIMEOUT_SLACK, from_millis. assert (2 ^ 64 = 18446744073709551616) as -> by reflexivity.
  intros Hms.
  rewrite (proj2 (Z.leb_le (timeout_ms * 1000000 * 2) _)) by lia.
  rewrite (proj2 (Z.leb_le _ _)) by lia. cbn [fmap option_fmap option_map]. unfold DOH_TIMEOUT_FLOOR. f_equal. lia.
Qed.

(** ** The pages of the metrics listener *)

(** The registry's text and its media type, if it can be encoded. *)
Definition metrics_handler (encoded : option (str * list Z)) : HttpResponse :=
  match encoded with
  | Some (format_type, text) =>
      {| status := 200; headers := [content_type format_type; no_store]; body := text |}
  | None => {| status := 500; headers := [no_store]; body := as_bytes "metrics encoding error"%rs |}
  end.

Definition json (code : Z) (text : str) : HttpResponse :=
  {| status := code; headers := [content_type "application/json"%rs; no_store];
     body := as_bytes text |}.

Definition health_handler (ready : bool) : HttpResponse :=
  let page s := "{"%rs ++ QueryLog.quoted "status"%rs ++ ":"%rs ++ QueryLog.quoted s ++ "}"%rs in
  if ready then json 200 (page "ok"%rs) else json 503 (page "starting"%rs).

Definition MAX_QUERIES_RENDERED : nat := 1000.

(** One turn of the loop over the entries. *)
Definition push_entry (out : str) (p : nat * QueryLog.QueryLogEntry) : str :=
  out ++ (if (0 <? p.1)%nat then ","%rs else []) ++ QueryLog.to_json p.2.

Definition queries_handler (l : QueryLog.QueryLog) : HttpResponse :=
  let entries := QueryLog.log_snapshot l in
  let total := length entries in
  let rendered := Nat.min total MAX_QUERIES_RENDERED in
  let number name n := QueryLog.quoted name ++ ":"%rs ++ show_dec (Z.of_nat n) ++ ","%rs in
  let out := "{"%rs ++ number "capacity"%rs (QueryLog.log_capacity l) ++ number "count"%rs total
             ++ number "returned"%rs rendered ++ QueryLog.quoted "entries"%rs ++ ":["%rs in
  json 200 (foldl push_entry out (imap pair (take rendered entries)) ++ "]}"%rs).

(** The routes of the listener, on the path that was configured. *)
Inductive page := MetricsPage | HealthPage | QueriesPage.
Definition metrics_routes (path : str) : list (str * page) :=
  [(path, MetricsPage); ("/health"%rs, HealthPage); ("/queries"%rs, QueriesPage)].

Definition serve_page (encoded : option (str * list Z)) (ready : bool) (l : QueryLog.QueryLog) (p : page) :
    HttpResponse :=
  match p with
  | MetricsPage => metrics_handler encoded
  | HealthPage => health_handler ready
  | QueriesPage => queries_handler l
  end.

(** What the router wants of the routes it is given, for a path that passed the checks of the
    listeners: each starts with a slash, none has a capture, and no two are equal, on which
    it panics. *)
Lemma metrics_routes_literal path :
  Listeners.path_literal path →
  NoDup (metrics_routes path).*1
  ∧ Forall (λ p, starts_with "/"%rs p = true ∧ ∀ c, c ∈ ["{"%rc; "}"%rc; "*"%rc] → c ∉ p)
      (metrics_routes path).*1.
Proof.
  intros (Hs & Hr & Hm & _). unfold Listeners.RESERVED_METRICS_PATHS in Hr. cbn [metrics_routes fmap list_fmap fst].
  split.
  - constructor; [exact Hr|]. apply (bool_decide_unpack _). vm_compute. exact I.
  - repeat constructor; try done; intros c Hc; apply (bool_decide_unpack _);
      repeat (apply elem_of_cons in Hc as [-> |Hc]; [vm_compute; exact I|]); by apply elem_of_nil in Hc.
Qed.

(** The page that shows [shown] of [total] entries. *)
Definition queries_page (capacity total : nat) (shown : list QueryLog.QueryLogEntry) : str :=
  let number name n := QueryLog.quoted name ++ ":"%rs ++ show_dec (Z.of_nat n) ++ ","%rs in
  "{"%rs ++ number "capacity"%rs capacity ++ number "count"%rs total
  ++ number "returned"%rs (length shown) ++ QueryLog.quoted "entries"%rs
  ++ ":["%rs ++ join ","%rs (QueryLog.to_json <$> shown) ++ "]}"%rs.

Lemma push_entries es out k :
  foldl push_entry out (imap (λ i e, ((S k + i)%nat, e)) es)
  = out ++ concat ((λ e, ","%rs ++ QueryLog.to_json e) <$> es).
Proof.
  revert out k. induction es as [|e es IH]; intros out k; [by rewrite app_nil_r|].
  cbn [imap foldl]. rewrite (imap_ext _ (λ i e, ((S (S k) + i)%nat, e))).
  - rewrite IH. unfold push_entry.
    cbn [fst snd fmap list_fmap concat Nat.add Nat.ltb Nat.leb]. by rewrite !app_assoc.
  - intros i x _. cbn. f_equal. by rewrite Nat.add_succ_r.
Qed.

Lemma push_entries_join es out :
  foldl push_entry out (imap pair es) = out ++ join ","%rs (QueryLog.to_json <$> es).
Proof.
  destruct es as [|e es]; [by rewrite app_nil_r|]. cbn [imap foldl].
  rewrite (imap_ext _ (λ i e, ((1 + i)%nat, e))) by done. rewrite push_entries.
  unfold push_entry. cbn [fst snd Nat.ltb Nat.leb app fmap list_fmap].
  rewrite <- app_assoc. f_equal. revert e. induction es as [|e' es IH]; intros e; [apply app_nil_r|].
  change (QueryLog.to_json e ++ 44 :: QueryLog.to_json e'
    ++ concat ((λ e, 44 :: QueryLog.to_json e) <$> es)
    = QueryLog.to_json e ++ 44 :: join ","%rs (QueryLog.to_json e' :: (QueryLog.to_json <$> es))).
  by rewrite <- (IH e').
Qed.

(** The [/queries] page, after any history of queries and of the disk writer: it lists
    the latest queries, newest first, as many as the ring keeps but at most a thousand, and
    says how many it holds and shows. *)
Theorem queries_page_latest (hash_qname : str → Z) (n cap : nat) (events : list QueryLog.log_event) :
  let r := foldl (QueryLog.log_step hash_qname)
             {| QueryLog.run_log := QueryLog.with_disk_sink n
                  {| QueryLog.chan_capacity := cap; QueryLog.chan_queue := [];
                     QueryLog.chan_open := true |} 0;
                QueryLog.run_written := [] |} events in
  let es := omap (QueryLog.event_entry hash_qname) events in
  queries_handler (QueryLog.run_log r)
  = json 200 (queries_page n (Nat.min n (length es)) (take (Nat.min n 1000) (rev es))).
Proof.
  intros r es. destruct (QueryLog.run_log_inv hash_qname n cap events) as (Hn & Hring & _).
  fold r es in Hn, Hring.
  assert (QueryLog.log_snapshot (QueryLog.run_log r) = take n (rev es)) as Hs.
  { unfold QueryLog.log_snapshot. rewrite Hring. unfold QueryLog.latest. by rewrite List.firstn_rev. }
  unfold queries_handler, queries_page. rewrite Hs, Hn, push_entries_join.
  rewrite length_take, length_rev. unfold MAX_QUERIES_RENDERED.
  assert (take (Nat.min (Nat.min n (length es)) 1000) (take n (rev es)) = take (Nat.min n 1000) (rev es))
    as ->.
  { rewrite take_take. destruct (Nat.le_gt_cases (length es) (Nat.min n 1000)); [|f_equal; lia].
    by rewrite !take_ge by (rewrite length_rev; lia). }
  rewrite length_take, length_rev.
  replace (Nat.min (Nat.min n (length es)) 1000) with (Nat.min (Nat.min n 1000) (length es)) by lia.
  by rewrite <- !app_assoc.
Qed.

(** ** Examples *)

Definition demo_doh : @DohLib demo_hickory :=
  {| base64url_decode := λ s, if bool_decide (s = []) then None else Some [1];
     header_to_str := Some;
     from_bytes := λ bytes _, if bool_decide (bytes = [1])
                              then Some (demo_request 167772163 "nas.home.lan."%rs) else None;
     emit := λ _ resp, Some [Z.of_nat (length (resp_answers resp))] |}.
#[local] Existing Instances demo_hickory demo_server demo_upstream demo_odoh demo_doh ascii_only
  RegexRules.literal_regex.

Definition demo_ask (r : DohRequest) : Z * list Z :=
  let src := {| sa_ip := V4 167772163; sa_port := 4000; sa_scope := 0 |} in
  let resp := (handle_doh demo_net demo_draws demo_validate QueryLog.demo_hash demo_now src r
                 demo_handler).1 in
  (status resp, body resp).

Example demo_asks :
  demo_ask (DohPost (Some "Application/DNS-Message ; v=1"%rs) [1]) = (200, [1])
  ∧ demo_ask (DohGet "AQ"%rs) = (200, [1])
  ∧ (λ r, (demo_ask r).1) <$>
      [DohGet []; DohPost None [1]; DohPost (Some "application/dns-message"%rs) [2];
       DohPost (Some "application/dns-message"%rs) (replicate (Z.to_nat 65536) 1)]
    = [400; 415; 400; 413].
Proof. split_and!; vm_compute; reflexivity. Qed.

Example demo_health :
  (status (health_handler false), status (health_handler true)) = (503, 200).
Proof. reflexivity. Qed.

Lemma doh_deadline_total_witness : doh_deadline (from_millis u64_max) = Some 36893488147419103730000000.
Proof. rewrite (doh_deadline_total u64_max); [vm_compute; reflexivity|]. split; discriminate. Defined.

Lemma doh_serves_handler_witness :
  let src := {| sa_ip := V4 167772163; sa_port := 4000; sa_scope := 0 |} in
  let '(resp, h') := handle_doh demo_net demo_draws demo_validate QueryLog.demo_hash demo_now src
                       (DohGet []) demo_handler in
  status resp = 400 ∧ h' = demo_handler ∧ no_store ∈ headers resp.
Proof.
  intros src.
  pose proof (doh_serves_handler demo_net demo_draws demo_validate QueryLog.demo_hash demo_now src
    (DohGet []) demo_handler) as Hs.
  destruct (handle_doh _ _ _ _ _ _ _ _) as [resp h']. destruct Hs as ((Hc & Hh) & Hn & _).
  cbn in Hc. split; [exact Hc|]. split; [exact Hh|]. apply Hn. rewrite Hc. discriminate.
Defined.
