(* ===== verification/Metrics.v ===== *)
(** * Metrics: what is exported, and under which name
    ([rustydnsd/src/metrics.rs])

    [Metrics::new] registers one family per counter and gauge.  The values are kept where they
    are counted: [Handler.Metrics] for the requests, [Daemon.ReloadMetrics], the disk writer's
    [DiskLog.DiskMetrics] and the drop counter of [QueryLog].  Here are the registry and the
    handles; [prometheus] is the class [Prometheus]. *)

From S2P Require Import Prelude RustStr Hickory Handler.

(** ** The registry *)

Inductive kind := Counter | CounterVec (label : str) | Gauge.
Record desc := { d_name : str; d_help : str; d_kind : kind }.

(** Whether a family can be made: [IntCounter::new] and its like. *)
Class Prometheus := { desc_valid : desc → bool }.

(** The families by name, and a handle on one of them. *)
Definition Registry : Type := gmap str desc.
Definition handle : Type := str.

Inductive metrics_error := FamilyInvalid (name : str) | AlreadyRegistered (name : str).

Section metrics.
Context `{Prometheus}.

(** A family is made, and registered, unless another one has its name. *)
Definition register (d : desc) (r : Registry) : result metrics_error (handle * Registry) :=
  _ ← reject_if (negb (desc_valid d)) (FamilyInvalid (d_name d));
  _ ← reject_if (bool_decide (is_Some (r !! d_name d))) (AlreadyRegistered (d_name d));
  Ok (d_name d, <[d_name d := d]> r).

Definition register_counter (name help : str) (r : Registry) : result metrics_error (handle * Registry) :=
  register {| d_name := name; d_help := help; d_kind := Counter |} r.
Definition register_counter_vec (name help label : str) (r : Registry) :
    result metrics_error (handle * Registry) :=
  register {| d_name := name; d_help := help; d_kind := CounterVec label |} r.
Definition register_gauge (name help : str) (r : Registry) : result metrics_error (handle * Registry) :=
  register {| d_name := name; d_help := help; d_kind := Gauge |} r.

#[export] Instance kind_eq_dec : EqDecision kind.
Proof. solve_decision. Defined.

(** ** The handles *)

Record MetricsHandles := {
  registry : Registry;
  dns_queries_total : handle;
  queries_by_qtype : handle;
  responses_by_rcode : handle;
  authority_hits_total : handle;
  rewrite_hits_total : handle;
  blocklist_hits_total : handle;
  blocklist_cname_cloaking_blocked_total : handle;
  blocklist_response_ip_blocked_total : handle;
  resolver_queries_total : handle;
  resolver_failures_total : handle;
  blocklist_reload_success_total : handle;
  blocklist_reload_failure_total : handle;
  blocklist_reload_skipped_total : handle;
  blocklist_entries : handle;
  blocklist_heap_bytes : handle;
  blocklist_last_reload : handle;
  mesh_records : handle;
  mesh_zone_reload_success_total : handle;
  mesh_zone_reload_failure_total : handle;
  mesh_zone_last_reload : handle;
  policy_blocklist_bypass_total : handle;
  policy_zone_denied_total : handle;
  policy_schedule_blocked_total : handle;
  private_rdata_dropped_total : handle;
  policy_rate_limited_total : handle;
  policy_refused_any_total : handle;
  query_log_disk_written_total : handle;
  query_log_disk_dropped_total : handle;
  query_log_disk_io_errors_total : handle;
  query_log_disk_rotations_total : handle;
}.

Definition quote_mark : str := [34].

Definition metrics_new : result metrics_error MetricsHandles :=
  let r := ∅ in
  '(dns_queries_total, r) ← register_counter
       "rustydns_dns_queries_total"%rs
       "Total DNS queries received"%rs r;
  '(queries_by_qtype, r) ← register_counter_vec
       "rustydns_dns_queries_by_qtype_total"%rs
       ("DNS queries received, partitioned by query type. Bounded label set: hickory "%rs
         ++ "maps every RecordType to a fixed mnemonic and collapses unknown/unsupported "%rs
         ++ "types to "%rs
         ++ quote_mark
         ++ "Unknown"%rs
         ++ quote_mark
         ++ ", so attacker-chosen qtypes cannot inflate label cardinality."%rs) "qtype"%rs r;
  '(responses_by_rcode, r) ← register_counter_vec
       "rustydns_dns_responses_by_rcode_total"%rs
       ("DNS responses sent, partitioned by response code. Bounded label set: codes "%rs
         ++ "rustydns does not itself emit collapse to "%rs
         ++ quote_mark
         ++ "other"%rs
         ++ quote_mark
         ++ "."%rs) "rcode"%rs r;
  '(authority_hits_total, r) ← register_counter
       "rustydns_authority_hits_total"%rs
       "Authority lookups that returned a result"%rs r;
  '(rewrite_hits_total, r) ← register_counter
       "rustydns_rewrite_hits_total"%rs
       "Queries answered by a [[rewrite]] rule (local cloaking map)"%rs r;
  '(blocklist_hits_total, r) ← register_counter
       "rustydns_blocklist_hits_total"%rs
       "Queries blocked by the blocklist"%rs r;
  '(blocklist_cname_cloaking_blocked_total, r) ← register_counter
       "rustydns_blocklist_cname_cloaking_blocked_total"%rs
       "Queries blocked because a CNAME in the answer pointed at a blocked domain"%rs r;
  '(blocklist_response_ip_blocked_total, r) ← register_counter
       "rustydns_blocklist_response_ip_blocked_total"%rs
       "Queries blocked because a resolved A/AAAA was on the response-IP denylist"%rs r;
  '(resolver_queries_total, r) ← register_counter
       "rustydns_resolver_queries_total"%rs
       "Queries forwarded to upstream resolvers"%rs r;
  '(resolver_failures_total, r) ← register_counter
       "rustydns_resolver_failures_total"%rs
       "Resolver failures returned as SERVFAIL"%rs r;
  '(blocklist_reload_success_total, r) ← register_counter
       "rustydns_blocklist_reload_success_total"%rs
       "Successful blocklist reloads"%rs r;
  '(blocklist_reload_failure_total, r) ← register_counter
       "rustydns_blocklist_reload_failure_total"%rs
       "Failed blocklist reloads"%rs r;
  '(blocklist_reload_skipped_total, r) ← register_counter
       "rustydns_blocklist_reload_skipped_total"%rs
       "Blocklist fetch rounds skipped by the SIGHUP minimum-spacing guard"%rs r;
  '(blocklist_entries, r) ← register_gauge
       "rustydns_blocklist_entries"%rs
       "Current blocklist entry count"%rs r;
  '(blocklist_heap_bytes, r) ← register_gauge
       "rustydns_blocklist_heap_bytes"%rs
       "Estimated blocklist heap usage in bytes"%rs r;
  '(blocklist_last_reload, r) ← register_gauge
       "rustydns_blocklist_last_reload_seconds"%rs
       "Unix timestamp of the most recent blocklist reload"%rs r;
  '(mesh_records, r) ← register_gauge
       "rustydns_mesh_records"%rs
       "Current mesh-zone record count loaded from the Rustynet bundle"%rs r;
  '(mesh_zone_reload_success_total, r) ← register_counter
       "rustydns_mesh_zone_reload_success_total"%rs
       "Successful mesh-zone bundle reloads"%rs r;
  '(mesh_zone_reload_failure_total, r) ← register_counter
       "rustydns_mesh_zone_reload_failure_total"%rs
       "Mesh-zone bundle reloads that failed verification or parsing"%rs r;
  '(mesh_zone_last_reload, r) ← register_gauge
       "rustydns_mesh_zone_last_reload_seconds"%rs
       "Unix timestamp of the most recent mesh-zone reload attempt"%rs r;
  '(policy_blocklist_bypass_total, r) ← register_counter
       "rustydns_policy_blocklist_bypass_total"%rs
       ("Queries for which a [[policy]] entry's blocklist_bypass=true skipped the "%rs
         ++ "blocklist check"%rs) r;
  '(policy_zone_denied_total, r) ← register_counter
       "rustydns_policy_zone_denied_total"%rs
       ("Queries refused with REFUSED because they fell outside a [[policy]] entry's "%rs
         ++ "zones_allowed list"%rs) r;
  '(policy_schedule_blocked_total, r) ← register_counter
       "rustydns_policy_schedule_blocked_total"%rs
       ("Queries refused with REFUSED because the client was inside an active "%rs
         ++ "[[policy.block_windows]] scheduled block window"%rs) r;
  '(private_rdata_dropped_total, r) ← register_counter
       "rustydns_resolver_private_rdata_dropped_total"%rs
       ("A/AAAA records stripped from upstream responses by the DNS-rebinding defence "%rs
         ++ "(upstream.block_private_rdata = true). Counts individual records, not queries."%rs) r;
  '(policy_rate_limited_total, r) ← register_counter
       "rustydns_policy_rate_limited_total"%rs
       ("Queries refused with REFUSED because the source IP exceeded the per-client "%rs
         ++ "token-bucket rate limit"%rs) r;
  '(policy_refused_any_total, r) ← register_counter
       "rustydns_policy_refused_any_total"%rs
       "ANY (qtype 255) queries refused with REFUSED (RFC 8482 minimal-answer posture)"%rs r;
  '(query_log_disk_written_total, r) ← register_counter
       "rustydns_query_log_disk_written_total"%rs
       "Query-log entries successfully written to the on-disk NDJSON log"%rs r;
  '(query_log_disk_dropped_total, r) ← register_counter
       "rustydns_query_log_disk_dropped_total"%rs
       ("Query-log entries dropped from the on-disk stream because the writer channel "%rs
         ++ "was full (disk slower than query rate)"%rs) r;
  '(query_log_disk_io_errors_total, r) ← register_counter
       "rustydns_query_log_disk_io_errors_total"%rs
       "Write or flush errors encountered by the on-disk query-log writer"%rs r;
  '(query_log_disk_rotations_total, r) ← register_counter
       "rustydns_query_log_disk_rotations_total"%rs
       "On-disk query-log file rotations performed"%rs r;
  Ok {| registry := r; dns_queries_total := dns_queries_total; queries_by_qtype := queries_by_qtype;
        responses_by_rcode := responses_by_rcode; authority_hits_total := authority_hits_total;
        rewrite_hits_total := rewrite_hits_total; blocklist_hits_total := blocklist_hits_total;
        blocklist_cname_cloaking_blocked_total := blocklist_cname_cloaking_blocked_total;
        blocklist_response_ip_blocked_total := blocklist_response_ip_blocked_total;
        resolver_queries_total := resolver_queries_total; resolver_failures_total :=
        resolver_failures_total; blocklist_reload_success_total :=
        blocklist_reload_success_total; blocklist_reload_failure_total :=
        blocklist_reload_failure_total; blocklist_reload_skipped_total :=
        blocklist_reload_skipped_total; blocklist_entries := blocklist_entries;
        blocklist_heap_bytes := blocklist_heap_bytes; blocklist_last_reload :=
        blocklist_last_reload; mesh_records := mesh_records; mesh_zone_reload_success_total :=
        mesh_zone_reload_success_total; mesh_zone_reload_failure_total :=
        mesh_zone_reload_failure_total; mesh_zone_last_reload := mesh_zone_last_reload;
        policy_blocklist_bypass_total := policy_blocklist_bypass_total; policy_zone_denied_total
        := policy_zone_denied_total; policy_schedule_blocked_total :=
        policy_schedule_blocked_total; private_rdata_dropped_total :=
        private_rdata_dropped_total; policy_rate_limited_total := policy_rate_limited_total;
        policy_refused_any_total := policy_refused_any_total; query_log_disk_written_total :=
        query_log_disk_written_total; query_log_disk_dropped_total :=
        query_log_disk_dropped_total; query_log_disk_io_errors_total :=
        query_log_disk_io_errors_total; query_log_disk_rotations_total :=
        query_log_disk_rotations_total |}.

(** The family a request's counter goes to, by the method that increments it. *)
Definition family (m : MetricsHandles) (x : metric) : handle :=
  match x with
  | Queries => dns_queries_total m
  | QueriesByQtype _ => queries_by_qtype m
  | ResponsesByRcode _ => responses_by_rcode m
  | AuthorityHits => authority_hits_total m
  | RewriteHits => rewrite_hits_total m
  | BlocklistHits => blocklist_hits_total m
  | CnameCloakingBlocked => blocklist_cname_cloaking_blocked_total m
  | ResponseIpBlocked => blocklist_response_ip_blocked_total m
  | ResolverQueries => resolver_queries_total m
  | ResolverFailures => resolver_failures_total m
  | PolicyBlocklistBypass => policy_blocklist_bypass_total m
  | PolicyZoneDenied => policy_zone_denied_total m
  | PolicyScheduleBlocked => policy_schedule_blocked_total m
  | PolicyRateLimited => policy_rate_limited_total m
  | PolicyRefusedAny => policy_refused_any_total m
  | PrivateRdataDropped => private_rdata_dropped_total m
  end.

(** Those of the reloads and of the query log on disk. *)
Definition other_families (m : MetricsHandles) : list handle :=
  [blocklist_reload_success_total m; blocklist_reload_failure_total m;
   blocklist_reload_skipped_total m; blocklist_entries m; blocklist_heap_bytes m;
   blocklist_last_reload m; mesh_records m; mesh_zone_reload_success_total m;
   mesh_zone_reload_failure_total m; mesh_zone_last_reload m; query_log_disk_written_total m;
   query_log_disk_dropped_total m; query_log_disk_io_errors_total m;
   query_log_disk_rotations_total m].

(** ** Properties *)

(** The documented form of a family: a name of letters, digits, underscores and colons that
    does not start with a digit, a help text, and a label of the same form without colons. *)
Definition name_char (c : Z) : bool := is_ascii_alphanumeric c || (c =? "_"%rc).
Definition documented (d : desc) : bool :=
  match d_name d with
  | c :: _ => negb (is_ascii_digit c) && forallb (λ c, name_char c || (c =? ":"%rc)) (d_name d)
  | [] => false
  end
  && negb (is_empty_str (d_help d))
  && match d_kind d with
     | CounterVec l => match l with c :: _ => negb (is_ascii_digit c) | [] => false end
                       && forallb name_char l && negb (starts_with "__"%rs l)
     | _ => true
     end.

Lemma bind_register {B} (d : desc) (r : Registry) (f : handle * Registry → result metrics_error B) :
  (∀ d, documented d = true → desc_valid d = true) → documented d = true → r !! d_name d = None →
  register d r ≫= f = f (d_name d, <[d_name d := d]> r).
Proof. intros Hv Hd Hr. unfold register. rewrite (Hv d Hd), Hr. done. Qed.

(** The families of the requests, and the place of a counter's in them. *)
Definition request_families (m : MetricsHandles) : list handle :=
  [dns_queries_total m; queries_by_qtype m; responses_by_rcode m; authority_hits_total m;
   rewrite_hits_total m; blocklist_hits_total m; blocklist_cname_cloaking_blocked_total m;
   blocklist_response_ip_blocked_total m; resolver_queries_total m; resolver_failures_total m;
   policy_blocklist_bypass_total m; policy_zone_denied_total m; policy_schedule_blocked_total m;
   policy_rate_limited_total m; policy_refused_any_total m; private_rdata_dropped_total m].
Definition place (x : metric) : nat :=
  match x with
  | Queries => 0 | QueriesByQtype _ => 1 | ResponsesByRcode _ => 2 | AuthorityHits => 3
  | RewriteHits => 4 | BlocklistHits => 5 | CnameCloakingBlocked => 6 | ResponseIpBlocked => 7
  | ResolverQueries => 8 | ResolverFailures => 9 | PolicyBlocklistBypass => 10
  | PolicyZoneDenied => 11 | PolicyScheduleBlocked => 12 | PolicyRateLimited => 13
  | PolicyRefusedAny => 14 | PrivateRdataDropped => 15
  end.

Lemma family_place m x : request_families m !! place x = Some (family m x).
Proof. by destruct x. Qed.

(** The label of a family. *)
Definition family_kind (x : metric) : kind :=
  match x with
  | QueriesByQtype _ => CounterVec "qtype"%rs
  | ResponsesByRcode _ => CounterVec "rcode"%rs
  | _ => Counter
  end.
Definition request_kinds : list kind :=
  [Counter; CounterVec "qtype"%rs; CounterVec "rcode"%rs] ++ replicate 13 Counter.

Lemma kind_place x : request_kinds !! place x = Some (family_kind x).
Proof. by destruct x. Qed.

(** What the theorem says of the handles, decided. *)
Definition well_registered (m : MetricsHandles) : bool :=
  bool_decide (size (registry m) = 30%nat)
  && bool_decide (NoDup (request_families m ++ other_families m))
  && bool_decide ((λ f, d_kind <$> registry m !! f) <$> request_families m = Some <$> request_kinds)
  && forallb (λ f, bool_decide (is_Some (registry m !! f))) (other_families m).

Lemma metrics_new_ok :
  (∀ d, documented d = true → desc_valid d = true) →
  ∃ m, metrics_new = Ok m ∧ well_registered m = true.
Proof.
  intros Hv. eexists. split.
  - unfold metrics_new, register_counter, register_counter_vec, register_gauge.
    repeat (rewrite (bind_register _ _ _ Hv) by (vm_compute; reflexivity); cbv beta iota).
    reflexivity.
  - vm_compute. reflexivity.
Qed.

(** The start cannot fail for the metrics, and nothing is counted in vain or together: when
    families of the documented form can be made, all thirty are registered, each under a
    name of its own; every counter of a request has its family, with its label, and two
    counters that differ by more than their label, or one and a counter of the reloads or
    the disk log, never share one. *)
Theorem metrics_registered :
  (∀ d, documented d = true → desc_valid d = true) →
  ∃ m, metrics_new = Ok m
    ∧ size (registry m) = 30%nat
    ∧ (∀ x, d_kind <$> registry m !! family m x = Some (family_kind x))
    ∧ (∀ x y, family m x = family m y → place x = place y)
    ∧ NoDup (other_families m)
    ∧ ∀ f, f ∈ other_families m → is_Some (registry m !! f) ∧ ∀ x, family m x ≠ f.
Proof.
  intros (m & Hm & Hw)%metrics_new_ok. exists m. split; [done|].
  unfold well_registered in Hw. bools. clear Hm.
  match goal with H' : NoDup _ |- _ => apply list.NoDup_app in H'; destruct H' as (Hn & Hd & Ho) end.
  match goal with Hk : _ <$> request_families m = _ |- _ => rename Hk into Hkinds end.
  match goal with Hf : forallb _ _ = true |- _ => rewrite forallb_elem_of in Hf; rename Hf into Hsome end.
  split_and!; try done.
  - intros x. apply (f_equal (λ l, l !! place x)) in Hkinds.
    rewrite !list_lookup_fmap, family_place, kind_place in Hkinds. by injection Hkinds.
  - intros x y He. eapply NoDup_lookup; [exact Hn|apply family_place|]. rewrite He. apply family_place.
  - intros f Hf. specialize (Hsome f Hf). bools. split; [done|]. intros x <-.
    eapply Hd; [|exact Hf]. eapply list_elem_of_lookup_2, family_place.
Qed.

(** The responses are counted under eight labels at most. *)
Lemma rcode_labels_bounded (c : ResponseCode) :
  rcode_metric_label c ∈ ["NOERROR"%rs; "FORMERR"%rs; "SERVFAIL"%rs; "NXDOMAIN"%rs; "NOTIMP"%rs;
                          "REFUSED"%rs; "BADVERS"%rs; "other"%rs].
Proof. destruct c; cbn [rcode_metric_label]; set_solver. Qed.
End metrics.

(** A registry that makes just the families of the documented form. *)
Definition documented_families : Prometheus := {| desc_valid := documented |}.

Lemma metrics_registered_witness :
  ∃ m, @metrics_new documented_families = Ok m ∧ size (registry m) = 30%nat.
Proof.
  destruct (@metrics_registered documented_families (λ d Hd, Hd)) as (m & Hm & Hs & _).
  exists m. split; [exact Hm|exact Hs].
Defined.
