(* ===== verification/Daemon.v ===== *)
(** * Daemon: start-up, reloads and the signal loop
    ([rustydnsd/src/main.rs])

    The daemon is a state that requests, timers and SIGHUP drive.  What a signal finds (the
    clocks, the lists, the bundle, the configuration file) is in the event; the handler's
    shared cells are its fields, so that a reload shows in the handler.  The text of TOML is
    read and written by parameters, its values by [Toml]; log lines are left out, but for the
    fields reported as needing a restart. *)

From S2P Require Import Prelude RustStr Net Config Record Hickory Answers Odoh Resolver Handler.
From Stdlib Require Import Sorting.Sorted.
From S2P Require Import Listeners Loader.
From S2P Require Schedule RegexRules Authority Mesh Engine Rewrite RateLimiter QueryLog DiskLog.
From S2P Require Import Toml.
From S2P Require IpDenylist Validate Redaction Metrics.

#[export] Instance StaticRecord_eq_dec : EqDecision StaticRecord.
Proof. solve_decision. Defined.
#[export] Instance BlocklistGroup_eq_dec : EqDecision BlocklistGroup.
Proof. solve_decision. Defined.

(** ** The command line *)

Record CliArgs := { config_path : str; validate_only : bool; print_config : bool }.

Inductive cli :=
| RunWith (args : CliArgs)
| ShowHelp
| ShowVersion
| MissingPath
| UnknownArgument (arg : str).

Fixpoint parse_args_loop (argv : list str) (a : CliArgs) : cli :=
  match argv with
  | [] => RunWith a
  | arg :: argv =>
      if str_eqb arg "--config"%rs then
        match argv with
        | p :: argv => parse_args_loop argv {| config_path := p; validate_only := validate_only a;
                                               print_config := print_config a |}
        | [] => MissingPath
        end
      else if str_eqb arg "--validate-config"%rs then
        parse_args_loop argv {| config_path := config_path a; validate_only := true;
                                print_config := print_config a |}
      else if str_eqb arg "--print-config"%rs then
        parse_args_loop argv {| config_path := config_path a; validate_only := validate_only a;
                                print_config := true |}
      else if str_eqb arg "-h"%rs || str_eqb arg "--help"%rs then ShowHelp
      else if str_eqb arg "-V"%rs || str_eqb arg "--version"%rs then ShowVersion
      else UnknownArgument arg
  end.

(** The arguments after the program's name. *)
Definition parse_args (argv : list str) : cli :=
  parse_args_loop argv {| config_path := "rustydns.toml"%rs; validate_only := false;
                          print_config := false |}.

(** ** Small helpers *)

(** The mode of the configuration file: others must not read it. *)
Definition check_config_permissions (mode : Z) : bool := Z.land mode 4 =? 0.

Definition hickory_clamp_overridden (targets : list str) (crate_name : str) : bool :=
  existsb (λ t, str_eqb t crate_name) targets.

Definition QNAME_BEARING_CRATES : list str :=
  ["hickory_server"%rs; "hickory_proto"%rs; "hickory_resolver"%rs; "hickory_net"%rs].

Definition hickory_clamp_directives (targets : list str) : list str :=
  (λ c, c ++ "=warn"%rs) <$>
    List.filter (λ c, negb (hickory_clamp_overridden targets c)) QNAME_BEARING_CRATES.

(** The targets of a [RUST_LOG] value. *)
Definition log_targets (user_filter : str) : list str :=
  (λ d, trim (default [] (head (split "="%rc d)))) <$>
    List.filter (λ s, negb (is_empty_str (trim s))) (split ","%rc user_filter).

Definition mesh_polling_enabled (poll_interval_secs : Z) : bool := 0 <? poll_interval_secs.

Definition NANOS : Z := 1000000000.
Definition MIN_SIGHUP_FETCH_SPACING : Z := 60 * NANOS.

Definition fetch_spacing_ok (last_elapsed : option Z) (min : Z) : bool :=
  match last_elapsed with None => true | Some d => min <=? d end.

(** Seconds to wait for the drain. *)
Definition shutdown_timeout_from (raw : option str) : Z :=
  match raw ≫= parse_uint 64 with
  | Some v => if (1 <=? v) && (v <=? 60) then v else 10
  | None => 10
  end.

Definition combined_rewrite_rules (config : DnsConfig) : list RewriteRule :=
  safesearch_rewrite_rules (cfg_safesearch config) ++ cfg_rewrite config.

(** [if old != new { changed.push(field) }] *)
Definition changed {A} `{EqDecision A} (field : str) (old new : A) : list str :=
  if bool_decide (old = new) then [] else [field].

Definition restart_required_changes (old new : DnsConfig) : list str :=
  let b := cfg_blocklist old in let b' := cfg_blocklist new in
  let a := cfg_authority old in let a' := cfg_authority new in
  let p := cfg_privacy old in let p' := cfg_privacy new in
  changed "blocklist.sources"%rs (blocklist_sources b) (blocklist_sources b')
  ++ changed "blocklist.local_files"%rs (blocklist_local_files b) (blocklist_local_files b')
  ++ changed "blocklist.block_response"%rs (blocklist_block_response b) (blocklist_block_response b')
  ++ changed "blocklist.sinkhole_ip"%rs (blocklist_sinkhole_ip b) (blocklist_sinkhole_ip b')
  ++ changed "blocklist.allowlist"%rs (blocklist_allowlist b) (blocklist_allowlist b')
  ++ changed "blocklist.block_cname_cloaking"%rs (blocklist_block_cname_cloaking b)
       (blocklist_block_cname_cloaking b')
  ++ changed "blocklist.response_ip_denylist"%rs (blocklist_response_ip_denylist b)
       (blocklist_response_ip_denylist b')
  ++ changed "blocklist.regex_rules"%rs (blocklist_regex_rules b) (blocklist_regex_rules b')
  ++ changed "blocklist.groups"%rs (blocklist_groups b) (blocklist_groups b')
  ++ changed "authority.static_records"%rs (authority_static_records a) (authority_static_records a')
  ++ changed "authority.mesh_zone"%rs (authority_mesh_zone a) (authority_mesh_zone a')
  ++ changed "authority.zones"%rs (authority_zones a) (authority_zones a')
  ++ changed "authority.mesh_zone_max_age_secs"%rs (authority_mesh_zone_max_age_secs a)
       (authority_mesh_zone_max_age_secs a')
  ++ changed "authority.poll_interval_secs"%rs (authority_poll_interval_secs a)
       (authority_poll_interval_secs a')
  ++ changed "privacy.query_log_to_disk/path"%rs
       (privacy_query_log_to_disk p, privacy_query_log_disk_path p)
       (privacy_query_log_to_disk p', privacy_query_log_disk_path p').

(** The counters and gauges of the reloads. *)
Record ReloadMetrics := {
  blocklist_reload_success_total : Z;
  blocklist_reload_failure_total : Z;
  blocklist_reload_skipped_total : Z;
  blocklist_entries : Z;
  blocklist_heap_bytes : Z;
  blocklist_last_reload : Z;
  mesh_records : Z;
  mesh_zone_reload_success_total : Z;
  mesh_zone_reload_failure_total : Z;
  mesh_zone_last_reload : Z;
}.

Definition reload_metrics_new : ReloadMetrics :=
  {| blocklist_reload_success_total := 0; blocklist_reload_failure_total := 0;
     blocklist_reload_skipped_total := 0; blocklist_entries := 0; blocklist_heap_bytes := 0;
     blocklist_last_reload := 0; mesh_records := 0; mesh_zone_reload_success_total := 0;
     mesh_zone_reload_failure_total := 0; mesh_zone_last_reload := 0 |}.

Definition mark_blocklist_reload (loaded : bool) (entries heap_bytes now : Z) (m : ReloadMetrics) :
    ReloadMetrics :=
  {| blocklist_reload_success_total := blocklist_reload_success_total m + (if loaded then 1 else 0);
     blocklist_reload_failure_total := blocklist_reload_failure_total m + (if loaded then 0 else 1);
     blocklist_reload_skipped_total := blocklist_reload_skipped_total m;
     blocklist_entries := entries; blocklist_heap_bytes := heap_bytes; blocklist_last_reload := now;
     mesh_records := mesh_records m;
     mesh_zone_reload_success_total := mesh_zone_reload_success_total m;
     mesh_zone_reload_failure_total := mesh_zone_reload_failure_total m;
     mesh_zone_last_reload := mesh_zone_last_reload m |}.

Definition mark_blocklist_reload_skipped (m : ReloadMetrics) : ReloadMetrics :=
  {| blocklist_reload_success_total := blocklist_reload_success_total m;
     blocklist_reload_failure_total := blocklist_reload_failure_total m;
     blocklist_reload_skipped_total := blocklist_reload_skipped_total m + 1;
     blocklist_entries := blocklist_entries m; blocklist_heap_bytes := blocklist_heap_bytes m;
     blocklist_last_reload := blocklist_last_reload m; mesh_records := mesh_records m;
     mesh_zone_reload_success_total := mesh_zone_reload_success_total m;
     mesh_zone_reload_failure_total := mesh_zone_reload_failure_total m;
     mesh_zone_last_reload := mesh_zone_last_reload m |}.

(** The number of mesh records, or a failure. *)
Definition mark_mesh_zone_reload (records : option Z) (now : Z) (m : ReloadMetrics) : ReloadMetrics :=
  {| blocklist_reload_success_total := blocklist_reload_success_total m;
     blocklist_reload_failure_total := blocklist_reload_failure_total m;
     blocklist_reload_skipped_total := blocklist_reload_skipped_total m;
     blocklist_entries := blocklist_entries m; blocklist_heap_bytes := blocklist_heap_bytes m;
     blocklist_last_reload := blocklist_last_reload m;
     mesh_records := default (mesh_records m) records;
     mesh_zone_reload_success_total :=
       mesh_zone_reload_success_total m + (if records is Some _ then 1 else 0);
     mesh_zone_reload_failure_total :=
       mesh_zone_reload_failure_total m + (if records is Some _ then 0 else 1);
     mesh_zone_last_reload := now |}.

Section daemon.
Context `{Hickory} `{!Server} `{!Upstream} `{!OdohLib} `{Unicode} `{RegexRules.RegexCrate}.
Context `{Mesh.Ed25519} `{Os} `{Metrics.Prometheus}.
(** The [toml] crate: the values of a text, and a text of a value. *)
Context (parse_toml : str → option value) (render_toml : value → str).
Context (net : list action → action → reply) (rand : list action → draw → Z).
Context (validate : (bytes → OdohState → result OdohError bytes * OdohState) →
  HName → RecordType → OdohState → option (list RR * ResponseCode) * OdohState).
Context (hash_qname : str → Z).

(** The file's text, if it can be read. *)
Definition load_config (raw : option str) : option DnsConfig :=
  raw ← raw;
  v ← parse_toml raw;
  config ← dec codec_DnsConfig v;
  match Validate.validate_config config with
  | Ok _ => Some config
  | Err _ => None
  end.

Record Daemon := {
  dm_handler : DnsHandler;
  dm_loader : BlocklistLoader;
  dm_active : ActiveListeners;
  dm_world : World;
  dm_startup : DnsConfig;
  dm_last_fetch : option Z;
  dm_reloads : ReloadMetrics;
  dm_restart_required : list str;
}.

Definition set_handler (h : DnsHandler) (d : Daemon) : Daemon :=
  {| dm_handler := h; dm_loader := dm_loader d; dm_active := dm_active d; dm_world := dm_world d;
     dm_startup := dm_startup d; dm_last_fetch := dm_last_fetch d; dm_reloads := dm_reloads d;
     dm_restart_required := dm_restart_required d |}.
Definition set_loader (l : BlocklistLoader) (d : Daemon) : Daemon :=
  {| dm_handler := dm_handler d; dm_loader := l; dm_active := dm_active d; dm_world := dm_world d;
     dm_startup := dm_startup d; dm_last_fetch := dm_last_fetch d; dm_reloads := dm_reloads d;
     dm_restart_required := dm_restart_required d |}.
Definition set_listeners (a : ActiveListeners) (w : World) (d : Daemon) : Daemon :=
  {| dm_handler := dm_handler d; dm_loader := dm_loader d; dm_active := a; dm_world := w;
     dm_startup := dm_startup d; dm_last_fetch := dm_last_fetch d; dm_reloads := dm_reloads d;
     dm_restart_required := dm_restart_required d |}.
Definition set_last_fetch (now : Z) (d : Daemon) : Daemon :=
  {| dm_handler := dm_handler d; dm_loader := dm_loader d; dm_active := dm_active d;
     dm_world := dm_world d; dm_startup := dm_startup d; dm_last_fetch := Some now;
     dm_reloads := dm_reloads d; dm_restart_required := dm_restart_required d |}.
Definition set_reloads (m : ReloadMetrics) (d : Daemon) : Daemon :=
  {| dm_handler := dm_handler d; dm_loader := dm_loader d; dm_active := dm_active d;
     dm_world := dm_world d; dm_startup := dm_startup d; dm_last_fetch := dm_last_fetch d;
     dm_reloads := m; dm_restart_required := dm_restart_required d |}.
Definition set_restart_required (fields : list str) (d : Daemon) : Daemon :=
  {| dm_handler := dm_handler d; dm_loader := dm_loader d; dm_active := dm_active d;
     dm_world := dm_world d; dm_startup := dm_startup d; dm_last_fetch := dm_last_fetch d;
     dm_reloads := dm_reloads d; dm_restart_required := fields |}.

Definition set_blocklist (e : Engine.BlocklistEngine) (h : DnsHandler) : DnsHandler :=
  {| h_authority := h_authority h; h_blocklist := e; h_resolver := h_resolver h;
     h_rewrites := h_rewrites h; h_policy_by_ip := h_policy_by_ip h;
     h_sinkhole_ip := h_sinkhole_ip h; h_rate_limiter := h_rate_limiter h;
     h_metrics := h_metrics h; h_query_log := h_query_log h; h_audit := h_audit h;
     h_odoh := h_odoh h |}.
Definition set_authority (a : Authority.Authority) (h : DnsHandler) : DnsHandler :=
  {| h_authority := a; h_blocklist := h_blocklist h; h_resolver := h_resolver h;
     h_rewrites := h_rewrites h; h_policy_by_ip := h_policy_by_ip h;
     h_sinkhole_ip := h_sinkhole_ip h; h_rate_limiter := h_rate_limiter h;
     h_metrics := h_metrics h; h_query_log := h_query_log h; h_audit := h_audit h;
     h_odoh := h_odoh h |}.

(** ** Reloads *)

(** A round of the blocklist loader, from the timer or from SIGHUP. *)
Definition reload_blocklists (env : nat → Env) (unix : Z) (d : Daemon) : Daemon :=
  let '(summary, l, e) := reload env unix (dm_loader d) (h_blocklist (dm_handler d)) in
  let m := mark_blocklist_reload (negb (loaded_sources summary =? 0))
             (Engine.entry_count (Engine.state e)) (Engine.heap_bytes (Engine.state e)) unix
             (dm_reloads d) in
  set_reloads m (set_loader l (set_handler (set_blocklist e (dm_handler d)) d)).

Definition reload_mesh_zone (fs : Mesh.files) (unix : Z) (d : Daemon) : Daemon :=
  let '(r, a) := Authority.reload_mesh fs (h_authority (dm_handler d)) unix in
  let m := match r with
           | Ok (Some n) => mark_mesh_zone_reload (Some (Z.of_nat n)) unix (dm_reloads d)
           | Ok None => dm_reloads d
           | Err _ => mark_mesh_zone_reload None unix (dm_reloads d)
           end in
  set_reloads m (set_handler (set_authority a (dm_handler d)) d).

Definition apply_hot_swaps (now : Z) (new_config : DnsConfig) (h : DnsHandler) : DnsHandler :=
  let h := match resolver_new new_config with
           | Ok resolver => swap_resolver resolver h
           | Err _ => h
           end in
  let h := swap_rate_limiter (RateLimiter.limiter_new (cfg_rate_limit new_config) now) h in
  let h := swap_policies (cfg_policy new_config) h in
  swap_rewrites (combined_rewrite_rules new_config) h.

(** What a SIGHUP finds. *)
Record SighupEnv := {
  sg_instant : Z;
  sg_unix : Z;
  sg_lists : nat → Env;
  sg_bundle : Mesh.files;
  sg_config : option str;
}.

(** [now.duration_since(t)], which saturates. *)
Definition elapsed (now t : Z) : Z := Z.max 0 (now - t).

Definition handle_sighup (s : SighupEnv) (d : Daemon) : Daemon :=
  let now := sg_instant s in
  let d := if fetch_spacing_ok (elapsed now <$> dm_last_fetch d) MIN_SIGHUP_FETCH_SPACING
           then reload_blocklists (sg_lists s) (sg_unix s) (set_last_fetch now d)
           else set_reloads (mark_blocklist_reload_skipped (dm_reloads d)) d in
  let d := reload_mesh_zone (sg_bundle s) (sg_unix s) d in
  match load_config (sg_config s) with
  | None => d
  | Some new_config =>
      let d := set_handler (apply_hot_swaps now new_config (dm_handler d)) d in
      let '(a, w) := reload_listeners new_config (dm_active d) (dm_world d) in
      let d := set_listeners a w d in
      set_restart_required (restart_required_changes (dm_startup d) new_config) d
  end.

(** ** The running daemon *)

Inductive event :=
| Sighup (s : SighupEnv)
| BlocklistTimer (env : nat → Env) (unix : Z)
| MeshTimer (fs : Mesh.files) (unix : Z)
| Query (now : Now) (request : Request).

(** The loops over the timers, which are only spawned with a positive interval, that of the
    mesh with a bundle. *)
Definition blocklist_reload_loop (env : nat → Env) (unix : Z) (d : Daemon) : Daemon :=
  if blocklist_reload_interval_secs (cfg_blocklist (dm_startup d)) =? 0 then d
  else reload_blocklists env unix d.

Definition mesh_reload_loop (fs : Mesh.files) (unix : Z) (d : Daemon) : Daemon :=
  if mesh_polling_enabled (authority_poll_interval_secs (cfg_authority (dm_startup d)))
     && bool_decide (is_Some (authority_mesh_zone_bundle_path (cfg_authority (dm_startup d))))
  then reload_mesh_zone fs unix d else d.

Definition step (d : Daemon) (ev : event) : Daemon :=
  match ev with
  | Sighup s => handle_sighup s d
  | BlocklistTimer env unix => blocklist_reload_loop env unix d
  | MeshTimer fs unix => mesh_reload_loop fs unix d
  | Query now request =>
      set_handler (handle_request net rand validate hash_qname now request (dm_handler d)).2 d
  end.

Definition run_daemon (events : list event) (d : Daemon) : Daemon := foldl step d events.

(** ** Start-up *)

Inductive start_error :=
| PermissionsTooOpen
| ConfigRejected
| MetricsFailed (e : Metrics.metrics_error)
| AuthorityFailed (e : Authority.zone_error)
| ResolverFailed (e : resolver_error)
| HandlerFailed (e : resolver_error)
| ListenersFailed (e : listen_error).

(** What start-up finds; the disk of the query log with its operations that fail. *)
Record StartEnv := {
  st_instant : Z;
  st_unix : Z;
  st_lists : nat → Env;
  st_bundle : Mesh.files;
  st_fds : list passed_fd;
  st_odoh : OdohState;
  st_disk : DiskLog.Disk;
  st_disk_fails : nat → bool;
}.

Definition start_query_log (c : PrivacyConfig) (s : StartEnv) : QueryLog.QueryLog :=
  let ring := Z.to_nat (privacy_query_log_ring_size c) in
  if privacy_query_log_to_disk c then
    match (DiskLog.spawn (st_disk_fails s) (default [] (privacy_query_log_disk_path c))
             (privacy_query_log_max_file_bytes c) (Z.to_nat (privacy_query_log_max_files c))
             (st_disk s)).1 with
    | Some _ =>
        QueryLog.with_disk_sink ring
          {| QueryLog.chan_capacity := DiskLog.CHANNEL_CAPACITY; QueryLog.chan_queue := [];
             QueryLog.chan_open := true |} 0
    | None => QueryLog.log_new ring
    end
  else QueryLog.log_new ring.

(** [main], from a configuration that was loaded to the signal loop. *)
Definition start_daemon (config : DnsConfig) (s : StartEnv) : result start_error Daemon :=
  _ ← map_err MetricsFailed Metrics.metrics_new;
  authority ← map_err AuthorityFailed
                (Authority.new (st_bundle s) (cfg_authority config) (st_unix s));
  let initial := Authority.mesh_record_count authority in
  let m := if (0 <? initial)%nat
           then mark_mesh_zone_reload (Some (Z.of_nat initial)) (st_unix s) reload_metrics_new
           else reload_metrics_new in
  let '(summary, loader, engine) :=
    reload (st_lists s) (st_unix s) (loader_new (cfg_blocklist config))
      (Engine.new (cfg_blocklist config) (st_unix s)) in
  let m := mark_blocklist_reload (negb (loaded_sources summary =? 0))
             (Engine.entry_count (Engine.state engine)) (Engine.heap_bytes (Engine.state engine))
             (st_unix s) m in
  resolver ← map_err ResolverFailed (resolver_new config);
  h ← map_err HandlerFailed
        (handler_new authority engine resolver (λ _, 0) (start_query_log (cfg_privacy config) s)
           (RateLimiter.limiter_new (cfg_rate_limit config) (st_instant s))
           (cfg_policy config) (combined_rewrite_rules config) (st_odoh s));
  match start_listeners config (st_fds s) no_world with
  | (Err e, _) => Err (ListenersFailed e)
  | (Ok active, w) =>
      Ok {| dm_handler := h; dm_loader := loader; dm_active := active; dm_world := w;
            dm_startup := config; dm_last_fetch := None; dm_reloads := m;
            dm_restart_required := [] |}
  end.

(** How [main] ends, or what it runs. *)
Inductive outcome :=
| Printed (text : str)
| Validated
| Running (d : Daemon).

Definition main (args : CliArgs) (mode : Z) (raw : option str) (s : StartEnv) :
    result start_error outcome :=
  _ ← reject_if (negb (check_config_permissions mode)) PermissionsTooOpen;
  config ← ok_or ConfigRejected (load_config raw);
  if print_config args then Ok (Printed (render_toml (enc codec_DnsConfig (redacted_for_display config))))
  else if validate_only args then
    _ ← map_err AuthorityFailed (Authority.new (st_bundle s) (cfg_authority config) (st_unix s));
    Ok Validated
  else Running <$> start_daemon config s.

(** ** What a request leaves alone *)

(** The set-up of the handler, and the bound on its buckets. *)
Definition limiter_bounded (l : RateLimiter.RateLimiter) : Prop :=
  RateLimiter.tracked l <= Z.max 1 (RateLimiter.max_tracked l).
Definition limiter_params (l : RateLimiter.RateLimiter) : RateLimiter.f64 * RateLimiter.f64 * Z :=
  (RateLimiter.qps l, RateLimiter.burst l, RateLimiter.max_tracked l).

Record same_service (h h' : DnsHandler) : Prop := {
  ss_authority : h_authority h' = h_authority h;
  ss_blocklist : h_blocklist h' = h_blocklist h;
  ss_resolver : h_resolver h' = h_resolver h;
  ss_rewrites : h_rewrites h' = h_rewrites h;
  ss_policies : h_policy_by_ip h' = h_policy_by_ip h;
  ss_sinkhole : h_sinkhole_ip h' = h_sinkhole_ip h;
  ss_bounded : limiter_bounded (h_rate_limiter h) → limiter_bounded (h_rate_limiter h');
  ss_params : limiter_params (h_rate_limiter h') = limiter_params (h_rate_limiter h);
}.

#[local] Instance same_service_preorder : PreOrder same_service.
Proof.
  split; [by intros h; constructor|]. intros h1 h2 h3 [] []. constructor; try congruence. auto.
Qed.

Lemma check_params l ip now : limiter_params (RateLimiter.check l ip now).2 = limiter_params l.
Proof.
  unfold RateLimiter.check. destruct (is_loopback _); [done|]. destruct (RateLimiter.rl_state l); [|done].
  by destruct (RateLimiter.take_token _).
Qed.

Definition serves_same (s : stage) : Prop := ∀ h, same_service h (s h).2.

Lemma or_else_same s1 s2 : serves_same s1 → serves_same s2 → serves_same (or_else s1 s2).
Proof.
  intros Hs1 Hs2 h. unfold or_else. specialize (Hs1 h). destruct (s1 h) as [[reply|] h1]; [done|].
  etrans; [exact Hs1|apply Hs2].
Qed.

Ltac same_tac := intros h; repeat (case_match; simplify_eq; try (by constructor)); by constructor.

Lemma gate_rate_limit_same now ctx : serves_same (gate_rate_limit now ctx).
Proof.
  intros h. unfold gate_rate_limit.
  pose proof (RateLimiter.check_bounded (h_rate_limiter h) (src_ip ctx) (now_instant now)) as Hb.
  pose proof (check_params (h_rate_limiter h) (src_ip ctx) (now_instant now)) as Hp.
  destruct (RateLimiter.check _ _ _) as [decision l]. cbn [snd] in *.
  destruct decision; constructor; try done; cbn; unfold limiter_bounded; intros Hl;
    by destruct (Hb Hl) as [? ->].
Qed.

Lemma gates_same now request ctx : serves_same (gates now request ctx).
Proof.
  unfold gates. repeat apply or_else_same; [apply gate_rate_limit_same| | | |];
    [unfold gate_opcode|unfold gate_edns_version|unfold gate_any_qtype|unfold gate_class]; same_tac.
Qed.

Lemma pipeline_same ctx : serves_same (pipeline ctx).
Proof.
  unfold pipeline. repeat apply or_else_same;
    [unfold gate_schedule|unfold gate_zones|unfold gate_authority|unfold gate_rewrite
    |unfold gate_blocklist]; same_tac.
Qed.

Lemma stage_resolve_same ctx h : same_service h (stage_resolve net rand validate ctx h).2.
Proof.
  unfold stage_resolve. destruct (resolve _ _ _ _ _ _ _) as [[out|e] st]; [|by constructor].
  destruct (_ && _); [by constructor|]. destruct (_ && _); by constructor.
Qed.

Lemma handle_request_same now request h :
  same_service h (handle_request net rand validate hash_qname now request h).2.
Proof.
  pose proof (handle_request_reply net rand validate hash_qname now request h) as Hr.
  destruct (request_reply net rand validate now request h) as [reply h1] eqn:E. rewrite Hr.
  enough (same_service h h1) as [] by by constructor.
  revert E. unfold request_reply. destruct (req_query request) as [q|]; [|by intros [= _ <-]].
  set (ctx := query_ctx h now request q). set (h0 := inc _ _). unfold decide_reply.
  assert (same_service h h0) as Hinc by by constructor.
  pose proof (gates_same now request ctx h0) as Hg.
  destruct (gates now request ctx h0) as [[reply'|] h2]; cbn [snd] in Hg.
  { intros [= _ <-]. by etrans. }
  pose proof (pipeline_same ctx h2) as Hp.
  destruct (pipeline ctx h2) as [[reply'|] h3]; cbn [snd] in Hp.
  { intros [= _ <-]. etrans; [exact Hinc|]. by etrans. }
  pose proof (stage_resolve_same ctx h3) as Hs. intros E. rewrite E in Hs. cbn [snd] in Hs.
  etrans; [exact Hinc|]. etrans; [exact Hg|]. by etrans.
Qed.

(** ** The daemon as the product of its parts *)

(** What the events bring to each part: the configurations that the signals loaded, ... *)
Definition loaded (events : list event) : list DnsConfig :=
  omap (λ ev, match ev with Sighup s => load_config (sg_config s) | _ => None end) events.

(** ... of which the last valid one is in force, ... *)
Definition in_force (cfg : DnsConfig) (cs : list DnsConfig) : DnsConfig := default cfg (list.last cs).

(** ... the bundles read, ... *)
Definition bundle_of (cfg : DnsConfig) (ev : event) : option (Mesh.files * Z) :=
  match ev with
  | Sighup s => Some (sg_bundle s, sg_unix s)
  | MeshTimer fs unix =>
      if mesh_polling_enabled (authority_poll_interval_secs (cfg_authority cfg))
         && bool_decide (is_Some (authority_mesh_zone_bundle_path (cfg_authority cfg)))
      then Some (fs, unix) else None
  | _ => None
  end.

(** ... and the rounds of the blocklist loader, with the time of the last one of a signal. *)
Abbreviation rounds := (list ((nat → Env) * Z)).

Definition round_step (cfg : DnsConfig) (acc : option Z * rounds) (ev : event) : option Z * rounds :=
  match ev with
  | Sighup s =>
      if fetch_spacing_ok (elapsed (sg_instant s) <$> acc.1) MIN_SIGHUP_FETCH_SPACING
      then (Some (sg_instant s), acc.2 ++ [(sg_lists s, sg_unix s)]) else acc
  | BlocklistTimer env unix =>
      if blocklist_reload_interval_secs (cfg_blocklist cfg) =? 0 then acc
      else (acc.1, acc.2 ++ [(env, unix)])
  | _ => acc
  end.
Definition list_rounds (cfg : DnsConfig) (s : StartEnv) (events : list event) : option Z * rounds :=
  foldl (round_step cfg) (None, [(st_lists s, st_unix s)]) events.

(** The address blocked names are answered with, if they are. *)
Definition sinkhole_of (b : BlocklistConfig) : option ip_addr :=
  match blocklist_block_response b with
  | Config.Sinkhole => parse_ip (blocklist_sinkhole_ip b)
  | _ => None
  end.

(** A daemon started with [cfg] whose parts have seen this. *)
Record daemon_inv (cfg : DnsConfig) (s : StartEnv) (lists : option Z * rounds)
    (bundles : list (Mesh.files * Z)) (cs : list DnsConfig) (d : Daemon) : Prop := {
  di_fetch : dm_last_fetch d = lists.1;
  di_lists : (dm_loader d, h_blocklist (dm_handler d)) =
               run_rounds (cfg_blocklist cfg) (st_unix s) lists.2;
  di_mesh : ∃ a0, Authority.new (st_bundle s) (cfg_authority cfg) (st_unix s) = Ok a0
      ∧ h_authority (dm_handler d) = Authority.run_reloads a0 bundles;
  di_listeners : ∃ a0 w0, start_listeners cfg (st_fds s) no_world = (Ok a0, w0)
      ∧ (dm_active d, dm_world d) = run_reloads cs a0 w0;
  di_policies : h_policy_by_ip (dm_handler d) = build_policy_map (cfg_policy (in_force cfg cs));
  di_rewrites : h_rewrites (dm_handler d) =
      Rewrite.from_rules (combined_rewrite_rules (in_force cfg cs));
  di_limiter : limiter_bounded (h_rate_limiter (dm_handler d))
      ∧ ∃ t, limiter_params (h_rate_limiter (dm_handler d)) =
             limiter_params (RateLimiter.limiter_new (cfg_rate_limit (in_force cfg cs)) t);
  di_resolver : (∃ c, c ∈ cfg :: cs ∧ resolver_new c = Ok (h_resolver (dm_handler d)))
      ∧ ∀ r, resolver_new (in_force cfg cs) = Ok r → h_resolver (dm_handler d) = r;
  di_sinkhole : h_sinkhole_ip (dm_handler d) = sinkhole_of (cfg_blocklist cfg);
  di_startup : dm_startup d = cfg;
}.

Lemma run_rounds_snoc c t rs env now :
  run_rounds c t (rs ++ [(env, now)]) =
  let '(_, l, e) := reload env now (run_rounds c t rs).1 (run_rounds c t rs).2 in (l, e).
Proof. unfold run_rounds. by rewrite foldl_app. Qed.

Lemma reload_blocklists_inv cfg s last rs bs cs env unix d :
  daemon_inv cfg s (last, rs) bs cs d →
  daemon_inv cfg s (last, rs ++ [(env, unix)]) bs cs (reload_blocklists env unix d).
Proof.
  intros [? Hl ? ? ? ? ? ? ? ?]. unfold reload_blocklists.
  destruct (reload env unix _ _) as [[summary l] e] eqn:E. constructor; try done.
  cbn [snd set_reloads set_loader set_handler set_blocklist dm_loader dm_handler h_blocklist] in *.
  rewrite run_rounds_snoc, <- Hl. cbn [fst snd]. by rewrite E.
Qed.

Lemma reload_mesh_inv cfg s lists bs cs fs unix d :
  daemon_inv cfg s lists bs cs d →
  daemon_inv cfg s lists (bs ++ [(fs, unix)]) cs (reload_mesh_zone fs unix d).
Proof.
  intros [? ? (a0 & Ha & Hr) ? ? ? ? ? ? ?]. unfold reload_mesh_zone.
  destruct (Authority.reload_mesh fs _ unix) as [r a] eqn:E. constructor; try done. cbn.
  exists a0. split; [done|]. unfold Authority.run_reloads in *.
  rewrite foldl_app, <- Hr. cbn. by rewrite E.
Qed.

Lemma set_last_fetch_inv cfg s last rs bs cs t d :
  daemon_inv cfg s (last, rs) bs cs d → daemon_inv cfg s (Some t, rs) bs cs (set_last_fetch t d).
Proof. intros []. by constructor. Qed.
Lemma set_reloads_inv cfg s lists bs cs m d :
  daemon_inv cfg s lists bs cs d → daemon_inv cfg s lists bs cs (set_reloads m d).
Proof. intros []. by constructor. Qed.

Lemma query_inv cfg s lists bs cs now request d :
  daemon_inv cfg s lists bs cs d → daemon_inv cfg s lists bs cs (step d (Query now request)).
Proof.
  intros [Hf Hl Hm Ha Hp Hr [Hb Ht] Hres Hsi Hs].
  destruct (handle_request_same now request (dm_handler d)) as [E1 E2 E3 E4 E5 E6 E7 E8].
  constructor; cbn [step set_handler dm_handler dm_loader dm_active dm_world dm_startup dm_last_fetch];
    rewrite ?E1, ?E2, ?E3, ?E4, ?E5, ?E6, ?E8; try done. split; [by apply E7|done].
Qed.

Lemma limiter_new_bounded c t : limiter_bounded (RateLimiter.limiter_new c t).
Proof.
  unfold limiter_bounded, RateLimiter.tracked, RateLimiter.limiter_new. cbn.
  destruct (rate_limit_enabled c); cbn; rewrite ?map_size_empty; lia.
Qed.

Lemma in_force_snoc cfg cs c : in_force cfg (cs ++ [c]) = c.
Proof. unfold in_force. by rewrite last_snoc. Qed.

(** The last part of a SIGHUP: a configuration that was loaded takes effect. *)
Lemma apply_config_inv cfg s lists bs cs now c d a w :
  daemon_inv cfg s lists bs cs d → reload_listeners c (dm_active d) (dm_world d) = (a, w) →
  daemon_inv cfg s lists bs (cs ++ [c])
    (set_listeners a w (set_handler (apply_hot_swaps now c (dm_handler d)) d)).
Proof.
  intros [Hf Hl (a1 & Hn & Hm) (a0 & w0 & Hs & Ha) _ _ _ [(c' & Hc' & Hr') _] Hsi Hst] Ew.
  constructor; cbn; rewrite ?in_force_snoc; try done.
  - rewrite <- Hl. by destruct (resolver_new c).
  - exists a1. split; [done|]. rewrite <- Hm. by destruct (resolver_new c).
  - exists a0, w0. split; [done|]. unfold run_reloads in *. rewrite foldl_app, <- Ha. cbn. by rewrite Ew.
  - split; [apply limiter_new_bounded|by eexists].
  - split; [|intros r Hr; by rewrite Hr].
    destruct (resolver_new c) as [r|e] eqn:Er; cbn; [exists c|exists c']; (split; [set_solver|done]).
  - rewrite <- Hsi. by destruct (resolver_new c).
Qed.

(** A SIGHUP reloads the lists, or not, and the mesh; then it loads a configuration, or not. *)
Lemma sighup_inv cfg s lists bs cs sg d :
  daemon_inv cfg s lists bs cs d →
  daemon_inv cfg s (round_step cfg lists (Sighup sg)) (bs ++ [(sg_bundle sg, sg_unix sg)])
    (cs ++ option_list (load_config (sg_config sg))) (handle_sighup sg d).
Proof.
  intros Hd. unfold handle_sighup. set (d1 := if fetch_spacing_ok _ _ then _ else _).
  assert (daemon_inv cfg s (round_step cfg lists (Sighup sg)) bs cs d1) as Hd1.
  { subst d1. destruct lists as [last rs]. rewrite (di_fetch _ _ _ _ _ _ Hd). cbn [round_step fst snd].
    destruct (fetch_spacing_ok _ _); [|by apply set_reloads_inv].
    by eapply reload_blocklists_inv, set_last_fetch_inv. }
  apply (reload_mesh_inv _ _ _ _ _ (sg_bundle sg) (sg_unix sg)) in Hd1.
  set (d2 := reload_mesh_zone _ _ d1) in *. clearbody d2. clear d1 Hd.
  destruct (load_config (sg_config sg)) as [c|]; cbn [option_list]; [|by rewrite app_nil_r].
  cbn [set_handler dm_active dm_world].
  destruct (reload_listeners c (dm_active d2) (dm_world d2)) as [a w] eqn:Ew.
  destruct (apply_config_inv _ _ _ _ _ (sg_instant sg) _ _ _ _ Hd1 Ew). by constructor.
Qed.

Lemma start_inv cfg s d :
  start_daemon cfg s = Ok d → daemon_inv cfg s (None, [(st_lists s, st_unix s)]) [] [] d.
Proof.
  unfold start_daemon. intros (_ & _ & (authority & Ha%map_err_ok & Hd)%bind_ok)%bind_ok. cbv zeta in Hd.
  destruct (reload (st_lists s) (st_unix s) _ _) as [[summary loader] engine] eqn:El.
  apply bind_ok in Hd as (resolver & Hr%map_err_ok & Hd).
  apply bind_ok in Hd as (h & Hh%map_err_ok & Hd).
  destruct (start_listeners cfg (st_fds s) no_world) as [[active|e] w] eqn:Es; [|done].
  injection Hd as <-. unfold handler_new in Hh. apply bind_ok in Hh as (sinkhole & Hsi & [= <-]).
  constructor; cbn; try done.
  - unfold run_rounds. cbn. by rewrite El.
  - by exists authority.
  - by exists active, w.
  - split; [apply limiter_new_bounded|by eexists].
  - split; [exists cfg; split; [by left|done]|]. intros r Hr'. congruence.
  - assert (Engine.config engine = cfg_blocklist cfg) as Hc.
    { change engine with (summary, loader, engine).2. rewrite <- El. apply reload_no_new. }
    unfold sinkhole_of, Engine.block_response, Engine.sinkhole_ip in *. rewrite Hc in Hsi.
    destruct (blocklist_block_response _); try (by injection Hsi as <-).
    apply fmap_ok in Hsi as (ip & Hip%ok_or_ok & ->). by rewrite Hip.
Qed.

Lemma run_daemon_inv cfg s d events :
  start_daemon cfg s = Ok d →
  daemon_inv cfg s (list_rounds cfg s events) (omap (bundle_of cfg) events) (loaded events)
    (run_daemon events d).
Proof.
  intros Hd%start_inv. unfold run_daemon, loaded, list_rounds.
  induction events as [|ev events IH] using rev_ind; [done|].
  rewrite !foldl_app, !omap_app. cbn [foldl]. set (d1 := foldl step d events) in *. clearbody d1.
  set (lists := foldl _ _ events) in *. clearbody lists.
  destruct ev as [sg|env unix|fs unix|now request];
    cbn [omap list_omap bundle_of]; rewrite ?app_nil_r.
  - pose proof (sighup_inv _ _ _ _ _ sg _ IH) as Hs. cbn [step]. by destruct (load_config (sg_config sg)).
  - cbn [step round_step]. unfold blocklist_reload_loop. rewrite (di_startup _ _ _ _ _ _ IH).
    destruct (_ =? _); [done|].
    destruct lists. by apply reload_blocklists_inv.
  - cbn [step round_step]. unfold mesh_reload_loop. rewrite (di_startup _ _ _ _ _ _ IH).
    destruct (_ && _); rewrite ?app_nil_r; [|done]. by apply reload_mesh_inv.
  - by apply query_inv.
Qed.
(** C6. The running daemon is the product of its parts, each of which sees its own events
    only: the engine and the loader are those of the rounds that start-up, the timer and
    the signals gave; the authority has reloaded the bundles read, in order; the
    listeners and the network are those of the configurations loaded; and the policies,
    the rewrites, the rate limit and, if it can be built, the resolver are of the last
    valid configuration, whatever invalid ones came after it. *)
Theorem daemon_refines_parts (cfg : DnsConfig) (s : StartEnv) (d : Daemon) (events : list event) :
  start_daemon cfg s = Ok d →
  let d' := run_daemon events d in
  let h := dm_handler d' in
  let cs := loaded events in
  let c := in_force cfg cs in
  (dm_loader d', h_blocklist h) =
    run_rounds (cfg_blocklist cfg) (st_unix s) (list_rounds cfg s events).2
  ∧ (∃ a0, Authority.new (st_bundle s) (cfg_authority cfg) (st_unix s) = Ok a0
       ∧ h_authority h = Authority.run_reloads a0 (omap (bundle_of cfg) events))
  ∧ (∃ a0 w0, start_listeners cfg (st_fds s) no_world = (Ok a0, w0)
       ∧ (dm_active d', dm_world d') = run_reloads cs a0 w0)
  ∧ h_policy_by_ip h = build_policy_map (cfg_policy c)
  ∧ h_rewrites h = Rewrite.from_rules (combined_rewrite_rules c)
  ∧ (limiter_bounded (h_rate_limiter h)
     ∧ ∃ t, limiter_params (h_rate_limiter h) =
            limiter_params (RateLimiter.limiter_new (cfg_rate_limit c) t))
  ∧ ((∃ c', c' ∈ cfg :: cs ∧ resolver_new c' = Ok (h_resolver h))
     ∧ ∀ r, resolver_new c = Ok r → h_resolver h = r).
Proof. intros Hd. cbv zeta. by destruct (run_daemon_inv _ _ _ events Hd). Qed.

(** ** The spacing of fetches *)

Lemma reload_mesh_last fs unix d : dm_last_fetch (reload_mesh_zone fs unix d) = dm_last_fetch d.
Proof. unfold reload_mesh_zone. by destruct (Authority.reload_mesh _ _ _). Qed.

Lemma reload_mesh_skips fs unix d :
  blocklist_reload_skipped_total (dm_reloads (reload_mesh_zone fs unix d))
  = blocklist_reload_skipped_total (dm_reloads d).
Proof. unfold reload_mesh_zone. by destruct (Authority.reload_mesh _ _ _) as [[[n|]|e] a]. Qed.

Lemma reload_mesh_lists fs unix d :
  dm_loader (reload_mesh_zone fs unix d) = dm_loader d
  ∧ h_blocklist (dm_handler (reload_mesh_zone fs unix d)) = h_blocklist (dm_handler d).
Proof. unfold reload_mesh_zone. by destruct (Authority.reload_mesh _ _ _). Qed.

(** What a signal does to the lists, whatever else it does. *)
Lemma sighup_lists sg d :
  let d1 := handle_sighup sg d in
  if fetch_spacing_ok (elapsed (sg_instant sg) <$> dm_last_fetch d) MIN_SIGHUP_FETCH_SPACING
  then dm_last_fetch d1 = Some (sg_instant sg)
       ∧ blocklist_reload_skipped_total (dm_reloads d1) = blocklist_reload_skipped_total (dm_reloads d)
  else dm_last_fetch d1 = dm_last_fetch d
       ∧ blocklist_reload_skipped_total (dm_reloads d1)
         = blocklist_reload_skipped_total (dm_reloads d) + 1
       ∧ dm_loader d1 = dm_loader d ∧ h_blocklist (dm_handler d1) = h_blocklist (dm_handler d).
Proof.
  cbv zeta. unfold handle_sighup.
  set (d1 := if fetch_spacing_ok _ _ then reload_blocklists _ _ _ else _).
  set (d2 := reload_mesh_zone _ _ d1).
  set (d3 := match load_config _ with Some _ => _ | None => _ end).
  assert (dm_last_fetch d3 = dm_last_fetch d1
    ∧ blocklist_reload_skipped_total (dm_reloads d3) = blocklist_reload_skipped_total (dm_reloads d1)
    ∧ dm_loader d3 = dm_loader d1 ∧ h_blocklist (dm_handler d3) = h_blocklist (dm_handler d1))
    as (-> & -> & -> & ->).
  { rewrite <- (reload_mesh_last (sg_bundle sg) (sg_unix sg) d1).
    rewrite <- (reload_mesh_skips (sg_bundle sg) (sg_unix sg) d1).
    destruct (reload_mesh_lists (sg_bundle sg) (sg_unix sg) d1) as [<- <-]. fold d2. clearbody d2.
    subst d3. destruct (load_config _) as [c|]; [|done].
    destruct (reload_listeners _ _ _) as [a w]. cbn. by destruct (resolver_new c). }
  subst d1. destruct (fetch_spacing_ok _ _); [|done].
  unfold reload_blocklists. by destruct (reload _ _ _ _) as [[summary l] e].
Qed.

Lemma step_last_fetch d ev :
  (if ev is Sighup _ then False else True) → dm_last_fetch (step d ev) = dm_last_fetch d.
Proof.
  destruct ev as [sg|env unix|fs unix|now request]; [done| | |done]; intros _; cbn [step].
  - unfold blocklist_reload_loop. destruct (_ =? _); [done|]. unfold reload_blocklists. by destruct (reload _ _ _ _) as [[? ?] ?].
  - unfold mesh_reload_loop. destruct (_ && _); [|done]. apply reload_mesh_last.
Qed.

(** When the signals that were not skipped came, by the counter of the skipped ones. *)
Fixpoint fetch_times (events : list event) (d : Daemon) : list Z :=
  match events with
  | [] => []
  | ev :: events =>
      match ev with
      | Sighup sg =>
          if blocklist_reload_skipped_total (dm_reloads (step d ev))
             =? blocklist_reload_skipped_total (dm_reloads d) then [sg_instant sg] else []
      | _ => []
      end ++ fetch_times events (step d ev)
  end.

Lemma fetch_times_after events d :
  StronglySorted (λ t t', t + MIN_SIGHUP_FETCH_SPACING ≤ t') (fetch_times events d)
  ∧ ∀ t, dm_last_fetch d = Some t → Forall (λ t', t + MIN_SIGHUP_FETCH_SPACING ≤ t') (fetch_times events d).
Proof.
  revert d. induction events as [|ev events IH]; intros d; [split; [constructor|by intros]|].
  cbn [fetch_times]. destruct (IH (step d ev)) as [IHs IHl].
  destruct ev as [sg|env unix|fs unix|now request];
    [|rewrite step_last_fetch in IHl by done; by split..].
  pose proof (sighup_lists sg d) as Hs. cbv zeta in Hs. cbn [step] in *.
  destruct (fetch_spacing_ok _ _) eqn:Hok.
  - destruct Hs as [Hl ->]. rewrite Z.eqb_refl. cbn [app]. specialize (IHl _ Hl).
    split; [by constructor|]. intros t Ht. rewrite Ht in Hok. cbn in Hok.
    assert (t + MIN_SIGHUP_FETCH_SPACING ≤ sg_instant sg) as Hle.
    { unfold elapsed, MIN_SIGHUP_FETCH_SPACING, NANOS in *. bools. lia. }
    constructor; [done|]. eapply Forall_impl; [|exact IHl]. cbn.
    unfold MIN_SIGHUP_FETCH_SPACING, NANOS in *. lia.
  - destruct Hs as (Hl & -> & _). rewrite (proj2 (Z.eqb_neq _ _)) by lia. rewrite Hl in IHl. by split.
Qed.

(** Signals cannot make the daemon hammer its blocklist sources: any two rounds of
    fetches that signals start are at least a minute apart, whatever the clock does and
    whatever happens in between; the first signal always has its round, and one that
    comes too early is counted and leaves the loader and the engine as they were. *)
Theorem sighup_fetches_spaced (events : list event) (d : Daemon) :
  StronglySorted (λ t t', t + 60000000000 ≤ t') (fetch_times events d)
  ∧ (∀ sg, dm_last_fetch d = None → fetch_times [Sighup sg] d = [sg_instant sg])
  ∧ ∀ sg t, dm_last_fetch d = Some t → sg_instant sg < t + 60000000000 →
      let d' := step d (Sighup sg) in
      dm_loader d' = dm_loader d ∧ h_blocklist (dm_handler d') = h_blocklist (dm_handler d)
      ∧ blocklist_reload_skipped_total (dm_reloads d')
        = blocklist_reload_skipped_total (dm_reloads d) + 1.
Proof.
  split; [apply fetch_times_after|]. split.
  - intros sg Hn. pose proof (sighup_lists sg d) as Hs. rewrite Hn in Hs. destruct Hs as [_ Hs].
    cbn [fetch_times step]. by rewrite Hs, Z.eqb_refl.
  - intros sg t Ht Hlt. pose proof (sighup_lists sg d) as Hs. cbv zeta in *. rewrite Ht in Hs.
    cbn [fmap option_fmap option_map fetch_spacing_ok step] in *.
    rewrite (proj2 (Z.leb_gt _ _)) in Hs by (unfold elapsed, MIN_SIGHUP_FETCH_SPACING, NANOS; lia).
    by destruct Hs as (_ & ? & ? & ?).
Qed.

(** ** Valid configurations *)

Lemma load_config_ok raw c :
  load_config raw = Some c ↔
  ∃ text v, raw = Some text ∧ parse_toml text = Some v ∧ dec codec_DnsConfig v = Some c
    ∧ Validate.validate_config c = Ok ().
Proof.
  unfold load_config. rewrite bind_Some. setoid_rewrite bind_Some. setoid_rewrite bind_Some. split.
  - intros (text & -> & v & Hv & c' & Hc & Hval). exists text, v.
    destruct (Validate.validate_config c') as [[]|e] eqn:E; [|done]. by injection Hval as <-.
  - intros (text & v & -> & Hv & Hc & Hval). exists text. split; [done|]. exists v. split; [done|].
    exists c. split; [done|]. by rewrite Hval.
Qed.

Lemma load_config_valid raw c :
  load_config raw = Some c → Validate.validate_config c = Ok ().
Proof. intros Hc. by apply load_config_ok in Hc as (text & v & _ & _ & _ & Hval). Qed.

(** C19. [--print-config] tells the truth, and its output can be used: if the [toml] crate reads
    back what it writes, the text printed for a configuration loads, validation included, as
    that configuration with the credentials in its URLs redacted, defaults filled in. *)
Theorem printed_config_loads (args : CliArgs) (mode : Z) (raw : option str) (s : StartEnv) (text : str) :
  (∀ c, load_config raw = Some c →
     let v := enc codec_DnsConfig (redacted_for_display c) in parse_toml (render_toml v) = Some v) →
  main args mode raw s = Ok (Printed text) →
  ∃ c, load_config raw = Some c ∧ load_config (Some text) = Some (redacted_for_display c).
Proof.
  intros Hlib Hm. unfold main in Hm.
  apply bind_ok in Hm as (u & _ & (c & Hc%ok_or_ok & Hm)%bind_ok). exists c. split; [done|].
  assert (text = render_toml (enc codec_DnsConfig (redacted_for_display c))) as ->.
  { destruct (print_config args); [by injection Hm|]. destruct (validate_only args); [by run_ok|].
    by apply fmap_ok in Hm as (d & _ & ?). }
  specialize (Hlib c Hc). apply load_config_ok in Hc as (raw' & v & _ & _ & Hd & Hval).
  apply load_config_ok. do 2 eexists. split; [done|]. split; [exact Hlib|].
  split; [by eapply config_round_trip|]. by apply Redaction.validate_redacted.
Qed.

Lemma validated_rewrites (cfg : DnsConfig) :
  Validate.validate_config cfg = Ok () → Forall (λ r, is_Some (Rewrite.rule_action r)) (cfg_rewrite cfg).
Proof.
  intros Hv. unfold Validate.validate_config in Hv. run_ok. apply Forall_lookup. intros idx r Hr.
  rewrite Validate.try_enumerate_ok in Hv. specialize (Hv idx r Hr). unfold Validate.rewrite_check in Hv. run_ok.
  unfold Rewrite.rule_action, Validate.action_count in *.
  destruct (rewrite_address r) as [addr|] eqn:Ha.
  - run_ok. bools. destruct (parse_ip addr) as [[v4|v6]|]; [done| |done].
    by destruct (to_ipv4_mapped v6).
  - destruct (rewrite_target r); [done|]. by destruct (rewrite_block r).
Qed.

Lemma engine_group b now g :
  NoDup (group_name <$> blocklist_groups b) → g ∈ blocklist_groups b →
  Engine.allowlist <$> Engine.groups (Engine.new b now) !! group_name g
  = Some (Allowlist.from_entries (group_allowlist g)).
Proof.
  intros Hn (i & Hi)%list_elem_of_lookup. cbn [Engine.new Engine.groups].
  by rewrite (initial_groups_lookup _ _ _ i g Hn Hi).
Qed.

(** A policy is in force for its client: the map has, for its address, the last policy that
    names it, with all it says and each of its windows. *)
Definition policy_kept (policies : list NodePolicy) (m : gmap ip_addr CompiledPolicy) (p : NodePolicy) : Prop :=
  ∀ s, policy_client_ip p = Some s →
  ∃ ip q cs, parse_ip s = Some ip ∧ policy_for policies ip = Some q
    ∧ Forall2 (λ w cw, ∃ i, Schedule.compile_window i w = Ok cw) (policy_block_windows q) cs
    ∧ m !! canonical_client_ip ip =
        Some {| cp_blocklist_bypass := policy_blocklist_bypass q; cp_zones_allowed := policy_zones_allowed q;
                cp_log_all_queries := policy_log_all_queries q; cp_schedule := {| Schedule.windows := cs |};
                cp_blocklist_group := policy_blocklist_group q |}.

Lemma policies_kept c p :
  Validate.validate_config c = Ok () → p ∈ cfg_policy c →
  policy_kept (cfg_policy c) (build_policy_map (cfg_policy c)) p
  ∧ ∀ g, policy_blocklist_group p = Some g → ∃ grp, grp ∈ blocklist_groups (cfg_blocklist c) ∧ group_name grp = g.
Proof.
  intros Hv Hin. pose proof (Validate.validated_policies _ Hv) as Hp. rewrite list.Forall_forall in Hp.
  destruct (Hp p Hin) as (Hip & _ & Hg). split; [|done]. intros s Hs. destruct (Hip s Hs) as [ip Hi].
  destruct (policy_for_listed (cfg_policy c) p ip Hin) as [q Hq]; [by rewrite Hs|].
  assert (q ∈ cfg_policy c) as Hqin.
  { unfold policy_for in Hq. apply find_some in Hq as [Hq _]. by apply list_elem_of_In, in_rev. }
  destruct (Hp q Hqin) as (_ & Hc & _). destruct (Schedule.compile _) as [[cs]|] eqn:Hsch; [|by destruct Hc].
  pose proof (Schedule.compile_windows _ _ Hsch) as Hw.
  exists ip, q, cs. do 3 (split; [done|]). rewrite build_policy_map_lookup, Hq. cbn [fmap option_fmap option_map].
  unfold compile_policy. by rewrite Hsch.
Qed.

(** C23. No part of a configuration that was loaded is silently left out, although the code
    that builds the engine, the policies and the rewrites skips what it cannot read.  The
    address denylist and the regex rules are the compiled ones, and every group has its list
    with its own allowlist.  The handler can be built, and in it: the sinkhole address is the
    configured one if it is used; for each policy with an address, the last policy that names
    the address is in force, with its settings and every one of its windows, and a group that
    it assigns exists; and each rewrite is there, under its suffix or its name, a name with the
    action of the last rule that pins it. *)
Theorem valid_config_enforced (raw : option str) (c : DnsConfig) (now : Z) :
  load_config raw = Some c →
  let b := cfg_blocklist c in
  let e := Engine.new b now in
  let rules := combined_rewrite_rules c in
  IpDenylist.parse (blocklist_response_ip_denylist b) = Ok (Engine.response_ip_denylist e)
  ∧ RegexRules.compile (blocklist_regex_rules b) = Ok (Engine.engine_regex_rules e)
  ∧ (∀ g, g ∈ blocklist_groups b →
       Engine.allowlist <$> Engine.groups e !! group_name g
       = Some (Allowlist.from_entries (group_allowlist g)))
  ∧ (∀ p g, p ∈ cfg_policy c → policy_blocklist_group p = Some g → is_Some (Engine.groups e !! g))
  ∧ ∀ authority engine resolver metrics log limiter odoh, Engine.config engine = b →
      ∃ h, handler_new authority engine resolver metrics log limiter (cfg_policy c) rules odoh = Ok h
        ∧ (∀ p, p ∈ cfg_policy c → policy_kept (cfg_policy c) (h_policy_by_ip h) p)
        ∧ (∀ r, r ∈ cfg_rewrite c → Rewrite.rule_kept rules (h_rewrites h) r)
        ∧ (blocklist_block_response b = Config.Sinkhole →
             ∃ ip, parse_ip (blocklist_sinkhole_ip b) = Some ip ∧ h_sinkhole_ip h = Some ip).
Proof.
  intros Hv%load_config_valid b e rules. subst b e rules.
  destruct (Validate.validated_blocklist _ Hv) as (Hd & Hr & Hs & Hn).
  pose proof (validated_rewrites _ Hv) as Hrw. rewrite list.Forall_forall in Hrw.
  cbn [Engine.new Engine.response_ip_denylist Engine.engine_regex_rules].
  split_and!; [by destruct (IpDenylist.parse _); [|destruct Hd]
    |by destruct (RegexRules.compile _); [|destruct Hr]|intros g Hg; by apply engine_group| |].
  - intros p g Hp Hpg. destruct (proj2 (policies_kept c p Hv Hp) g Hpg) as (grp & Hgrp & <-).
    pose proof (engine_group (cfg_blocklist c) now grp Hn Hgrp) as Hl.
    by destruct (Engine.groups _ !! group_name grp).
  - intros authority engine resolver metrics log limiter odoh He. unfold handler_new.
    unfold Engine.block_response, Engine.sinkhole_ip. rewrite He.
    assert (∀ rules r, r ∈ cfg_rewrite c → rules = combined_rewrite_rules c →
      Rewrite.rule_kept rules (Rewrite.from_rules rules) r) as Hkept.
    { intros rules r Hin ->. destruct (Hrw r Hin) as [a Ha]. eapply Rewrite.from_rules_keeps; [|done].
      apply elem_of_app. by right. }
    destruct (blocklist_block_response _) eqn:Hb;
      [|destruct (Hs eq_refl) as [ip Hip]; rewrite Hip|]; eexists; (split; [reflexivity|]);
      cbn [h_policy_by_ip h_rewrites h_sinkhole_ip];
      (split; [intros p Hp; by apply (policies_kept c p Hv)|]); (split; [intros r Hr'; by apply Hkept|]); by eauto.
Qed.

(** ** SafeSearch and the operator's rewrites *)

Lemma safesearch_exact s name target :
  safesearch_cname name target ∈ safesearch_rewrite_rules s →
  list.last (omap (Rewrite.exact_rule name) (safesearch_rewrite_rules s))
  = Some (Rewrite.CnameTo target).
Proof.
  intros Hin. destruct s as [[] [] [] [] []]; apply list_elem_of_In in Hin;
    cbn [safesearch_rewrite_rules safesearch_enabled safesearch_google safesearch_bing
      safesearch_duckduckgo safesearch_youtube negb app fmap list_fmap] in Hin;
    repeat (destruct Hin as [Hin|Hin]; [injection Hin as <- <-; vm_compute; reflexivity|]); destruct Hin.
Qed.

Lemma rewrite_lookup_exact rules qname qtype a :
  let key := trim_end_matches "."%rc qname in
  key ≠ [] → list.last (omap (Rewrite.exact_rule key) rules) = Some a →
  Rewrite.rewrite_lookup (Rewrite.from_rules rules) qname qtype
  = Some (Rewrite.decide_action a qname qtype).
Proof.
  intros key Hk Hl. unfold Rewrite.rewrite_lookup, Rewrite.from_rules. cbn [Rewrite.rw_exact].
  fold key. destruct (Rewrite.add_rules_spec rules {| Rewrite.rw_exact := ∅; Rewrite.rw_suffixes := [] |} key)
    as [-> _]. rewrite Hl. by destruct key.
Qed.

(** SafeSearch and the operator's rewrites.  A rule of the operator for a name itself
    decides it, whatever SafeSearch says; without one, a name of an enabled SafeSearch
    preset is answered by the CNAME of that preset, whatever wildcard rules of the
    operator match it; and a disabled SafeSearch adds no rule. *)
Theorem operator_rewrites_first (c : DnsConfig) (qname : str) (qtype : RecordType) :
  let key := trim_end_matches "."%rc qname in
  let answer := Rewrite.rewrite_lookup (Rewrite.from_rules (combined_rewrite_rules c)) qname qtype in
  key ≠ [] →
  (∀ a, list.last (omap (Rewrite.exact_rule key) (cfg_rewrite c)) = Some a →
     answer = Some (Rewrite.decide_action a qname qtype))
  ∧ (∀ target, omap (Rewrite.exact_rule key) (cfg_rewrite c) = [] →
       safesearch_cname key target ∈ safesearch_rewrite_rules (cfg_safesearch c) →
       answer = Some (Rewrite.Answer [record_new qname (Cname target) STATIC_RECORD_TTL]))
  ∧ (safesearch_enabled (cfg_safesearch c) = false → combined_rewrite_rules c = cfg_rewrite c).
Proof.
  intros key answer Hk. subst answer. unfold combined_rewrite_rules. split_and!.
  - intros a Ha. apply rewrite_lookup_exact; [done|]. rewrite omap_app, last_app. fold key.
    by rewrite Ha.
  - intros target Hn Hs. rewrite (rewrite_lookup_exact _ _ _ (Rewrite.CnameTo target)); [done|done|].
    fold key. rewrite omap_app, Hn, app_nil_r. by apply safesearch_exact.
  - intros Hd. unfold safesearch_rewrite_rules. by rewrite Hd.
Qed.
End daemon.

(** ** Witnesses and examples *)

#[local] Existing Instances demo_hickory demo_server demo_upstream demo_odoh ascii_only
  RegexRules.literal_regex Mesh.demo_ed25519 granting Metrics.documented_families.

Definition demo_daemon_config (path : str) (sources : list str) (rewrites : list RewriteRule) :
    DnsConfig :=
  {| cfg_server := cfg_server (demo_listeners "0.0.0.0:53"%rs "127.0.0.1:9153"%rs);
     cfg_upstream := UpstreamConfig_default;
     cfg_authority :=
       {| authority_mesh_zone_bundle_path := Some "bundle"%rs;
          authority_mesh_zone_verifier_key_path := Some "key"%rs;
          authority_mesh_zone_max_age_secs := 600; authority_mesh_zone := "mesh."%rs;
          authority_static_records := []; authority_zones := ["lab."%rs];
          authority_poll_interval_secs := 30 |};
     cfg_blocklist :=
       {| blocklist_sources := []; blocklist_trusted_rpz_sources := sources;
          blocklist_local_files := ["a.txt"%rs]; blocklist_block_response := Nxdomain;
          blocklist_sinkhole_ip := "0.0.0.0"%rs; blocklist_reload_interval_secs := 300;
          blocklist_fetch_timeout_ms := 1; blocklist_max_fetch_bytes := 32;
          blocklist_allowlist := []; blocklist_block_cname_cloaking := true;
          blocklist_response_ip_denylist := []; blocklist_regex_rules := [];
          blocklist_groups := [] |};
     cfg_privacy := PrivacyConfig_default;
     cfg_metrics := {| metrics_listen := "127.0.0.1:9153"%rs; metrics_path := path |};
     cfg_rate_limit := RateLimitConfig_default; cfg_policy := [demo_policy]; cfg_rewrite := rewrites;
     cfg_safesearch := {| safesearch_enabled := true; safesearch_google := true;
       safesearch_bing := false; safesearch_duckduckgo := false; safesearch_youtube := false |} |}.

Definition demo_daemon : DnsConfig := demo_daemon_config "/metrics"%rs [] [].

(** Four texts; the others do not parse. *)
Definition demo_config_of (text : str) : option DnsConfig :=
  if str_eqb text "a"%rs then Some demo_daemon
  else if str_eqb text "b"%rs
  then Some (demo_daemon_config "/stats"%rs [] [Rewrite.demo_rule "google.com"%rs None None true])
  else if str_eqb text "health"%rs then Some (demo_daemon_config "/health"%rs [] [])
  else if str_eqb text "loop"%rs
  then Some (demo_daemon_config "/metrics"%rs []
               [Rewrite.demo_rule "*.example.com"%rs None (Some "a.example.com"%rs) false])
  else None.

Definition demo_toml (text : str) : option value := enc codec_DnsConfig <$> demo_config_of text.

Definition demo_env (file : str) : nat → Env := λ _,
  {| env_file := λ _, Some (as_bytes file); env_http := λ _ _, SendFailed |}.

Definition demo_start_env : StartEnv :=
  {| st_instant := 0; st_unix := 1700000300; st_lists := demo_env "ads.example.com"%rs;
     st_bundle := Mesh.demo_files; st_fds := []; st_odoh := demo_odoh_state;
     st_disk := {| DiskLog.d_names := ∅; DiskLog.d_files := ∅; DiskLog.d_ops := 0 |};
     st_disk_fails := λ _, false |}.

Definition demo_signal (at_ : Z) (config file : str) : event :=
  Sighup {| sg_instant := at_; sg_unix := 1700000301; sg_lists := demo_env file;
            sg_bundle := Mesh.demo_files; sg_config := Some config |}.

Definition demo_run : list event :=
  [demo_signal 1000 "b"%rs "ads.example.net"%rs; demo_signal 2000 "bad"%rs "ads.example.org"%rs;
   BlocklistTimer (demo_env "ads.example.com"%rs) 1700000400;
   Query demo_now (demo_request 167772163 "www.example."%rs)].

Definition demo_boot : result start_error Daemon := start_daemon demo_daemon demo_start_env.

Lemma demo_boots : dm_last_fetch <$> demo_boot = Ok None.
Proof. vm_compute. reflexivity. Qed.

Lemma demo_boot_ok : ∃ d, demo_boot = Ok d ∧ dm_last_fetch d = None.
Proof.
  pose proof demo_boots as Hb. destruct demo_boot as [d|e]; [|discriminate Hb].
  exists d. split; [reflexivity|]. by injection Hb.
Qed.

(** After a valid reload, one that does not parse, a timer and a query: the second signal
    came too early for a round of the lists. *)
Lemma daemon_refines_parts_witness :
  length (list_rounds demo_daemon demo_start_env demo_run).2 = 3%nat
  ∧ Some (in_force demo_daemon (loaded demo_toml demo_run)) = demo_config_of "b"%rs
  ∧ ∃ d, demo_boot = Ok d
    ∧ let d' := run_daemon demo_toml demo_net demo_draws demo_validate QueryLog.demo_hash demo_run d in
      let c := in_force demo_daemon (loaded demo_toml demo_run) in
      (dm_loader d', h_blocklist (dm_handler d')) =
        run_rounds (cfg_blocklist demo_daemon) 1700000300
          (list_rounds demo_daemon demo_start_env demo_run).2
      ∧ h_rewrites (dm_handler d') = Rewrite.from_rules (combined_rewrite_rules c).
Proof.
  split; [vm_compute; reflexivity|]. split; [vm_compute; reflexivity|].
  destruct demo_boot_ok as (d & E & _). exists d. split; [exact E|].
  destruct (daemon_refines_parts demo_toml demo_net demo_draws demo_validate QueryLog.demo_hash
    demo_daemon demo_start_env d demo_run E) as (Hl & _ & _ & _ & Hr & _).
  exact (conj Hl Hr).
Defined.

Definition demo_b : DnsConfig :=
  demo_daemon_config "/stats"%rs [] [Rewrite.demo_rule "google.com"%rs None None true].

Lemma valid_config_enforced_witness :
  ∃ h, handler_new Authority.demo_static_authority (Engine.new (cfg_blocklist demo_b) 0) demo_resolver
      (λ _, 0) (QueryLog.log_new 4) RateLimiter.demo_limiter (cfg_policy demo_b) (combined_rewrite_rules demo_b)
      demo_odoh_state = Ok h
    ∧ (∀ p, p ∈ cfg_policy demo_b → policy_kept (cfg_policy demo_b) (h_policy_by_ip h) p)
    ∧ ∀ r, r ∈ cfg_rewrite demo_b → Rewrite.rule_kept (combined_rewrite_rules demo_b) (h_rewrites h) r.
Proof.
  destruct (valid_config_enforced demo_toml (Some "b"%rs) demo_b 0) as (_ & _ & _ & _ & Hh);
    [vm_compute; reflexivity|].
  destruct (Hh Authority.demo_static_authority (Engine.new (cfg_blocklist demo_b) 0) demo_resolver
    (λ _, 0) (QueryLog.log_new 4) RateLimiter.demo_limiter demo_odoh_state eq_refl) as (h & E & Hp & Hr & _).
  exists h. exact (conj E (conj Hp Hr)).
Defined.

Lemma sighup_fetches_spaced_witness :
  ∃ d, demo_boot = Ok d
    ∧ fetch_times demo_toml demo_net demo_draws demo_validate QueryLog.demo_hash
        [demo_signal 1000 "b"%rs "ads.example.net"%rs] d = [1000].
Proof.
  destruct demo_boot_ok as (d & E & Hn). exists d. split; [exact E|].
  apply (sighup_fetches_spaced demo_toml demo_net demo_draws demo_validate QueryLog.demo_hash [] d).
  exact Hn.
Defined.

(** [google.com] is the operator's, [www.google.com] the preset's. *)
Lemma operator_rewrites_first_witness :
  let m := Rewrite.from_rules (combined_rewrite_rules (default demo_daemon (demo_config_of "b"%rs))) in
  Rewrite.rewrite_lookup m "google.com."%rs RT_A = Some Rewrite.Nxdomain
  ∧ Rewrite.rewrite_lookup m "www.google.com."%rs RT_A
    = Some (Rewrite.Answer [record_new "www.google.com."%rs (Cname "forcesafesearch.google.com."%rs)
                              STATIC_RECORD_TTL]).
Proof.
  set (c := default demo_daemon (demo_config_of "b"%rs)). split.
  - destruct (operator_rewrites_first c "google.com."%rs RT_A) as [Ho _]; [discriminate|].
    exact (Ho Rewrite.Block eq_refl).
  - destruct (operator_rewrites_first c "www.google.com."%rs RT_A) as (_ & Hs & _); [discriminate|].
    apply Hs; [vm_compute; reflexivity|]. vm_compute. right. left.
Defined.

(** A source with a password: what is printed loads, without it. *)
Definition demo_secret : DnsConfig :=
  demo_daemon_config "/metrics"%rs ["https://u:pw@lists.example/rpz"%rs] [].
Definition demo_secret_toml (text : str) : option value :=
  if str_eqb text "secret"%rs then Some (enc codec_DnsConfig demo_secret)
  else if str_eqb text "shown"%rs then Some (enc codec_DnsConfig (redacted_for_display demo_secret))
  else None.

Lemma demo_secret_loads : load_config demo_secret_toml (Some "secret"%rs) = Some demo_secret.
Proof. vm_compute. reflexivity. Qed.

Lemma printed_config_loads_witness :
  load_config demo_secret_toml (Some "shown"%rs) = Some (redacted_for_display demo_secret)
  ∧ blocklist_trusted_rpz_sources (cfg_blocklist (redacted_for_display demo_secret))
    = ["https://<redacted>@lists.example/rpz"%rs].
Proof.
  split; [|vm_compute; reflexivity].
  destruct (printed_config_loads demo_secret_toml (λ _, "shown"%rs)
    {| config_path := []; validate_only := false; print_config := true |} 384 (Some "secret"%rs)
    demo_start_env "shown"%rs) as (c & Hc & Hs).
  - intros c Hc. rewrite demo_secret_loads in Hc. injection Hc as <-. reflexivity.
  - unfold main. rewrite demo_secret_loads. reflexivity.
  - rewrite demo_secret_loads in Hc. injection Hc as <-. exact Hs.
Defined.

(** A metrics path that is reserved validates, and then the daemon does not start. *)
Definition demo_main (only : bool) : option start_error :=
  match main demo_toml (λ _, []) {| config_path := []; validate_only := only; print_config := false |}
          384 (Some "health"%rs) demo_start_env with
  | Ok _ => None
  | Err e => Some e
  end.

Example health_path_validates :
  demo_main true = None ∧ demo_main false = Some (ListenersFailed (PathReserved "/health"%rs)).
Proof. split; vm_compute; reflexivity. Qed.

(** A rewrite whose target it matches itself is valid; its answer is a CNAME to itself. *)
Example rewrite_loop_validates :
  let rules := cfg_rewrite (default demo_daemon (demo_config_of "loop"%rs)) in
  load_config demo_toml (Some "loop"%rs) = demo_config_of "loop"%rs
  ∧ Rewrite.rewrite_lookup (Rewrite.from_rules rules) "a.example.com."%rs RT_A
    = Some (Rewrite.Answer [record_new "a.example.com."%rs (Cname "a.example.com."%rs)
                              STATIC_RECORD_TTL]).
Proof. split; vm_compute; reflexivity. Qed.

(** The first load of the bundle counts as a successful reload. *)
Example initial_mesh_load_counted :
  (λ d, (mesh_zone_reload_success_total (dm_reloads d), blocklist_reload_success_total (dm_reloads d)))
  <$> demo_boot = Ok (1, 1).
Proof. vm_compute. reflexivity. Qed.

(** New trusted sources are neither fetched nor reported as needing a restart. *)
Example trusted_sources_not_reported :
  let new_config := demo_daemon_config "/metrics"%rs ["https://lists.example/rpz"%rs] [] in
  restart_required_changes demo_daemon new_config = []
  ∧ (λ d, blocklist_trusted_rpz_sources (ld_config (dm_loader
        (run_daemon (λ _, Some (enc codec_DnsConfig new_config)) demo_net demo_draws demo_validate QueryLog.demo_hash
           [demo_signal 1000 []%rs "ads.example.com"%rs] d)))) <$> demo_boot = Ok [].
Proof. split; vm_compute; reflexivity. Qed.
