(* ===== verification/Concurrent.v ===== *)
(** * Concurrent: requests and reloads that interleave
    ([rustydnsd/src/handler.rs], [main.rs])

    [Handler.handle_request] takes a request in one step.  In the daemon every request is a
    task of its own, and reloads swap the shared cells ([ArcSwap]) while tasks are under
    way: a stage reads its cell when it comes to it, and a resolver that was loaded is kept
    to the end of its exchange.  Here a request is a flight that goes through its stages
    one step at a time, and a schedule is any sequence of arrivals, steps of flights and
    reloads of cells.  One stage, one upstream exchange, the screening of one answer and
    one entry of the log are single steps. *)

From S2P Require Import Prelude RustStr Net Config Record Hickory Answers Odoh Resolver Handler.
From S2P Require Engine Authority Rewrite RateLimiter QueryLog Client RegexRules.
From S2P Require Schedule Mesh Metrics Loader Daemon.

(** The local stages, in the order of the code. *)
Inductive gate :=
| RateLimit | OpCodeOf | EdnsVersion | AnyQtype | Class
| Schedules | Zones | Authorities | Rewrites | Blocklist.
#[export] Instance gate_eq_dec : EqDecision gate.
Proof. solve_decision. Defined.

Definition all_gates : list gate :=
  [RateLimit; OpCodeOf; EdnsVersion; AnyQtype; Class; Schedules; Zones; Authorities; Rewrites;
   Blocklist].

Section concurrent.
Context `{Hickory} `{!Server} `{!Upstream} `{!OdohLib} `{Unicode} `{RegexRules.RegexCrate}.
Context (net : list action → action → reply) (rand : list action → draw → Z).
Context (validate : (bytes → OdohState → result OdohError bytes * OdohState) →
  HName → RecordType → OdohState → option (list RR * ResponseCode) * OdohState).
Context (hash_qname : str → Z).

(** ** The shared cells *)

(** The handler, the number of resolvers it had before, and the configuration cells of
    these: a flight that still holds one of them uses its cells. *)
Record Shared := {
  sh_handler : DnsHandler;
  sh_epoch : nat;
  sh_retired : gmap nat (gmap nat OConfig);
}.

Definition set_shared (h : DnsHandler) (sh : Shared) : Shared :=
  {| sh_handler := h; sh_epoch := sh_epoch sh; sh_retired := sh_retired sh |}.

(** The oblivious arm of the resolver that was loaded in an epoch. *)
Definition odoh_of (epoch : nat) (sh : Shared) : OdohState :=
  {| history := history (h_odoh (sh_handler sh));
     cells := if decide (epoch = sh_epoch sh) then cells (h_odoh (sh_handler sh))
              else default ∅ (sh_retired sh !! epoch) |}.

Definition store_odoh (epoch : nat) (st : OdohState) (sh : Shared) : Shared :=
  if decide (epoch = sh_epoch sh) then set_shared (set_odoh st (sh_handler sh)) sh
  else {| sh_handler := set_odoh {| history := history st;
                                    cells := cells (h_odoh (sh_handler sh)) |} (sh_handler sh);
          sh_epoch := sh_epoch sh; sh_retired := <[epoch := cells st]> (sh_retired sh) |}.

(** What a reload stores; a round of the lists stores one engine after another, as it goes
    through the global set and the groups. *)
Inductive update :=
| NewResolver (r : Resolver)
| NewRateLimiter (l : RateLimiter.RateLimiter)
| NewPolicies (policies : list NodePolicy)
| NewRewrites (rules : list RewriteRule)
| NewBlocklist (e : Engine.BlocklistEngine)
| NewAuthority (a : Authority.Authority).

Definition handler_update (u : update) : DnsHandler → DnsHandler :=
  match u with
  | NewResolver r => swap_resolver r
  | NewRateLimiter l => swap_rate_limiter l
  | NewPolicies policies => swap_policies policies
  | NewRewrites rules => swap_rewrites rules
  | NewBlocklist e => Daemon.set_blocklist e
  | NewAuthority a => Daemon.set_authority a
  end.

Definition apply_update (sh : Shared) (u : update) : Shared :=
  let h := handler_update u (sh_handler sh) in
  match u with
  | NewResolver _ =>
      {| sh_handler := h; sh_epoch := S (sh_epoch sh);
         sh_retired := <[sh_epoch sh := cells (h_odoh (sh_handler sh))]> (sh_retired sh) |}
  | _ => set_shared h sh
  end.

(** ** Flights *)

Definition gate_stage (now : Now) (request : Request) (ctx : QueryCtx) (g : gate) : stage :=
  match g with
  | RateLimit => gate_rate_limit now ctx
  | OpCodeOf => gate_opcode request
  | EdnsVersion => gate_edns_version request
  | AnyQtype => gate_any_qtype ctx
  | Class => gate_class ctx
  | Schedules => gate_schedule ctx
  | Zones => gate_zones ctx
  | Authorities => gate_authority ctx
  | Rewrites => gate_rewrite ctx
  | Blocklist => gate_blocklist ctx
  end.

(** The second half of the resolver stage: what becomes of the resolver's answer. *)
Definition screen (ctx : QueryCtx) (res : result resolver_error ResolveOutcome)
    (h : DnsHandler) : Reply * DnsHandler :=
  match res with
  | Ok out =>
      let h := inc_n PrivateRdataDropped (private_rdata_dropped out) h in
      if Engine.block_cname_cloaking (h_blocklist h) && negb (pd_blocklist_bypass (policy ctx))
         && cname_chain_blocked h (out_records out) (pd_blocklist_group (policy ctx))
      then (block_reply h ctx, inc CnameCloakingBlocked (inc BlocklistHits h))
      else if Engine.response_ip_denylist_active (h_blocklist h)
              && negb (pd_blocklist_bypass (policy ctx)) && response_ip_blocked h (out_records out)
      then (block_reply h ctx, inc ResponseIpBlocked (inc BlocklistHits h))
      else (resolved_reply out, h)
  | Err _ =>
      ({| code := ServFail; authoritative := false; answers := [];
          served_by := QueryLog.ByServerFailure |}, inc ResolverFailures h)
  end.

(** Under whom a reply is logged. *)
Record Attribution := {
  at_policy : PolicyDecision;
  at_client : Client.ClientId;
  at_name : str;
  at_label : str;
}.

Definition attribution (ctx : QueryCtx) : Attribution :=
  {| at_policy := policy ctx; at_client := client ctx; at_name := qname_canon ctx;
     at_label := qtype_label ctx |}.

Definition malformed (h : DnsHandler) (now : Now) (request : Request) : Attribution :=
  {| at_policy := resolve_policy h (now_unix now) (req_src request);
     at_client := Client.from_ip (req_src request); at_name := []; at_label := "?"%rs |}.

(** How far a request is: handed over; about to pass the gates that are left; waiting for a
    resolver it loaded in some epoch; with the resolver's answer; with a reply; logged;
    sent. *)
Inductive progress :=
| Arrived (request : Request)
| AtGate (request : Request) (ctx : QueryCtx) (todo : list gate)
| Asking (request : Request) (ctx : QueryCtx) (resolver : Resolver) (epoch : nat)
| Answered (request : Request) (ctx : QueryCtx) (res : result resolver_error ResolveOutcome)
| Decided (request : Request) (who : Attribution) (reply : Reply)
| Logged (request : Request) (who : Attribution) (reply : Reply)
| Sent (request : Request) (who : Attribution) (reply : Reply) (resp : Response).

(** One step of a flight. *)
Definition advance (now : Now) (p : progress) (sh : Shared) : progress * Shared :=
  let h := sh_handler sh in
  match p with
  | Arrived request =>
      match req_query request with
      | None => (Decided request (malformed h now request) (reject FormErr), sh)
      | Some q =>
          let ctx := query_ctx h now request q in
          (AtGate request ctx all_gates,
           set_shared (inc (QueriesByQtype (qtype_label ctx)) (inc Queries h)) sh)
      end
  | AtGate request ctx (g :: todo) =>
      let '(o, h) := gate_stage now request ctx g h in
      (match o with
       | Some reply => Decided request (attribution ctx) reply
       | None => AtGate request ctx todo
       end, set_shared h sh)
  | AtGate request ctx [] =>
      (Asking request ctx (h_resolver h) (sh_epoch sh), set_shared (inc ResolverQueries h) sh)
  | Asking request ctx resolver epoch =>
      let '(res, st) :=
        resolve net rand validate resolver (qname ctx) (qtype_label ctx) (odoh_of epoch sh) in
      (Answered request ctx res, store_odoh epoch st sh)
  | Answered request ctx res =>
      let '(reply, h) := screen ctx res h in
      (Decided request (attribution ctx) reply, set_shared h sh)
  | Decided request who reply =>
      (Logged request who reply,
       set_shared (log_query hash_qname now (at_policy who) (at_client who) (at_name who)
                     (at_label who) (code reply) (served_by reply) h) sh)
  | Logged request who reply =>
      let '(resp, h) := respond request (code reply) (authoritative reply) (answers reply) h in
      (Sent request who reply resp, set_shared h sh)
  | Sent _ _ _ _ => (p, sh)
  end.

(** ** Schedules *)

Record Concurrent := { shared : Shared; flights : gmap nat progress }.

Inductive occurrence :=
| Arrive (id : nat) (request : Request)
| Advance (id : nat) (now : Now)
| Reload (u : update).

Definition cstep (c : Concurrent) (o : occurrence) : Concurrent :=
  match o with
  | Arrive id request =>
      match flights c !! id with
      | None => {| shared := shared c; flights := <[id := Arrived request]> (flights c) |}
      | Some _ => c
      end
  | Advance id now =>
      match flights c !! id with
      | Some p =>
          let '(p, sh) := advance now p (shared c) in
          {| shared := sh; flights := <[id := p]> (flights c) |}
      | None => c
      end
  | Reload u => {| shared := apply_update (shared c) u; flights := flights c |}
  end.

Definition schedule (occs : list occurrence) (c : Concurrent) : Concurrent := foldl cstep c occs.

(** A handler that starts to serve. *)
Definition serving (h : DnsHandler) : Concurrent :=
  {| shared := {| sh_handler := h; sh_epoch := 0; sh_retired := ∅ |}; flights := ∅ |}.

(** ** Steps left *)

Definition rank (p : progress) : nat :=
  match p with
  | Arrived _ => 16
  | AtGate _ _ todo => 5 + length todo
  | Asking _ _ _ _ => 4
  | Answered _ _ _ => 3
  | Decided _ _ _ => 2
  | Logged _ _ _ => 1
  | Sent _ _ _ _ => 0
  end.

(** The steps a request takes at most. *)
Definition lifetime : nat := 16.

Lemma advance_rank now p sh : (rank (advance now p sh).1 ≤ rank p - 1)%nat.
Proof.
  destruct p as [request|request ctx todo|request ctx r e|request ctx res|request who reply
                |request who reply|request who reply resp]; cbn [advance].
  - destruct (req_query request); cbn; lia.
  - destruct todo as [|g todo]; [cbn; lia|].
    destruct (gate_stage now request ctx g (sh_handler sh)) as [[reply|] h]; cbn; lia.
  - destruct (resolve _ _ _ _ _ _ _) as [res st]. cbn. lia.
  - destruct (screen _ _ _) as [reply h]. cbn. lia.
  - cbn. lia.
  - destruct (respond _ _ _ _ _) as [resp h]. cbn. lia.
  - cbn. lia.
Qed.

(** ** What a flight sees

    A flight's own steps, each with its clocks and the cells it finds. *)
Definition moment : Type := Now * Shared.

Fixpoint moments (id : nat) (occs : list occurrence) (c : Concurrent) : list moment :=
  match occs with
  | [] => []
  | o :: occs =>
      (match o with
       | Advance id' now => if decide (id' = id) then [(now, shared c)] else []
       | _ => []
       end) ++ moments id occs (cstep c o)
  end.

Definition solo (ms : list moment) (p : progress) : progress :=
  foldl (λ p m, (advance m.1 p m.2).1) p ms.

(** A flight is moved by its own steps only. *)
Lemma schedule_flight id occs c p :
  flights c !! id = Some p →
  flights (schedule occs c) !! id = Some (solo (moments id occs c) p).
Proof.
  revert c p. induction occs as [|o occs IH]; intros c p Hp; [done|].
  change (schedule (o :: occs) c) with (schedule occs (cstep c o)). cbn [moments].
  unfold solo. rewrite foldl_app. apply IH.
  destruct o as [id' request|id' now|u]; cbn [cstep foldl].
  - destruct (flights c !! id') eqn:Hid; [done|]. cbn [flights].
    rewrite lookup_insert_ne; [done|congruence].
  - destruct (decide (id' = id)) as [->|Hne].
    + rewrite Hp. cbn [foldl fst snd]. destruct (advance now p (shared c)) as [p' sh]. cbn [flights fst].
      by rewrite lookup_insert_eq.
    + destruct (flights c !! id'); [|done]. destruct (advance _ _ _) as [p' sh]. cbn [flights foldl].
      by rewrite lookup_insert_ne.
  - done.
Qed.

Lemma solo_rank ms p : (rank (solo ms p) ≤ rank p - length ms)%nat.
Proof.
  revert p. induction ms as [|m ms IH]; intros p; cbn; [lia|].
  pose proof (IH (advance m.1 p m.2).1). pose proof (advance_rank m.1 p m.2). unfold solo in *. lia.
Qed.

(** Whatever the others do, a flight that is given its steps ends. *)
Lemma solo_completes ms p :
  (rank p ≤ length ms)%nat → ∃ request who reply resp, solo ms p = Sent request who reply resp.
Proof.
  intros Hr. pose proof (solo_rank ms p). assert (rank (solo ms p) = 0%nat) as Hz by lia.
  destruct (solo ms p); cbn in Hz; try lia. by eexists _, _, _, _.
Qed.

(** ** Gates by themselves *)

(** Two handlers, with their clocks, that a gate cannot tell apart. *)
Definition agree (g : gate) (v v' : Now * DnsHandler) : Prop :=
  match g with
  | RateLimit =>
      now_instant v'.1 = now_instant v.1 ∧ h_rate_limiter v'.2 = h_rate_limiter v.2
  | Authorities => h_authority v'.2 = h_authority v.2
  | Rewrites => h_rewrites v'.2 = h_rewrites v.2
  | Blocklist =>
      h_blocklist v'.2 = h_blocklist v.2 ∧ h_sinkhole_ip v'.2 = h_sinkhole_ip v.2
  | _ => True
  end.

(** What a gate replies. *)
Definition says (request : Request) (ctx : QueryCtx) (g : gate) (v : Now * DnsHandler) :
    option Reply :=
  (gate_stage v.1 request ctx g v.2).1.

Lemma block_reply_agree h h' ctx :
  h_blocklist h' = h_blocklist h → h_sinkhole_ip h' = h_sinkhole_ip h →
  block_reply h' ctx = block_reply h ctx.
Proof.
  intros Hb Hs. unfold block_reply, build_block_response, sinkhole_answers. by rewrite Hb, Hs.
Qed.

Lemma says_agree request ctx g v v' : agree g v v' → says request ctx g v' = says request ctx g v.
Proof.
  destruct v as [now h], v' as [now' h']. unfold says. intros Ha.
  destruct g; cbn [agree gate_stage fst snd] in *; try done.
  - destruct Ha as [Hi Hl]. unfold gate_rate_limit. rewrite Hi, Hl.
    by destruct (RateLimiter.check _ _ _) as [[] l].
  - unfold gate_any_qtype. by case_match.
  - unfold gate_schedule. by case_match.
  - unfold gate_zones. by case_match.
  - unfold gate_authority. rewrite Ha. by case_match.
  - unfold gate_rewrite. rewrite Ha. by case_match.
  - destruct Ha as [Hb Hs]. unfold gate_blocklist. rewrite Hb. cbv zeta.
    destruct (negb _ && _); [|done]. cbn [fst]. f_equal. apply block_reply_agree; by destruct (_ && _).
Qed.

(** The gates touch metrics and buckets, and the buckets are the limiter's. *)
Lemma gate_stage_frame now request ctx g h : frame h (gate_stage now request ctx g h).2.
Proof.
  destruct g; cbn [gate_stage].
  - unfold gate_rate_limit. by destruct (RateLimiter.check _ _ _) as [[] l].
  - done.
  - done.
  - unfold gate_any_qtype. case_match; [|done]. by case_match.
  - done.
  - unfold gate_schedule. by case_match.
  - unfold gate_zones. by case_match.
  - unfold gate_authority. by case_match.
  - unfold gate_rewrite. by case_match.
  - unfold gate_blocklist. cbv zeta. destruct (negb _ && _), (_ && _); done.
Qed.

Lemma gate_stage_limiter now request ctx g h :
  g ≠ RateLimit → h_rate_limiter (gate_stage now request ctx g h).2 = h_rate_limiter h.
Proof.
  intros Hg. destruct g; cbn [gate_stage]; try done.
  - unfold gate_any_qtype. case_match; [|done]. by case_match.
  - unfold gate_schedule. by case_match.
  - unfold gate_zones. by case_match.
  - unfold gate_authority. by case_match.
  - unfold gate_rewrite. by case_match.
  - unfold gate_blocklist. cbv zeta. destruct (negb _ && _), (_ && _); done.
Qed.

Lemma frame_agree g now h h' :
  frame h h' → (g = RateLimit → h_rate_limiter h' = h_rate_limiter h) → agree g (now, h) (now, h').
Proof. unfold frame. intros Hf Hl. destruct_and!. destruct g; cbn; auto. Qed.

(** Gates in a row, with the state threaded as [or_else] does. *)
Definition run_gates (now : Now) (request : Request) (ctx : QueryCtx) (gs : list gate) : stage :=
  foldr (λ g s, or_else (gate_stage now request ctx g) s) (λ h, (None, h)) gs.

(** The first reply, on one handler. *)
Definition first_reply (request : Request) (ctx : QueryCtx) (gs : list gate) (v : Now * DnsHandler) :
    option Reply :=
  foldr (λ g r, match says request ctx g v with Some reply => Some reply | None => r end) None gs.

Lemma first_reply_ext request ctx gs v v' :
  (∀ g, g ∈ gs → says request ctx g v' = says request ctx g v) →
  first_reply request ctx gs v' = first_reply request ctx gs v.
Proof.
  intros Hs. unfold first_reply. induction gs as [|g gs IH]; [done|]. cbn [foldr].
  rewrite Hs by (by left). destruct (says _ _ g _); [done|]. apply IH. intros. apply Hs. by right.
Qed.

Lemma run_gates_first now request ctx gs h :
  NoDup gs → (∀ g, g ∈ tail gs → g ≠ RateLimit) →
  (run_gates now request ctx gs h).1 = first_reply request ctx gs (now, h)
  ∧ frame h (run_gates now request ctx gs h).2.
Proof.
  revert h. induction gs as [|g gs IH]; intros h Hnd Hrl; [done|].
  apply list.NoDup_cons in Hnd as [Hg Hnd]. cbn [tail] in Hrl.
  change (run_gates now request ctx (g :: gs)) with
    (or_else (gate_stage now request ctx g) (run_gates now request ctx gs)).
  change (first_reply request ctx (g :: gs) (now, h)) with
    (match (gate_stage now request ctx g h).1 with
     | Some reply => Some reply | None => first_reply request ctx gs (now, h) end).
  unfold or_else. pose proof (gate_stage_frame now request ctx g h) as Hf.
  destruct (gate_stage now request ctx g h) as [[reply|] h1] eqn:E; cbn [fst snd] in *; [done|].
  destruct (IH h1 Hnd) as [Hfst Hfr]. { intros g' Hg'. apply Hrl. destruct gs; [done|by right]. }
  split; [|unfold frame in *; naive_solver congruence]. rewrite Hfst. apply first_reply_ext.
  intros g' Hg'. apply says_agree, frame_agree; [done|]. intros ->. by destruct (Hrl RateLimit Hg').
Qed.

Lemma or_else_assoc (s1 s2 s3 : stage) h :
  or_else (or_else s1 s2) s3 h = or_else s1 (or_else s2 s3) h.
Proof. unfold or_else. by destruct (s1 h) as [[reply|] h1]. Qed.

Lemma or_else_ext (s s1 s2 : stage) h :
  (∀ h, s1 h = s2 h) → or_else s s1 h = or_else s s2 h.
Proof. intros Hs. unfold or_else. destruct (s h) as [[reply|] h1]; [done|apply Hs]. Qed.

(** The stages of the code, one after another. *)
Lemma all_gates_run now request ctx h :
  run_gates now request ctx all_gates h = or_else (gates now request ctx) (pipeline ctx) h.
Proof.
  unfold gates, pipeline. cbn [run_gates all_gates foldr gate_stage].
  rewrite !or_else_assoc. repeat (apply or_else_ext; intros ?; rewrite ?or_else_assoc).
  unfold or_else. by destruct (gate_blocklist _ _) as [[]].
Qed.

Lemma local_first now request ctx h :
  (or_else (gates now request ctx) (pipeline ctx) h).1 = first_reply request ctx all_gates (now, h)
  ∧ frame h (or_else (gates now request ctx) (pipeline ctx) h).2.
Proof.
  rewrite <- all_gates_run. apply run_gates_first; [by apply (bool_decide_unpack _)|].
  cbn [tail all_gates]. intros g Hg ->. by repeat (apply elem_of_cons in Hg as [|Hg]; [done|]); apply not_elem_of_nil in Hg.
Qed.

(** ** What a request may be served

    The reply to a request on a handler, whose blocklist at the screening of an upstream
    answer may be another one. *)
Definition with_filter (b h : DnsHandler) : DnsHandler :=
  {| h_authority := h_authority h; h_blocklist := h_blocklist b; h_resolver := h_resolver h;
     h_rewrites := h_rewrites h; h_policy_by_ip := h_policy_by_ip h;
     h_sinkhole_ip := h_sinkhole_ip b; h_rate_limiter := h_rate_limiter h;
     h_metrics := h_metrics h; h_query_log := h_query_log h; h_audit := h_audit h;
     h_odoh := h_odoh h |}.

Definition served (request : Request) (v : Now * DnsHandler) (b : DnsHandler) : Reply :=
  match req_query request with
  | None => reject FormErr
  | Some q =>
      let ctx := query_ctx v.2 v.1 request q in
      match (or_else (gates v.1 request ctx) (pipeline ctx) v.2).1 with
      | Some reply => reply
      | None => (stage_resolve net rand validate ctx (with_filter b v.2)).1
      end
  end.

Definition attributed (request : Request) (v : Now * DnsHandler) : Attribution :=
  {| at_policy := resolve_policy v.2 (now_unix v.1) (req_src request);
     at_client := Client.from_ip (req_src request);
     at_name := (log_name v.2 v.1 request).1; at_label := (log_name v.2 v.1 request).2 |}.

(** What is sent of a reply. *)
Definition sent_as (request : Request) (reply : Reply) (h : DnsHandler) : Response :=
  (respond request (code reply) (authoritative reply) (answers reply) h).1.

Lemma sent_as_any request reply h h' : sent_as request reply h = sent_as request reply h'.
Proof. done. Qed.

Lemma screen_agree ctx res h h' :
  h_blocklist h' = h_blocklist h → h_sinkhole_ip h' = h_sinkhole_ip h →
  (screen ctx res h').1 = (screen ctx res h).1.
Proof.
  intros Hb Hs. destruct res as [out|e]; [|done]. unfold screen. cbv zeta.
  set (hi' := inc_n _ _ h'). set (hi := inc_n _ _ h).
  assert (h_blocklist hi' = h_blocklist hi) as Hbi by done.
  assert (cname_chain_blocked hi' = cname_chain_blocked hi) as Hc by (unfold cname_chain_blocked; by rewrite Hbi).
  assert (response_ip_blocked hi' = response_ip_blocked hi) as Hr by (unfold response_ip_blocked; by rewrite Hbi).
  rewrite Hc, Hr, Hbi, (block_reply_agree hi hi' ctx Hbi Hs). by destruct (_ && _); [|destruct (_ && _)].
Qed.

Lemma stage_resolve_screen ctx h :
  (stage_resolve net rand validate ctx h).1 =
    (screen ctx (resolve net rand validate (h_resolver h) (qname ctx) (qtype_label ctx) (h_odoh h)).1 h).1.
Proof.
  unfold stage_resolve. cbn [inc inc_n h_resolver h_odoh].
  destruct (resolve _ _ _ _ _ _ _) as [res st]. cbn [fst].
  rewrite (screen_agree ctx res (set_odoh st (inc ResolverQueries h)) h) by done.
  by destruct res.
Qed.

(** On one handler it is the reply of [Handler]. *)
Lemma served_request_reply now request h :
  served request (now, h) h = (request_reply net rand validate now request h).1.
Proof.
  unfold served, request_reply. destruct (req_query request) as [q|]; [|done]. cbn [fst snd]. cbv zeta.
  set (ctx := query_ctx h now request q). set (h0 := inc _ (inc _ h)).
  destruct (local_first now request ctx h) as [Hl _]. destruct (local_first now request ctx h0) as [Hl0 Hf].
  assert (first_reply request ctx all_gates (now, h0) = first_reply request ctx all_gates (now, h)) as He.
  { apply first_reply_ext. intros g _. by apply says_agree, frame_agree. }
  rewrite Hl, <- He, <- Hl0. unfold decide_reply. unfold or_else at 1.
  unfold or_else at 1 in Hf. clear Hl Hl0 He.
  destruct (gates now request ctx h0) as [[reply|] h1]; [done|].
  destruct (pipeline ctx h1) as [[reply|] h2]; [done|]. cbn [fst snd] in *.
  unfold frame in Hf. destruct_and!. rewrite !stage_resolve_screen. cbn [with_filter h_resolver h_odoh].
  replace (h_resolver h2) with (h_resolver h) by done. replace (h_odoh h2) with (h_odoh h) by done.
  by apply screen_agree.
Qed.

Lemma served_handle_request now request h :
  sent_as request (served request (now, h) h) h =
    (handle_request net rand validate hash_qname now request h).1.
Proof.
  pose proof (handle_request_reply net rand validate hash_qname now request h) as Hr.
  rewrite served_request_reply. destruct (request_reply _ _ _ _ _ _) as [reply h1]. by rewrite Hr.
Qed.

(** ** Views

    A moment for each cell a request reads. *)
Record picks := {
  pk_policy : moment;
  pk_limiter : moment;
  pk_authority : moment;
  pk_rewrites : moment;
  pk_blocklist : moment;
  pk_load : moment;
  pk_answer : moment;
  pk_screen : moment;
}.

(** The clocks and the handler those moments make up: the wall clock is that of the policy,
    the monotonic one that of the limiter, and the resolver's own cells are those of the
    resolver that was loaded. *)
Definition view (k : picks) : Now * DnsHandler :=
  let h (m : moment) := sh_handler m.2 in
  ({| now_instant := now_instant (pk_limiter k).1; now_unix := now_unix (pk_policy k).1 |},
   {| h_authority := h_authority (h (pk_authority k)); h_blocklist := h_blocklist (h (pk_blocklist k));
      h_resolver := h_resolver (h (pk_load k)); h_rewrites := h_rewrites (h (pk_rewrites k));
      h_policy_by_ip := h_policy_by_ip (h (pk_policy k));
      h_sinkhole_ip := h_sinkhole_ip (h (pk_blocklist k));
      h_rate_limiter := h_rate_limiter (h (pk_limiter k)); h_metrics := h_metrics (h (pk_policy k));
      h_query_log := h_query_log (h (pk_policy k)); h_audit := h_audit (h (pk_policy k));
      h_odoh := odoh_of (sh_epoch (pk_load k).2) (pk_answer k).2 |}).

Definition screening (k : picks) : DnsHandler := sh_handler (pk_screen k).2.

Definition picked (k : picks) : list moment :=
  [pk_policy k; pk_limiter k; pk_authority k; pk_rewrites k; pk_blocklist k; pk_load k;
   pk_answer k; pk_screen k].
(** Moments taken from a list one after another, each as often as one likes. *)
Inductive in_order : list moment → list moment → Prop :=
| in_order_nil ms : in_order ms []
| in_order_take m ms l : in_order (m :: ms) l → in_order (m :: ms) (m :: l)
| in_order_skip m ms l : in_order ms l → in_order (m :: ms) l.

(** The moments of the cells are those of a flight, in the order of its stages. *)
Definition drawn (ms : list moment) (k : picks) : Prop := in_order ms (picked k).

Definition pick_all (m : moment) : picks := Build_picks m m m m m m m m.

(** A stage that is passed at a moment picks it for its cell, and for those of the stages
    that are left. *)
Definition pick (g : gate) (m : moment) (k : picks) : picks :=
  let '(Build_picks p l a w b r o s) := k in
  match g with
  | RateLimit => Build_picks p m m m m m m m
  | Authorities => Build_picks p l m m m m m m
  | Rewrites => Build_picks p l a m m m m m
  | Blocklist => Build_picks p l a w m m m m
  | _ => k
  end.
Definition pick_load (m : moment) (k : picks) : picks :=
  let '(Build_picks p l a w b _ _ _) := k in Build_picks p l a w b m m m.
Definition pick_answer (m : moment) (k : picks) : picks :=
  let '(Build_picks p l a w b r _ _) := k in Build_picks p l a w b r m m.
Definition pick_screen (m : moment) (k : picks) : picks :=
  let '(Build_picks p l a w b r o _) := k in Build_picks p l a w b r o m.

Lemma in_order_elem ms l m : in_order ms l → m ∈ l → m ∈ ms.
Proof.
  induction 1 as [ms|m' ms l Ho IH|m' ms l Ho IH]; intros Hm.
  - by apply not_elem_of_nil in Hm.
  - apply elem_of_cons in Hm as [->|Hm]; [by left|by apply IH].
  - right. by apply IH.
Qed.

Lemma in_order_last ms m n : in_order (ms ++ [m]) (replicate n m).
Proof.
  induction ms as [|m' ms IH]; [|by apply in_order_skip].
  induction n as [|n IH]; [constructor|]. by apply in_order_take.
Qed.

Lemma in_order_more ms l m j n :
  in_order ms l → in_order (ms ++ [m]) (take j l ++ replicate n m).
Proof.
  intros Ho. revert j. induction Ho as [ms|m' ms l Ho IH|m' ms l Ho IH]; intros j.
  - rewrite take_nil. apply in_order_last.
  - destruct j as [|j]; [apply in_order_last|]. apply in_order_take, IH.
  - apply in_order_skip, IH.
Qed.

Lemma drawn_more ms m k k' j :
  drawn ms k → picked k' = take j (picked k) ++ replicate (8 - j) m → drawn (ms ++ [m]) k'.
Proof. unfold drawn. intros Hk ->. by apply in_order_more. Qed.

Lemma drawn_all ms m : drawn (ms ++ [m]) (pick_all m).
Proof. exact (in_order_last ms m 8). Qed.

Lemma drawn_snoc ms m k : drawn ms k → drawn (ms ++ [m]) k.
Proof. intros Hk. by apply (drawn_more ms m k k 8). Qed.

Lemma drawn_pick ms m g k : drawn ms k → drawn (ms ++ [m]) (pick g m k).
Proof.
  intros Hk. destruct g; try (by destruct k; apply drawn_snoc);
    [apply (drawn_more ms m k _ 1)|apply (drawn_more ms m k _ 2)|apply (drawn_more ms m k _ 3)
    |apply (drawn_more ms m k _ 4)]; done || by destruct k.
Qed.
Lemma drawn_load ms m k : drawn ms k → drawn (ms ++ [m]) (pick_load m k).
Proof. intros Hk. apply (drawn_more ms m k _ 5); [done|by destruct k]. Qed.
Lemma drawn_answer ms m k : drawn ms k → drawn (ms ++ [m]) (pick_answer m k).
Proof. intros Hk. apply (drawn_more ms m k _ 6); [done|by destruct k]. Qed.
Lemma drawn_screen ms m k : drawn ms k → drawn (ms ++ [m]) (pick_screen m k).
Proof. intros Hk. apply (drawn_more ms m k _ 7); [done|by destruct k]. Qed.

(** The place of a gate. *)
Definition place (g : gate) : nat :=
  match g with
  | RateLimit => 0 | OpCodeOf => 1 | EdnsVersion => 2 | AnyQtype => 3 | Class => 4
  | Schedules => 5 | Zones => 6 | Authorities => 7 | Rewrites => 8 | Blocklist => 9
  end.

Lemma place_of i g : all_gates !! i = Some g → place g = i.
Proof. intros Hg. do 10 (destruct i as [|i]; [by simplify_eq/=|]). done. Qed.

Lemma place_before gs g todo g' :
  gs ++ g :: todo = all_gates → g' ∈ gs → (place g' < place g)%nat.
Proof.
  intros Hall [i Hi]%list_elem_of_lookup. pose proof (lookup_lt_Some _ _ _ Hi) as Hlt.
  rewrite (place_of i g'), (place_of (length gs) g); [done|rewrite <- Hall..].
  - by rewrite list_lookup_middle.
  - by rewrite lookup_app_l.
Qed.

(** A pick shows the gate what it found, and those before it what they had. *)
Lemma says_pick request ctx g m k :
  says request ctx g (view (pick g m k)) = says request ctx g (m.1, sh_handler m.2).
Proof. apply says_agree. by destruct k, g. Qed.

Lemma says_pick_other request ctx g g' m k :
  (place g' < place g)%nat →
  says request ctx g' (view (pick g m k)) = says request ctx g' (view k).
Proof. intros Hg. apply says_agree. destruct k, g, g'; cbn in Hg; try done; lia. Qed.

(** ** What a flight has seen so far explains where it is *)

Definition passed (request : Request) (ctx : QueryCtx) (k : picks) (gs : list gate) : Prop :=
  (∃ q, req_query request = Some q ∧ ctx = query_ctx (view k).2 (view k).1 request q)
  ∧ ∀ g, g ∈ gs → says request ctx g (view k) = None.

Definition concluded (ms : list moment) (request : Request) (who : Attribution) (reply : Reply)
    (k : picks) : Prop :=
  drawn ms k ∧ who = attributed request (view k) ∧ reply = served request (view k) (screening k).

Definition explained (ms : list moment) (request : Request) (p : progress) : Prop :=
  match p with
  | Arrived r => r = request
  | AtGate r ctx todo =>
      r = request ∧ ∃ k gs, drawn ms k ∧ passed request ctx k gs ∧ gs ++ todo = all_gates
  | Asking r ctx resolver epoch =>
      r = request ∧ ∃ k, drawn ms k ∧ passed request ctx k all_gates
        ∧ resolver = h_resolver (view k).2 ∧ epoch = sh_epoch (pk_load k).2
  | Answered r ctx res =>
      r = request ∧ ∃ k, drawn ms k ∧ passed request ctx k all_gates
        ∧ res = (resolve net rand validate (h_resolver (view k).2) (qname ctx) (qtype_label ctx)
                   (h_odoh (view k).2)).1
  | Decided r who reply | Logged r who reply =>
      r = request ∧ ∃ k, concluded ms request who reply k
  | Sent r who reply resp =>
      r = request ∧ ∃ k, concluded ms request who reply k
        ∧ resp = sent_as request reply (view k).2
  end.

Lemma query_ctx_pick g m k request q :
  query_ctx (view (pick g m k)).2 (view (pick g m k)).1 request q =
    query_ctx (view k).2 (view k).1 request q.
Proof. by destruct k, g. Qed.

Lemma attribution_attributed request ctx k gs :
  passed request ctx k gs → attribution ctx = attributed request (view k).
Proof. intros [(q & Hq & ->) _]. unfold attributed, log_name. by rewrite Hq. Qed.

Lemma first_reply_app request ctx gs gs' v :
  (∀ g, g ∈ gs → says request ctx g v = None) →
  first_reply request ctx (gs ++ gs') v = first_reply request ctx gs' v.
Proof.
  intros Hgs. unfold first_reply. induction gs as [|g gs IH]; [done|]. cbn [app foldr].
  rewrite Hgs by (by left). apply IH. intros. apply Hgs. by right.
Qed.

Lemma served_first request ctx k gs b :
  passed request ctx k gs →
  served request (view k) b =
    default (stage_resolve net rand validate ctx (with_filter b (view k).2)).1
      (first_reply request ctx all_gates (view k)).
Proof.
  intros [(q & Hq & ->) _]. unfold served. rewrite Hq. cbv zeta.
  set (ctx := query_ctx _ _ _ _). destruct (local_first (view k).1 request ctx (view k).2) as [-> _].
  by destruct (view k).
Qed.

(** A gate's step. *)
Lemma explained_gate ms m request ctx g todo :
  explained ms request (AtGate request ctx (g :: todo)) →
  explained (ms ++ [m]) request
    (match says request ctx g (m.1, sh_handler m.2) with
     | Some reply => Decided request (attribution ctx) reply
     | None => AtGate request ctx todo
     end).
Proof.
  intros (_ & k & gs & Hd & Hp & Hall).
  assert (drawn (ms ++ [m]) (pick g m k)) as Hd' by (by apply drawn_pick).
  assert (passed request ctx (pick g m k) gs) as Hp'.
  { destruct Hp as [(q & Hq & ->) Hs]. split; [exists q; by rewrite query_ctx_pick|].
    intros g' Hg'. rewrite says_pick_other by (by eapply place_before). by apply Hs. }
  pose proof (says_pick request ctx g m k) as Hsay. destruct (says _ _ g (m.1, _)) as [reply|].
  - split; [done|]. exists (pick g m k). split; [done|]. split; [by eapply attribution_attributed|].
    rewrite (served_first _ _ _ _ _ Hp'), <- Hall, (first_reply_app _ _ gs) by apply Hp'.
    cbn [first_reply foldr]. by rewrite Hsay.
  - split; [done|]. exists (pick g m k), (gs ++ [g]). split; [done|]. split; [|by rewrite <- app_assoc].
    split; [apply Hp'|]. intros g' [Hin| ->%list_elem_of_singleton]%elem_of_app; [by apply Hp'|done].
Qed.

(** Picks of the resolver, its answer and the screening do not show at the gates. *)
Lemma passed_agree request ctx k k' gs :
  passed request ctx k gs →
  (∀ g, agree g (view k) (view k')) → now_unix (view k').1 = now_unix (view k).1 →
  h_policy_by_ip (view k').2 = h_policy_by_ip (view k).2 → passed request ctx k' gs.
Proof.
  intros [(q & Hq & ->) Hs] Ha Hu Hpol. split.
  - exists q. split; [done|]. unfold query_ctx. f_equal. unfold resolve_policy. by rewrite Hpol, Hu.
  - intros g Hg. rewrite (says_agree request _ g (view k)) by apply Ha. by apply Hs.
Qed.

Lemma explained_load ms m request ctx :
  explained ms request (AtGate request ctx []) →
  explained (ms ++ [m]) request
    (Asking request ctx (h_resolver (sh_handler m.2)) (sh_epoch m.2)).
Proof.
  intros (_ & k & gs & Hd & Hp & Hall). rewrite app_nil_r in Hall. subst gs. split; [done|].
  exists (pick_load m k). split; [by apply drawn_load|].
  split; [|by destruct k]. apply (passed_agree _ _ k); [done| |by destruct k..].
  intros g. by destruct k, g.
Qed.

Lemma explained_answer ms m request ctx resolver epoch :
  explained ms request (Asking request ctx resolver epoch) →
  explained (ms ++ [m]) request
    (Answered request ctx
       (resolve net rand validate resolver (qname ctx) (qtype_label ctx) (odoh_of epoch m.2)).1).
Proof.
  intros (_ & k & Hd & Hp & -> & ->). split; [done|].
  exists (pick_answer m k). split; [by apply drawn_answer|].
  split; [|by destruct k]. apply (passed_agree _ _ k); [done| |by destruct k..].
  intros g. by destruct k, g.
Qed.

Lemma explained_screen ms m request ctx res :
  explained ms request (Answered request ctx res) →
  explained (ms ++ [m]) request
    (Decided request (attribution ctx) (screen ctx res (sh_handler m.2)).1).
Proof.
  intros (_ & k & Hd & Hp & ->). split; [done|].
  exists (pick_screen m k). split; [by apply drawn_screen|].
  assert (view (pick_screen m k) = view k) as -> by (by destruct k).
  split; [by eapply attribution_attributed|].
  rewrite (served_first _ _ _ _ _ Hp). rewrite <- (app_nil_r all_gates), first_reply_app by apply Hp.
  cbn [first_reply foldr default]. rewrite stage_resolve_screen. symmetry. by destruct k; apply screen_agree.
Qed.

Lemma concluded_snoc ms m request who reply k :
  concluded ms request who reply k → concluded (ms ++ [m]) request who reply k.
Proof. intros (Hd & Hrest). split; [by apply drawn_snoc|done]. Qed.

Lemma explained_step ms m request p :
  explained ms request p → explained (ms ++ [m]) request (advance m.1 p m.2).1.
Proof.
  destruct p as [r|r ctx todo|r ctx re e|r ctx res|r who reply|r who reply|r who reply resp];
    intros He; pose proof He as Hr; cbn [explained] in Hr;
    try (match type of Hr with _ ∧ _ => destruct Hr as [-> Hr] end); cbn [advance].
  - subst r. destruct (req_query request) as [q|] eqn:Hq; cbn [fst].
    + split; [done|]. exists (pick_all m), []. split; [apply drawn_all|]. split; [|done].
      split; [by exists q|]. intros g Hg. by apply not_elem_of_nil in Hg.
    + split; [done|]. exists (pick_all m). split; [apply drawn_all|].
      unfold attributed, log_name, malformed, served. by rewrite Hq.
  - destruct todo as [|g todo]; [by apply (explained_load _ m) in He|].
    apply (explained_gate _ m) in He. unfold says in He. cbn [fst snd] in He.
    by destruct (gate_stage _ _ _ _ _) as [[reply|] h].
  - apply (explained_answer _ m) in He. by destruct (resolve _ _ _ _ _ _ _) as [res st].
  - apply (explained_screen _ m) in He. by destruct (screen _ _ _) as [reply h].
  - destruct Hr as [k Hk]. split; [done|]. exists k. by apply concluded_snoc.
  - destruct Hr as [k Hk]. unfold respond. cbn [fst]. split; [done|]. exists k. split; [by apply concluded_snoc|done].
  - destruct Hr as (k & Hk & ->). split; [done|]. exists k. split; [by apply concluded_snoc|done].
Qed.

Lemma solo_explained ms request p ms' :
  explained ms request p → explained (ms ++ ms') request (solo ms' p).
Proof.
  revert ms p. induction ms' as [|m ms' IH]; intros ms p He; [by rewrite app_nil_r|].
  apply (explained_step _ m), IH in He. rewrite <- app_assoc in He. exact He.
Qed.

(** ** Steps of flights keep the cells *)

Lemma gate_stage_same now request ctx g : Daemon.serves_same (gate_stage now request ctx g).
Proof.
  destruct g; cbn [gate_stage]; [apply Daemon.gate_rate_limit_same|..]; intros h.
  - by constructor.
  - by constructor.
  - unfold gate_any_qtype. case_match; [|by constructor]. case_match; by constructor.
  - by constructor.
  - unfold gate_schedule. case_match; by constructor.
  - unfold gate_zones. case_match; by constructor.
  - unfold gate_authority. case_match; by constructor.
  - unfold gate_rewrite. case_match; by constructor.
  - unfold gate_blocklist. cbv zeta. destruct (negb _ && _), (_ && _); by constructor.
Qed.

Lemma screen_same ctx res h : Daemon.same_service h (screen ctx res h).2.
Proof.
  destruct res as [out|e]; [|by constructor]. unfold screen. cbv zeta.
  destruct (_ && _); [by constructor|]. destruct (_ && _); by constructor.
Qed.

Lemma advance_same now p sh :
  Daemon.same_service (sh_handler sh) (sh_handler (advance now p sh).2).
Proof.
  destruct p as [r|r ctx [|g todo]|r ctx re e|r ctx res|r who reply|r who reply|r who reply resp];
    cbn [advance].
  - destruct (req_query r); by constructor.
  - by constructor.
  - pose proof (gate_stage_same now r ctx g (sh_handler sh)) as Hs.
    by destruct (gate_stage _ _ _ _ _) as [[reply|] h].
  - destruct (resolve _ _ _ _ _ _ _) as [res st]. unfold store_odoh. cbn [snd]. case_decide; by constructor.
  - pose proof (screen_same ctx res (sh_handler sh)) as Hs. by destruct (screen _ _ _) as [reply h].
  - by constructor.
  - unfold respond. by constructor.
  - by constructor.
Qed.

Lemma moments_keep {A} (f : DnsHandler → A) id occs c :
  (∀ h h', Daemon.same_service h h' → f h' = f h) →
  (∀ u h, Reload u ∈ occs → f (handler_update u h) = f h) →
  ∀ m, m ∈ moments id occs c → f (sh_handler m.2) = f (sh_handler (shared c)).
Proof.
  intros Hs. revert c. induction occs as [|o occs IH]; intros c Hu m Hm; [by apply not_elem_of_nil in Hm|].
  assert (f (sh_handler (shared (cstep c o))) = f (sh_handler (shared c))) as Hc.
  { destruct o as [id' request|id' now|u]; cbn [cstep].
    - by destruct (flights c !! id').
    - destruct (flights c !! id') as [p|]; [|done]. pose proof (advance_same now p (shared c)) as Ha.
      destruct (advance now p (shared c)) as [p' sh]. by apply Hs.
    - cbn [shared]. destruct u; apply Hu; left. }
  cbn [moments] in Hm. apply elem_of_app in Hm as [Hm|Hm].
  - destruct o as [|id' now|]; try by apply not_elem_of_nil in Hm.
    case_decide; [|by apply not_elem_of_nil in Hm]. by apply list_elem_of_singleton in Hm as ->.
  - rewrite <- Hc. apply IH; [|done]. intros u h Hin. apply Hu. by right.
Qed.

(** ** Any request in any schedule *)

Lemma served_same_filter request v b :
  h_blocklist b = h_blocklist v.2 → h_sinkhole_ip b = h_sinkhole_ip v.2 →
  served request v b = served request v v.2.
Proof.
  intros Hb Hs. unfold served. assert (with_filter b v.2 = with_filter v.2 v.2) as ->; [|done].
  unfold with_filter. by rewrite Hb, Hs.
Qed.

Lemma views_settled id occs c k :
  drawn (moments id occs c) k → (∀ e, Reload (NewBlocklist e) ∉ occs) →
  h_blocklist (screening k) = h_blocklist (view k).2
  ∧ h_sinkhole_ip (screening k) = h_sinkhole_ip (view k).2.
Proof.
  intros Hd Hn.
  assert (∀ m, m ∈ moments id occs c →
    (h_blocklist (sh_handler m.2), h_sinkhole_ip (sh_handler m.2)) =
    (h_blocklist (sh_handler (shared c)), h_sinkhole_ip (sh_handler (shared c)))) as Hk.
  { apply (moments_keep (λ h, (h_blocklist h, h_sinkhole_ip h))).
    - intros h h' []. congruence.
    - intros [] h Hin; try done. by destruct (Hn e). }
  pose proof (Hk (pk_screen k)) as H1'. pose proof (Hk (pk_blocklist k)) as H2'.
  unfold screening, view. cbn [snd h_blocklist h_sinkhole_ip].
  assert (pk_screen k ∈ picked k ∧ pk_blocklist k ∈ picked k) as [Hs Hb].
  { unfold picked. split; set_solver. }
  specialize (H1' (in_order_elem _ _ _ Hd Hs)). specialize (H2' (in_order_elem _ _ _ Hd Hb)).
  rewrite <- H2' in H1'. by simplify_eq H1'.
Qed.

(** C3. Requests and reloads may interleave in any way.  A request that is given its sixteen
    steps is sent a response, whatever other requests and reloads do meanwhile; and there
    are moments of its own, one for each cell it reads and in the order of its stages, such
    that it is served as the whole handler of these moments serves it, but for the blocklist
    that screens an answer of the resolver, which may be a later one than that of the
    question.  A resolver that was loaded is used to the end, with its own cells.  When no
    reload of the lists comes in between, the response is the one [handle_request] gives in
    a single step. *)
Theorem interleaved_requests_served (id : nat) (request : Request) (occs : list occurrence)
    (c : Concurrent) :
  flights c !! id = Some (Arrived request) →
  let ms := moments id occs c in
  (lifetime ≤ length ms)%nat →
  ∃ k reply resp,
    flights (schedule occs c) !! id = Some (Sent request (attributed request (view k)) reply resp)
    ∧ drawn ms k
    ∧ reply = served request (view k) (screening k)
    ∧ resp = sent_as request reply (view k).2
    ∧ ((∀ e, Reload (NewBlocklist e) ∉ occs) →
       resp = (handle_request net rand validate hash_qname (view k).1 request (view k).2).1).
Proof.
  intros Hid ms Hn. rewrite (schedule_flight _ _ _ _ Hid). fold ms.
  destruct (solo_completes ms (Arrived request) Hn) as (r & who & reply & resp & Hs).
  pose proof (solo_explained [] request (Arrived request) ms eq_refl) as He. rewrite Hs in *.
  destruct He as (-> & k & (Hd & -> & Hreply) & ->). cbn [app] in Hd.
  exists k, reply, (sent_as request reply (view k).2). do 4 (split; [done|]). intros Hb.
  destruct (views_settled _ _ _ _ Hd Hb) as [Hbl Hsink].
  rewrite Hreply, (served_same_filter _ _ _ Hbl Hsink), <- served_handle_request. by destruct (view k).
Qed.

(** A client that is denied whenever its request takes a step is rejected without a record,
    whatever is reloaded meanwhile. *)
Theorem interleaved_denied (id : nat) (request : Request) (q : QueryInfo) (occs : list occurrence)
    (c : Concurrent) r who reply resp :
  flights c !! id = Some (Arrived request) → req_query request = Some q →
  (∀ m, m ∈ moments id occs c →
     denied (resolve_policy (sh_handler m.2) (now_unix m.1) (req_src request))
       (canonical_qname (name_to_string (q_name q)))) →
  flights (schedule occs c) !! id = Some (Sent r who reply resp) →
  resp_answers resp = [] ∧ rejection (resp_code resp).
Proof.
  intros Hid Hq Hden Hs. rewrite (schedule_flight _ _ _ _ Hid) in Hs. injection Hs as Hs.
  pose proof (solo_explained [] request (Arrived request) (moments id occs c) eq_refl) as He.
  rewrite Hs in He. destruct He as (-> & k & (Hd & _ & Hreply) & ->).
  assert (denied (resolve_policy (view k).2 (now_unix (view k).1) (req_src request))
    (canonical_qname (name_to_string (q_name q)))) as Hk.
  { apply (Hden (pk_policy k)), (in_order_elem _ (picked k)); [exact Hd|by left]. }
  assert (∃ rc, reply = reject rc ∧ rejection rc) as (rc & -> & Hrc).
  { rewrite Hreply. unfold served. rewrite Hq. cbv zeta. set (ctx := query_ctx _ _ _ _). unfold or_else.
    pose proof (gates_reject (view k).1 request ctx (view k).2) as Hg.
    destruct (gates _ _ _ _) as [[reply'|] h1]; [exact Hg|].
    destruct (policy_gates_denied ctx h1 Hk) as (h2 & Hp & _).
    rewrite (pipeline_policy ctx h1 _ _ Hp). exists Refused. by split; [|left]. }
  split; [|exact Hrc]. unfold sent_as, respond. cbn [fst reject answers resp_answers response length shed].
  by case_match.
Qed.

(** A request sees a reload that came before it: a cell that is not reloaded while the
    request is under way is the one there was when it arrived. *)
Theorem views_current (id : nat) (occs : list occurrence) (c : Concurrent) (k : picks) :
  drawn (moments id occs c) k →
  let h := sh_handler (shared c) in
  ((∀ x, Reload (NewPolicies x) ∉ occs) → h_policy_by_ip (view k).2 = h_policy_by_ip h)
  ∧ ((∀ x, Reload (NewAuthority x) ∉ occs) → h_authority (view k).2 = h_authority h)
  ∧ ((∀ x, Reload (NewRewrites x) ∉ occs) → h_rewrites (view k).2 = h_rewrites h)
  ∧ ((∀ x, Reload (NewBlocklist x) ∉ occs) → h_blocklist (view k).2 = h_blocklist h)
  ∧ ((∀ x, Reload (NewResolver x) ∉ occs) → h_resolver (view k).2 = h_resolver h).
Proof.
  intros Hd. assert (∀ m, m ∈ picked k → m ∈ moments id occs c) as Hm by (intros m; by apply in_order_elem).
  unfold picked in Hm. cbn [view snd h_policy_by_ip h_authority h_rewrites h_blocklist h_resolver].
  split_and!; intros Hn;
    [apply (moments_keep h_policy_by_ip id occs c)|apply (moments_keep h_authority id occs c)
    |apply (moments_keep h_rewrites id occs c)|apply (moments_keep h_blocklist id occs c)
    |apply (moments_keep h_resolver id occs c)];
    try (by intros ?? []); try (by apply Hm; set_solver);
    intros [] h' Hin; try done; by destruct (Hn _ Hin).
Qed.
End concurrent.

(** ** Witnesses: a client whose policy is reloaded while it asks

    Client 10.0.0.9 may ask for [lan] names only, and asks twice for another one; the
    policies are dropped once the first request has read its own. *)

#[local] Existing Instances demo_hickory demo_server demo_upstream demo_odoh ascii_only
  RegexRules.literal_regex.

Definition demo_start : Concurrent :=
  {| shared := shared (serving demo_handler);
     flights := {[ 1%nat := Arrived (demo_request 167772169 "www.example."%rs) ]} |}.

Definition demo_interleaving : list occurrence :=
  [Advance 1 demo_now; Reload (NewPolicies []);
   Arrive 2 (demo_request 167772169 "www.example."%rs)]
  ++ concat (replicate 12 [Advance 2 demo_now; Advance 1 demo_now])
  ++ [Reload (NewResolver demo_resolver)] ++ replicate 4 (Advance 1 demo_now)
  ++ replicate 4 (Advance 2 demo_now).

Definition demo_schedule (occs : list occurrence) : Concurrent :=
  schedule demo_net demo_draws demo_validate QueryLog.demo_hash occs demo_start.

(** What was sent to a flight: the code, and how many records. *)
Definition sent_to (id : nat) (c : Concurrent) : option (ResponseCode * nat) :=
  p ← flights c !! id;
  match p with
  | Sent _ _ _ resp => Some (resp_code resp, length (resp_answers resp))
  | _ => None
  end.

(** The first request is refused by the policy it read, the second is answered, by the
    resolver it loaded before another one was stored. *)
Example demo_interleaved :
  sent_to 1 (demo_schedule demo_interleaving) = Some (Refused, 0%nat)
  ∧ sent_to 2 (demo_schedule demo_interleaving) = Some (NoError, 1%nat)
  ∧ sh_epoch (shared (demo_schedule demo_interleaving)) = 1%nat.
Proof. split; [|split]; vm_compute; reflexivity. Qed.

Lemma interleaved_requests_served_witness :
  let ms := moments demo_net demo_draws demo_validate QueryLog.demo_hash 1 demo_interleaving demo_start in
  let request := demo_request 167772169 "www.example."%rs in
  (lifetime ≤ length ms)%nat
  ∧ ∃ k reply resp,
      flights (demo_schedule demo_interleaving) !! 1%nat
        = Some (Sent request (attributed request (view k)) reply resp)
      ∧ drawn ms k
      ∧ resp = (handle_request demo_net demo_draws demo_validate QueryLog.demo_hash
                  (view k).1 request (view k).2).1.
Proof.
  cbv zeta. split; [vm_compute; repeat constructor|].
  destruct (interleaved_requests_served demo_net demo_draws demo_validate QueryLog.demo_hash 1
    (demo_request 167772169 "www.example."%rs) demo_interleaving demo_start)
    as (k & reply & resp & Hs & Hd & _ & _ & Hr).
  - reflexivity.
  - vm_compute. repeat constructor.
  - exists k, reply, resp. split; [exact Hs|]. split; [exact Hd|]. apply Hr.
    intros e Hin. cbn in Hin. repeat (apply elem_of_cons in Hin as [Hin|Hin]; [discriminate Hin|]).
    by apply not_elem_of_nil in Hin.
Defined.
