(* ===== verification/Accounting.v ===== *)
(** * Accounting: what a schedule leaves in the logs and counters

    Whatever requests and reloads do at the same time ([Concurrent]), every request has one
    entry in the query log, its audit line if its policy asks for one, and one count of
    the code that was sent. *)

From S2P Require Import Prelude RustStr Net Config Record Hickory Answers Odoh Resolver Handler.
From S2P Require Engine Authority Rewrite RateLimiter QueryLog Client RegexRules Schedule.
From S2P Require Import Concurrent.

Section accounting.
Context `{Hickory} `{!Server} `{!Upstream} `{!OdohLib} `{Unicode} `{RegexRules.RegexCrate}.
Context (net : list action → action → reply) (rand : list action → draw → Z).
Context (validate : (bytes → OdohState → result OdohError bytes * OdohState) →
  HName → RecordType → OdohState → option (list RR * ResponseCode) * OdohState).
Context (hash_qname : str → Z).

Abbreviation advance := (Concurrent.advance net rand validate hash_qname).
Abbreviation cstep := (Concurrent.cstep net rand validate hash_qname).
Abbreviation schedule := (Concurrent.schedule net rand validate hash_qname).

(** ** The accounts of a schedule *)

Definition line_of (p : progress) : option (Attribution * Reply) :=
  match p with
  | Logged _ who reply | Sent _ who reply _ => Some (who, reply)
  | _ => None
  end.
Definition label_of (p : progress) : option str :=
  match p with
  | Sent _ _ _ resp => Some (rcode_metric_label (resp_code resp))
  | _ => None
  end.

(** One more entry, for a flight at a time. *)
Definition log_line (fl : gmap nat progress) (log : QueryLog.QueryLog) (l : nat * Z) :
    QueryLog.QueryLog :=
  match fl !! l.1 ≫= line_of with
  | Some (who, reply) =>
      QueryLog.record hash_qname log l.2 (at_client who) (at_name who) (at_label who)
        (rcode_low (code reply)) (served_by reply)
  | None => log
  end.
Definition audit_line (fl : gmap nat progress) (l : nat * Z) : list AuditLine :=
  match fl !! l.1 ≫= line_of with
  | Some (who, reply) =>
      if pd_log_all_queries (at_policy who)
      then [{| audit_client := Client.anonymized (at_client who);
               audit_qname_hash := hash_qname (at_name who); audit_qtype := at_label who;
               audit_rcode := rcode_low (code reply); audit_served_by := served_by reply |}]
      else []
  | None => []
  end.
Definition sent_with (fl : gmap nat progress) (label : str) (ids : list nat) : Z :=
  Z.of_nat (length (filter (λ id, fl !! id ≫= label_of = Some label) ids)).

(** The log, the audit and the counters of a handler that started as [h], by the flights
    that were logged, in order and with their times. *)
Record accounted (h : DnsHandler) (c : Concurrent) (lines : list (nat * Z)) : Prop := {
  ac_once : NoDup lines.*1;
  ac_logged : ∀ id, id ∈ lines.*1 ↔ is_Some (flights c !! id ≫= line_of);
  ac_log : h_query_log (sh_handler (shared c)) = foldl (log_line (flights c)) (h_query_log h) lines;
  ac_audit : h_audit (sh_handler (shared c)) = h_audit h ++ (lines ≫= audit_line (flights c));
  ac_counts : ∀ label,
    h_metrics (sh_handler (shared c)) (ResponsesByRcode label) =
      h_metrics h (ResponsesByRcode label) + sent_with (flights c) label lines.*1;
  ac_codes : ∀ id request who reply resp,
    flights c !! id = Some (Sent request who reply resp) → resp_code resp = code reply;
}.

Lemma log_line_ext fl fl' log lines :
  (∀ id, id ∈ lines.*1 → fl' !! id ≫= line_of = fl !! id ≫= line_of) →
  foldl (log_line fl') log lines = foldl (log_line fl) log lines
  ∧ lines ≫= audit_line fl' = lines ≫= audit_line fl.
Proof.
  revert log. induction lines as [|l lines IH]; intros log Hl; [done|]. cbn [foldl].
  rewrite !bind_cons. unfold log_line at 2 4, audit_line at 1 3. rewrite Hl by (by left).
  split; [|f_equal]; apply IH; [|exact log|]; intros; apply Hl; by right.
Qed.

Lemma sent_filter_ext (fl fl' : gmap nat progress) (label : str) (ids : list nat) :
  (∀ id, id ∈ ids → fl' !! id ≫= label_of = fl !! id ≫= label_of) →
  filter (λ id, fl' !! id ≫= label_of = Some label) ids =
    filter (λ id, fl !! id ≫= label_of = Some label) ids.
Proof.
  intros Hl. induction ids as [|id ids IH]; [done|].
  rewrite !filter_cons, Hl by (by left). rewrite IH; [done|]. intros. apply Hl. by right.
Qed.

Lemma sent_with_ext fl fl' label ids :
  (∀ id, id ∈ ids → fl' !! id ≫= label_of = fl !! id ≫= label_of) →
  sent_with fl' label ids = sent_with fl label ids.
Proof. intros Hl. unfold sent_with. by rewrite (sent_filter_ext fl fl'). Qed.

(** What changes no flight's line and no counter. *)
Lemma accounted_quiet h c c' lines :
  accounted h c lines → reply_frame (sh_handler (shared c)) (sh_handler (shared c')) →
  (∀ id, flights c' !! id ≫= line_of = flights c !! id ≫= line_of
         ∧ flights c' !! id ≫= label_of = flights c !! id ≫= label_of) →
  (∀ id request who reply resp, flights c' !! id = Some (Sent request who reply resp) →
     resp_code resp = code reply) →
  accounted h c' lines.
Proof.
  intros [Ho Hlg Hl Ha Hc Hcd] (Hql & Hau & Hm) Hf Hcd'.
  destruct (log_line_ext (flights c) (flights c') (h_query_log h) lines) as [Hle Hae].
  { intros id _. apply Hf. }
  constructor; [done| | | | |done].
  - intros id. destruct (Hf id) as [-> _]. apply Hlg.
  - by rewrite Hql, Hle.
  - by rewrite Hau, Hae.
  - intros label. rewrite (sent_with_ext (flights c)) by (intros; apply Hf). rewrite <- Hc. apply Hm.
Qed.

(** The steps of a flight but for the last two. *)
Lemma gate_stage_reply_frame now request ctx g h :
  reply_frame h (gate_stage now request ctx g h).2.
Proof.
  apply frame_reply_frame; [apply gate_stage_frame|]. intros l. unfold keeps.
  destruct g; cbn [gate_stage]; try done.
  - unfold gate_rate_limit. by destruct (RateLimiter.check _ _ _) as [[] r].
  - unfold gate_any_qtype. case_match; [|done]. by case_match.
  - unfold gate_schedule. by case_match.
  - unfold gate_zones. by case_match.
  - unfold gate_authority. by case_match.
  - unfold gate_rewrite. by case_match.
  - unfold gate_blocklist. cbv zeta. destruct (negb _ && _), (_ && _); done.
Qed.

Lemma advance_quiet now p sh :
  line_of p = None → (∀ request who reply, p ≠ Decided request who reply) →
  reply_frame (sh_handler sh) (sh_handler (advance now p sh).2)
  ∧ line_of (advance now p sh).1 = None ∧ label_of (advance now p sh).1 = None
  ∧ ∀ request who reply resp, (advance now p sh).1 ≠ Sent request who reply resp.
Proof.
  intros Hl Hd. destruct p as [r|r ctx [|g todo]|r ctx re e|r ctx res|r who reply|r who reply|r who reply resp];
    cbn [Concurrent.advance]; try done; try (by destruct (Hd r who reply)).
  - by destruct (req_query r).
  - pose proof (gate_stage_reply_frame now r ctx g (sh_handler sh)) as Hf.
    by destruct (gate_stage _ _ _ _ _) as [[reply|] h].
  - destruct (resolve _ _ _ _ _ _ _) as [res st]. unfold store_odoh. cbn [fst snd]. by case_decide.
  - destruct res as [out|e]; [|done]. unfold screen. cbv zeta. do 2 (destruct (_ && _); [done|]). done.
Qed.

Lemma flights_insert_other {A} (f : progress → option A) (fl : gmap nat progress) id id' p :
  (id' = id → fl !! id ≫= f = f p) → <[id := p]> fl !! id' ≫= f = fl !! id' ≫= f.
Proof.
  intros Hp. destruct (decide (id' = id)) as [->|Hne].
  - rewrite lookup_insert_eq. symmetry. by apply Hp.
  - by rewrite lookup_insert_ne by done.
Qed.

(** The step that logs. *)
Lemma accounted_log h c lines id now request who reply :
  accounted h c lines → flights c !! id = Some (Decided request who reply) →
  accounted h (cstep c (Advance id now)) (lines ++ [(id, now_unix now)]).
Proof.
  intros [Ho Hlg Hl Ha Hc Hcd] Hid. cbn [Concurrent.cstep]. rewrite Hid. cbn [Concurrent.advance].
  set (fl := <[id := Logged request who reply]> (flights c)).
  assert (id ∉ lines.*1) as Hnew. { rewrite Hlg, Hid. cbn. by intros []. }
  assert (∀ id', id' ∈ lines.*1 → fl !! id' ≫= line_of = flights c !! id' ≫= line_of) as Hext.
  { intros id' Hin. apply flights_insert_other. intros ->. done. }
  assert (∀ id', fl !! id' ≫= label_of = flights c !! id' ≫= label_of) as Hlab.
  { intros id'. apply flights_insert_other. intros ->. by rewrite Hid. }
  destruct (log_line_ext (flights c) fl (h_query_log h) lines Hext) as [Hle Hae].
  assert (fl !! id ≫= line_of = Some (who, reply)) as Hline by (unfold fl; by rewrite lookup_insert_eq).
  constructor; cbn [shared flights set_shared sh_handler log_query set_log h_query_log h_audit h_metrics].
  - rewrite fmap_app, list.NoDup_app. split; [done|]. split; [|apply NoDup_singleton].
    intros id' Hin ->%list_elem_of_singleton. done.
  - intros id'. rewrite fmap_app, elem_of_app. cbn [fmap list_fmap fst].
    destruct (decide (id' = id)) as [->|Hne].
    + fold fl. rewrite Hline. split; [done|]. intros _. right. by left.
    + unfold fl. rewrite lookup_insert_ne by done. rewrite Hlg. set_solver.
  - rewrite foldl_app. cbn [foldl]. fold fl. rewrite Hle, <- Hl. unfold log_line. cbn [fst snd]. by rewrite Hline.
  - rewrite bind_app. fold fl. rewrite Hae, app_assoc, <- Ha. f_equal.
    cbn [mbind list_bind]. unfold audit_line. cbn [fst]. rewrite Hline. by rewrite app_nil_r.
  - intros label. rewrite (Hc label). f_equal. fold fl. rewrite fmap_app. unfold sent_with.
    rewrite list.filter_app, length_app. cbn [fmap list_fmap fst].
    rewrite (filter_cons_False _ id []) by (rewrite Hlab, Hid; done). cbn [filter list_filter length].
    rewrite Nat.add_0_r. symmetry. by apply sent_with_ext.
  - unfold fl. intros id' r' w' p' resp Hs. destruct (decide (id' = id)) as [->|Hne].
    + by rewrite lookup_insert_eq in Hs.
    + rewrite lookup_insert_ne in Hs by done. by eapply Hcd.
Qed.

(** The step that sends. *)
Lemma sent_with_insert fl id p label lab ids :
  NoDup ids → id ∈ ids → fl !! id ≫= label_of = None → label_of p = Some lab →
  sent_with (<[id := p]> fl) label ids =
    sent_with fl label ids + if decide (label = lab) then 1 else 0.
Proof.
  intros Hnd Hin Hid Hp. induction ids as [|id' ids IH]; [by apply not_elem_of_nil in Hin|].
  apply list.NoDup_cons in Hnd as [Hni Hnd]. unfold sent_with in *. rewrite !filter_cons.
  destruct (decide (id' = id)) as [->|Hne].
  - rewrite lookup_insert_eq. cbn [mbind option_bind]. rewrite Hp, Hid.
    rewrite (sent_filter_ext fl (<[id := p]> fl)), (decide_False (P := None = _)) by
      (try done; intros x Hx; apply flights_insert_other; by intros ->).
    do 2 case_decide; try congruence; cbn [length]; lia.
  - rewrite lookup_insert_ne by done. apply elem_of_cons in Hin as [->|Hin]; [done|].
    specialize (IH Hnd Hin). destruct (decide (fl !! id' ≫= _ = _)); cbn [length]; lia.
Qed.

Lemma accounted_send h c lines id now request who reply :
  accounted h c lines → flights c !! id = Some (Logged request who reply) →
  accounted h (cstep c (Advance id now)) lines.
Proof.
  intros [Ho Hlg Hl Ha Hc Hcd] Hid. cbn [Concurrent.cstep]. rewrite Hid. cbn [Concurrent.advance].
  destruct (respond request _ _ _ _) as [resp h1] eqn:Er.
  assert (resp_code resp = code reply ∧ h1 = inc (ResponsesByRcode (rcode_metric_label (code reply)))
    (sh_handler (shared c))) as [Hcode ->] by (unfold respond in Er; by simplify_eq/=).
  set (fl := <[id := Sent request who reply resp]> (flights c)).
  assert (∀ id', fl !! id' ≫= line_of = flights c !! id' ≫= line_of) as Hext.
  { intros id'. apply flights_insert_other. intros ->. by rewrite Hid. }
  destruct (log_line_ext (flights c) fl (h_query_log h) lines) as [Hle Hae]; [intros; apply Hext|].
  constructor; cbn [shared flights set_shared sh_handler inc inc_n h_query_log h_audit h_metrics].
  - done.
  - intros id'. fold fl. by rewrite Hext.
  - fold fl. by rewrite Hle.
  - fold fl. by rewrite Hae.
  - intros label. unfold inc_by. rewrite (Hc label). unfold fl.
    rewrite (sent_with_insert _ _ _ _ (rcode_metric_label (code reply))).
    + destruct (decide (label = _)) as [->|Hne]; [by rewrite decide_True; [lia|]|].
      rewrite decide_False by congruence. lia.
    + done.
    + apply Hlg. by rewrite Hid.
    + by rewrite Hid.
    + cbn. by rewrite Hcode.
  - unfold fl. intros id' r' w' p' resp' Hs. destruct (decide (id' = id)) as [->|Hne].
    + rewrite lookup_insert_eq in Hs. by simplify_eq.
    + rewrite lookup_insert_ne in Hs by done. by eapply Hcd.
Qed.

Lemma accounted_pass h c lines id now p :
  accounted h c lines → flights c !! id = Some p →
  line_of p = None → (∀ request who reply, p ≠ Decided request who reply) →
  accounted h (cstep c (Advance id now)) lines.
Proof.
  intros Ha Hid Hl Hd. destruct (advance_quiet now p (shared c) Hl Hd) as (Hf & Hln & Hlb & Hns).
  assert (label_of p = None) as Hlab by (by destruct p).
  cbn [Concurrent.cstep]. rewrite Hid. destruct (advance now p (shared c)) as [p' sh]. cbn [fst snd] in *.
  apply (accounted_quiet h c); [done|done| |]; cbn [flights].
  - intros id'. split; apply flights_insert_other; intros ->; rewrite Hid; cbn; congruence.
  - intros id' r w re resp. destruct (decide (id' = id)) as [->|Hne].
    + rewrite lookup_insert_eq. intros [= ->]. by destruct (Hns r w re resp).
    + rewrite lookup_insert_ne by done. apply (ac_codes h c lines Ha).
Qed.

Lemma accounted_step h c o lines :
  accounted h c lines → ∃ lines', accounted h (cstep c o) lines'.
Proof.
  intros Ha. destruct o as [id request|id now|u].
  - exists lines. cbn [Concurrent.cstep]. destruct (flights c !! id) as [p|] eqn:Hid; [done|].
    apply (accounted_quiet h c); [done|done| |].
    + intros id'. split; apply flights_insert_other; intros ->; by rewrite Hid.
    + intros id' r w p' resp. cbn [flights]. destruct (decide (id' = id)) as [->|Hne].
      * by rewrite lookup_insert_eq.
      * rewrite lookup_insert_ne by done. by apply (ac_codes h c lines Ha).
  - destruct (flights c !! id) as [p|] eqn:Hid; [|exists lines; cbn [Concurrent.cstep]; by rewrite Hid].
    destruct p as [r|r ctx todo|r ctx re e|r ctx res|r who reply|r who reply|r who reply resp].
    1-4: exists lines; by eapply accounted_pass.
    + eexists. by eapply accounted_log.
    + exists lines. by eapply accounted_send.
    + exists lines. cbn [Concurrent.cstep]. rewrite Hid. cbn [Concurrent.advance]. rewrite insert_id by done. by destruct c.
  - exists lines. apply (accounted_quiet h c); [done| |done|by apply (ac_codes h c lines Ha)].
    by destruct u.
Qed.

(** A flight keeps its request's client. *)
Definition own_client (p : progress) : Prop :=
  match p with
  | Arrived _ => True
  | AtGate r ctx _ | Asking r ctx _ _ | Answered r ctx _ => client ctx = Client.from_ip (req_src r)
  | Decided r who _ | Logged r who _ | Sent r who _ _ => at_client who = Client.from_ip (req_src r)
  end.

Lemma advance_own now p sh : own_client p → own_client (advance now p sh).1.
Proof.
  intros Hp. destruct p as [r|r ctx [|g todo]|r ctx re e|r ctx res|r who reply|r who reply|r who reply resp];
    cbn [Concurrent.advance]; try done.
  - by destruct (req_query r).
  - by destruct (gate_stage _ _ _ _ _) as [[reply|] h].
  - by destruct (resolve _ _ _ _ _ _ _).
  - by destruct (screen _ _ _).
Qed.

Lemma schedule_own occs c :
  map_Forall (λ _, own_client) (flights c) → map_Forall (λ _, own_client) (flights (schedule occs c)).
Proof.
  revert c. induction occs as [|o occs IH]; intros c Hc; [done|]. apply (IH (cstep c o)).
  destruct o as [id request|id now|u]; cbn [Concurrent.cstep]; [| |done].
  - destruct (flights c !! id); [done|]. by apply map_Forall_insert_2.
  - destruct (flights c !! id) as [p|] eqn:Hid; [|done]. pose proof (advance_own now p (shared c)) as Ho.
    destruct (advance now p (shared c)) as [p' sh]. apply map_Forall_insert_2; [|done].
    by apply Ho, (Hc id).
Qed.

(** C7. Nothing is lost or counted twice, however requests and reloads interleave: at any
    time the query log is that of the start with one entry for each request that has been
    logged, in the order they were, under its own client and code; so are the audit lines
    of the policies that ask for them; and the counter of each response code has gone up
    by the number of responses sent with it. *)
Theorem interleaved_accounted (h : DnsHandler) (occs : list occurrence) :
  let c := schedule occs (serving h) in
  (∃ lines, accounted h c lines) ∧ map_Forall (λ _, own_client) (flights c).
Proof.
  intros c. split; [|by apply schedule_own]. subst c.
  assert (accounted h (serving h) []) as Hstart.
  { constructor; try done.
    - constructor.
    - intros id. cbn. split; [by intros ?%not_elem_of_nil|by intros []].
    - cbn. by rewrite app_nil_r.
    - intros label. unfold sent_with. rewrite fmap_nil, filter_nil. cbn. lia. }
  revert Hstart. generalize ([] : list (nat * Z)) as lines. generalize (serving h) as c.
  induction occs as [|o occs IH]; intros c lines Ha; [by exists lines|].
  destruct (accounted_step h c o lines Ha) as [lines' Ha']. by apply (IH (cstep c o) lines').
Qed.
End accounting.
