(* ===== verification/Sequential.v ===== *)
(** * Sequential: the daemon's events as schedules

    The schedules ([Concurrent]) in which every request runs alone and every reload comes
    between two requests are the histories of [Daemon]: a request then takes the one step
    [Handler.handle_request] gives it, and a signal is a sequence of stores. *)

From S2P Require Import Prelude RustStr Net Config Record Hickory Answers Odoh Resolver Handler.
From S2P Require Engine Authority Rewrite RateLimiter QueryLog Client.
From S2P Require RegexRules Schedule Mesh Metrics.
From S2P Require Import Loader Daemon Concurrent.

Section sequential.
Context `{Hickory} `{!Server} `{!Upstream} `{!OdohLib} `{Unicode} `{RegexRules.RegexCrate}.
Context (net : list action → action → reply) (rand : list action → draw → Z).
Context (validate : (bytes → OdohState → result OdohError bytes * OdohState) →
  HName → RecordType → OdohState → option (list RR * ResponseCode) * OdohState).
Context (hash_qname : str → Z).

Abbreviation advance := (Concurrent.advance net rand validate hash_qname).
Abbreviation cstep := (Concurrent.cstep net rand validate hash_qname).
Abbreviation schedule := (Concurrent.schedule net rand validate hash_qname).

(** ** A request alone *)

Definition alone (n : nat) (now : Now) (x : progress * Shared) : progress * Shared :=
  Nat.iter n (λ x, advance now x.1 x.2) x.

Lemma schedule_alone n id now c p :
  flights c !! id = Some p →
  schedule (replicate n (Advance id now)) c =
    {| shared := (alone n now (p, shared c)).2;
       flights := <[id := (alone n now (p, shared c)).1]> (flights c) |}.
Proof.
  intros Hid. induction n as [|n IH].
  - cbn. rewrite insert_id by done. by destruct c.
  - rewrite <- Nat.add_1_r, replicate_add. unfold Concurrent.schedule in *. rewrite foldl_app, IH. cbn [replicate foldl Concurrent.cstep flights].
    rewrite lookup_insert_eq. cbn [shared]. rewrite Nat.add_1_r. unfold alone. rewrite Nat.iter_succ.
    destruct (advance now _ _) as [p' sh]. cbn [fst snd]. by rewrite insert_insert_eq.
Qed.

(** A flight that is alone gets somewhere within its rank. *)
Definition reaches (now : Now) (x y : progress * Shared) : Prop :=
  ∃ n, (n ≤ rank x.1)%nat ∧ alone n now x = y.

Lemma reaches_step now p sh y :
  (0 < rank p)%nat → reaches now (advance now p sh) y → reaches now (p, sh) y.
Proof.
  intros Hp (n & Hn & Hy). exists (S n). pose proof (advance_rank net rand validate hash_qname now p sh). split; [cbn [fst]; lia|].
  unfold alone in *. by rewrite Nat.iter_succ_r.
Qed.

Lemma reaches_gates now request ctx gs h sh y :
  (let '(o, h') := run_gates now request ctx gs h in
   reaches now (match o with
                | Some reply => Decided request (attribution ctx) reply
                | None => AtGate request ctx []
                end, set_shared h' sh) y) →
  reaches now (AtGate request ctx gs, set_shared h sh) y.
Proof.
  revert h. induction gs as [|g gs IH]; intros h; [done|].
  change (run_gates now request ctx (g :: gs)) with
    (or_else (gate_stage now request ctx g) (run_gates now request ctx gs)).
  unfold or_else. intros Hr. apply reaches_step; [cbn; lia|]. cbn [Concurrent.advance set_shared sh_handler].
  destruct (gate_stage now request ctx g h) as [[reply|] h1]; [done|]. by apply IH.
Qed.

Lemma stage_resolve_split ctx h :
  stage_resolve net rand validate ctx h =
    let h := inc ResolverQueries h in
    let '(res, st) := resolve net rand validate (h_resolver h) (qname ctx) (qtype_label ctx) (h_odoh h) in
    screen ctx res (set_odoh st h).
Proof. unfold stage_resolve. cbv zeta. by destruct (resolve _ _ _ _ _ _ _) as [[out|e] st]. Qed.

Lemma odoh_of_current sh : odoh_of (sh_epoch sh) sh = h_odoh (sh_handler sh).
Proof. unfold odoh_of. rewrite decide_True by done. by destruct (h_odoh _). Qed.

(** From a decision to the response. *)
Lemma reaches_sent now request who reply sh :
  let '(resp, h) :=
    respond request (code reply) (authoritative reply) (answers reply)
      (log_query hash_qname now (at_policy who) (at_client who) (at_name who) (at_label who)
         (code reply) (served_by reply) (sh_handler sh)) in
  reaches now (Decided request who reply, sh) (Sent request who reply resp, set_shared h sh).
Proof. by exists 2%nat. Qed.

Lemma reaches_resolved now request ctx sh y :
  (let '(reply, h) := stage_resolve net rand validate ctx (sh_handler sh) in
   reaches now (Decided request (attribution ctx) reply, set_shared h sh) y) →
  reaches now (AtGate request ctx [], sh) y.
Proof.
  rewrite stage_resolve_split. cbv zeta. intros Hr. apply reaches_step; [cbn; lia|]. cbn [Concurrent.advance].
  apply reaches_step; [cbn; lia|]. cbn [Concurrent.advance]. set (sh1 := set_shared _ sh).
  change (sh_epoch sh) with (sh_epoch sh1). rewrite odoh_of_current.
  change (h_resolver (sh_handler sh)) with (h_resolver (inc ResolverQueries (sh_handler sh))).
  change (h_odoh (sh_handler sh1)) with (h_odoh (inc ResolverQueries (sh_handler sh))).
  destruct (resolve _ _ _ _ _ _ _) as [res st]. apply reaches_step; [cbn; lia|].
  cbn [Concurrent.advance]. unfold store_odoh. rewrite decide_True by done. cbn [set_shared sh_handler sh1].
  by destruct (screen _ _ _) as [reply h].
Qed.

(** What is sent stays sent. *)
Lemma reaches_lifetime now request sh r who reply resp sh' :
  reaches now (Arrived request, sh) (Sent r who reply resp, sh') →
  alone lifetime now (Arrived request, sh) = (Sent r who reply resp, sh').
Proof.
  intros (n & Hn & Hy). cbn [fst rank] in Hn. unfold lifetime. replace 16%nat with ((16 - n) + n)%nat by lia.
  unfold alone in *. rewrite Nat.iter_add, Hy. generalize (16 - n)%nat as k.
  induction k as [|k IH]; [done|]. by rewrite Nat.iter_succ, IH.
Qed.

(** A request that meets nobody is served as [handle_request] serves it. *)
Lemma alone_handle_request now request sh :
  ∃ who reply,
    reaches now (Arrived request, sh)
      (Sent request who reply (handle_request net rand validate hash_qname now request (sh_handler sh)).1,
       set_shared (handle_request net rand validate hash_qname now request (sh_handler sh)).2 sh).
Proof.
  unfold handle_request. destruct (req_query request) as [q|] eqn:Hq.
  - cbv zeta. set (ctx := query_ctx _ _ _ _). set (h0 := inc _ (inc _ _)).
    destruct (decide_reply net rand validate now request ctx h0) as [reply h1] eqn:Hd.
    exists (attribution ctx), reply. apply reaches_step; [cbn; lia|]. cbn [Concurrent.advance]. rewrite Hq. cbv zeta.
    apply reaches_gates. rewrite all_gates_run. unfold decide_reply in Hd. unfold or_else at 1.
    pose proof (reaches_sent now request (attribution ctx) reply (set_shared h1 sh)) as Hs.
    unfold finish. cbn [set_shared sh_handler attribution at_policy at_client at_name at_label] in Hs.
    destruct (respond _ _ _ _ _) as [resp h2]. fold ctx h0.
    destruct (gates now request ctx h0) as [[reply'|] h3]; [by simplify_eq|].
    destruct (pipeline ctx h3) as [[reply'|] h4]; [by simplify_eq|].
    apply reaches_resolved. cbn [set_shared sh_handler]. by rewrite Hd.
  - exists (malformed (sh_handler sh) now request), (reject FormErr).
    apply reaches_step; [cbn; lia|]. cbn [Concurrent.advance]. rewrite Hq.
    exact (reaches_sent now request (malformed (sh_handler sh) now request) (reject FormErr) sh).
Qed.
End sequential.

(** ** The daemon's events *)

Section events.
Context `{Hickory} `{!Server} `{!Upstream} `{!OdohLib} `{Unicode} `{RegexRules.RegexCrate}.
Context `{Mesh.Ed25519} `{Listeners.Os} `{Metrics.Prometheus}.
Context (parse_toml : str → option Toml.value).
Context (net : list action → action → reply) (rand : list action → draw → Z).
Context (validate : (bytes → OdohState → result OdohError bytes * OdohState) →
  HName → RecordType → OdohState → option (list RR * ResponseCode) * OdohState).
Context (hash_qname : str → Z).

Abbreviation schedule := (Concurrent.schedule net rand validate hash_qname).
Abbreviation run_daemon := (Daemon.run_daemon parse_toml net rand validate hash_qname).
Abbreviation step := (Daemon.step parse_toml net rand validate hash_qname).
Abbreviation handle_request := (Handler.handle_request net rand validate hash_qname).

(** The stores of [apply_hot_swaps]. *)
Definition hot_swaps (now : Z) (new_config : DnsConfig) : list update :=
  match resolver_new new_config with
  | Ok resolver => [NewResolver resolver]
  | Err _ => []
  end ++
  [NewRateLimiter (RateLimiter.limiter_new (cfg_rate_limit new_config) now);
   NewPolicies (cfg_policy new_config); NewRewrites (combined_rewrite_rules new_config)].

(** A store at a time. *)
Definition stores (us : list update) (sh : Shared) : Shared := foldl apply_update sh us.

Lemma stores_handler us sh :
  sh_handler (stores us sh) = foldl (λ h u, handler_update u h) (sh_handler sh) us.
Proof.
  revert sh. induction us as [|u us IH]; intros sh; [done|]. cbn [foldl].
  change (stores (u :: us) sh) with (stores us (apply_update sh u)). rewrite IH. by destruct u.
Qed.

Lemma schedule_reloads us c :
  schedule (Reload <$> us) c = {| shared := stores us (shared c); flights := flights c |}.
Proof.
  revert c. induction us as [|u us IH]; intros c; [by destruct c|]. cbn [fmap list_fmap].
  change (schedule (Reload u :: (Reload <$> us)) c) with
    (schedule (Reload <$> us) {| shared := apply_update (shared c) u; flights := flights c |}).
  by rewrite IH.
Qed.

Lemma hot_swaps_stores now cfg h :
  foldl (λ h u, handler_update u h) h (hot_swaps now cfg) = apply_hot_swaps now cfg h.
Proof. unfold hot_swaps, apply_hot_swaps. by destruct (resolver_new cfg). Qed.

(** What the events of the daemon store. *)
Definition round_stores (env : nat → Env) (unix : Z) (d : Daemon) : list update :=
  [NewBlocklist (reload env unix (dm_loader d) (h_blocklist (dm_handler d))).2].
Definition mesh_stores (fs : Mesh.files) (unix : Z) (d : Daemon) : list update :=
  [NewAuthority (Authority.reload_mesh fs (h_authority (dm_handler d)) unix).2].
Definition sighup_stores (s : SighupEnv) (d : Daemon) : list update :=
  (if fetch_spacing_ok (elapsed (sg_instant s) <$> dm_last_fetch d) MIN_SIGHUP_FETCH_SPACING
   then round_stores (sg_lists s) (sg_unix s) d else [])
  ++ mesh_stores (sg_bundle s) (sg_unix s) d
  ++ match load_config parse_toml (sg_config s) with
     | Some new_config => hot_swaps (sg_instant s) new_config
     | None => []
     end.

(** The schedule of an event; a query is the flight of its number. *)
Definition event_schedule (i : nat) (d : Daemon) (ev : event) : list occurrence :=
  match ev with
  | Sighup s => Reload <$> sighup_stores s d
  | BlocklistTimer env unix =>
      if blocklist_reload_interval_secs (cfg_blocklist (dm_startup d)) =? 0 then []
      else Reload <$> round_stores env unix d
  | MeshTimer fs unix =>
      if mesh_polling_enabled (authority_poll_interval_secs (cfg_authority (dm_startup d)))
         && bool_decide (is_Some (authority_mesh_zone_bundle_path (cfg_authority (dm_startup d))))
      then Reload <$> mesh_stores fs unix d else []
  | Query now request => Arrive i request :: replicate lifetime (Advance i now)
  end.

Fixpoint event_schedules (i : nat) (events : list event) (d : Daemon) : list occurrence :=
  match events with
  | [] => []
  | ev :: events => event_schedule i d ev ++ event_schedules (S i) events (step d ev)
  end.

Lemma round_stores_handler env unix d :
  dm_handler (reload_blocklists env unix d) =
    foldl (λ h u, handler_update u h) (dm_handler d) (round_stores env unix d).
Proof. unfold reload_blocklists, round_stores. by destruct (reload _ _ _ _) as [[summary l] e]. Qed.

Lemma mesh_stores_handler fs unix d :
  dm_handler (reload_mesh_zone fs unix d) =
    foldl (λ h u, handler_update u h) (dm_handler d) (mesh_stores fs unix d).
Proof. unfold reload_mesh_zone, mesh_stores. by destruct (Authority.reload_mesh _ _ _) as [r a]. Qed.

Lemma sighup_stores_handler s d :
  dm_handler (handle_sighup parse_toml s d) =
    foldl (λ h u, handler_update u h) (dm_handler d) (sighup_stores s d).
Proof.
  unfold handle_sighup, sighup_stores. rewrite !foldl_app.
  set (d1 := if fetch_spacing_ok _ _ then _ else _).
  set (us := if fetch_spacing_ok _ _ then round_stores _ _ _ else _).
  assert (dm_handler d1 = foldl (λ h u, handler_update u h) (dm_handler d) us) as H1'.
  { subst d1 us. destruct (fetch_spacing_ok _ _); [|done].
    exact (round_stores_handler (sg_lists s) (sg_unix s) (set_last_fetch (sg_instant s) d)). }
  assert (mesh_stores (sg_bundle s) (sg_unix s) d = mesh_stores (sg_bundle s) (sg_unix s) d1) as ->.
  { unfold mesh_stores. rewrite H1'. subst us. by destruct (fetch_spacing_ok _ _). }
  rewrite <- H1', <- mesh_stores_handler. set (d2 := reload_mesh_zone _ _ d1).
  destruct (load_config parse_toml (sg_config s)) as [cfg|]; [|done].
  cbn [set_handler]. destruct (Listeners.reload_listeners _ _ _) as [a w]. cbn [set_restart_required set_listeners dm_handler].
  by rewrite hot_swaps_stores.
Qed.

Lemma schedule_cons o occs c :
  schedule (o :: occs) c = schedule occs (Concurrent.cstep net rand validate hash_qname c o).
Proof. done. Qed.

(** One event: the handler it leaves, and the flights. *)
Lemma event_scheduled i d ev c :
  sh_handler (shared c) = dm_handler d → flights c !! i = None →
  let c' := schedule (event_schedule i d ev) c in
  sh_handler (shared c') = dm_handler (step d ev)
  ∧ (∀ j, j ≠ i → flights c' !! j = flights c !! j)
  ∧ ∀ now request, ev = Query now request →
      ∃ who reply, flights c' !! i =
        Some (Sent request who reply (handle_request now request (dm_handler d)).1).
Proof.
  intros Hh Hi c'. subst c'.
  assert (∀ us, dm_handler (step d ev) = foldl (λ h u, handler_update u h) (dm_handler d) us →
    sh_handler (shared (schedule (Reload <$> us) c)) = dm_handler (step d ev)
    ∧ (∀ j, j ≠ i → flights (schedule (Reload <$> us) c) !! j = flights c !! j)) as Hus.
  { intros us Hus. rewrite schedule_reloads. cbn [shared flights]. by rewrite stores_handler, Hh, Hus. }
  destruct ev as [s|env unix|fs unix|now request]; cbn [event_schedule Daemon.step] in *.
  - edestruct Hus; [apply sighup_stores_handler|]. done.
  - unfold blocklist_reload_loop in *. destruct (_ =? 0); [done|].
    edestruct Hus; [apply round_stores_handler|]. done.
  - unfold mesh_reload_loop in *. destruct (_ && _); [|done].
    edestruct Hus; [apply mesh_stores_handler|]. done.
  - clear Hus. rewrite schedule_cons.
    cbn [Concurrent.cstep]. rewrite Hi. set (c0 := {| shared := shared c; flights := _ |}).
    assert (flights c0 !! i = Some (Arrived request)) as H0' by apply lookup_insert_eq.
    rewrite (schedule_alone net rand validate hash_qname lifetime i now c0 _ H0').
    destruct (alone_handle_request net rand validate hash_qname now request (shared c0)) as (who & reply & Hr).
    apply reaches_lifetime in Hr. rewrite Hr. cbn [shared flights fst snd set_handler dm_handler set_shared sh_handler c0].
    rewrite Hh. split; [done|]. split.
    + intros j Hj. by rewrite !lookup_insert_ne.
    + intros ? ? [= <- <-]. exists who, reply. by rewrite lookup_insert_eq.
Qed.

Lemma events_scheduled i events d c :
  sh_handler (shared c) = dm_handler d → (∀ j, (i ≤ j)%nat → flights c !! j = None) →
  let c' := schedule (event_schedules i events d) c in
  sh_handler (shared c') = dm_handler (run_daemon events d)
  ∧ (∀ j, (j < i)%nat → flights c' !! j = flights c !! j)
  ∧ ∀ k now request, events !! k = Some (Query now request) →
      ∃ who reply, flights c' !! (i + k)%nat =
        Some (Sent request who reply
                (handle_request now request (dm_handler (run_daemon (take k events) d))).1).
Proof.
  revert i d c. induction events as [|ev events IH]; intros i d c Hh Hi c'; [done|]. subst c'.
  cbn [event_schedules]. unfold Concurrent.schedule. rewrite foldl_app. fold (schedule (event_schedule i d ev) c).
  set (c1 := schedule (event_schedule i d ev) c).
  destruct (event_scheduled i d ev c Hh (Hi i ltac:(lia))) as (Hh1 & Hother & Hq). fold c1 in Hh1, Hother, Hq.
  assert (∀ j, (S i ≤ j)%nat → flights c1 !! j = None) as Hi1.
  { intros j Hj. rewrite Hother by lia. apply Hi. lia. }
  destruct (IH (S i) (step d ev) c1 Hh1 Hi1) as (Hh' & Hpast & Hqs).
  fold (schedule (event_schedules (S i) events (step d ev)) c1) in *. split; [exact Hh'|]. split.
  - intros j Hj. rewrite Hpast by lia. apply Hother. lia.
  - intros [|k] now request Hk; cbn [lookup list_lookup] in Hk.
    + simplify_eq. destruct (Hq now request eq_refl) as (who & reply & Hs). exists who, reply.
      rewrite Nat.add_0_r, Hpast by lia. exact Hs.
    + rewrite Nat.add_succ_r. exact (Hqs k now request Hk).
Qed.

(** The histories of the daemon are schedules: its signals and timers are sequences of
    stores of single cells, its queries flights that run alone, and in that schedule the
    handler ends as the daemon's does, and each query was sent the response
    [handle_request] gave it at its turn. *)
Theorem daemon_is_a_schedule (events : list event) (d : Daemon) :
  let c := schedule (event_schedules 0 events d) (serving (dm_handler d)) in
  sh_handler (shared c) = dm_handler (run_daemon events d)
  ∧ ∀ i now request, events !! i = Some (Query now request) →
      ∃ who reply, flights c !! i =
        Some (Sent request who reply
                (handle_request now request (dm_handler (run_daemon (take i events) d))).1).
Proof.
  destruct (events_scheduled 0 events d (serving (dm_handler d)) eq_refl) as (Hh & _ & Hq); [done|].
  by split.
Qed.
End events.
