(* ===== verification/Service.v ===== *)
(** * Service: what a running daemon answers
    ([rustydnsd/src/main.rs], [rustydnsd/src/handler.rs], [rustydnsd/src/blocklist_loader.rs])

    The composition of the parts.  The specification [service] says how a question may be
    answered from what the outside gave the daemon: the configuration it started with, the
    last valid one it was reloaded with, what was ever read of the blocklist sources and the
    mesh bundles.  It knows no engine, no cache and no policy map.  The theorem is that a
    daemon, after any history of signals, timers and queries, answers so. *)

From S2P Require Import Prelude RustStr Net Config Record Hickory Answers Odoh Resolver Handler.
From S2P Require Import Listeners Loader Toml Daemon.
From S2P Require Schedule RegexRules Authority Mesh Engine Rewrite RateLimiter QueryLog DiskLog.
From S2P Require IpDenylist Validate Allowlist Metrics.

Section service.
Context `{Hickory} `{!Server} `{!Upstream} `{!OdohLib} `{Unicode} `{RegexRules.RegexCrate}.
Context `{Mesh.Ed25519} `{Os} `{Metrics.Prometheus}.
Context (parse_toml : str → option value).
Context (net : list action → action → reply) (rand : list action → draw → Z).
Context (validate : (bytes → OdohState → result OdohError bytes * OdohState) →
  HName → RecordType → OdohState → option (list RR * ResponseCode) * OdohState).
Context (hash_qname : str → Z).

(** ** The specification *)








Section question.
(** The configuration at start-up, that in force, the rounds of the blocklists, the
    authority, why the gates refuse the request if they do, and what the upstream says. *)
Context (startup c : DnsConfig) (rounds : list ((nat → Env) * Z)) (authority : Authority.Authority).
Context (gate : option ResponseCode) (says : result resolver_error ResolveOutcome).
Context (now : Now) (ip : ip_addr) (q : QueryInfo).

Let name := name_to_string (q_name q).


End question.

(** ** The handler of a daemon shows what was given to it *)







(** ** The theorem *)






End service.

(** ** Witness: the demo daemon, whose list was read three times *)

#[local] Existing Instances demo_hickory demo_server demo_upstream demo_odoh ascii_only
  RegexRules.literal_regex Mesh.demo_ed25519 granting Metrics.documented_families.

Definition demo_served (d : Daemon) : DnsHandler :=
  dm_handler (run_daemon demo_toml demo_net demo_draws demo_validate QueryLog.demo_hash demo_run d).
Definition demo_code (src : Z) (name : str) (d : Daemon) : ResponseCode :=
  resp_code (handle_request demo_net demo_draws demo_validate QueryLog.demo_hash demo_now
    (demo_request src name) (demo_served d)).1.

(** The name of the last list read is blocked; that of the list before goes upstream, which
    does not know it; the client with a policy is refused. *)
Example demo_codes :
  (λ d, (demo_code 167772163 "ADS.Example.com."%rs d, demo_code 167772163 "ads.example.net."%rs d,
         demo_code 167772169 "ads.example.net."%rs d)) <$> demo_boot
  = Ok (NXDomain, ServFail, Refused).
Proof. vm_compute. reflexivity. Qed.






