(* ===== verification/Process.v ===== *)
(** * Process: the daemon as a process, from its arguments to its exit
    ([rustydnsd/src/main.rs])

    What surrounds the daemon: the log filter, the umask, the capabilities that are given up
    once the ports are bound, the signal loop and the shutdown.  The system's calls are
    parameters; the handlers of the signals are taken to be registered. *)

From S2P Require Import Prelude RustStr Net Config Record Hickory Answers Odoh Resolver Handler.
From S2P Require Import Listeners Loader Toml Daemon.
From S2P Require RegexRules Mesh QueryLog Metrics.

(** ** The log filter *)

(** The directives of the filter, in the order they are added: [info], those of the operator
    that parse, and the clamps. *)
Definition filter_directives (parses : str → bool) (user_filter : str) : list str :=
  "info"%rs
  :: List.filter parses (List.filter (λ s, negb (is_empty_str (trim s))) (split ","%rc user_filter))
  ++ hickory_clamp_directives (log_targets user_filter).

(** The clamps come last, and a crate that may log query names has one unless the operator
    named it. *)
Lemma qnames_clamped parses user_filter c :
  c ∈ QNAME_BEARING_CRATES →
  let clamps := hickory_clamp_directives (log_targets user_filter) in
  clamps `suffix_of` filter_directives parses user_filter
  ∧ (c ∈ log_targets user_filter ∨ (c ++ "=warn"%rs) ∈ clamps).
Proof.
  intros Hc clamps. subst clamps. split; [by eexists (_ :: _)|].
  unfold hickory_clamp_directives. destruct (hickory_clamp_overridden (log_targets user_filter) c) eqn:E.
  - left. unfold hickory_clamp_overridden in E. apply existsb_elem_of in E as (t & Ht & Heq).
    unfold str_eqb in Heq. bools. by subst t.
  - right. apply list_elem_of_fmap. exists c. split; [done|].
    apply list_elem_of_In, filter_In. split; [by apply list_elem_of_In|]. by rewrite E.
Qed.

(** ** The help text *)

(** The lines of the help text, of a program called [exe]. *)
Definition help_lines (exe : str) : list str :=
  ["rustydnsd "%rs ++ [8212] ++ " mesh-native DNS resolver and ad blocker"%rs;
   [];
   "USAGE:"%rs;
   "    "%rs ++ exe ++ " [OPTIONS]"%rs;
   [];
   "OPTIONS:"%rs;
   "    --config <PATH>       Path to rustydns.toml (default: ./rustydns.toml)"%rs;
   "    --validate-config     Load and validate the config, then exit 0 if it"%rs;
   "                          parses cleanly and passes every invariant in"%rs;
   "                          AGENTS.md. Sockets are never bound. Exit 1 on"%rs;
   "                          validation failure. Useful in install scripts"%rs;
   "                          and CI."%rs;
   "    --print-config        Load + validate + emit the resolved config to"%rs;
   "                          stdout (TOML) and exit 0. Sockets are never"%rs;
   "                          bound. Useful for debugging deployment issues;"%rs;
   "                          sensitive fields print as <redacted>."%rs;
   "    -V, --version         Print version and exit."%rs;
   "    -h, --help            Show this help and exit."%rs;
   [];
   "ENVIRONMENT:"%rs;
   "    RUST_LOG              Override log filter. Default is `info` with the"%rs;
   "                          hickory crates clamped to `warn` for privacy."%rs;
   "                          Setting this opts in to deeper diagnostics "%rs ++ [8212] ++ [];
   "                          qnames may appear at `debug` level."%rs].

Definition println (line : str) : str := line ++ [10].

Definition print_help (exe : option str) : str :=
  concat (println <$> help_lines (default "rustydnsd"%rs exe)).

(** ** The umask *)

Definition RESTRICTIVE_UMASK : Z := 63.

(** The mode of a file that is created. *)
Definition created_mode (requested : Z) : Z := Z.ldiff requested RESTRICTIVE_UMASK.

Lemma created_private requested : Z.land (created_mode requested) 63 = 0.
Proof.
  unfold created_mode, RESTRICTIVE_UMASK. apply Z.bits_inj'. intros n Hn.
  rewrite Z.land_spec, Z.ldiff_spec, Z.bits_0. by destruct (Z.testbit 63 n), (Z.testbit requested n).
Qed.

(** ** Capabilities *)

Inductive CapSet := Effective | Permitted | Inheritable | Ambient | Bounding.
#[export] Instance CapSet_eq_dec : EqDecision CapSet.
Proof. solve_decision. Defined.

Definition Caps : Type := CapSet → gset Z.

(** [caps::clear], which may fail; a failure is logged only. *)
Definition clear_caps (fails : CapSet → bool) (caps : Caps) (set : CapSet) : Caps :=
  λ x, if decide (x = set) then if fails set then caps x else ∅ else caps x.

Definition drop_capabilities (fails : CapSet → bool) (caps : Caps) : Caps :=
  foldl (clear_caps fails) caps [Effective; Permitted; Inheritable; Ambient; Bounding].

(** Every set that can be cleared is, whatever happens to the others. *)
Lemma drop_capabilities_spec fails caps set :
  drop_capabilities fails caps set = if fails set then caps set else ∅.
Proof. unfold drop_capabilities, clear_caps. cbn. by destruct set; repeat case_decide; simplify_eq. Qed.

(** ** The signal loop and the shutdown *)

Section process.
Context `{Hickory} `{!Server} `{!Upstream} `{!OdohLib} `{Unicode} `{RegexRules.RegexCrate}.
Context `{Mesh.Ed25519} `{Os} `{Metrics.Prometheus}.
Context (parse_toml : str → option value) (render_toml : value → str).
Context (net : list action → action → reply) (rand : list action → draw → Z).
Context (validate : (bytes → OdohState → result OdohError bytes * OdohState) →
  HName → RecordType → OdohState → option (list RR * ResponseCode) * OdohState).
Context (hash_qname : str → Z).

#[local] Abbreviation step := (step parse_toml net rand validate hash_qname).
#[local] Abbreviation run_daemon := (run_daemon parse_toml net rand validate hash_qname).

(** What comes to the process: an event of the daemon; SIGTERM or SIGINT; the end of the DNS
    server's graceful shutdown, clean or not, where one is under way; or some time, in
    nanoseconds. *)
Inductive arrival :=
| Happens (ev : event)
| Terminates
| Drains (clean : bool)
| Elapses (nanos : Z).

(** How the drain ends. *)
Inductive ending := DrainedCleanly | DrainError | DrainTimedOut | ForcedExit.

(** The process is in the signal loop, in [drain] with some time left, or through with it. *)
Inductive phase :=
| Looping (d : Daemon)
| Draining (d : Daemon) (rest : Z)
| Ended (d : Daemon) (how : ending).

(** After the loop the token that every background task shares is cancelled, and the
    listeners are told to stop. *)
Definition stop_listeners (d : Daemon) : Daemon :=
  match drain (dm_active d) (dm_world d) with
  | (Ok a, w) => set_listeners a w d
  | (Err _, w) => set_listeners (dm_active d) w d
  end.

(** The shutdown waits for the DNS server, if there is one. *)
Definition shutdown (timeout : Z) (d : Daemon) : phase :=
  match dns_server (al_dns (dm_active d)) with
  | Some _ => Draining (stop_listeners d) timeout
  | None => Ended (stop_listeners d) DrainedCleanly
  end.

(** The signal loop handles what comes until a signal to stop; then the drain is a race of
    the graceful shutdown, its timeout and a second such signal.  SIGHUP is no longer
    received, and the timers have been cancelled. *)
Definition arrive (timeout : Z) (p : phase) (a : arrival) : phase :=
  match p, a with
  | Looping d, Happens ev => Looping (step d ev)
  | Looping d, Terminates => shutdown timeout d
  | Looping d, (Drains _ | Elapses _) => Looping d
  | Draining d rest, Happens _ => Draining d rest
  | Draining d rest, Terminates => Ended d ForcedExit
  | Draining d rest, Drains clean => Ended d (if clean then DrainedCleanly else DrainError)
  | Draining d rest, Elapses nanos =>
      let rest := rest - Z.max 0 nanos in
      if rest <=? 0 then Ended d DrainTimedOut else Draining d rest
  | Ended d how, _ => Ended d how
  end.

Definition run_signal_loop (timeout : Z) (arrivals : list arrival) (p : phase) : phase :=
  foldl (arrive timeout) p arrivals.

(** How the process ends, or where it is; a drain that was cut short ends it with status 0
    as well. *)
Inductive exit_status :=
| Exited (code : Z) (output : str)
| StillRunning (d : Daemon)
| ShuttingDown (d : Daemon) (rest : Z)
| Stopped (d : Daemon) (how : ending).

(** [rustydnsd], from the name it is called by, the variable with the timeout and its
    arguments; an error of [main] ends the process with status 1. *)
Definition rustydnsd (exe : option str) (version : str) (secs : option str) (argv : list str) (mode : Z)
    (raw : option str) (s : StartEnv) (arrivals : list arrival) : exit_status :=
  match parse_args argv with
  | MissingPath | UnknownArgument _ => Exited 1 []
  | ShowHelp => Exited 0 (print_help exe)
  | ShowVersion => Exited 0 (println ("rustydnsd "%rs ++ version))
  | RunWith args =>
      match main parse_toml render_toml args mode raw s with
      | Err _ => Exited 1 []
      | Ok (Printed text) => Exited 0 text
      | Ok Validated => Exited 0 []
      | Ok (Running d) =>
          match run_signal_loop (shutdown_timeout_from secs * NANOS) arrivals (Looping d) with
          | Looping d => StillRunning d
          | Draining d rest => ShuttingDown d rest
          | Ended d how => Stopped d how
          end
      end
  end.

Lemma drain_stops a w :
  listeners_inv a w →
  ∃ a' w', drain a w = (Ok a', w') ∧ ∀ id s, ¬ serving w' id s.
Proof.
  intros [[Hd _] [Hh _] [Hm _] _ _]. do 2 eexists. split; [reflexivity|].
  intros id s [[[Hs Hn1]%retire_lookup Hn2]%retire_lookup Hn3]%retire_lookup.
  destruct (role_of s) eqn:Hr; [by eapply Hn3, Hd|by eapply Hn1, Hh|by eapply Hn2, Hm].
Qed.

(** The events among some arrivals. *)
Definition happened (a : arrival) : option event :=
  match a with Happens ev => Some ev | _ => None end.

Lemma run_signal_loop_before timeout before arrivals d :
  Terminates ∉ before →
  run_signal_loop timeout (before ++ arrivals) (Looping d) =
    run_signal_loop timeout arrivals (Looping (run_daemon (omap happened before) d)).
Proof.
  unfold run_signal_loop. rewrite foldl_app. intros Hn. f_equal. revert d.
  induction before as [|a before IH]; intros d; [done|].
  apply not_elem_of_cons in Hn as [Ha Hn]. specialize (IH Hn).
  destruct a as [ev| |clean|nanos]; cbn [foldl arrive omap list_omap happened]; [apply (IH (step d ev))|done|apply IH..].
Qed.

(** The time that passes in some arrivals. *)
Definition elapsed_in (arrivals : list arrival) : Z :=
  foldr (λ a n, match a with Elapses nanos => Z.max 0 nanos | _ => 0 end + n) 0 arrivals.

(** What makes a drain end as it does. *)
Definition ended_by (left : Z) (later : list arrival) (how : ending) : Prop :=
  match how with
  | DrainedCleanly => Drains true ∈ later
  | DrainError => Drains false ∈ later
  | DrainTimedOut => left <= elapsed_in later
  | ForcedExit => Terminates ∈ later
  end.

Lemma elapsed_in_nonneg later : 0 <= elapsed_in later.
Proof. unfold elapsed_in. induction later as [|[] later IH]; cbn [foldr]; lia. Qed.

Lemma ended_stays timeout later d how : run_signal_loop timeout later (Ended d how) = Ended d how.
Proof. unfold run_signal_loop. induction later as [|a later IH]; [done|]. apply IH. Qed.

Lemma ended_by_later left later how a :
  ended_by (left - match a with Elapses nanos => Z.max 0 nanos | _ => 0 end) later how →
  ended_by left (a :: later) how.
Proof. destruct how; cbn [ended_by]; try (by right). unfold elapsed_in. cbn [foldr]. lia. Qed.

Lemma drain_ends timeout later d left :
  0 < left →
  (run_signal_loop timeout later (Draining d left) = Draining d (left - elapsed_in later)
   ∧ (∀ how, ¬ ended_by left later how))
  ∨ ∃ how, run_signal_loop timeout later (Draining d left) = Ended d how ∧ ended_by left later how.
Proof.
  unfold run_signal_loop. revert left. induction later as [|a later IH]; intros left Hl.
  { left. unfold elapsed_in. cbn [foldl foldr]. split; [f_equal; lia|]. intros [] He; cbn in He; try by apply not_elem_of_nil in He. lia. }
  cbn [foldl]. destruct a as [ev| |clean|nanos]; cbn [arrive].
  - destruct (IH left Hl) as [(Hr & Hn)|(how & Hr & He)].
    + left. split; [exact Hr|]. intros how He. apply (Hn how).
      destruct how; cbn [ended_by] in *; try (by apply elem_of_cons in He as [|]).  exact He.
    + right. exists how. split; [done|]. apply ended_by_later. by rewrite Z.sub_0_r.
  - right. exists ForcedExit. split; [apply ended_stays|by left].
  - right. eexists. split; [apply ended_stays|]. destruct clean; by left.
  - destruct (Z.leb_spec (left - Z.max 0 nanos) 0) as [Hle|Hgt].
    + right. exists DrainTimedOut. split; [apply ended_stays|].
      cbn. pose proof (elapsed_in_nonneg later). unfold elapsed_in in *. lia.
    + destruct (IH _ Hgt) as [(Hr & Hn)|(how & Hr & He)].
      * left. split; [rewrite Hr; f_equal; cbn; unfold elapsed_in; lia|]. intros how He. apply (Hn how).
        destruct how; cbn [ended_by] in *; try (by apply elem_of_cons in He as [|]).
        unfold elapsed_in in *. cbn [foldr] in He. lia.
      * right. exists how. split; [done|]. by apply ended_by_later.
Qed.

Lemma shutdown_timeout_bounds secs : 1 <= shutdown_timeout_from secs <= 60.
Proof.
  unfold shutdown_timeout_from. destruct (secs ≫= parse_uint 64) as [v|]; [|lia].
  destruct ((1 <=? v) && (v <=? 60)) eqn:E; [bools; lia|lia].
Qed.

(** A generation that describes the servers has a DNS server to wait for. *)
Lemma shutdown_drains timeout d :
  listeners_inv (dm_active d) (dm_world d) →
  shutdown timeout d = Draining (stop_listeners d) timeout
  ∧ (∀ id server, ¬ serving (dm_world (stop_listeners d)) id server)
  ∧ dm_handler (stop_listeners d) = dm_handler d ∧ dm_loader (stop_listeners d) = dm_loader d.
Proof.
  intros Hi. destruct (drain_stops _ _ Hi) as (a & w & E & Hno).
  destruct (inv_dns_some _ _ Hi) as [id Hd]. unfold shutdown, stop_listeners. by rewrite Hd, E.
Qed.

Lemma run_daemon_served cfg s d events :
  start_daemon cfg s = Ok d →
  well_served (dm_active (run_daemon events d)) (dm_world (run_daemon events d)).
Proof.
  intros Hd. destruct (run_daemon_inv parse_toml net rand validate hash_qname _ _ _ events Hd)
    as [_ _ _ (a0 & w0 & Hs & Ha) _ _ _ _ _ _].
  apply start_listeners_served in Hs as [Hw _]; [|done].
  pose proof (run_reloads_safe (loaded parse_toml events) a0 w0 Hw) as Hr. rewrite <- Ha in Hr.
  by destruct Hr.
Qed.

(** C8. The daemon serves until it is told to stop, and its shutdown is bounded.  Once the
    process runs, it runs as long as neither SIGTERM nor SIGINT comes, whatever else does, and
    its DNS and metrics servers take work all the while.  The first of these signals stops every
    server and leaves the handler and the loader as the events before it left them.  From then
    on the process waits, for between one and sixty seconds, for the DNS server: it is still
    waiting exactly if none of the four ends has come, and it has ended otherwise, for a cause
    that came: the server drained cleanly, it drained with an error, the time ran out, or a
    second signal forced the exit. *)
Theorem serves_until_stopped (exe : option str) (version : str) (secs : option str) (argv : list str) (mode : Z)
    (raw : option str) (s : StartEnv) (d : Daemon) (before : list arrival) :
  rustydnsd exe version secs argv mode raw s [] = StillRunning d →
  Terminates ∉ before →
  let d1 := run_daemon (omap happened before) d in
  let timeout := shutdown_timeout_from secs * NANOS in
  rustydnsd exe version secs argv mode raw s before = StillRunning d1
  ∧ well_served (dm_active d1) (dm_world d1)
  ∧ NANOS <= timeout <= 60 * NANOS
  ∧ ∃ d2, (∀ id server, ¬ serving (dm_world d2) id server)
      ∧ dm_handler d2 = dm_handler d1 ∧ dm_loader d2 = dm_loader d1
      ∧ ∀ later,
        let stopping := rustydnsd exe version secs argv mode raw s (before ++ Terminates :: later) in
        (stopping = ShuttingDown d2 (timeout - elapsed_in later) ∧ ∀ how, ¬ ended_by timeout later how)
        ∨ ∃ how, stopping = Stopped d2 how ∧ ended_by timeout later how.
Proof.
  intros Hr Hb d1 timeout. unfold rustydnsd in *. destruct (parse_args argv) as [args| | | |]; try done.
  destruct (main _ _ args mode raw s) as [[text| |d0]|e] eqn:Hm; try done. injection Hr as ->.
  assert (∃ cfg, start_daemon cfg s = Ok d) as [cfg Hd].
  { unfold main in Hm. apply bind_ok in Hm as (u & _ & (c & _ & Hm)%bind_ok).
    destruct (print_config args); [done|]. destruct (validate_only args); [by run_ok|].
    apply fmap_ok in Hm as (d' & Hd & [= ->]). by exists c. }
  pose proof (run_daemon_served cfg s d (omap happened before) Hd) as Hw. fold d1 in Hw.
  pose proof (shutdown_timeout_bounds secs) as Ht.
  split; [|split; [done|split; [unfold timeout, NANOS; lia|]]].
  { by rewrite <- (app_nil_r before), run_signal_loop_before. }
  destruct (shutdown_drains timeout d1 (proj1 Hw)) as (Hs & Hno & Hh & Hl).
  exists (stop_listeners d1). do 3 (split; [done|]).
  intros later. rewrite run_signal_loop_before by done. fold d1. fold timeout.
  unfold run_signal_loop. cbn [foldl arrive]. rewrite Hs.
  assert (0 < timeout) as Hpos by (unfold timeout, NANOS; lia).
  destruct (drain_ends timeout later (stop_listeners d1) timeout Hpos) as [[Hr Hn]|(how & Hr & He)].
  - left. unfold run_signal_loop in Hr. by rewrite Hr.
  - right. exists how. unfold run_signal_loop in Hr. by rewrite Hr.
Qed.
End process.

(** ** Witness: the demo daemon, run and stopped *)

#[local] Existing Instances demo_hickory demo_server demo_upstream demo_odoh ascii_only
  RegexRules.literal_regex Mesh.demo_ed25519 granting Metrics.documented_families.

Definition demo_process (arrivals : list arrival) : exit_status :=
  rustydnsd demo_toml (λ _, []) demo_net demo_draws demo_validate QueryLog.demo_hash None "0.1.0"%rs (Some "30"%rs)
    ["--config"%rs; "rustydns.toml"%rs] 384 (Some "a"%rs) demo_start_env arrivals.

Lemma demo_loads : load_config demo_toml (Some "a"%rs) = Some demo_daemon.
Proof. vm_compute. reflexivity. Qed.

Lemma demo_process_runs : ∃ d, demo_process [] = StillRunning d.
Proof.
  destruct demo_boot_ok as (d & E & _). exists d. unfold demo_process, rustydnsd.
  assert (main demo_toml (λ _, []) {| config_path := "rustydns.toml"%rs; validate_only := false;
    print_config := false |} 384 (Some "a"%rs) demo_start_env = Ok (Running d)) as Hm.
  { unfold main. rewrite demo_loads. change (Running <$> demo_boot = Ok (Running d)). by rewrite E. }
  change (parse_args _) with (RunWith {| config_path := "rustydns.toml"%rs; validate_only := false;
    print_config := false |}). cbv beta iota. by rewrite Hm.
Qed.

Lemma serves_until_stopped_witness :
  ∃ d2 how, demo_process ((Happens <$> demo_run) ++ [Terminates; Elapses 1; Terminates]) = Stopped d2 how
    ∧ ∀ id server, ¬ serving (dm_world d2) id server.
Proof.
  destruct demo_process_runs as [d E].
  destruct (serves_until_stopped demo_toml (λ _, []) demo_net demo_draws demo_validate QueryLog.demo_hash
    None "0.1.0"%rs (Some "30"%rs) ["--config"%rs; "rustydns.toml"%rs] 384 (Some "a"%rs) demo_start_env d
    (Happens <$> demo_run) E) as (_ & _ & _ & d2 & Hno & _ & _ & Hl).
  { intros (ev & Hev & _)%list_elem_of_fmap. discriminate. }
  destruct (Hl [Elapses 1; Terminates]) as [[_ Hn]|(how & Hs & _)].
  - destruct (Hn ForcedExit). right. left.
  - exists d2, how. exact (conj Hs Hno).
Defined.
