(* ===== verification/Warnings.v ===== *)
(** * Warnings: what the daemon says of a configuration that it accepts
    ([rustydns-core/src/config.rs], [rustydns-resolver/src/lib.rs], [rustydnsd/src/main.rs])

    A configuration that is insecure but not invalid is accepted with a warning.  Here are the
    warnings of the checks of the file's mode, of [validate_config], of [main] before it
    exits or starts, and of [Resolver::new], in the order they are logged for a configuration
    that is accepted, with what they quote; and what their absence means. *)

From S2P Require Import Prelude RustStr Net Config Record Hickory Answers Odoh Resolver Handler.
From S2P Require Import Listeners Loader Toml Daemon.
From S2P Require Validate RegexRules Mesh QueryLog Metrics.

Inductive warning :=
| ConfigGroupReadable (mode : Z)
| MeshZonesDisagree (server authority : str)
| ListensEverywhere (addr : str)
| UpstreamUnencrypted
| RouteUnencrypted (zone : str)
| DnssecOff
| QueriesOnDisk
| ClientIpsLogged
| MetricsNotLoopback (listen : str)
| PolicyMatchesNothing (idx : nat)
| QueryMinimizationInert
| UpstreamPaddingInert
| OdohPosture (dnssec : bool).

#[export] Instance warning_eq_dec : EqDecision warning.
Proof. solve_decision. Defined.

(** [if c { warn!(w) }]. *)
Definition warn_if (c : bool) (w : warning) : list warning := if c then [w] else [].

Definition permission_warnings (mode : Z) : list warning :=
  warn_if (negb (Z.land mode 32 =? 0)) (ConfigGroupReadable (Z.land mode 511)).

Definition zone_warnings (cfg : DnsConfig) : list warning :=
  let s := server_mesh_zone (cfg_server cfg) in
  let a := authority_mesh_zone (cfg_authority cfg) in
  warn_if (negb (eq_ignore_ascii_case s a)) (MeshZonesDisagree s a).

Definition listen_warnings (s : ServerConfig) : list warning :=
  server_listen s ≫= λ addr, warn_if (starts_with "0.0.0.0"%rs addr) (ListensEverywhere addr).

Definition route_warnings (zone_of : UpstreamRoute → str) (u : UpstreamConfig) : list warning :=
  upstream_routes u ≫= λ r,
    warn_if (bool_decide (route_protocol r = Plain)) (RouteUnencrypted (zone_of r)).

Definition upstream_warnings (u : UpstreamConfig) : list warning :=
  warn_if (bool_decide (upstream_protocol u = Plain)) UpstreamUnencrypted
  ++ route_warnings config_zone u
  ++ warn_if (negb (upstream_dnssec_validation u)) DnssecOff.

Definition privacy_warnings (p : PrivacyConfig) : list warning :=
  warn_if (privacy_query_log_to_disk p) QueriesOnDisk
  ++ warn_if (privacy_log_client_ips p) ClientIpsLogged.

Definition metrics_warnings (m : MetricsConfig) : list warning :=
  match parse_socket_addr (metrics_listen m) with
  | Some addr =>
      warn_if (negb (is_loopback (Validate.norm_ip (sa_ip addr)))) (MetricsNotLoopback (metrics_listen m))
  | None => []
  end.

Definition policy_warnings (ps : list NodePolicy) : list warning :=
  imap pair ps ≫= λ '(idx, p),
    warn_if (bool_decide (is_Some (policy_node_id p)) && bool_decide (policy_client_ip p = None))
      (PolicyMatchesNothing idx).

Definition validate_warnings (cfg : DnsConfig) : list warning :=
  zone_warnings cfg ++ listen_warnings (cfg_server cfg) ++ upstream_warnings (cfg_upstream cfg)
  ++ privacy_warnings (cfg_privacy cfg) ++ metrics_warnings (cfg_metrics cfg) ++ policy_warnings (cfg_policy cfg).

Definition knob_warnings (cfg : DnsConfig) : list warning :=
  warn_if (privacy_query_minimization (cfg_privacy cfg)) QueryMinimizationInert
  ++ warn_if (privacy_upstream_padding (cfg_privacy cfg)
              && negb (bool_decide (upstream_protocol (cfg_upstream cfg) = Config.Odoh)))
       UpstreamPaddingInert.

Definition resolver_warnings (cfg : DnsConfig) : list warning :=
  let u := cfg_upstream cfg in
  warn_if (bool_decide (upstream_protocol u = Plain)) UpstreamUnencrypted
  ++ warn_if (bool_decide (upstream_protocol u = Config.Odoh)) (OdohPosture (upstream_dnssec_validation u))
  ++ route_warnings route_zone u.

(** What is logged before [--validate-config] or [--print-config] ends. *)
Definition load_warnings (mode : Z) (cfg : DnsConfig) : list warning :=
  permission_warnings mode ++ validate_warnings cfg ++ knob_warnings cfg.

(** ** What is not warned of *)

Lemma elem_of_warn_if c w w' : w' ∈ warn_if c w ↔ c = true ∧ w' = w.
Proof. unfold warn_if. destruct c; set_solver. Qed.

Lemma elem_of_warn_each {A} (c : A → bool) (f : A → warning) (l : list A) w :
  w ∈ (l ≫= λ x, warn_if (c x) (f x)) ↔ ∃ x, x ∈ l ∧ c x = true ∧ w = f x.
Proof.
  rewrite list_elem_of_bind. split.
  - intros (x & [Hc ->]%elem_of_warn_if & Hx). by exists x.
  - intros (x & Hx & Hc & ->). exists x. by rewrite elem_of_warn_if.
Qed.

(** The warnings that a configuration's queries leave in the clear or unchecked. *)
Definition exposing (w : warning) : bool :=
  match w with UpstreamUnencrypted | RouteUnencrypted _ | DnssecOff => true | _ => false end.

Lemma not_exposing cfg :
  existsb exposing (validate_warnings cfg) = false →
  upstream_protocol (cfg_upstream cfg) ≠ Plain
  ∧ Forall (λ r, route_protocol r ≠ Plain) (upstream_routes (cfg_upstream cfg))
  ∧ upstream_dnssec_validation (cfg_upstream cfg) = true.
Proof.
  intros Hn.
  assert (∀ w, w ∈ upstream_warnings (cfg_upstream cfg) → exposing w = true → False) as Hno.
  { intros w Hw He. rewrite <- not_true_iff_false in Hn. apply Hn, existsb_elem_of. exists w.
    split; [|done]. unfold validate_warnings. set_solver. }
  unfold upstream_warnings in Hno. setoid_rewrite elem_of_app in Hno. setoid_rewrite elem_of_app in Hno.
  unfold route_warnings in Hno. split_and!.
  - intros Hp. apply (Hno UpstreamUnencrypted); [|done]. left. apply elem_of_warn_if.
    by rewrite bool_decide_true.
  - apply list.Forall_forall. intros r Hr Hp. apply (Hno (RouteUnencrypted (config_zone r))); [|done].
    right. left. apply elem_of_warn_each. exists r. by rewrite bool_decide_true.
  - destruct (upstream_dnssec_validation _) eqn:E; [done|]. exfalso. apply (Hno DnssecOff); [|done].
    right. right. by apply elem_of_warn_if.
Qed.

Section resolver.
Context `{Upstream} `{!OdohLib}.

(** An arm whose resolver was built to ask encrypted servers only, at the floor of TLS, and
    to validate. *)
Definition arm_private (arm : ResolverArm) : Prop :=
  ∃ servers opts tls, hickory_build servers opts tls = Ok (inner arm)
    ∧ Forall (λ ns, ns_transport_of ns ≠ NsUdpTcp) servers
    ∧ opt_validate opts = true ∧ tls_version tls = Tls13.

Definition resolver_private (r : Resolver) : Prop :=
  match res_default r with
  | HickoryArm arm => arm_private arm
  | OdohDefault a => https_only (http (transport a)) = true ∧ trust_anchor a = true
  end
  ∧ Forall (λ route, arm_private (route_arm route)) (res_routes r).

Lemma build_name_servers_encrypted url protocol servers :
  protocol ≠ Plain → build_name_servers url protocol = Ok servers →
  Forall (λ ns, ns_transport_of ns ≠ NsUdpTcp) servers.
Proof.
  intros Hp Hb. unfold build_name_servers in Hb. run_ok. apply try_map_ok in Hb.
  eapply Forall2_Forall_r; [exact Hb|]. apply list.Forall_true. intros ip ns Hns. unfold name_server in Hns.
  destruct protocol; try done; by injection Hns as <-.
Qed.

Lemma build_resolver_arm_private label urls protocol tls config arm :
  protocol ≠ Plain → upstream_dnssec_validation (cfg_upstream config) = true → tls_version tls = Tls13 →
  build_resolver_arm label urls protocol tls config = Ok arm → arm_private arm.
Proof.
  intros Hp Hd Ht Hb. unfold build_resolver_arm in Hb. run_ok.
  do 3 eexists. split; [eassumption|]. split; [|done].
  apply Forall_concat, list.Forall_forall. intros servers Hs.
  apply list_elem_of_omap in Hs as (url & _ & Hu).
  destruct (build_name_servers url protocol) eqn:E; [|done]. injection Hu as <-.
  by eapply build_name_servers_encrypted.
Qed.
Lemma resolver_new_private cfg r :
  existsb exposing (validate_warnings cfg) = false → resolver_new cfg = Ok r → resolver_private r.
Proof.
  intros (Hp & Hr & Hd)%not_exposing Hn. unfold resolver_new in Hn. run_ok.
  match goal with He : try_map _ _ = Ok _ |- _ => apply try_map_ok in He; rename He into Hroutes end.
  split; cbn [res_default res_routes].
  - case_bool_decide.
    + apply fmap_ok in Hrun0 as (arm & Ha%map_err_ok & ->). destruct (odoh_new_client _ _ Ha) as (Hs & _ & Ht & _). by rewrite Ht.
    + apply fmap_ok in Hrun0 as (arm & Ha & ->). eapply build_resolver_arm_private; [done|done| |exact Ha]. by destruct (upstream_min_tls_version _).
  - apply list.Forall_forall. intros route Hin%sort_desc_elem.
    apply list_elem_of_lookup in Hin as [i Hi].
    eapply Forall2_lookup_r in Hi as (x & Hx & Hb); [|exact Hroutes].
    unfold build_route in Hb. run_ok. eapply build_resolver_arm_private; [|exact Hd| |eassumption].
    + rewrite list.Forall_forall in Hr. by eapply Hr, list_elem_of_lookup_2.
    + by destruct (upstream_min_tls_version _).
Qed.
End resolver.

(** Every policy entry that is not warned of selects a client. *)
Lemma unwarned_policies `{RegexRules.RegexCrate} cfg :
  Validate.validate_config cfg = Ok () → policy_warnings (cfg_policy cfg) = [] →
  Forall (λ p, ∃ ip, (policy_client_ip p ≫= parse_ip) = Some ip) (cfg_policy cfg).
Proof.
  intros Hv Hw. unfold Validate.validate_config in Hv. run_ok. apply Forall_lookup. intros idx p Hp.
  match goal with He : Validate.try_enumerate (Validate.policy_check _) _ = _ |- _ =>
    rewrite Validate.try_enumerate_ok in He; specialize (He idx p Hp); unfold Validate.policy_check in He;
    rename He into Hc
  end.
  assert (policy_client_ip p ≠ None ∨ policy_node_id p = None) as Hn.
  { destruct (policy_client_ip p) eqn:Hip; [by left|right]. destruct (policy_node_id p) eqn:Hid; [|done].
    exfalso. assert (PolicyMatchesNothing idx ∈ policy_warnings (cfg_policy cfg)) as Hin; [|rewrite Hw in Hin; set_solver].
    unfold policy_warnings. apply list_elem_of_bind. exists (idx, p). rewrite elem_of_warn_if, Hid, Hip.
    split; [done|]. by apply elem_of_lookup_imap_2. }
  destruct (policy_client_ip p) as [ip|] eqn:Hip.
  - run_ok. bools. cbn [mbind option_bind]. by apply not_eq_None_Some.
  - destruct Hn as [|Hid]; [done|]. rewrite Hid in Hc. by run_ok.
Qed.

(** ** The daemon *)

Section daemon.
Context `{Hickory} `{!Server} `{!Upstream} `{!OdohLib} `{Unicode} `{RegexRules.RegexCrate}.
Context `{Mesh.Ed25519} `{Os} `{Metrics.Prometheus}.
Context (parse_toml : str → option value).
Context (net : list action → action → reply) (rand : list action → draw → Z).
Context (validate : (bytes → OdohState → result OdohError bytes * OdohState) →
  HName → RecordType → OdohState → option (list RR * ResponseCode) * OdohState).
Context (hash_qname : str → Z).

(** C11. No query goes out in the clear, or unchecked, without a warning.  Whatever the daemon
    went through, each arm of the resolver it uses was built to ask encrypted servers only,
    at the floor of TLS, and to validate DNSSEC, the oblivious arm with a client that speaks
    HTTPS only; or else the configuration that resolver was built from, at start-up or at a
    reload, was accepted with a warning that says so. *)
Theorem plaintext_is_warned (cfg : DnsConfig) (s : StartEnv) (d : Daemon) (events : list event) :
  start_daemon cfg s = Ok d →
  let r := h_resolver (dm_handler (run_daemon parse_toml net rand validate hash_qname events d)) in
  ∃ c, c ∈ cfg :: loaded parse_toml events ∧ resolver_new c = Ok r
    ∧ (resolver_private r ∨ ∃ w, w ∈ validate_warnings c ∧ exposing w = true).
Proof.
  intros Hd r. destruct (run_daemon_inv parse_toml net rand validate hash_qname _ _ _ events Hd)
    as [_ _ _ _ _ _ _ [(c & Hc & Hr) _] _ _].
  exists c. split; [done|]. split; [done|].
  destruct (existsb exposing (validate_warnings c)) eqn:E; [right; by apply existsb_elem_of|left].
  by eapply resolver_new_private.
Qed.
End daemon.

(** ** Examples *)

#[local] Existing Instances demo_hickory demo_server demo_upstream demo_odoh ascii_only
  RegexRules.literal_regex Mesh.demo_ed25519 granting Metrics.documented_families.

(** The defaults are encrypted and validated; that the names are sent in full is said. *)
Example default_warnings :
  load_warnings 384 (Validate.demo_valid_config)
  = [MeshZonesDisagree "mesh."%rs "rustynet."%rs; ListensEverywhere "0.0.0.0:53"%rs;
     QueryMinimizationInert; UpstreamPaddingInert].
Proof. vm_compute. reflexivity. Qed.

(** The IPv6 wildcard, which takes IPv4 clients too, is accepted without a word. *)
Example ipv6_wildcard_silent :
  let cfg :=
    {| cfg_server :=
         {| server_listen := ["[::]:53"%rs]; server_mesh_zone := "rustynet."%rs; server_doh_listen := None;
            server_dot_listen := None; server_doq_listen := None; server_tls_cert_path := None;
            server_tls_key_path := None |};
       cfg_upstream := UpstreamConfig_default;
       cfg_authority := cfg_authority Validate.demo_valid_config;
       cfg_blocklist := BlocklistConfig_default; cfg_privacy := PrivacyConfig_default;
       cfg_metrics := MetricsConfig_default; cfg_rate_limit := RateLimitConfig_default;
       cfg_policy := []; cfg_rewrite := []; cfg_safesearch := SafeSearchConfig_default |} in
  Validate.validate_config cfg = Ok ()
  ∧ load_warnings 384 cfg = [QueryMinimizationInert; UpstreamPaddingInert]
  ∧ Validate.receives (V6 0) (V4 3232235777).
Proof. split_and!; [vm_compute; reflexivity..|]. right. left. reflexivity. Qed.

Lemma plaintext_is_warned_witness :
  ∃ d, demo_boot = Ok d ∧ ∃ c, c ∈ demo_daemon :: loaded demo_toml demo_run
    ∧ resolver_new c = Ok (h_resolver (dm_handler (run_daemon demo_toml demo_net demo_draws demo_validate
                                                     QueryLog.demo_hash demo_run d)))
    ∧ (resolver_private (h_resolver (dm_handler (run_daemon demo_toml demo_net demo_draws demo_validate
                                                   QueryLog.demo_hash demo_run d)))
       ∨ ∃ w, w ∈ validate_warnings c ∧ exposing w = true).
Proof.
  destruct demo_boot_ok as (d & E & _). exists d. split; [exact E|].
  exact (plaintext_is_warned demo_toml demo_net demo_draws demo_validate QueryLog.demo_hash demo_daemon
    demo_start_env d demo_run E).
Defined.
